(* ===== verification/_CoqProject ===== *)
-Q . S2P
Prelude.v
GoBytes.v
GoSort.v
KV.v
Entries.v
HLC.v
Bloom.v
WAL.v
Heap.v
Iter.v
SkipList.v
Memtable.v
Iterators.v
Block.v
SSTable.v
SSTIter.v
Cache.v
Manifest.v
Compaction.v
Refcount.v
Registry.v
DB.v
DBProof.v
DBSpec.v
DBScan.v
Transaction.v
HashRing.v
Envelope.v
KVStore.v
EngineStore.v
Member.v
Replica.v
HintStore.v
Coordinator.v
CoordSpec.v
MerkleTree.v
Reconcile.v
ReconcileProof.v
Round.v
MemberProof.v
Admin.v
Drain.v
DrainProof.v
HNSW.v
HNSWProof.v
HNSWSpec.v
HNSWSnapshot.v
VecCodec.v
VectorStore.v
VectorProof.v
VectorRebuild.v
EngineSeq.v
VectorServer.v
VectorCoord.v
VectorCoordProof.v
Manager.v
Handlers.v
Standalone.v
Transport.v
PeerPool.v
Node.v
