(* ===== verification/Prelude.v ===== *)
(** * Theseon: a verification development

    Theseon is a key-value store with vector search, in Go: an LSM storage engine
    for one node, and a cluster layer that replicates it.  This library models its
    packages under src/ as definitions that follow the code line by line, and
    proves what they promise.

    ** The program and the files that model it

    Storage engine.
    - Formats of the standard library, order on bytes: GoBytes, GoSort, Heap.
    - src/kv: KV; lists of versions, the reference semantics of every sorted
      container: Entries.
    - src/hlc: HLC.  src/wal: WAL.
    - src/memtable: SkipList (pointers in an arena), Memtable (lock as a count).
    - src/iterator: Iter (the interface as a class), Iterators.
    - src/sstable: Bloom, Block, SSTable (file format, builder, reader), SSTIter,
      Cache (block cache), Refcount (table handles).
    - src/manifest: Manifest.  src/compaction: Compaction.
    - src/db: Registry (snapshots), DB (state, one definition per operation),
      DBProof (invariant), DBSpec and DBScan (theorems), Transaction.

    Cluster.
    - src/hashring: HashRing.  src/cluster/envelope.go: Envelope.
    - The store as the cluster uses it: KVStore, a class of operations with its
      laws; EngineStore shows that the engine of DB satisfies them.
    - membership, gossip, SWIM: Member, MemberProof; its messages on the wire:
      Transport; ring commands: Admin; connections: PeerPool.
    - replica handlers: Replica; quorum reads and writes: Coordinator, CoordSpec.
    - hinted handoff: HintStore, Drain, DrainProof.
    - anti-entropy: MerkleTree, Reconcile, ReconcileProof, Round, Manager.

    Vectors.
    - src/vector/hnsw: HNSW, HNSWProof, HNSWSpec, HNSWSnapshot.
    - src/vector: VecCodec, VectorStore, VectorProof, VectorRebuild; the engine as
      its store: EngineSeq.
    - replication of vectors: VectorServer, VectorCoord, VectorCoordProof.

    The node.
    - client RPCs: Handlers; a standalone node down to its engine: Standalone;
      defaults, adapters and callbacks: Node.

    ** How the model reads

    A Go function is a function on the state it changes; [outcome] below is its
    result: a value, an error, or a run-time panic.  Integers are [Z] with the
    wrap-around of their width written out where it matters.  A critical section
    is one step; where a lock is released in between (a wait, a callback, two
    sections) the steps are apart and others may come between them.  Goroutines are
    tasks that run in any order, remote calls have a [fate] (lost, answer lost,
    delivered), clocks and random numbers are arguments.  The iteration order of Go
    maps, [sort.Slice] and shuffles are parameters of which only that they permute
    is assumed.  Code outside src/ is a parameter too: xxhash ([Sum64]), protobuf
    marshalling, gRPC dialling.  Floats are abstract in the index (a distance with
    a strict weak order) and bit patterns in the encodings.

    ** What is proved

    - Refinement: within its limits the engine is a map and a versioned store
      ([DBSpec], [DBScan]) and a standalone node is a map from its clients down to
      the engine ([Standalone]); the cache is an LRU list; the vector index is a map
      of vectors ([HNSWSpec]), and a restart finds them again ([VectorRebuild]).
    - Invariants: of the engine with flushes and compactions in progress, of the
      membership under every interleaving, of the graph, of vector store and index
      together, of hint accounting, connections and reconcile slots.
    - Consistency: quorum reads see acknowledged writes when replicas do not go
      back ([CoordSpec]); an acknowledged vector write is at a quorum, a vector
      query answers the newest versions ([VectorCoordProof]); a reconcile round
      repairs what the trees tell apart, when nothing is younger than the grace
      period ([Round]); hints reach their target ([DrainProof]); nodes that heard
      the same gossip agree ([MemberProof]); the ring is the one the descriptor
      lists when callbacks run in order ([Node]).
    - Codecs: round trips of records, blocks, tables, envelopes, hints, vectors and
      snapshots; recovery after a torn write.
    - Termination: flushes, rounds, drains, searches, requests.
    - Flaws: where the code does not keep what it means to, a lemma shows it on a
      run, and its comment says so; the theorem that needs the condition the code
      does not ensure states it as a hypothesis and names that lemma.

    ** Fuel

    Loops that are not structural take fuel, and running out of it is a [Panic] or
    a [None]; the theorems that exclude these show the fuel to be enough.  The
    bounds are: the nodes of the arena for skip-list walks, the entries of all
    sources for iterators and compactions, the nodes of the graph for greedy
    descent and beam search, the nodes of the tree for the descent of a round, the
    hints of a target for its drain.

    ** Limits

    [DBSpec.admissible_b] lists what the engine theorems ask of a run: no user key
    is a proper prefix of another one, values are not nil and fit the table format,
    tables stay below 4 GiB, counters below their width, and a compaction does not
    split the versions of a key; the flaws show what happens outside.  The code
    checks none of them.  The operations of Standalone refuse nothing either, and
    its theorem is about runs within the limits; only the type [engine] of
    EngineStore, which shows that the laws of KVStore can be met by the engine,
    refuses what they exclude.

    Not modelled: file-system and network errors other than lost calls; fsync;
    protobuf's refusal of strings that are not UTF-8; a failing allocation, such as
    the one a forged header of a vector snapshot asks for;
    the probe loop of SWIM with its timers and the fan-out of indirect pings;
    construction and shutdown of the components (src/server/server.go, most of
    src/node/node.go, src/cmd); float arithmetic and SIMD kernels
    (src/internal/simd, src/vector/hnsw/distance.go); metrics and logging
    (src/metrics); generated code (src/proto); the evaluation tools of
    src/vector/eval and the benchmarks.  The laws of
    KVStore are discharged for the engine in EngineStore, those of the range scans
    by which the vector store recovers ([KVSeq]) in EngineSeq. *)

From Stdlib Require Import ZArith Lia List Sorted.
From Stdlib.Strings Require Import Byte.
From stdpp Require Import base list gmap sorting.

(** ** Outcomes of Go code: a value, an [error], or a run-time panic. *)
Inductive outcome (E A : Type) : Type :=
| Ok (a : A)
| Err (e : E)
| Panic.
Arguments Ok {E A} a.
Arguments Err {E A} e.
Arguments Panic {E A}.

#[global] Instance outcome_ret E : MRet (outcome E) := fun _ a => Ok a.
#[global] Instance outcome_bind E : MBind (outcome E) := fun _ _ k m =>
  match m with Ok a => k a | Err e => Err e | Panic => Panic end.

#[global] Instance outcome_eq_dec E A `{!EqDecision E, !EqDecision A} :
  EqDecision (outcome E A).
Proof. solve_decision. Defined.

(** [guard_err b e] is the early return [if b { return e }]. *)
Definition fail_if {E} (b : bool) (e : E) : outcome E unit :=
  if b then Err e else Ok tt.

Declare Scope go_scope.
Delimit Scope go_scope with go.
Open Scope Z_scope.

(** ** Lengths, indexing and slicing with Go's [int] *)

Definition len {A} (l : list A) : Z := Z.of_nat (length l).

(** [l[a:b]]: panics unless [0 <= a <= b <= len l]. *)
Definition slice {E A} (l : list A) (a b : Z) : outcome E (list A) :=
  if (0 <=? a) && (a <=? b) && (b <=? len l)
  then Ok (take (Z.to_nat (b - a)) (drop (Z.to_nat a) l))
  else Panic.

(** [l[a:]] *)
Definition slice_from {E A} (l : list A) (a : Z) : outcome E (list A) :=
  slice l a (len l).

(** [l[i]] *)
Definition index {E A} (l : list A) (i : Z) : outcome E A :=
  if (0 <=? i) && (i <? len l)
  then match l !! Z.to_nat i with Some x => Ok x | None => Panic end
  else Panic.

Section len_lemmas.
Context {E A : Type}.
Implicit Types l : list A.

Lemma len_nil : len (@nil A) = 0.
Proof. reflexivity. Qed.
Lemma len_cons x l : len (x :: l) = 1 + len l.
Proof. unfold len. cbn [length]. lia. Qed.
Lemma len_app l1 l2 : len (l1 ++ l2) = len l1 + len l2.
Proof. unfold len. rewrite length_app. lia. Qed.
Lemma len_nonneg l : 0 <= len l.
Proof. unfold len. lia. Qed.
Lemma len_to_nat l : Z.to_nat (len l) = length l.
Proof. unfold len. lia. Qed.
Lemma len_map {B} (f : B -> A) k : len (map f k) = len k.
Proof. unfold len. rewrite length_map. lia. Qed.
Lemma len_zero_nil l : len l = 0 -> l = [].
Proof. destruct l; [done|]. rewrite len_cons. pose proof (len_nonneg l). lia. Qed.

Lemma slice_ok l a b :
  0 <= a -> a <= b -> b <= len l ->
  @slice E A l a b = Ok (take (Z.to_nat (b - a)) (drop (Z.to_nat a) l)).
Proof. intros. unfold slice. rewrite !(proj2 (Z.leb_le _ _)) by lia. done. Qed.

(** The slice that picks the middle of three concatenated pieces. *)
Lemma slice_app3 l1 l2 l3 a b :
  a = len l1 -> b = len l1 + len l2 -> @slice E A (l1 ++ l2 ++ l3) a b = Ok l2.
Proof.
  intros -> ->. pose proof (len_nonneg l1). pose proof (len_nonneg l2).
  pose proof (len_nonneg l3).
  rewrite slice_ok by (rewrite ?len_app; lia). f_equal.
  rewrite len_to_nat, drop_app_length.
  replace (Z.to_nat _) with (length l2) by (unfold len; lia).
  apply take_app_length.
Qed.

Lemma slice_to_app l1 l2 b : b = len l1 -> @slice E A (l1 ++ l2) 0 b = Ok l1.
Proof. intros ->. apply (slice_app3 [] l1 l2); [done|]. by rewrite len_nil. Qed.

Lemma slice_from_app l1 l2 a :
  a = len l1 -> @slice_from E A (l1 ++ l2) a = Ok l2.
Proof.
  intros ->. unfold slice_from. rewrite <-(app_nil_r l2) at 1.
  apply slice_app3; [done|]. rewrite len_app. lia.
Qed.

Lemma slice_from_app2 l1 l2 l3 a :
  a = len l1 + len l2 -> @slice_from E A (l1 ++ l2 ++ l3) a = Ok l3.
Proof. intros ->. rewrite app_assoc. apply slice_from_app. by rewrite len_app. Qed.
Lemma slice_from_app3 l1 l2 l3 l4 a :
  a = len l1 + len l2 + len l3 -> @slice_from E A (l1 ++ l2 ++ l3 ++ l4) a = Ok l4.
Proof.
  intros ->. rewrite (app_assoc l1), (app_assoc (l1 ++ l2)). apply slice_from_app.
  by rewrite !len_app.
Qed.

Lemma slice_eq l l1 l2 l3 a b :
  l = l1 ++ l2 ++ l3 -> a = len l1 -> b = len l1 + len l2 -> @slice E A l a b = Ok l2.
Proof. intros ->. apply slice_app3. Qed.
Lemma slice_from_eq l l1 l2 a : l = l1 ++ l2 -> a = len l1 -> @slice_from E A l a = Ok l2.
Proof. intros ->. apply slice_from_app. Qed.
Lemma index_eq l l1 x l2 a : l = l1 ++ x :: l2 -> a = len l1 -> @index E A l a = Ok x.
Proof. intros -> ->. unfold index. pose proof (len_nonneg l1). pose proof (len_nonneg l2).
  rewrite (proj2 (Z.leb_le _ _)) by lia.
  rewrite (proj2 (Z.ltb_lt _ _)) by (rewrite len_app, len_cons; lia).
  cbn. rewrite len_to_nat, list_lookup_middle by done. done.
Qed.

Lemma slice_from_ok l a :
  0 <= a <= len l -> @slice_from E A l a = Ok (drop (Z.to_nat a) l).
Proof.
  intros. unfold slice_from. rewrite slice_ok by lia. f_equal.
  apply take_ge. rewrite length_drop. unfold len. lia.
Qed.

Lemma slice_full l : @slice E A l 0 (len l) = Ok l.
Proof.
  pose proof (len_nonneg l). rewrite slice_ok by lia. f_equal.
  rewrite Z.sub_0_r, len_to_nat. cbn. apply firstn_all.
Qed.
End len_lemmas.

Create Rewrite HintDb lens.
#[export] Hint Rewrite @len_nil @len_cons @len_app @len_map : lens.

(** Normalise lengths, remember that every length is non-negative, then [lia]. *)
Ltac len_nonneg_all :=
  repeat match goal with
  | |- context [len ?l] =>
      lazymatch goal with
      | H : 0 <= len l |- _ => fail
      | _ => pose proof (len_nonneg l)
      end
  | _ : context [len ?l] |- _ =>
      lazymatch goal with
      | H : 0 <= len l |- _ => fail
      | _ => pose proof (len_nonneg l)
      end
  end.
Ltac len_lia := autorewrite with lens in *; len_nonneg_all; lia.

(** [lia] on goals with [/] and [mod] by constants. *)
Ltac div_lia := Z.to_euclidean_division_equations; lia.

(** [l = l1 ++ l2] up to associativity. *)
Ltac app_eq := repeat (progress (cbn [app]; rewrite <-?app_assoc)); reflexivity.

(** Decide a closed proposition by evaluation. *)
Ltac by_decide := apply (bool_decide_unpack _); vm_compute; exact I.
