(* ===== verification/GoBytes.v ===== *)
(** * Bytes, byte order and checksums

    The parts of Go's standard library the engine's formats rest on:
    [encoding/binary] (little- and big-endian unsigned integers),
    [bytes.Compare] / [bytes.Equal] and [hash/crc32].  Bytes are the
    256-constructor type of the Standard Library, so every [bytes] value
    is a Go byte slice; machine integers are [Z] with their wrap-around
    written out. *)

From Stdlib Require Import ZArith Lia.
From Stdlib.Strings Require Import Byte.
From stdpp Require Import base list countable.
From S2P Require Import Prelude.

Abbreviation byte := Init.Byte.byte.
Abbreviation bytes := (list byte).

#[global] Instance byte_eq_dec : EqDecision byte := Byte.byte_eq_dec.

Definition bZ (b : byte) : Z := Z.of_N (Byte.to_N b).
Definition Zb (z : Z) : byte :=
  match Byte.of_N (Z.to_N (z mod 256)) with Some b => b | None => Byte.x00 end.

Lemma bZ_range b : 0 <= bZ b < 256.
Proof. unfold bZ. pose proof (Byte.to_N_bounded b). lia. Qed.

Lemma bZ_inj a b : bZ a = bZ b -> a = b.
Proof.
  unfold bZ. intros H%N2Z.inj. pose proof (Byte.of_to_N a). pose proof (Byte.of_to_N b).
  congruence.
Qed.

Lemma bZ_Zb z : bZ (Zb z) = z mod 256.
Proof.
  unfold bZ, Zb. pose proof (Z.mod_pos_bound z 256 eq_refl).
  destruct (Byte.of_N (Z.to_N (z mod 256))) as [b|] eqn:E.
  - apply Byte.to_of_N in E. lia.
  - apply Byte.of_N_None_iff in E. lia.
Qed.

Lemma Zb_bZ b : Zb (bZ b) = b.
Proof. apply bZ_inj. rewrite bZ_Zb. apply Z.mod_small, bZ_range. Qed.

#[global] Instance byte_countable : Countable byte.
Proof.
  apply (inj_countable' Byte.to_N (fun n => default Byte.x00 (Byte.of_N n))).
  intros b. by rewrite Byte.of_to_N.
Defined.

(** ** Machine widths *)
Definition u8 (z : Z) : Z := z mod 2^8.
Definition u16 (z : Z) : Z := z mod 2^16.
Definition u32 (z : Z) : Z := z mod 2^32.
Definition u64 (z : Z) : Z := z mod 2^64.
(** [int64(x)]: two's complement *)
Definition i64 (z : Z) : Z := (z + 2^63) mod 2^64 - 2^63.

Lemma u64_small z : 0 <= z < 2^64 -> u64 z = z.
Proof. apply Z.mod_small. Qed.
Lemma u32_small z : 0 <= z < 2^32 -> u32 z = z.
Proof. apply Z.mod_small. Qed.
Lemma u16_small z : 0 <= z < 2^16 -> u16 z = z.
Proof. apply Z.mod_small. Qed.
Definition i32 (z : Z) : Z := (z + 2^31) mod 2^32 - 2^31.
Lemma i32_small z : - 2^31 <= z < 2^31 -> i32 z = z.
Proof. intros H. unfold i32. rewrite Z.mod_small; lia. Qed.
Lemma u64_range z : 0 <= u64 z < 2^64.
Proof. apply Z.mod_pos_bound. lia. Qed.
Lemma u32_range z : 0 <= u32 z < 2^32.
Proof. apply Z.mod_pos_bound. lia. Qed.
Lemma i64_range z : -2^63 <= i64 z < 2^63.
Proof. unfold i64. pose proof (Z.mod_pos_bound (z + 2^63) (2^64) ltac:(lia)). lia. Qed.
Lemma i64_small z : -2^63 <= z < 2^63 -> i64 z = z.
Proof. intros. unfold i64. rewrite Z.mod_small; lia. Qed.
Lemma i64_u64 z : -2^63 <= z < 2^63 -> i64 (u64 z) = z.
Proof.
  intros. unfold i64, u64. rewrite Z.add_mod_idemp_l by lia.
  rewrite Z.mod_small; lia.
Qed.

(** ** [binary.LittleEndian] and [binary.BigEndian] *)
Fixpoint put_le (n : nat) (z : Z) : bytes :=
  match n with O => [] | S n => Zb z :: put_le n (z / 256) end.
Fixpoint get_le (l : bytes) : Z :=
  match l with [] => 0 | b :: l => bZ b + 256 * get_le l end.
Definition put_be (n : nat) (z : Z) : bytes := reverse (put_le n z).
Definition get_be (l : bytes) : Z := get_le (reverse l).

(** The readers [Uint16], [Uint32], [Uint64] panic on a short slice. *)
Definition get_fixed {E} (get : bytes -> Z) (n : nat) (l : bytes) : outcome E Z :=
  if decide (n <= length l)%nat then Ok (get (take n l)) else Panic.
Definition le_Uint16 {E} : bytes -> outcome E Z := get_fixed get_le 2.
Definition le_Uint32 {E} : bytes -> outcome E Z := get_fixed get_le 4.
Definition le_Uint64 {E} : bytes -> outcome E Z := get_fixed get_le 8.
Definition be_Uint16 {E} : bytes -> outcome E Z := get_fixed get_be 2.
Definition be_Uint32 {E} : bytes -> outcome E Z := get_fixed get_be 4.
Definition be_Uint64 {E} : bytes -> outcome E Z := get_fixed get_be 8.

Lemma length_put_le n z : length (put_le n z) = n.
Proof. revert z; induction n; intros; cbn; auto. Qed.
Lemma len_put_le n z : len (put_le n z) = Z.of_nat n.
Proof. unfold len. by rewrite length_put_le. Qed.
Lemma length_put_be n z : length (put_be n z) = n.
Proof. unfold put_be. by rewrite length_reverse, length_put_le. Qed.
Lemma len_put_be n z : len (put_be n z) = Z.of_nat n.
Proof. unfold len. by rewrite length_put_be. Qed.
#[export] Hint Rewrite len_put_le len_put_be : lens.

Lemma pow256_S n : 256 ^ Z.of_nat (S n) = 256 * 256 ^ Z.of_nat n.
Proof. rewrite Nat2Z.inj_succ, Z.pow_succ_r by lia. done. Qed.

Lemma get_le_put_le n z : get_le (put_le n z) = z mod 256 ^ Z.of_nat n.
Proof.
  revert z; induction n as [|n IH]; intros z.
  - cbn. by rewrite Z.mod_1_r.
  - cbn [put_le get_le]. rewrite IH, bZ_Zb, pow256_S.
    symmetry. apply Z.rem_mul_r; [lia|]. apply Z.pow_pos_nonneg; lia.
Qed.

Lemma get_be_put_be n z : get_be (put_be n z) = z mod 256 ^ Z.of_nat n.
Proof. unfold get_be, put_be. rewrite reverse_involutive. apply get_le_put_le. Qed.

Lemma get_le_range l : 0 <= get_le l < 256 ^ len l.
Proof.
  induction l as [|b l IH]; [by cbv|].
  rewrite len_cons. cbn [get_le].
  rewrite Z.pow_add_r by len_lia. pose proof (bZ_range b).
  change (256 ^ 1) with 256. lia.
Qed.

Lemma put_le_get_le l : put_le (length l) (get_le l) = l.
Proof.
  induction l as [|b l IH]; [done|]. cbn [length put_le get_le].
  pose proof (bZ_range b). f_equal.
  - apply bZ_inj. rewrite bZ_Zb.
    rewrite Z.mul_comm, Z.mod_add by lia. by apply Z.mod_small.
  - rewrite (Z.mul_comm 256), Z.div_add by lia.
    rewrite Z.div_small by lia. exact IH.
Qed.

Lemma put_be_get_be n l : length l = n -> put_be n (get_be l) = l.
Proof.
  intros <-. unfold put_be, get_be. rewrite <-(length_reverse l), put_le_get_le.
  apply reverse_involutive.
Qed.

Lemma get_fixed_app {E} get n l1 l2 :
  length l1 = n -> @get_fixed E get n (l1 ++ l2) = Ok (get l1).
Proof.
  intros <-. unfold get_fixed. rewrite decide_True by (rewrite length_app; lia).
  by rewrite take_app_length.
Qed.

Section get_put.
Context {E : Type}.
Lemma le_Uint16_put z l : @le_Uint16 E (put_le 2 z ++ l) = Ok (u16 z).
Proof. unfold le_Uint16. rewrite get_fixed_app by apply length_put_le. by rewrite get_le_put_le. Qed.
Lemma le_Uint32_put z l : @le_Uint32 E (put_le 4 z ++ l) = Ok (u32 z).
Proof. unfold le_Uint32. rewrite get_fixed_app by apply length_put_le. by rewrite get_le_put_le. Qed.
Lemma le_Uint64_put z l : @le_Uint64 E (put_le 8 z ++ l) = Ok (u64 z).
Proof. unfold le_Uint64. rewrite get_fixed_app by apply length_put_le. by rewrite get_le_put_le. Qed.
Lemma be_Uint16_put z l : @be_Uint16 E (put_be 2 z ++ l) = Ok (u16 z).
Proof. unfold be_Uint16. rewrite get_fixed_app by apply length_put_be. by rewrite get_be_put_be. Qed.
Lemma be_Uint32_put z l : @be_Uint32 E (put_be 4 z ++ l) = Ok (u32 z).
Proof. unfold be_Uint32. rewrite get_fixed_app by apply length_put_be. by rewrite get_be_put_be. Qed.
Lemma be_Uint64_put z l : @be_Uint64 E (put_be 8 z ++ l) = Ok (u64 z).
Proof. unfold be_Uint64. rewrite get_fixed_app by apply length_put_be. by rewrite get_be_put_be. Qed.
End get_put.

(** ** [bytes.Compare] *)
Fixpoint bytes_Compare (a b : bytes) : comparison :=
  match a, b with
  | [], [] => Eq
  | [], _ :: _ => Lt
  | _ :: _, [] => Gt
  | x :: a, y :: b =>
      match bZ x ?= bZ y with Eq => bytes_Compare a b | c => c end
  end.

Definition bytes_Equal (a b : bytes) : bool := bool_decide (a = b).

(** [bytes.Compare(a, b) < 0] and [<= 0] as relations. *)
Definition blt (a b : bytes) : Prop := bytes_Compare a b = Lt.
Definition ble (a b : bytes) : Prop := bytes_Compare a b <> Gt.
Definition bltb (a b : bytes) : bool :=
  match bytes_Compare a b with Lt => true | _ => false end.
Definition bleb (a b : bytes) : bool :=
  match bytes_Compare a b with Gt => false | _ => true end.

#[global] Instance blt_dec a b : Decision (blt a b).
Proof. unfold blt. solve_decision. Defined.

Lemma bltb_spec a b : reflect (blt a b) (bltb a b).
Proof. unfold bltb, blt. destruct (bytes_Compare a b); constructor; congruence. Qed.
Lemma bltb_false a b : ~ blt a b -> bltb a b = false.
Proof. by destruct (bltb_spec a b). Qed.
Lemma bltb_true a b : blt a b -> bltb a b = true.
Proof. by destruct (bltb_spec a b). Qed.
Lemma bleb_spec a b : reflect (ble a b) (bleb a b).
Proof. unfold bleb, ble. destruct (bytes_Compare a b); constructor; congruence. Qed.

Lemma bytes_Compare_refl a : bytes_Compare a a = Eq.
Proof. induction a as [|x a IH]; cbn; [done|]. by rewrite Z.compare_refl. Qed.

Lemma bytes_Compare_eq a b : bytes_Compare a b = Eq <-> a = b.
Proof.
  split; [|intros ->; apply bytes_Compare_refl].
  revert b; induction a as [|x a IH]; intros [|y b]; cbn; try done.
  destruct (Z.compare_spec (bZ x) (bZ y)) as [E|E|E]; try done.
  intros H%IH. apply bZ_inj in E. congruence.
Qed.

Lemma bytes_Compare_opp a b : bytes_Compare b a = CompOpp (bytes_Compare a b).
Proof.
  revert b; induction a as [|x a IH]; intros [|y b]; cbn; try done.
  rewrite (Z.compare_antisym (bZ x)). destruct (bZ x ?= bZ y); cbn; auto.
Qed.

Lemma bytes_Compare_Gt a b : bytes_Compare a b = Gt <-> blt b a.
Proof. unfold blt. rewrite bytes_Compare_opp. destruct (bytes_Compare b a); cbn; split; congruence. Qed.

Lemma blt_trans a b c : blt a b -> blt b c -> blt a c.
Proof.
  unfold blt. revert b c; induction a as [|x a IH]; intros [|y b] [|z c]; cbn; try done.
  destruct (Z.compare_spec (bZ x) (bZ y)) as [E1|E1|E1],
    (Z.compare_spec (bZ y) (bZ z)) as [E2|E2|E2],
    (Z.compare_spec (bZ x) (bZ z)) as [E3|E3|E3]; try done; try lia.
  apply IH.
Qed.

Lemma blt_irrefl a : ~ blt a a.
Proof. unfold blt. rewrite bytes_Compare_refl. done. Qed.

#[global] Instance blt_strict : StrictOrder blt.
Proof. split; [exact blt_irrefl|exact blt_trans]. Qed.

Lemma blt_total a b : blt a b \/ a = b \/ blt b a.
Proof.
  destruct (bytes_Compare a b) eqn:E; [right; left; by apply bytes_Compare_eq|by left|].
  right; right. by apply bytes_Compare_Gt.
Qed.

Lemma ble_not_blt a b : ble a b <-> ~ blt b a.
Proof. unfold ble. by rewrite bytes_Compare_Gt. Qed.
Lemma ble_iff a b : ble a b <-> blt a b \/ a = b.
Proof.
  rewrite ble_not_blt. pose proof (blt_total a b). split.
  - tauto.
  - intros [H1| ->]; [|apply blt_irrefl].
    intros H2. by apply (blt_irrefl a), (blt_trans _ b).
Qed.
Lemma blt_ble a b : blt a b -> ble a b.
Proof. rewrite ble_iff. auto. Qed.
Lemma ble_refl a : ble a a.
Proof. rewrite ble_iff. auto. Qed.
Lemma ble_blt_trans a b c : ble a b -> blt b c -> blt a c.
Proof. rewrite ble_iff. intros [?| ->]; eauto using blt_trans. Qed.
Lemma blt_ble_trans a b c : blt a b -> ble b c -> blt a c.
Proof. rewrite ble_iff. intros ? [?| <-]; eauto using blt_trans. Qed.
Lemma ble_trans a b c : ble a b -> ble b c -> ble a c.
Proof. rewrite (ble_iff a b). intros [?| ->]; eauto using blt_ble, blt_ble_trans. Qed.
Lemma blt_asym a b : blt a b -> ~ blt b a.
Proof. intros H1 H2. exact (blt_irrefl a (blt_trans _ _ _ H1 H2)). Qed.

#[export] Hint Resolve blt_ble ble_refl : core.

Lemma bytes_Compare_app p a b : bytes_Compare (p ++ a) (p ++ b) = bytes_Compare a b.
Proof. induction p as [|x p IH]; cbn; [done|]. by rewrite Z.compare_refl. Qed.

(** Two byte strings that first differ inside both keep their order under
    any extensions. *)
Lemma blt_app_not_prefix a b x y :
  ~ a `prefix_of` b -> blt a b -> blt (a ++ x) (b ++ y).
Proof.
  unfold blt. revert b; induction a as [|c a IH]; intros b Hp.
  - destruct Hp. by eexists.
  - destruct b as [|d b]; [done|]. cbn.
    destruct (Z.compare_spec (bZ c) (bZ d)) as [E|E|E]; try done.
    intros H. apply IH; [|done]. intros [k ->]. apply bZ_inj in E as ->.
    apply Hp. by exists k.
Qed.

Lemma blt_app_same_length a b x y :
  length a = length b -> blt a b -> blt (a ++ x) (b ++ y).
Proof.
  intros Hl Hlt. apply blt_app_not_prefix; [|done]. intros [k ->].
  rewrite length_app in Hl. destruct k; [|cbn in Hl; lia].
  rewrite app_nil_r in Hlt. by apply blt_irrefl in Hlt.
Qed.

Lemma prefix_ble a b : a `prefix_of` b -> ble a b.
Proof.
  intros [k ->]. unfold ble. rewrite <-(app_nil_r a) at 1. rewrite bytes_Compare_app.
  by destruct k.
Qed.

(** Strings of the same length compare as the big-endian numbers they spell. *)
Lemma get_be_cons b l : get_be (b :: l) = bZ b * 256 ^ len l + get_be l.
Proof.
  unfold get_be. rewrite reverse_cons. rewrite <-(reverse_involutive l) at 2.
  generalize (reverse l). clear l. intros l.
  assert (len (reverse l) = len l) as -> by (unfold len; by rewrite length_reverse).
  induction l as [|c l IH]; cbn [get_le app].
  - rewrite (@len_nil byte). lia.
  - rewrite IH, len_cons, Z.pow_add_r by len_lia. lia.
Qed.

Lemma get_be_range l : 0 <= get_be l < 256 ^ len l.
Proof.
  unfold get_be. pose proof (get_le_range (reverse l)) as H.
  unfold len in *. by rewrite length_reverse in H.
Qed.

Lemma bytes_Compare_be a b :
  length a = length b -> bytes_Compare a b = (get_be a ?= get_be b).
Proof.
  revert b; induction a as [|x a IH]; intros [|y b] Hl; try done.
  injection Hl as Hl. cbn [bytes_Compare]. rewrite !get_be_cons, (IH b Hl).
  assert (len b = len a) as -> by (unfold len; lia).
  pose proof (get_be_range a). pose proof (get_be_range b) as Hb.
  assert (len b = len a) as E by (unfold len; lia). rewrite E in Hb.
  destruct (Z.compare_spec (bZ x) (bZ y)) as [E1|E1|E1]; symmetry.
  - rewrite E1. destruct (Z.compare_spec (get_be a) (get_be b));
      [apply Z.compare_eq_iff|apply Z.compare_lt_iff|apply Z.compare_gt_iff]; lia.
  - apply Z.compare_lt_iff. nia.
  - apply Z.compare_gt_iff. nia.
Qed.

(** ** [crc32.ChecksumIEEE] *)
Definition crc32_poly : Z := 0xEDB88320.
Definition crc32_bit (c : Z) : Z :=
  if Z.odd c then Z.lxor (Z.shiftr c 1) crc32_poly else Z.shiftr c 1.
Definition crc32_byte (c : Z) (b : byte) : Z :=
  Nat.iter 8 crc32_bit (Z.lxor c (bZ b)).
Definition crc32 (l : bytes) : Z :=
  Z.lxor (fold_left crc32_byte l (2^32 - 1)) (2^32 - 1).

(** The check value of CRC-32/IEEE. *)
Example crc32_check :
  crc32 (map Zb [49; 50; 51; 52; 53; 54; 55; 56; 57]) = 0xCBF43926.
Proof. vm_compute. reflexivity. Qed.

Lemma lxor_range n a b :
  0 <= n -> 0 <= a < 2^n -> 0 <= b < 2^n -> 0 <= Z.lxor a b < 2^n.
Proof.
  intros Hn Ha Hb.
  assert (0 <= Z.lxor a b) by (apply Z.lxor_nonneg; lia). split; [done|].
  assert (Z.shiftr (Z.lxor a b) n = 0) as H0.
  { rewrite Z.shiftr_lxor, !Z.shiftr_div_pow2, !Z.div_small by lia. done. }
  rewrite Z.shiftr_div_pow2 in H0 by lia.
  apply Z.div_small_iff in H0; lia.
Qed.

Lemma crc32_bit_range c : 0 <= c < 2^32 -> 0 <= crc32_bit c < 2^32.
Proof.
  intros Hc. unfold crc32_bit.
  assert (0 <= Z.shiftr c 1 < 2^32) .
  { rewrite Z.shiftr_div_pow2 by lia. change (2 ^ 1) with 2.
    pose proof (Z.div_pos c 2). pose proof (Z.div_le_upper_bound c 2 c). lia. }
  destruct (Z.odd c); [|done]. apply lxor_range; [lia|done|unfold crc32_poly; lia].
Qed.

Lemma crc32_byte_range c b : 0 <= c < 2^32 -> 0 <= crc32_byte c b < 2^32.
Proof.
  intros Hc. unfold crc32_byte.
  assert (0 <= Z.lxor c (bZ b) < 2^32) as H.
  { apply lxor_range; [lia|done|]. pose proof (bZ_range b). lia. }
  revert H. generalize (Z.lxor c (bZ b)). intros z Hz. cbn [Nat.iter nat_rect].
  repeat apply crc32_bit_range. done.
Qed.

Lemma crc32_range l : 0 <= crc32 l < 2^32.
Proof.
  unfold crc32. apply lxor_range; [lia| |lia].
  assert (0 <= 2^32 - 1 < 2^32) as H by lia. revert H.
  generalize (2^32 - 1). induction l as [|b l IH]; intros z Hz; cbn; [done|].
  apply IH, crc32_byte_range, Hz.
Qed.

(** ** Reading fields off a concatenation
    With [E : d = p1 ++ p2 ++ ...], [rd E] evaluates the slice, index or
    fixed-width read at the head of the goal, finding the piece that starts at
    the offset by comparing lengths. *)
Ltac rd_from E d a pre suf :=
  first
  [ let H := fresh in assert (H : a = len pre) by len_lia;
    let He := fresh in assert (He : d = pre ++ suf) by (etransitivity; [exact E|app_eq]);
    rewrite (slice_from_eq d pre suf a He H); clear H He
  | lazymatch suf with
    | ?x ++ ?rest => rd_from E d a (pre ++ x) rest
    | ?x :: ?rest => rd_from E d a (pre ++ [x]) rest
    end ].
Ltac rd_index E d a pre suf :=
  lazymatch suf with
  | ?x :: ?rest =>
      first
      [ let H := fresh in assert (H : a = len pre) by len_lia;
        let He := fresh in assert (He : d = pre ++ x :: rest) by (etransitivity; [exact E|app_eq]);
        rewrite (index_eq d pre x rest a He H); clear H He
      | rd_index E d a (pre ++ [x]) rest ]
  | ?x ++ ?rest => rd_index E d a (pre ++ x) rest
  end.
Ltac rd_slice E d a b pre suf :=
  lazymatch suf with
  | ?x ++ ?rest =>
      first
      [ let H := fresh in assert (H : a = len pre) by len_lia;
        let H' := fresh in assert (H' : b = len pre + len x) by len_lia;
        let He := fresh in assert (He : d = pre ++ x ++ rest) by (etransitivity; [exact E|app_eq]);
        rewrite (slice_eq d pre x rest a b He H H'); clear H H' He
      | rd_slice E d a b (pre ++ x) rest ]
  | ?x :: ?rest => rd_slice E d a b (pre ++ [x]) rest
  end.
Ltac rd E :=
  lazymatch type of E with
  | ?d = ?full =>
      lazymatch goal with
      | |- mbind _ (slice_from d ?a) = _ => rd_from E d a (@nil byte) full
      | |- mbind _ (index d ?a) = _ => rd_index E d a (@nil byte) full
      | |- mbind _ (slice d ?a ?b) = _ => rd_slice E d a b (@nil byte) full
      end
  end; cbn [mbind outcome_bind].

(** [append(old[:0], x...)] on a possibly nil slice: appending nothing to nil
    leaves it nil. *)
Definition reuse_append (old : option bytes) (x : bytes) : option bytes :=
  match old, x with None, [] => None | _, _ => Some x end.

#[global] Arguments put_le _ _ : simpl never.
#[global] Arguments put_be _ _ : simpl never.
#[global] Arguments get_le _ : simpl never.
#[global] Arguments get_be _ : simpl never.
#[global] Arguments crc32 _ : simpl never.
#[global] Arguments len {A} _ : simpl never.
