(* ===== verification/KV.v ===== *)
(** * Package [kv]: values and internal keys (src/kv)

    An internal key is the user key followed by the eight big-endian
    bytes of [MaxUint64 - seq].  This file models the encoders and
    decoders of src/kv/key.go and the value type of src/kv/value.go, and
    proves what [bytes.Compare] really orders: on user keys none of which
    is a proper prefix of another, ascending user key then descending
    sequence number; without that restriction the order is not the
    documented one (see [extension_below]). *)

From Stdlib Require Import ZArith Lia.
From stdpp Require Import base list option sorting.
From S2P Require Import Prelude GoBytes.

(** ** value.go.  [Data = None] is Go's nil slice. *)
Record Value := mkValue { Data : option bytes; Tombstone : bool }.

#[global] Instance Value_eq_dec : EqDecision Value.
Proof. solve_decision. Defined.

(** The bytes of a possibly nil slice. *)
Definition sl (o : option bytes) : bytes := default [] o.

Definition NewValue (data : option bytes) : Value := mkValue data false.
Definition NewTombstone : Value := mkValue None true.
Definition EncodedSize (v : Value) : Z := len (sl (Data v)) + 1.

(** What a decoded value looks like: tombstones canonical, data never nil. *)
Definition norm_value (v : Value) : Value :=
  if Tombstone v then NewTombstone else NewValue (Some (sl (Data v))).

(** ** key.go *)
Definition SeqSize : Z := 8.
Definition MaxSeqNum : Z := 2^64 - 1.

Definition MakeInternalKey (userKey : bytes) (seq : Z) : bytes :=
  userKey ++ put_be 8 (u64 (MaxSeqNum - seq)).

Inductive KVErr := ErrKeyTooShort.

Definition ParseInternalKey (ikey : bytes) : outcome KVErr (bytes * Z) :=
  if len ikey <? SeqSize then Err ErrKeyTooShort else
  let boundary := len ikey - SeqSize in
  userKey ← slice ikey 0 boundary;
  tail ← slice_from ikey boundary;
  inverted ← be_Uint64 tail;
  Ok (userKey, u64 (MaxSeqNum - inverted)).

(** [UserKey] and [SeqNum] never panic: their guards make the slices safe,
    so they are written with [take]/[drop] after the guard. *)
Definition UserKey (ikey : bytes) : bytes :=
  if len ikey <=? SeqSize then [] else take (length ikey - 8) ikey.

Definition SeqNum (ikey : bytes) : Z :=
  if len ikey <? SeqSize then 0
  else u64 (MaxSeqNum - get_be (drop (length ikey - 8) ikey)).

Definition SameUserKey (a b : bytes) : bool := bytes_Equal (UserKey a) (UserKey b).

Definition MakeSearchKey (userKey : bytes) : bytes := MakeInternalKey userKey MaxSeqNum.

(** ** Basic facts *)
Definition seq_ok (s : Z) : Prop := 0 <= s <= MaxSeqNum.

Lemma length_MakeInternalKey u s : length (MakeInternalKey u s) = (length u + 8)%nat.
Proof. unfold MakeInternalKey. rewrite length_app, length_put_be. done. Qed.
Lemma len_MakeInternalKey u s : len (MakeInternalKey u s) = len u + 8.
Proof. unfold len. rewrite length_MakeInternalKey. lia. Qed.
#[export] Hint Rewrite len_MakeInternalKey : lens.

Lemma UserKey_make u s : UserKey (MakeInternalKey u s) = u.
Proof.
  unfold UserKey. rewrite len_MakeInternalKey, length_MakeInternalKey.
  destruct (Z.leb_spec (len u + 8) SeqSize) as [H|H]; unfold SeqSize in H.
  - symmetry. apply len_zero_nil. len_lia.
  - unfold MakeInternalKey. replace (length u + 8 - 8)%nat with (length u) by lia.
    apply take_app_length.
Qed.

Lemma invert_seq s : seq_ok s -> u64 (MaxSeqNum - u64 (MaxSeqNum - s)) = s.
Proof. unfold seq_ok, MaxSeqNum. intros. rewrite !u64_small; rewrite ?u64_small; lia. Qed.

Lemma u64_get_be_put_be z : get_be (put_be 8 (u64 z)) = u64 z.
Proof. rewrite get_be_put_be. apply Z.mod_small, u64_range. Qed.

Lemma SeqNum_make u s : seq_ok s -> SeqNum (MakeInternalKey u s) = s.
Proof.
  intros Hs. unfold SeqNum. rewrite len_MakeInternalKey, length_MakeInternalKey.
  destruct (Z.ltb_spec (len u + 8) SeqSize) as [H|H]; unfold SeqSize in H; [len_lia|].
  unfold MakeInternalKey. replace (length u + 8 - 8)%nat with (length u) by lia.
  rewrite drop_app_length, u64_get_be_put_be. by apply invert_seq.
Qed.

Lemma MakeInternalKey_inj u1 s1 u2 s2 :
  seq_ok s1 -> seq_ok s2 ->
  MakeInternalKey u1 s1 = MakeInternalKey u2 s2 -> u1 = u2 /\ s1 = s2.
Proof.
  intros ?? H. split.
  - by rewrite <-(UserKey_make u1 s1), H, UserKey_make.
  - by rewrite <-(SeqNum_make u1 s1), H, SeqNum_make.
Qed.

(** Every byte string of at least eight bytes is an internal key. *)
Lemma internal_key_decomp k :
  8 <= len k -> k = MakeInternalKey (UserKey k) (SeqNum k) /\ seq_ok (SeqNum k).
Proof.
  intros Hk.
  assert (exists u t, k = u ++ t /\ length t = 8%nat) as (u & t & -> & Ht).
  { exists (take (length k - 8) k), (drop (length k - 8) k).
    rewrite take_drop, length_drop. unfold len in Hk. split; [done|lia]. }
  assert (t = put_be 8 (u64 (MaxSeqNum - (MaxSeqNum - get_be t)))) as Et.
  { replace (MaxSeqNum - _) with (get_be t) by lia.
    pose proof (get_be_range t) as Hr. unfold len in Hr. rewrite Ht in Hr.
    rewrite u64_small by (change (256 ^ Z.of_nat 8) with (2^64) in Hr; lia).
    by rewrite put_be_get_be. }
  pose proof (get_be_range t) as Hr. unfold len in Hr. rewrite Ht in Hr.
  assert (seq_ok (MaxSeqNum - get_be t)) as Hs.
  { unfold seq_ok, MaxSeqNum. change (256 ^ Z.of_nat 8) with (2^64) in Hr. lia. }
  assert (u ++ t = MakeInternalKey u (MaxSeqNum - get_be t)) as E
    by (unfold MakeInternalKey; congruence).
  rewrite E, UserKey_make, SeqNum_make by done. done.
Qed.

(** ** What [bytes.Compare] orders *)

(** Neither user key is a proper prefix of the other. *)
Definition prefix_ok (u1 u2 : bytes) : Prop :=
  (u1 `prefix_of` u2 -> u1 = u2) /\ (u2 `prefix_of` u1 -> u1 = u2).

#[global] Instance prefix_ok_dec u1 u2 : Decision (prefix_ok u1 u2).
Proof. unfold prefix_ok. apply _. Defined.

Definition ikey_cmp (u1 : bytes) (s1 : Z) (u2 : bytes) (s2 : Z) : comparison :=
  match bytes_Compare u1 u2 with Eq => s2 ?= s1 | c => c end.

Lemma compare_same_user u s1 s2 :
  seq_ok s1 -> seq_ok s2 ->
  bytes_Compare (MakeInternalKey u s1) (MakeInternalKey u s2) = (s2 ?= s1).
Proof.
  unfold seq_ok, MaxSeqNum. intros H1 H2. unfold MakeInternalKey.
  rewrite bytes_Compare_app, bytes_Compare_be by by rewrite !length_put_be.
  rewrite !u64_get_be_put_be, !u64_small by (unfold MaxSeqNum; lia).
  unfold MaxSeqNum.
  destruct (Z.compare_spec s2 s1);
    [apply Z.compare_eq_iff|apply Z.compare_lt_iff|apply Z.compare_gt_iff]; lia.
Qed.

Lemma compare_diff_user u1 s1 u2 s2 :
  prefix_ok u1 u2 -> u1 <> u2 ->
  bytes_Compare (MakeInternalKey u1 s1) (MakeInternalKey u2 s2) = bytes_Compare u1 u2.
Proof.
  intros [Hp1 Hp2] Hne. unfold MakeInternalKey.
  destruct (bytes_Compare u1 u2) eqn:E.
  - by apply bytes_Compare_eq in E.
  - apply blt_app_not_prefix; [|done]. intros H. by apply Hne, Hp1.
  - apply bytes_Compare_Gt. apply bytes_Compare_Gt in E.
    apply blt_app_not_prefix; [|done]. intros H. by apply Hne, Hp2.
Qed.

Lemma compare_internal u1 s1 u2 s2 :
  prefix_ok u1 u2 -> seq_ok s1 -> seq_ok s2 ->
  bytes_Compare (MakeInternalKey u1 s1) (MakeInternalKey u2 s2) = ikey_cmp u1 s1 u2 s2.
Proof.
  intros Hp H1 H2. unfold ikey_cmp. destruct (decide (u1 = u2)) as [->|Hne].
  - rewrite bytes_Compare_refl. by apply compare_same_user.
  - rewrite compare_diff_user by done.
    destruct (bytes_Compare u1 u2) eqn:E; [|done..]. by apply bytes_Compare_eq in E.
Qed.

Lemma search_key_le u s : seq_ok s -> ble (MakeSearchKey u) (MakeInternalKey u s).
Proof.
  intros Hs. unfold ble, MakeSearchKey. rewrite compare_same_user;
    [|unfold seq_ok, MaxSeqNum; lia|done].
  unfold seq_ok in Hs. intros H%Z.compare_gt_iff. lia.
Qed.

(** An extension of [u] sorts between [u]'s search key and [u]'s own entries. *)
Lemma blt_first_byte u a b x y : bZ a < bZ b -> blt (u ++ a :: x) (u ++ b :: y).
Proof.
  intros H. unfold blt. rewrite bytes_Compare_app. cbn. by rewrite (proj2 (Z.compare_lt_iff _ _) H).
Qed.

Lemma put_be_first z : exists t, put_be 8 z = Zb (z / 2^56) :: t.
Proof.
  unfold put_be, put_le. cbn [reverse rev_append]. eexists. f_equal. f_equal.
  rewrite !Z.div_div by done. done.
Qed.

Lemma search_below_extension u b w s :
  0 < bZ b < 255 -> blt (MakeSearchKey u) (MakeInternalKey (u ++ b :: w) s).
Proof.
  intros H. unfold MakeSearchKey, MakeInternalKey. rewrite <-app_assoc. cbn [app].
  destruct (put_be_first (u64 (MaxSeqNum - MaxSeqNum))) as [t ->].
  apply blt_first_byte. rewrite bZ_Zb. change (0 < bZ b). lia.
Qed.

Lemma extension_below u b w s1 s2 :
  0 <= s1 < 2^56 -> seq_ok s2 -> 0 < bZ b < 255 ->
  ~ blt (MakeInternalKey u s1) (MakeInternalKey (u ++ b :: w) s2).
Proof.
  intros H1 H2 Hb. apply blt_asym. unfold MakeInternalKey. rewrite <-app_assoc. cbn [app].
  destruct (put_be_first (u64 (MaxSeqNum - s1))) as [t ->].
  apply blt_first_byte. rewrite bZ_Zb, u64_small by (unfold MaxSeqNum; lia). unfold MaxSeqNum.
  assert ((2^64 - 1 - s1) / 2^56 = 255) as -> by (symmetry; apply (Z.div_unique _ _ _ (2^56 - 1 - s1)); lia).
  change (255 mod 256) with 255. lia.
Qed.

Lemma Parse_make u s :
  seq_ok s -> ParseInternalKey (MakeInternalKey u s) = Ok (u, s).
Proof.
  intros Hs. unfold ParseInternalKey.
  rewrite (proj2 (Z.ltb_ge _ _)) by (unfold SeqSize; len_lia).
  replace (len (MakeInternalKey u s) - SeqSize) with (len u) by (unfold SeqSize; len_lia).
  unfold MakeInternalKey.
  rewrite slice_to_app by done. cbn [mbind outcome_bind].
  rewrite slice_from_app by done. cbn [mbind outcome_bind].
  rewrite <-(app_nil_r (put_be 8 _)), be_Uint64_put. cbn [mbind outcome_bind].
  rewrite (u64_small (u64 _)) by apply u64_range. by rewrite invert_seq.
Qed.

(** ** Claims *)

(** Internal keys round trip: a key built from a user key and a sequence
    number parses back to both (through [ParseInternalKey], [UserKey] and
    [SeqNum]); parsing fails, without panicking, exactly on keys shorter than
    eight bytes; and every longer byte string is the internal key of what it
    parses to. *)
Theorem internal_key_roundtrip :
  (forall u s, seq_ok s ->
     ParseInternalKey (MakeInternalKey u s) = Ok (u, s) /\
     UserKey (MakeInternalKey u s) = u /\ SeqNum (MakeInternalKey u s) = s) /\
  (forall k, if decide (len k < 8) then ParseInternalKey k = Err ErrKeyTooShort
             else ParseInternalKey k = Ok (UserKey k, SeqNum k) /\
                  k = MakeInternalKey (UserKey k) (SeqNum k)).
Proof.
  split.
  - intros u s Hs. auto using Parse_make, UserKey_make, SeqNum_make.
  - intros k. case_decide.
    + unfold ParseInternalKey, SeqSize. by rewrite (proj2 (Z.ltb_lt _ _)).
    + destruct (internal_key_decomp k) as [E Hs]; [lia|]. split; [|done].
      rewrite E at 1. by apply Parse_make.
Qed.

(** On user keys neither of which is a proper prefix of the other,
    [bytes.Compare] on internal keys orders by ascending user key and, within a
    user key, by DESCENDING sequence number. *)
Theorem internal_key_order u1 s1 u2 s2 :
  prefix_ok u1 u2 -> seq_ok s1 -> seq_ok s2 ->
  bytes_Compare (MakeInternalKey u1 s1) (MakeInternalKey u2 s2) =
  match bytes_Compare u1 u2 with Eq => s2 ?= s1 | c => c end.
Proof. apply compare_internal. Qed.

Lemma internal_key_order_witness :
  bytes_Compare (MakeInternalKey [Byte.x61; Byte.x62] 7)
                (MakeInternalKey [Byte.x61; Byte.x62] 9) = Gt /\
  bytes_Compare (MakeInternalKey [Byte.x61; Byte.x62] 7)
                (MakeInternalKey [Byte.x62] 9) = Lt.
Proof.
  split.
  - exact (internal_key_order [Byte.x61; Byte.x62] 7 [Byte.x61; Byte.x62] 9
             ltac:(split; done) ltac:(vm_compute; split; congruence)
             ltac:(vm_compute; split; congruence)).
  - exact (internal_key_order [Byte.x61; Byte.x62] 7 [Byte.x62] 9
             ltac:(split; intros [k ?]; discriminate) ltac:(vm_compute; split; congruence)
             ltac:(vm_compute; split; congruence)).
Defined.
