(* ===== verification/Entries.v ===== *)
(** * Entry lists: the reference semantics of every sorted container

    Memtables, blocks and SSTables all hold a list of
    (internal key, value) entries in strictly ascending [bytes.Compare]
    order.  [seek_getAt] is the lookup all of them implement (seek to the
    search key, then walk the versions of the user key); [is_newest] is
    the MVCC contract: the version of the user key with the largest
    sequence number not above the bound.  [seek_getAt_newest] says the two
    agree when no stored user key is a proper prefix of the one looked up,
    or the other way round. *)

From Stdlib Require Import ZArith Lia Sorted.
From stdpp Require Import base list option sorting.
From S2P Require Import Prelude GoBytes KV.

Abbreviation entry := (bytes * Value)%type.

Definition entry_lt (a b : entry) : Prop := blt a.1 b.1.
Definition ksorted (es : list entry) : Prop := StronglySorted entry_lt es.
Definition ikeys_ok (es : list entry) : Prop := Forall (fun e => 8 <= len e.1) es.

(** No stored user key is a proper prefix of [u] or extends it. *)
Definition key_compat (u : bytes) (es : list entry) : Prop :=
  Forall (fun e => prefix_ok (UserKey e.1) u) es.

#[global] Instance ikeys_ok_dec es : Decision (ikeys_ok es).
Proof. unfold ikeys_ok. apply _. Defined.
#[global] Instance key_compat_dec u es : Decision (key_compat u es).
Proof. unfold key_compat. apply _. Defined.

(** ** The lookup algorithm on a list *)
Fixpoint seek (target : bytes) (es : list entry) : list entry :=
  match es with
  | [] => []
  | e :: es' => if bltb e.1 target then seek target es' else es
  end.

Fixpoint walk (u : bytes) (s : Z) (es : list entry) : option Value :=
  match es with
  | [] => None
  | (k, v) :: es' =>
      if bytes_Equal (UserKey k) u
      then if SeqNum k <=? s then Some v else walk u s es'
      else None
  end.

Definition seek_getAt (es : list entry) (u : bytes) (s : Z) : option Value :=
  walk u s (seek (MakeSearchKey u) es).

(** ** The contract *)
Definition visible (u : bytes) (s : Z) (e : entry) : Prop :=
  UserKey e.1 = u /\ SeqNum e.1 <= s.

Definition is_newest (es : list entry) (u : bytes) (s : Z) (o : option Value) : Prop :=
  match o with
  | None => forall e, e ∈ es -> ~ visible u s e
  | Some v => exists k, (k, v) ∈ es /\ visible u s (k, v) /\
                forall e, e ∈ es -> visible u s e -> SeqNum e.1 <= SeqNum k
  end.

(** Internal keys carry one value each. *)
Definition functional_keys (es : list entry) : Prop :=
  forall k v v', (k, v) ∈ es -> (k, v') ∈ es -> v = v'.

Lemma is_newest_det es u s o1 o2 :
  ikeys_ok es -> functional_keys es ->
  is_newest es u s o1 -> is_newest es u s o2 -> o1 = o2.
Proof.
  intros Hik Hf. unfold ikeys_ok in Hik. rewrite Forall_forall in Hik.
  destruct o1 as [v1|], o2 as [v2|]; cbn; [| | |done].
  2: { intros (k & Hin & Hv & _) Hno. by destruct (Hno _ Hin). }
  2: { intros Hno (k & Hin & Hv & _). by destruct (Hno _ Hin). }
  intros (k1 & Hin1 & Hv1 & Hm1) (k2 & Hin2 & Hv2 & Hm2). f_equal.
  assert (k1 = k2) as <-; [|by eapply Hf].
  destruct (internal_key_decomp k1 (Hik _ Hin1)) as [E1 _].
  destruct (internal_key_decomp k2 (Hik _ Hin2)) as [E2 _].
  pose proof (Hm1 _ Hin2 Hv2). pose proof (Hm2 _ Hin1 Hv1).
  destruct Hv1 as [U1 _], Hv2 as [U2 _]. cbn in *.
  rewrite E1, E2, U1, U2. f_equal. lia.
Qed.

Lemma is_newest_perm es es' u s o : es ≡ₚ es' -> is_newest es u s o -> is_newest es' u s o.
Proof.
  intros Hp. destruct o as [v|]; cbn; setoid_rewrite Hp; auto.
Qed.

#[global] Instance is_newest_proper :
  Proper ((≡ₚ) ==> eq ==> eq ==> eq ==> iff) is_newest.
Proof. intros es es' Hp ? ? -> ? ? -> ? ? ->. split; by apply is_newest_perm. Qed.

Lemma is_newest_cons_invisible e es u s o :
  ~ visible u s e -> is_newest es u s o -> is_newest (e :: es) u s o.
Proof.
  intros Hv. destruct o as [v|]; cbn.
  - intros (k & Hin & Hk & Hm). exists k. split; [by right|]. split; [done|].
    intros e' [->|He']%elem_of_cons Hv'; [done|by apply Hm].
  - intros Hm e' [->|He']%elem_of_cons; [done|by apply Hm].
Qed.

(** ** Sorted lists *)
Lemma ksorted_cons_inv e es :
  ksorted (e :: es) -> ksorted es /\ (forall e', e' ∈ es -> blt e.1 e'.1).
Proof.
  intros H. apply StronglySorted_inv in H as [H1 H2]. split; [done|].
  by rewrite Forall_forall in H2.
Qed.

Lemma ksorted_app_inv es1 es2 :
  ksorted (es1 ++ es2) ->
  ksorted es1 /\ ksorted es2 /\ (forall a b, a ∈ es1 -> b ∈ es2 -> blt a.1 b.1).
Proof.
  induction es1 as [|e es1 IH]; cbn.
  - intros. split; [constructor|]. split; [done|]. intros ? ? []%elem_of_nil.
  - intros [H1 H2]%ksorted_cons_inv. destruct (IH H1) as (Hs1 & Hs2 & Hlt).
    split; [|split; [done|]].
    + constructor; [done|]. apply Forall_forall. intros x Hx. apply H2, elem_of_app. auto.
    + intros a b [->|Ha]%elem_of_cons Hb; [apply H2, elem_of_app; auto|by apply Hlt].
Qed.

Lemma ksorted_app es1 es2 :
  ksorted es1 -> ksorted es2 -> (forall a b, a ∈ es1 -> b ∈ es2 -> blt a.1 b.1) ->
  ksorted (es1 ++ es2).
Proof.
  intros H1 H2 H. induction es1 as [|e es1 IH]; cbn; [done|].
  apply ksorted_cons_inv in H1 as [H1 H1']. constructor.
  - apply IH; [done|]. intros a b Ha Hb. apply H; [by right|done].
  - apply Forall_forall. intros x [Hx|Hx]%elem_of_app; [by apply H1'|]. apply H; [by left|done].
Qed.

Lemma ksorted_functional es : ksorted es -> functional_keys es.
Proof.
  induction es as [|e es IH]; intros Hs k v v'; [by intros ?%elem_of_nil|].
  apply ksorted_cons_inv in Hs as [Hs Hlt].
  intros [E1|H1]%elem_of_cons [E2|H2]%elem_of_cons.
  - congruence.
  - apply Hlt in H2. subst e. by apply blt_irrefl in H2.
  - apply Hlt in H1. subst e. by apply blt_irrefl in H1.
  - by eapply IH.
Qed.

(** ** Insertion in key order *)
Fixpoint kinsert (e : entry) (es : list entry) : list entry :=
  match es with
  | [] => [e]
  | x :: es' => if bltb x.1 e.1 then x :: kinsert e es' else e :: es
  end.

Lemma kinsert_app e l r :
  Forall (fun x => blt x.1 e.1) l -> Forall (fun x => ~ blt x.1 e.1) r ->
  kinsert e (l ++ r) = l ++ e :: r.
Proof.
  intros Hl Hr. induction Hl as [|x l Hx Hl IH]; cbn.
  - destruct Hr as [|x r Hx Hr]; cbn; [done|]. by destruct (bltb_spec x.1 e.1).
  - destruct (bltb_spec x.1 e.1); [by rewrite IH|done].
Qed.

Lemma kinsert_perm e es : kinsert e es ≡ₚ e :: es.
Proof.
  induction es as [|x es IH]; cbn; [done|]. destruct (bltb _ _); [|done].
  rewrite IH. apply Permutation_swap.
Qed.

Lemma kinsert_sorted e es :
  ksorted es -> (forall x, x ∈ es -> x.1 <> e.1) -> ksorted (kinsert e es).
Proof.
  intros Hs Hne. induction Hs as [|x es Hs IH Hx]; cbn.
  { constructor; constructor. }
  rewrite Forall_forall in Hx. destruct (bltb_spec x.1 e.1) as [H|H].
  - constructor; [apply IH; intros; apply Hne; by right|].
    apply Forall_forall. intros y Hy. rewrite kinsert_perm in Hy.
    apply elem_of_cons in Hy as [->|Hy]; [done|by apply Hx].
  - assert (blt e.1 x.1) as Hex.
    { destruct (blt_total e.1 x.1) as [?|[E|?]]; [done| |done].
      destruct (Hne x); [by left|done]. }
    constructor; [constructor; [done|by apply Forall_forall]|].
    constructor; [done|]. apply Forall_forall. intros y Hy.
    eapply blt_trans; [exact Hex|by apply Hx].
Qed.

(** Entries before the exclusive bound. *)
Fixpoint before (e : option bytes) (es : list entry) : list entry :=
  match e, es with
  | _, [] => []
  | None, _ => es
  | Some b, x :: es' => if bltb x.1 b then x :: before e es' else []
  end.

(** User keys in [start, end); a nil bound is no bound. *)
Definition in_range (st en : option bytes) (u : bytes) : Prop :=
  match st with None => True | Some a => ble a u end /\
  match en with None => True | Some b => blt u b end.
#[global] Instance in_range_dec st en u : Decision (in_range st en u).
Proof. unfold in_range. destruct st, en; apply _. Defined.

Section filter_facts.
Context {A : Type} (P Q : A -> Prop) `{!forall x, Decision (P x), !forall x, Decision (Q x)}.
Lemma filter_True' (l : list A) : Forall P l -> filter P l = l.
Proof. induction 1; [done|]. rewrite filter_cons, decide_True by done. congruence. Qed.
Lemma filter_False' (l : list A) : Forall (fun x => ~ P x) l -> filter P l = [].
Proof. induction 1; [done|]. by rewrite filter_cons, decide_False by done. Qed.
Lemma filter_ext_in (l : list A) : (forall x, x ∈ l -> P x <-> Q x) -> filter P l = filter Q l.
Proof.
  induction l as [|x l IH]; intros Hpq; [done|]. rewrite !filter_cons.
  rewrite IH by (intros; apply Hpq; by right).
  assert (P x <-> Q x) by (apply Hpq; by left). do 2 case_decide; tauto || done.
Qed.
End filter_facts.

Lemma ksorted_filter (P : entry -> Prop) `{!forall x, Decision (P x)} es :
  ksorted es -> ksorted (filter P es).
Proof.
  induction 1 as [|e es Hs IH Hx]; [constructor|]. rewrite filter_cons. case_decide; [|done].
  constructor; [done|]. rewrite Forall_forall in Hx |- *. intros y Hy.
  apply Hx. by apply list_elem_of_filter in Hy as [_ ?].
Qed.

(** ** Versions of one user key are contiguous *)
Section contiguous.
Context (u : bytes).

Lemma below_search_not_user k :
  8 <= len k -> blt k (MakeSearchKey u) -> UserKey k <> u.
Proof.
  intros Hk Hlt E. destruct (internal_key_decomp k Hk) as [Ek Hs]. rewrite Ek, E in Hlt.
  apply (blt_irrefl (MakeInternalKey u (SeqNum k))).
  eapply blt_ble_trans; [exact Hlt|]. by apply search_key_le.
Qed.

(** A key past the search key with another user key is past every version of [u]. *)
Lemma past_user k k' :
  8 <= len k -> 8 <= len k' -> prefix_ok (UserKey k) u ->
  ~ blt k (MakeSearchKey u) -> UserKey k <> u -> UserKey k' = u -> blt k' k.
Proof.
  intros Hk Hk' Hp Hge Hne Hu.
  destruct (internal_key_decomp k Hk) as [Ek _].
  destruct (internal_key_decomp k' Hk') as [Ek' _]. rewrite Hu in Ek'.
  rewrite Ek, Ek'. apply bytes_Compare_Gt.
  rewrite compare_diff_user by done.
  destruct (bytes_Compare (UserKey k) u) eqn:E; [by apply bytes_Compare_eq in E| |done].
  destruct Hge. unfold blt. rewrite Ek. unfold MakeSearchKey.
  by rewrite compare_diff_user.
Qed.

Lemma walk_newest s es :
  ksorted es -> ikeys_ok es -> key_compat u es ->
  (forall e, e ∈ es -> ~ blt e.1 (MakeSearchKey u)) ->
  is_newest es u s (walk u s es).
Proof.
  induction es as [|[k v] es IH]; intros Hs Hik Hc Hge; cbn [walk].
  { intros e []%elem_of_nil. }
  apply ksorted_cons_inv in Hs as [Hs Hlt].
  apply Forall_cons in Hik as [Hk Hik]. apply Forall_cons in Hc as [Hck Hc].
  assert (forall e, e ∈ es -> UserKey k = u -> UserKey e.1 = u -> SeqNum e.1 < SeqNum k) as Hdesc.
  { intros e He E1 E2. pose proof (Hlt e He) as Hl. cbn in Hl, Hk.
    unfold ikeys_ok in Hik. rewrite Forall_forall in Hik. pose proof (Hik e He) as Hke.
    destruct (internal_key_decomp k Hk) as [Ek Hsk].
    destruct (internal_key_decomp e.1 Hke) as [Ee Hse].
    rewrite Ek, Ee, E1, E2 in Hl. unfold blt in Hl.
    rewrite compare_same_user in Hl by done. by apply Z.compare_lt_iff in Hl. }
  unfold bytes_Equal. case_bool_decide as E.
  - destruct (Z.leb_spec (SeqNum k) s).
    + exists k. split; [by left|]. split; [by split|].
      intros e [->|He]%elem_of_cons [Hu _]; [done|]. cbn.
      pose proof (Hdesc e He E Hu). lia.
    + apply is_newest_cons_invisible; [intros [_ ?]; cbn in *; lia|].
      apply IH; [done..|]. intros e He. apply Hge. by right.
  - apply is_newest_cons_invisible; [by intros [? _]|].
    intros e He [Hu _]. pose proof (Hlt e He) as Hl. cbn in Hl.
    unfold ikeys_ok in Hik. rewrite Forall_forall in Hik.
    apply (blt_asym _ _ Hl), past_user; auto.
    apply (Hge (k, v)). by left.
Qed.

Lemma seek_not_below t es e : ksorted es -> e ∈ seek t es -> ~ blt e.1 t.
Proof.
  induction es as [|e0 es IH]; intros Hs; cbn [seek]; [by intros ?%elem_of_nil|].
  apply ksorted_cons_inv in Hs as [Hs Hlt].
  destruct (bltb_spec e0.1 t) as [H|H]; [by apply IH|].
  intros [->|He]%elem_of_cons; [done|]. intros H'. apply H.
  eapply blt_trans; [by apply Hlt|done].
Qed.

Lemma seek_split t es : exists l, es = l ++ seek t es /\ Forall (fun e => blt e.1 t) l.
Proof.
  induction es as [|e0 es (l & Hl & Hf)]; cbn [seek]; [by exists []|].
  destruct (bltb_spec e0.1 t); [|by exists []].
  exists (e0 :: l). split; [cbn; congruence|by constructor].
Qed.

Lemma seek_getAt_newest s es :
  ksorted es -> ikeys_ok es -> key_compat u es ->
  is_newest es u s (seek_getAt es u s).
Proof.
  intros Hs Hik Hc. unfold seek_getAt.
  pose proof (seek_not_below (MakeSearchKey u) es) as Hge.
  destruct (seek_split (MakeSearchKey u) es) as (l & El & Hl).
  set (tl := seek (MakeSearchKey u) es) in *. clearbody tl. subst es.
  apply ksorted_app_inv in Hs as Hs'. destruct Hs' as (_ & Hst & _).
  apply Forall_app in Hik as [Hikl Hikt]. apply Forall_app in Hc as [_ Hct].
  assert (is_newest tl u s (walk u s tl)) as H.
  { apply walk_newest; [done..|]. intros e He. by apply Hge. }
  clear Hge Hs. induction l as [|e l IH]; cbn; [done|].
  apply Forall_cons in Hl as [Hle Hl]. apply Forall_cons in Hikl as [Hke Hikl].
  apply is_newest_cons_invisible; [|by apply IH].
  intros [Hu _]. by eapply below_search_not_user.
Qed.
End contiguous.

(** Comparing with a search key is comparing user keys. *)
(** No stored user key is a proper prefix of the bound [u]; this is all a range
    scan asks, since the search key of [u] is below all extensions of [u]. *)
Definition bound_compat (u : bytes) (es : list entry) : Prop :=
  Forall (fun e => UserKey e.1 `prefix_of` u -> UserKey e.1 = u) es.
#[global] Instance bound_compat_dec u es : Decision (bound_compat u es).
Proof. unfold bound_compat. apply _. Defined.

Lemma blt_zeros n x : blt x (replicate n Byte.x00) -> (length x < n)%nat.
Proof.
  revert x; induction n as [|n IH]; intros x; [by destruct x|]. destruct x as [|b x]; cbn; [lia|].
  unfold blt. cbn. change (bZ Byte.x00) with 0. pose proof (bZ_range b). destruct (Z.compare_spec (bZ b) 0); [|lia|done].
  intros H1%IH. lia.
Qed.

Lemma blt_search k u :
  8 <= len k -> (UserKey k `prefix_of` u -> UserKey k = u) -> blt k (MakeSearchKey u) <-> blt (UserKey k) u.
Proof.
  intros Hk Hp. destruct (internal_key_decomp k Hk) as [E Hs].
  destruct (decide (u `prefix_of` UserKey k /\ UserKey k <> u)) as [[[x Ex] Hne]|Hn].
  - split; intros H; exfalso.
    + rewrite E, Ex in H. unfold MakeSearchKey, MakeInternalKey, blt in H. rewrite <-app_assoc, bytes_Compare_app in H.
      change (put_be 8 (u64 (MaxSeqNum - MaxSeqNum))) with (replicate 8 Byte.x00) in H. apply blt_zeros in H.
      assert (len (put_be 8 (u64 (MaxSeqNum - SeqNum k))) = 8) as Hl by apply len_put_be.
      rewrite length_app in H. unfold len in Hl. lia.
    + apply ble_not_blt in H; [done|]. rewrite Ex. by apply prefix_ble, prefix_app_r.
  - assert (prefix_ok (UserKey k) u) as Hok.
    { split; [done|]. intros Hu. destruct (decide (UserKey k = u)); [done|]. by destruct Hn. }
    unfold blt, MakeSearchKey. rewrite E at 1. rewrite compare_internal; [|done|done|unfold seq_ok, MaxSeqNum; lia].
    unfold ikey_cmp. destruct (bytes_Compare (UserKey k) u); [|done..].
    unfold seq_ok in Hs. split; [|done]. intros H. change (MaxSeqNum < SeqNum k) in H. lia.
Qed.

(** Seeking and stopping at the bound select the range. *)
Lemma seek_filter t es : ksorted es -> seek t es = filter (fun e => ~ blt e.1 t) es.
Proof.
  induction 1 as [|e es Hs IH Hx]; cbn [seek]; [done|]. rewrite filter_cons.
  destruct (bltb_spec e.1 t) as [H|H].
  - by rewrite decide_False by tauto.
  - rewrite decide_True by done. f_equal. symmetry. apply filter_True'.
    rewrite Forall_forall in Hx |- *. intros y Hy Hlt. apply H.
    eapply blt_trans; [by apply Hx|done].
Qed.

Lemma before_filter t es : ksorted es -> before (Some t) es = filter (fun e => blt e.1 t) es.
Proof.
  induction 1 as [|e es Hs IH Hx]; cbn [before]; [done|]. rewrite filter_cons.
  destruct (bltb_spec e.1 t) as [H|H].
  - rewrite decide_True by done. by rewrite IH.
  - rewrite decide_False by done. symmetry. apply filter_False'.
    rewrite Forall_forall in Hx |- *. intros y Hy Hlt. apply H.
    eapply blt_trans; [by apply Hx|done].
Qed.

Lemma range_filter es st en :
  ksorted es -> ikeys_ok es -> (forall u, st = Some u \/ en = Some u -> bound_compat u es) ->
  before (MakeSearchKey <$> en)
    (match st with None => es | Some u => seek (MakeSearchKey u) es end) =
  filter (fun e => in_range st en (UserKey e.1)) es.
Proof.
  intros Hs Hik Hc.
  assert (match st with None => es | Some u => seek (MakeSearchKey u) es end =
          filter (fun e => in_range st None (UserKey e.1)) es) as ->.
  { destruct st as [u|].
    - rewrite seek_filter by done. apply filter_ext_in. intros e He. unfold in_range.
      pose proof (Hc u ltac:(auto)) as Hcu. unfold bound_compat, ikeys_ok in *.
      rewrite Forall_forall in Hcu, Hik. rewrite blt_search by auto. rewrite ble_not_blt. tauto.
    - symmetry. apply filter_True'. by apply Forall_forall. }
  destruct en as [u|]; cbn [fmap option_fmap option_map].
  - rewrite before_filter by by apply ksorted_filter. rewrite list_filter_filter.
    apply filter_ext_in. intros e He. unfold in_range.
    pose proof (Hc u ltac:(auto)) as Hcu. unfold bound_compat, ikeys_ok in *.
    rewrite Forall_forall in Hcu, Hik. rewrite blt_search by auto. tauto.
  - set (l := filter _ _). by destruct l.
Qed.

(** ** Searching several sources newest first *)

(** Versions of [u] in an earlier source are newer than those in a later one. *)
Fixpoint sources_ordered (u : bytes) (srcs : list (list entry)) : Prop :=
  match srcs with
  | [] => True
  | es :: rest =>
      (forall e e', e ∈ es -> e' ∈ concat rest -> UserKey e.1 = u -> UserKey e'.1 = u ->
         SeqNum e'.1 < SeqNum e.1) /\ sources_ordered u rest
  end.

Fixpoint first_found {A} (l : list (option A)) : option A :=
  match l with [] => None | Some a :: _ => Some a | None :: l => first_found l end.

Lemma is_newest_app_l es1 es2 u s v :
  is_newest es1 u s (Some v) ->
  (forall e e', e ∈ es1 -> e' ∈ es2 -> UserKey e.1 = u -> UserKey e'.1 = u ->
     SeqNum e'.1 < SeqNum e.1) ->
  is_newest (es1 ++ es2) u s (Some v).
Proof.
  intros (k & Hin & Hv & Hm) Hlt. exists k. split; [apply elem_of_app; auto|].
  split; [done|]. intros e [He|He]%elem_of_app Hve; [by apply Hm|].
  pose proof (Hlt (k, v) e Hin He (proj1 Hv) (proj1 Hve)). cbn in *. lia.
Qed.

Lemma is_newest_app_r es1 es2 u s o :
  is_newest es1 u s None -> is_newest es2 u s o -> is_newest (es1 ++ es2) u s o.
Proof.
  intros H1 H2. destruct o as [v|]; cbn in *.
  - destruct H2 as (k & Hin & Hv & Hm). exists k. split; [apply elem_of_app; auto|].
    split; [done|]. intros e [He|He]%elem_of_app Hve; [by apply H1 in Hve|by apply Hm].
  - intros e [He|He]%elem_of_app; auto.
Qed.

Lemma first_found_newest u s srcs answers :
  sources_ordered u srcs ->
  Forall2 (fun es o => is_newest es u s o) srcs answers ->
  is_newest (concat srcs) u s (first_found answers).
Proof.
  intros Ho Hf. induction Hf as [|es o srcs answers Hh Hf IH]; cbn.
  - intros e []%elem_of_nil.
  - destruct Ho as [Hlt Ho]. destruct o as [v|].
    + by apply is_newest_app_l.
    + by apply is_newest_app_r; auto.
Qed.

(** ** The byte-slice view iterators give of a value
    [Value()] of an iterator is nil for a tombstone; flush and compaction
    turn nil back into a tombstone. *)
Definition iter_value (v : Value) : option bytes :=
  if Tombstone v then None else Data v.
Definition value_of_iter (o : option bytes) : Value :=
  match o with None => NewTombstone | Some d => NewValue (Some d) end.

(** Values that survive that round trip: canonical tombstones and non-nil data. *)
Definition value_ok (v : Value) : Prop := value_of_iter (iter_value v) = v.
#[global] Instance value_ok_dec v : Decision (value_ok v).
Proof. unfold value_ok. apply _. Defined.

Lemma value_ok_spec v :
  value_ok v <-> v = NewTombstone \/ exists d, v = NewValue (Some d).
Proof.
  destruct v as [[d|] []]; unfold value_ok, iter_value, NewTombstone, NewValue; cbn;
    split; eauto; try (intros [?|[? ?]]; congruence); try congruence.
Qed.
