(* ===== verification/HLC.v ===== *)
(** * Package [hlc]: hybrid logical clocks (src/hlc)

    [Timestamp] with its total order and byte encoding, and the clock with
    its send rule ([Now]) and receive rule ([Update]).  The physical clock
    [c.now] is an arbitrary function in the source, so each operation takes
    the reading it obtains as an argument.  [WallTime] is an [int64],
    [Logical] a [uint32]: both wrap, and the theorems say where that
    matters. *)

From Stdlib Require Import ZArith Lia Sorted.
From stdpp Require Import base list option sorting.
From S2P Require Import Prelude GoBytes.

(** ** timestamp.go *)
Record Timestamp := mkTs { WallTime : Z; Logical : Z; NodeID : bytes }.
#[global] Instance Timestamp_eq_dec : EqDecision Timestamp.
Proof. solve_decision. Defined.

Definition wallTimeSize : Z := 8.
Definition logicalSize : Z := 4.
Definition nodeIDLenSize : Z := 2.
Definition TimestampHeaderSize : Z := wallTimeSize + logicalSize + nodeIDLenSize.
Definition maxNodeIDLen : Z := 2^16 - 1.

Inductive HlcErr := ErrCorruptTimestamp | ErrNodeIDTooLong | ErrClockDrift.

Definition Less (t other : Timestamp) : bool :=
  if negb (WallTime t =? WallTime other) then WallTime t <? WallTime other else
  if negb (Logical t =? Logical other) then Logical t <? Logical other else
  bltb (NodeID t) (NodeID other).

Definition Equal (t other : Timestamp) : bool :=
  (WallTime t =? WallTime other) && (Logical t =? Logical other)
  && bytes_Equal (NodeID t) (NodeID other).

Definition IsZero (t : Timestamp) : bool :=
  (WallTime t =? 0) && (Logical t =? 0) && bytes_Equal (NodeID t) [].

Definition Encode (t : Timestamp) : outcome HlcErr bytes :=
  if maxNodeIDLen <? len (NodeID t) then Err ErrNodeIDTooLong else
  Ok (put_be 8 (u64 (WallTime t)) ++ put_be 4 (Logical t)
      ++ put_be 2 (len (NodeID t)) ++ NodeID t).

Definition DecodeTimestamp (b : bytes) : outcome HlcErr Timestamp :=
  if len b <? TimestampHeaderSize then Err ErrCorruptTimestamp else
  w ← be_Uint64 b;
  b8 ← slice_from b wallTimeSize;
  logical ← be_Uint32 b8;
  b12 ← slice_from b (wallTimeSize + logicalSize);
  nodeIDLen ← be_Uint16 b12;
  let expectedLen := TimestampHeaderSize + nodeIDLen in
  if len b <? expectedLen then Err ErrCorruptTimestamp else
  if negb (len b =? expectedLen) then Err ErrCorruptTimestamp else
  nodeID ← slice b TimestampHeaderSize expectedLen;
  Ok (mkTs (i64 w) logical nodeID).

(** ** clock.go *)
Definition DefaultMaxDrift : Z := 60 * 1000000000.

Record Clock := mkClock { nodeID : bytes; last : Timestamp; maxDrift : Z }.

Definition zeroTs : Timestamp := mkTs 0 0 [].

Definition NewClock (node : bytes) : Clock := mkClock node zeroTs DefaultMaxDrift.

Definition SetMaxDrift (c : Clock) (d : Z) : Clock := mkClock (nodeID c) (last c) d.

(** [Now] with physical reading [pt]. *)
Definition Now (c : Clock) (pt : Z) : Clock * Timestamp :=
  let ts :=
    if WallTime (last c) <? pt
    then mkTs pt 0 (nodeID c)
    else mkTs (WallTime (last c)) (u32 (Logical (last c) + 1)) (nodeID c) in
  (mkClock (nodeID c) ts (maxDrift c), ts).

Definition Update (c : Clock) (pt : Z) (received : Timestamp) : Clock * option HlcErr :=
  if (0 <? maxDrift c) && (maxDrift c <? i64 (WallTime received - pt))
  then (c, Some ErrClockDrift) else
  let newWall := pt in
  let newWall := if newWall <? WallTime (last c) then WallTime (last c) else newWall in
  let newWall := if newWall <? WallTime received then WallTime received else newWall in
  let newLogical :=
    if (newWall =? WallTime (last c)) && (newWall =? WallTime received) then
      let l := Logical (last c) in
      let l := if l <? Logical received then Logical received else l in
      u32 (l + 1)
    else if newWall =? WallTime (last c) then u32 (Logical (last c) + 1)
    else if newWall =? WallTime received then u32 (Logical received + 1)
    else 0 in
  (mkClock (nodeID c) (mkTs newWall newLogical (nodeID c)) (maxDrift c), None).

(** ** The total order *)
Definition ts_ok (t : Timestamp) : Prop :=
  -2^63 <= WallTime t < 2^63 /\ 0 <= Logical t < 2^32.

Lemma Less_spec t o :
  Less t o = true <->
  WallTime t < WallTime o \/
  (WallTime t = WallTime o /\
    (Logical t < Logical o \/ (Logical t = Logical o /\ blt (NodeID t) (NodeID o)))).
Proof.
  unfold Less. destruct (Z.eqb_spec (WallTime t) (WallTime o)); cbn.
  - destruct (Z.eqb_spec (Logical t) (Logical o)); cbn.
    + destruct (bltb_spec (NodeID t) (NodeID o)); intuition (lia || congruence).
    + rewrite Z.ltb_lt. intuition lia.
  - rewrite Z.ltb_lt. intuition lia.
Qed.

Lemma Less_irrefl t : Less t t = false.
Proof.
  apply not_true_iff_false. rewrite Less_spec.
  pose proof (blt_irrefl (NodeID t)). intuition lia.
Qed.

Lemma Less_trans a b c : Less a b = true -> Less b c = true -> Less a c = true.
Proof.
  rewrite !Less_spec. pose proof (blt_trans (NodeID a) (NodeID b) (NodeID c)).
  intuition lia.
Qed.

(** Wall time and logical counter alone decide. *)
Lemma Less_of_fields a b :
  WallTime a < WallTime b \/ (WallTime a = WallTime b /\ Logical a < Logical b) ->
  Less a b = true.
Proof. rewrite Less_spec. intuition lia. Qed.

(** Case analysis on the comparisons of a clock operation, innermost first. *)
Ltac no_if t := lazymatch t with context [if _ then _ else _] => fail | _ => idtac end.
Ltac clock_cases :=
  repeat match goal with
  | |- context [Z.ltb ?a ?b] => no_if a; no_if b; destruct (Z.ltb_spec a b)
  | |- context [Z.eqb ?a ?b] => no_if a; no_if b; destruct (Z.eqb_spec a b)
  end; cbn.

Lemma u32_succ z : 0 <= z -> z + 1 < 2^32 -> u32 (z + 1) = z + 1.
Proof. intros. apply u32_small. lia. Qed.

Lemma Now_after c pt :
  0 <= Logical (last c) -> Logical (last c) + 1 < 2^32 ->
  Less (last c) (Now c pt).2 = true.
Proof.
  intros. apply Less_of_fields. unfold Now. cbn.
  clock_cases; rewrite ?u32_succ by lia; lia.
Qed.

Lemma Update_after c pt r c' :
  0 <= Logical (last c) -> Logical (last c) + 1 < 2^32 ->
  0 <= Logical r -> Logical r + 1 < 2^32 ->
  Update c pt r = (c', None) ->
  Less (last c) (last c') = true /\ Less r (last c') = true.
Proof.
  intros ???? H. unfold Update in H.
  destruct (_ && _); [discriminate|]. injection H as <-.
  split; apply Less_of_fields; cbn; clock_cases; rewrite ?u32_succ by lia; lia.
Qed.

(** An accepted timestamp moves the wall component no further than the local
    clock plus the allowed drift. *)
Lemma Update_wall c pt r c' :
  Update c pt r = (c', None) ->
  WallTime (last c') = Z.max pt (Z.max (WallTime (last c)) (WallTime r)).
Proof.
  intros H. unfold Update in H. destruct (_ && _); [discriminate|].
  injection H as <-. cbn. clock_cases; lia.
Qed.

(** ** The encoding *)
Ltac hlc_lia :=
  unfold TimestampHeaderSize, wallTimeSize, logicalSize, nodeIDLenSize in *; len_lia.

Lemma Encode_ok t :
  len (NodeID t) <= maxNodeIDLen ->
  Encode t = Ok (put_be 8 (u64 (WallTime t)) ++ put_be 4 (Logical t)
                 ++ put_be 2 (len (NodeID t)) ++ NodeID t).
Proof. intros. unfold Encode. by rewrite (proj2 (Z.ltb_ge _ _)) by lia. Qed.

Lemma Encode_inv t b :
  Encode t = Ok b -> b = put_be 8 (u64 (WallTime t)) ++ put_be 4 (Logical t)
                         ++ put_be 2 (len (NodeID t)) ++ NodeID t.
Proof. unfold Encode. destruct (_ <? _); congruence. Qed.

Lemma Decode_encoded t :
  ts_ok t -> len (NodeID t) <= maxNodeIDLen ->
  DecodeTimestamp (put_be 8 (u64 (WallTime t)) ++ put_be 4 (Logical t)
                   ++ put_be 2 (len (NodeID t)) ++ NodeID t) = Ok t.
Proof.
  intros [Hw Hl] Hn. unfold maxNodeIDLen in Hn. unfold DecodeTimestamp.
  pose proof (len_nonneg (NodeID t)).
  rewrite (proj2 (Z.ltb_ge _ _))
    by hlc_lia.
  rewrite be_Uint64_put. cbn [mbind outcome_bind].
  rewrite (slice_from_app _ _ wallTimeSize) by hlc_lia. cbn [mbind outcome_bind].
  rewrite be_Uint32_put. cbn [mbind outcome_bind].
  rewrite slice_from_app2 by hlc_lia. cbn [mbind outcome_bind].
  rewrite be_Uint16_put, (u16_small (len _)) by lia. cbn [mbind outcome_bind].
  rewrite (proj2 (Z.ltb_ge _ _)), (proj2 (Z.eqb_eq _ _))
    by hlc_lia.
  cbn [negb]. rewrite <-(app_nil_r (NodeID t)) at 2.
  rewrite !(app_assoc (put_be 8 _)), (app_assoc (_ ++ _) (put_be 2 _)).
  rewrite slice_app3
    by hlc_lia.
  cbn [mbind outcome_bind].
  rewrite (u64_small (u64 _)) by apply u64_range.
  rewrite i64_u64, u32_small by done. by destruct t.
Qed.

Lemma len_three (b : bytes) n1 n2 n3 :
  (n1 + n2 + n3 <= length b)%nat ->
  exists x y z r, b = x ++ y ++ z ++ r /\
    length x = n1 /\ length y = n2 /\ length z = n3.
Proof.
  intros. exists (take n1 b), (take n2 (drop n1 b)),
    (take n3 (drop (n1 + n2) b)), (drop (n1 + n2 + n3) b).
  rewrite !length_take, !length_drop. split; [|lia].
  rewrite <-(take_drop n1 b) at 1. f_equal.
  rewrite <-(take_drop n2 (drop n1 b)) at 1. rewrite drop_drop. f_equal.
  rewrite <-(take_drop n3 (drop (n1 + n2) b)) at 1. by rewrite drop_drop.
Qed.

(** Every accepted byte string is the encoding of the timestamp it decodes to. *)
Lemma Decode_inv b t :
  DecodeTimestamp b = Ok t ->
  b = put_be 8 (u64 (WallTime t)) ++ put_be 4 (Logical t)
      ++ put_be 2 (len (NodeID t)) ++ NodeID t
  /\ ts_ok t /\ len (NodeID t) <= maxNodeIDLen.
Proof.
  unfold DecodeTimestamp. destruct (Z.ltb_spec (len b) TimestampHeaderSize) as [|Hlen]; [done|].
  destruct (len_three b 8 4 2) as (x & y & z & r & -> & Hx & Hy & Hz);
    [unfold TimestampHeaderSize, wallTimeSize, logicalSize, nodeIDLenSize, len in Hlen; lia|].
  assert (len x = 8 /\ len y = 4 /\ len z = 2) as (Lx & Ly & Lz) by (unfold len; lia).
  unfold be_Uint64, be_Uint32, be_Uint16.
  rewrite (get_fixed_app get_be 8 x) by done. cbn [mbind outcome_bind].
  rewrite (slice_from_app _ _ wallTimeSize) by hlc_lia. cbn [mbind outcome_bind].
  rewrite (get_fixed_app get_be 4 y) by done. cbn [mbind outcome_bind].
  rewrite slice_from_app2 by hlc_lia. cbn [mbind outcome_bind].
  rewrite (get_fixed_app get_be 2 z) by done. cbn [mbind outcome_bind].
  destruct (Z.ltb_spec (len (x ++ y ++ z ++ r)) (TimestampHeaderSize + get_be z)); [done|].
  destruct (Z.eqb_spec (len (x ++ y ++ z ++ r)) (TimestampHeaderSize + get_be z)) as [E|]; [|done].
  cbn [negb]. assert (len r = get_be z) as Er by hlc_lia.
  rewrite <-(app_nil_r r) at 1. rewrite !(app_assoc x), (app_assoc (x ++ y) z).
  rewrite slice_app3 by hlc_lia. cbn [mbind outcome_bind]. intros [= <-]. cbn.
  pose proof (get_be_range x) as Rx. pose proof (get_be_range y) as Ry.
  pose proof (get_be_range z) as Rz. rewrite Lx in Rx. rewrite Ly in Ry. rewrite Lz in Rz.
  change (256 ^ 8) with (2^64) in Rx. change (256 ^ 4) with (2^32) in Ry.
  change (256 ^ 2) with (2^16) in Rz.
  assert (u64 (i64 (get_be x)) = get_be x) as ->.
  { unfold i64, u64. rewrite Zminus_mod_idemp_l, Z.add_simpl_r. by apply Z.mod_small. }
  rewrite Er, !put_be_get_be by done. rewrite <-!app_assoc.
  pose proof (i64_range (get_be x)). unfold ts_ok, maxNodeIDLen. cbn. split; [done|lia].
Qed.

(** ** Runs of a clock *)
Inductive clock_event := EvNow (pt : Z) | EvUpdate (pt : Z) (received : Timestamp).

(** The clock after a run of events and the timestamps [Now] issued. *)
Fixpoint run_clock (c : Clock) (evs : list clock_event) : Clock * list Timestamp :=
  match evs with
  | [] => (c, [])
  | EvNow pt :: evs =>
      let '(c1, t) := Now c pt in
      let '(c2, ts) := run_clock c1 evs in (c2, t :: ts)
  | EvUpdate pt r :: evs => run_clock (Update c pt r).1 evs
  end.

Definition event_logical_le (B : Z) (e : clock_event) : Prop :=
  match e with EvNow _ => True | EvUpdate _ r => 0 <= Logical r <= B end.

Lemma Now_logical c pt B :
  0 <= Logical (last c) <= B -> B + 1 < 2^32 -> 0 <= Logical (last (Now c pt).1) <= B + 1.
Proof. intros. unfold Now. cbn. clock_cases; rewrite ?u32_succ by lia; lia. Qed.

Lemma Update_logical c pt r B :
  0 <= Logical (last c) <= B -> 0 <= Logical r <= B -> B + 1 < 2^32 ->
  0 <= Logical (last (Update c pt r).1) <= B + 1.
Proof.
  intros. unfold Update. destruct (_ && _); cbn; [lia|].
  clock_cases; rewrite ?u32_succ by lia; lia.
Qed.

Lemma Update_not_before c pt r B t :
  0 <= Logical (last c) <= B -> 0 <= Logical r <= B -> B + 1 < 2^32 ->
  Less (last (Update c pt r).1) t = true -> Less (last c) t = true.
Proof.
  intros Hc Hr HB H. destruct (Update c pt r) as [c' [e|]] eqn:E.
  - unfold Update in E. destruct (_ && _); [|discriminate]. by injection E as <- <-.
  - eapply Less_trans; [|exact H]. eapply Update_after in E as [? _]; [done|lia..].
Qed.

Lemma run_clock_sorted evs c B :
  0 <= Logical (last c) <= B -> Forall (event_logical_le B) evs -> B + len evs < 2^32 ->
  StronglySorted (fun a b => Less a b = true) (last c :: (run_clock c evs).2).
Proof.
  revert c B; induction evs as [|ev evs IH]; intros c B Hc Hev HB.
  { repeat constructor. }
  apply Forall_cons in Hev as [He Hev]. rewrite len_cons in HB. pose proof (len_nonneg evs).
  assert (Forall (event_logical_le (B + 1)) evs) as Hev'.
  { eapply Forall_impl; [exact Hev|]. intros []; cbn; lia. }
  destruct ev as [pt|pt r]; cbn [run_clock].
  - pose proof (Now_after c pt) as Hlt. pose proof (Now_logical c pt B Hc) as Hl.
    destruct (Now c pt) as [c1 t] eqn:E. cbn in *.
    assert (last c1 = t) as <- by (unfold Now in E; by injection E as <- <-).
    specialize (IH c1 (B + 1)). destruct (run_clock c1 evs) as [c2 ts]. cbn in *.
    assert (StronglySorted (fun a b => Less a b = true) (last c1 :: ts)) as Hs
      by (apply IH; [lia|done|lia]).
    constructor; [done|]. constructor; [apply Hlt; lia|].
    apply StronglySorted_inv in Hs as [_ Hs]. eapply Forall_impl; [exact Hs|].
    intros x Hx. cbn. eapply Less_trans; [apply Hlt; lia|exact Hx].
  - cbn in He. pose proof (Update_logical c pt r B Hc He).
    assert (StronglySorted (fun a b => Less a b = true)
              (last (Update c pt r).1 :: (run_clock (Update c pt r).1 evs).2)) as Hs
      by (apply (IH _ (B + 1)); [lia|done|lia]).
    apply StronglySorted_inv in Hs as [Hs1 Hs2]. constructor; [done|].
    eapply Forall_impl; [exact Hs2|]. intros x Hx. cbn.
    eapply Update_not_before; [exact Hc|exact He|lia|exact Hx].
Qed.

(** ** Claims *)

(** [Less] is a strict total order on timestamps: irreflexive, transitive,
    and any two timestamps are related or equal field by field ([Equal]). *)
Theorem hlc_total_order :
  (forall t, Less t t = false) /\
  (forall a b c, Less a b = true -> Less b c = true -> Less a c = true) /\
  (forall a b, Less a b = true \/ Less b a = true \/ (a = b /\ Equal a b = true)).
Proof.
  split; [exact Less_irrefl|]. split; [exact Less_trans|]. intros a b.
  rewrite !Less_spec. pose proof (blt_total (NodeID a) (NodeID b)) as Ht.
  destruct (Z.lt_total (WallTime a) (WallTime b)) as [|[Ew|]]; [tauto| |tauto].
  destruct (Z.lt_total (Logical a) (Logical b)) as [|[El|]]; [tauto| |intuition lia].
  destruct Ht as [|[En|]]; [tauto| |intuition lia].
  right; right. destruct a, b; cbn in *; subst. split; [done|].
  unfold Equal; cbn. rewrite !Z.eqb_refl. unfold bytes_Equal. by rewrite bool_decide_eq_true_2.
Qed.

(** C32: Over any run of [Now] and [Update] calls, whatever the physical clock
    reads (backward jumps included) and whatever timestamps arrive, the
    timestamps the clock issues are strictly increasing and above its starting
    point, as long as the logical counter stays below 2^32. *)
Theorem hlc_run_monotone c evs B :
  0 <= Logical (last c) <= B -> Forall (event_logical_le B) evs -> B + len evs < 2^32 ->
  StronglySorted (fun a b => Less a b = true) (last c :: (run_clock c evs).2).
Proof. apply run_clock_sorted. Qed.

Lemma hlc_run_monotone_witness :
  let evs := [EvNow 10; EvNow 3; EvUpdate 4 (mkTs 12 7 [Byte.x61]); EvNow 5] in
  map (fun t => (WallTime t, Logical t)) (run_clock (NewClock []) evs).2
    = [(10, 0); (10, 1); (12, 9)] /\
  StronglySorted (fun a b => Less a b = true)
    (last (NewClock []) :: (run_clock (NewClock []) evs).2).
Proof.
  split; [reflexivity|]. apply (hlc_run_monotone _ _ 7); [cbn; lia| |vm_compute; done].
  repeat constructor; cbn; lia.
Defined.

(** Causality across nodes: once a clock has accepted a received timestamp,
    every timestamp it issues later is greater than the received one and than
    everything it issued before. *)
Theorem hlc_causality c pt r c' evs B :
  0 <= Logical (last c) -> 0 <= Logical r -> Logical (last c) + 1 <= B ->
  Logical r + 1 <= B -> Forall (event_logical_le B) evs -> B + len evs < 2^32 ->
  Update c pt r = (c', None) ->
  Forall (fun t => Less r t = true /\ Less (last c) t = true) (run_clock c' evs).2.
Proof.
  intros Hc Hr HcB HrB Hev HB Hup. pose proof (len_nonneg evs).
  destruct (Update_after c pt r c') as [H1 H2]; [lia..|done|].
  assert (0 <= Logical (last c') <= B) as Hl.
  { pose proof (Update_logical c pt r (B - 1)) as Hu. rewrite Hup in Hu. cbn in Hu. lia. }
  pose proof (run_clock_sorted evs c' B Hl Hev HB) as Hs.
  apply StronglySorted_inv in Hs as [_ Hs]. eapply Forall_impl; [exact Hs|].
  intros t Ht. cbn in Ht. eauto using Less_trans.
Qed.

Lemma hlc_causality_witness :
  Forall (fun t => Less (mkTs 50 2 [Byte.x62]) t = true /\ Less zeroTs t = true)
    (run_clock (Update (NewClock [Byte.x61]) 40 (mkTs 50 2 [Byte.x62])).1 [EvNow 41; EvNow 60]).2.
Proof.
  apply (hlc_causality (NewClock [Byte.x61]) 40 (mkTs 50 2 [Byte.x62]) _ _ 3);
    [cbn; lia..|repeat constructor|vm_compute; done|reflexivity].
Defined.

(** [Update] refuses a timestamp exactly when drift checking is on and the
    received wall time is more than [maxDrift] AHEAD of the physical clock, and
    then leaves the clock unchanged; an accepted one never moves the wall
    component past both the previous value and physical time plus [maxDrift]. *)
Theorem hlc_update_drift c pt r :
  -2^63 <= WallTime r - pt < 2^63 ->
  ((Update c pt r).2 = Some ErrClockDrift <-> 0 < maxDrift c < WallTime r - pt) /\
  ((Update c pt r).2 <> None -> (Update c pt r).1 = c) /\
  ((Update c pt r).2 = None -> 0 < maxDrift c ->
     WallTime (last (Update c pt r).1) <= Z.max (WallTime (last c)) (pt + maxDrift c)).
Proof.
  intros Hr. destruct (Update c pt r) as [c' e] eqn:E. cbn [fst snd].
  assert (e = None -> WallTime (last c') = Z.max pt (Z.max (WallTime (last c)) (WallTime r))) as Hw
    by (intros ->; by eapply Update_wall).
  unfold Update in E. rewrite i64_small in E by done.
  destruct (Z.ltb_spec 0 (maxDrift c)), (Z.ltb_spec (maxDrift c) (WallTime r - pt));
    cbn in E; injection E as <- <-; (split; [|split]);
    try (split; [congruence|lia]); try (split; [lia|congruence]); try done.
  - intros He _. rewrite Hw by done. lia.
  - intros _ ?. lia.
  - intros _ ?. lia.
Qed.

Lemma hlc_update_drift_witness :
  (Update (NewClock []) 0 (mkTs (DefaultMaxDrift + 1) 0 [])).2 = Some ErrClockDrift /\
  (Update (NewClock []) (10 * DefaultMaxDrift) (mkTs 0 0 [])).2 = None.
Proof.
  split.
  - apply (proj1 (hlc_update_drift (NewClock []) 0 (mkTs (DefaultMaxDrift + 1) 0 [])
                    ltac:(vm_compute; split; congruence))).
    vm_compute. split; congruence.
  - reflexivity.
Defined.

(** The logical counter is a [uint32]: when it is exhausted and the physical
    clock has not advanced, [Now] wraps to 0 and issues a timestamp BELOW the
    previous one. *)
Theorem hlc_logical_wrap c pt :
  Logical (last c) = 2^32 - 1 -> pt <= WallTime (last c) ->
  Less (Now c pt).2 (last c) = true.
Proof.
  intros Hl Hp. apply Less_of_fields. unfold Now. rewrite (proj2 (Z.ltb_ge _ _)) by done.
  cbn. rewrite Hl. change (u32 (2 ^ 32 - 1 + 1)) with 0. lia.
Qed.

Lemma hlc_logical_wrap_witness :
  let c := mkClock [] (mkTs 5 (2^32 - 1) []) 0 in Less (Now c 5).2 (last c) = true.
Proof. apply (hlc_logical_wrap (mkClock [] (mkTs 5 (2^32 - 1) []) 0) 5); cbn; lia. Defined.

(** Encoding and decoding are inverse: encoding fails exactly on node IDs over
    65535 bytes, decoding an encoding gives the timestamp back, and every byte
    string that decodes is the encoding of what it decodes to (so truncated input
    and trailing bytes are rejected). *)
Theorem hlc_encode_roundtrip :
  (forall t, ts_ok t ->
     match Encode t with
     | Ok b => DecodeTimestamp b = Ok t
     | Err e => e = ErrNodeIDTooLong /\ maxNodeIDLen < len (NodeID t)
     | Panic => False
     end) /\
  (forall b t, DecodeTimestamp b = Ok t -> Encode t = Ok b).
Proof.
  split.
  - intros t Ht. destruct (Z.le_gt_cases (len (NodeID t)) maxNodeIDLen).
    + rewrite Encode_ok by done. by apply Decode_encoded.
    + unfold Encode. rewrite (proj2 (Z.ltb_lt _ _)) by lia. done.
  - intros b t H. apply Decode_inv in H as (-> & _ & ?). by apply Encode_ok.
Qed.

(** Big-endian order: for non-negative wall times, comparing the first twelve
    bytes of two encodings compares (wall time, logical counter). *)
Theorem hlc_encode_order t1 t2 b1 b2 :
  ts_ok t1 -> ts_ok t2 -> 0 <= WallTime t1 -> 0 <= WallTime t2 ->
  Encode t1 = Ok b1 -> Encode t2 = Ok b2 ->
  bytes_Compare (take 12 b1) (take 12 b2) =
  match WallTime t1 ?= WallTime t2 with Eq => Logical t1 ?= Logical t2 | c => c end.
Proof.
  intros [Hw1 Hl1] [Hw2 Hl2] H1 H2 ->%Encode_inv ->%Encode_inv.
  assert (forall w l r, 0 <= w < 2^63 ->
    take 12 (put_be 8 (u64 w) ++ put_be 4 l ++ r) = put_be 8 w ++ put_be 4 l) as Htk.
  { intros w l r Hw. rewrite app_assoc, take_app_le, take_ge, u64_small;
      rewrite ?length_app, ?length_put_be; (done || lia). }
  rewrite !Htk by lia. generalize dependent (Logical t1). intros l1 Hl1.
  generalize dependent (Logical t2). intros l2 Hl2.
  assert (bytes_Compare (put_be 4 l1) (put_be 4 l2) = (l1 ?= l2)) as El.
  { rewrite bytes_Compare_be by by rewrite !length_put_be.
    rewrite !get_be_put_be, !Z.mod_small; (done || lia). }
  assert (bytes_Compare (put_be 8 (WallTime t1)) (put_be 8 (WallTime t2))
          = (WallTime t1 ?= WallTime t2)) as Ew.
  { rewrite bytes_Compare_be by by rewrite !length_put_be.
    rewrite !get_be_put_be, !Z.mod_small; (done || lia). }
  destruct (Z.compare_spec (WallTime t1) (WallTime t2)) as [E|E|E].
  - rewrite E, bytes_Compare_app. done.
  - by apply blt_app_same_length; [rewrite !length_put_be|].
  - apply bytes_Compare_Gt, blt_app_same_length; [by rewrite !length_put_be|].
    by apply bytes_Compare_Gt.
Qed.

Lemma hlc_encode_order_witness :
  exists b1 b2, Encode (mkTs 1 9 [Byte.x62]) = Ok b1 /\ Encode (mkTs 256 0 []) = Ok b2 /\
    bytes_Compare (take 12 b1) (take 12 b2) = Lt.
Proof.
  do 2 eexists. split; [reflexivity|]. split; [reflexivity|].
  exact (hlc_encode_order (mkTs 1 9 [Byte.x62]) (mkTs 256 0 []) _ _
           ltac:(unfold ts_ok; cbn; lia) ltac:(unfold ts_ok; cbn; lia)
           ltac:(cbn; lia) ltac:(cbn; lia) eq_refl eq_refl).
Defined.
