(* ===== verification/Bloom.v ===== *)
(** * Bloom filters (src/sstable/bloom.go)

    LevelDB's filter: one 32-bit hash per key, [k] probes obtained by
    repeatedly adding the rotated hash, [k] stored in the last byte.  The
    arithmetic is [uint32] throughout and is written with its wrap-around. *)

From Stdlib Require Import ZArith Lia.
From stdpp Require Import base list option sorting.
From S2P Require Import Prelude GoBytes.

Definition bitsPerKey : Z := 10.

Definition bloomK (bitsPerKey : Z) : Z :=
  let k := Z.quot (bitsPerKey * 69) 100 in
  let k := if k <? 1 then 1 else k in
  if 30 <? k then 30 else k.

(** [h >> 17 | h << 15] on uint32 *)
Definition bloom_delta (h : Z) : Z := Z.lor (Z.shiftr h 17) (u32 (Z.shiftl h 15)).

(** [filter[bitPos/8] |= 1 << (bitPos % 8)] *)
Definition set_bit (filter : bytes) (bitPos : Z) : bytes :=
  let i := Z.to_nat (bitPos / 8) in
  match filter !! i with
  | Some b => <[i := Zb (Z.lor (bZ b) (Z.shiftl 1 (bitPos mod 8)))]> filter
  | None => filter
  end.

(** The inner probe loop of [BuildBloomFilter]. *)
Fixpoint set_probes (k : nat) (filter : bytes) (numBits delta h : Z) : bytes :=
  match k with
  | O => filter
  | S k => set_probes k (set_bit filter (h mod numBits)) numBits delta (u32 (h + delta))
  end.

(** [None] is the nil filter. *)
Definition BuildBloomFilter (hashes : list Z) : option bytes :=
  let n := len hashes in
  if n =? 0 then None else
  let numBits := n * bitsPerKey in
  let numBits := if numBits <? 64 then 64 else numBits in
  let numBytes := (numBits + 7) / 8 in
  let numBits := numBytes * 8 in
  let k := bloomK bitsPerKey in
  let filter := repeat Byte.x00 (Z.to_nat numBytes) ++ [Zb k] in
  Some (fold_left
          (fun f h => set_probes (Z.to_nat k) f (u32 numBits) (bloom_delta h) h)
          hashes filter).

(** [filter[bitPos/8] & (1 << (bitPos%8)) != 0] *)
Definition get_bit (filter : bytes) (bitPos : Z) : bool :=
  match filter !! Z.to_nat (bitPos / 8) with
  | Some b => negb (Z.land (bZ b) (Z.shiftl 1 (bitPos mod 8)) =? 0)
  | None => false
  end.

Fixpoint check_probes (k : nat) (filter : bytes) (numBits delta h : Z) : bool :=
  match k with
  | O => true
  | S k =>
      if get_bit filter (h mod numBits)
      then check_probes k filter numBits delta (u32 (h + delta))
      else false
  end.

(** ** [BloomHash] *)
Definition bloom_seed : Z := 0xbc9f1d34.
Definition bloom_m : Z := 0xc6a4a793.

Fixpoint bloom_words (data : bytes) (h : Z) : Z * bytes :=
  match data with
  | b0 :: b1 :: b2 :: b3 :: rest =>
      let w := Z.lor (Z.lor (Z.lor (bZ b0) (Z.shiftl (bZ b1) 8)) (Z.shiftl (bZ b2) 16))
                     (Z.shiftl (bZ b3) 24) in
      let h := u32 (h + w) in
      let h := u32 (h * bloom_m) in
      let h := Z.lxor h (Z.shiftr h 16) in
      bloom_words rest h
  | _ => (h, data)
  end.

Definition bloom_finish (h : Z) (b0 : byte) : Z :=
  let h := u32 (h + bZ b0) in
  let h := u32 (h * bloom_m) in
  Z.lxor h (Z.shiftr h 24).

Definition BloomHash (data : bytes) : Z :=
  let h := Z.lxor bloom_seed (u32 (u32 (len data) * bloom_m)) in
  let '(h, rest) := bloom_words data h in
  match rest with
  | [b0; b1; b2] =>
      bloom_finish (u32 (u32 (h + Z.shiftl (bZ b2) 16) + Z.shiftl (bZ b1) 8)) b0
  | [b0; b1] => bloom_finish (u32 (h + Z.shiftl (bZ b1) 8)) b0
  | [b0] => bloom_finish h b0
  | _ => h
  end.

Definition BloomMayContain (filter : option bytes) (key : bytes) : bool :=
  let filter := default [] filter in
  if len filter <? 2 then true else
  let k := bZ (List.last filter Byte.x00) in
  if (k <? 1) || (30 <? k) then true else
  let numBits := u32 ((len filter - 1) * 8) in
  let h := BloomHash key in
  check_probes (Z.to_nat k) filter numBits (bloom_delta h) h.

(** ** No false negatives *)
Lemma land_bit x j : 0 <= j -> negb (Z.land x (Z.shiftl 1 j) =? 0) = Z.testbit x j.
Proof.
  intros Hj. destruct (Z.testbit x j) eqn:E.
  - destruct (Z.eqb_spec (Z.land x (Z.shiftl 1 j)) 0) as [H|]; [|done].
    apply (f_equal (fun z => Z.testbit z j)) in H.
    rewrite Z.land_spec, E, Z.bits_0, Z.shiftl_spec, Z.sub_diag in H by done. done.
  - apply negb_false_iff, Z.eqb_eq, Z.bits_inj'. intros i Hi.
    rewrite Z.land_spec, Z.bits_0, Z.shiftl_spec by done.
    destruct (decide (i = j)) as [->|Hne]; [by rewrite E|].
    destruct (Z.lt_total i j) as [|[?|?]]; [|done|].
    + by rewrite (Z.testbit_neg_r 1), andb_false_r by lia.
    + rewrite (Z.bits_above_log2 1), andb_false_r; [done|lia|cbn; lia].
Qed.

Lemma testbit_Zb z j : 0 <= j < 8 -> Z.testbit (bZ (Zb z)) j = Z.testbit z j.
Proof. intros. rewrite bZ_Zb. change 256 with (2 ^ 8). apply Z.mod_pow2_bits_low. lia. Qed.

Lemma get_bit_testbit f p :
  get_bit f p = match f !! Z.to_nat (p / 8) with
                | Some b => Z.testbit (bZ b) (p mod 8) | None => false end.
Proof.
  unfold get_bit. destruct (f !! _); [|done]. apply land_bit.
  pose proof (Z.mod_pos_bound p 8). lia.
Qed.

Lemma length_set_bit f p : length (set_bit f p) = length f.
Proof. unfold set_bit. destruct (f !! _); [apply length_insert|done]. Qed.

Lemma get_set_bit f p : 0 <= p < 8 * len f -> get_bit (set_bit f p) p = true.
Proof.
  intros Hp. rewrite get_bit_testbit. unfold set_bit.
  assert (Z.to_nat (p / 8) < length f)%nat as Hlt by (unfold len in Hp; div_lia).
  destruct (lookup_lt_is_Some_2 f _ Hlt) as [b ->].
  rewrite list_lookup_insert_eq by done.
  pose proof (Z.mod_pos_bound p 8 eq_refl).
  rewrite testbit_Zb, Z.lor_spec, Z.shiftl_spec, Z.sub_diag by lia. apply orb_true_r.
Qed.

Lemma get_set_bit_mono f p q : 0 <= q -> get_bit f q = true -> get_bit (set_bit f p) q = true.
Proof.
  rewrite !get_bit_testbit. intros Hq H. unfold set_bit.
  destruct (f !! Z.to_nat (p / 8)) as [b|] eqn:E; [|done].
  destruct (decide (Z.to_nat (p / 8) = Z.to_nat (q / 8))) as [Eq|Hne].
  - rewrite <-Eq in *. rewrite E in H. rewrite list_lookup_insert_eq
      by (by eapply lookup_lt_Some). pose proof (Z.mod_pos_bound q 8 eq_refl).
    by rewrite testbit_Zb, Z.lor_spec, H by lia.
  - by rewrite list_lookup_insert_ne.
Qed.

Lemma length_set_probes k f nb d h : length (set_probes k f nb d h) = length f.
Proof.
  revert f h; induction k as [|k IH]; intros; cbn; [done|]. by rewrite IH, length_set_bit.
Qed.

Section probes.
Context (numBits : Z) (Hnb : 0 < numBits).

Lemma set_probes_mono k f d h q :
  0 <= q -> get_bit f q = true -> get_bit (set_probes k f numBits d h) q = true.
Proof. revert f h; induction k; intros; cbn; eauto using get_set_bit_mono. Qed.

Lemma check_probes_mono k f f' d h :
  (forall q, 0 <= q -> get_bit f q = true -> get_bit f' q = true) ->
  check_probes k f numBits d h = true -> check_probes k f' numBits d h = true.
Proof.
  intros Hm. revert h; induction k as [|k IH]; intros h; cbn; [done|].
  destruct (get_bit f (h mod numBits)) eqn:E; [|done].
  rewrite (Hm _ (proj1 (Z.mod_pos_bound h numBits Hnb)) E). apply IH.
Qed.

Lemma check_set_probes k f d h :
  numBits <= 8 * len f ->
  check_probes k (set_probes k f numBits d h) numBits d h = true.
Proof.
  revert f h; induction k as [|k IH]; intros f h Hf; cbn; [done|].
  pose proof (Z.mod_pos_bound h numBits Hnb).
  rewrite set_probes_mono; [|lia|apply get_set_bit; lia].
  apply IH. unfold len in *. by rewrite length_set_bit.
Qed.

(** The byte holding [k] lies past every probed bit. *)
Lemma last_set_probes k f x d h :
  numBits <= 8 * len f ->
  exists f', set_probes k (f ++ [x]) numBits d h = f' ++ [x] /\ length f' = length f.
Proof.
  revert f h; induction k as [|k IH]; intros f h Hf; cbn; [eauto|].
  pose proof (Z.mod_pos_bound h numBits Hnb).
  assert (Z.to_nat (h mod numBits / 8) < length f)%nat as Hlt by (unfold len in Hf; div_lia).
  unfold set_bit. rewrite lookup_app_l by done.
  destruct (lookup_lt_is_Some_2 f _ Hlt) as [b ->].
  rewrite insert_app_l by done.
  edestruct (IH (<[Z.to_nat (h mod numBits / 8) := Zb (Z.lor (bZ b)
               (Z.shiftl 1 ((h mod numBits) mod 8)))]> f) (u32 (h + d))) as (f' & -> & Hl).
  { unfold len. by rewrite length_insert. }
  exists f'. split; [done|]. by rewrite Hl, length_insert.
Qed.

Lemma build_loop k hs f x :
  numBits <= 8 * len f ->
  exists f', fold_left (fun f h => set_probes k f numBits (bloom_delta h) h) hs (f ++ [x])
             = f' ++ [x] /\ length f' = length f /\
    (forall q, 0 <= q -> get_bit (f ++ [x]) q = true -> get_bit (f' ++ [x]) q = true) /\
    (forall h, h ∈ hs -> check_probes k (f' ++ [x]) numBits (bloom_delta h) h = true).
Proof.
  revert f; induction hs as [|h hs IH]; intros f Hf; cbn.
  - exists f. split; [done|]. split; [done|]. split; [done|]. by intros ? ?%elem_of_nil.
  - destruct (last_set_probes k f x (bloom_delta h) h Hf) as (f1 & E1 & Hl1). rewrite E1.
    destruct (IH f1) as (f2 & E2 & Hl2 & Hm2 & Hc2); [unfold len in *; by rewrite Hl1|].
    exists f2. split; [done|]. split; [congruence|]. split.
    + intros q Hq Hb. apply Hm2; [done|]. rewrite <-E1. by apply set_probes_mono.
    + intros h' [->|Hin]%elem_of_cons; [|by apply Hc2].
      eapply check_probes_mono; [exact Hm2|]. rewrite <-E1.
      apply check_set_probes. rewrite len_app. len_lia.
Qed.
End probes.

Lemma BloomMayContain_snoc f x key :
  1 <= len f -> 1 <= bZ x <= 30 ->
  BloomMayContain (Some (f ++ [x])) key =
  check_probes (Z.to_nat (bZ x)) (f ++ [x]) (u32 (len f * 8))
    (bloom_delta (BloomHash key)) (BloomHash key).
Proof.
  intros Hf Hx. unfold BloomMayContain. cbn [default from_option id].
  rewrite last_last, len_app, len_cons, len_nil.
  rewrite (proj2 (Z.ltb_ge _ 2)), (proj2 (Z.ltb_ge _ 1)), (proj2 (Z.ltb_ge 30 _)) by lia.
  cbn [orb]. by replace (len f + (1 + 0) - 1) with (len f) by lia.
Qed.

Lemma bloom_contains keys key :
  len keys * bitsPerKey + 71 < 2^32 -> key ∈ keys ->
  BloomMayContain (BuildBloomFilter (map BloomHash keys)) key = true.
Proof.
  intros Hn Hk. unfold BuildBloomFilter. rewrite len_map.
  pose proof (len_nonneg keys). unfold bitsPerKey in *.
  destruct (Z.eqb_spec (len keys) 0) as [E|_].
  { apply len_zero_nil in E as ->. by apply elem_of_nil in Hk. }
  set (nb := if len keys * 10 <? 64 then 64 else len keys * 10).
  assert (64 <= nb < 2^32 - 71) as Hnb by (unfold nb; destruct (Z.ltb_spec (len keys * 10) 64); lia).
  clearbody nb.
  assert (u32 ((nb + 7) / 8 * 8) = (nb + 7) / 8 * 8) as Enb by (apply u32_small; div_lia).
  rewrite Enb.
  destruct (build_loop ((nb + 7) / 8 * 8) ltac:(div_lia) (Z.to_nat (bloomK 10))
              (map BloomHash keys) (repeat Byte.x00 (Z.to_nat ((nb + 7) / 8))) (Zb (bloomK 10)))
    as (f' & -> & Hl & _ & Hc).
  { unfold len. rewrite repeat_length. div_lia. }
  rewrite repeat_length in Hl.
  assert (len f' = (nb + 7) / 8) as Hlf by (unfold len; div_lia).
  rewrite BloomMayContain_snoc, Hlf, Enb; [|div_lia|by vm_compute].
  change (bZ (Zb (bloomK 10))) with (bloomK 10).
  apply (Hc (BloomHash key)). apply list_elem_of_fmap. eauto.
Qed.

(** ** Claims *)

(** A Bloom filter built from the hashes of a set of keys never rejects one of
    those keys (no false negatives), for every set whose bit count fits in 32
    bits. *)
Theorem bloom_no_false_negatives keys key :
  len keys * bitsPerKey + 71 < 2^32 -> key ∈ keys ->
  BloomMayContain (BuildBloomFilter (map BloomHash keys)) key = true.
Proof. apply bloom_contains. Qed.

Lemma bloom_no_false_negatives_witness :
  let keys := [[Byte.x61]; [Byte.x62; Byte.x63]] in
  BloomMayContain (BuildBloomFilter (map BloomHash keys)) [Byte.x61] = true /\
  BloomMayContain (BuildBloomFilter (map BloomHash keys)) [Byte.x7a] = false.
Proof.
  split; [|vm_compute; reflexivity].
  apply bloom_no_false_negatives; [vm_compute; done|by left].
Defined.
