(* ===== verification/WAL.v ===== *)
(** * Package [wal]: the write-ahead log (src/wal)

    The record codec of encoding.go byte for byte, the log writer of
    wal.go and the recovery loop of reader.go.  A log file is its byte
    content; a crash during an append leaves a prefix of the appended
    record. *)

From Stdlib Require Import ZArith Lia.
From stdpp Require Import base list option sorting gmap.
From S2P Require Import Prelude GoBytes KV.

(** ** encoding.go *)
Definition checksumSize : Z := 4.
Definition lengthSize : Z := 4.
Definition countSize : Z := 2.
Definition headerSize : Z := checksumSize + lengthSize.
Definition flagSize : Z := 1.
Definition seqSize : Z := 8.
Definition keyLenSize : Z := 2.
Definition valueLenSize : Z := 4.
Definition entryHeader : Z := flagSize + seqSize + keyLenSize + valueLenSize.
Definition flagPut : byte := Byte.x00.
Definition flagTombstone : byte := Byte.x01.

Inductive WalErr := ErrCorruptRecord | ErrShortRecord | ErrInvalidFlag.
#[global] Instance WalErr_eq_dec : EqDecision WalErr.
Proof. solve_decision. Defined.

Record Entry := mkEntry { Seq : Z; Key : bytes; EValue : Value }.
#[global] Instance Entry_eq_dec : EqDecision Entry.
Proof. solve_decision. Defined.

(** The bytes the second loop of [encodeRecord] writes for one entry. *)
Definition encodeEntry (e : Entry) : bytes :=
  let v := EValue e in
  (if Tombstone v then flagTombstone else flagPut)
  :: put_le 8 (Seq e) ++ put_le 2 (len (Key e))
  ++ put_le 4 (if Tombstone v then 0 else len (sl (Data v)))
  ++ Key e ++ (if Tombstone v then [] else sl (Data v)).

Definition payloadSize (entries : list Entry) : Z :=
  fold_left (fun n e => n + entryHeader + len (Key e)
               + (if Tombstone (EValue e) then 0 else len (sl (Data (EValue e)))))
            entries countSize.

Definition encodeRecord (entries : list Entry) : bytes :=
  let body := put_le 4 (payloadSize entries)
              ++ put_le 2 (len entries) ++ concat (map encodeEntry entries) in
  put_le 4 (crc32 body) ++ body.

(** The entry loop of [decodeRecord]. *)
Fixpoint decodeEntries (data : bytes) (totalLen offset : Z) (count : nat)
  : outcome WalErr (list Entry) :=
  match count with
  | O => Ok []
  | S count =>
      if totalLen <? offset + entryHeader then Err ErrShortRecord else
      flag ← index data offset;
      let offset := offset + flagSize in
      d ← slice_from data offset; seq ← le_Uint64 d;
      let offset := offset + seqSize in
      d ← slice_from data offset; keyLen ← le_Uint16 d;
      let offset := offset + keyLenSize in
      d ← slice_from data offset; valueLen ← le_Uint32 d;
      let offset := offset + valueLenSize in
      if totalLen <? offset + keyLen then Err ErrShortRecord else
      key ← slice data offset (offset + keyLen);
      let offset := offset + keyLen in
      vo ← (if decide (flag = flagPut) then
              if totalLen <? offset + valueLen then Err ErrShortRecord else
              valData ← slice data offset (offset + valueLen);
              Ok (NewValue (Some valData), offset + valueLen)
            else if decide (flag = flagTombstone) then Ok (NewTombstone, offset)
            else Err ErrInvalidFlag);
      es ← decodeEntries data totalLen vo.2 count;
      Ok (mkEntry seq key vo.1 :: es)
  end.

Definition decodeRecord (data : bytes) : outcome WalErr (list Entry * Z) :=
  if len data <? headerSize then Err ErrShortRecord else
  d ← slice data 0 checksumSize; storedChecksum ← le_Uint32 d;
  d ← slice data checksumSize headerSize; payloadLen ← le_Uint32 d;
  let totalLen := headerSize + payloadLen in
  if len data <? totalLen then Err ErrShortRecord else
  d ← slice data checksumSize totalLen;
  if negb (storedChecksum =? crc32 d) then Err ErrCorruptRecord else
  d ← slice_from data headerSize; count ← le_Uint16 d;
  es ← decodeEntries data totalLen (headerSize + countSize) (Z.to_nat count);
  Ok (es, totalLen).

(** ** reader.go *)

(** The loop of [Recover] on the file contents.  Every decoded record is at
    least [headerSize] bytes long, so [length data] iterations are enough
    ([recover_fuel]). *)
Fixpoint recoverLoop (fuel : nat) (data : bytes) (offset : Z) : outcome WalErr (list Entry) :=
  match fuel with
  | O => Ok []
  | S fuel =>
      if offset <? len data then
        d ← slice_from data offset;
        match decodeRecord d with
        | Ok (entries, n) =>
            rest ← recoverLoop fuel data (offset + n); Ok (entries ++ rest)
        | Err ErrCorruptRecord | Err ErrShortRecord => Ok []
        | Err e => Err e
        | Panic => Panic
        end
      else Ok []
  end.

Definition Recover (data : bytes) : outcome WalErr (list Entry) :=
  recoverLoop (S (length data)) data 0.

(** [RecoverDir] on the directory's log files, given as (id, contents) in the
    ascending id order [FindWALFiles] returns. *)
Fixpoint RecoverDir (files : list (Z * bytes)) : outcome WalErr (list (Z * list Entry)) :=
  match files with
  | [] => Ok []
  | (id, data) :: files =>
      entries ← Recover data;
      rest ← RecoverDir files;
      Ok ((id, entries) :: rest)
  end.

(** ** wal.go: a log is the contents of its file. *)
Definition WriteEntries (file : bytes) (entries : list Entry) : bytes :=
  file ++ encodeRecord entries.
Definition Put (file : bytes) (key : bytes) (value : option bytes) (seq : Z) : bytes :=
  WriteEntries file [mkEntry seq key (NewValue value)].
Definition Delete (file : bytes) (key : bytes) (seq : Z) : bytes :=
  WriteEntries file [mkEntry seq key NewTombstone].
(** [Create] truncates; [Open] appends to what is there. *)
Definition Create : bytes := [].
Definition Open (file : bytes) : bytes := file.

(** ** The codec *)
Ltac wal_unfold :=
  unfold entryHeader, headerSize, flagSize, seqSize, keyLenSize, valueLenSize, countSize,
    checksumSize, lengthSize in *.
Ltac wal_lia := wal_unfold; len_lia.

(** What a decoded entry looks like. *)
Definition norm_entry (e : Entry) : Entry := mkEntry (Seq e) (Key e) (norm_value (EValue e)).

(** The field widths of the record format. *)
Definition entry_ok (e : Entry) : Prop :=
  0 <= Seq e < 2^64 /\ len (Key e) < 2^16 /\
  (Tombstone (EValue e) = false -> len (sl (Data (EValue e))) < 2^32).
Definition record_ok (es : list Entry) : Prop :=
  Forall entry_ok es /\ payloadSize es < 2^32.

Lemma len_encodeEntry e :
  len (encodeEntry e) = entryHeader + len (Key e)
    + (if Tombstone (EValue e) then 0 else len (sl (Data (EValue e)))).
Proof. unfold encodeEntry. destruct (Tombstone (EValue e)); wal_lia. Qed.

Lemma payloadSize_concat es :
  payloadSize es = countSize + len (concat (map encodeEntry es)).
Proof.
  unfold payloadSize. generalize countSize as n. induction es as [|e es IH]; intros n.
  - cbn. rewrite len_nil. lia.
  - cbn [fold_left map concat]. rewrite IH, len_app, len_encodeEntry. lia.
Qed.

Lemma payloadSize_repeat e n :
  payloadSize (repeat e n) = countSize + Z.of_nat n * (entryHeader + len (Key e)
    + (if Tombstone (EValue e) then 0 else len (sl (Data (EValue e))))).
Proof.
  rewrite payloadSize_concat. f_equal. induction n as [|n IH]; [done|].
  cbn [repeat map concat]. rewrite len_app, IH, len_encodeEntry. lia.
Qed.

Lemma len_encodeRecord es :
  len (encodeRecord es) = headerSize + payloadSize es.
Proof. unfold encodeRecord. rewrite payloadSize_concat. wal_lia. Qed.

Section decode_entry.
Context (pre : bytes) (e : Entry) (rest : bytes).
Let v := EValue e.
Let flag := if Tombstone v then flagTombstone else flagPut.
Let vlen := if Tombstone v then 0 else len (sl (Data v)).
Let vdata := if Tombstone v then [] else sl (Data v).
Let data := pre ++ encodeEntry e ++ rest.

Lemma decode_one totalLen n :
  entry_ok e -> len pre + len (encodeEntry e) <= totalLen ->
  decodeEntries data totalLen (len pre) (S n) =
  (es ← decodeEntries data totalLen (len pre + len (encodeEntry e)) n;
   Ok (norm_entry e :: es)).
Proof.
  intros (Hs & Hk & Hv) Hlen. cbn [decodeEntries].
  assert (data = pre ++ flag :: put_le 8 (Seq e) ++ put_le 2 (len (Key e))
            ++ put_le 4 vlen ++ Key e ++ vdata ++ rest) as Ed
    by (unfold data, encodeEntry; fold v flag vlen vdata; app_eq).
  clearbody data. pose proof (len_encodeEntry e) as Hle. fold v in Hle. fold vlen in Hle.
  assert (0 <= vlen < 2^32) as Hvl
    by (unfold vlen, v; destruct (Tombstone _); [lia|]; pose proof (len_nonneg (sl (Data (EValue e)))); auto).
  assert (len vdata = vlen) as Hvd by (unfold vdata, vlen; by destruct (Tombstone v)).
  pose proof (len_nonneg (Key e)).
  rewrite (proj2 (Z.ltb_ge _ _)) by wal_lia.
  erewrite index_eq by (apply Ed || done). cbn [mbind outcome_bind].
  rewrite (slice_from_eq _ (pre ++ [flag])
             (put_le 8 (Seq e) ++ put_le 2 (len (Key e)) ++ put_le 4 vlen ++ Key e ++ vdata ++ rest)
             (len pre + flagSize)) by (first [rewrite Ed; app_eq|wal_lia]).
  cbn [mbind outcome_bind]. rewrite le_Uint64_put. cbn [mbind outcome_bind].
  rewrite (slice_from_eq _ (pre ++ [flag] ++ put_le 8 (Seq e))
             (put_le 2 (len (Key e)) ++ put_le 4 vlen ++ Key e ++ vdata ++ rest)
             (len pre + flagSize + seqSize)) by (first [rewrite Ed; app_eq|wal_lia]).
  cbn [mbind outcome_bind]. rewrite le_Uint16_put. cbn [mbind outcome_bind].
  rewrite (slice_from_eq _ (pre ++ [flag] ++ put_le 8 (Seq e) ++ put_le 2 (len (Key e)))
             (put_le 4 vlen ++ Key e ++ vdata ++ rest)
             (len pre + flagSize + seqSize + keyLenSize)) by (first [rewrite Ed; app_eq|wal_lia]).
  cbn [mbind outcome_bind]. rewrite le_Uint32_put. cbn [mbind outcome_bind].
  rewrite (u64_small (Seq e)), (u16_small (len (Key e))), (u32_small vlen) by lia.
  rewrite (proj2 (Z.ltb_ge _ _)) by wal_lia.
  rewrite (slice_eq _ (pre ++ [flag] ++ put_le 8 (Seq e) ++ put_le 2 (len (Key e)) ++ put_le 4 vlen)
             (Key e) (vdata ++ rest) (len pre + flagSize + seqSize + keyLenSize + valueLenSize)) by (first [rewrite Ed; app_eq|wal_lia]).
  cbn [mbind outcome_bind].
  unfold norm_entry, norm_value. fold v. unfold flag, vlen, vdata in *.
  destruct (Tombstone v) eqn:Et.
  - rewrite decide_False, decide_True by done. cbn [mbind outcome_bind fst snd].
    by replace (len pre + len (encodeEntry e))
      with (len pre + flagSize + seqSize + keyLenSize + valueLenSize + len (Key e)) by wal_lia.
  - rewrite decide_True by done.
    rewrite (proj2 (Z.ltb_ge _ _)) by wal_lia.
    rewrite (slice_eq _ (pre ++ [flagPut] ++ put_le 8 (Seq e) ++ put_le 2 (len (Key e))
               ++ put_le 4 (len (sl (Data v))) ++ Key e) (sl (Data v)) rest)
      by (first [rewrite Ed; app_eq|wal_lia]).
    cbn [mbind outcome_bind fst snd].
    by replace (len pre + len (encodeEntry e))
      with (len pre + flagSize + seqSize + keyLenSize + valueLenSize + len (Key e)
            + len (sl (Data v))) by wal_lia.
Qed.
End decode_entry.

Lemma decode_all es pre rest n :
  Forall entry_ok es -> (n <= length es)%nat ->
  decodeEntries (pre ++ concat (map encodeEntry es) ++ rest)
    (len pre + len (concat (map encodeEntry es))) (len pre) n
  = Ok (take n (map norm_entry es)).
Proof.
  revert pre n; induction es as [|e es IH]; intros pre [|n] Hok Hn; try done.
  { cbn in Hn. lia. }
  apply Forall_cons in Hok as [He Hok]. cbn [map concat]. rewrite <-app_assoc.
  rewrite decode_one; [|done|rewrite len_app; len_lia].
  specialize (IH (pre ++ encodeEntry e) n Hok). rewrite <-app_assoc, !len_app in IH.
  rewrite len_app, Z.add_assoc, IH by (cbn in Hn; lia). done.
Qed.

(** The number of entries a record's 16-bit count field stands for. *)
Definition counted (es : list Entry) : nat := Z.to_nat (u16 (len es)).

Lemma decodeRecord_encode es rest :
  record_ok es ->
  decodeRecord (encodeRecord es ++ rest)
  = Ok (take (counted es) (map norm_entry es), len (encodeRecord es)).
Proof.
  intros [Hok Hp]. pose proof (payloadSize_concat es) as Hpc.
  pose proof (len_nonneg (concat (map encodeEntry es))).
  pose proof (len_encodeRecord es) as Hle.
  unfold encodeRecord. set (body := put_le 4 (payloadSize es) ++ _). unfold decodeRecord.
  assert (len body = 4 + payloadSize es) as Hb by (unfold body; wal_lia).
  assert (len ((put_le 4 (crc32 body) ++ body) ++ rest) = 8 + payloadSize es + len rest) as Hlt
    by (rewrite !len_app, Hb, len_put_le; lia).
  pose proof (len_nonneg rest).
  rewrite (proj2 (Z.ltb_ge _ _)) by wal_lia. rewrite <-app_assoc in *.
  rewrite (slice_eq _ [] (put_le 4 (crc32 body)) (body ++ rest) 0)
    by (first [app_eq|wal_lia]). cbn [mbind outcome_bind].
  rewrite <-(app_nil_r (put_le 4 (crc32 body))) at 1. rewrite le_Uint32_put. cbn [mbind outcome_bind].
  rewrite (slice_eq _ (put_le 4 (crc32 body)) (put_le 4 (payloadSize es))
             (put_le 2 (len es) ++ concat (map encodeEntry es) ++ rest) checksumSize)
    by (first [unfold body; app_eq|wal_lia]). cbn [mbind outcome_bind].
  rewrite <-(app_nil_r (put_le 4 (payloadSize es))), le_Uint32_put. cbn [mbind outcome_bind].
  rewrite (u32_small (payloadSize es)) by wal_lia.
  rewrite (proj2 (Z.ltb_ge _ _)) by wal_lia.
  rewrite (slice_eq _ (put_le 4 (crc32 body)) body rest checksumSize)
    by (first [app_eq|wal_lia]). cbn [mbind outcome_bind].
  rewrite (u32_small (crc32 body)), Z.eqb_refl by apply crc32_range. cbn [negb].
  rewrite (slice_from_eq _ (put_le 4 (crc32 body) ++ put_le 4 (payloadSize es))
             (put_le 2 (len es) ++ concat (map encodeEntry es) ++ rest) headerSize)
    by (first [unfold body; app_eq|wal_lia]). cbn [mbind outcome_bind].
  rewrite le_Uint16_put. cbn [mbind outcome_bind]. fold (counted es).
  pose proof (decode_all es (put_le 4 (crc32 body) ++ put_le 4 (payloadSize es) ++ put_le 2 (len es))
                rest (counted es) Hok) as Hd.
  rewrite !len_app, !len_put_le in Hd. rewrite <-!app_assoc in Hd.
  assert (put_le 4 (crc32 body) ++ body ++ rest = put_le 4 (crc32 body) ++ put_le 4 (payloadSize es)
            ++ put_le 2 (len es) ++ concat (map encodeEntry es) ++ rest) as ->
    by (unfold body at 2; app_eq).
  replace (headerSize + payloadSize es)
    with (Z.of_nat 4 + (Z.of_nat 4 + Z.of_nat 2) + len (concat (map encodeEntry es))) by wal_lia.
  replace (headerSize + countSize) with (Z.of_nat 4 + (Z.of_nat 4 + Z.of_nat 2)) by wal_lia.
  rewrite Hd; [|unfold counted, u16, len; div_lia].
  cbn [mbind outcome_bind]. do 2 f_equal. rewrite len_app, len_put_le, Hb. wal_lia.
Qed.

Lemma counted_all es : len es < 2^16 -> take (counted es) (map norm_entry es) = map norm_entry es.
Proof.
  intros. apply take_ge. rewrite length_map. unfold counted.
  rewrite u16_small by len_lia. unfold len. lia.
Qed.

(** A crash during an append leaves a strict prefix of the record: recovery
    sees a short record, whatever was cut. *)
Lemma decodeRecord_torn es p q :
  record_ok es -> p ++ q = encodeRecord es -> q <> [] -> decodeRecord p = Err ErrShortRecord.
Proof.
  intros [Hok Hp] E Hq. unfold decodeRecord.
  destruct (Z.ltb_spec (len p) headerSize) as [|Hl]; [done|].
  pose proof (f_equal len E) as El. rewrite len_app, len_encodeRecord in El.
  assert (0 < len q) as Hlq by (destruct q; [done|rewrite len_cons; len_lia]).
  unfold encodeRecord in E. set (body := put_le 4 (payloadSize es) ++ _) in E.
  assert (exists p', p = put_le 4 (crc32 body) ++ put_le 4 (payloadSize es) ++ p') as [p' ->].
  { assert (p = take (length p) (encodeRecord es)) as ->
      by (unfold encodeRecord; fold body; rewrite <-E; by rewrite take_app_length).
    unfold encodeRecord. fold body. unfold body at 2.
    rewrite (app_assoc (put_le 4 _) (put_le 4 _)).
    rewrite take_app_ge.
    - rewrite <-app_assoc. eauto.
    - rewrite length_app, !length_put_le. unfold len in Hl. wal_unfold. lia. }
  rewrite (slice_eq _ [] (put_le 4 (crc32 body)) (put_le 4 (payloadSize es) ++ p') 0)
    by (first [app_eq|wal_lia]). cbn [mbind outcome_bind].
  rewrite <-(app_nil_r (put_le 4 (crc32 body))) at 1. rewrite le_Uint32_put. cbn [mbind outcome_bind].
  rewrite (slice_eq _ (put_le 4 (crc32 body)) (put_le 4 (payloadSize es)) p' checksumSize)
    by (first [app_eq|wal_lia]). cbn [mbind outcome_bind].
  rewrite <-(app_nil_r (put_le 4 (payloadSize es))) at 1. rewrite le_Uint32_put. cbn [mbind outcome_bind].
  pose proof (payloadSize_concat es).
  rewrite (u32_small (payloadSize es)) by (wal_unfold; len_nonneg_all; lia).
  rewrite (proj2 (Z.ltb_lt _ _)) by lia. done.
Qed.

Lemma decodeRecord_size data es n : decodeRecord data = Ok (es, n) -> headerSize <= n.
Proof.
  unfold decodeRecord. destruct (_ <? _); [done|].
  destruct (slice data 0 _) as [d| |]; cbn [mbind outcome_bind]; try done.
  destruct (le_Uint32 d) as [sc| |]; cbn [mbind outcome_bind]; try done.
  destruct (slice data checksumSize headerSize) as [d'| |]; cbn [mbind outcome_bind]; try done.
  unfold le_Uint32, get_fixed. case_decide; cbn [mbind outcome_bind]; [|done].
  destruct (_ <? _); [done|].
  destruct (slice data checksumSize _) as [d''| |]; cbn [mbind outcome_bind]; try done.
  destruct (negb _); [done|].
  destruct (slice_from data headerSize) as [e| |]; cbn [mbind outcome_bind]; try done.
  destruct (le_Uint16 e) as [c| |]; cbn [mbind outcome_bind]; try done.
  destruct (decodeEntries _ _ _ _) as [l| |]; cbn [mbind outcome_bind]; try done.
  intros [= _ <-]. pose proof (get_le_range (take 4 d')). lia.
Qed.

(** ** Recovery *)
Lemma recover_fuel f1 f2 data offset :
  0 <= offset -> len data - offset <= Z.of_nat f1 -> len data - offset <= Z.of_nat f2 ->
  recoverLoop f1 data offset = recoverLoop f2 data offset.
Proof.
  revert f2 offset; induction f1 as [|f1 IH]; intros [|f2] offset Ho H1 H2; try done.
  - cbn. by rewrite (proj2 (Z.ltb_ge _ _)) by lia.
  - cbn. by rewrite (proj2 (Z.ltb_ge _ _)) by lia.
  - cbn. destruct (offset <? len data); [|done].
    destruct (slice_from data offset) as [d| |]; cbn; [|done..].
    destruct (decodeRecord d) as [[es n]|e|] eqn:E; [|done..].
    apply decodeRecord_size in E. wal_unfold. rewrite (IH f2); [done|lia..].
Qed.

Lemma recover_step f pre es rest :
  record_ok es ->
  recoverLoop (S f) (pre ++ encodeRecord es ++ rest) (len pre) =
  (r ← recoverLoop f (pre ++ encodeRecord es ++ rest) (len pre + len (encodeRecord es));
   Ok (take (counted es) (map norm_entry es) ++ r)).
Proof.
  intros Hok. pose proof (len_encodeRecord es) as Hl. pose proof (payloadSize_concat es).
  assert (0 < len (encodeRecord es)) by (wal_unfold; len_nonneg_all; lia).
  cbn [recoverLoop]. rewrite (proj2 (Z.ltb_lt _ _)) by len_lia.
  rewrite slice_from_app by done. cbn [mbind outcome_bind].
  by rewrite decodeRecord_encode.
Qed.

Lemma recover_stop f pre tail :
  tail = [] \/ decodeRecord tail = Err ErrShortRecord \/ decodeRecord tail = Err ErrCorruptRecord ->
  recoverLoop f (pre ++ tail) (len pre) = Ok [].
Proof.
  intros Ht. destruct f; [done|]. cbn [recoverLoop].
  destruct (Z.ltb_spec (len pre) (len (pre ++ tail))) as [Hlt|]; [|done].
  rewrite slice_from_app by done. cbn [mbind outcome_bind].
  destruct Ht as [->|[->| ->]]; [|done..]. rewrite app_nil_r in Hlt. lia.
Qed.

Definition log_of (bs : list (list Entry)) : bytes := concat (map encodeRecord bs).
Definition batch_ok (es : list Entry) : Prop := record_ok es /\ len es < 2^16.

Lemma recover_log bs f pre tail :
  Forall batch_ok bs -> (length bs <= f)%nat ->
  tail = [] \/ decodeRecord tail = Err ErrShortRecord \/ decodeRecord tail = Err ErrCorruptRecord ->
  recoverLoop f (pre ++ log_of bs ++ tail) (len pre) = Ok (concat (map (map norm_entry) bs)).
Proof.
  intros Hok Hf Ht. revert f pre Hf. induction Hok as [|es bs [Hes Hn] Hok IH]; intros f pre Hf.
  - by apply recover_stop.
  - destruct f as [|f]; [cbn in Hf; lia|]. unfold log_of. cbn [map concat]. rewrite <-app_assoc.
    rewrite recover_step by done. fold (log_of bs).
    specialize (IH f (pre ++ encodeRecord es)). rewrite <-app_assoc, len_app in IH.
    rewrite IH by (cbn in Hf; lia). cbn [mbind outcome_bind]. by rewrite counted_all.
Qed.

Lemma length_log_of bs : (length bs <= length (log_of bs))%nat.
Proof.
  induction bs as [|es bs IH]; cbn; [lia|]. rewrite length_app. fold (log_of bs).
  pose proof (len_encodeRecord es) as H. pose proof (payloadSize_concat es).
  assert (1 <= len (encodeRecord es)) by (wal_unfold; len_nonneg_all; lia). unfold len in *. lia.
Qed.

Lemma Recover_log bs tail :
  Forall batch_ok bs ->
  tail = [] \/ decodeRecord tail = Err ErrShortRecord \/ decodeRecord tail = Err ErrCorruptRecord ->
  Recover (log_of bs ++ tail) = Ok (concat (map (map norm_entry) bs)).
Proof.
  intros Hok Ht. unfold Recover. apply (recover_log bs _ [] tail); [done| |done].
  rewrite length_app. pose proof (length_log_of bs). lia.
Qed.

(** ** Claims *)

(** The record codec round trips, whatever follows the record in the file: it
    consumes exactly the record and returns its entries (values in decoded form:
    canonical tombstones, non-nil data).  The entry count is a 16-bit field, so a
    record of [n] entries decodes to its first [n mod 65536]. *)
Theorem wal_record_roundtrip es rest :
  record_ok es ->
  decodeRecord (encodeRecord es ++ rest)
    = Ok (take (Z.to_nat (len es mod 2^16)) (map norm_entry es), len (encodeRecord es)) /\
  (len es < 2^16 ->
   decodeRecord (encodeRecord es ++ rest) = Ok (map norm_entry es, len (encodeRecord es))).
Proof.
  intros Hok. rewrite decodeRecord_encode by done. split; [done|].
  intros. by rewrite counted_all.
Qed.

Lemma wal_record_roundtrip_witness :
  let e1 := mkEntry 1 [Byte.x61] (NewValue (Some [Byte.x62])) in
  let e2 := mkEntry 2 [Byte.x61] NewTombstone in
  decodeRecord (encodeRecord [e1; e2] ++ [Byte.xff]) = Ok ([e1; e2], len (encodeRecord [e1; e2])).
Proof.
  apply wal_record_roundtrip; [|vm_compute; done].
  split; [|vm_compute; done]. repeat constructor; vm_compute; congruence.
Defined.

(** C16: Crash atomicity: if a log holds whole records and a crash leaves any strict
    prefix (possibly empty) of one more record, recovery succeeds and returns
    exactly the entries of the whole records; of the interrupted batch nothing
    survives. *)
Theorem wal_crash_atomicity bs es p q :
  Forall batch_ok bs -> record_ok es -> p ++ q = encodeRecord es -> q <> [] ->
  Recover (log_of bs ++ p) = Ok (concat (map (map norm_entry) bs)).
Proof.
  intros Hbs Hes E Hq. apply Recover_log; [done|]. right; left. by eapply decodeRecord_torn.
Qed.

Lemma wal_crash_atomicity_witness :
  let e1 := mkEntry 1 [Byte.x61] (NewValue (Some [Byte.x62])) in
  let e2 := mkEntry 2 [Byte.x63] NewTombstone in
  Recover (log_of [[e1]] ++ take 20 (encodeRecord [e2])) = Ok [e1].
Proof.
  apply (wal_crash_atomicity
           [[mkEntry 1 [Byte.x61] (NewValue (Some [Byte.x62]))]] [mkEntry 2 [Byte.x63] NewTombstone]
           _ (drop 20 (encodeRecord [mkEntry 2 [Byte.x63] NewTombstone]))).
  - repeat constructor; vm_compute; congruence.
  - repeat constructor; vm_compute; congruence.
  - apply take_drop.
  - vm_compute. congruence.
Defined.

(** The 16-bit count loses large batches: a batch of exactly 65536 operations
    is written as one record, and recovery returns none of them, without an
    error. *)
Theorem wal_batch_65536_lost es :
  record_ok es -> len es = 2^16 -> Recover (encodeRecord es) = Ok [].
Proof.
  intros Hok Hn. unfold Recover.
  pose proof (recover_step (length (encodeRecord es)) [] es [] Hok) as H.
  cbn [app] in H. rewrite app_nil_r in H. rewrite len_nil in H. rewrite H.
  assert (counted es = O) as -> by (unfold counted; rewrite Hn; reflexivity).
  pose proof (recover_stop (length (encodeRecord es)) (encodeRecord es) []) as Hs.
  rewrite app_nil_r in Hs. rewrite Z.add_0_l, Hs by auto. done.
Qed.

Lemma wal_batch_65536_lost_witness :
  Recover (encodeRecord (repeat (mkEntry 7 [] NewTombstone) (Z.to_nat (2^16)))) = Ok [].
Proof.
  apply wal_batch_65536_lost.
  - split.
    + apply Forall_forall. intros e He.
      apply list_elem_of_In, repeat_spec in He as ->. repeat split; cbn; (lia || congruence).
    + rewrite payloadSize_repeat, Z2Nat.id by lia.
      cbn [Key EValue Tombstone NewTombstone]. rewrite (@len_nil byte). wal_unfold. lia.
  - unfold len. rewrite repeat_length. lia.
Defined.

(** The log is reopened for appending after a crash without cutting the torn
    record off ([wal.Open] uses O_APPEND), so a record that is written and synced
    afterwards sits behind the torn one: there is a log whose torn tail recovery
    skips, to which a complete record is then appended, and the next recovery
    does not return the appended entry. *)
Theorem wal_append_after_torn_tail_lost :
  exists torn e_torn e_new,
    Recover torn = Ok [] /\ (exists q, torn ++ q = encodeRecord [e_torn]) /\
    Recover (WriteEntries (Open torn) [e_new]) = Ok [].
Proof.
  exists (take 12 (encodeRecord [mkEntry 1 [Byte.x61] (NewValue (Some [Byte.x62]))])),
    (mkEntry 1 [Byte.x61] (NewValue (Some [Byte.x62]))),
    (mkEntry 2 [Byte.x63] (NewValue (Some [Byte.x64]))).
  split; [vm_compute; reflexivity|]. split; [|vm_compute; reflexivity].
  exists (drop 12 (encodeRecord [mkEntry 1 [Byte.x61] (NewValue (Some [Byte.x62]))])).
  apply take_drop.
Qed.

(** Unlike the manifest decoder, [decodeRecord] does not check that the payload
    can hold the entry count: an eight-byte file with a zero length field and the
    matching checksum makes recovery panic instead of stopping at a corrupt
    tail. *)
Theorem wal_decode_panics_on_empty_payload :
  exists data, len data = 8 /\ decodeRecord data = Panic /\ Recover data = Panic.
Proof.
  exists (put_le 4 (crc32 (put_le 4 0)) ++ put_le 4 0).
  split; [reflexivity|]. split; vm_compute; reflexivity.
Qed.
