(* ===== verification/Heap.v ===== *)
(** * Go's container/heap, as src/iterator/merge.go uses it

    [Init], [Push] and [Pop] of the standard library with their [up] and
    [down] loops, over a slice with a [Less] function, and what the merge
    iterator relies on: they permute the elements and keep the smallest
    one at the root. *)

From Stdlib Require Import ZArith Lia.
From stdpp Require Import base list option sorting.
From S2P Require Import Prelude.
Local Open Scope nat_scope.

Section heap.
Context {A : Type} (less : A -> A -> bool).

Definition Swap (l : list A) (i j : nat) : list A :=
  match l !! i, l !! j with
  | Some x, Some y => <[i := y]> (<[j := x]> l)
  | _, _ => l
  end.

Definition Less_at (l : list A) (i j : nat) : bool :=
  match l !! i, l !! j with
  | Some x, Some y => less x y
  | _, _ => false
  end.

Fixpoint up (fuel : nat) (l : list A) (j : nat) : list A :=
  match fuel with
  | O => l
  | S fuel =>
      let i := Nat.div2 (j - 1) in
      if (i =? j) || negb (Less_at l j i) then l else up fuel (Swap l i j) i
  end.

Fixpoint down (fuel : nat) (l : list A) (i n : nat) : list A :=
  match fuel with
  | O => l
  | S fuel =>
      let j1 := 2 * i + 1 in
      if n <=? j1 then l else
      let j2 := j1 + 1 in
      let j := if (j2 <? n) && Less_at l j2 j1 then j2 else j1 in
      if negb (Less_at l j i) then l else down fuel (Swap l i j) j n
  end.

(** [for i := k-1; i >= 0; i-- { down(h, i, n) }] *)
Fixpoint Init_loop (k : nat) (l : list A) : list A :=
  match k with
  | O => l
  | S k => Init_loop k (down (length l) l k (length l))
  end.

Definition Init (l : list A) : list A := Init_loop (Nat.div2 (length l)) l.

Definition Push (l : list A) (x : A) : list A := up (S (length l)) (l ++ [x]) (length l).

(** [Pop] of an empty heap panics. *)
Definition Pop (l : list A) : option (A * list A) :=
  match length l with
  | O => None
  | S n =>
      let l := down (length l) (Swap l 0 n) 0 n in
      x ← l !! n; Some (x, take n l)
  end.

(** ** Correctness, for a strict weak order *)
Definition le (x y : A) : Prop := less y x = false.
Context (less_asym : forall x y, less x y = true -> less y x = false).
Context (le_trans : forall x y z, le x y -> le y z -> le x z).

Lemma le_refl x : le x x.
Proof. unfold le. destruct (less x x) eqn:E; [|done]. rewrite (less_asym _ _ E) in E. done. Qed.
Lemma less_le x y : less x y = true -> le x y.
Proof. apply less_asym. Qed.

Definition parent (c : nat) : nat := Nat.div2 (c - 1).
Definition le_at (l : list A) (i j : nat) : Prop :=
  forall x y, l !! i = Some x -> l !! j = Some y -> le x y.
(** The heap order below index [n], for parents from [k] on. *)
Definition heap_from (k n : nat) (l : list A) : Prop :=
  forall c, 0 < c < n -> k <= parent c -> le_at l (parent c) c.

Lemma parent_lt c : 0 < c -> parent c < c.
Proof. unfold parent. intros. pose proof (Nat.le_div2_diag_l (c - 1)). lia. Qed.
Lemma parent_spec c i : 0 < c -> parent c = i <-> c = 2 * i + 1 \/ c = 2 * i + 2.
Proof.
  unfold parent. intros Hc. pose proof (Nat.div2_odd (c - 1)) as H.
  destruct (Nat.odd (c - 1)); cbn in H; lia.
Qed.

Lemma cons_insert_perm (x y : A) (j : nat) l : l !! j = Some y -> y :: <[j := x]> l ≡ₚ x :: l.
Proof.
  revert j; induction l as [|z l IH]; intros [|j] H; cbn in H; try done.
  - injection H as ->. cbn. apply Permutation_swap.
  - change (<[S j := x]> (z :: l)) with (z :: <[j := x]> l).
    rewrite Permutation_swap, IH by done. apply Permutation_swap.
Qed.

Lemma Swap_perm l i j : Swap l i j ≡ₚ l.
Proof.
  unfold Swap. destruct (l !! i) as [x|] eqn:Ei; [|done]. destruct (l !! j) as [y|] eqn:Ej; [|done].
  revert i j Ei Ej; induction l as [|z l IH]; intros [|i] [|j] Ei Ej; cbn in Ei, Ej; try done.
  - by injection Ei as ->; injection Ej as ->.
  - injection Ei as ->. by apply cons_insert_perm.
  - injection Ej as ->. by apply cons_insert_perm.
  - change (z :: <[i := y]> (<[j := x]> l) ≡ₚ z :: l). by rewrite IH.
Qed.

Lemma Swap_length l i j : length (Swap l i j) = length l.
Proof. apply Permutation_length, Swap_perm. Qed.

Lemma Swap_lookup l i j k :
  i < length l -> j < length l ->
  Swap l i j !! k = if decide (k = i) then l !! j else if decide (k = j) then l !! i else l !! k.
Proof.
  intros Hi Hj. unfold Swap.
  destruct (lookup_lt_is_Some_2 l i Hi) as [x Ex]. destruct (lookup_lt_is_Some_2 l j Hj) as [y Ey].
  rewrite Ex, Ey. destruct (decide (k = i)) as [->|Hki].
  - rewrite list_lookup_insert_eq by (by rewrite length_insert). done.
  - rewrite list_lookup_insert_ne by done. destruct (decide (k = j)) as [->|Hkj].
    + by rewrite list_lookup_insert_eq.
    + by rewrite list_lookup_insert_ne.
Qed.

(** [Less_at] decides the order of in-range indices. *)
Lemma Less_at_true l i j : Less_at l i j = true -> le_at l i j.
Proof.
  unfold Less_at. intros H x y Hx Hy. rewrite Hx, Hy in H. by apply less_le.
Qed.
Lemma Less_at_false l i j : Less_at l i j = false -> le_at l j i.
Proof. unfold Less_at. intros H x y Hx Hy. by rewrite Hx, Hy in H. Qed.

Lemma le_at_trans l i j k : j < length l -> le_at l i j -> le_at l j k -> le_at l i k.
Proof.
  intros Hj H1 H2 x z Hx Hz. destruct (lookup_lt_is_Some_2 l j Hj) as [y Hy].
  eapply le_trans; [by apply H1|by apply H2].
Qed.

(** Swapping renames the indices of the order facts. *)
Definition sw (i j k : nat) : nat := if decide (k = i) then j else if decide (k = j) then i else k.
Lemma le_at_Swap l i j a b :
  i < length l -> j < length l -> le_at (Swap l i j) a b <-> le_at l (sw i j a) (sw i j b).
Proof.
  intros Hi Hj. unfold le_at. rewrite !Swap_lookup by done. unfold sw. by repeat case_decide.
Qed.

(** *** [down] *)
Definition down_inv (k n i : nat) (l : list A) : Prop :=
  (forall c, 0 < c < n -> k <= parent c -> parent c <> i -> le_at l (parent c) c) /\
  (forall c, 0 < c < n -> parent c = i -> 0 < i -> k <= parent i -> le_at l (parent i) c).

Lemma down_spec fuel l i n k :
  n <= length l -> k <= i < n -> n <= fuel + i -> down_inv k n i l -> heap_from k n (down fuel l i n).
Proof.
  revert l i; induction fuel as [|fuel IH]; intros l i Hn Hi Hf [H1 H2]; [lia|]. cbn [down].
  destruct (Nat.leb_spec n (2 * i + 1)) as [Hj1|Hj1].
  { intros c Hc Hk. apply H1; [done..|]. rewrite parent_spec by lia. lia. }
  set (j1 := 2 * i + 1) in *.
  set (j := if (j1 + 1 <? n) && Less_at l (j1 + 1) j1 then j1 + 1 else j1).
  assert (parent j = i /\ 0 < j < n /\ i < j) as (Hpj & Hj & Hij).
  { unfold j. destruct (Nat.ltb_spec (j1 + 1) n); cbn [andb]; [destruct (Less_at _ _ _)|];
      rewrite parent_spec; lia. }
  assert (forall c, 0 < c < n -> parent c = i -> le_at l j c) as Hmin.
  { intros c Hc Hp. apply parent_spec in Hp; [|lia]. unfold j.
    destruct (Nat.ltb_spec (j1 + 1) n) as [Hlt|Hlt]; cbn [andb].
    - destruct (Less_at l (j1 + 1) j1) eqn:E.
      + destruct Hp as [->| ->]; [by apply Less_at_true|].
        replace (2 * i + 2) with (j1 + 1) by (unfold j1; lia). intros ? ? E1 E2.
        rewrite E1 in E2. injection E2 as ->. apply le_refl.
      + destruct Hp as [->| ->]; [|replace (2 * i + 2) with (j1 + 1) by (unfold j1; lia); by apply Less_at_false].
        intros ? ? E1 E2. unfold j1 in E1. rewrite E1 in E2. injection E2 as ->. apply le_refl.
    - destruct Hp as [->| ->]; [|lia]. intros ? ? E1 E2. unfold j1 in E1. rewrite E1 in E2.
      injection E2 as ->. apply le_refl. }
  destruct (Less_at l j i) eqn:Eless; cbn [negb].
  - apply IH; [by rewrite Swap_length|lia|lia|]. split.
    + intros c Hc Hk Hp. apply le_at_Swap; [lia..|]. unfold sw.
      destruct (decide (parent c = i)) as [Hpi|Hpi].
      * rewrite (decide_False (P := c = i)) by (pose proof (parent_lt c); lia).
        case_decide; [by apply Less_at_true|]. by apply Hmin.
      * rewrite (decide_False (P := parent c = j)) by done.
        destruct (decide (c = i)) as [->|]; [apply H2; (done || lia)|].
        destruct (decide (c = j)) as [->|]; [lia|]. by apply H1.
    + intros c Hc Hp _ Hk. rewrite Hpj in *. apply le_at_Swap; [lia..|]. unfold sw.
      rewrite decide_True by done. pose proof (parent_lt c).
      rewrite !decide_False by lia. rewrite <-Hp. apply H1; lia.
  - intros c Hc Hk. destruct (decide (parent c = i)) as [Hpi|Hpi]; [|by apply H1].
    rewrite Hpi. apply (le_at_trans _ _ j); [lia|by apply Less_at_false|by apply Hmin].
Qed.

Lemma down_perm fuel l i n : down fuel l i n ≡ₚ l.
Proof.
  revert l i; induction fuel as [|fuel IH]; intros l i; cbn [down]; [done|].
  destruct (_ <=? _); [done|]. destruct (negb _); [done|]. by rewrite IH, Swap_perm.
Qed.

(** [down] does not touch indices from [n] on. *)
Lemma down_lookup fuel l i n m :
  n <= length l -> i < n -> n <= m -> down fuel l i n !! m = l !! m.
Proof.
  revert l i; induction fuel as [|fuel IH]; intros l i Hn Hi Hm; cbn [down]; [done|].
  destruct (Nat.leb_spec n (2 * i + 1)); [done|]. 
  set (j := if _ && _ then _ else _).
  assert (j < n) by (unfold j; destruct (Nat.ltb_spec (2 * i + 1 + 1) n); cbn; [destruct (Less_at _ _ _)|]; lia).
  destruct (negb _); [done|]. rewrite IH by (rewrite ?Swap_length; lia).
  rewrite Swap_lookup, !decide_False by lia. done.
Qed.

Lemma Init_loop_spec k l : heap_from k (length l) l -> k <= length l -> heap_from 0 (length l) (Init_loop k l).
Proof.
  revert l; induction k as [|k IH]; intros l H Hk; cbn [Init_loop]; [done|].
  set (l' := down (length l) l k (length l)).
  assert (length l' = length l) as Hl' by apply Permutation_length, down_perm.
  rewrite <-Hl'. apply IH; rewrite Hl'; [|lia]. unfold l'.
  apply down_spec; [lia..|]. split.
  - intros c Hc Hp Hne. apply H; lia.
  - intros c Hc Hp Hi Hkp. pose proof (parent_lt k). lia.
Qed.

Lemma Init_perm l : Init l ≡ₚ l.
Proof.
  unfold Init. generalize (Nat.div2 (length l)) as k. intros k. revert l.
  induction k as [|k IH]; intros l; cbn [Init_loop]; [done|]. by rewrite IH, down_perm.
Qed.

Lemma Init_heap l : heap_from 0 (length (Init l)) (Init l).
Proof.
  rewrite (Permutation_length (Init_perm l)). apply Init_loop_spec.
  - intros c Hc Hp. exfalso. unfold parent in Hp.
    pose proof (Nat.div2_odd (c - 1)). pose proof (Nat.div2_odd (length l)).
    destruct (Nat.odd (c - 1)), (Nat.odd (length l)); cbn in *; lia.
  - pose proof (Nat.le_div2_diag_l (length l)). lia.
Qed.

(** *** [up] *)
Definition up_inv (n j : nat) (l : list A) : Prop :=
  (forall c, 0 < c < n -> c <> j -> le_at l (parent c) c) /\
  (forall c, 0 < c < n -> parent c = j -> 0 < j -> le_at l (parent j) c).

Lemma up_spec fuel l j :
  j < length l -> j < fuel -> up_inv (length l) j l -> heap_from 0 (length l) (up fuel l j).
Proof.
  revert l j; induction fuel as [|fuel IH]; intros l j Hj Hf [H1 H2]; [lia|]. cbn [up].
  fold (parent j). destruct (Nat.eqb_spec (parent j) j) as [E|E]; cbn [orb].
  { assert (j = 0) by (destruct j; [done|]; pose proof (parent_lt (S j)); lia).
    intros c Hc _. apply H1; lia. }
  assert (0 < j) as Hj0 by (destruct j; [done|lia]). pose proof (parent_lt j Hj0) as Hpl.
  destruct (Less_at l j (parent j)) eqn:Eless; cbn [negb].
  - rewrite <-(Swap_length l (parent j) j). apply IH; [rewrite Swap_length; lia|lia|].
    rewrite Swap_length. split.
    + intros c Hc Hne. apply le_at_Swap; [lia..|]. unfold sw.
      rewrite (decide_False (P := c = parent j)) by done.
      destruct (decide (c = j)) as [->|Hcj].
      * rewrite decide_True by done. by apply Less_at_true.
      * destruct (decide (parent c = parent j)) as [Hp|Hp].
        -- apply (le_at_trans _ _ (parent j)); [lia|by apply Less_at_true|].
           rewrite <-Hp. by apply H1.
        -- destruct (decide (parent c = j)) as [Hpj|Hpj]; [by apply H2|by apply H1].
    + intros c Hc Hp Hi. apply le_at_Swap; [lia..|]. unfold sw.
      pose proof (parent_lt (parent j) Hi). pose proof (parent_lt c).
      rewrite !(decide_False (P := parent (parent j) = _)) by lia.
      rewrite (decide_False (P := c = parent j)) by lia.
      destruct (decide (c = j)) as [->|Hcj]; [apply H1; lia|].
      apply (le_at_trans _ _ (parent j)); [lia|apply H1; lia|].
      rewrite <-Hp. by apply H1.
  - intros c Hc _. destruct (decide (c = j)) as [->|Hcj]; [by apply Less_at_false|by apply H1].
Qed.

Lemma up_perm fuel l j : up fuel l j ≡ₚ l.
Proof.
  revert l j; induction fuel as [|fuel IH]; intros l j; cbn [up]; [done|].
  case_match; [done|]. by rewrite IH, Swap_perm.
Qed.

Lemma Push_perm l x : Push l x ≡ₚ x :: l.
Proof. unfold Push. rewrite up_perm. by rewrite Permutation_app_comm. Qed.

Lemma Push_heap l x : heap_from 0 (length l) l -> heap_from 0 (length (Push l x)) (Push l x).
Proof.
  intros H. rewrite (Permutation_length (Push_perm l x)). cbn [length]. unfold Push.
  assert (length (l ++ [x]) = S (length l)) as E by (rewrite length_app; cbn; lia).
  rewrite <-E. apply up_spec; [lia|lia|]. rewrite E. split.
  - intros c Hc Hne x' y' Hx Hy. pose proof (parent_lt c).
    rewrite lookup_app_l in Hx, Hy by lia. eapply (H c); [lia|lia|done..].
  - intros c Hc Hp H0. pose proof (parent_lt c). lia.
Qed.

(** *** The root is minimal, [Pop] removes it *)
Lemma heap_root n l : n <= length l -> heap_from 0 n l -> forall c, c < n -> le_at l 0 c.
Proof.
  intros Hn H c. induction (lt_wf c) as [c _ IH]. intros Hc. destruct (decide (c = 0)) as [->|Hc0].
  - intros x y E1 E2. rewrite E1 in E2. injection E2 as ->. apply le_refl.
  - pose proof (parent_lt c). apply (le_at_trans _ _ (parent c)); [lia|apply IH; lia|].
    apply H; lia.
Qed.

Lemma Pop_spec x0 l0 :
  heap_from 0 (length (x0 :: l0)) (x0 :: l0) ->
  exists x l', Pop (x0 :: l0) = Some (x, l') /\ x :: l' ≡ₚ x0 :: l0 /\
    heap_from 0 (length l') l' /\ Forall (le x) l'.
Proof.
  intros H. set (l := x0 :: l0) in *. pose proof (heap_root (length l) l ltac:(lia) H) as Hroot.
  unfold Pop. destruct (length l) as [|n] eqn:En; [done|].
  set (l1 := down (S n) (Swap l 0 n) 0 n).
  assert (length l1 = S n) as Hl1
    by (unfold l1; rewrite (Permutation_length (down_perm _ _ _ _)), Swap_length; done).
  assert (l1 !! n = Some x0) as Hn.
  { unfold l1. destruct (decide (n = 0)) as [->|Hn0].
    - destruct l0; [done|discriminate].
    - rewrite down_lookup by (rewrite ?Swap_length; lia). rewrite Swap_lookup by lia.
      rewrite decide_False, decide_True by done. done. }
  rewrite Hn. cbn. exists x0, (take n l1). split; [done|].
  assert (l1 = take n l1 ++ [x0]) as El1.
  { rewrite <-(take_drop n l1) at 1. f_equal. rewrite (drop_S l1 x0 n Hn), drop_ge; [done|lia]. }
  assert (x0 :: take n l1 ≡ₚ l) as Hperm.
  { rewrite Permutation_cons_append, <-El1. unfold l1. by rewrite down_perm, Swap_perm. }
  split; [done|]. split.
  - rewrite length_take, Hl1, Nat.min_l by lia. destruct (decide (n = 0)) as [->|Hn0].
    { intros c Hc. lia. }
    assert (heap_from 0 n l1) as Hh.
    { apply down_spec; rewrite ?Swap_length; [lia..|]. split; [|lia].
      intros c Hc _ Hp. apply le_at_Swap; [lia..|]. unfold sw.
      rewrite !decide_False by (try lia; pose proof (parent_lt c); lia). apply H; lia. }
    intros c Hc Hp x y Hx Hy. pose proof (parent_lt c). apply (Hh c Hc Hp).
    + by rewrite lookup_take_lt in Hx by lia.
    + by rewrite lookup_take_lt in Hy by lia.
  - assert (Forall (le x0) l) as Hf.
    { apply Forall_forall. intros y Hy. apply list_elem_of_lookup in Hy as [c Hc].
      apply (Hroot c); [|done|done]. rewrite <-En. by apply lookup_lt_Some in Hc. }
    rewrite <-Hperm in Hf. by apply Forall_cons in Hf as [_ ?].
Qed.
End heap.
