(* ===== verification/Iter.v ===== *)
(** * The iterator interface (src/iterator/iterator.go)

    [Iterator] is the Go interface as a type class of operations; every
    readable component gives an instance.  [None] from an operation is a
    run-time panic (reading the key of an exhausted iterator).  [yields it
    l] is the contract the clients rely on: driving [it] with the
    documented loop [for it.IsValid() { it.Key(); it.Value(); it.Next() }]
    produces exactly the pairs [l] and ends without an error. *)

From Stdlib Require Import ZArith Lia.
From stdpp Require Import base list option sorting.
From S2P Require Import Prelude GoBytes KV Entries.

(** What iteration shows of an entry: the internal key, and the value's bytes,
    nil for a tombstone. *)
Abbreviation kvp := (bytes * option bytes)%type.

Class Iterator (E I : Type) := {
  it_Key : I -> option bytes;
  it_Value : I -> option (option bytes);
  it_Next : I -> option I;
  it_IsValid : I -> bool;
  it_Err : I -> option E;
  it_Close : I -> I * option E
}.

Section yields.
Context {E I : Type} `{!Iterator E I}.

Fixpoint yields (it : I) (l : list kvp) : Prop :=
  match l with
  | [] => it_IsValid it = false /\ it_Err it = None
  | (k, v) :: l =>
      it_IsValid it = true /\ it_Err it = None /\ it_Key it = Some k /\ it_Value it = Some v /\
      exists it', it_Next it = Some it' /\ yields it' l
  end.

(** The documented loop, with fuel for its iterations; [None] is a panic or
    running out of fuel. *)
Fixpoint drain (fuel : nat) (it : I) : option (list kvp * option E) :=
  if it_IsValid it then
    match fuel with
    | O => None
    | S fuel =>
        k ← it_Key it; v ← it_Value it; it' ← it_Next it;
        r ← drain fuel it'; Some ((k, v) :: r.1, r.2)
    end
  else Some ([], it_Err it).

Lemma yields_drain it l fuel :
  yields it l -> (length l <= fuel)%nat -> drain fuel it = Some (l, None).
Proof.
  revert it fuel; induction l as [|[k v] l IH]; intros it fuel.
  - intros [H1 H2] _. destruct fuel; cbn; by rewrite H1, H2.
  - intros (H1 & H2 & H3 & H4 & it' & H5 & H6) Hf. destruct fuel as [|fuel]; cbn in Hf; [lia|].
    cbn [drain]. rewrite H1, H3, H4, H5. cbn. rewrite (IH it' fuel) by (done || lia). done.
Qed.

Lemma yields_err it l : yields it l -> it_Err it = None.
Proof. destruct l as [|[k v] l]; cbn; tauto. Qed.

Lemma yields_valid it l : yields it l -> it_IsValid it = bool_decide (l <> []).
Proof.
  destruct l as [|[k v] l]; intros (H & _); rewrite H; symmetry.
  - apply bool_decide_eq_false_2. by intros [].
  - by apply bool_decide_eq_true_2.
Qed.

Lemma yields_inj it l1 l2 : yields it l1 -> yields it l2 -> l1 = l2.
Proof.
  revert it l2; induction l1 as [|[k v] l1 IH]; intros it [|[k2 v2] l2]; cbn; [done|..].
  - intros [H1 _] [H2 _]. congruence.
  - intros [H1 _] [H2 _]. congruence.
  - intros (_ & _ & H3 & H4 & it1 & H5 & H6) (_ & _ & H3' & H4' & it2 & H5' & H6').
    assert (it1 = it2) as -> by congruence. rewrite (IH _ _ H6 H6'). congruence.
Qed.
End yields.

(** The pair an iterator shows for an entry. *)
Definition kvp_of (e : entry) : kvp := (e.1, iter_value e.2).

Definition kvp_lt (a b : kvp) : Prop := blt a.1 b.1.
Definition kvp_sorted (l : list kvp) : Prop := StronglySorted kvp_lt l.

Lemma kvp_sorted_map es : ksorted es -> kvp_sorted (map kvp_of es).
Proof.
  induction 1 as [|e es Hs IH Hx]; cbn; constructor; [done|].
  apply Forall_map. by apply (Forall_impl _ _ _ Hx).
Qed.
