(* ===== verification/SkipList.v ===== *)
(** * The skip list (src/memtable/skiplist.go, src/memtable/iterator.go)

    The pointer structure as the code builds it: an arena of nodes, each
    with a key, a value and one forward pointer per level ([None] is nil),
    the head at index 0 with [maxHeight] pointers.  [None] as the result of
    an operation is a run-time panic (a level a node does not have).
    [sl_inv s es] says that the structure represents the entry list [es]:
    at every level the pointers thread exactly the nodes tall enough for
    it, in key order.  Under it no operation panics, the searches are the
    list searches of [Entries], and [Put] inserts at the right place,
    whatever heights the random source draws. *)

From Stdlib Require Import ZArith Lia Sorted.
From stdpp Require Import base list option sorting sets.
From S2P Require Import Prelude GoBytes KV Entries Iter.

Definition maxHeight : nat := 12.

Record node := mkNode { nkey : bytes; nval : Value; next : list (option nat) }.

(** [coin n] is the outcome of the [n]-th draw [s.rng.Float64() < probability]. *)
Record SkipList := mkSL {
  nodes : list node;
  height : nat;
  size : Z;
  dataSize : Z;
  coin : nat -> bool;
  drawn : nat
}.

Definition head : nat := 0.

Definition NewSkipList (rng : nat -> bool) : SkipList :=
  mkSL [mkNode [] (mkValue None false) (repeat None maxHeight)] 1 0 0 rng 0.

(** The loop of [randomHeight], at most [maxHeight - 1] draws. *)
Fixpoint randomHeight_loop (fuel h : nat) (rng : nat -> bool) (pos : nat) : nat * nat :=
  match fuel with
  | O => (h, pos)
  | S fuel =>
      if (h <? maxHeight)%nat then
        if rng pos then randomHeight_loop fuel (S h) rng (S pos) else (h, S pos)
      else (h, pos)
  end.

Definition randomHeight (s : SkipList) : nat * nat :=
  randomHeight_loop maxHeight 1 (coin s) (drawn s).

(** [x.next[i]]; the outer [None] is an index out of range. *)
Definition nextp (ns : list node) (x i : nat) : option (option nat) :=
  n ← ns !! x; next n !! i.

(** The inner loop of [findGreaterOrEqual] at level [i]. *)
Fixpoint advance (fuel : nat) (ns : list node) (i : nat) (target : bytes) (x : nat) : option nat :=
  match fuel with
  | O => None
  | S fuel =>
      p ← nextp ns x i;
      match p with
      | Some y =>
          n ← ns !! y;
          if bltb (nkey n) target then advance fuel ns i target y else Some x
      | None => Some x
      end
  end.

(** The outer loop: levels [lvl-1] down to 0.  Returns the final node and the
    predecessors recorded for those levels, lowest level first. *)
Fixpoint descend (ns : list node) (target : bytes) (lvl x : nat) : option (nat * list nat) :=
  match lvl with
  | O => Some (x, [])
  | S i =>
      y ← advance (S (length ns)) ns i target x;
      r ← descend ns target i y;
      Some (r.1, r.2 ++ [y])
  end.

Definition findGreaterOrEqual (s : SkipList) (target : bytes) : option (option nat * list nat) :=
  r ← descend (nodes s) target (height s) head;
  p ← nextp (nodes s) r.1 0;
  Some (p, r.2).

(** [ns[x].next[i] = p] *)
Definition set_next (ns : list node) (x i : nat) (p : option nat) : option (list node) :=
  n ← ns !! x;
  if decide (i < length (next n))%nat
  then Some (<[x := mkNode (nkey n) (nval n) (<[i := p]> (next n))]> ns)
  else None.

(** The splice loop of [Put], levels [i .. i+h-1]. *)
Fixpoint splice (ns : list node) (prev : list nat) (idx i h : nat) : option (list node) :=
  match h with
  | O => Some ns
  | S h =>
      p ← prev !! i;
      q ← nextp ns p i;
      ns ← set_next ns idx i q;
      ns ← set_next ns p i (Some idx);
      splice ns prev idx (S i) h
  end.

Definition Put (s : SkipList) (internalKey : bytes) (value : Value) : option SkipList :=
  r ← findGreaterOrEqual s internalKey;
  let '(h, pos) := randomHeight s in
  let prev := r.2 ++ repeat head (h - height s) in
  let idx := length (nodes s) in
  ns ← splice (nodes s ++ [mkNode internalKey value (repeat None h)]) prev idx 0 h;
  Some (mkSL ns (if (height s <? h)%nat then h else height s) (size s + 1)
          (dataSize s + len internalKey + EncodedSize value) (coin s) pos).

Definition Get (s : SkipList) (userKey : bytes) : option (option Value) :=
  r ← findGreaterOrEqual s (MakeSearchKey userKey);
  match r.1 with
  | None => Some None
  | Some x =>
      n ← nodes s !! x;
      Some (if bytes_Equal (UserKey (nkey n)) userKey then Some (nval n) else None)
  end.

Definition GetNewest (s : SkipList) (userKey : bytes) : option (option (Value * Z)) :=
  r ← findGreaterOrEqual s (MakeSearchKey userKey);
  match r.1 with
  | None => Some None
  | Some x =>
      n ← nodes s !! x;
      Some (if bytes_Equal (UserKey (nkey n)) userKey
            then Some (nval n, SeqNum (nkey n)) else None)
  end.

(** The version walk of [GetAt] along level 0. *)
Fixpoint walk_nodes (fuel : nat) (ns : list node) (u : bytes) (maxSeq : Z) (p : option nat)
  : option (option Value) :=
  match fuel, p with
  | _, None => Some None
  | O, _ => None
  | S fuel, Some x =>
      n ← ns !! x;
      if bytes_Equal (UserKey (nkey n)) u then
        if SeqNum (nkey n) <=? maxSeq then Some (Some (nval n))
        else q ← nextp ns x 0; walk_nodes fuel ns u maxSeq q
      else Some None
  end.

Definition GetAt (s : SkipList) (userKey : bytes) (maxSeq : Z) : option (option Value) :=
  r ← findGreaterOrEqual s (MakeSearchKey userKey);
  walk_nodes (length (nodes s)) (nodes s) userKey maxSeq r.1.

Definition Len (s : SkipList) : Z := size s.
Definition ApproximateSize (s : SkipList) : Z := dataSize s.

(** ** The iterator *)
Record SkipListIterator := mkSLI { current : option nat; endKey : option bytes }.

Definition checkBound (ns : list node) (it : SkipListIterator) : SkipListIterator :=
  match current it, endKey it with
  | Some x, Some e =>
      match ns !! x with
      | Some n => if bltb (nkey n) e then it else mkSLI None (endKey it)
      | None => it
      end
  | _, _ => it
  end.

Definition newSkipListIterator (ns : list node) (start : option nat) (endKey : option bytes) :=
  checkBound ns (mkSLI start endKey).

Definition sli_Next (ns : list node) (it : SkipListIterator) : option SkipListIterator :=
  match current it with
  | None => Some it
  | Some x => p ← nextp ns x 0; Some (checkBound ns (mkSLI p (endKey it)))
  end.

Definition sli_IsValid (it : SkipListIterator) : bool := bool_decide (current it <> None).

(** [Key] and [Value]; [None] is the nil dereference of an exhausted iterator. *)
Definition sli_Key (ns : list node) (it : SkipListIterator) : option bytes :=
  x ← current it; n ← ns !! x; Some (nkey n).
Definition sli_Value (ns : list node) (it : SkipListIterator) : option (option bytes) :=
  x ← current it; n ← ns !! x; Some (iter_value (nval n)).
Definition sli_IsTombstone (ns : list node) (it : SkipListIterator) : option bool :=
  match current it with
  | None => Some false
  | Some x => n ← ns !! x; Some (Tombstone (nval n))
  end.
Definition sli_Close (it : SkipListIterator) : SkipListIterator := mkSLI None (endKey it).

Definition Scan (s : SkipList) : option SkipListIterator :=
  p ← nextp (nodes s) head 0; Some (newSkipListIterator (nodes s) p None).

Definition ScanRange (s : SkipList) (start end_ : option bytes) : option SkipListIterator :=
  startNode ← match start with
              | None => nextp (nodes s) head 0
              | Some st => r ← findGreaterOrEqual s (MakeSearchKey st); Some r.1
              end;
  Some (newSkipListIterator (nodes s) startNode (MakeSearchKey <$> end_)).

(** ** Representation *)
Definition hgt (ns : list node) (x : nat) : nat :=
  match ns !! x with Some n => length (next n) | None => 0 end.
Definition keyOf (ns : list node) (x : nat) : bytes :=
  match ns !! x with Some n => nkey n | None => [] end.
Definition entryOf (ns : list node) (x : nat) : entry :=
  match ns !! x with Some n => (nkey n, nval n) | None => ([], NewTombstone) end.

(** The first and the last node of a list tall enough for level [i]. *)
Fixpoint succ_at (ns : list node) (i : nat) (l : list nat) : option nat :=
  match l with
  | [] => None
  | y :: l => if decide (i < hgt ns y)%nat then Some y else succ_at ns i l
  end.
Fixpoint last_at (ns : list node) (i : nat) (l : list nat) (d : nat) : nat :=
  match l with
  | [] => d
  | y :: l => last_at ns i l (if decide (i < hgt ns y)%nat then y else d)
  end.

Record linked (ns : list node) (order : list nat) : Prop := {
  lk_head : hgt ns head = maxHeight;
  lk_nodup : NoDup (head :: order);
  lk_nodes : forall x, x ∈ order -> (x < length ns /\ 1 <= hgt ns x)%nat;
  lk_next : forall pre x suf i, head :: order = pre ++ x :: suf -> (i < hgt ns x)%nat ->
              nextp ns x i = Some (succ_at ns i suf);
  lk_sorted : StronglySorted (fun x y => ble (keyOf ns x) (keyOf ns y)) order
}.

Definition total_size (es : list entry) : Z :=
  fold_right (fun e n => len e.1 + EncodedSize e.2 + n) 0 es.

Record sl_rep (s : SkipList) (order : list nat) (es : list entry) : Prop := {
  rep_linked : linked (nodes s) order;
  rep_height : (1 <= height s <= maxHeight)%nat;
  rep_tall : forall x, x ∈ order -> (hgt (nodes s) x <= height s)%nat;
  rep_entries : es = map (entryOf (nodes s)) order;
  rep_count : length (nodes s) = S (length order);
  rep_size : size s = len es;
  rep_data : dataSize s = total_size es
}.

Definition sl_inv (s : SkipList) (es : list entry) : Prop := exists order, sl_rep s order es.

Lemma last_at_app ns i l1 l2 d : last_at ns i (l1 ++ l2) d = last_at ns i l2 (last_at ns i l1 d).
Proof. revert d; induction l1; intros; cbn; auto. Qed.

Lemma succ_at_app ns i l1 l2 :
  succ_at ns i (l1 ++ l2) = match succ_at ns i l1 with Some y => Some y | None => succ_at ns i l2 end.
Proof. induction l1 as [|y l1 IH]; cbn; [done|]. by case_decide. Qed.

(** Either nothing in [l] reaches level [i], or the first node that does splits it. *)
Lemma succ_at_cases ns i l :
  (succ_at ns i l = None /\ forall d, last_at ns i l d = d) \/
  (exists a y b, l = a ++ y :: b /\ succ_at ns i l = Some y /\ (i < hgt ns y)%nat /\
     forall d, last_at ns i l d = last_at ns i b y).
Proof.
  induction l as [|y l IH]; cbn; [by left|]. case_decide as H.
  - right. by exists [], y, l.
  - destruct IH as [[-> Hl]|(a & z & b & -> & -> & Hz & Hl)]; [by left|].
    right. by exists (y :: a), z, b.
Qed.

Lemma last_at_split ns i suf x :
  (i < hgt ns x)%nat ->
  exists a b, x :: suf = a ++ last_at ns i suf x :: b /\ (i < hgt ns (last_at ns i suf x))%nat /\
    succ_at ns i b = None.
Proof.
  revert x; induction suf as [|y suf IH]; intros x Hx; cbn.
  - exists [], []. done.
  - case_decide as Hy.
    + destruct (IH y Hy) as (a & b & E & H1 & H2). exists (x :: a), b.
      split; [by cbn; f_equal|done].
    + destruct (IH x Hx) as (a & b & E & H1 & H2). destruct a as [|x' a].
      * injection E as E1 E2. subst b. exists [], (y :: suf). rewrite <-E1.
        split; [done|]. split; [done|]. cbn. by rewrite decide_False.
      * injection E as <- E. exists (x :: y :: a), b. split; [by cbn; do 2 f_equal|done].
Qed.

Lemma last_at_from ns j suf x a y b :
  x :: suf = a ++ y :: b -> (j < hgt ns y)%nat -> last_at ns j suf x = last_at ns j b y.
Proof.
  intros E Hy. destruct a as [|x' a]; injection E as -> ->; [done|].
  rewrite last_at_app. cbn. by rewrite decide_True.
Qed.

Section search.
Context (ns : list node) (order : list nat) (Hl : linked ns order).
Context (target : bytes) (lt ge : list nat).
Context (Horder : order = lt ++ ge).
Context (Hlt : forall x, x ∈ lt -> blt (keyOf ns x) target).
Context (Hge : forall x, x ∈ ge -> ~ blt (keyOf ns x) target).

Lemma lookup_in_order x : x ∈ order -> exists n, ns !! x = Some n /\ nkey n = keyOf ns x.
Proof.
  intros Hx. destruct (lk_nodes _ _ Hl x Hx) as [Hlen _].
  destruct (lookup_lt_is_Some_2 ns x Hlen) as [n Hn]. exists n. split; [done|].
  unfold keyOf. by rewrite Hn.
Qed.

Lemma advance_spec fuel pre x suf i :
  head :: order = pre ++ x :: suf ++ ge -> suf ⊆ lt -> (i < hgt ns x)%nat ->
  (length suf < fuel)%nat ->
  advance fuel ns i target x = Some (last_at ns i suf x).
Proof.
  revert pre x suf; induction fuel as [|fuel IH]; intros pre x suf E Hsub Hi Hf; [lia|].
  cbn [advance]. rewrite (lk_next _ _ Hl pre x (suf ++ ge)) by done.
  cbn. rewrite succ_at_app.
  destruct (succ_at_cases ns i suf) as [[-> Hlast]|(a & y & b & -> & -> & Hy & Hlast)].
  - rewrite Hlast. destruct (succ_at_cases ns i ge) as [[-> _]|(a & z & b & Ege & -> & _)]; [done|].
    assert (z ∈ ge) as Hz by (rewrite Ege; apply elem_of_app; right; by left).
    destruct (lookup_in_order z) as (n & -> & Hn); [rewrite Horder, elem_of_app; auto|]. cbn.
    rewrite Hn. destruct (bltb_spec (keyOf ns z) target) as [H|]; [|done].
    by destruct (Hge z Hz).
  - assert (y ∈ lt) as Hylt by (apply Hsub; set_solver).
    destruct (lookup_in_order y) as (n & -> & Hn); [rewrite Horder, elem_of_app; auto|]. cbn.
    rewrite Hn. destruct (bltb_spec (keyOf ns y) target) as [_|H]; [|by destruct H; apply Hlt].
    rewrite Hlast. apply (IH (pre ++ x :: a)).
    + rewrite E, <-!app_assoc. done.
    + set_solver.
    + done.
    + rewrite length_app in Hf. cbn in Hf. lia.
Qed.

Lemma descend_spec lvl pre x suf :
  head :: lt = pre ++ x :: suf -> (lvl <= hgt ns x)%nat ->
  descend ns target lvl x =
    Some (match lvl with O => x | S _ => last_at ns 0 suf x end,
          map (fun i => last_at ns i suf x) (seq 0 lvl)).
Proof.
  revert pre x suf; induction lvl as [|i IH]; intros pre x suf E Hh; [done|].
  cbn [descend].
  assert (length (head :: order) <= S (length ns))%nat as Hlen.
  { cbn. apply le_n_S. rewrite <-(length_seq (length ns) 0).
    apply submseteq_length, NoDup_submseteq.
    - pose proof (lk_nodup _ _ Hl) as Hn. by apply NoDup_cons in Hn as [_ ?].
    - intros z Hz. apply list_elem_of_In, in_seq. pose proof (lk_nodes _ _ Hl z Hz). lia. }
  assert (head :: order = pre ++ x :: suf ++ ge) as E'.
  { rewrite Horder, app_comm_cons, E, <-app_assoc. done. }
  rewrite (advance_spec _ pre x suf); [|done| |lia|].
  2: { intros z Hz. assert (z ∈ head :: lt) as Hz' by (rewrite E; set_solver).
       apply elem_of_cons in Hz' as [->|]; [|done]. exfalso.
       pose proof (lk_nodup _ _ Hl) as Hn. rewrite E' in Hn.
       destruct pre as [|p pre]; injection E as <- E.
       - cbn in Hn. rewrite NoDup_cons in Hn. set_solver.
       - cbn in Hn. rewrite NoDup_cons in Hn. set_solver. }
  2: { rewrite E' in Hlen. rewrite length_app in Hlen. cbn in Hlen. rewrite length_app in Hlen. lia. }
  cbn -[seq]. destruct (last_at_split ns i suf x) as (a & b & Ea & Hy & _); [lia|].
  set (y := last_at ns i suf x) in *.
  rewrite (IH (pre ++ a) y b); [|rewrite E, Ea, <-app_assoc; done|lia].
  cbn -[seq]. rewrite seq_S, map_app. cbn. do 2 f_equal.
  - destruct i; [done|]. symmetry. apply (last_at_from _ _ _ _ a); [done|lia].
  - f_equal. apply map_ext_in. intros j Hj%in_seq. symmetry.
    apply (last_at_from _ _ _ _ a); [done|lia].
Qed.
End search.

Lemma split_order ns order target :
  StronglySorted (fun x y => ble (keyOf ns x) (keyOf ns y)) order ->
  exists lt ge, order = lt ++ ge /\ (forall x, x ∈ lt -> blt (keyOf ns x) target) /\
    (forall x, x ∈ ge -> ~ blt (keyOf ns x) target).
Proof.
  induction 1 as [|x order Hs IH Hx].
  - exists [], []. split; [done|]. split; by intros ? ?%elem_of_nil.
  - destruct (bltb_spec (keyOf ns x) target) as [H|H].
    + destruct IH as (lt & ge & -> & Hlt & Hge). exists (x :: lt), ge.
      split; [done|]. split; [|done]. intros y [->|Hy]%elem_of_cons; auto.
    + exists [], (x :: order). split; [done|]. split; [by intros ? ?%elem_of_nil|].
      intros y [->|Hy]%elem_of_cons; [done|]. rewrite Forall_forall in Hx.
      intros Hlt. apply H. eapply ble_blt_trans; [by apply Hx|done].
Qed.

Lemma succ_at_0 ns l : (forall x, x ∈ l -> (1 <= hgt ns x)%nat) -> succ_at ns 0 l = hd_error l.
Proof.
  destruct l as [|x l]; cbn; [done|]. intros H. rewrite decide_True; [done|].
  apply H. by left.
Qed.

Lemma entryOf_key ns x : (entryOf ns x).1 = keyOf ns x.
Proof. unfold entryOf, keyOf. by destruct (ns !! x). Qed.

Lemma seek_order ns lt ge target :
  (forall x, x ∈ lt -> blt (keyOf ns x) target) ->
  (forall x, x ∈ ge -> ~ blt (keyOf ns x) target) ->
  seek target (map (entryOf ns) (lt ++ ge)) = map (entryOf ns) ge.
Proof.
  intros Hlt Hge. induction lt as [|x lt IH]; cbn [app map seek].
  - destruct ge as [|x ge]; cbn [map seek]; [done|]. rewrite entryOf_key.
    destruct (bltb_spec (keyOf ns x) target) as [H|]; [|done].
    destruct (Hge x); [by left|done].
  - rewrite entryOf_key. destruct (bltb_spec (keyOf ns x) target) as [_|H].
    + apply IH. intros y Hy. apply Hlt. by right.
    + destruct H. apply Hlt. by left.
Qed.

Section represented.
Context (s : SkipList) (order : list nat) (es : list entry) (Hr : sl_rep s order es).

Lemma next0 pre x suf :
  head :: order = pre ++ x :: suf -> nextp (nodes s) x 0 = Some (hd_error suf).
Proof.
  intros E. pose proof (rep_linked _ _ _ Hr) as Hl.
  assert (1 <= hgt (nodes s) x)%nat as Hx.
  { destruct pre as [|p pre]; injection E as <- E.
    - rewrite (lk_head _ _ Hl). unfold maxHeight. lia.
    - apply (lk_nodes _ _ Hl). rewrite E, elem_of_app. right. by left. }
  rewrite (lk_next _ _ Hl pre x suf) by done. f_equal. apply succ_at_0.
  intros y Hy. apply (lk_nodes _ _ Hl).
  destruct pre as [|p pre]; injection E as <- E; rewrite E; [done|].
  rewrite elem_of_app. right. by right.
Qed.

Lemma find_spec target :
  exists lt ge, order = lt ++ ge /\
    (forall x, x ∈ lt -> blt (keyOf (nodes s) x) target) /\
    (forall x, x ∈ ge -> ~ blt (keyOf (nodes s) x) target) /\
    findGreaterOrEqual s target =
      Some (hd_error ge, map (fun i => last_at (nodes s) i lt head) (seq 0 (height s))).
Proof.
  pose proof (rep_linked _ _ _ Hr) as Hl. pose proof (rep_height _ _ _ Hr) as Hh.
  destruct (split_order (nodes s) order target (lk_sorted _ _ Hl)) as (lt & ge & E & Hlt & Hge).
  exists lt, ge. do 3 (split; [done|]). unfold findGreaterOrEqual.
  rewrite (descend_spec (nodes s) order Hl target lt ge E Hlt Hge (height s) [] head lt);
    [|done|rewrite (lk_head _ _ Hl); lia].
  destruct (height s) as [|h] eqn:Eh; [lia|]. cbn -[seq].
  destruct (last_at_split (nodes s) 0 lt head) as (a & b & Ea & Hy & Hb).
  { rewrite (lk_head _ _ Hl). unfold maxHeight. lia. }
  rewrite (lk_next _ _ Hl a (last_at (nodes s) 0 lt head) (b ++ ge)); [|
    rewrite E, app_comm_cons, Ea, <-app_assoc; done|done].
  cbn -[seq]. rewrite succ_at_app, Hb, succ_at_0; [done|].
  intros x Hx. apply (lk_nodes _ _ Hl). rewrite E, elem_of_app. auto.
Qed.

Lemma walk_nodes_spec fuel pre ge u maxSeq :
  order = pre ++ ge -> (length ge <= fuel)%nat ->
  walk_nodes fuel (nodes s) u maxSeq (hd_error ge) = Some (walk u maxSeq (map (entryOf (nodes s)) ge)).
Proof.
  pose proof (rep_linked _ _ _ Hr) as Hl.
  revert pre ge; induction fuel as [|fuel IH]; intros pre [|x ge] E Hf; try done.
  { cbn in Hf. lia. }
  cbn [hd_error walk_nodes map walk].
  destruct (lookup_in_order _ _ Hl x) as (n & Hn & Hk); [rewrite E, elem_of_app; right; by left|].
  rewrite Hn. unfold entryOf. rewrite Hn. cbn.
  destruct (bytes_Equal _ _); [|done]. destruct (_ <=? _); [done|].
  rewrite (next0 (head :: pre) x ge) by (rewrite E; done). cbn.
  apply (IH (pre ++ [x])); [by rewrite E, <-app_assoc|cbn in Hf; lia].
Qed.
End represented.

Lemma GetAt_spec s es u maxSeq :
  sl_inv s es -> GetAt s u maxSeq = Some (seek_getAt es u maxSeq).
Proof.
  intros [order Hr]. unfold GetAt.
  destruct (find_spec s order es Hr (MakeSearchKey u)) as (lt & ge & E & Hlt & Hge & ->).
  cbn -[seq]. rewrite (walk_nodes_spec s order es Hr _ lt ge); [|done|].
  - unfold seek_getAt. rewrite (rep_entries _ _ _ Hr), E, seek_order by done. done.
  - rewrite (rep_count _ _ _ Hr), E, length_app. lia.
Qed.

Definition first_at (es : list entry) (u : bytes) : option entry :=
  match seek (MakeSearchKey u) es with
  | e :: _ => if bytes_Equal (UserKey e.1) u then Some e else None
  | [] => None
  end.

Lemma GetNewest_spec s es u :
  sl_inv s es ->
  GetNewest s u = Some ((fun e => (e.2, SeqNum e.1)) <$> first_at es u) /\
  Get s u = Some (snd <$> first_at es u).
Proof.
  intros [order Hr]. unfold GetNewest, Get.
  destruct (find_spec s order es Hr (MakeSearchKey u)) as (lt & ge & E & Hlt & Hge & ->).
  cbn -[seq]. unfold first_at. rewrite (rep_entries _ _ _ Hr), E, seek_order by done.
  destruct ge as [|x ge]; cbn; [done|].
  destruct (lookup_in_order _ _ (rep_linked _ _ _ Hr) x) as (n & Hn & Hk);
    [rewrite E, elem_of_app; right; by left|].
  rewrite Hn. unfold entryOf. rewrite Hn. cbn. by destruct (bytes_Equal _ _).
Qed.

(** ** [Put] *)

(** Updating pointers changes neither the arena's size, nor heights, nor entries. *)
Definition same_shape (ns ns' : list node) : Prop :=
  length ns' = length ns /\ forall x, hgt ns' x = hgt ns x /\ entryOf ns' x = entryOf ns x.

Lemma same_shape_trans a b c : same_shape a b -> same_shape b c -> same_shape a c.
Proof.
  intros [L1 H1] [L2 H2]. split; [congruence|]. intros x.
  destruct (H1 x), (H2 x). split; congruence.
Qed.

Lemma set_next_spec ns x i p :
  (i < hgt ns x)%nat ->
  exists ns', set_next ns x i p = Some ns' /\ same_shape ns ns' /\
    forall y j, nextp ns' y j = if decide (y = x /\ j = i) then Some p else nextp ns y j.
Proof.
  intros Hi. unfold hgt in Hi. destruct (ns !! x) as [n|] eqn:En; [|lia].
  unfold set_next. rewrite En. cbn. rewrite decide_True by done.
  eexists. split; [done|]. pose proof (lookup_lt_Some _ _ _ En) as Hx.
  split; [split; [apply length_insert|]|].
  - intros y. unfold hgt, entryOf.
    destruct (decide (x = y)) as [<-|Hne].
    + rewrite list_lookup_insert_eq by done. rewrite En. cbn. by rewrite length_insert.
    + by rewrite list_lookup_insert_ne.
  - intros y j. unfold nextp. destruct (decide (x = y)) as [<-|Hne].
    + rewrite list_lookup_insert_eq by done. rewrite En. cbn.
      destruct (decide (j = i)) as [->|Hj].
      * rewrite decide_True by done. by apply list_lookup_insert_eq.
      * rewrite decide_False by tauto. by apply list_lookup_insert_ne.
    + rewrite list_lookup_insert_ne by done. rewrite decide_False by naive_solver. done.
Qed.

Lemma splice_spec ns (prev : list nat) idx (pf : nat -> nat) i0 k :
  (forall i, (i0 <= i < i0 + k)%nat ->
     prev !! i = Some (pf i) /\ pf i <> idx /\ (i < hgt ns (pf i))%nat /\ (i < hgt ns idx)%nat) ->
  exists ns', splice ns prev idx i0 k = Some ns' /\ same_shape ns ns' /\
    forall x i, nextp ns' x i =
      if decide (i0 <= i < i0 + k)%nat then
        if decide (x = idx) then nextp ns (pf i) i
        else if decide (x = pf i) then Some (Some idx) else nextp ns x i
      else nextp ns x i.
Proof.
  revert ns i0; induction k as [|k IH]; intros ns i0 H.
  - exists ns. split; [done|]. split; [done|]. intros. by rewrite decide_False by lia.
  - destruct (H i0) as (Hp & Hne & Hh & Hi); [lia|]. cbn [splice]. rewrite Hp. cbn.
    destruct (nextp ns (pf i0) i0) as [q|] eqn:Eq.
    2: { exfalso. unfold nextp, hgt in Eq, Hh. destruct (ns !! pf i0) as [n|]; [|lia]. cbn in Eq.
         apply lookup_ge_None in Eq. lia. }
    cbn. destruct (set_next_spec ns idx i0 q Hi) as (ns1 & -> & Hs1 & Hn1). cbn.
    destruct (set_next_spec ns1 (pf i0) i0 (Some idx)) as (ns2 & -> & Hs2 & Hn2).
    { by rewrite (proj1 (proj2 Hs1 (pf i0))). }
    cbn. pose proof (same_shape_trans _ _ _ Hs1 Hs2) as Hs.
    destruct (IH ns2 (S i0)) as (ns3 & -> & Hs3 & Hn3).
    { intros i Hi'. destruct (H i) as (? & ? & ? & ?); [lia|].
      rewrite !(proj1 (proj2 Hs _)). done. }
    exists ns3. split; [done|]. split; [by eapply same_shape_trans|].
    intros x i. rewrite Hn3.
    destruct (decide (i = i0)) as [->|Hii].
    + rewrite (decide_False (P := (S i0 <= i0 < S i0 + k)%nat)), decide_True by lia.
      rewrite Hn2, Hn1. destruct (decide (x = idx)) as [->|Hx].
      * rewrite decide_False by naive_solver. by rewrite decide_True by done.
      * destruct (decide (x = pf i0)) as [->|Hx2]; [by rewrite decide_True by done|].
        by rewrite !decide_False by naive_solver.
    + assert (forall y, nextp ns2 y i = nextp ns y i) as E.
      { intros y. rewrite Hn2, Hn1, !decide_False by tauto. done. }
      rewrite !E. destruct (decide (S i0 <= i < S i0 + k)%nat).
      * by rewrite (decide_True (P := (i0 <= i < i0 + S k)%nat)) by lia.
      * by rewrite (decide_False (P := (i0 <= i < i0 + S k)%nat)) by lia.
Qed.

Lemma succ_at_ext ns ns' i l :
  (forall x, x ∈ l -> hgt ns' x = hgt ns x) -> succ_at ns' i l = succ_at ns i l.
Proof.
  intros H. induction l as [|x l IH]; cbn; [done|]. rewrite (H x) by by left.
  case_decide; [done|]. apply IH. intros y Hy. apply H. by right.
Qed.

Lemma last_at_elem ns i l d : last_at ns i l d = d \/ last_at ns i l d ∈ l.
Proof.
  revert d; induction l as [|x l IH]; intros d; cbn; [by left|].
  destruct (IH (if decide (i < hgt ns x)%nat then x else d)) as [E|E]; [|by right; right].
  rewrite E. case_decide; [right; by left|by left].
Qed.

Lemma cons_split {A} (l1 : list A) y l2 pre x suf :
  l1 ++ y :: l2 = pre ++ x :: suf ->
  (exists k, l1 = pre ++ x :: k /\ suf = k ++ y :: l2) \/
  (pre = l1 /\ x = y /\ suf = l2) \/
  (exists k, pre = l1 ++ y :: k /\ l2 = k ++ x :: suf).
Proof.
  revert pre; induction l1 as [|a l1 IH]; intros [|b pre] E; injection E as -> E.
  - right; left. auto.
  - right; right. exists pre. auto.
  - left. exists l1. auto.
  - destruct (IH _ E) as [(k & -> & ->)|[(-> & -> & ->)|(k & -> & ->)]]; eauto 10.
Qed.

Lemma linked_lt ns order x : linked ns order -> x ∈ head :: order -> (x < length ns)%nat.
Proof.
  intros Hl [->|Hx]%elem_of_cons; [|by apply (lk_nodes _ _ Hl)].
  pose proof (lk_head _ _ Hl) as H. unfold hgt, head, maxHeight in H.
  destruct ns; [done|cbn; unfold head; lia].
Qed.

Section put.
Context (ns : list node) (order lt ge : list nat) (Hl : linked ns order).
Context (E : order = lt ++ ge) (ns' : list node) (h : nat) (k : bytes).
Let idx := length ns.
Let pf (i : nat) := last_at ns i lt head.
Context (Hh : (1 <= h <= maxHeight)%nat).
Context (Hshape : forall x, (x < idx)%nat -> hgt ns' x = hgt ns x /\ keyOf ns' x = keyOf ns x).
Context (Hlen : length ns' = S idx) (Hidx : hgt ns' idx = h) (Hkey : keyOf ns' idx = k).
Context (Hnext : forall x i, nextp ns' x i =
   if decide (i < h)%nat then
     if decide (x = idx) then nextp ns (pf i) i
     else if decide (x = pf i) then Some (Some idx) else nextp ns x i
   else nextp ns x i).
Context (Hlt : forall x, x ∈ lt -> blt (keyOf ns x) k).
Context (Hge : forall x, x ∈ ge -> ~ blt (keyOf ns x) k).

Lemma old_lt x : x ∈ head :: order -> (x < idx)%nat.
Proof. by apply linked_lt. Qed.

Lemma pf_elem i : pf i ∈ head :: lt.
Proof. unfold pf. destruct (last_at_elem ns i lt head) as [-> | ?]; [by left|by right]. Qed.

Lemma succ_at_old i l : l ⊆ head :: order -> succ_at ns' i l = succ_at ns i l.
Proof. intros Hs. apply succ_at_ext. intros x Hx. by apply Hshape, old_lt, Hs. Qed.

Lemma succ_at_idx i l :
  l ⊆ head :: order ->
  succ_at ns' i (idx :: l) = if decide (i < h)%nat then Some idx else succ_at ns i l.
Proof. intros Hs. cbn. rewrite Hidx. case_decide; [done|]. by apply succ_at_old. Qed.

Lemma linked_before pre x suf1 i :
  head :: lt = pre ++ x :: suf1 -> (i < hgt ns' x)%nat ->
  nextp ns' x i = Some (succ_at ns' i (suf1 ++ idx :: ge)).
Proof.
  intros Ex Hi.
  assert (head :: order = pre ++ x :: suf1 ++ ge) as E1
    by (rewrite E, app_comm_cons, Ex, <-app_assoc; done).
  assert (x < idx)%nat as Hx by (apply old_lt; rewrite E1, elem_of_app; right; by left).
  rewrite (proj1 (Hshape x Hx)) in Hi.
  pose proof (lk_next _ _ Hl pre x (suf1 ++ ge) i E1 Hi) as Hold.
  rewrite succ_at_app in Hold.
  assert (suf1 ⊆ head :: order /\ ge ⊆ head :: order) as [Hs1 Hs2].
  { rewrite E1. split; intros z Hz; rewrite elem_of_app, elem_of_cons, elem_of_app; auto. }
  rewrite succ_at_app, succ_at_old, succ_at_idx by done.
  assert (pf i = last_at ns i suf1 x) as Hpf by (apply (last_at_from _ _ _ _ pre); done).
  rewrite Hnext, (decide_False (P := x = idx)) by lia.
  destruct (succ_at_cases ns i suf1) as [[Hn Hlast]|(a & y & b & -> & Hn & Hy & Hlast)];
    rewrite Hn in Hold |- *; rewrite Hlast in Hpf.
  - case_decide; [|done]. by rewrite decide_True.
  - rewrite (decide_False (P := x = pf i)); [by case_decide|].
    rewrite Hpf. intros Exy. pose proof (lk_nodup _ _ Hl) as Hnd. rewrite E1 in Hnd.
    apply NoDup_app in Hnd as (_ & _ & Hnd). apply NoDup_cons in Hnd as [Hnin _].
    apply Hnin. rewrite !elem_of_app, elem_of_cons. left; right.
    destruct (last_at_elem ns i b y) as [Ey|Ey]; rewrite <-Exy in Ey; auto.
Qed.

Lemma linked_new i : (i < h)%nat -> nextp ns' idx i = Some (succ_at ns' i ge).
Proof.
  intros Hi. rewrite Hnext, !decide_True by done.
  destruct (last_at_split ns i lt head) as (a & b & Ea & Hy & Hb).
  { rewrite (lk_head _ _ Hl). lia. }
  fold (pf i) in Ea, Hy.
  assert (head :: order = a ++ pf i :: b ++ ge) as E1
    by (rewrite E, app_comm_cons, Ea, <-app_assoc; done).
  rewrite (lk_next _ _ Hl a (pf i) (b ++ ge) i E1 Hy), succ_at_app, Hb, succ_at_old; [done|].
  rewrite E1. intros z Hz. rewrite elem_of_app, elem_of_cons, elem_of_app. auto.
Qed.

Lemma linked_after g x suf i :
  ge = g ++ x :: suf -> (i < hgt ns' x)%nat -> nextp ns' x i = Some (succ_at ns' i suf).
Proof.
  intros Eg Hi.
  assert (head :: order = (head :: lt ++ g) ++ x :: suf) as E1
    by (rewrite E, Eg; cbn; by rewrite <-app_assoc).
  assert (x < idx)%nat as Hx by (apply old_lt; rewrite E1, elem_of_app; right; by left).
  rewrite (proj1 (Hshape x Hx)) in Hi.
  rewrite Hnext, (decide_False (P := x = idx)) by lia.
  rewrite (decide_False (P := x = pf i)).
  - rewrite (lk_next _ _ Hl _ x suf i E1 Hi), succ_at_old; [by case_decide|].
    rewrite E1. intros z Hz. apply elem_of_app. right. by right.
  - intros ->. pose proof (lk_nodup _ _ Hl) as Hnd. rewrite E, app_comm_cons in Hnd.
    apply NoDup_app in Hnd as (_ & Hnd & _). apply (Hnd (pf i) (pf_elem i)).
    rewrite Eg, elem_of_app. right. by left.
Qed.

Lemma linked_put : linked ns' (lt ++ idx :: ge).
Proof.
  assert (idx ∉ head :: order) as Hfresh by (intros H%old_lt; lia).
  split.
  - rewrite (proj1 (Hshape head (old_lt head ltac:(by left)))). apply (lk_head _ _ Hl).
  - rewrite app_comm_cons. pose proof (lk_nodup _ _ Hl) as Hnd.
    rewrite E, app_comm_cons in Hnd. rewrite <-Permutation_middle. apply NoDup_cons.
    split; [|done]. by rewrite <-app_comm_cons, <-E.
  - intros x Hx. destruct (decide (x = idx)) as [->|Hne]; [rewrite Hlen, Hidx; lia|].
    assert (x ∈ order) as Hx' by (rewrite E; set_solver).
    pose proof (lk_nodes _ _ Hl x Hx'). rewrite Hlen, (proj1 (Hshape x ltac:(unfold idx; lia))).
    unfold idx. lia.
  - intros pre x suf i Ex Hi. rewrite app_comm_cons in Ex.
    destruct (cons_split _ _ _ _ _ _ Ex) as [(c & Ec & ->)|[(-> & -> & ->)|(c & -> & Ec)]].
    + by apply (linked_before pre).
    + apply linked_new. by rewrite Hidx in Hi.
    + by apply (linked_after c).
  - assert (forall x, x ∈ order -> keyOf ns' x = keyOf ns x) as Hk
      by (intros x Hx; apply Hshape, old_lt; by right).
    pose proof (lk_sorted _ _ Hl) as Hs.
    assert (StronglySorted (fun x y => ble (keyOf ns' x) (keyOf ns' y)) order) as Hs'.
    { clear -Hs Hk. induction Hs as [|x l Hs IH Hx]; constructor.
      - apply IH. intros y Hy. apply Hk. by right.
      - rewrite Forall_forall in Hx |- *. intros y Hy. rewrite !Hk; [by apply Hx|by right|by left]. }
    rewrite E in Hs', Hk. apply StronglySorted_app in Hs' as (Hc & H1 & H2).
    apply StronglySorted_app. split; [|split; [done|]].
    + intros x y Hx [->|Hy]%elem_of_cons; [|by apply Hc].
      rewrite Hkey, Hk by (rewrite elem_of_app; auto). apply blt_ble, Hlt, Hx.
    + constructor; [done|]. apply Forall_forall. intros y Hy.
      rewrite Hkey, Hk by (rewrite elem_of_app; auto). apply ble_not_blt, Hge, Hy.
Qed.
End put.

Lemma randomHeight_loop_range fuel h rng pos :
  (1 <= h <= maxHeight)%nat ->
  (1 <= (randomHeight_loop fuel h rng pos).1 <= maxHeight)%nat.
Proof.
  revert h pos; induction fuel as [|fuel IH]; intros h pos H; cbn [randomHeight_loop]; [done|].
  destruct (Nat.ltb_spec h maxHeight); [|done]. destruct (rng pos); [|done]. apply IH. lia.
Qed.

Lemma randomHeight_range s : (1 <= (randomHeight s).1 <= maxHeight)%nat.
Proof. apply randomHeight_loop_range. unfold maxHeight. lia. Qed.

Lemma hgt_app ns n x :
  hgt (ns ++ [n]) x = if decide (x = length ns) then length (next n) else hgt ns x.
Proof.
  unfold hgt. case_decide as H.
  - subst. by rewrite list_lookup_middle.
  - destruct (decide (x < length ns)%nat); [by rewrite lookup_app_l|].
    rewrite !(lookup_ge_None_2 _ x); [done|lia|rewrite length_app; cbn; lia].
Qed.

Lemma lookup_repeat {A} (x : A) n i : (i < n)%nat -> repeat x n !! i = Some x.
Proof. revert i; induction n; intros [|i] ?; cbn; [lia..|done|]. apply IHn. lia. Qed.

Lemma total_size_app l1 l2 : total_size (l1 ++ l2) = total_size l1 + total_size l2.
Proof. unfold total_size. induction l1; cbn; lia. Qed.

Lemma Put_rep s order es k v :
  sl_rep s order es ->
  exists (s' : SkipList) (lt ge : list nat),
    Put s k v = Some s' /\ order = lt ++ ge /\
    (forall x, x ∈ lt -> blt (keyOf (nodes s) x) k) /\
    (forall x, x ∈ ge -> ~ blt (keyOf (nodes s) x) k) /\
    sl_rep s' (lt ++ length (nodes s) :: ge)
      (map (entryOf (nodes s)) lt ++ (k, v) :: map (entryOf (nodes s)) ge).
Proof.
  intros Hr. pose proof (rep_linked _ _ _ Hr) as Hl. pose proof (rep_height _ _ _ Hr) as Hht.
  destruct (find_spec s order es Hr k) as (lt & ge & E & Hlt & Hge & Hf).
  unfold Put. rewrite Hf. cbn -[seq randomHeight splice Nat.ltb]. pose proof (randomHeight_range s) as Hh.
  destruct (randomHeight s) as [h pos]. cbn in Hh.
  set (ns0 := nodes s ++ [mkNode k v (repeat None h)]).
  set (prev := map (fun i => last_at (nodes s) i lt head) (seq 0 (height s))
                 ++ repeat head (h - height s)). set (idx := length (nodes s)).
  set (pf := fun i => last_at (nodes s) i lt head).
  assert (forall x, (x < idx)%nat -> hgt ns0 x = hgt (nodes s) x) as Hh0
    by (intros x Hx; unfold ns0; rewrite hgt_app, decide_False by (unfold idx in Hx; lia); done).
  assert (hgt ns0 idx = h) as Hhi
    by (unfold ns0; rewrite hgt_app, decide_True by done; cbn; apply repeat_length).
  assert (forall i, (i < h)%nat -> (pf i < idx /\ i < hgt (nodes s) (pf i))%nat) as Hpf.
  { intros i Hi. unfold pf. destruct (last_at_split (nodes s) i lt head) as (a & b & Ea & Hy & _).
    { rewrite (lk_head _ _ Hl). lia. }
    split; [|done]. apply (linked_lt _ order); [exact Hl|].
    assert (last_at (nodes s) i lt head ∈ head :: lt) as Hin
      by (rewrite Ea, elem_of_app; right; by left).
    rewrite E. set_solver. }
  destruct (splice_spec ns0 prev idx pf 0 h) as (ns' & Es & [Hsl Hsh] & Hnx).
  { intros i Hi. destruct (Hpf i) as [Hp1 Hp2]; [lia|].
    split; [|rewrite Hh0, Hhi by done; lia]. unfold prev, pf.
    destruct (decide (i < height s)%nat).
    - rewrite lookup_app_l by (by rewrite length_map, length_seq).
      rewrite list_lookup_fmap, lookup_seq_lt by done. done.
    - rewrite lookup_app_r by (rewrite length_map, length_seq; lia).
      rewrite length_map, length_seq, lookup_repeat by lia.
      f_equal. unfold head. destruct (succ_at_cases (nodes s) i lt) as [[_ ->]|(a & y & b & -> & _ & Hy & _)];
        [done|]. pose proof (rep_tall _ _ _ Hr y) as Ht. rewrite E in Ht.
      assert (y ∈ (a ++ y :: b) ++ ge) by set_solver. specialize (Ht ltac:(done)). lia. }
  rewrite Es. cbn [mbind option_bind].
  eexists _, lt, ge. do 4 (split; [done|]).
  assert (length ns' = S idx) as Hln by (rewrite Hsl; unfold ns0; rewrite length_app; cbn; unfold idx; lia).
  assert (forall x, (x < idx)%nat -> entryOf ns' x = entryOf (nodes s) x) as Hent.
  { intros x Hx. rewrite (proj2 (Hsh x)). unfold entryOf, ns0. by rewrite lookup_app_l. }
  assert (entryOf ns' idx = (k, v)) as Hei.
  { rewrite (proj2 (Hsh idx)). unfold entryOf, ns0. by rewrite list_lookup_middle. }
  split; cbn [nodes height size dataSize].
  - apply (linked_put (nodes s) order lt ge Hl E ns' h k); try done.
    + intros x Hx. split; [rewrite (proj1 (Hsh x)); by apply Hh0|].
      rewrite <-!entryOf_key, Hent by done. done.
    + rewrite (proj1 (Hsh _)). done.
    + fold idx. rewrite <-entryOf_key, Hei. done.
    + intros x i. rewrite Hnx.
      assert (forall y, y <> idx \/ (h <= i)%nat -> nextp ns0 y i = nextp (nodes s) y i) as Hn0.
      { intros y Hy. unfold nextp, ns0. destruct (decide (y = idx)) as [->|Hne].
        - unfold idx. rewrite list_lookup_middle, lookup_ge_None_2 by done.
          cbn. apply lookup_ge_None_2. rewrite repeat_length. tauto.
        - destruct (decide (y < idx)%nat); [by rewrite lookup_app_l|].
          unfold idx in *. rewrite !(lookup_ge_None_2 _ y); [done|lia|].
          rewrite length_app. cbn. lia. }
      fold idx. fold (pf i). destruct (decide (i < h)%nat) as [Hi|Hi].
      * rewrite (decide_True (P := (0 <= i < 0 + h)%nat)) by lia.
        destruct (Hpf i Hi) as [Hpi _]. rewrite (Hn0 (pf i)) by lia.
        destruct (decide (x = idx)); [done|].
        destruct (decide (x = pf i)); [done|]. apply Hn0. by left.
      * rewrite (decide_False (P := (0 <= i < 0 + h)%nat)) by lia. apply Hn0. lia.
  - destruct (Nat.ltb_spec (height s) h); lia.
  - intros x Hx. rewrite (proj1 (Hsh x)).
    assert (x = idx \/ x ∈ order) as [->|Hx'] by (rewrite E; set_solver).
    + rewrite Hhi. destruct (Nat.ltb_spec (height s) h); lia.
    + rewrite Hh0 by (apply (linked_lt _ order); [done|by right]).
      pose proof (rep_tall _ _ _ Hr x Hx'). destruct (Nat.ltb_spec (height s) h); lia.
  - rewrite map_app. cbn. rewrite Hei. 
    assert (forall l, l ⊆ order -> map (entryOf ns') l = map (entryOf (nodes s)) l) as Hm.
    { intros l Hs. apply map_ext_in. intros x Hx%list_elem_of_In. apply Hent.
      apply (linked_lt _ order); [done|]. right. by apply Hs. }
    rewrite !Hm by (rewrite E; set_solver). done.
  - rewrite Hln, length_app. cbn. pose proof (rep_count _ _ _ Hr) as Hc.
    rewrite E, length_app in Hc. unfold idx. lia.
  - rewrite (rep_size _ _ _ Hr), (rep_entries _ _ _ Hr), E, map_app. len_lia.
  - rewrite (rep_data _ _ _ Hr), (rep_entries _ _ _ Hr), E, map_app, !total_size_app. cbn.
    fold (total_size (map (entryOf (nodes s)) ge)). lia.
Qed.

(** ** The invariant *)
Lemma NewSkipList_inv rng : sl_inv (NewSkipList rng) [].
Proof.
  exists []. split; cbn [NewSkipList nodes height size dataSize].
  - split; cbn -[maxHeight].
    + by rewrite repeat_length.
    + apply NoDup_singleton.
    + by intros ? ?%elem_of_nil.
    + intros pre x suf i E Hi. destruct pre as [|p pre]; [|by destruct pre].
      injection E as <- <-. unfold nextp. cbn -[maxHeight]. apply lookup_repeat.
      unfold hgt in Hi. cbn -[maxHeight] in Hi. by rewrite repeat_length in Hi.
    + constructor.
  - unfold maxHeight. lia.
  - by intros ? ?%elem_of_nil.
  - done.
  - done.
  - done.
  - done.
Qed.

Lemma Put_inv s es k v :
  sl_inv s es -> exists s', Put s k v = Some s' /\ sl_inv s' (kinsert (k, v) es).
Proof.
  intros [order Hr]. destruct (Put_rep s order es k v Hr) as (s' & lt & ge & Hp & E & Hlt & Hge & Hr').
  exists s'. split; [done|]. eexists. rewrite (rep_entries _ _ _ Hr), E, map_app, kinsert_app; [done|..].
  - apply Forall_map, Forall_forall. intros x Hx. cbn. rewrite entryOf_key. by apply Hlt.
  - apply Forall_map, Forall_forall. intros x Hx. cbn. rewrite entryOf_key. by apply Hge.
Qed.

(** A run of puts. *)
Definition puts (s : SkipList) (es : list entry) : option SkipList :=
  fold_left (fun os e => s ← os; Put s e.1 e.2) es (Some s).

Lemma puts_inv s es0 es :
  sl_inv s es0 ->
  exists s', puts s es = Some s' /\ sl_inv s' (fold_left (fun l e => kinsert e l) es es0).
Proof.
  unfold puts. revert s es0; induction es as [|e es IH]; intros s es0 Hs; cbn; [eauto|].
  destruct (Put_inv s es0 e.1 e.2 Hs) as (s1 & -> & H1). destruct e. by apply IH.
Qed.

(** ** Iterators over an unchanging list *)
#[global] Instance sli_iterator {E : Type} (ns : list node) : Iterator E SkipListIterator := {
  it_Key := sli_Key ns;
  it_Value := sli_Value ns;
  it_Next := sli_Next ns;
  it_IsValid := sli_IsValid;
  it_Err := fun _ => None;
  it_Close := fun it => (sli_Close it, None)
}.

Section iterate.
Context {E : Type} (s : SkipList) (order : list nat) (es : list entry) (Hr : sl_rep s order es).

Lemma sli_yields_from pre suf b :
  order = pre ++ suf ->
  yields (I := SkipListIterator) (Iterator0 := sli_iterator (E := E) (nodes s))
    (checkBound (nodes s) (mkSLI (hd_error suf) b))
    (map kvp_of (before b (map (entryOf (nodes s)) suf))).
Proof.
  revert pre; induction suf as [|x suf IH]; intros pre Eo.
  - destruct b; by cbn.
  - destruct (lookup_in_order _ _ (rep_linked _ _ _ Hr) x) as (n & Hn & Hk);
      [rewrite Eo, elem_of_app; right; by left|].
    assert (entryOf (nodes s) x = (nkey n, nval n)) as Hx by (unfold entryOf; by rewrite Hn).
    specialize (IH (pre ++ [x]) ltac:(by rewrite <-app_assoc)).
    pose proof (next0 s order es Hr (head :: pre) x suf ltac:(by rewrite Eo)) as Hnx.
    assert (map kvp_of (before b (map (entryOf (nodes s)) (x :: suf))) =
      if match b with Some e => bltb (nkey n) e | None => true end
      then (nkey n, iter_value (nval n)) :: map kvp_of (before b (map (entryOf (nodes s)) suf)) else []) as ->.
    { cbn [map before]. rewrite Hx. cbn. destruct b as [e|]; [by destruct (bltb _ _)|].
      by destruct suf. }
    unfold checkBound at 1. cbn [hd_error current endKey]. rewrite Hn.
    assert (forall b', sli_Next (nodes s) (mkSLI (Some x) b') =
              Some (checkBound (nodes s) (mkSLI (hd_error suf) b'))) as Hnext
      by (intros; unfold sli_Next; cbn; by rewrite Hnx).
    assert (forall b' l, yields (Iterator0 := sli_iterator (E := E) (nodes s))
              (checkBound (nodes s) (mkSLI (hd_error suf) b')) l ->
            yields (Iterator0 := sli_iterator (E := E) (nodes s)) (mkSLI (Some x) b')
              ((nkey n, iter_value (nval n)) :: l)) as Hstep.
    { intros b' l Hy. do 2 (split; [done|]). split; [cbn; by rewrite Hn|].
      split; [cbn; by rewrite Hn|]. eexists. split; [apply Hnext|exact Hy]. }
    destruct b as [e|]; [destruct (bltb _ _)|]; [by apply Hstep|done|by apply Hstep].
Qed.
End iterate.

Lemma Scan_yields {E} s es :
  sl_inv s es ->
  exists it, Scan s = Some it /\
    yields (Iterator0 := sli_iterator (E := E) (nodes s)) it (map kvp_of es).
Proof.
  intros [order Hr]. unfold Scan. rewrite (next0 s order es Hr [] head order) by done. cbn.
  eexists. split; [done|]. pose proof (sli_yields_from (E := E) s order es Hr [] order None eq_refl) as H.
  rewrite <-(rep_entries _ _ _ Hr) in H. by destruct es.
Qed.

Lemma ScanRange_yields {E} s es st en :
  sl_inv s es ->
  exists it, ScanRange s st en = Some it /\
    yields (Iterator0 := sli_iterator (E := E) (nodes s)) it
      (map kvp_of (before (MakeSearchKey <$> en)
         (match st with None => es | Some u => seek (MakeSearchKey u) es end))).
Proof.
  intros [order Hr]. unfold ScanRange. destruct st as [u|].
  - destruct (find_spec s order es Hr (MakeSearchKey u)) as (lt & ge & Eo & Hlt & Hge & ->).
    cbn -[seq]. eexists. split; [done|].
    rewrite (rep_entries _ _ _ Hr), Eo, seek_order by done.
    by apply (sli_yields_from s order es Hr lt).
  - rewrite (next0 s order es Hr [] head order) by done. cbn. eexists. split; [done|].
    rewrite (rep_entries _ _ _ Hr). by apply (sli_yields_from s order es Hr []).
Qed.

(** ** Claims *)

Lemma fold_kinsert_perm es es0 : fold_left (fun l e => kinsert e l) es es0 ≡ₚ es ++ es0.
Proof.
  revert es0; induction es as [|e es IH]; intros es0; cbn; [done|].
  rewrite IH, kinsert_perm. by rewrite Permutation_middle.
Qed.

Lemma fold_kinsert_sorted es es0 :
  ksorted es0 -> NoDup (map fst (es ++ es0)) ->
  ksorted (fold_left (fun l e => kinsert e l) es es0).
Proof.
  revert es0; induction es as [|e es IH]; intros es0 Hs Hnd; cbn; [done|].
  cbn in Hnd. apply NoDup_cons in Hnd as [Hnin Hnd]. apply IH.
  - apply kinsert_sorted; [done|]. intros x Hx E. apply Hnin. rewrite map_app, elem_of_app.
    right. rewrite <-E. apply list_elem_of_In, in_map, list_elem_of_In. done.
  - rewrite kinsert_perm, <-Permutation_middle. cbn. by apply NoDup_cons.
Qed.

Lemma puts_new rng es :
  NoDup (map fst es) ->
  exists s es', puts (NewSkipList rng) es = Some s /\ sl_inv s es' /\ ksorted es' /\ es' ≡ₚ es.
Proof.
  intros Hnd. destruct (puts_inv _ [] es (NewSkipList_inv rng)) as (s & Hp & Hs).
  exists s. eexists. split; [done|]. split; [exact Hs|]. split.
  - apply fold_kinsert_sorted; [constructor|]. by rewrite app_nil_r.
  - by rewrite fold_kinsert_perm, app_nil_r.
Qed.

Lemma total_size_perm es es' : es ≡ₚ es' -> total_size es = total_size es'.
Proof. unfold total_size. induction 1; cbn; lia. Qed.

(** Whatever heights the random source draws, any sequence of [Put]s with
    distinct internal keys on an empty skip list succeeds without panicking, and
    the list then holds exactly the entries put: [Scan] yields them all in strict
    key order and without error, and the size counters are exact. *)
Theorem skiplist_puts_scan {E : Type} rng es :
  NoDup (map fst es) ->
  exists s es' it, puts (NewSkipList rng) es = Some s /\
    es' ≡ₚ es /\ ksorted es' /\
    Scan s = Some it /\ yields (Iterator0 := sli_iterator (E := E) (nodes s)) it (map kvp_of es') /\
    Len s = len es /\ ApproximateSize s = total_size es.
Proof.
  intros Hnd. destruct (puts_new rng es Hnd) as (s & es' & Hp & Hs & Hso & Hpm).
  destruct (Scan_yields (E := E) s es' Hs) as (it & Hi & Hy).
  exists s, es', it. do 5 (split; [done|]). destruct Hs as [order Hr].
  unfold Len, ApproximateSize. rewrite (rep_size _ _ _ Hr), (rep_data _ _ _ Hr).
  unfold len. by rewrite (Permutation_length Hpm), (total_size_perm _ _ Hpm).
Qed.

Definition demo_entries : list entry :=
  [(MakeInternalKey [Byte.x62] 1, NewValue (Some [Byte.x31]));
   (MakeInternalKey [Byte.x61] 2, NewValue (Some [Byte.x32]));
   (MakeInternalKey [Byte.x62] 3, NewTombstone)].
Definition demo_coin (n : nat) : bool := Nat.odd n.

Lemma demo_nodup : NoDup (map fst demo_entries).
Proof. by_decide. Qed.

Lemma skiplist_puts_scan_witness :
  exists s es' it, puts (NewSkipList demo_coin) demo_entries = Some s /\
    es' ≡ₚ demo_entries /\ ksorted es' /\
    Scan s = Some it /\ yields (Iterator0 := sli_iterator (E := unit) (nodes s)) it (map kvp_of es') /\
    Len s = len demo_entries /\ ApproximateSize s = total_size demo_entries.
Proof. exact (skiplist_puts_scan demo_coin demo_entries demo_nodup). Defined.

(** Snapshot reads of a memtable's skip list are MVCC reads: after any puts of
    distinct internal keys, [GetAt u q] returns the version of [u] with the
    largest sequence number not above [q] (found tombstones included), and
    not-found exactly when there is none, for every key [u] that is not a proper
    prefix or extension of a stored user key. *)
Theorem skiplist_getAt_newest rng es u q :
  NoDup (map fst es) -> ikeys_ok es -> key_compat u es ->
  exists s o, puts (NewSkipList rng) es = Some s /\ GetAt s u q = Some o /\ is_newest es u q o.
Proof.
  intros Hnd Hik Hc. destruct (puts_new rng es Hnd) as (s & es' & Hp & Hs & Hso & Hpm).
  exists s, (seek_getAt es' u q). split; [done|]. split; [by apply GetAt_spec|].
  rewrite <-Hpm. apply seek_getAt_newest; [done|..].
  - unfold ikeys_ok. by rewrite Hpm.
  - unfold key_compat. by rewrite Hpm.
Qed.

Lemma skiplist_getAt_newest_witness :
  exists s o, puts (NewSkipList demo_coin) demo_entries = Some s /\
    GetAt s [Byte.x62] 2 = Some o /\ is_newest demo_entries [Byte.x62] 2 o.
Proof.
  apply (skiplist_getAt_newest demo_coin demo_entries [Byte.x62] 2 demo_nodup).
  - by_decide.
  - by_decide.
Defined.

(** Range scans: for bounds of which no stored user key is a proper prefix,
    [ScanRange start end] yields, in key order, exactly the stored entries whose
    user key lies in [start, end); a nil bound is no bound. *)
Theorem skiplist_scan_range {E : Type} rng es st en :
  NoDup (map fst es) -> ikeys_ok es ->
  (forall u, st = Some u \/ en = Some u -> bound_compat u es) ->
  exists s it es', puts (NewSkipList rng) es = Some s /\ ScanRange s st en = Some it /\
    yields (Iterator0 := sli_iterator (E := E) (nodes s)) it (map kvp_of es') /\
    ksorted es' /\ es' ≡ₚ filter (fun e => in_range st en (UserKey e.1)) es.
Proof.
  intros Hnd Hik Hc. destruct (puts_new rng es Hnd) as (s & es' & Hp & Hs & Hso & Hpm).
  destruct (ScanRange_yields (E := E) s es' st en Hs) as (it & Hi & Hy).
  exists s, it. eexists. split; [done|]. split; [done|]. split; [exact Hy|].
  rewrite range_filter; [|done|unfold ikeys_ok; by rewrite Hpm|].
  - split; [by apply ksorted_filter|]. by rewrite Hpm.
  - intros u Hu. unfold bound_compat. rewrite Hpm. by apply Hc.
Qed.

Lemma skiplist_scan_range_witness :
  exists s it es', puts (NewSkipList demo_coin) demo_entries = Some s /\
    ScanRange s (Some [Byte.x62]) None = Some it /\
    yields (Iterator0 := sli_iterator (E := unit) (nodes s)) it (map kvp_of es') /\
    ksorted es' /\ es' ≡ₚ filter (fun e => in_range (Some [Byte.x62]) None (UserKey e.1)) demo_entries.
Proof.
  apply (skiplist_scan_range demo_coin demo_entries (Some [Byte.x62]) None demo_nodup).
  - by_decide.
  - intros u [[= <-]|?]; [|done]. by_decide.
Defined.

(** A stored key can become unreadable: when the user key [u] is written at
    any realistic sequence number (below 2^56) and so is an extension of [u] whose
    next byte is neither 0x00 nor 0xff, [Get u] reports not found on the skip list
    that holds both, since the extension's internal key sorts between [u]'s search
    key and [u]'s own. *)
Theorem skiplist_prefix_key_lost rng u b w s1 s2 v1 v2 :
  0 <= s1 < 2^56 -> seq_ok s2 -> 0 < bZ b < 255 ->
  exists s, puts (NewSkipList rng) [(MakeInternalKey u s1, v1); (MakeInternalKey (u ++ b :: w) s2, v2)] = Some s /\
    Get s u = Some None /\ GetAt s u MaxSeqNum = Some None.
Proof.
  intros H1 H2 Hb.
  destruct (puts_inv _ [] [(MakeInternalKey u s1, v1); (MakeInternalKey (u ++ b :: w) s2, v2)]
              (NewSkipList_inv rng)) as (s & Hp & Hs).
  exists s. split; [done|]. cbn [fold_left kinsert fst] in Hs.
  rewrite (bltb_false (MakeInternalKey u s1)) in Hs by by apply extension_below.
  assert (bytes_Equal (UserKey (MakeInternalKey (u ++ b :: w) s2)) u = false) as Hne.
  { rewrite UserKey_make. unfold bytes_Equal. apply bool_decide_eq_false_2. intros E.
    apply (f_equal length) in E. rewrite length_app in E. cbn in E. lia. }
  pose proof (bltb_false _ _ (blt_asym _ _ (search_below_extension u b w s2 Hb))) as Hsk.
  split; [rewrite (proj2 (GetNewest_spec s _ u Hs))|rewrite (GetAt_spec s _ u _ Hs)].
  - unfold first_at. cbn [seek fst]. rewrite Hsk. cbn [fst]. by rewrite Hne.
  - unfold seek_getAt. cbn [seek fst]. rewrite Hsk. cbn [walk]. by rewrite Hne.
Qed.

Lemma skiplist_prefix_key_lost_witness :
  exists s, puts (NewSkipList demo_coin)
    [(MakeInternalKey [Byte.x61] 1, NewValue (Some []));
     (MakeInternalKey ([Byte.x61] ++ Byte.x62 :: []) 2, NewValue (Some []))] = Some s /\
    Get s [Byte.x61] = Some None /\ GetAt s [Byte.x61] MaxSeqNum = Some None.
Proof.
  apply (skiplist_prefix_key_lost demo_coin [Byte.x61] Byte.x62 [] 1 2); [lia|..];
    vm_compute; split; congruence.
Defined.
