(* ===== verification/Memtable.v ===== *)
(** * The memtable (src/memtable/memtable.go)

    A skip list behind a read-write lock.  [readers] counts the read locks
    held by open iterators: a write waits until it is zero, which the
    model shows as the [Blocked] outcome, and [Close] releases the lock
    once however often it is called. *)

From Stdlib Require Import ZArith Lia.
From stdpp Require Import base list option sorting.
From S2P Require Import Prelude GoBytes KV Entries Iter SkipList.

Record Memtable := mkMem {
  slist : SkipList;
  readers : nat;
  frozen : bool;
  id : Z
}.

Inductive Lock := Blocked.

Definition New (rng : nat -> bool) (id : Z) : Memtable := mkMem (NewSkipList rng) 0 false id.
Definition ID (m : Memtable) : Z := id m.

Definition with_lock (m : Memtable) (f : Memtable -> outcome Lock Memtable) : outcome Lock Memtable :=
  if decide (readers m = 0)%nat then f m else Err Blocked.

Definition Put (m : Memtable) (internalKey : bytes) (value : Value) : outcome Lock Memtable :=
  with_lock m (fun m =>
    match SkipList.Put (slist m) internalKey value with
    | Some s => Ok (mkMem s (readers m) (frozen m) (id m))
    | None => Panic
    end).

Definition Freeze (m : Memtable) : outcome Lock Memtable :=
  with_lock m (fun m => Ok (mkMem (slist m) (readers m) true (id m))).

Definition Get (m : Memtable) (u : bytes) : option (option Value) := SkipList.Get (slist m) u.
Definition GetNewest (m : Memtable) (u : bytes) : option (option (Value * Z)) :=
  SkipList.GetNewest (slist m) u.
Definition GetAt (m : Memtable) (u : bytes) (maxSeq : Z) : option (option Value) :=
  SkipList.GetAt (slist m) u maxSeq.
Definition ApproximateSize (m : Memtable) : Z := SkipList.ApproximateSize (slist m).
Definition Len (m : Memtable) : Z := SkipList.Len (slist m).
Definition IsFrozen (m : Memtable) : bool := frozen m.

(** ** The iterator wrapper: [mu] says whether it still holds the read lock. *)
Record memtableIterator := mkMI { inner : SkipListIterator; mu : bool }.

Definition RLock (m : Memtable) : Memtable := mkMem (slist m) (S (readers m)) (frozen m) (id m).
Definition RUnlock (m : Memtable) : Memtable := mkMem (slist m) (pred (readers m)) (frozen m) (id m).

Definition Scan (m : Memtable) : option (Memtable * memtableIterator) :=
  it ← SkipList.Scan (slist m); Some (RLock m, mkMI it true).
Definition ScanRange (m : Memtable) (start end_ : option bytes) : option (Memtable * memtableIterator) :=
  it ← SkipList.ScanRange (slist m) start end_; Some (RLock m, mkMI it true).

Definition mi_Next (m : Memtable) (it : memtableIterator) : option memtableIterator :=
  i ← sli_Next (nodes (slist m)) (inner it); Some (mkMI i (mu it)).
Definition mi_Key (m : Memtable) (it : memtableIterator) := sli_Key (nodes (slist m)) (inner it).
Definition mi_Value (m : Memtable) (it : memtableIterator) := sli_Value (nodes (slist m)) (inner it).
Definition mi_IsValid (it : memtableIterator) : bool := sli_IsValid (inner it).
Definition mi_IsTombstone (m : Memtable) (it : memtableIterator) :=
  sli_IsTombstone (nodes (slist m)) (inner it).
Definition mi_Close (m : Memtable) (it : memtableIterator) : Memtable * memtableIterator :=
  (if mu it then RUnlock m else m, mkMI (sli_Close (inner it)) false).

(** The wrapper as an instance of the interface, over the memtable it reads. *)
#[global] Instance mi_iterator {E : Type} (m : Memtable) : Iterator E memtableIterator := {
  it_Key := mi_Key m;
  it_Value := mi_Value m;
  it_Next := mi_Next m;
  it_IsValid := mi_IsValid;
  it_Err := fun _ => None;
  it_Close := fun it => ((mi_Close m it).2, None)
}.

(** ** The contents *)
Record mem_inv (m : Memtable) (es : list entry) : Prop := {
  mem_sl : sl_inv (slist m) es;
  mem_sorted : ksorted es;
  mem_ikeys : ikeys_ok es
}.

Lemma New_inv rng i : mem_inv (New rng i) [].
Proof. split; [apply NewSkipList_inv|constructor|constructor]. Qed.

Lemma mem_Put_inv m es k v :
  mem_inv m es -> readers m = 0%nat -> 8 <= len k -> (forall e, e ∈ es -> e.1 <> k) ->
  exists m', Put m k v = Ok m' /\ mem_inv m' (kinsert (k, v) es) /\
    readers m' = 0%nat /\ frozen m' = frozen m /\ id m' = id m.
Proof.
  intros [Hs Hso Hik] Hr Hk Hne. unfold Put, with_lock. rewrite decide_True by done.
  destruct (SkipList.Put_inv _ _ k v Hs) as (s' & -> & Hs'). eexists. split; [done|].
  split; [|done]. split; [done|by apply kinsert_sorted|].
  unfold ikeys_ok. rewrite kinsert_perm. by constructor.
Qed.

(** The iterator wrapper yields what the skip-list iterator yields. *)
Lemma mi_yields {E} (m : Memtable) it held l :
  yields (Iterator0 := sli_iterator (E := E) (nodes (slist m))) it l ->
  yields (Iterator0 := mi_iterator (E := E) m) (mkMI it held) l.
Proof.
  revert it; induction l as [|[k v] l IH]; intros it; [done|].
  intros (H1 & H2 & H3 & H4 & it' & H5 & H6). do 4 (split; [done|]).
  exists (mkMI it' held). split; [|by apply IH].
  cbn. unfold mi_Next. cbn. cbn in H5. by rewrite H5.
Qed.

(** Reads of one memtable, as the search order of [DB] uses them. *)
Lemma GetAt_newest m es u q :
  mem_inv m es -> key_compat u es ->
  exists o, GetAt m u q = Some o /\ is_newest es u q o.
Proof.
  intros [Hs Hso Hik] Hc. exists (seek_getAt es u q). split; [by apply GetAt_spec|].
  by apply seek_getAt_newest.
Qed.

(** ** Lock discipline: operations of clients on one memtable. *)
Inductive mem_op :=
| OpPut (k : bytes) (v : Value)
| OpFreeze
| OpScan (st en : option bytes)
| OpClose (n : nat)            (* close the n-th iterator opened so far *)
| OpNext (n : nat).

Record world := mkWorld { wm : Memtable; its : list memtableIterator }.

Definition mem_step (w : world) (o : mem_op) : outcome Lock world :=
  match o with
  | OpPut k v => m ← Put (wm w) k v; Ok (mkWorld m (its w))
  | OpFreeze => m ← Freeze (wm w); Ok (mkWorld m (its w))
  | OpScan st en =>
      match ScanRange (wm w) st en with
      | Some (m, it) => Ok (mkWorld m (its w ++ [it]))
      | None => Panic
      end
  | OpClose n =>
      match its w !! n with
      | Some it => let '(m, it') := mi_Close (wm w) it in Ok (mkWorld m (<[n := it']> (its w)))
      | None => Panic
      end
  | OpNext n =>
      match its w !! n with
      | Some it =>
          match mi_Next (wm w) it with
          | Some it' => Ok (mkWorld (wm w) (<[n := it']> (its w)))
          | None => Panic
          end
      | None => Panic
      end
  end.

Fixpoint held (l : list memtableIterator) : nat :=
  match l with [] => 0 | it :: l => (if mu it then 1 else 0) + held l end.

Lemma held_app l1 l2 : held (l1 ++ l2) = (held l1 + held l2)%nat.
Proof. induction l1; cbn; lia. Qed.

(** Every open iterator holds exactly one read lock. *)
Definition lock_inv (w : world) : Prop := readers (wm w) = held (its w).

Lemma held_insert l n it it' :
  l !! n = Some it ->
  (held (<[n := it']> l) + (if mu it then 1 else 0) = held l + (if mu it' then 1 else 0))%nat.
Proof.
  revert n; induction l as [|x l IH]; intros [|n] Hn; cbn in Hn; try done.
  - injection Hn as ->. cbn. destruct (mu it), (mu it'); lia.
  - change (<[S n := it']> (x :: l)) with (x :: <[n := it']> l). cbn [held].
    specialize (IH n Hn). destruct (mu x); lia.
Qed.

Lemma mem_step_lock w o w' : lock_inv w -> mem_step w o = Ok w' -> lock_inv w'.
Proof.
  unfold lock_inv. intros Hw. destruct o as [k v| |st en|n|n]; cbn.
  - unfold Put, with_lock. case_decide; cbn; [|done].
    destruct (SkipList.Put _ _ _); cbn; [|done]. by intros [= <-].
  - unfold Freeze, with_lock. case_decide; cbn; [|done]. by intros [= <-].
  - unfold ScanRange. destruct (SkipList.ScanRange _ _ _) as [it|]; cbn; [|done].
    intros [= <-]. cbn. rewrite held_app, Hw. cbn. lia.
  - destruct (its w !! n) as [it|] eqn:En; [|done]. intros [= <-]. cbn.
    pose proof (held_insert _ _ _ (mkMI (sli_Close (inner it)) false) En) as H. cbn in H.
    destruct (mu it); cbn; lia.
  - destruct (its w !! n) as [it|] eqn:En; [|done].
    unfold mi_Next. destruct (sli_Next _ _) as [i|]; cbn; [|done]. intros [= <-]. cbn.
    pose proof (held_insert _ _ _ (mkMI i (mu it)) En) as H. cbn in H. destruct (mu it); lia.
Qed.

(** Lock discipline of memtable iterators: over any run of client operations
    that starts with no iterator open, the read lock is held exactly once per
    iterator opened and not yet closed (closing twice releases once); while any is
    open no write or freeze changes the memtable, so an open iterator reads a fixed
    list; and once all are closed writers are not blocked. *)
Theorem memtable_lock_discipline rng i ops w :
  foldl (fun ow o => w ← ow; mem_step w o) (Ok (mkWorld (New rng i) [])) ops = Ok w ->
  readers (wm w) = held (its w) /\
  (forall k v, ((held (its w) > 0)%nat -> Put (wm w) k v = Err Blocked) /\
               (held (its w) = 0%nat -> Put (wm w) k v <> Err Blocked)) /\
  (forall o w', mem_step w o = Ok w' -> (held (its w) > 0)%nat ->
     slist (wm w') = slist (wm w) /\ frozen (wm w') = frozen (wm w)).
Proof.
  intros Hrun. assert (lock_inv w) as Hw.
  { revert Hrun. assert (forall ow, (forall w0, ow = Ok w0 -> lock_inv w0) ->
      foldl (fun ow o => w ← ow; mem_step w o) ow ops = Ok w -> lock_inv w) as Hgen.
    { induction ops as [|o ops IH]; intros ow Hi; cbn; [by apply Hi|].
      apply IH. intros w0 E. destruct ow as [w1|e|]; cbn in E; [|done..].
      eapply mem_step_lock; [by apply Hi|done]. }
    apply Hgen. by intros ? [= <-]. }
  unfold lock_inv in Hw. split; [done|]. split.
  - intros k v. unfold Put, with_lock. split; intros Hh.
    + by rewrite decide_False by lia.
    + rewrite decide_True by lia. by destruct (SkipList.Put _ _ _).
  - intros o w' Hs Hh. destruct o as [k v| |st en|n|n]; cbn in Hs.
    + unfold Put, with_lock in Hs. by rewrite decide_False in Hs by lia.
    + unfold Freeze, with_lock in Hs. by rewrite decide_False in Hs by lia.
    + unfold ScanRange in Hs. destruct (SkipList.ScanRange _ _ _); cbn in Hs; [|done].
      injection Hs as <-. done.
    + destruct (its w !! n) as [it|]; [|done]. injection Hs as <-. cbn. by destruct (mu it).
    + destruct (its w !! n) as [it|]; [|done]. destruct (mi_Next _ _); [|done].
      injection Hs as <-. done.
Qed.

Lemma memtable_lock_discipline_witness :
  exists w, foldl (fun ow o => w ← ow; mem_step w o) (Ok (mkWorld (New demo_coin 1) []))
      [OpPut (MakeInternalKey [Byte.x61] 1) (NewValue (Some [])); OpScan None None; OpNext 0] = Ok w /\
    Put (wm w) (MakeInternalKey [Byte.x61] 2) NewTombstone = Err Blocked.
Proof.
  eexists. split; [reflexivity|].
  eapply (memtable_lock_discipline demo_coin 1
    [OpPut (MakeInternalKey [Byte.x61] 1) (NewValue (Some [])); OpScan None None; OpNext 0]).
  - reflexivity.
  - vm_compute. lia.
Defined.
