(* ===== verification/Iterators.v ===== *)
(** * Iterators over iterators (src/iterator)

    [WriteBufferIterator], [MergeIterator] and [SnapshotIterator], each an
    instance of the [Iterator] interface built from the interface of its
    inputs.  The theorems are stated against [yields]: merging yields the
    sorted union of its inputs, and filtering a sorted stream at a sequence
    number yields the newest visible version of each user key. *)

From Stdlib Require Import ZArith Lia Sorted.
From stdpp Require Import base list option sorting.
From S2P Require Import Prelude GoBytes KV Entries Heap Iter.

(** ** write_buffer.go *)
Record WriteBufferIterator := mkWBI { entries : list entry; pos : nat }.

Definition NewWriteBufferIterator (es : list entry) : WriteBufferIterator := mkWBI es 0.
Definition wbi_Key (it : WriteBufferIterator) : option bytes := fst <$> entries it !! pos it.
Definition wbi_Value (it : WriteBufferIterator) : option (option bytes) :=
  (fun e => iter_value e.2) <$> entries it !! pos it.
Definition wbi_IsValid (it : WriteBufferIterator) : bool := (pos it <? length (entries it))%nat.
Definition wbi_Next (it : WriteBufferIterator) : WriteBufferIterator :=
  if (pos it <? length (entries it))%nat then mkWBI (entries it) (S (pos it)) else it.
Definition wbi_Close (it : WriteBufferIterator) : WriteBufferIterator := mkWBI [] (pos it).

#[global] Instance wbi_iterator {E : Type} : Iterator E WriteBufferIterator := {
  it_Key := wbi_Key;
  it_Value := wbi_Value;
  it_Next := fun it => Some (wbi_Next it);
  it_IsValid := wbi_IsValid;
  it_Err := fun _ => None;
  it_Close := fun it => (wbi_Close it, None)
}.

Lemma wbi_yields_at {E} done es :
  yields (Iterator0 := wbi_iterator (E := E)) (mkWBI (done ++ es) (length done)) (map kvp_of es).
Proof.
  revert done; induction es as [|[k v] es IH]; intros done.
  - split; [|done]. cbn. unfold wbi_IsValid. cbn. rewrite app_nil_r. apply Nat.ltb_irrefl.
  - cbn [map kvp_of fst snd].
    assert ((length done <? length (done ++ (k, v) :: es))%nat = true) as Hlt
      by (apply Nat.ltb_lt; rewrite length_app; cbn; lia).
    split; [cbn; unfold wbi_IsValid; by cbn|]. split; [done|].
    split; [cbn; unfold wbi_Key; cbn; by rewrite list_lookup_middle|].
    split; [cbn; unfold wbi_Value; cbn; by rewrite list_lookup_middle|].
    eexists. split; [done|]. unfold wbi_Next. cbn [entries pos]. rewrite Hlt.
    specialize (IH (done ++ [(k, v)])). rewrite <-app_assoc, length_app in IH. cbn in IH.
    by rewrite Nat.add_1_r in IH.
Qed.

Lemma NewWriteBufferIterator_yields {E} es :
  yields (Iterator0 := wbi_iterator (E := E)) (NewWriteBufferIterator es) (map kvp_of es).
Proof. apply (wbi_yields_at []). Qed.

(** ** Lists of iterators of different types: a sum is an iterator. *)
#[global] Instance sum_iterator {E A B} `{!Iterator E A, !Iterator E B} : Iterator E (A + B) := {
  it_Key := fun s => match s with inl a => it_Key a | inr b => it_Key b end;
  it_Value := fun s => match s with inl a => it_Value a | inr b => it_Value b end;
  it_Next := fun s => match s with inl a => inl <$> it_Next a | inr b => inr <$> it_Next b end;
  it_IsValid := fun s => match s with inl a => it_IsValid a | inr b => it_IsValid b end;
  it_Err := fun s => match s with inl a => it_Err a | inr b => it_Err b end;
  it_Close := fun s => match s with
                       | inl a => let '(a, e) := it_Close a in (inl a, e)
                       | inr b => let '(b, e) := it_Close b in (inr b, e)
                       end
}.

Lemma yields_inl {E A B} `{!Iterator E A, !Iterator E B} (a : A) l :
  yields a l -> yields (I := A + B) (inl a) l.
Proof.
  revert a; induction l as [|[k v] l IH]; intros a; [done|].
  intros (H1 & H2 & H3 & H4 & a' & H5 & H6). do 4 (split; [done|]).
  exists (inl a'). split; [cbn; by rewrite H5|by apply IH].
Qed.
Lemma yields_inr {E A B} `{!Iterator E A, !Iterator E B} (b : B) l :
  yields b l -> yields (I := A + B) (inr b) l.
Proof.
  revert b; induction l as [|[k v] l IH]; intros b; [done|].
  intros (H1 & H2 & H3 & H4 & b' & H5 & H6). do 4 (split; [done|]).
  exists (inr b'). split; [cbn; by rewrite H5|by apply IH].
Qed.

(** ** merge.go *)
Record heapItem := mkItem { hkey : bytes; hidx : nat; hvalid : bool }.
Definition noItem : heapItem := mkItem [] 0 false.

Definition item_less (a b : heapItem) : bool :=
  match bytes_Compare (hkey a) (hkey b) with
  | Lt => true
  | Gt => false
  | Eq => (hidx a <? hidx b)%nat
  end.

Section merge.
Context {E I : Type} `{!Iterator E I}.

Record MergeIterator := mkMerge {
  iters : list I;
  h : list heapItem;
  cur : heapItem;
  merr : option E
}.

(** The loop that fills the heap, from index [i]. *)
Fixpoint initial_items (i : nat) (its : list I) : option (list heapItem) :=
  match its with
  | [] => Some []
  | it :: its =>
      rest ← initial_items (S i) its;
      if it_IsValid it then k ← it_Key it; Some (mkItem k i true :: rest) else Some rest
  end.

Definition merge_advance (m : MergeIterator) : option MergeIterator :=
  match h m with
  | [] => Some (mkMerge (iters m) (h m) noItem (merr m))
  | _ :: _ => r ← Pop item_less (h m); Some (mkMerge (iters m) r.2 r.1 (merr m))
  end.

Definition NewMergeIterator (its : list I) : option MergeIterator :=
  items ← initial_items 0 its;
  merge_advance (mkMerge its (Init item_less items) noItem None).

Definition pushNext (m : MergeIterator) (idx : nat) : option MergeIterator :=
  it ← iters m !! idx;
  it' ← it_Next it;
  let its := <[idx := it']> (iters m) in
  match it_Err it' with
  | Some e => Some (mkMerge its (h m) (cur m) (Some e))
  | None =>
      if it_IsValid it' then
        k ← it_Key it';
        Some (mkMerge its (Push item_less (h m) (mkItem k idx true)) (cur m) (merr m))
      else Some (mkMerge its (h m) (cur m) (merr m))
  end.

Definition merge_Key (m : MergeIterator) : option bytes :=
  it ← iters m !! hidx (cur m); it_Key it.
Definition merge_Value (m : MergeIterator) : option (option bytes) :=
  it ← iters m !! hidx (cur m); it_Value it.
Definition merge_IsValid (m : MergeIterator) : bool :=
  hvalid (cur m) && match merr m with None => true | Some _ => false end.
Definition merge_Next (m : MergeIterator) : option MergeIterator :=
  if merge_IsValid m then
    m ← pushNext m (hidx (cur m));
    match merr m with
    | Some _ => Some m
    | None => merge_advance m
    end
  else Some m.

(** [Close] closes every input and reports the first error. *)
Definition first_err (a b : option E) : option E := match a with Some e => Some e | None => b end.
Fixpoint close_all (its : list I) (acc : option E) : list I * option E :=
  match its with
  | [] => ([], acc)
  | it :: its =>
      let '(it', e) := it_Close it in
      let '(its', acc') := close_all its (first_err acc e) in (it' :: its', acc')
  end.
Definition merge_Close (m : MergeIterator) : MergeIterator * option E :=
  let '(its, e) := close_all (iters m) None in (mkMerge its [] noItem (merr m), e).

#[global] Instance merge_iterator : Iterator E MergeIterator := {
  it_Key := merge_Key;
  it_Value := merge_Value;
  it_Next := merge_Next;
  it_IsValid := merge_IsValid;
  it_Err := merr;
  it_Close := merge_Close
}.
End merge.

(** ** snapshot.go *)
Section snapshot.
Context {E I : Type} `{!Iterator E I}.

Record SnapshotIterator := mkSnapI {
  sinner : I;
  maxSeq : Z;
  lastUserKey : option bytes;
  svalid : bool;
  serr : option E
}.

(** [advance], with fuel for the entries it skips. *)
Fixpoint snap_advance (fuel : nat) (s : SnapshotIterator) : option SnapshotIterator :=
  if it_IsValid (sinner s) then
    match fuel with
    | O => None
    | S fuel =>
        key ← it_Key (sinner s);
        let userKey := UserKey key in
        let seq := SeqNum key in
        let skip := n ← it_Next (sinner s);
                    snap_advance fuel (mkSnapI n (maxSeq s) (lastUserKey s) false (serr s)) in
        if maxSeq s <? seq then skip
        else if match lastUserKey s with
                | Some l => bytes_Equal userKey l
                | None => false
                end then skip
        else Some (mkSnapI (sinner s) (maxSeq s) (reuse_append (lastUserKey s) userKey) true (serr s))
    end
  else Some (mkSnapI (sinner s) (maxSeq s) (lastUserKey s) false
               (match it_Err (sinner s) with Some e => Some e | None => serr s end)).

Definition NewSnapshotIterator (fuel : nat) (inner : I) (q : Z) : option SnapshotIterator :=
  snap_advance fuel (mkSnapI inner q None false None).

Definition snap_IsValid (s : SnapshotIterator) : bool :=
  svalid s && match serr s with None => true | Some _ => false end.

Definition snap_Next (fuel : nat) (s : SnapshotIterator) : option SnapshotIterator :=
  if snap_IsValid s then
    n ← it_Next (sinner s);
    snap_advance fuel (mkSnapI n (maxSeq s) (lastUserKey s) false (serr s))
  else Some s.

Definition snap_Close (s : SnapshotIterator) : SnapshotIterator * option E :=
  let '(i, e) := it_Close (sinner s) in (mkSnapI i (maxSeq s) None false (serr s), e).

#[global] Instance snapshot_iterator (fuel : nat) : Iterator E SnapshotIterator := {
  it_Key := fun s => it_Key (sinner s);
  it_Value := fun s => it_Value (sinner s);
  it_Next := snap_Next fuel;
  it_IsValid := snap_IsValid;
  it_Err := serr;
  it_Close := snap_Close
}.
End snapshot.

(** ** The merge yields the sorted union *)
Lemma item_le x y :
  le item_less x y <-> blt (hkey x) (hkey y) \/ (hkey x = hkey y /\ (hidx x <= hidx y)%nat).
Proof.
  unfold le, item_less. destruct (bytes_Compare (hkey y) (hkey x)) eqn:Ec.
  - apply bytes_Compare_eq in Ec. rewrite Ec.
    destruct (Nat.ltb_spec (hidx y) (hidx x)); split; try done; try lia.
    + intros [H'|?]; [by apply blt_irrefl in H'|lia].
    + auto.
  - split; [done|]. intros [H|[E _]].
    + by apply blt_asym in H.
    + rewrite E in Ec. by apply blt_irrefl in Ec.
  - apply bytes_Compare_Gt in Ec. tauto.
Qed.

Lemma item_less_asym x y : item_less x y = true -> item_less y x = false.
Proof.
  intros H. change (le item_less x y). apply item_le. unfold item_less in H.
  destruct (bytes_Compare (hkey x) (hkey y)) eqn:Ec; [|by left|done].
  apply bytes_Compare_eq in Ec. apply Nat.ltb_lt in H. right. split; [done|lia].
Qed.

Lemma item_le_trans x y z : le item_less x y -> le item_less y z -> le item_less x z.
Proof.
  rewrite !item_le. intros [H1|[E1 H1]] [H2|[E2 H2]].
  - left. by eapply blt_trans.
  - left. by rewrite <-E2.
  - left. by rewrite E1.
  - right. split; [congruence|lia].
Qed.

(** Keys in ascending order, duplicates allowed. *)
Definition kvp_le (a b : kvp) : Prop := ble a.1 b.1.

(** The heap items of the heads of a list of streams. *)
Definition head_item (i : nat) (l : list kvp) : list heapItem :=
  match l with [] => [] | (k, _) :: _ => [mkItem k i true] end.
Fixpoint items (i : nat) (ls : list (list kvp)) : list heapItem :=
  match ls with [] => [] | l :: ls => head_item i l ++ items (S i) ls end.

Lemma items_insert i0 i l ls :
  (i < length ls)%nat ->
  items i0 (<[i := l]> ls) ≡ₚ head_item (i0 + i) l ++ items i0 (<[i := []]> ls).
Proof.
  revert i0 i; induction ls as [|x ls IH]; intros i0 [|i] Hi; cbn in Hi; [lia..| |].
  - cbn. by rewrite Nat.add_0_r.
  - change (<[S i := l]> (x :: ls)) with (x :: <[i := l]> ls).
    change (<[S i := []]> (x :: ls)) with (x :: <[i := []]> ls). cbn [items].
    rewrite (IH (S i0) i) by lia. replace (S i0 + i)%nat with (i0 + S i)%nat by lia.
    rewrite !(app_assoc _ _ (items _ _)). f_equiv. apply Permutation_app_comm.
Qed.

Lemma items_lookup i0 x ls :
  x ∈ items i0 ls ->
  exists v t, ls !! (hidx x - i0)%nat = Some ((hkey x, v) :: t) /\ (i0 <= hidx x)%nat /\ hvalid x = true.
Proof.
  revert i0; induction ls as [|l ls IH]; intros i0; cbn [items]; [by intros ?%elem_of_nil|].
  intros [H|H]%elem_of_app.
  - destruct l as [|[k v] l]; [by apply elem_of_nil in H|]. apply list_elem_of_singleton in H as ->.
    cbn. rewrite Nat.sub_diag. eauto.
  - destruct (IH _ H) as (v & t & Hl & Hi & Hv). exists v, t. split; [|split; [lia|done]].
    replace (hidx x - i0)%nat with (S (hidx x - S i0)) by lia. done.
Qed.

Lemma items_cover i0 ls k v l :
  l ∈ ls -> hd_error l = Some (k, v) -> exists i, mkItem k i true ∈ items i0 ls.
Proof.
  intros Hl Hk. revert i0; induction ls as [|l' ls IH]; intros i0; [by apply elem_of_nil in Hl|].
  apply elem_of_cons in Hl as [->|Hl].
  - destruct l' as [|[k' v'] l']; [done|]. injection Hk as -> ->. exists i0. cbn. by left.
  - destruct (IH Hl (S i0)) as [i Hi]. exists i. cbn. apply elem_of_app. by right.
Qed.

Lemma concat_insert_perm {A} (ls : list (list A)) i x t :
  ls !! i = Some (x :: t) -> concat ls ≡ₚ x :: concat (<[i := t]> ls).
Proof.
  revert i; induction ls as [|l ls IH]; intros [|i] H; cbn in H; [done..| |].
  - injection H as ->. done.
  - change (<[S i := t]> (l :: ls)) with (l :: <[i := t]> ls). cbn [concat].
    rewrite (IH i H). by rewrite Permutation_middle.
Qed.

Section merge_proof.
Context {E I : Type} `{!Iterator E I}.

(** Heap and current item together are the heads of the remaining streams. *)
Record merge_inv (m : MergeIterator (E := E) (I := I)) (ls : list (list kvp)) : Prop := {
  mi_streams : Forall2 yields (iters m) ls;
  mi_items : if hvalid (cur m) then cur m :: h m ≡ₚ items 0 ls else h m = [] /\ items 0 ls = [];
  mi_min : hvalid (cur m) = true -> Forall (le item_less (cur m)) (h m);
  mi_heap : heap_from item_less 0 (length (h m)) (h m);
  mi_err : merr m = None
}.

(** [advance] from a heap that holds all the heads. *)
Lemma merge_advance_inv m ls :
  Forall2 yields (iters m) ls -> h m ≡ₚ items 0 ls ->
  heap_from item_less 0 (length (h m)) (h m) -> merr m = None ->
  exists m', merge_advance m = Some m' /\ merge_inv m' ls.
Proof.
  intros Hs Hi Hh He. unfold merge_advance. destruct (h m) as [|x0 l0] eqn:Eh.
  - eexists. split; [done|]. split; cbn; [done| |done| |done].
    + split; [done|]. by apply Permutation_nil in Hi.
    + intros c Hc. cbn in Hc. lia.
  - destruct (Pop_spec item_less item_less_asym item_le_trans x0 l0 Hh) as (x & l' & -> & Hp & Hh' & Hm).
    cbn. eexists. split; [done|]. split; cbn; [done| |done|done|done].
    assert (hvalid x = true) as ->; [|by rewrite Hp].
    assert (x ∈ items 0 ls) as Hx by (rewrite <-Hi, <-Hp; by left).
    by apply items_lookup in Hx as (? & ? & _ & _ & ?).
Qed.

Lemma initial_items_spec i its ls :
  Forall2 yields its ls -> initial_items i its = Some (items i ls).
Proof.
  intros Hs. revert i. induction Hs as [|it l its ls Hy Hs IH]; intros i; cbn [initial_items items]; [done|].
  rewrite IH. cbn. destruct l as [|[k v] l].
  - destruct Hy as [-> _]. done.
  - destruct Hy as (-> & _ & -> & _). done.
Qed.

Lemma NewMergeIterator_inv its ls :
  Forall2 yields its ls -> exists m, NewMergeIterator its = Some m /\ merge_inv m ls.
Proof.
  intros Hs. unfold NewMergeIterator. rewrite (initial_items_spec 0 its ls Hs). cbn.
  apply merge_advance_inv; cbn; [done|apply Init_perm| |done].
  apply Init_heap; [apply item_less_asym|apply item_le_trans].
Qed.

(** One [Next] on a valid merge consumes the head of the current stream. *)
Lemma merge_Next_inv m ls :
  merge_inv m ls -> hvalid (cur m) = true ->
  exists v t m', ls !! hidx (cur m) = Some ((hkey (cur m), v) :: t) /\
    merge_Key m = Some (hkey (cur m)) /\ merge_Value m = Some v /\
    merge_Next m = Some m' /\ merge_inv m' (<[hidx (cur m) := t]> ls).
Proof.
  intros [Hs Hi Hm Hh He] Hv. rewrite Hv in Hi. set (i := hidx (cur m)) in *.
  assert (cur m ∈ items 0 ls) as Hc by (rewrite <-Hi; by left).
  apply items_lookup in Hc as (v & t & Hl & _ & _). rewrite Nat.sub_0_r in Hl. fold i in Hl.
  destruct (Forall2_lookup_r _ _ _ _ _ Hs Hl) as (it & Hit & Hy).
  destruct Hy as (_ & _ & Hk & Hval & it' & Hn & Hy').
  assert (i < length ls)%nat as Hlen by by eapply lookup_lt_Some.
  assert (Forall2 yields (<[i := it']> (iters m)) (<[i := t]> ls)) as Hs' by by apply Forall2_insert.
  assert (h m ≡ₚ items 0 (<[i := []]> ls)) as Hrest.
  { pose proof (items_insert 0 i ((hkey (cur m), v) :: t) ls Hlen) as H.
    rewrite (list_insert_id _ _ _ Hl), <-Hi in H. cbn in H.
    assert (cur m = mkItem (hkey (cur m)) i true) as Ec by (destruct (cur m); cbn in *; congruence).
    rewrite <-Ec in H. by apply Permutation_cons_inv in H. }
  exists v, t. unfold merge_Key, merge_Value, merge_Next, merge_IsValid. fold i.
  rewrite Hv, He, Hit. cbn [andb mbind option_bind]. unfold pushNext. rewrite Hit. cbn. rewrite Hn. cbn.
  rewrite (yields_err _ _ Hy').
  assert (exists m', merge_advance (mkMerge (<[i := it']> (iters m))
            (match t with [] => h m | (k', _) :: _ => Push item_less (h m) (mkItem k' i true) end)
            (cur m) None) = Some m' /\ merge_inv m' (<[i := t]> ls)) as (m' & Hm' & Hinv').
  { apply merge_advance_inv; cbn; [done| | |done].
    - rewrite (items_insert 0 i t ls Hlen), <-Hrest. destruct t as [|[k' v'] t]; cbn; [done|].
      apply Push_perm.
    - destruct t as [|[k' v'] t]; [done|].
      apply Push_heap; [apply item_less_asym|apply item_le_trans|done]. }
  exists m'. do 3 (split; [done|]). split; [|done].
  destruct t as [|[k' v'] t].
  - destruct Hy' as [-> _]. cbn. by rewrite He.
  - destruct Hy' as (-> & _ & -> & _). cbn. by rewrite He.
Qed.

Lemma merge_yields_inv n m ls :
  (length (concat ls) <= n)%nat -> Forall (StronglySorted kvp_le) ls -> merge_inv m ls ->
  exists l, yields m l /\ l ≡ₚ concat ls /\ StronglySorted kvp_le l.
Proof.
  revert m ls; induction n as [|n IH]; intros m ls Hn Hso Hinv;
    destruct (hvalid (cur m)) eqn:Hv.
  1: { exfalso. destruct (merge_Next_inv m ls Hinv Hv) as (v & t & m' & Hl & _).
       apply concat_insert_perm, Permutation_length in Hl. cbn in Hl. lia. }
  2: { destruct (merge_Next_inv m ls Hinv Hv) as (v & t & m' & Hl & Hk & Hval & Hnx & Hinv').
       pose proof (concat_insert_perm _ _ _ _ Hl) as Hp.
       destruct (IH m' (<[hidx (cur m) := t]> ls)) as (l & Hy & Hpl & Hsl); [..|done|].
       { apply Permutation_length in Hp. cbn in Hp. lia. }
       { apply Forall_insert; [done|]. pose proof (Forall_lookup_1 _ _ _ _ Hso Hl) as H.
         by apply StronglySorted_inv in H as [? _]. }
       exists ((hkey (cur m), v) :: l). split; [|split].
       - split; [unfold it_IsValid; cbn; unfold merge_IsValid; by rewrite Hv, (mi_err _ _ Hinv)|].
         split; [apply (mi_err _ _ Hinv)|]. do 2 (split; [done|]). eauto.
       - by rewrite Hp, Hpl.
       - constructor; [done|]. apply Forall_forall. intros e He. rewrite Hpl in He.
         assert (e ∈ concat ls) as He' by (rewrite Hp; by right).
         apply list_elem_of_In, in_concat in He' as (l' & Hl' & Hel').
         apply list_elem_of_In in Hl', Hel'.
         destruct l' as [|[k' v'] l']; [by apply elem_of_nil in Hel'|].
         destruct (items_cover 0 ls k' v' _ Hl' eq_refl) as [j Hj].
         pose proof (mi_items _ _ Hinv) as Hit. rewrite Hv in Hit. rewrite <-Hit in Hj.
         assert (ble (hkey (cur m)) k') as Hle.
         { apply elem_of_cons in Hj as [Ej|Hj]; [rewrite <-Ej; apply ble_refl|].
           pose proof (mi_min _ _ Hinv Hv) as Hmin. rewrite Forall_forall in Hmin.
           apply Hmin, item_le in Hj as [Hj|[Hj _]]; cbn in Hj; [by apply blt_ble|].
           rewrite Hj. apply ble_refl. }
         rewrite Forall_forall in Hso. apply Hso in Hl'.
         apply StronglySorted_inv in Hl' as [_ Hf]. rewrite Forall_forall in Hf.
         apply elem_of_cons in Hel' as [->|Hel']; [done|].
         eapply ble_trans; [exact Hle|]. by apply Hf in Hel'. }
  all: pose proof (mi_items _ _ Hinv) as Hit; rewrite Hv in Hit; destruct Hit as [_ Hit].
  all: assert (concat ls = []) as ->
    by (apply elem_of_nil_inv; intros [k v] Hx;
        apply list_elem_of_In, in_concat in Hx as (l' & Hl' & Hx);
        apply list_elem_of_In in Hl', Hx; destruct l' as [|[k' v'] l']; [by apply elem_of_nil in Hx|];
        destruct (items_cover 0 ls k' v' _ Hl' eq_refl) as [j Hj]; rewrite Hit in Hj;
        by apply elem_of_nil in Hj).
  all: exists []; split; [|split; [done|constructor]]; split; [|apply (mi_err _ _ Hinv)].
  all: unfold it_IsValid; cbn; unfold merge_IsValid; by rewrite Hv.
Qed.

Lemma merge_yields its ls :
  Forall2 yields its ls -> Forall (StronglySorted kvp_le) ls ->
  exists m l, NewMergeIterator its = Some m /\ yields m l /\ l ≡ₚ concat ls /\ StronglySorted kvp_le l.
Proof.
  intros Hs Hso. destruct (NewMergeIterator_inv its ls Hs) as (m & Hm & Hinv).
  destruct (merge_yields_inv _ m ls (le_n _) Hso Hinv) as (l & H). eauto.
Qed.
End merge_proof.

(** ** Filtering at a sequence number *)

(** What [SnapshotIterator] keeps of a stream. *)
Fixpoint snap (last : option bytes) (q : Z) (l : list kvp) : list kvp :=
  match l with
  | [] => []
  | (k, v) :: l =>
      if q <? SeqNum k then snap last q l
      else if match last with Some u => bytes_Equal (UserKey k) u | None => false end
      then snap last q l
      else (k, v) :: snap (reuse_append last (UserKey k)) q l
  end.

Section snapshot_proof.
Context {E I : Type} `{!Iterator E I}.

Lemma snap_advance_yields fuel it l last q :
  yields it l -> (length l <= fuel)%nat ->
  exists s, snap_advance fuel (mkSnapI it q last false None) = Some s /\
    yields (Iterator0 := snapshot_iterator (E := E) fuel) s (snap last q l).
Proof.
  intros Hy Hf.
  cut (forall fuel0, (length l <= fuel0)%nat -> exists s,
         snap_advance fuel0 (mkSnapI it q last false (@None E)) = Some s /\
         yields (Iterator0 := snapshot_iterator (E := E) fuel) s (snap last q l)); [eauto|].
  revert it last Hy; induction l as [|[k v] l IH]; intros it last Hy fuel0 Hf0.
  - destruct Hy as [Hv He]. destruct fuel0; cbn [snap_advance sinner]; rewrite Hv; cbn; rewrite He; eauto.
  - destruct Hy as (Hv & He & Hk & Hval & it' & Hn & Hy). destruct fuel0 as [|fuel0]; [cbn in Hf0; lia|].
    cbn in Hf, Hf0.
    cbn [snap_advance sinner maxSeq lastUserKey serr]. rewrite Hv, Hk. cbn [mbind option_bind]. rewrite Hn.
    cbn [mbind option_bind snap].
    destruct (q <? SeqNum k); [apply IH; (done || lia)|].
    destruct (match last with Some _ => _ | None => _ end); [apply IH; (done || lia)|].
    eexists. split; [done|].
    destruct (IH ltac:(lia) it' (reuse_append last (UserKey k)) Hy fuel ltac:(lia)) as (s' & Hs' & Hy').
    do 4 (split; [done|]). exists s'. split; [|done].
    cbn. unfold snap_Next, snap_IsValid. cbn. rewrite Hn. cbn. done.
Qed.

Lemma NewSnapshotIterator_yields fuel it l q :
  yields it l -> (length l <= fuel)%nat ->
  exists s, NewSnapshotIterator fuel it q = Some s /\
    yields (Iterator0 := snapshot_iterator (E := E) fuel) s (snap None q l).
Proof. apply snap_advance_yields. Qed.
End snapshot_proof.

(** Pairwise prefix-compatible user keys. *)
Definition keys_compat (ks : list bytes) : Prop :=
  Forall (fun a => Forall (fun b => prefix_ok (UserKey a) (UserKey b)) ks) ks.
#[global] Instance keys_compat_dec ks : Decision (keys_compat ks).
Proof. unfold keys_compat. apply _. Defined.

Lemma keys_compat_spec ks :
  keys_compat ks <-> forall a b, a ∈ ks -> b ∈ ks -> prefix_ok (UserKey a) (UserKey b).
Proof. unfold keys_compat. rewrite Forall_forall. setoid_rewrite Forall_forall. naive_solver. Qed.

Definition newest_visible (q : Z) (l : list kvp) (e : kvp) : Prop :=
  e ∈ l /\ SeqNum e.1 <= q /\
  forall e', e' ∈ l -> UserKey e'.1 = UserKey e.1 -> SeqNum e'.1 <= q -> SeqNum e'.1 <= SeqNum e.1.

Lemma blt_internal k1 k2 :
  8 <= len k1 -> 8 <= len k2 -> prefix_ok (UserKey k1) (UserKey k2) ->
  blt k1 k2 <-> blt (UserKey k1) (UserKey k2) \/ (UserKey k1 = UserKey k2 /\ SeqNum k2 < SeqNum k1).
Proof.
  intros H1 H2 Hp. destruct (internal_key_decomp k1 H1) as [E1 S1].
  destruct (internal_key_decomp k2 H2) as [E2 S2]. unfold blt at 1. rewrite E1 at 1. rewrite E2 at 1.
  rewrite compare_internal by done. unfold ikey_cmp, blt.
  destruct (bytes_Compare (UserKey k1) (UserKey k2)) eqn:Ec.
  - apply bytes_Compare_eq in Ec. change (SeqNum k2 < SeqNum k1 <-> Eq = Lt \/ UserKey k1 = UserKey k2 /\ SeqNum k2 < SeqNum k1).
    split; [auto|]. intros [?|[_ ?]]; done.
  - tauto.
  - split; [done|]. intros [?|[E _]]; [done|]. rewrite E, bytes_Compare_refl in Ec. done.
Qed.

Lemma snap_spec q l last :
  kvp_sorted l -> Forall (fun e => 8 <= len e.1) l -> keys_compat (map fst l) ->
  (forall e, e ∈ l -> UserKey e.1 <> []) ->
  (forall u e, last = Some u -> e ∈ l -> ble u (UserKey e.1)) ->
  forall e, e ∈ snap last q l <-> newest_visible q l e /\ Some (UserKey e.1) <> last.
Proof.
  revert last; induction l as [|[k v] l IH]; intros last Hs Hik Hc Hne Hlast e.
  { cbn. unfold newest_visible. rewrite elem_of_nil. tauto. }
  apply StronglySorted_inv in Hs as [Hs Hx]. apply Forall_cons in Hik as [Hk Hik].
  rewrite Forall_forall in Hx. pose proof Hik as Hik'. rewrite Forall_forall in Hik'.
  assert (forall e', e' ∈ l -> prefix_ok (UserKey k) (UserKey e'.1)) as Hpc.
  { intros e' He'. rewrite keys_compat_spec in Hc.
    apply Hc; cbn; [by left|right]. apply list_elem_of_fmap. eauto. }
  assert (forall e', e' ∈ l -> blt (UserKey k) (UserKey e'.1) \/
            (UserKey k = UserKey e'.1 /\ SeqNum e'.1 < SeqNum k)) as Hord.
  { intros e' He'. apply (blt_internal k e'.1 Hk (Hik' _ He') (Hpc _ He')). by apply (Hx e'). }
  assert (forall last', (forall u e, last' = Some u -> e ∈ l -> ble u (UserKey e.1)) ->
            e ∈ snap last' q l <-> newest_visible q l e /\ Some (UserKey e.1) <> last') as IH'.
  { intros last' Hl'. apply IH; [done|done| |intros; apply Hne; by right|done].
    rewrite keys_compat_spec in Hc |- *. intros a b Ha Hb. apply Hc; cbn; by right. }
  cbn [snap]. unfold newest_visible in *. setoid_rewrite elem_of_cons.
  destruct (Z.ltb_spec q (SeqNum k)) as [Hq|Hq].
  - rewrite IH' by (intros u e' Eu He'; apply (Hlast u); [done|by right]).
    split.
    + intros [(Hin & Hv & Hm) Hl]. split; [|done]. split; [by right|]. split; [done|].
      intros e' [->|He']; [cbn; lia|by apply Hm].
    + intros [([->|Hin] & Hv & Hm) Hl]; [cbn in Hv; lia|]. split; [|done]. split; [done|].
      split; [done|]. intros e' He'. apply Hm. by right.
  - destruct (match last with Some u => bytes_Equal (UserKey k) u | None => false end) eqn:Eb.
    + destruct last as [u|]; [|done]. unfold bytes_Equal in Eb. apply bool_decide_eq_true in Eb. subst u.
      rewrite IH' by (intros u e' Eu He'; apply (Hlast u); [done|by right]). split.
      * intros [(Hin & Hv & Hm) Hl]. split; [|done]. split; [by right|]. split; [done|].
        intros e' [->|He'] Eu; [|by apply Hm]. cbn in Eu. congruence.
      * intros [([->|Hin] & Hv & Hm) Hl]; [cbn in Hl; congruence|]. split; [|done]. split; [done|].
        split; [done|]. intros e' He'. apply Hm. by right.
    + assert (reuse_append last (UserKey k) = Some (UserKey k)) as ->.
      { unfold reuse_append. destruct last; [done|]. pose proof (Hne (k, v) ltac:(by left)) as Hk0. cbn in Hk0.
        by destruct (UserKey k). }
      rewrite elem_of_cons, IH'.
      2: { intros u e' [= <-] He'. destruct (Hord e' He') as [H|[H _]]; [by apply blt_ble|].
           rewrite H. apply ble_refl. }
      assert (Some (UserKey k) <> last) as Hkl.
      { intros <-. unfold bytes_Equal in Eb. by apply bool_decide_eq_false in Eb. }
      assert (forall e', e' ∈ l -> UserKey e'.1 <> UserKey k -> Some (UserKey e'.1) <> last) as Hrest.
      { intros e' He' Hd <-. destruct (Hord e' He') as [H|[H _]]; [|congruence].
        pose proof (Hlast _ (k, v) eq_refl ltac:(by left)) as Hb. cbn in Hb.
        apply ble_not_blt in Hb. done. }
      split.
      * intros [->|[(Hin & Hv & Hm) Hl]].
        -- split; [|done]. split; [by left|]. split; [done|].
           intros e' [->|He'] Eu Hv; [done|]. cbn in *. destruct (Hord e' He') as [H|[_ H]]; [|lia].
           rewrite Eu in H. by apply blt_irrefl in H.
        -- split; [|apply Hrest; [done|congruence]]. split; [by right|]. split; [done|].
           intros e' [->|He'] Eu Hve; [|by apply Hm]. cbn in Eu. congruence.
      * intros [([->|Hin] & Hv & Hm) Hl]; [by left|]. right.
        split; [split; [done|]; split; [done|]; intros e' He'; apply Hm; by right|].
        intros [= Eu]. pose proof (Hm (k, v) ltac:(by left) ltac:(done) Hq) as Hle. cbn in Hle.
        destruct (Hord e Hin) as [H|[_ H]]; [|lia]. rewrite Eu in H. by apply blt_irrefl in H.
Qed.

Lemma snap_sublist q l last : snap last q l `sublist_of` l.
Proof.
  revert last; induction l as [|[k v] l IH]; intros last; cbn [snap]; [done|].
  destruct (_ <? _); [by apply sublist_cons|]. destruct (match last with Some _ => _ | _ => _ end).
  - by apply sublist_cons.
  - by apply sublist_skip.
Qed.

Lemma sorted_strict l : StronglySorted kvp_le l -> NoDup (map fst l) -> kvp_sorted l.
Proof.
  induction 1 as [|e l Hs IH Hx]; intros Hnd; constructor; cbn in Hnd; apply NoDup_cons in Hnd as [Hn Hnd].
  - by apply IH.
  - rewrite Forall_forall in Hx |- *. intros e' He'. unfold kvp_lt.
    apply Hx in He' as Hle. apply ble_iff in Hle as [?|Eq]; [done|].
    destruct Hn. rewrite Eq. apply list_elem_of_fmap. eauto.
Qed.

Lemma kvp_sorted_le l : kvp_sorted l -> StronglySorted kvp_le l.
Proof.
  induction 1 as [|e l Hs IH Hx]; constructor; [done|].
  apply (Forall_impl _ _ _ Hx). intros. by apply blt_ble.
Qed.

(** ** Claims *)

(** The merge iterator emits the sorted union of its inputs: if every input
    yields a key-sorted stream without error, then building the merge does not
    panic and the merge yields, without error, all entries of all inputs (a
    permutation of their concatenation, so nothing lost and nothing duplicated) in
    ascending key order. *)
Theorem merge_sorted_union {E I : Type} `{!Iterator E I} (its : list I) (ls : list (list kvp)) :
  Forall2 yields its ls -> Forall (StronglySorted kvp_le) ls ->
  exists m l, NewMergeIterator its = Some m /\ yields m l /\ l ≡ₚ concat ls /\ StronglySorted kvp_le l.
Proof. apply merge_yields. Qed.

Definition demo_mem : list entry :=
  [(MakeInternalKey [Byte.x61] 5, NewTombstone); (MakeInternalKey [Byte.x62] 4, NewValue (Some [Byte.x31]))].
Definition demo_sst : list entry :=
  [(MakeInternalKey [Byte.x61] 2, NewValue (Some [])); (MakeInternalKey [Byte.x63] 1, NewValue (Some [Byte.x32]))].

Lemma demo_sorted : Forall (StronglySorted kvp_le) [map kvp_of demo_mem; map kvp_of demo_sst].
Proof. repeat constructor; vm_compute; discriminate. Qed.

Lemma merge_sorted_union_witness :
  exists m l, NewMergeIterator (E := unit) [NewWriteBufferIterator demo_mem; NewWriteBufferIterator demo_sst] = Some m /\
    yields m l /\ l ≡ₚ concat [map kvp_of demo_mem; map kvp_of demo_sst] /\ StronglySorted kvp_le l.
Proof.
  apply merge_sorted_union; [|apply demo_sorted].
  constructor; [apply NewWriteBufferIterator_yields|].
  constructor; [apply NewWriteBufferIterator_yields|constructor].
Defined.

(** The snapshot iterator implements snapshot reads over a whole range: on a
    strictly sorted stream of internal keys with non-empty, pairwise
    prefix-compatible user keys it terminates, and yields in key order exactly the
    entries that are the newest version of their user key with sequence number at
    most [q]; tombstones are emitted like any other version. *)
Theorem snapshot_newest_versions {E I : Type} `{!Iterator E I} fuel (it : I) l q :
  yields it l -> (length l <= fuel)%nat ->
  kvp_sorted l -> Forall (fun e => 8 <= len e.1) l -> keys_compat (map fst l) ->
  (forall e, e ∈ l -> UserKey e.1 <> []) ->
  exists s out, NewSnapshotIterator (E := E) fuel it q = Some s /\
    yields (Iterator0 := snapshot_iterator fuel) s out /\ out `sublist_of` l /\
    forall e, e ∈ out <-> newest_visible q l e.
Proof.
  intros Hy Hf Hs Hik Hc Hne.
  destruct (NewSnapshotIterator_yields fuel it l q Hy Hf) as (s & Hn & Hys).
  exists s, (snap None q l). split; [done|]. split; [done|]. split; [apply snap_sublist|].
  intros e. rewrite snap_spec by done. split; [tauto|]. done.
Qed.

Lemma snapshot_newest_versions_witness :
  exists s out, NewSnapshotIterator (E := unit) 5 (NewWriteBufferIterator demo_mem) 4 = Some s /\
    yields (Iterator0 := snapshot_iterator 5) s out /\ out `sublist_of` map kvp_of demo_mem /\
    forall e, e ∈ out <-> newest_visible 4 (map kvp_of demo_mem) e.
Proof.
  apply (snapshot_newest_versions 5 (NewWriteBufferIterator demo_mem) (map kvp_of demo_mem) 4).
  - apply NewWriteBufferIterator_yields.
  - vm_compute. lia.
  - cbn [map demo_mem]. repeat constructor.
  - by_decide.
  - by_decide.
  - apply Forall_forall. by_decide.
Defined.

(** An input that failed before its first entry is dropped silently: if an
    input is not valid and carries an error when the merge is built (a corrupt
    first block), the merge neither reports that error nor differs from the merge
    without that input's entries. *)
Theorem merge_drops_initial_error {E I : Type} `{!Iterator E I} (its : list I) (bad : I) e ls :
  it_IsValid bad = false -> it_Err bad = Some e ->
  Forall2 yields its ls -> Forall (StronglySorted kvp_le) ls ->
  exists m m', NewMergeIterator (its ++ [bad]) = Some m /\ it_Err m = None /\
    NewMergeIterator its = Some m' /\ h m = h m' /\ cur m = cur m' /\ it_IsValid m = it_IsValid m'.
Proof.
  intros Hv He Hs Hso. destruct (NewMergeIterator_inv its ls Hs) as (m' & Hm' & Hinv').
  unfold NewMergeIterator in *. rewrite (initial_items_spec 0 its ls Hs) in *. cbn in *.
  assert (forall i, initial_items i (its ++ [bad]) = Some (items i ls)) as Hb.
  { clear -Hs Hv. induction Hs as [|it l its ls Hy Hs IH]; intros i; cbn [app initial_items items].
    - cbn. by rewrite Hv.
    - rewrite IH. cbn. destruct l as [|[k v] l].
      + destruct Hy as [-> _]. done.
      + destruct Hy as (-> & _ & -> & _). done. }
  rewrite Hb. cbn. unfold merge_advance in *. cbn in *.
  destruct (Init item_less (items 0 ls)) as [|x0 l0].
  - injection Hm' as <-. eexists _, _. cbn. repeat (split; [done|]). done.
  - destruct (Pop _ _) as [[x l']|]; [|done]. cbn in *. injection Hm' as <-.
    eexists _, _. cbn. repeat (split; [done|]). done.
Qed.
