(* ===== verification/Block.v ===== *)
(** * Data blocks (src/sstable/block.go)

    The block builder and the decoder, byte for byte.  [blk_rep b es] is
    what the readers rely on: entry [i] of the decoded block is the [i]-th
    of [es].  A block built from sorted entries decodes to exactly those
    entries, and the binary searches over it are the list lookups of
    [Entries]. *)

From Stdlib Require Import ZArith Lia Sorted.
From stdpp Require Import base list option sorting.
From S2P Require Import Prelude GoBytes KV Entries.

Definition blockKeyLenSize : Z := 2.
Definition blockValueLenSize : Z := 2.
Definition blockFlagSize : Z := 1.
Definition blockEntryHeader : Z := blockKeyLenSize + blockValueLenSize + blockFlagSize.
Definition blockOffsetSize : Z := 2.
Definition blockCountSize : Z := 2.
Definition maxKeyLen : Z := 2^16 - 1.
Definition maxValueLen : Z := 2^16 - 1.
Definition maxBlockEntries : Z := 2^16 - 1.
Definition maxBlockOffset : Z := 2^16 - 1.
Definition blockFlagPut : byte := Byte.x00.
Definition blockFlagTombstone : byte := Byte.x01.

(** The errors of the whole package. *)
Inductive SstErr :=
| ErrCorruptBlock | ErrKeyTooLarge | ErrValueTooLarge | ErrBlockEntryLimit
| ErrInvalidMagic | ErrInvalidChecksum | ErrInvalidVersion | ErrEmptySSTable | ErrCorruptIndex
| ErrNotSorted | ErrFinished | ErrBlockTooLarge | ErrFooterTooShort | ErrPastFileEnd
| ErrBlockIndex | ErrOpen | ErrFileTooSmall.
#[global] Instance SstErr_eq_dec : EqDecision SstErr.
Proof. solve_decision. Defined.

(** ** BlockBuilder *)
Record BlockBuilder := mkBB {
  data : bytes;
  offsets : list Z;
  bsize : Z;
  lastKey : option bytes
}.

Definition NewBlockBuilder (blockSize : Z) : BlockBuilder := mkBB [] [] blockSize None.

(** The bytes [Add] appends for one entry. *)
Definition entry_bytes (key : bytes) (value : Value) : bytes :=
  put_le 2 (len key)
  ++ put_le 2 (if Tombstone value then 0 else len (sl (Data value)))
  ++ (if Tombstone value then blockFlagTombstone else blockFlagPut)
  :: key ++ (if Tombstone value then [] else sl (Data value)).

(** [Add]: the flag says whether the entry was accepted. *)
Definition BlockBuilder_Add (b : BlockBuilder) (key : bytes) (value : Value)
  : outcome SstErr (BlockBuilder * bool) :=
  if maxKeyLen <? len key then Err ErrKeyTooLarge else
  if negb (Tombstone value) && (maxValueLen <? len (sl (Data value))) then Err ErrValueTooLarge else
  if maxBlockEntries <=? len (offsets b) then Err ErrBlockEntryLimit else
  if (0 <? len (sl (lastKey b))) && bleb key (sl (lastKey b)) then Err ErrCorruptBlock else
  let entrySize := blockEntryHeader + len key
                   + (if Tombstone value then 0 else len (sl (Data value))) in
  let newTotal := len (data b) + entrySize + (len (offsets b) + 1) * blockOffsetSize + blockCountSize in
  if (0 <? len (offsets b)) && (bsize b <? newTotal) then Ok (b, false) else
  if maxBlockOffset <? len (data b) then Err ErrCorruptBlock else
  Ok (mkBB (data b ++ entry_bytes key value) (offsets b ++ [u16 (len (data b))]) (bsize b)
        (reuse_append (lastKey b) key), true).

Definition IsEmpty (b : BlockBuilder) : bool := len (offsets b) =? 0.

Definition Build (b : BlockBuilder) : bytes :=
  data b ++ concat (map (put_le 2) (offsets b)) ++ put_le 2 (u16 (len (offsets b))).

(** [Reset] keeps a nil key nil and empties the others. *)
Definition Reset (b : BlockBuilder) : BlockBuilder :=
  mkBB [] [] (bsize b) (match lastKey b with None => None | Some _ => Some [] end).

Definition BlockBuilder_LastKey (b : BlockBuilder) : option bytes := lastKey b.

(** ** Block *)
Record Block := mkBlock {
  bdata : bytes;
  boffsets : list Z;
  numEntries : Z;
  entryRegionEnd : Z
}.

(** The offset loop of [DecodeBlock], entries [i .. i+k-1]. *)
Fixpoint decodeOffsets (k : nat) (d : bytes) (offsetStart regionEnd i : Z) (prev : option Z)
  : outcome SstErr (list Z) :=
  match k with
  | O => Ok []
  | S k =>
      t ← slice_from d (offsetStart + i * blockOffsetSize);
      offset ← le_Uint16 t;
      if regionEnd <=? offset then Err ErrCorruptBlock else
      if match prev with Some p => offset <=? p | None => false end then Err ErrCorruptBlock else
      rest ← decodeOffsets k d offsetStart regionEnd (i + 1) (Some offset);
      Ok (offset :: rest)
  end.

Definition DecodeBlock (d : bytes) : outcome SstErr Block :=
  if len d <? blockCountSize then Err ErrCorruptBlock else
  t ← slice_from d (len d - blockCountSize);
  n ← le_Uint16 t;
  if n =? 0 then Err ErrCorruptBlock else
  let offsetTableSize := n * blockOffsetSize + blockCountSize in
  if len d <? offsetTableSize then Err ErrCorruptBlock else
  let regionEnd := len d - offsetTableSize in
  offs ← decodeOffsets (Z.to_nat n) d regionEnd regionEnd 0 None;
  Ok (mkBlock d offs n regionEnd).

Definition readEntry (b : Block) (idx : Z) : outcome SstErr (bytes * Value) :=
  if (idx <? 0) || (numEntries b <=? idx) then Err ErrCorruptBlock else
  offset ← index (boffsets b) idx;
  if entryRegionEnd b <? offset + blockEntryHeader then Err ErrCorruptBlock else
  t ← slice_from (bdata b) offset; keyLen ← le_Uint16 t;
  let offset := offset + blockKeyLenSize in
  t ← slice_from (bdata b) offset; valueLen ← le_Uint16 t;
  let offset := offset + blockValueLenSize in
  flag ← index (bdata b) offset;
  let offset := offset + blockFlagSize in
  if entryRegionEnd b <? offset + keyLen then Err ErrCorruptBlock else
  key ← slice (bdata b) offset (offset + keyLen);
  let offset := offset + keyLen in
  if decide (flag = blockFlagPut) then
    if entryRegionEnd b <? offset + valueLen then Err ErrCorruptBlock else
    v ← slice (bdata b) offset (offset + valueLen);
    Ok (key, NewValue (Some v))
  else if decide (flag = blockFlagTombstone) then
    if negb (valueLen =? 0) then Err ErrCorruptBlock else Ok (key, NewTombstone)
  else Err ErrCorruptBlock.

(** The binary search both lookups share: the first entry not below [target].
    The interval halves, so [numEntries] iterations are enough. *)
Fixpoint searchLoop (fuel : nat) (b : Block) (target : bytes) (low high : Z) : outcome SstErr Z :=
  match fuel with
  | O => Ok low
  | S fuel =>
      if low <? high then
        let mid := low + (high - low) / 2 in
        e ← readEntry b mid;
        if bltb e.1 target then searchLoop fuel b target (mid + 1) high
        else searchLoop fuel b target low mid
      else Ok low
  end.

Definition search (b : Block) (target : bytes) : outcome SstErr Z :=
  searchLoop (S (Z.to_nat (numEntries b))) b target 0 (numEntries b).

Definition Block_Get (b : Block) (userKey : bytes) : outcome SstErr (option Value) :=
  low ← search b (MakeSearchKey userKey);
  if numEntries b <=? low then Ok None else
  e ← readEntry b low;
  Ok (if bytes_Equal (UserKey e.1) userKey then Some e.2 else None).

(** The version walk of [GetAt] from index [i]. *)
Fixpoint walkLoop (fuel : nat) (b : Block) (userKey : bytes) (maxSeq i : Z)
  : outcome SstErr (option Value) :=
  match fuel with
  | O => Ok None
  | S fuel =>
      if i <? numEntries b then
        e ← readEntry b i;
        if negb (bytes_Equal (UserKey e.1) userKey) then Ok None
        else if SeqNum e.1 <=? maxSeq then Ok (Some e.2)
        else walkLoop fuel b userKey maxSeq (i + 1)
      else Ok None
  end.

Definition Block_GetAt (b : Block) (userKey : bytes) (maxSeq : Z) : outcome SstErr (option Value) :=
  low ← search b (MakeSearchKey userKey);
  walkLoop (S (Z.to_nat (numEntries b))) b userKey maxSeq low.

Definition Block_FirstKey (b : Block) : outcome SstErr bytes := e ← readEntry b 0; Ok e.1.
Definition Block_LastKey (b : Block) : outcome SstErr bytes :=
  e ← readEntry b (numEntries b - 1); Ok e.1.

(** ** The contract of a decoded block *)
Record blk_rep (b : Block) (es : list entry) : Prop := {
  blk_count : numEntries b = len es;
  blk_read : forall i e, es !! i = Some e -> readEntry b (Z.of_nat i) = Ok e
}.

Section lookup.
Context (b : Block) (es : list entry) (Hb : blk_rep b es) (Hs : ksorted es).

Lemma read_at i : 0 <= i < len es -> exists e, es !! Z.to_nat i = Some e /\ readEntry b i = Ok e.
Proof.
  intros Hi. destruct (lookup_lt_is_Some_2 es (Z.to_nat i)) as [e He]; [unfold len in Hi; lia|].
  exists e. split; [done|]. rewrite <-(Z2Nat.id i) by lia. by apply (blk_read _ _ Hb).
Qed.

(** The number of entries below [t]. *)
Definition below (t : bytes) : Z := len es - len (seek t es).

Lemma below_split t :
  exists l, es = l ++ seek t es /\ len l = below t /\ Forall (fun e => blt e.1 t) l.
Proof.
  destruct (seek_split t es) as (l & El & Hl). exists l. split; [done|]. split; [|done].
  unfold below. rewrite El at 1. len_lia.
Qed.

Lemma below_lookup t i e : es !! i = Some e -> bltb e.1 t = (Z.of_nat i <? below t).
Proof.
  intros Hi. destruct (below_split t) as (l & El & Hlen & Hf).
  destruct (Z.ltb_spec (Z.of_nat i) (below t)) as [H|H].
  - apply bltb_true. rewrite El, lookup_app_l in Hi by (unfold len in Hlen; lia).
    by eapply Forall_lookup_1 in Hf.
  - apply bltb_false. apply (seek_not_below t es e Hs).
    rewrite El, lookup_app_r in Hi by (unfold len in Hlen; lia). by eapply list_elem_of_lookup_2.
Qed.

Lemma searchLoop_spec t fuel low high :
  0 <= low <= below t -> below t <= high <= len es -> (Z.to_nat (high - low) < fuel)%nat ->
  searchLoop fuel b t low high = Ok (below t).
Proof.
  revert low high; induction fuel as [|fuel IH]; intros low high Hl Hh Hf; [lia|].
  cbn [searchLoop]. destruct (Z.ltb_spec low high) as [H|H]; [|f_equal; lia].
  set (mid := low + (high - low) / 2).
  assert (low <= mid < high) as Hm by (unfold mid; div_lia).
  destruct (read_at mid) as (e & He & ->); [lia|]. cbn [mbind outcome_bind].
  rewrite (below_lookup t _ _ He), Z2Nat.id by lia.
  destruct (Z.ltb_spec mid (below t)); apply IH; lia.
Qed.

Lemma search_spec t : search b t = Ok (below t).
Proof.
  unfold search. rewrite (blk_count _ _ Hb). destruct (below_split t) as (l & El & Hlen & _).
  apply searchLoop_spec; unfold below in *; len_lia.
Qed.

Lemma walkLoop_spec u q fuel i :
  (length es < fuel + i)%nat ->
  walkLoop fuel b u q (Z.of_nat i) = Ok (walk u q (drop i es)).
Proof.
  revert i; induction fuel as [|fuel IH]; intros i Hf.
  { by rewrite drop_ge by lia. }
  cbn [walkLoop]. rewrite (blk_count _ _ Hb).
  destruct (Z.ltb_spec (Z.of_nat i) (len es)) as [H|H]; unfold len in H.
  - destruct (lookup_lt_is_Some_2 es i ltac:(lia)) as [[k v] He].
    rewrite (blk_read _ _ Hb _ _ He), (drop_S _ _ _ He). cbn [mbind outcome_bind walk fst snd].
    destruct (bytes_Equal _ _); cbn [negb]; [|done]. destruct (_ <=? _); [done|].
    replace (Z.of_nat i + 1) with (Z.of_nat (S i)) by lia. apply IH. lia.
  - by rewrite drop_ge by lia.
Qed.

Lemma drop_below t : drop (Z.to_nat (below t)) es = seek t es.
Proof.
  destruct (below_split t) as (l & El & Hlen & _). rewrite El at 1. rewrite <-Hlen, len_to_nat.
  apply drop_app_length.
Qed.

Lemma Block_GetAt_spec u q : Block_GetAt b u q = Ok (seek_getAt es u q).
Proof.
  unfold Block_GetAt, seek_getAt. rewrite search_spec. cbn [mbind outcome_bind].
  destruct (below_split (MakeSearchKey u)) as (l & El & Hlen & _).
  rewrite <-(Z2Nat.id (below _)) by len_lia. rewrite walkLoop_spec, drop_below; [done|].
  rewrite (blk_count _ _ Hb). unfold len. lia.
Qed.

Lemma Block_Get_spec u :
  Block_Get b u = Ok (match seek (MakeSearchKey u) es with
                      | e :: _ => if bytes_Equal (UserKey e.1) u then Some e.2 else None
                      | [] => None
                      end).
Proof.
  unfold Block_Get. rewrite search_spec. cbn [mbind outcome_bind]. rewrite (blk_count _ _ Hb).
  pose proof (drop_below (MakeSearchKey u)) as Hd.
  destruct (below_split (MakeSearchKey u)) as (l & El & Hlen & _).
  destruct (Z.leb_spec (len es) (below (MakeSearchKey u))) as [H|H].
  - assert (seek (MakeSearchKey u) es = []) as -> by (apply len_zero_nil; unfold below in H; len_lia). done.
  - destruct (read_at (below (MakeSearchKey u))) as (e & He & ->); [len_lia|].
    cbn [mbind outcome_bind]. rewrite <-Hd, (drop_S _ _ _ He). done.
Qed.

Lemma Block_LastKey_spec k v : last es = Some (k, v) -> Block_LastKey b = Ok k.
Proof.
  intros Hl. unfold Block_LastKey. rewrite (blk_count _ _ Hb). rewrite last_lookup in Hl.
  pose proof (lookup_lt_Some _ _ _ Hl). 
  replace (len es - 1) with (Z.of_nat (pred (length es))) by (unfold len; lia).
  rewrite (blk_read _ _ Hb _ _ Hl). done.
Qed.
End lookup.

(** ** Building and decoding *)
Definition enc (e : entry) : bytes := entry_bytes e.1 e.2.
Definition norm (e : entry) : entry := (e.1, norm_value e.2).
Definition entry_fits (e : entry) : Prop :=
  0 < len e.1 <= maxKeyLen /\ (Tombstone e.2 = false -> len (sl (Data e.2)) <= maxValueLen).
#[global] Instance entry_fits_dec e : Decision (entry_fits e).
Proof. unfold entry_fits. apply _. Defined.

Definition encs (es : list entry) : bytes := concat (map enc es).
(** Where each entry starts. *)
Fixpoint starts (n : Z) (es : list entry) : list Z :=
  match es with [] => [] | e :: es => n :: starts (n + len (enc e)) es end.

Definition value_size (v : Value) : Z := if Tombstone v then 0 else len (sl (Data v)).
Lemma len_enc e : len (enc e) = blockEntryHeader + len e.1 + value_size e.2.
Proof.
  unfold enc, entry_bytes, value_size, blockEntryHeader, blockKeyLenSize, blockValueLenSize, blockFlagSize.
  destruct (Tombstone e.2); len_lia.
Qed.

Lemma encs_app l1 l2 : encs (l1 ++ l2) = encs l1 ++ encs l2.
Proof. unfold encs. by rewrite map_app, concat_app. Qed.
Lemma encs_singleton e : encs [e] = enc e.
Proof. unfold encs. cbn. apply app_nil_r. Qed.
Lemma starts_app n l1 l2 : starts n (l1 ++ l2) = starts n l1 ++ starts (n + len (encs l1)) l2.
Proof.
  revert n; induction l1 as [|e l1 IH]; intros n; cbn [app starts].
  - cbn. by rewrite Z.add_0_r.
  - rewrite IH. unfold encs. cbn [map concat]. rewrite len_app.
    by replace (n + (len (enc e) + len (concat (map enc l1)))) with (n + len (enc e) + len (concat (map enc l1))) by lia.
Qed.
Lemma len_starts n es : len (starts n es) = len es.
Proof. revert n; induction es; intros; cbn [starts]; [done|]. rewrite !len_cons. by rewrite IHes. Qed.

Record bb_rep (b : BlockBuilder) (es : list entry) : Prop := {
  bb_data : data b = encs es;
  bb_offsets : offsets b = starts 0 es;
  bb_sorted : ksorted es;
  bb_fits : Forall entry_fits es;
  bb_last : sl (lastKey b) = match last es with Some e => e.1 | None => [] end;
  bb_small : len es <= 1 \/ len (data b) + len es * blockOffsetSize + blockCountSize <= bsize b
}.

Lemma New_rep n : bb_rep (NewBlockBuilder n) [].
Proof. split; [done|done|constructor|constructor|done|left; by rewrite (@len_nil entry)]. Qed.
Lemma Reset_rep b : bb_rep (Reset b) [].
Proof.
  split; [done|done|constructor|constructor|cbn; by destruct (lastKey b)|].
  left; by rewrite (@len_nil entry).
Qed.

Lemma reuse_append_sl o k : sl (reuse_append o k) = k.
Proof. by destruct o, k. Qed.

Ltac blk_unfold := unfold blockEntryHeader, blockKeyLenSize, blockValueLenSize, blockFlagSize,
  blockOffsetSize, blockCountSize, maxKeyLen, maxValueLen, maxBlockEntries, maxBlockOffset in *.

Section builder.
Context (b : BlockBuilder) (es : list entry) (Hr : bb_rep b es) (k : bytes) (v : Value).
Context (Hfit : entry_fits (k, v)) (Hbs : bsize b <= maxBlockOffset).
Context (Hnext : forall e, e ∈ es -> blt e.1 k).

Definition bb_fullb : bool :=
  (0 <? len es) && (bsize b <? len (encs es) + len (enc (k, v)) + (len es + 1) * blockOffsetSize + blockCountSize).

Lemma encs_len_ge l : blockEntryHeader * len l <= len (encs l).
Proof.
  induction l as [|e l IH]; [done|]. unfold encs in *. cbn [map concat].
  rewrite len_app, len_cons, len_enc. unfold value_size. blk_unfold.
  destruct (Tombstone _); len_lia.
Qed.

Lemma bb_count : len es < maxBlockEntries.
Proof.
  pose proof (bb_small _ _ Hr) as [H|H]; [blk_unfold; lia|].
  rewrite (bb_data _ _ Hr) in H. pose proof (encs_len_ge es). blk_unfold. lia.
Qed.

Lemma lastKey_below : (0 <? len (sl (lastKey b))) && bleb k (sl (lastKey b)) = false.
Proof.
  rewrite (bb_last _ _ Hr). destruct (last es) as [e|] eqn:El; [|done].
  apply andb_false_intro2. destruct (bleb_spec k e.1) as [H|]; [|done].
  apply ble_not_blt in H. destruct H. apply Hnext. rewrite last_lookup in El.
  by eapply list_elem_of_lookup_2.
Qed.

(** [Add] within the format limits: refused exactly when the block is full. *)
Lemma Add_spec :
  BlockBuilder_Add b k v =
    if bb_fullb then Ok (b, false)
    else Ok (mkBB (data b ++ enc (k, v)) (offsets b ++ [len (data b)]) (bsize b)
               (reuse_append (lastKey b) k), true).
Proof.
  destruct Hfit as [Hk Hv]. cbn [fst snd] in *. unfold BlockBuilder_Add.
  rewrite (proj2 (Z.ltb_ge _ _)) by lia.
  assert (negb (Tombstone v) && (maxValueLen <? len (sl (Data v))) = false) as ->.
  { destruct (Tombstone v); cbn; [done|]. apply Z.ltb_ge. auto. }
  assert (len (offsets b) = len es) as Hlo by (rewrite (bb_offsets _ _ Hr); apply len_starts).
  pose proof bb_count as Hc. rewrite Hlo, (proj2 (Z.leb_gt _ _)) by lia. rewrite lastKey_below.
  replace (len (data b) + _ + _ + _) with
    (len (encs es) + len (enc (k, v)) + (len es + 1) * blockOffsetSize + blockCountSize)
    by (rewrite (bb_data _ _ Hr), len_enc; unfold value_size; cbn [fst snd]; destruct (Tombstone v); lia).
  fold bb_fullb. destruct bb_fullb eqn:Ef; [done|].
  assert (len (data b) <= maxBlockOffset) as Hd.
  { unfold bb_fullb in Ef. apply andb_false_iff in Ef as [Ef|Ef].
    - apply Z.ltb_ge in Ef. assert (es = []) as -> by (apply len_zero_nil; len_lia).
      rewrite (bb_data _ _ Hr). change (len (encs [])) with 0. blk_unfold. lia.
    - apply Z.ltb_ge in Ef. rewrite (bb_data _ _ Hr), len_enc in *. unfold value_size in Ef.
      cbn [fst snd] in Ef. blk_unfold. destruct (Tombstone v); len_lia. }
  rewrite (proj2 (Z.ltb_ge _ _)) by lia. rewrite u16_small; [done|].
  blk_unfold. len_lia.
Qed.

Lemma Add_rep :
  bb_fullb = false ->
  bb_rep (mkBB (data b ++ enc (k, v)) (offsets b ++ [len (data b)]) (bsize b)
            (reuse_append (lastKey b) k)) (es ++ [(k, v)]).
Proof.
  intros Hnf. split; cbn [data offsets lastKey bsize].
  - by rewrite encs_app, encs_singleton, (bb_data _ _ Hr).
  - rewrite starts_app, (bb_offsets _ _ Hr), (bb_data _ _ Hr). done.
  - apply ksorted_app; [apply (bb_sorted _ _ Hr)|constructor; constructor|].
    intros a c Ha ->%list_elem_of_singleton. by apply Hnext.
  - apply Forall_app. split; [apply (bb_fits _ _ Hr)|by constructor].
  - by rewrite last_snoc, reuse_append_sl.
  - unfold bb_fullb in Hnf. apply andb_false_iff in Hnf as [H|H]; apply Z.ltb_ge in H.
    + left. len_lia.
    + right. rewrite (bb_data _ _ Hr). blk_unfold. len_lia.
Qed.

Lemma empty_not_full : es = [] -> bb_fullb = false.
Proof. intros H. unfold bb_fullb. rewrite H. done. Qed.
End builder.

(** *** The offset table *)
Fixpoint ascending (prev : Z) (l : list Z) : Prop :=
  match l with [] => True | x :: l => prev < x /\ ascending x l end.

Lemma decodeOffsets_spec d A pre offs Zs regionEnd prev :
  d = A ++ concat (map (put_le 2) (pre ++ offs)) ++ Zs ->
  Forall (fun o => 0 <= o < 2^16 /\ o < regionEnd) offs ->
  match prev with Some p => ascending p offs | None => ascending (-1) offs end ->
  decodeOffsets (length offs) d (len A) regionEnd (len pre) prev = Ok offs.
Proof.
  revert pre prev; induction offs as [|o offs IH]; intros pre prev Ed Hf Ha; [done|].
  apply Forall_cons in Hf as [[Ho Hre] Hf]. cbn [length decodeOffsets].
  assert (len (concat (map (put_le 2) pre)) = len pre * 2) as Hlen.
  { clear. induction pre as [|x pre IH]; [done|]. cbn [map concat]. len_lia. }
  rewrite (slice_from_eq d (A ++ concat (map (put_le 2) pre)) (put_le 2 o ++ concat (map (put_le 2) offs) ++ Zs)).
  2: { rewrite Ed, map_app, concat_app. cbn [map concat]. app_eq. }
  2: { blk_unfold. len_lia. }
  cbn [mbind outcome_bind]. rewrite le_Uint16_put, u16_small by done. cbn [mbind outcome_bind].
  rewrite (proj2 (Z.leb_gt _ _)) by lia.
  assert (match prev with Some p => o <=? p | None => false end = false) as ->.
  { destruct prev; [|done]. cbn in Ha. apply Z.leb_gt. tauto. }
  specialize (IH (pre ++ [o]) (Some o)). rewrite len_app in IH. cbn in IH.
  change (len [o]) with 1 in IH. rewrite IH; [done| |done|].
  - rewrite Ed. rewrite <-app_assoc. done.
  - destruct prev; cbn in Ha; tauto.
Qed.

Lemma starts_ascending n es p : p < n -> ascending p (starts n es).
Proof.
  revert n p; induction es as [|e es IH]; intros n p H; cbn; [done|]. split; [done|].
  apply IH. rewrite len_enc. unfold value_size. blk_unfold. destruct (Tombstone _); len_lia.
Qed.

Lemma starts_bound es : Forall (fun o => 0 <= o < len (encs es)) (starts 0 es).
Proof.
  apply Forall_forall. intros o Ho. apply list_elem_of_lookup in Ho as [i Hi].
  revert i o Hi. cut (forall n i o, starts n es !! i = Some o -> n <= o < n + len (encs es)).
  { intros H i o Hi. specialize (H 0 i o Hi). lia. }
  induction es as [|e es IH]; intros n i o Hi; [done|]. unfold encs. cbn [map concat].
  fold (encs es). rewrite len_app.
  assert (0 < len (enc e)) by (rewrite len_enc; unfold value_size; blk_unfold; destruct (Tombstone _); len_lia).
  pose proof (len_nonneg (encs es)).
  destruct i as [|i]; cbn in Hi.
  - injection Hi as <-. lia.
  - apply IH in Hi. lia.
Qed.

Lemma starts_lookup es i e :
  es !! i = Some e -> starts 0 es !! i = Some (len (encs (take i es))).
Proof.
  intros Hi. rewrite <-(take_drop_middle es i e Hi) at 1. rewrite starts_app.
  assert (i < length es)%nat by by eapply lookup_lt_Some.
  assert (length (starts 0 (take i es)) = i) as Hl.
  { pose proof (len_starts 0 (take i es)) as H'. unfold len in H'. rewrite length_take in H'. lia. }
  rewrite lookup_app_r by lia. rewrite Hl, Nat.sub_diag. cbn. done.
Qed.

Section decode.
Context (b : BlockBuilder) (es : list entry) (Hr : bb_rep b es) (Hne : es <> []).
Context (Hbs : bsize b <= maxBlockOffset).

Lemma starts_u16 : Forall (fun o => 0 <= o < 2^16) (starts 0 es).
Proof.
  apply Forall_forall. intros o Ho.
  pose proof (starts_bound es) as Hb. rewrite Forall_forall in Hb. pose proof (Hb o Ho) as H1.
  destruct (bb_small _ _ Hr) as [H|H].
  - destruct es as [|e [|e' es']]; [done| |rewrite !len_cons in H; len_lia].
    cbn in Ho. apply list_elem_of_singleton in Ho as ->. lia.
  - rewrite (bb_data _ _ Hr) in H. blk_unfold. len_lia.
Qed.

Definition offs_bytes : bytes := concat (map (put_le 2) (starts 0 es)).

Lemma Build_eq : Build b = encs es ++ offs_bytes ++ put_le 2 (len es).
Proof.
  unfold Build. rewrite (bb_data _ _ Hr), (bb_offsets _ _ Hr), len_starts, u16_small; [done|].
  pose proof (bb_count b es Hr Hbs). blk_unfold. len_lia.
Qed.

Lemma len_offs_bytes : len offs_bytes = 2 * len es.
Proof.
  unfold offs_bytes. rewrite <-(len_starts 0 es). generalize (starts 0 es).
  induction l as [|x l IH]; [done|]. cbn [map concat]. len_lia.
Qed.

Lemma DecodeBlock_Build :
  DecodeBlock (Build b) = Ok (mkBlock (Build b) (starts 0 es) (len es) (len (encs es))).
Proof.
  pose proof (bb_count b es Hr Hbs) as Hc. pose proof len_offs_bytes as Hlo.
  assert (0 < len es) as Hpos by (destruct es; [done|len_lia]).
  assert (len (Build b) = len (encs es) + 2 * len es + 2) as Hlb by (rewrite Build_eq; len_lia).
  unfold DecodeBlock. blk_unfold.
  rewrite (proj2 (Z.ltb_ge _ _)) by len_lia.
  rewrite (slice_from_eq _ (encs es ++ offs_bytes) (put_le 2 (len es))) by
    (rewrite ?Build_eq; first [app_eq|len_lia]).
  cbn [mbind outcome_bind]. rewrite <-(app_nil_r (put_le 2 (len es))), le_Uint16_put, u16_small by lia.
  cbn [mbind outcome_bind]. rewrite (proj2 (Z.eqb_neq _ _)) by lia.
  rewrite (proj2 (Z.ltb_ge _ _)) by len_lia.
  replace (len (Build b) - (len es * 2 + 2)) with (len (encs es)) by lia.
  assert (Z.to_nat (len es) = length (starts 0 es)) as ->
    by (rewrite len_to_nat; pose proof (len_starts 0 es) as H; unfold len in H; lia).
  change 0 with (len (@nil Z)) at 2.
  rewrite (decodeOffsets_spec (Build b) (encs es) [] (starts 0 es) (put_le 2 (len es))); [done|..].
  - by rewrite Build_eq.
  - pose proof starts_u16 as H1. pose proof (starts_bound es) as H2.
    rewrite Forall_forall in H1, H2 |- *. intros o Ho. specialize (H1 o Ho). specialize (H2 o Ho). lia.
  - apply starts_ascending. lia.
Qed.

Lemma readEntry_Build i e :
  es !! i = Some e ->
  readEntry (mkBlock (Build b) (starts 0 es) (len es) (len (encs es))) (Z.of_nat i) = Ok (norm e).
Proof.
  intros Hi. assert (i < length es)%nat as Hlt by by eapply lookup_lt_Some.
  pose proof (bb_fits _ _ Hr) as Hf. eapply Forall_lookup_1 in Hf as [Hk Hv]; [|exact Hi].
  destruct e as [k v]. cbn [fst snd] in *.
  set (pre := encs (take i es)). set (post := encs (drop (S i) es)).
  set (vl := if Tombstone v then 0 else len (sl (Data v))).
  set (vd := if Tombstone v then [] else sl (Data v)).
  set (fl := if Tombstone v then blockFlagTombstone else blockFlagPut).
  assert (encs es = pre ++ enc (k, v) ++ post) as Ee.
  { rewrite <-(take_drop_middle es i _ Hi) at 1. rewrite encs_app. unfold encs at 2. cbn [map concat]. done. }
  assert (Build b = pre ++ put_le 2 (len k) ++ put_le 2 vl ++ fl :: k ++ vd ++ post ++ offs_bytes ++ put_le 2 (len es)) as Eb.
  { rewrite Build_eq, Ee. unfold enc, entry_bytes. cbn [fst snd]. fold vl vd fl. app_eq. }
  assert (len vd = vl /\ 0 <= vl < 2^16) as [Hvd Hvl].
  { unfold vd, vl. destruct (Tombstone v); [done|]. split; [done|]. specialize (Hv eq_refl).
    blk_unfold. len_lia. }
  assert (len (encs es) = len pre + (5 + len k + vl) + len post) as Hle.
  { rewrite Ee, !len_app, len_enc. unfold value_size. cbn [fst snd]. fold vl. blk_unfold. lia. }
  unfold readEntry. cbn [numEntries boffsets bdata entryRegionEnd].
  replace ((Z.of_nat i <? 0) || (len es <=? Z.of_nat i)) with false
    by (symmetry; apply orb_false_iff; rewrite Z.ltb_ge, Z.leb_gt; unfold len; lia).
  assert (@index SstErr _ (starts 0 es) (Z.of_nat i) = Ok (len pre)) as ->.
  { unfold index. pose proof (len_starts 0 es) as Hls.
    rewrite (proj2 (Z.leb_le _ _)), (proj2 (Z.ltb_lt _ _)) by (rewrite ?Hls; unfold len; lia).
    cbn. rewrite Nat2Z.id, (starts_lookup _ _ _ Hi). done. }
  cbn [mbind outcome_bind]. blk_unfold.
  rewrite (proj2 (Z.ltb_ge _ _)) by len_lia.
  rewrite (slice_from_eq (Build b) pre _ (len pre)) by (exact Eb || done).
  cbn [mbind outcome_bind]. rewrite le_Uint16_put, u16_small by len_lia. cbn [mbind outcome_bind].
  rewrite (slice_from_eq (Build b) (pre ++ put_le 2 (len k)) (put_le 2 vl ++ fl :: k ++ vd ++ post ++ offs_bytes ++ put_le 2 (len es)) (len pre + 2))
    by (rewrite ?Eb; first [app_eq|len_lia]).
  cbn [mbind outcome_bind]. rewrite le_Uint16_put, u16_small by lia. cbn [mbind outcome_bind].
  rewrite (index_eq (Build b) (pre ++ put_le 2 (len k) ++ put_le 2 vl) fl (k ++ vd ++ post ++ offs_bytes ++ put_le 2 (len es)) (len pre + 2 + 2))
    by (rewrite ?Eb; first [app_eq|len_lia]).
  cbn [mbind outcome_bind]. rewrite (proj2 (Z.ltb_ge _ _)) by len_lia.
  rewrite (slice_eq (Build b) (pre ++ put_le 2 (len k) ++ put_le 2 vl ++ [fl]) k (vd ++ post ++ offs_bytes ++ put_le 2 (len es)) (len pre + 2 + 2 + 1))
    by (rewrite ?Eb; first [app_eq|len_lia]).
  cbn [mbind outcome_bind]. unfold norm, norm_value. cbn [fst snd]. subst fl.
  destruct (Tombstone v).
  - rewrite decide_False, decide_True by done. subst vl. done.
  - rewrite decide_True by done. rewrite (proj2 (Z.ltb_ge _ _)) by len_lia.
    rewrite (slice_eq (Build b) (pre ++ put_le 2 (len k) ++ put_le 2 vl ++ [blockFlagPut] ++ k) vd (post ++ offs_bytes ++ put_le 2 (len es)) (len pre + 2 + 2 + 1 + len k))
      by (rewrite ?Eb; first [app_eq|len_lia]). done.
Qed.

Lemma Build_rep :
  exists blk, DecodeBlock (Build b) = Ok blk /\ blk_rep blk (map norm es).
Proof.
  eexists. split; [apply DecodeBlock_Build|]. split; [cbn; by rewrite len_map|].
  intros i e Hi. rewrite list_lookup_fmap in Hi. destruct (es !! i) as [e0|] eqn:E0; [|done].
  injection Hi as <-. by apply readEntry_Build.
Qed.
End decode.

Lemma ksorted_norm es : ksorted es -> ksorted (map norm es).
Proof.
  induction 1 as [|e es Hs IH Hx]; cbn; constructor; [done|].
  apply Forall_map. by apply (Forall_impl _ _ _ Hx).
Qed.

(** ** Filling a block *)

(** The builder's caller adds entries until one is refused. *)
Fixpoint bb_fill (b : BlockBuilder) (es : list entry) : outcome SstErr (BlockBuilder * list entry) :=
  match es with
  | [] => Ok (b, [])
  | e :: rest =>
      r ← BlockBuilder_Add b e.1 e.2;
      if (r.2 : bool) then bb_fill r.1 rest else Ok (b, es)
  end.

Lemma bb_fill_spec b acc es :
  bb_rep b acc -> ksorted (acc ++ es) -> Forall entry_fits es -> bsize b <= maxBlockOffset ->
  exists b' more rest, bb_fill b es = Ok (b', rest) /\ es = more ++ rest /\
    bb_rep b' (acc ++ more) /\ bsize b' = bsize b /\ (acc = [] -> es <> [] -> more <> []).
Proof.
  revert b acc; induction es as [|[k v] es IH]; intros b acc Hr Hs Hf Hb.
  { exists b, [], []. rewrite (app_nil_r acc). repeat (split; [done|]). done. }
  apply Forall_cons in Hf as [Hk Hf].
  assert (forall e, e ∈ acc -> blt e.1 k) as Hlt.
  { intros e He. destruct (ksorted_app_inv _ _ Hs) as (_ & _ & Hx). apply (Hx e (k, v)); [done|apply elem_of_cons; auto]. }
  cbn [bb_fill fst snd]. rewrite (Add_spec b acc) by done. destruct (bb_fullb b acc k v) eqn:Ef; cbn [mbind outcome_bind fst snd].
  - exists b, [], ((k, v) :: es). rewrite app_nil_r. split; [done|]. split; [done|]. split; [done|]. split; [done|].
    intros ->. by rewrite empty_not_full in Ef.
  - destruct (IH _ (acc ++ [(k, v)]) (Add_rep b acc Hr k v Hk Hlt Ef)) as (b' & more & rest & E1 & E2 & E3 & E4 & _);
      [by rewrite <-app_assoc|done|done|].
    exists b', ((k, v) :: more), rest. split; [done|]. split; [by rewrite E2|]. split; [by rewrite <-app_assoc in E3|].
    split; [done|]. done.
Qed.

(** Blocks round trip: fill a fresh builder with entries in key order until
    it refuses one; it accepts at least the first, and the block it encodes
    decodes, passing every bounds check of the decoder, to a block with exactly the
    accepted entries in order, whose binary-search lookup [GetAt] is the linear
    lookup over them. *)
Theorem block_roundtrip bs es :
  ksorted es -> Forall entry_fits es -> es <> [] -> bs <= maxBlockOffset ->
  exists b acc rest blk, bb_fill (NewBlockBuilder bs) es = Ok (b, rest) /\ es = acc ++ rest /\ acc <> [] /\
    DecodeBlock (Build b) = Ok blk /\ numEntries blk = len acc /\
    (forall i e, acc !! i = Some e -> readEntry blk (Z.of_nat i) = Ok (norm e)) /\
    (forall u q, Block_GetAt blk u q = Ok (seek_getAt (map norm acc) u q)).
Proof.
  intros Hs Hf Hne Hbs.
  destruct (bb_fill_spec _ [] es (New_rep bs) Hs Hf Hbs) as (b & acc & rest & E1 & E2 & Hr & Hsz & Hacc).
  destruct (Build_rep b acc Hr (Hacc eq_refl Hne)) as (blk & Hd & Hrep); [by rewrite Hsz|].
  exists b, acc, rest, blk. split; [done|]. split; [done|]. split; [by apply Hacc|]. split; [done|].
  split; [rewrite (blk_count _ _ Hrep); apply len_map|]. split.
  - intros i e Hi. apply (blk_read _ _ Hrep). by rewrite list_lookup_fmap, Hi.
  - intros u q. apply Block_GetAt_spec; [done|]. apply ksorted_norm, (bb_sorted _ _ Hr).
Qed.

Definition demo_block : list entry :=
  [ (MakeInternalKey [Byte.x61] 4, NewTombstone);
    (MakeInternalKey [Byte.x61] 2, NewValue (Some [Byte.x01; Byte.x02]));
    (MakeInternalKey [Byte.x62] 3, NewValue (Some [])) ].

Lemma block_roundtrip_witness :
  exists b acc rest blk, bb_fill (NewBlockBuilder 40) demo_block = Ok (b, rest) /\ demo_block = acc ++ rest /\
    DecodeBlock (Build b) = Ok blk /\ numEntries blk = len acc /\ acc <> [].
Proof.
  destruct (block_roundtrip 40 demo_block) as (b & acc & rest & blk & H1 & H2 & H3 & H4 & H5 & _);
    [|by_decide|discriminate|vm_compute; discriminate|].
  - repeat constructor.
  - exists b, acc, rest, blk. auto.
Defined.
