(* ===== verification/SSTable.v ===== *)
(** * SSTables (src/sstable: format.go, builder.go, reader.go)

    The file format (footer, index block), the builder that produces a
    file from a sorted stream of entries, and the reader.  A file is its
    byte content: the write-fsync-rename sequence of [Finish] is its last
    result, [mmap] is the identity.  [sst_rep r bss] is the contract of an
    open reader: its blocks hold the entry lists [bss]. *)

From Stdlib Require Import ZArith Lia Sorted.
From stdpp Require Import base list option sorting gmap.
From S2P Require Import Prelude GoBytes KV Entries Bloom Block.

(** ** format.go *)
Definition defaultBlockSize : Z := 4096.
Definition blockChecksumSize : Z := 4.
Definition footerSize : Z := 33.
Definition magicValue : Z := 0x5448534E.
Definition version1 : byte := Byte.x01.
Definition indexKeyLenSize : Z := 2.
Definition indexOffsetSize : Z := 8.
Definition indexBlockSizeSize : Z := 4.

Record footer := mkFooter {
  bloomOffset : Z;
  bloomLen : Z;
  indexOffset : Z;
  indexLen : Z;
  version : byte
}.

Definition encodeFooter (f : footer) : bytes :=
  let head := put_le 8 (bloomOffset f) ++ put_le 4 (bloomLen f) ++ put_le 8 (indexOffset f)
              ++ put_le 4 (indexLen f) ++ [version f] in
  head ++ put_le 4 (crc32 head) ++ put_le 4 magicValue.

Definition decodeFooter (data : bytes) : outcome SstErr footer :=
  if len data <? footerSize then Err ErrFooterTooShort else
  d ← slice_from data (len data - footerSize);
  t ← slice_from d 29; m ← le_Uint32 t;
  if negb (m =? magicValue) then Err ErrInvalidMagic else
  t ← slice d 25 29; stored ← le_Uint32 t;
  t ← slice d 0 25;
  if negb (stored =? crc32 t) then Err ErrInvalidChecksum else
  t ← slice_from d 0; bo ← le_Uint64 t;
  t ← slice_from d 8; bl ← le_Uint32 t;
  t ← slice_from d 12; io ← le_Uint64 t;
  t ← slice_from d 20; il ← le_Uint32 t;
  v ← index d 24;
  if negb (bool_decide (v = version1)) then Err ErrInvalidVersion else
  Ok (mkFooter bo bl io il v).

Record blockMeta := mkMeta { moffset : Z; msize : Z; mlastKey : bytes }.

Definition encodeMeta (m : blockMeta) : bytes :=
  put_le 2 (len (mlastKey m)) ++ mlastKey m ++ put_le 8 (moffset m) ++ put_le 4 (msize m).

Definition encodeIndex (firstKey : bytes) (metas : list blockMeta) : outcome SstErr bytes :=
  if maxKeyLen <? len firstKey then Err ErrCorruptIndex else
  if existsb (fun m => maxKeyLen <? len (mlastKey m)) metas then Err ErrCorruptIndex else
  Ok (put_le 2 (len firstKey) ++ firstKey ++ concat (map encodeMeta metas)).

(** The loop of [decodeIndex]: [prev] is the previous block's last key and end
    offset.  Every iteration consumes at least 14 bytes. *)
Fixpoint decodeMetas (fuel : nat) (data : bytes) (offset : Z) (prev : option (bytes * Z))
  : outcome SstErr (list blockMeta) :=
  match fuel with
  | O => Ok []
  | S fuel =>
      if offset <? len data then
        if len data <? offset + indexKeyLenSize then Err ErrCorruptIndex else
        t ← slice_from data offset; lkLen ← le_Uint16 t;
        let offset := offset + indexKeyLenSize in
        if len data <? offset + lkLen + indexOffsetSize + indexBlockSizeSize then Err ErrCorruptIndex else
        lastKey ← slice data offset (offset + lkLen);
        let offset := offset + lkLen in
        t ← slice_from data offset; blockOffset ← le_Uint64 t;
        let offset := offset + indexOffsetSize in
        t ← slice_from data offset; blockSize ← le_Uint32 t;
        let offset := offset + indexBlockSizeSize in
        if blockSize =? 0 then Err ErrCorruptIndex else
        if match prev with Some (_, e) => blockOffset <? e | None => false end then Err ErrCorruptIndex else
        if match prev with Some (k, _) => bleb lastKey k | None => false end then Err ErrCorruptIndex else
        rest ← decodeMetas fuel data offset
                 (Some (lastKey, u64 (blockOffset + blockSize + blockChecksumSize)));
        Ok (mkMeta blockOffset blockSize lastKey :: rest)
      else Ok []
  end.

Definition decodeIndex (data : bytes) : outcome SstErr (bytes * list blockMeta) :=
  if len data <? indexKeyLenSize then Err ErrCorruptIndex else
  t ← slice_from data 0; fkLen ← le_Uint16 t;
  let offset := indexKeyLenSize in
  if len data <? offset + fkLen then Err ErrCorruptIndex else
  firstKey ← slice data offset (offset + fkLen);
  metas ← decodeMetas (length data) data (offset + fkLen) None;
  Ok (firstKey, metas).

(** ** builder.go *)
Record Builder := mkB {
  bid : Z;
  block : BlockBuilder;
  metas : list blockMeta;
  hashes : list Z;
  firstKey : option bytes;
  prevKey : option bytes;
  offset : Z;
  buf : bytes;
  finished : bool
}.

Definition NewBuilder (id blockSize : Z) : Builder :=
  let blockSize := if blockSize <=? 0 then defaultBlockSize else blockSize in
  mkB id (NewBlockBuilder blockSize) [] [] None None 0 [] false.

Definition flushBlock (b : Builder) : outcome SstErr Builder :=
  if IsEmpty (block b) then Ok b else
  let blockData := Build (block b) in
  if 2^32 - 1 <? len blockData then Err ErrBlockTooLarge else
  let m := mkMeta (offset b) (u32 (len blockData)) (sl (BlockBuilder_LastKey (block b))) in
  Ok (mkB (bid b) (Reset (block b)) (metas b ++ [m]) (hashes b) (firstKey b) (prevKey b)
        (u64 (u64 (offset b + len blockData) + blockChecksumSize))
        (buf b ++ blockData ++ put_le 4 (crc32 blockData)) (finished b)).

Definition set_block (b : Builder) (blk : BlockBuilder) : Builder :=
  mkB (bid b) blk (metas b) (hashes b) (firstKey b) (prevKey b) (offset b) (buf b) (finished b).

Definition Builder_Add (b : Builder) (key : bytes) (value : Value) : outcome SstErr Builder :=
  if finished b then Err ErrFinished else
  if match prevKey b with Some p => bleb key p | None => false end then Err ErrNotSorted else
  let b := mkB (bid b) (block b) (metas b) (hashes b ++ [BloomHash (UserKey key)])
             (match firstKey b with None => Some key | Some k => Some k end)
             (reuse_append (prevKey b) key) (offset b) (buf b) (finished b) in
  r ← BlockBuilder_Add (block b) key value;
  if (snd r : bool) then Ok (set_block b (fst r))
  else
    b ← flushBlock b;
    r ← BlockBuilder_Add (block b) key value;
    Ok (set_block b r.1).

(** [Finish]: the file contents it puts in place. *)
Definition Finish (b : Builder) : outcome SstErr bytes :=
  if finished b then Err ErrFinished else
  match firstKey b with
  | None => Err ErrEmptySSTable
  | Some fk =>
      b ← flushBlock b;
      let bloom := sl (BuildBloomFilter (hashes b)) in
      let bloomOff := offset b in
      let off := u64 (bloomOff + len bloom) in
      indexData ← encodeIndex fk (metas b);
      let f := mkFooter bloomOff (u32 (len bloom)) off (u32 (len indexData)) version1 in
      Ok (buf b ++ bloom ++ indexData ++ encodeFooter f)
  end.

Definition EstimatedSize (b : Builder) : Z := u64 (offset b + len (data (block b))).

(** ** reader.go *)
Record Reader := mkReader {
  rid : Z;
  rdata : bytes;
  rbloom : option bytes;
  rfirstKey : bytes;
  rmetas : list blockMeta
}.

Definition openFromData (id : Z) (d : bytes) : outcome SstErr Reader :=
  f ← decodeFooter d;
  let bloomEnd := u64 (bloomOffset f + bloomLen f) in
  if len d <? bloomEnd then Err ErrPastFileEnd else
  bloom ← (if 0 <? bloomLen f then t ← slice d (bloomOffset f) bloomEnd; Ok (Some t) else Ok None);
  let indexEnd := u64 (indexOffset f + indexLen f) in
  if len d <? indexEnd then Err ErrPastFileEnd else
  t ← slice d (indexOffset f) indexEnd;
  ix ← decodeIndex t;
  Ok (mkReader id d bloom ix.1 ix.2).

(** [OpenReader] on the directory's table files by id. *)
Definition OpenReader (dir : gmap Z bytes) (id : Z) : outcome SstErr Reader :=
  match dir !! id with
  | None => Err ErrOpen
  | Some d => if len d <? footerSize then Err ErrFileTooSmall else openFromData id d
  end.

Definition Reader_FirstKey (r : Reader) : bytes := rfirstKey r.
Definition Reader_LastKey (r : Reader) : option bytes := mlastKey <$> last (rmetas r).
Definition NumBlocks (r : Reader) : Z := len (rmetas r).
Definition FileSize (r : Reader) : Z := len (rdata r).
Definition MayContain (r : Reader) (userKey : bytes) : bool := BloomMayContain (rbloom r) userKey.

Definition readBlockFromData (r : Reader) (meta : blockMeta) : outcome SstErr Block :=
  let blockEnd := u64 (moffset meta + msize meta) in
  if len (rdata r) <? u64 (blockEnd + blockChecksumSize) then Err ErrCorruptBlock else
  blockData ← slice (rdata r) (moffset meta) blockEnd;
  t ← slice (rdata r) blockEnd (u64 (blockEnd + blockChecksumSize));
  stored ← le_Uint32 t;
  if negb (stored =? crc32 blockData) then Err ErrInvalidChecksum else
  DecodeBlock blockData.

(** [readBlock] of a reader opened without a cache ([readBlock_cached] in Cache.v
    is the cached one). *)
Definition readBlock (r : Reader) (blockIdx : Z) : outcome SstErr Block :=
  if (blockIdx <? 0) || (len (rmetas r) <=? blockIdx) then Err ErrBlockIndex else
  meta ← index (rmetas r) blockIdx;
  readBlockFromData r meta.

(** The search loop of [findBlock] on the closed interval [low, high]. *)
Fixpoint findLoop (fuel : nat) (ms : list blockMeta) (key : bytes) (low high : Z) : outcome SstErr Z :=
  match fuel with
  | O => Ok low
  | S fuel =>
      if low <=? high then
        let mid := low + Z.quot (high - low) 2 in
        m ← index ms mid;
        if bltb (mlastKey m) key then findLoop fuel ms key (mid + 1) high
        else findLoop fuel ms key low (mid - 1)
      else Ok low
  end.

Definition findBlock (r : Reader) (key : bytes) : outcome SstErr Z :=
  low ← findLoop (S (length (rmetas r))) (rmetas r) key 0 (len (rmetas r) - 1);
  Ok (if len (rmetas r) <=? low then -1 else low).

Definition Reader_Get (r : Reader) (userKey : bytes) : outcome SstErr (option Value) :=
  if negb (MayContain r userKey) then Ok None else
  blockIdx ← findBlock r (MakeSearchKey userKey);
  if blockIdx <? 0 then Ok None else
  blk ← readBlock r blockIdx;
  Block_Get blk userKey.

(** The block loop of [GetAt]. *)
Fixpoint getAtLoop (fuel : nat) (r : Reader) (userKey : bytes) (maxSeq blockIdx : Z)
  : outcome SstErr (option Value) :=
  match fuel with
  | O => Ok None
  | S fuel =>
      if blockIdx <? len (rmetas r) then
        blk ← readBlock r blockIdx;
        o ← Block_GetAt blk userKey maxSeq;
        match o with
        | Some v => Ok (Some v)
        | None =>
            lk ← Block_LastKey blk;
            if negb (bytes_Equal (UserKey lk) userKey) then Ok None
            else getAtLoop fuel r userKey maxSeq (blockIdx + 1)
        end
      else Ok None
  end.

Definition Reader_GetAt (r : Reader) (userKey : bytes) (maxSeq : Z) : outcome SstErr (option Value) :=
  if negb (MayContain r userKey) then Ok None else
  blockIdx ← findBlock r (MakeSearchKey userKey);
  if blockIdx <? 0 then Ok None else
  getAtLoop (S (length (rmetas r))) r userKey maxSeq blockIdx.

(** ** The contract of an open reader *)
Definition last_key (es : list entry) : bytes := match last es with Some e => e.1 | None => [] end.

Record sst_rep (r : Reader) (bss : list (list entry)) : Prop := {
  sst_metas : map mlastKey (rmetas r) = map last_key bss;
  sst_read : forall i es, bss !! i = Some es ->
               exists blk, readBlock r (Z.of_nat i) = Ok blk /\ blk_rep blk es;
  sst_nonempty : Forall (fun es => es <> []) bss;
  sst_sorted : ksorted (concat bss);
  sst_ikeys : ikeys_ok (concat bss);
  sst_bloom : forall e, e ∈ concat bss -> MayContain r (UserKey e.1) = true;
  sst_first : match concat bss with e :: _ => rfirstKey r = e.1 | [] => True end
}.

Lemma last_elem (es : list entry) e : last es = Some e -> e ∈ es.
Proof. rewrite last_lookup. apply list_elem_of_lookup_2. Qed.

Lemma last_key_elem es : es <> [] -> exists e, e ∈ es /\ e.1 = last_key es /\ last es = Some e.
Proof.
  intros Hne. unfold last_key. destruct (last es) as [e|] eqn:El.
  - exists e. split; [by apply last_elem|done].
  - by apply last_None in El.
Qed.

(** The last key of a sorted list bounds it. *)
Lemma last_key_max es e : ksorted es -> e ∈ es -> ble e.1 (last_key es).
Proof.
  intros Hs He. unfold last_key. destruct (last es) as [el|] eqn:El.
  - apply last_Some in El as [l ->]. apply ksorted_app_inv in Hs as (_ & _ & Hlt).
    apply elem_of_app in He as [He| ->%list_elem_of_singleton]; [|apply ble_refl].
    apply blt_ble, Hlt; [done|by apply list_elem_of_singleton].
  - apply last_None in El as ->. by apply elem_of_nil in He.
Qed.

(** Splitting the blocks at a target key. *)
Lemma split_blocks t bss :
  ksorted (concat bss) -> Forall (fun es => es <> []) bss ->
  exists l1 l2, bss = l1 ++ l2 /\ Forall (fun es => blt (last_key es) t) l1 /\
    Forall (fun es => ~ blt (last_key es) t) l2.
Proof.
  induction bss as [|es bss IH]; intros Hs Hne; [exists [], []; repeat constructor|].
  cbn in Hs. apply ksorted_app_inv in Hs as (_ & Hs & Hlt). apply Forall_cons in Hne as [Hes Hne].
  destruct (bltb_spec (last_key es) t) as [H|H].
  - destruct (IH Hs Hne) as (l1 & l2 & -> & H1 & H2). exists (es :: l1), l2. repeat constructor; auto.
  - exists [], (es :: bss). split; [done|]. split; [constructor|]. constructor; [done|].
    apply Forall_forall. intros es' He' Hb. apply H.
    rewrite Forall_forall in Hne. destruct (last_key_elem es' (Hne _ He')) as (e' & Hin' & E' & _).
    destruct (last_key_elem es Hes) as (e & Hin & E & _). rewrite <-E, <-E' in *.
    eapply blt_trans; [|exact Hb]. apply Hlt; [done|].
    apply list_elem_of_In, in_concat. exists es'. split; by apply list_elem_of_In.
Qed.

Lemma findLoop_spec (ms : list blockMeta) t l1 l2 fuel low high :
  ms = l1 ++ l2 -> Forall (fun m => blt (mlastKey m) t) l1 -> Forall (fun m => ~ blt (mlastKey m) t) l2 ->
  0 <= low <= len l1 -> len l1 <= high + 1 -> high < len ms -> (Z.to_nat (high + 1 - low) < fuel)%nat ->
  findLoop fuel ms t low high = Ok (len l1).
Proof.
  intros E H1 H2. revert low high; induction fuel as [|fuel IH]; intros low high Hl Hh Hm Hf; [lia|].
  cbn [findLoop]. destruct (Z.leb_spec low high) as [H|H]; [|f_equal; lia].
  set (mid := low + Z.quot (high - low) 2).
  assert (low <= mid <= high) as Hmid.
  { unfold mid. rewrite Z.quot_div_nonneg by lia. div_lia. }
  destruct (lookup_lt_is_Some_2 ms (Z.to_nat mid)) as [m Em]; [unfold len in Hm; lia|].
  assert (@index SstErr _ ms mid = Ok m) as ->.
  { unfold index. rewrite (proj2 (Z.leb_le _ _)), (proj2 (Z.ltb_lt _ _)), Em by lia. done. }
  cbn [mbind outcome_bind]. rewrite E in Em.
  destruct (decide (mid < len l1)) as [Hd|Hd].
  - rewrite lookup_app_l in Em by (unfold len in Hd; lia).
    rewrite (bltb_true _ _ (Forall_lookup_1 _ _ _ _ H1 Em)). apply IH; lia.
  - rewrite lookup_app_r in Em by (unfold len in Hd; lia).
    rewrite (bltb_false _ _ (Forall_lookup_1 _ _ _ _ H2 Em)). apply IH; lia.
Qed.

Section reader.
Context (r : Reader) (bss : list (list entry)) (Hr : sst_rep r bss).

Lemma len_metas : len (rmetas r) = len bss.
Proof.
  pose proof (f_equal length (sst_metas _ _ Hr)) as H. rewrite !length_map in H. unfold len. lia.
Qed.

Lemma findBlock_spec t :
  exists l1 l2, bss = l1 ++ l2 /\ Forall (fun es => blt (last_key es) t) l1 /\
    Forall (fun es => ~ blt (last_key es) t) l2 /\
    findBlock r t = Ok (match l2 with [] => -1 | _ => len l1 end).
Proof.
  destruct (split_blocks t bss (sst_sorted _ _ Hr) (sst_nonempty _ _ Hr)) as (l1 & l2 & E & H1 & H2).
  exists l1, l2. do 3 (split; [done|]). unfold findBlock.
  pose proof (sst_metas _ _ Hr) as Hm. rewrite E, map_app in Hm.
  apply fmap_app_inv in Hm as (m1 & m2 & E1 & E2 & Em).
  assert (len m1 = len l1 /\ len m2 = len l2) as [Hl1 Hl2].
  { pose proof (f_equal length E1) as L1. pose proof (f_equal length E2) as L2.
    rewrite length_fmap, length_map in L1, L2. unfold len. lia. }
  rewrite (findLoop_spec (rmetas r) t m1 m2).
  - cbn [mbind outcome_bind]. f_equal. rewrite Em, len_app, Hl1, Hl2.
    destruct l2 as [|es l2]; [rewrite len_nil, Z.add_0_r, Z.leb_refl; done|].
    rewrite (proj2 (Z.leb_gt _ _)); [done|]. len_lia.
  - done.
  - apply Forall_forall. intros m Hin. 
    assert (mlastKey m ∈ map last_key l1) as Hk by (rewrite E1; apply list_elem_of_fmap; eauto).
    apply list_elem_of_fmap in Hk as (es & -> & Hes). rewrite Forall_forall in H1. auto.
  - apply Forall_forall. intros m Hin.
    assert (mlastKey m ∈ map last_key l2) as Hk by (rewrite E2; apply list_elem_of_fmap; eauto).
    apply list_elem_of_fmap in Hk as (es & -> & Hes). rewrite Forall_forall in H2. auto.
  - len_lia.
  - rewrite Em. len_lia.
  - lia.
  - rewrite Em, length_app. unfold len. rewrite length_app. lia.
Qed.

Lemma block_elem es e : es ∈ bss -> e ∈ es -> e ∈ concat bss.
Proof. intros H1 H2. apply list_elem_of_In, in_concat. exists es. split; by apply list_elem_of_In. Qed.

Lemma block_facts es : es ∈ bss -> es <> [] /\ ksorted es /\ ikeys_ok es.
Proof.
  intros Hin. apply list_elem_of_split in Hin as (l1 & l2 & E).
  pose proof (sst_sorted _ _ Hr) as Hs. pose proof (sst_ikeys _ _ Hr) as Hik.
  pose proof (sst_nonempty _ _ Hr) as Hne. rewrite E in Hs, Hik, Hne.
  rewrite concat_app in Hs, Hik. cbn [concat] in *.
  apply ksorted_app_inv in Hs as (_ & Hs & _). apply ksorted_app_inv in Hs as (Hs & _ & _).
  apply Forall_app in Hik as [_ Hik]. apply Forall_app in Hik as [Hik _].
  apply Forall_app in Hne as [_ Hne]. apply Forall_cons in Hne as [Hne _]. done.
Qed.

Section lookup.
Context (u : bytes) (q : Z) (Hc : key_compat u (concat bss)).
Let t := MakeSearchKey u.

Lemma bloom_miss o : MayContain r u = false -> is_newest (concat bss) u o None.
Proof.
  intros Hm e He [Hu _]. pose proof (sst_bloom _ _ Hr e He) as Hb. rewrite Hu in Hb. congruence.
Qed.

(** Blocks wholly below the search key hold no version of [u]. *)
Lemma below_invisible l1 o :
  l1 ⊆ bss -> Forall (fun es => blt (last_key es) t) l1 -> is_newest (concat l1) u o None.
Proof.
  intros Hsub Hf e He [Hu _]. apply list_elem_of_In, in_concat in He as (es & Hes & He).
  apply list_elem_of_In in Hes, He. rewrite Forall_forall in Hf.
  destruct (block_facts es (Hsub _ Hes)) as (_ & Hs & Hik).
  unfold ikeys_ok in Hik. rewrite Forall_forall in Hik.
  apply (below_search_not_user u e.1 (Hik _ He)); [|done].
  eapply ble_blt_trans; [by apply last_key_max|by apply Hf].
Qed.

(** A block whose last key is past the search key with another user key ends [u]. *)
Lemma ended_invisible es l2 o :
  es :: l2 ⊆ bss -> ksorted (es ++ concat l2) -> ~ blt (last_key es) t ->
  UserKey (last_key es) <> u -> is_newest (concat l2) u o None.
Proof.
  intros Hsub Hs Hge Hne e He [Hu _].
  assert (es ∈ bss) as Hes by (apply Hsub; by left).
  destruct (block_facts es Hes) as (Hes0 & _ & _).
  destruct (last_key_elem es Hes0) as (el & Hel & El & _).
  assert (e ∈ concat bss) as Hin.
  { apply list_elem_of_In, in_concat in He as (es' & Hes' & He). apply list_elem_of_In in Hes', He.
    apply (block_elem es'); [|done]. apply Hsub. by right. }
  pose proof (sst_ikeys _ _ Hr) as Hik. unfold ikeys_ok in Hik. rewrite Forall_forall in Hik.
  pose proof Hc as Hc'. unfold key_compat in Hc'. rewrite Forall_forall in Hc'.
  apply ksorted_app_inv in Hs as (_ & _ & Hlt). pose proof (Hlt el e Hel He) as Hl.
  apply (blt_asym _ _ Hl). rewrite <-El in *. pose proof (block_elem es el Hes Hel).
  apply (past_user u); auto.
Qed.

(** Versions of [u] in later blocks are older. *)
Lemma later_older es l2 e e' :
  ksorted (es ++ concat l2) -> ikeys_ok (es ++ concat l2) -> e ∈ es -> e' ∈ concat l2 ->
  UserKey e.1 = u -> UserKey e'.1 = u -> SeqNum e'.1 < SeqNum e.1.
Proof.
  intros Hs Hik He He' Hu Hu'. apply ksorted_app_inv in Hs as (_ & _ & Hlt).
  pose proof (Hlt e e' He He') as Hl. unfold ikeys_ok in Hik. rewrite Forall_forall in Hik.
  destruct (internal_key_decomp e.1) as [E1 S1]; [apply Hik, elem_of_app; auto|].
  destruct (internal_key_decomp e'.1) as [E2 S2]; [apply Hik, elem_of_app; auto|].
  rewrite E1, E2, Hu, Hu' in Hl. unfold blt in Hl. rewrite compare_same_user in Hl by done. exact Hl.
Qed.

Lemma getAtLoop_spec fuel l1 l2 :
  bss = l1 ++ l2 -> Forall (fun es => ~ blt (last_key es) t) l2 -> (length l2 < fuel)%nat ->
  exists o, getAtLoop fuel r u q (len l1) = Ok o /\ is_newest (concat l2) u q o.
Proof.
  revert l1 l2; induction fuel as [|fuel IH]; intros l1 l2 E Hge Hf; [lia|]. cbn [getAtLoop].
  rewrite len_metas. destruct l2 as [|es l2].
  { rewrite (proj2 (Z.ltb_ge _ _)) by (rewrite E; len_lia). exists None. split; [done|].
    intros e He. by apply elem_of_nil in He. }
  rewrite (proj2 (Z.ltb_lt _ _)) by (rewrite E; len_lia).
  assert (bss !! length l1 = Some es) as Hi by (rewrite E; by apply list_lookup_middle).
  destruct (sst_read _ _ Hr _ _ Hi) as (blk & Hb & Hrep). fold (len l1) in Hb. rewrite Hb.
  cbn [mbind outcome_bind].
  assert (es ∈ bss) as Hes by by eapply list_elem_of_lookup_2.
  destruct (block_facts es Hes) as (Hne & Hs & Hik).
  assert (key_compat u es) as Hce.
  { apply Forall_forall. intros e He. unfold key_compat in Hc. rewrite Forall_forall in Hc.
    by apply Hc, (block_elem es). }
  rewrite (Block_GetAt_spec blk es Hrep Hs). cbn [mbind outcome_bind].
  pose proof (seek_getAt_newest u q es Hs Hik Hce) as Hnew.
  assert (ksorted (es ++ concat l2) /\ ikeys_ok (es ++ concat l2)) as [Hs2 Hik2].
  { pose proof (sst_sorted _ _ Hr) as H1. pose proof (sst_ikeys _ _ Hr) as H2. rewrite E, concat_app in H1, H2.
    apply ksorted_app_inv in H1 as (_ & ? & _). by apply Forall_app in H2 as [_ ?]. }
  apply Forall_cons in Hge as [Hges Hge].
  destruct (seek_getAt es u q) as [v|].
  { exists (Some v). split; [done|]. cbn [concat]. apply is_newest_app_l; [done|].
    intros e e' He He'. by apply (later_older es l2). }
  destruct (last_key_elem es Hne) as ([kl vl] & _ & El & Hlast). cbn in El.
  rewrite (Block_LastKey_spec blk es Hrep kl vl Hlast). cbn [mbind outcome_bind]. rewrite El.
  unfold bytes_Equal. destruct (decide (UserKey (last_key es) = u)) as [Hu|Hu].
  - rewrite bool_decide_eq_true_2 by done. cbn [negb].
    destruct (IH (l1 ++ [es]) l2) as (o & Ho & Hno); [by rewrite <-app_assoc|done|cbn in Hf; lia|].
    rewrite len_app in Ho. change (len [es]) with 1 in Ho. exists o. split; [done|].
    cbn [concat]. by apply is_newest_app_r.
  - rewrite bool_decide_eq_false_2 by done. cbn [negb]. exists None. split; [done|].
    cbn [concat]. apply is_newest_app_r; [done|]. apply (ended_invisible es); [|done..].
    rewrite E. intros x Hx. apply elem_of_app. by right.
Qed.

Lemma Reader_GetAt_newest : exists o, Reader_GetAt r u q = Ok o /\ is_newest (concat bss) u q o.
Proof.
  unfold Reader_GetAt. destruct (MayContain r u) eqn:Em; cbn [negb].
  2: { exists None. split; [done|]. by apply bloom_miss. }
  destruct (findBlock_spec t) as (l1 & l2 & E & H1 & H2 & Hf). fold t. rewrite Hf. cbn [mbind outcome_bind].
  assert (is_newest (concat l1) u q None) as Hl1
    by (apply below_invisible; [rewrite E; intros x Hx; apply elem_of_app; by left|done]).
  rewrite E, concat_app. destruct l2 as [|es l2].
  - exists None. split; [done|]. cbn. by rewrite app_nil_r.
  - rewrite (proj2 (Z.ltb_ge _ _)) by len_lia.
    destruct (getAtLoop_spec (S (length (rmetas r))) l1 (es :: l2)) as (o & Ho & Hno); [done|done|..].
    { pose proof len_metas as Hm. rewrite E in Hm. unfold len in Hm. rewrite length_app in Hm. cbn in *. lia. }
    exists o. split; [done|]. by apply is_newest_app_r.
Qed.
Lemma seek_nonempty es e : e ∈ es -> ~ blt e.1 t -> seek t es <> [].
Proof.
  intros He Hge Hn. destruct (seek_split t es) as (l & El & Hl). rewrite Hn, app_nil_r in El.
  subst l. rewrite Forall_forall in Hl. by apply Hge, Hl.
Qed.

Lemma SeqNum_le_max k : SeqNum k <= MaxSeqNum.
Proof.
  unfold SeqNum, MaxSeqNum. destruct (_ <? _); [lia|].
  pose proof (u64_range (2^64 - 1 - get_be (drop (length k - 8) k))). lia.
Qed.

Lemma Reader_Get_newest : exists o, Reader_Get r u = Ok o /\ is_newest (concat bss) u MaxSeqNum o.
Proof.
  unfold Reader_Get. destruct (MayContain r u) eqn:Em; cbn [negb].
  2: { exists None. split; [done|]. by apply bloom_miss. }
  destruct (findBlock_spec t) as (l1 & l2 & E & H1 & H2 & Hf). fold t. rewrite Hf. cbn [mbind outcome_bind].
  assert (is_newest (concat l1) u MaxSeqNum None) as Hl1
    by (apply below_invisible; [rewrite E; intros x Hx; apply elem_of_app; by left|done]).
  rewrite E, concat_app. destruct l2 as [|es l2].
  { exists None. split; [done|]. cbn. by rewrite app_nil_r. }
  rewrite (proj2 (Z.ltb_ge _ _)) by len_lia.
  assert (bss !! length l1 = Some es) as Hi by (rewrite E; by apply list_lookup_middle).
  destruct (sst_read _ _ Hr _ _ Hi) as (blk & Hb & Hrep). fold (len l1) in Hb. rewrite Hb.
  cbn [mbind outcome_bind].
  assert (es ∈ bss) as Hes by by eapply list_elem_of_lookup_2.
  destruct (block_facts es Hes) as (Hne & Hs & Hik).
  rewrite (Block_Get_spec blk es Hrep Hs). fold t. eexists. split; [done|].
  apply is_newest_app_r; [done|]. apply Forall_cons in H2 as [Hges _].
  assert (ksorted (es ++ concat l2) /\ ikeys_ok (es ++ concat l2)) as [Hs2 Hik2].
  { pose proof (sst_sorted _ _ Hr) as S1. pose proof (sst_ikeys _ _ Hr) as S2. rewrite E, concat_app in S1, S2.
    apply ksorted_app_inv in S1 as (_ & ? & _). by apply Forall_app in S2 as [_ ?]. }
  assert (key_compat u (es ++ concat l2)) as Hc2.
  { unfold key_compat in *. rewrite E, concat_app in Hc. by apply Forall_app in Hc as [_ ?]. }
  assert (seek t (es ++ concat l2) = seek t es ++ concat l2) as Hsk.
  { clear -Hges Hne Hs Hes Hr. destruct (last_key_elem es Hne) as (e & He & El & _). rewrite <-El in Hges.
    pose proof (seek_nonempty es e He Hges) as Hn. clear -Hn.
    induction es as [|x es IH]; [done|]. cbn [seek app] in *. destruct (bltb x.1 t); [by apply IH|done]. }
  pose proof (seek_getAt_newest u MaxSeqNum _ Hs2 Hik2 Hc2) as Hnew.
  unfold seek_getAt in Hnew. fold t in Hnew. rewrite Hsk in Hnew. cbn [concat].
  destruct (last_key_elem es Hne) as (e & He & El & _). rewrite <-El in Hges.
  pose proof (seek_nonempty es e He Hges) as Hn.
  destruct (seek t es) as [|[k v] tl]; [done|]. cbn [app walk fst snd] in *.
  rewrite (proj2 (Z.leb_le _ _) (SeqNum_le_max k)) in Hnew. by destruct (bytes_Equal _ _).
Qed.
End lookup.
End reader.

(** ** Building *)
Definition blk_bytes (es : list entry) : bytes :=
  encs es ++ offs_bytes es ++ put_le 2 (len es).
Definition sealed (es : list entry) : bytes := blk_bytes es ++ put_le 4 (crc32 (blk_bytes es)).
Fixpoint metas_of (off : Z) (bss : list (list entry)) : list blockMeta :=
  match bss with
  | [] => []
  | es :: bss => mkMeta off (len (blk_bytes es)) (last_key es) :: metas_of (off + len (sealed es)) bss
  end.
Definition sealed_all (bss : list (list entry)) : bytes := concat (map sealed bss).

(** What a flushed block satisfies. *)
Record block_ok (es : list entry) : Prop := {
  ok_nonempty : es <> [];
  ok_decode : exists blk, DecodeBlock (blk_bytes es) = Ok blk /\ blk_rep blk (map norm es);
  ok_fits : Forall entry_fits es
}.

Definition key_hashes (es : list entry) : list Z := map (fun e => BloomHash (UserKey e.1)) es.

Record build_rep (b : Builder) (done : list (list entry)) (cur : list entry) : Prop := {
  br_block : bb_rep (block b) cur;
  br_size : bsize (block b) <= maxBlockOffset;
  br_metas : metas b = metas_of 0 done;
  br_ok : Forall block_ok done;
  br_sorted : ksorted (concat done ++ cur);
  br_hashes : hashes b = key_hashes (concat done ++ cur);
  br_first : match concat done ++ cur with e :: _ => firstKey b = Some e.1 | [] => firstKey b = None end;
  br_prev : match last (concat done ++ cur) with Some e => prevKey b = Some e.1 | None => prevKey b = None end;
  br_buf : buf b = sealed_all done;
  br_offset : offset b = u64 (len (buf b));
  br_open : finished b = false
}.

Lemma sealed_all_app l1 l2 : sealed_all (l1 ++ l2) = sealed_all l1 ++ sealed_all l2.
Proof. unfold sealed_all. by rewrite map_app, concat_app. Qed.
Lemma metas_of_app off l1 l2 :
  metas_of off (l1 ++ l2) = metas_of off l1 ++ metas_of (off + len (sealed_all l1)) l2.
Proof.
  revert off; induction l1 as [|es l1 IH]; intros off; cbn [app metas_of].
  - change (len (sealed_all [])) with 0. by rewrite Z.add_0_r.
  - rewrite IH. unfold sealed_all. cbn [map concat]. rewrite len_app.
    by replace (off + (len (sealed es) + len (concat (map sealed l1)))) with
      (off + len (sealed es) + len (concat (map sealed l1))) by lia.
Qed.
Lemma u64_add_l a c : u64 (u64 a + c) = u64 (a + c).
Proof. unfold u64. by rewrite Z.add_mod_idemp_l by lia. Qed.

Section flush.
Context (b : Builder) (done : list (list entry)) (cur : list entry) (Hb : build_rep b done cur).

Lemma IsEmpty_spec : IsEmpty (block b) = bool_decide (cur = []).
Proof.
  unfold IsEmpty. rewrite (bb_offsets _ _ (br_block _ _ _ Hb)), len_starts.
  destruct cur as [|e cur']; [done|]. rewrite bool_decide_eq_false_2 by done.
  apply Z.eqb_neq. len_lia.
Qed.

Lemma Build_blk : Build (block b) = blk_bytes cur.
Proof. apply Build_eq; [apply (br_block _ _ _ Hb)|apply (br_size _ _ _ Hb)]. Qed.

(** The file written so far stays below the 32-bit sizes of the format. *)
Context (Hlim : len (sealed_all (done ++ [cur])) < 2^32).

Lemma flushBlock_spec :
  cur <> [] ->
  exists b', flushBlock b = Ok b' /\ build_rep b' (done ++ [cur]) [] /\ bsize (block b') = bsize (block b).
Proof.
  intros Hne. pose proof (br_block _ _ _ Hb) as Hbb. unfold flushBlock. rewrite IsEmpty_spec.
  rewrite bool_decide_eq_false_2 by done. rewrite Build_blk.
  assert (len (blk_bytes cur) < 2^32) as Hl.
  { rewrite sealed_all_app in Hlim. unfold sealed_all, sealed in Hlim. cbn [map concat] in Hlim. len_lia. }
  rewrite (proj2 (Z.ltb_ge _ _)) by lia. eexists. split; [done|]. split; [|done].
  assert (len (sealed_all done) < 2^32) as Hl0 by (rewrite sealed_all_app in Hlim; len_lia).
  rewrite (u32_small (len (blk_bytes cur))) by len_lia.
  pose proof (br_offset _ _ _ Hb) as Hoff. rewrite (br_buf _ _ _ Hb) in Hoff.
  rewrite u64_small in Hoff by len_lia.
  split; cbn [block metas hashes firstKey prevKey offset buf finished]; rewrite ?concat_app, ?app_nil_r; cbn [concat];
    rewrite ?app_nil_r.
  - apply Reset_rep.
  - apply (br_size _ _ _ Hb).
  - rewrite metas_of_app, (br_metas _ _ _ Hb), Hoff. cbn [metas_of]. do 2 f_equal.
    rewrite Z.add_0_l. f_equal. unfold BlockBuilder_LastKey. apply (bb_last _ _ Hbb).
  - apply Forall_app. split; [apply (br_ok _ _ _ Hb)|]. constructor; [|constructor]. split; [done| |apply (bb_fits _ _ Hbb)].
    rewrite <-Build_blk. apply Build_rep; [done..|apply (br_size _ _ _ Hb)].
  - apply (br_sorted _ _ _ Hb).
  - apply (br_hashes _ _ _ Hb).
  - apply (br_first _ _ _ Hb).
  - apply (br_prev _ _ _ Hb).
  - rewrite (br_buf _ _ _ Hb), sealed_all_app. unfold sealed_all at 3, sealed. cbn [map concat].
    by rewrite app_nil_r.
  - rewrite (br_offset _ _ _ Hb), u64_add_l, <-Z.add_assoc, u64_add_l. f_equal. unfold blockChecksumSize. len_lia.
  - apply (br_open _ _ _ Hb).
Qed.
End flush.

Lemma NewBuilder_rep id bs :
  bs <= maxBlockOffset -> build_rep (NewBuilder id bs) [] [].
Proof.
  intros H. split; try done; cbn.
  - apply New_rep.
  - unfold defaultBlockSize, maxBlockOffset in *. destruct (Z.leb_spec bs 0); lia.
  - constructor.
Qed.

(** Appending [e] to the current block or, when it is full, to a new one. *)
Definition add_to (bs : Z) (st : list (list entry) * list entry) (e : entry) : list (list entry) * list entry :=
  let '(done, cur) := st in
  if (0 <? len cur) && (bs <? len (encs cur) + len (enc e) + (len cur + 1) * blockOffsetSize + blockCountSize)
  then (done ++ [cur], [e]) else (done, cur ++ [e]).

Lemma Builder_Add_spec b done cur e :
  build_rep b done cur -> entry_fits e -> (forall x, x ∈ concat done ++ cur -> blt x.1 e.1) ->
  len (sealed_all (done ++ [cur])) < 2^32 ->
  let st := add_to (bsize (block b)) (done, cur) e in
  exists b', Builder_Add b e.1 e.2 = Ok b' /\ build_rep b' st.1 st.2 /\ bsize (block b') = bsize (block b) /\
    concat st.1 ++ st.2 = (concat done ++ cur) ++ [e].
Proof.
  intros Hb Hfit Hlt Hlim. unfold Builder_Add. rewrite (br_open _ _ _ Hb).
  assert (match prevKey b with Some p => bleb e.1 p | None => false end = false) as ->.
  { pose proof (br_prev _ _ _ Hb) as Hp. destruct (last (concat done ++ cur)) as [el|] eqn:El; rewrite Hp; [|done].
    destruct (bleb_spec e.1 el.1) as [H|]; [|done]. apply ble_not_blt in H. destruct H.
    apply Hlt. by apply last_elem. }
  set (b1 := mkB _ _ _ _ _ _ _ _ _).
  pose proof (br_block _ _ _ Hb) as Hbb. pose proof (br_size _ _ _ Hb) as Hbs.
  assert (forall x, x ∈ cur -> blt x.1 e.1) as Hcur by (intros x Hx; apply Hlt, elem_of_app; by right).
  assert (ksorted ((concat done ++ cur) ++ [e])) as Hs.
  { apply ksorted_app; [apply (br_sorted _ _ _ Hb)|constructor; constructor|].
    intros x y Hx ->%list_elem_of_singleton. by apply Hlt. }
  (* the parts of the representation that do not depend on the block split *)
  assert (forall blk done' cur' b2, concat done' ++ cur' = (concat done ++ cur) ++ [e] ->
    b2 = mkB (bid b) blk (metas_of 0 done') (hashes b1) (firstKey b1) (prevKey b1)
           (u64 (len (sealed_all done'))) (sealed_all done') false ->
    bb_rep blk cur' -> bsize blk <= maxBlockOffset -> Forall block_ok done' ->
    build_rep b2 done' cur') as Hmk.
  { intros blk done' cur' b2 Ec -> Hblk Hsz Hok.
    split; cbn [block metas hashes firstKey prevKey offset buf finished]; rewrite ?Ec; try done.
    - cbn. rewrite (br_hashes _ _ _ Hb). unfold key_hashes. by rewrite !map_app.
    - cbn. generalize (br_first _ _ _ Hb). destruct (concat done ++ cur); cbn; by intros ->.
    - rewrite last_snoc. cbn. generalize (br_prev _ _ _ Hb). unfold entry_fits in Hfit.
      destruct e as [[|x k] v]; cbn in *; [rewrite (@len_nil byte) in Hfit; lia|].
      destruct (last (concat done ++ cur)); by intros ->. }
  rewrite (Add_spec (block b1) cur Hbb e.1 e.2 ltac:(by destruct e) Hbs Hcur).
  cbn [add_to]. unfold bb_fullb. destruct e as [k v] eqn:Ee. cbn [fst snd] in *. rewrite <-Ee in *.
  cbn [block b1]. destruct ((0 <? len cur) && _) eqn:Efull; cbn [mbind outcome_bind snd fst].
  - assert (cur <> []) as Hne by (intros ->; done).
    destruct (flushBlock_spec b done cur Hb Hlim Hne) as (b' & Hfl & Hb' & Hbs').
    assert (exists b1', flushBlock b1 = Ok b1' /\ block b1' = block b' /\ bid b1' = bid b /\
      metas b1' = metas b' /\ hashes b1' = hashes b1 /\ firstKey b1' = firstKey b1 /\
      prevKey b1' = prevKey b1 /\ offset b1' = offset b' /\ buf b1' = buf b' /\ finished b1' = false)
      as (b1' & Hfl1 & E1 & E2 & E3 & E4 & E5 & E6 & E7 & E8 & E9).
    { unfold flushBlock in *. cbn [b1 block]. destruct (IsEmpty (block b)) eqn:Ei.
      - rewrite (IsEmpty_spec b done cur Hb) in Ei. by apply bool_decide_eq_true in Ei.
      - destruct (2^32 - 1 <? _); [done|]. injection Hfl as <-. eexists. split; [done|].
        cbn. repeat (split; [done|]). done. }
    rewrite Hfl1. cbn [mbind outcome_bind].
    pose proof (br_block _ _ _ Hb') as Hbb'. rewrite E1.
    rewrite (Add_spec (block b') [] Hbb' k v ltac:(by rewrite <-Ee) ltac:(by rewrite Hbs')
      ltac:(intros x Hx; by apply elem_of_nil in Hx)).
    rewrite empty_not_full by done. cbn [mbind outcome_bind fst].
    eexists. split; [done|].
    assert (concat (done ++ [cur]) ++ [e] = (concat done ++ cur) ++ [e]) as Ec
      by (rewrite concat_app; cbn; by rewrite app_nil_r).
    split; [|split; [cbn; exact Hbs'|done]].
    eapply Hmk; [done| | | |apply (br_ok _ _ _ Hb')].
    + unfold set_block. rewrite E2, E3, E4, E5, E6, E7, E8, E9, (br_metas _ _ _ Hb'), (br_offset _ _ _ Hb'), (br_buf _ _ _ Hb').
      reflexivity.
    + rewrite Ee. apply (Add_rep (block b') [] Hbb' k v); [by rewrite <-Ee|intros x Hx; by apply elem_of_nil in Hx|].
      by apply empty_not_full.
    + cbn. by rewrite Hbs'.
  - eexists. split; [done|]. split; [|split; [done|by rewrite app_assoc]].
    eapply Hmk; [by rewrite app_assoc| | | |apply (br_ok _ _ _ Hb)].
    + unfold set_block. cbn [b1 bid metas hashes firstKey prevKey offset buf finished].
      rewrite (br_metas _ _ _ Hb), (br_offset _ _ _ Hb), (br_buf _ _ _ Hb). reflexivity.
    + rewrite Ee. apply (Add_rep (block b) cur Hbb k v); [by rewrite <-Ee|done|].
      unfold bb_fullb. by rewrite <-Ee.
    + done.
Qed.

(** *** The footer *)
Lemma len_encodeFooter f : len (encodeFooter f) = footerSize.
Proof. unfold encodeFooter, footerSize. len_lia. Qed.

Definition footer_ok (f : footer) : Prop :=
  0 <= bloomOffset f < 2^64 /\ 0 <= bloomLen f < 2^32 /\
  0 <= indexOffset f < 2^64 /\ 0 <= indexLen f < 2^32 /\ version f = version1.

Lemma decode_encodeFooter pre f : footer_ok f -> decodeFooter (pre ++ encodeFooter f) = Ok f.
Proof.
  intros (H1 & H2 & H3 & H4 & H5). unfold decodeFooter.
  pose proof (len_encodeFooter f) as Hlf. pose proof (len_nonneg pre) as Hpre.
  rewrite len_app, Hlf. rewrite (proj2 (Z.ltb_ge _ _)) by (unfold footerSize; lia).
  rewrite (slice_from_app pre (encodeFooter f)) by lia. cbn [mbind outcome_bind].
  assert (exists hd, hd = put_le 8 (bloomOffset f) ++ put_le 4 (bloomLen f) ++ put_le 8 (indexOffset f)
              ++ put_le 4 (indexLen f) ++ [version f] /\
            encodeFooter f = hd ++ put_le 4 (crc32 hd) ++ put_le 4 magicValue) as (hd & Ehd & E) by eauto.
  assert (len hd = 25) as Hhd by (rewrite Ehd; len_lia).
  rewrite E. rewrite (slice_from_app2 hd (put_le 4 (crc32 hd)) (put_le 4 magicValue) 29) by len_lia. cbn [mbind outcome_bind].
  rewrite <-(app_nil_r (put_le 4 magicValue)) at 1. rewrite le_Uint32_put. cbn [mbind outcome_bind].
  rewrite (u32_small magicValue), Z.eqb_refl by (unfold magicValue; lia). cbn [negb].
  rewrite (slice_app3 hd (put_le 4 (crc32 hd)) (put_le 4 magicValue) 25 29) by len_lia. cbn [mbind outcome_bind].
  rewrite <-(app_nil_r (put_le 4 (crc32 hd))) at 1. rewrite le_Uint32_put, u32_small by apply crc32_range.
  cbn [mbind outcome_bind]. rewrite (slice_to_app hd _ 25) by lia. cbn [mbind outcome_bind].
  rewrite Z.eqb_refl. cbn [negb].
  generalize (put_le 4 (crc32 hd) ++ put_le 4 magicValue). intros tl.
  rewrite (slice_from_eq (hd ++ tl) [] (put_le 8 (bloomOffset f) ++ put_le 4 (bloomLen f) ++ put_le 8 (indexOffset f)
              ++ put_le 4 (indexLen f) ++ [version f] ++ tl) 0) by (rewrite ?Ehd; first [app_eq|done]).
  cbn [mbind outcome_bind]. rewrite le_Uint64_put, u64_small by done. cbn [mbind outcome_bind].
  rewrite (slice_from_eq (hd ++ tl) (put_le 8 (bloomOffset f)) (put_le 4 (bloomLen f) ++ put_le 8 (indexOffset f)
              ++ put_le 4 (indexLen f) ++ [version f] ++ tl) 8) by (rewrite ?Ehd; first [app_eq|len_lia]).
  cbn [mbind outcome_bind]. rewrite le_Uint32_put, u32_small by done. cbn [mbind outcome_bind].
  rewrite (slice_from_eq (hd ++ tl) (put_le 8 (bloomOffset f) ++ put_le 4 (bloomLen f)) (put_le 8 (indexOffset f)
              ++ put_le 4 (indexLen f) ++ [version f] ++ tl) 12) by (rewrite ?Ehd; first [app_eq|len_lia]).
  cbn [mbind outcome_bind]. rewrite le_Uint64_put, u64_small by done. cbn [mbind outcome_bind].
  rewrite (slice_from_eq (hd ++ tl) (put_le 8 (bloomOffset f) ++ put_le 4 (bloomLen f) ++ put_le 8 (indexOffset f))
              (put_le 4 (indexLen f) ++ [version f] ++ tl) 20) by (rewrite ?Ehd; first [app_eq|len_lia]).
  cbn [mbind outcome_bind]. rewrite le_Uint32_put, u32_small by done. cbn [mbind outcome_bind].
  rewrite (index_eq (hd ++ tl) (put_le 8 (bloomOffset f) ++ put_le 4 (bloomLen f) ++ put_le 8 (indexOffset f)
              ++ put_le 4 (indexLen f)) (version f) tl 24) by (rewrite ?Ehd; first [app_eq|len_lia]).
  cbn [mbind outcome_bind]. rewrite H5. rewrite bool_decide_eq_true_2 by done. cbn [negb].
  rewrite <-H5. by destruct f.
Qed.

(** *** The index *)
Fixpoint metas_ok (prev : option (bytes * Z)) (ms : list blockMeta) : Prop :=
  match ms with
  | [] => True
  | m :: ms =>
      0 < msize m < 2^32 /\ 0 <= moffset m < 2^64 /\ len (mlastKey m) < 2^16 /\
      match prev with Some (k, e) => e <= moffset m /\ blt k (mlastKey m) | None => True end /\
      metas_ok (Some (mlastKey m, u64 (moffset m + msize m + blockChecksumSize))) ms
  end.

Lemma decodeMetas_spec fuel A ms prev :
  metas_ok prev ms -> (length ms < fuel)%nat ->
  decodeMetas fuel (A ++ concat (map encodeMeta ms)) (len A) prev = Ok ms.
Proof.
  revert A ms prev; induction fuel as [|fuel IH]; intros A ms prev Hok Hf; [lia|].
  cbn [decodeMetas]. destruct ms as [|m ms].
  { cbn. rewrite app_nil_r, Z.ltb_irrefl. done. }
  destruct Hok as (Hsz & Hoff & Hlk & Hprev & Hok). cbn [map concat].
  set (rest := concat (map encodeMeta ms)).
  set (d := A ++ encodeMeta m ++ rest).
  assert (d = A ++ put_le 2 (len (mlastKey m)) ++ mlastKey m ++ put_le 8 (moffset m) ++ put_le 4 (msize m) ++ rest)
    as Ed by (unfold d, encodeMeta; app_eq).
  assert (len d = len A + 14 + len (mlastKey m) + len rest) as Hd by (rewrite Ed; len_lia).
  pose proof (len_nonneg rest). pose proof (len_nonneg (mlastKey m)). pose proof (len_nonneg A).
  unfold indexKeyLenSize, indexOffsetSize, indexBlockSizeSize.
  rewrite (proj2 (Z.ltb_lt (len A) _)) by lia. rewrite (proj2 (Z.ltb_ge _ _)) by lia.
  rewrite (slice_from_eq d A _ (len A)) by (exact Ed || done). cbn [mbind outcome_bind].
  rewrite le_Uint16_put, u16_small by lia. cbn [mbind outcome_bind].
  rewrite (proj2 (Z.ltb_ge _ _)) by lia.
  rewrite (slice_eq d (A ++ put_le 2 (len (mlastKey m))) (mlastKey m) (put_le 8 (moffset m) ++ put_le 4 (msize m) ++ rest)
             (len A + 2)) by (rewrite ?Ed; first [app_eq|len_lia]).
  cbn [mbind outcome_bind].
  rewrite (slice_from_eq d (A ++ put_le 2 (len (mlastKey m)) ++ mlastKey m) (put_le 8 (moffset m) ++ put_le 4 (msize m) ++ rest)
             (len A + 2 + len (mlastKey m))) by (rewrite ?Ed; first [app_eq|len_lia]).
  cbn [mbind outcome_bind]. rewrite le_Uint64_put, u64_small by lia. cbn [mbind outcome_bind].
  rewrite (slice_from_eq d (A ++ put_le 2 (len (mlastKey m)) ++ mlastKey m ++ put_le 8 (moffset m)) (put_le 4 (msize m) ++ rest)
             (len A + 2 + len (mlastKey m) + 8)) by (rewrite ?Ed; first [app_eq|len_lia]).
  cbn [mbind outcome_bind]. rewrite le_Uint32_put, u32_small by lia. cbn [mbind outcome_bind].
  rewrite (proj2 (Z.eqb_neq _ _)) by lia.
  assert (match prev with Some (_, e) => moffset m <? e | None => false end = false) as ->
    by (destruct prev as [[k e]|]; [apply Z.ltb_ge; tauto|done]).
  assert (match prev with Some (k, _) => bleb (mlastKey m) k | None => false end = false) as ->.
  { destruct prev as [[k e]|]; [|done]. destruct (bleb_spec (mlastKey m) k) as [Hb|]; [|done].
    apply ble_not_blt in Hb. destruct Hb. tauto. }
  specialize (IH (A ++ encodeMeta m) ms _ Hok). fold rest in IH.
  rewrite <-app_assoc in IH. fold d in IH.
  replace (len A + 2 + len (mlastKey m) + 8 + 4) with (len (A ++ encodeMeta m))
    by (unfold encodeMeta; len_lia).
  rewrite IH by (cbn in Hf; lia). cbn. by destruct m.
Qed.

Lemma decode_encodeIndex fk ms :
  len fk < 2^16 -> metas_ok None ms ->
  exists ix, encodeIndex fk ms = Ok ix /\ decodeIndex ix = Ok (fk, ms) /\
    ix = put_le 2 (len fk) ++ fk ++ concat (map encodeMeta ms).
Proof.
  intros Hfk Hok. unfold encodeIndex. rewrite (proj2 (Z.ltb_ge _ _)) by (unfold maxKeyLen; lia).
  assert (existsb (fun m => maxKeyLen <? len (mlastKey m)) ms = false) as ->.
  { clear -Hok. generalize dependent (@None (bytes * Z)). induction ms as [|m ms IH]; intros p Hok; [done|].
    destruct Hok as (_ & _ & Hlk & _ & Hok). cbn. apply orb_false_iff. split; [|by eapply IH].
    apply Z.ltb_ge. unfold maxKeyLen. lia. }
  eexists. split; [done|]. split; [|done]. unfold decodeIndex, indexKeyLenSize.
  set (d := put_le 2 (len fk) ++ fk ++ concat (map encodeMeta ms)).
  pose proof (len_nonneg fk). pose proof (len_nonneg (concat (map encodeMeta ms))).
  assert (len d = 2 + len fk + len (concat (map encodeMeta ms))) as Hd by (unfold d; len_lia).
  rewrite (proj2 (Z.ltb_ge _ _)) by lia.
  rewrite (slice_from_eq d [] (put_le 2 (len fk) ++ fk ++ concat (map encodeMeta ms)) 0) by done.
  cbn [mbind outcome_bind].
  rewrite le_Uint16_put, u16_small by lia. cbn [mbind outcome_bind].
  rewrite (proj2 (Z.ltb_ge _ _)) by lia.
  rewrite (slice_eq d (put_le 2 (len fk)) fk (concat (map encodeMeta ms)) 2) by (unfold d; first [reflexivity|len_lia]).
  cbn [mbind outcome_bind].
  assert (d = (put_le 2 (len fk) ++ fk) ++ concat (map encodeMeta ms)) as Ed by (unfold d; app_eq).
  replace (2 + len fk) with (len (put_le 2 (len fk) ++ fk)) by len_lia. rewrite Ed.
  rewrite decodeMetas_spec; [done|done|].
  rewrite !length_app. clear. assert (length ms <= length (concat (map encodeMeta ms)))%nat.
  { induction ms as [|m ms IH]; [done|]. cbn [map concat length]. unfold encodeMeta at 1.
    rewrite !length_app, !length_put_le. lia. }
  rewrite length_put_le. lia.
Qed.

(** *** Sizes *)
(** An upper bound of the file built from [es], up to a constant. *)
Definition weight (es : list entry) : Z := 2 * len (encs es) + 64 * len es.
Definition sst_fits (es : list entry) : Prop := weight es + 2^17 < 2^32.

Lemma len_blk_bytes es : len (blk_bytes es) = len (encs es) + 2 * len es + 2.
Proof. unfold blk_bytes. pose proof (len_offs_bytes es). len_lia. Qed.
Lemma len_sealed es : len (sealed es) = len (blk_bytes es) + 4.
Proof. unfold sealed. len_lia. Qed.

Lemma len_sealed_all bss :
  Forall (fun es => es <> []) bss ->
  len (sealed_all bss) <= len (encs (concat bss)) + 8 * len (concat bss).
Proof.
  induction 1 as [|es bss Hes Hne IH]; [done|]. unfold sealed_all in *. cbn [map concat].
  rewrite encs_app, !len_app, len_sealed, len_blk_bytes.
  assert (1 <= len es) by (destruct es; [done|len_lia]). lia.
Qed.

Lemma block_ok_nonempty bss : Forall block_ok bss -> Forall (fun es => es <> []) bss.
Proof. intros H. apply (Forall_impl _ _ _ H). intros es Hes. apply (ok_nonempty _ Hes). Qed.

Fixpoint add_all (b : Builder) (es : list entry) : outcome SstErr Builder :=
  match es with
  | [] => Ok b
  | e :: es => b ← Builder_Add b e.1 e.2; add_all b es
  end.

Lemma weight_app l1 l2 : weight (l1 ++ l2) = weight l1 + weight l2.
Proof. unfold weight. rewrite encs_app. len_lia. Qed.
Lemma weight_nonneg l : 0 <= weight l.
Proof. unfold weight. len_lia. Qed.

Lemma add_all_spec es b done cur :
  build_rep b done cur -> ksorted ((concat done ++ cur) ++ es) -> Forall entry_fits es ->
  sst_fits ((concat done ++ cur) ++ es) ->
  exists b' done' cur', add_all b es = Ok b' /\ build_rep b' done' cur' /\
    concat done' ++ cur' = (concat done ++ cur) ++ es /\ (es <> [] \/ cur <> [] -> cur' <> []).
Proof.
  revert b done cur; induction es as [|e es IH]; intros b done cur Hb Hs Hf Hw; cbn [add_all].
  { exists b, done, cur. rewrite app_nil_r. split; [done|]. split; [done|]. split; [done|]. by intros [?|?]. }
  apply Forall_cons in Hf as [Hfe Hf].
  assert (forall x, x ∈ concat done ++ cur -> blt x.1 e.1) as Hlt.
  { apply ksorted_app_inv in Hs as (_ & _ & Hlt). intros x Hx. apply Hlt; [done|by left]. }
  assert (len (sealed_all (done ++ [cur])) < 2^32) as Hlim.
  { unfold sst_fits in Hw. rewrite weight_app in Hw. pose proof (weight_nonneg (e :: es)).
    rewrite sealed_all_app, len_app. pose proof (len_sealed_all done (block_ok_nonempty _ (br_ok _ _ _ Hb))).
    unfold sealed_all at 2. cbn [map concat]. rewrite app_nil_r, len_sealed, len_blk_bytes.
    unfold weight in *. rewrite encs_app, !len_app in *. len_lia. }
  destruct (Builder_Add_spec b done cur e Hb Hfe Hlt Hlim) as (b' & Ha & Hb' & Hbs & Hcat).
  rewrite Ha. cbn [mbind outcome_bind].
  set (st := add_to (bsize (block b)) (done, cur) e) in *.
  assert (st.2 <> []) as Hst.
  { unfold st, add_to. destruct (_ && _); cbn; [done|]. by destruct cur. }
  destruct (IH b' st.1 st.2 Hb') as (b'' & done'' & cur'' & H1 & H2 & H3 & H4).
  - rewrite Hcat, <-app_assoc. done.
  - done.
  - rewrite Hcat, <-app_assoc. done.
  - exists b'', done'', cur''. split; [done|]. split; [done|]. split; [by rewrite H3, Hcat, <-app_assoc|].
    intros _. apply H4. by right.
Qed.

(** *** From the file to the reader's contract *)
Lemma map_last_key_metas off bss : map mlastKey (metas_of off bss) = map last_key bss.
Proof. revert off; induction bss as [|es bss IH]; intros off; cbn; [done|]. by rewrite IH. Qed.

Lemma last_key_norm es : last_key (map norm es) = last_key es.
Proof. unfold last_key. rewrite fmap_last. by destruct (last es). Qed.
Lemma ikeys_norm es : ikeys_ok es -> ikeys_ok (map norm es).
Proof. intros H. apply Forall_map. by apply (Forall_impl _ _ _ H). Qed.

Lemma metas_of_lookup off bss i es :
  bss !! i = Some es ->
  metas_of off bss !! i =
    Some (mkMeta (off + len (sealed_all (take i bss))) (len (blk_bytes es)) (last_key es)).
Proof.
  revert off i; induction bss as [|es' bss IH]; intros off [|i] Hi; cbn in Hi; try done.
  - injection Hi as ->. cbn. by rewrite Z.add_0_r.
  - cbn. rewrite (IH _ _ Hi). do 2 f_equal. unfold sealed_all. cbn [map concat]. len_lia.
Qed.

Lemma metas_of_ok off bss prev :
  Forall block_ok bss -> ksorted (concat bss) -> 0 <= off -> off + len (sealed_all bss) < 2^32 ->
  match prev with
  | Some (k, e) => e = u64 off /\ forall x, x ∈ concat bss -> blt k x.1
  | None => True
  end ->
  metas_ok prev (metas_of off bss).
Proof.
  intros Hok. revert off prev. induction Hok as [|es bss Hes Hok IH]; intros off prev Hs Hoff Hlim Hprev; [done|].
  cbn [metas_of metas_ok msize moffset mlastKey]. cbn [concat] in Hs.
  unfold sealed_all in Hlim. cbn [map concat] in Hlim. rewrite len_app in Hlim. fold (sealed_all bss) in Hlim.
  pose proof (len_nonneg (sealed_all bss)). rewrite len_sealed in *. pose proof (len_blk_bytes es) as Hlb.
  destruct (last_key_elem es (ok_nonempty _ Hes)) as (e & He & Ek & _).
  pose proof (ok_fits _ Hes) as Hfit. rewrite Forall_forall in Hfit. destruct (Hfit e He) as [Hk _].
  apply ksorted_app_inv in Hs as (Hs1 & Hs2 & Hlt).
  split; [len_lia|]. split; [len_lia|]. split; [rewrite <-Ek; unfold maxKeyLen in Hk; lia|]. split.
  - destruct prev as [[k en]|]; [|done]. destruct Hprev as [-> Hp]. split.
    + rewrite u64_small; len_lia.
    + rewrite <-Ek. apply Hp. cbn. apply elem_of_app. by left.
  - apply IH; [done|len_lia|lia|]. split.
    + unfold blockChecksumSize. f_equal. lia.
    + intros x Hx. rewrite <-Ek. by apply Hlt.
Qed.

Lemma len_index_le bss off :
  Forall block_ok bss ->
  len (concat (map encodeMeta (metas_of off bss))) <= len (encs (concat bss)) + 14 * len (concat bss).
Proof.
  intros Hok. revert off. induction Hok as [|es bss Hes Hok IH]; intros off; [done|].
  cbn [metas_of map concat]. specialize (IH (off + len (sealed es))).
  rewrite encs_app, !len_app. unfold encodeMeta at 1. cbn [mlastKey moffset msize].
  destruct (last_key_elem es (ok_nonempty _ Hes)) as (e & He & Ek & _).
  assert (len (last_key es) <= len (encs es)).
  { apply list_elem_of_split in He as (l1 & l2 & ->). rewrite encs_app. unfold encs at 2. cbn [map concat].
    fold (encs l2). rewrite !len_app, len_enc, <-Ek. unfold value_size, blockEntryHeader, blockKeyLenSize, blockValueLenSize, blockFlagSize.
    destruct (Tombstone _); len_lia. }
  assert (1 <= len es) by (destruct es; [by destruct (ok_nonempty _ Hes)|len_lia]).
  len_lia.
Qed.

Lemma BuildBloomFilter_len hs :
  hs <> [] -> exists f, BuildBloomFilter hs = Some f /\ 0 < len f <= 2 * len hs + 16.
Proof.
  intros Hne. unfold BuildBloomFilter.
  assert (0 < len hs) as Hpos by (destruct hs; [done|len_lia]).
  rewrite (proj2 (Z.eqb_neq _ _)) by lia. eexists. split; [done|].
  set (nb := (if len hs * bitsPerKey <? 64 then 64 else len hs * bitsPerKey)).
  assert (64 <= nb <= 10 * len hs + 64) as Hnb
    by (unfold nb, bitsPerKey; destruct (Z.ltb_spec (len hs * 10) 64); lia).
  assert (forall k nb' l f, length (fold_left (fun f h => set_probes k f nb' (bloom_delta h) h) l f) = length f) as Hl.
  { intros k nb' l. induction l as [|x l IH]; intros f; cbn; [done|]. by rewrite IH, length_set_probes. }
  unfold len. rewrite Hl, length_app, repeat_length. cbn [length]. fold (len hs). div_lia.
Qed.

Lemma concat_norm bss : concat (map (map norm) bss) = map norm (concat bss).
Proof. by rewrite concat_map. Qed.

Section finish.
Context (b : Builder) (done : list (list entry)) (cur : list entry) (Hb : build_rep b done cur).
Context (Hne : cur <> []).
Let bss := done ++ [cur].
Let all := concat bss.
Context (Hik : ikeys_ok all) (Hfit : sst_fits all).

Lemma all_eq : all = concat done ++ cur.
Proof. unfold all, bss. rewrite concat_app. cbn. by rewrite app_nil_r. Qed.

Lemma finish_lim : len (sealed_all bss) <= len (encs all) + 8 * len all /\ len (sealed_all bss) < 2^32.
Proof.
  assert (Forall (fun es => es <> []) bss) as H.
  { apply Forall_app. split; [apply block_ok_nonempty, (br_ok _ _ _ Hb)|by constructor]. }
  apply len_sealed_all in H. fold all in H. unfold sst_fits, weight in Hfit. split; [done|]. len_lia.
Qed.

Definition index_bytes (fk : bytes) : bytes :=
  put_le 2 (len fk) ++ fk ++ concat (map encodeMeta (metas_of 0 bss)).

Record finish_ok (id : Z) (file : bytes) (r : Reader) (bloom : bytes) : Prop := {
  fo_data : rdata r = file;
  fo_file : exists rest, file = sealed_all bss ++ rest;
  fo_bloom : BuildBloomFilter (key_hashes all) = Some bloom /\ rbloom r = Some bloom;
  fo_first : exists e es, all = e :: es /\ rfirstKey r = e.1;
  fo_metas : rmetas r = metas_of 0 bss;
  fo_id : rid r = id;
  fo_len : len file < 2^32
}.

Lemma Finish_open id :
  exists file r bloom, Finish b = Ok file /\ openFromData id file = Ok r /\ finish_ok id file r bloom /\
    Forall block_ok bss.
Proof.
  pose proof finish_lim as [Hlim1 Hlim].
  destruct (flushBlock_spec b done cur Hb Hlim Hne) as (b' & Hfl & Hb' & _). fold bss in Hb'.
  pose proof all_eq as Hall.
  unfold Finish. rewrite (br_open _ _ _ Hb).
  destruct (concat done ++ cur) as [|e es] eqn:Eall.
  { exfalso. apply app_eq_nil in Eall as [_ ?]. done. }
  pose proof (br_first _ _ _ Hb) as Hfk. rewrite Eall in Hfk. rewrite Hfk, Hfl. cbn [mbind outcome_bind].
  pose proof (br_hashes _ _ _ Hb') as Hh. rewrite app_nil_r in Hh. fold all in Hh. rewrite Hh.
  destruct (BuildBloomFilter_len (key_hashes all)) as (bloom & Hbl & Hbll); [by rewrite Hall|].
  rewrite Hbl. change (sl (Some bloom)) with bloom. unfold key_hashes in Hbll. rewrite len_map in Hbll.
  rewrite (br_metas _ _ _ Hb'), (br_offset _ _ _ Hb'), (br_buf _ _ _ Hb').
  pose proof (br_sorted _ _ _ Hb') as Hs. rewrite app_nil_r in Hs.
  assert (Forall entry_fits all) as Hfa.
  { apply Forall_concat. apply (Forall_impl _ _ _ (br_ok _ _ _ Hb')). intros l Hl. apply (ok_fits _ Hl). }
  assert (0 < len e.1 <= maxKeyLen) as Hke by (rewrite Hall in Hfa; apply Forall_cons in Hfa as [[? _] _]; done).
  destruct (decode_encodeIndex e.1 (metas_of 0 bss)) as (ix & Hix & Hdec & Eix).
  { unfold maxKeyLen in Hke. lia. }
  { apply metas_of_ok; [apply (br_ok _ _ _ Hb')|done|lia|lia|done]. }
  rewrite Hix. cbn [mbind outcome_bind].
  assert (len ix <= 2 + 65535 + len (encs all) + 14 * len all) as Hlix.
  { rewrite Eix. pose proof (len_index_le bss 0 (br_ok _ _ _ Hb')) as H. fold all in H.
    unfold maxKeyLen in Hke. len_lia. }
  unfold sst_fits, weight in Hfit. pose proof (len_nonneg ix). pose proof (len_nonneg (sealed_all bss)).
  pose proof (len_nonneg (encs all)). pose proof (len_nonneg all).
  rewrite (u64_small (len (sealed_all bss))) by lia. rewrite (u32_small (len bloom)) by lia.
  rewrite (u32_small (len ix)) by lia. rewrite (u64_small (len (sealed_all bss) + len bloom)) by lia.
  set (f := mkFooter _ _ _ _ _). set (file := sealed_all bss ++ bloom ++ ix ++ encodeFooter f).
  exists file, (mkReader id file (Some bloom) e.1 (metas_of 0 bss)), bloom.
  split; [done|].
  assert (len file = len (sealed_all bss) + len bloom + len ix + 33) as Hlf
    by (unfold file; rewrite !len_app, len_encodeFooter; unfold footerSize; lia).
  split; [|split; [split; cbn; eauto; lia|apply (br_ok _ _ _ Hb')]].
  unfold openFromData.
  assert (decodeFooter file = Ok f) as ->.
  { unfold file. rewrite (app_assoc bloom), (app_assoc (sealed_all bss)). apply decode_encodeFooter.
    unfold footer_ok, f. cbn. repeat split; lia. }
  cbn [mbind outcome_bind f bloomOffset bloomLen indexOffset indexLen].
  rewrite !u64_small by lia. rewrite (proj2 (Z.ltb_ge _ _)) by lia.
  rewrite (proj2 (Z.ltb_lt 0 _)) by lia.
  rewrite (slice_eq file (sealed_all bss) bloom (ix ++ encodeFooter f) (len (sealed_all bss)) (len (sealed_all bss) + len bloom)) by done.
  cbn [mbind outcome_bind].
  rewrite (proj2 (Z.ltb_ge _ _)) by lia.
  rewrite (slice_eq file (sealed_all bss ++ bloom) ix (encodeFooter f) (len (sealed_all bss) + len bloom))
    by (unfold file; first [app_eq|len_lia]).
  cbn [mbind outcome_bind]. rewrite Hdec. done.
Qed.

Lemma finish_sst_rep id file r bloom :
  finish_ok id file r bloom -> Forall block_ok bss -> sst_rep r (map (map norm) bss).
Proof.
  intros Hfo Hok. pose proof finish_lim as [Hlim1 Hlim].
  assert (ksorted all) as Hs by (rewrite all_eq; apply (br_sorted _ _ _ Hb)).
  split.
  - rewrite (fo_metas _ _ _ _ Hfo), map_last_key_metas, map_map. apply map_ext. intros. symmetry. apply last_key_norm.
  - intros i es Hi. rewrite list_lookup_fmap in Hi. destruct (bss !! i) as [es0|] eqn:E0; [|done].
    injection Hi as <-. pose proof (Forall_lookup_1 _ _ _ _ Hok E0) as Hes.
    destruct (ok_decode _ Hes) as (blk & Hdec & Hrep). exists blk. split; [|done].
    unfold readBlock. rewrite (fo_metas _ _ _ _ Hfo).
    assert (len (metas_of 0 bss) = len bss) as Hlm.
    { pose proof (f_equal length (map_last_key_metas 0 bss)) as H. rewrite !length_map in H. unfold len. lia. }
    pose proof (lookup_lt_Some _ _ _ E0) as Hlt.
    replace ((Z.of_nat i <? 0) || (len (metas_of 0 bss) <=? Z.of_nat i)) with false
      by (symmetry; apply orb_false_iff; rewrite Z.ltb_ge, Z.leb_gt, Hlm; unfold len; lia).
    assert (@index SstErr _ (metas_of 0 bss) (Z.of_nat i) =
       Ok (mkMeta (len (sealed_all (take i bss))) (len (blk_bytes es0)) (last_key es0))) as ->.
    { unfold index. rewrite (proj2 (Z.leb_le _ _)), (proj2 (Z.ltb_lt _ _)) by (rewrite ?Hlm; unfold len; lia).
      cbn. by rewrite Nat2Z.id, (metas_of_lookup 0 bss i es0 E0). }
    cbn [mbind outcome_bind]. unfold readBlockFromData. cbn [moffset msize].
    rewrite (fo_data _ _ _ _ Hfo). destruct (fo_file _ _ _ _ Hfo) as [rest Efile].
    pose proof (fo_len _ _ _ _ Hfo) as Hfl.
    set (pre := sealed_all (take i bss)). set (post := sealed_all (drop (S i) bss) ++ rest).
    assert (file = pre ++ blk_bytes es0 ++ put_le 4 (crc32 (blk_bytes es0)) ++ post) as Ef.
    { rewrite Efile. rewrite <-(take_drop_middle bss i es0 E0) at 1. rewrite sealed_all_app.
      unfold sealed_all at 2. cbn [map concat]. unfold sealed at 1, post, pre. app_eq. }
    assert (len file = len pre + len (blk_bytes es0) + 4 + len post) as Hlen by (rewrite Ef; len_lia).
    pose proof (len_nonneg pre). pose proof (len_nonneg (blk_bytes es0)). pose proof (len_nonneg post).
    unfold blockChecksumSize. rewrite (u64_small (len pre + len (blk_bytes es0))) by lia.
    rewrite (u64_small (_ + 4)) by lia. rewrite (proj2 (Z.ltb_ge _ _)) by lia.
    rewrite (slice_eq file pre (blk_bytes es0) (put_le 4 (crc32 (blk_bytes es0)) ++ post) (len pre)) by done.
    cbn [mbind outcome_bind].
    rewrite (slice_eq file (pre ++ blk_bytes es0) (put_le 4 (crc32 (blk_bytes es0))) post (len pre + len (blk_bytes es0)))
      by (rewrite ?Ef; first [app_eq|len_lia]).
    cbn [mbind outcome_bind]. rewrite <-(app_nil_r (put_le 4 _)), le_Uint32_put, u32_small by apply crc32_range.
    cbn [mbind outcome_bind]. rewrite Z.eqb_refl. cbn [negb]. exact Hdec.
  - apply Forall_map. apply (Forall_impl _ _ _ Hok). intros es Hes. pose proof (ok_nonempty _ Hes). by destruct es.
  - rewrite concat_norm. by apply ksorted_norm.
  - rewrite concat_norm. by apply ikeys_norm.
  - intros e He. rewrite concat_norm in He. apply list_elem_of_fmap in He as (e0 & -> & He0). cbn.
    destruct (fo_bloom _ _ _ _ Hfo) as [Hbl Hrb]. unfold MayContain. rewrite Hrb, <-Hbl. unfold key_hashes.
    rewrite <-(map_map (fun e : entry => UserKey e.1) BloomHash). apply bloom_contains.
    + rewrite len_map. unfold sst_fits, weight, bitsPerKey in *. fold all in Hfit. len_lia.
    + apply list_elem_of_fmap. eauto.
  - rewrite concat_norm. destruct (fo_first _ _ _ _ Hfo) as (e & es & Ea & Hfk). fold all.
    rewrite Ea. cbn. done.
Qed.
End finish.

(** Building a table from sorted entries and opening it. *)
Lemma build_open id bs es :
  es <> [] -> ksorted es -> ikeys_ok es -> Forall entry_fits es -> sst_fits es -> bs <= maxBlockOffset ->
  exists b file r bss, add_all (NewBuilder id bs) es = Ok b /\ Finish b = Ok file /\
    openFromData id file = Ok r /\ sst_rep r bss /\ concat bss = map norm es /\ rid r = id.
Proof.
  intros Hne Hs Hik Hf Hw Hbs.
  destruct (add_all_spec es (NewBuilder id bs) [] [] (NewBuilder_rep id bs Hbs)) as (b & full & cur & Ha & Hb & Hcat & Hcur);
    [done..|]. cbn in Hcat.
  assert (concat (full ++ [cur]) = es) as Hall by (rewrite concat_app; cbn; by rewrite app_nil_r).
  destruct (Finish_open b full cur Hb (Hcur (or_introl Hne)) ltac:(by rewrite Hall) id)
    as (file & r & bloom & Hfin & Hop & Hfo & Hok).
  exists b, file, r, (map (map norm) (full ++ [cur])). do 3 (split; [done|]). split.
  - apply (finish_sst_rep b full cur Hb (Hcur (or_introl Hne)) ltac:(by rewrite Hall) ltac:(by rewrite Hall) id file r bloom); done.
  - split; [by rewrite concat_norm, Hall|apply (fo_id _ _ _ _ _ _ Hfo)].
Qed.

(** ** Claims *)

(** Versions survive normalisation: [norm] only makes tombstones canonical and
    nil data empty. *)
Lemma is_newest_norm es u q o :
  is_newest (map norm es) u q o <->
  match o with
  | None => is_newest es u q None
  | Some v => exists v0, v = norm_value v0 /\ is_newest es u q (Some v0)
  end.
Proof.
  destruct o as [v|]; cbn.
  - split.
    + intros (k & Hin & Hv & Hm). apply list_elem_of_fmap in Hin as ([k0 v0] & [= -> ->] & Hin).
      exists v0. split; [done|]. exists k0. split; [done|]. split; [done|].
      intros e He Hve. apply (Hm (norm e)); [|done]. apply list_elem_of_fmap. eauto.
    + intros (v0 & -> & k & Hin & Hv & Hm). exists k. split; [apply list_elem_of_fmap; by exists (k, v0)|].
      split; [done|]. intros e He Hve. apply list_elem_of_fmap in He as (e0 & -> & He0). by apply (Hm e0).
  - split.
    + intros Hm e He. apply (Hm (norm e)). apply list_elem_of_fmap. eauto.
    + intros Hm e He. apply list_elem_of_fmap in He as (e0 & -> & He0). by apply (Hm e0).
Qed.

Lemma key_compat_norm u es : key_compat u es -> key_compat u (map norm es).
Proof. intros H. apply Forall_map. by apply (Forall_impl _ _ _ H). Qed.

(** C33: SSTables round trip to snapshot reads.  A builder fed any non-empty,
    strictly sorted sequence of internal keys within the format limits (keys and
    values up to 65535 bytes, block size up to 65535, file below 4 GiB) succeeds;
    the file it produces opens; and on the open reader [GetAt u q] returns, for
    every [u] not a proper prefix or extension of a stored user key, the version of
    [u] with the largest sequence number not above [q], and not-found exactly when
    there is none, wherever block boundaries split the versions of a key; [Get u]
    is [GetAt] at the maximal sequence number. *)
Theorem sstable_build_get id bs es :
  es <> [] -> ksorted es -> ikeys_ok es -> Forall entry_fits es -> sst_fits es -> bs <= maxBlockOffset ->
  exists b file r, add_all (NewBuilder id bs) es = Ok b /\ Finish b = Ok file /\
    openFromData id file = Ok r /\
    forall u, key_compat u es ->
      (forall q, exists o, Reader_GetAt r u q = Ok o /\ is_newest (map norm es) u q o) /\
      (exists o, Reader_Get r u = Ok o /\ is_newest (map norm es) u MaxSeqNum o).
Proof.
  intros H1 H2 H3 H4 H5 H6. destruct (build_open id bs es H1 H2 H3 H4 H5 H6) as (b & file & r & bss & Ha & Hf & Ho & Hr & Hc & _).
  exists b, file, r. do 3 (split; [done|]). intros u Hu. rewrite <-Hc.
  assert (key_compat u (concat bss)) as Hcu by (rewrite Hc; by apply key_compat_norm).
  split; [intros q; by apply Reader_GetAt_newest|by apply Reader_Get_newest].
Qed.

Definition demo_table : list entry :=
  [(MakeInternalKey [Byte.x61] 9, NewValue (Some [Byte.x39])); (MakeInternalKey [Byte.x61] 4, NewTombstone);
   (MakeInternalKey [Byte.x62] 7, NewValue (Some []))].

Lemma sstable_build_get_witness :
  exists b file r, add_all (NewBuilder 3 40) demo_table = Ok b /\ Finish b = Ok file /\
    openFromData 3 file = Ok r /\
    forall u, key_compat u demo_table ->
      (forall q, exists o, Reader_GetAt r u q = Ok o /\ is_newest (map norm demo_table) u q o) /\
      (exists o, Reader_Get r u = Ok o /\ is_newest (map norm demo_table) u MaxSeqNum o).
Proof.
  apply (sstable_build_get 3 40 demo_table).
  - done.
  - repeat constructor.
  - by_decide.
  - by_decide.
  - vm_compute. reflexivity.
  - vm_compute. discriminate.
Defined.
