(* ===== verification/SSTIter.v ===== *)
(** * The SSTable iterator (src/sstable/iterator.go)

    The iterator over an open reader, block by block, with its error state.
    [None] is a panic.  Over a reader that satisfies [sst_rep] it yields the
    table's entries, or those between the bounds, in order. *)

From Stdlib Require Import ZArith Lia Sorted.
From stdpp Require Import base list option sorting.
From S2P Require Import Prelude GoBytes KV Entries Bloom Iter Block SSTable.

Record SSTableIterator := mkSIt {
  blockIdx : Z;
  entryIdx : Z;
  cblock : option Block;
  startKey : option bytes;
  endKey : option bytes;
  curKey : option bytes;
  curValue : Value;
  err : option SstErr
}.

Definition zeroValue : Value := mkValue None false.

Definition invalidate (it : SSTableIterator) : SSTableIterator :=
  mkSIt (blockIdx it) (entryIdx it) None (startKey it) (endKey it) None zeroValue (err it).

Definition set_err (it : SSTableIterator) (e : SstErr) : SSTableIterator :=
  mkSIt (blockIdx it) (entryIdx it) (cblock it) (startKey it) (endKey it) (curKey it) (curValue it) (Some e).

Section ops.
Context (r : Reader).

Definition loadBlock (it : SSTableIterator) : option SSTableIterator :=
  if NumBlocks r <=? blockIdx it
  then Some (mkSIt (blockIdx it) (entryIdx it) None (startKey it) (endKey it) (curKey it) (curValue it) (err it))
  else match readBlock r (blockIdx it) with
       | Ok b => Some (mkSIt (blockIdx it) 0 (Some b) (startKey it) (endKey it) (curKey it) (curValue it) (err it))
       | Err e => Some (invalidate (set_err it e))
       | Panic => None
       end.

Definition loadEntry (it : SSTableIterator) : option SSTableIterator :=
  match cblock it with
  | None => Some it
  | Some b =>
      match readEntry b (entryIdx it) with
      | Ok (k, v) => Some (mkSIt (blockIdx it) (entryIdx it) (cblock it) (startKey it) (endKey it) (Some k) v (err it))
      | Err e => Some (invalidate (set_err it e))
      | Panic => None
      end
  end.

Definition incr_entry (it : SSTableIterator) : SSTableIterator :=
  mkSIt (blockIdx it) (entryIdx it + 1) (cblock it) (startKey it) (endKey it) (curKey it) (curValue it) (err it).
Definition incr_block (it : SSTableIterator) : SSTableIterator :=
  mkSIt (blockIdx it + 1) (entryIdx it) (cblock it) (startKey it) (endKey it) (curKey it) (curValue it) (err it).

(** The inner loop of [seekToStart]: [true] when it returned (found or error),
    [false] when the block is exhausted. *)
Fixpoint seekInBlock (fuel : nat) (start : bytes) (it : SSTableIterator) : option (SSTableIterator * bool) :=
  match fuel, cblock it with
  | O, _ => Some (it, false)
  | _, None => Some (it, false)
  | S fuel, Some b =>
      if entryIdx it <? numEntries b then
        it ← loadEntry it;
        match err it with
        | Some _ => Some (it, true)
        | None =>
            if bltb (sl (curKey it)) start then seekInBlock fuel start (incr_entry it)
            else Some (it, true)
        end
      else Some (it, false)
  end.

(** [seekToStart]; the outer fuel bounds the blocks, the inner the entries. *)
Fixpoint seekToStart (fuel : nat) (start : bytes) (it : SSTableIterator) : option SSTableIterator :=
  match fuel, cblock it with
  | O, _ => Some it
  | _, None => Some it
  | S fuel, Some b =>
      rt ← seekInBlock (S (Z.to_nat (numEntries b))) start it;
      if (snd rt : bool) then Some (fst rt) else
      it ← loadBlock (incr_block (fst rt));
      match err it with
      | Some _ => Some it
      | None => seekToStart fuel start it
      end
  end.

Definition checkEnd (it : SSTableIterator) : SSTableIterator :=
  match cblock it, endKey it with
  | Some _, Some e => if bltb (sl (curKey it)) e then it else invalidate it
  | _, _ => it
  end.

Definition newSSTableIterator (startBlock : Z) (start end_ : option bytes) : option SSTableIterator :=
  let it := mkSIt startBlock 0 None start end_ None zeroValue None in
  it ← loadBlock it;
  match err it with
  | Some _ => Some it
  | None =>
      it ← match start, cblock it with
           | Some s, Some _ => seekToStart (S (length (rmetas r))) s it
           | _, Some _ => loadEntry it
           | _, None => Some it
           end;
      Some (checkEnd it)
  end.

Definition sit_IsValid (it : SSTableIterator) : bool :=
  match cblock it, err it with Some _, None => true | _, _ => false end.

Definition sit_Next (it : SSTableIterator) : option SSTableIterator :=
  if negb (sit_IsValid it) then Some it else
  let it := incr_entry it in
  match cblock it with
  | None => None
  | Some b =>
      (* the flag is the early return after moving to another block *)
      st ← (if numEntries b <=? entryIdx it
            then it ← loadBlock (incr_block it);
                 Some (it, match err it, cblock it with None, Some _ => false | _, _ => true end)
            else Some (it, false));
      if (snd st : bool) then Some (fst st) else
      it ← loadEntry (fst st);
      match err it with Some _ => Some it | None => Some (checkEnd it) end
  end.

Definition sit_Key (it : SSTableIterator) : option bytes := Some (sl (curKey it)).
Definition sit_Value (it : SSTableIterator) : option (option bytes) := Some (iter_value (curValue it)).
Definition sit_IsTombstone (it : SSTableIterator) : bool := Tombstone (curValue it).

#[global] Instance sit_iterator : Iterator SstErr SSTableIterator := {
  it_Key := sit_Key;
  it_Value := sit_Value;
  it_Next := sit_Next;
  it_IsValid := sit_IsValid;
  it_Err := err;
  it_Close := fun it => (invalidate it, None)
}.

Definition Reader_Scan : option SSTableIterator := newSSTableIterator 0 None None.

Definition Reader_ScanRange (start end_ : option bytes) : option SSTableIterator :=
  match start with
  | Some s =>
      match findBlock r (MakeSearchKey s) with
      | Ok startBlock =>
          if startBlock <? 0 then newSSTableIterator (len (rmetas r)) None None
          else newSSTableIterator startBlock (Some (MakeSearchKey s)) (MakeSearchKey <$> end_)
      | _ => None
      end
  | None => newSSTableIterator 0 None (MakeSearchKey <$> end_)
  end.
End ops.

(** ** What the iterator yields *)
Section yields.
Context (r : Reader) (bss : list (list entry)) (Hr : sst_rep r bss).

(** [it] stands before the entries [rem] of the table. *)
Definition stands (it : SSTableIterator) (rem : list entry) : Prop :=
  err it = None /\
  ((rem = [] /\ cblock it = None) \/
   exists l1 es l2 i blk k v,
     bss = l1 ++ es :: l2 /\ blockIdx it = len l1 /\ entryIdx it = Z.of_nat i /\
     cblock it = Some blk /\ blk_rep blk es /\ es !! i = Some (k, v) /\
     curKey it = Some k /\ curValue it = v /\ rem = drop i es ++ concat l2).

Lemma stands_end it : cblock it = None -> err it = None -> stands it [].
Proof. intros. split; [done|]. by left. Qed.

Lemma stands_at it l1 es l2 i blk k v :
  bss = l1 ++ es :: l2 -> blockIdx it = len l1 -> entryIdx it = Z.of_nat i ->
  cblock it = Some blk -> blk_rep blk es -> es !! i = Some (k, v) ->
  curKey it = Some k -> curValue it = v -> err it = None ->
  stands it (drop i es ++ concat l2).
Proof. intros. split; [done|]. right. by exists l1, es, l2, i, blk, k, v. Qed.

Lemma NumBlocks_spec : NumBlocks r = len bss.
Proof. apply (len_metas r bss Hr). Qed.

(** Loading a block that exists, or running off the end. *)
Lemma loadBlock_spec it l1 l2 :
  bss = l1 ++ l2 -> blockIdx it = len l1 -> err it = None ->
  match l2 with
  | [] => exists it', loadBlock r it = Some it' /\ cblock it' = None /\ err it' = None /\
            endKey it' = endKey it
  | es :: _ => exists it' blk, loadBlock r it = Some it' /\ cblock it' = Some blk /\ blk_rep blk es /\
                 blockIdx it' = len l1 /\ entryIdx it' = 0 /\ err it' = None /\ endKey it' = endKey it
  end.
Proof.
  intros E Hi He. unfold loadBlock. rewrite NumBlocks_spec, Hi, E. destruct l2 as [|es l2].
  - rewrite app_nil_r, Z.leb_refl. eexists. split; [done|]. done.
  - rewrite (proj2 (Z.leb_gt _ _)) by len_lia.
    destruct (sst_read _ _ Hr (length l1) es) as (blk & Hb & Hrep); [rewrite E; by apply list_lookup_middle|].
    fold (len l1) in Hb. rewrite Hb. eexists _, blk. split; [done|]. done.
Qed.

Lemma block_nonempty l1 es l2 : bss = l1 ++ es :: l2 -> exists k v tl, es = (k, v) :: tl.
Proof.
  intros E. pose proof (sst_nonempty _ _ Hr) as Hne. rewrite E in Hne.
  apply Forall_app in Hne as [_ Hne]. apply Forall_cons in Hne as [Hne _].
  destruct es as [|[k v] tl]; [done|]. eauto.
Qed.

(** Loading the entry of a block position. *)
Lemma loadEntry_spec it l1 es l2 i blk k v :
  bss = l1 ++ es :: l2 -> blockIdx it = len l1 -> entryIdx it = Z.of_nat i ->
  cblock it = Some blk -> blk_rep blk es -> es !! i = Some (k, v) -> err it = None ->
  exists it', loadEntry it = Some it' /\ stands it' (drop i es ++ concat l2) /\
    endKey it' = endKey it /\ err it' = None /\ curKey it' = Some k /\
    cblock it' = Some blk /\ entryIdx it' = entryIdx it /\ blockIdx it' = blockIdx it.
Proof.
  intros E Hb Hi Hc Hrep Hl He. unfold loadEntry. rewrite Hc, Hi, (blk_read _ _ Hrep _ _ Hl).
  eexists. split; [done|]. split; [|done]. by apply (stands_at _ l1 es l2 i blk k v).
Qed.

(** Entering the blocks [l2] at their first entry. *)
Lemma enter_spec it l1 l2 :
  bss = l1 ++ l2 -> blockIdx it = len l1 -> err it = None ->
  exists it1 it2, loadBlock r it = Some it1 /\ loadEntry it1 = Some it2 /\ err it1 = None /\
    (cblock it1 = None <-> l2 = []) /\
    stands it2 (concat l2) /\ endKey it2 = endKey it /\ err it2 = None /\
    (l2 = [] -> it2 = it1).
Proof.
  intros E Hb He. pose proof (loadBlock_spec it l1 l2 E Hb He) as H. destruct l2 as [|es l2].
  - destruct H as (it1 & H1 & H2 & H3 & H4). exists it1, it1. split; [done|].
    split; [unfold loadEntry; by rewrite H2|]. split; [done|]. split; [done|].
    split; [by apply stands_end|done].
  - destruct H as (it1 & blk & H1 & H2 & H3 & H4 & H5 & H6 & H7).
    destruct (block_nonempty l1 es l2 E) as (k & v & tl & Ees).
    destruct (loadEntry_spec it1 l1 es l2 0 blk k v) as (it2 & L1 & L2 & L3 & L4 & _); try done.
    { by rewrite Ees. }
    exists it1, it2. do 3 (split; [done|]). split; [by rewrite H2|]. split; [done|].
    split; [congruence|]. split; [done|]. done.
Qed.

Lemma sit_yields rem : forall it,
  stands it rem ->
  yields (Iterator0 := sit_iterator r) (checkEnd it) (map kvp_of (before (endKey it) rem)).
Proof.
  induction rem as [|e rem IH]; intros it Hst.
  - assert (cblock it = None /\ err it = None) as [Hc He].
    { destruct Hst as (He & [[_ Hc]|(l1 & es & l2 & i & blk & k & v & _ & _ & _ & _ & _ & Hl & _ & _ & Hrem)]); [done|].
      exfalso. rewrite (drop_S _ _ _ Hl) in Hrem. done. }
    assert (before (endKey it) [] = []) as -> by by destruct (endKey it).
    unfold checkEnd. rewrite Hc. cbn. unfold sit_IsValid. by rewrite Hc, He.
  - destruct Hst as (He & [[? _]|(l1 & es & l2 & i & blk & k & v & E & Hb & Hi & Hc & Hrep & Hl & Hk & Hv & Hrem)]); [done|].
    rewrite (drop_S _ _ _ Hl) in Hrem. cbn in Hrem. injection Hrem as -> Hrem.
    assert (exists it', sit_Next r it = Some (checkEnd it') /\ stands it' rem /\ endKey it' = endKey it)
      as (it' & Hn & Hst' & Hek).
    { unfold sit_Next, sit_IsValid. rewrite Hc, He. cbn [negb incr_entry cblock entryIdx].
      rewrite Hc, Hi, (blk_count _ _ Hrep).
      pose proof (lookup_lt_Some _ _ _ Hl) as Hlt.
      destruct (Z.leb_spec (len es) (Z.of_nat i + 1)) as [Hend|Hmore].
      - assert (rem = concat l2) as -> by (rewrite Hrem, drop_ge; [done|unfold len in Hend; lia]).
        destruct (enter_spec (incr_block (incr_entry it)) (l1 ++ [es]) l2) as (it1 & it2 & H1 & H2 & H3 & H4 & H5 & H6 & H7 & H8).
        { by rewrite <-app_assoc. } { cbn. rewrite Hb. len_lia. } { done. }
        rewrite H1. cbn [mbind option_bind fst snd]. rewrite H3. destruct (cblock it1) eqn:Ec1.
        + rewrite H2. cbn [mbind option_bind]. rewrite H7. eauto.
        + assert (l2 = []) as El2 by by apply H4. rewrite (H8 El2) in *. exists it1.
          split; [|done]. unfold checkEnd. by rewrite Ec1.
      - destruct (lookup_lt_is_Some_2 es (S i)) as [[k' v'] Hl']; [unfold len in Hmore; lia|].
        destruct (loadEntry_spec (incr_entry it) l1 es l2 (S i) blk k' v') as (it' & H1 & H2 & H3 & H4 & _); try done.
        { cbn. lia. }
        cbn [mbind option_bind fst snd]. rewrite H1. cbn [mbind option_bind]. rewrite H4.
        exists it'. split; [done|]. rewrite Hrem. done. }
    assert (yields (Iterator0 := sit_iterator r) it (kvp_of (k, v) :: map kvp_of (before (endKey it) rem))) as Hgo.
    { split; [cbn; unfold sit_IsValid; by rewrite Hc, He|]. split; [done|].
      split; [cbn; unfold sit_Key; by rewrite Hk|]. split; [cbn; unfold sit_Value; by rewrite Hv|].
      eexists. split; [exact Hn|]. rewrite <-Hek. by apply IH. }
    unfold checkEnd. rewrite Hc. destruct (endKey it) as [b|] eqn:Ee.
    + rewrite Hk. change (sl (Some k)) with k. cbn [before fst]. destruct (bltb k b); [exact Hgo|].
      cbn. unfold sit_IsValid. cbn. done.
    + cbn [before map]. by destruct rem.
Qed.

(** [seekToStart] stands at the first entry not below the start key. *)
Lemma seekInBlock_spec start l1 es l2 blk fuel it i :
  bss = l1 ++ es :: l2 -> blk_rep blk es -> (i <= length es)%nat -> (length es < fuel + i)%nat ->
  blockIdx it = len l1 -> entryIdx it = Z.of_nat i -> cblock it = Some blk -> err it = None ->
  exists it' f, seekInBlock fuel start it = Some (it', f) /\ endKey it' = endKey it /\ err it' = None /\
    (if f : bool then seek start (drop i es) <> [] /\ stands it' (seek start (drop i es) ++ concat l2)
     else seek start (drop i es) = [] /\ blockIdx it' = len l1).
Proof.
  intros E Hrep. revert it i; induction fuel as [|fuel IH]; intros it i Hi Hf Hb Hei Hc He; [lia|].
  cbn [seekInBlock]. rewrite Hc, Hei, (blk_count _ _ Hrep).
  destruct (Z.ltb_spec (Z.of_nat i) (len es)) as [Hlt|Hge]; unfold len in *.
  - destruct (lookup_lt_is_Some_2 es i) as [[k v] Hl]; [lia|].
    destruct (loadEntry_spec it l1 es l2 i blk k v E Hb Hei Hc Hrep Hl He) as (it1 & H1 & H2 & H3 & H4 & H5 & H6 & H7 & H8).
    rewrite H1. cbn [mbind option_bind]. rewrite H4, H5. change (sl (Some k)) with k.
    rewrite (drop_S _ _ _ Hl) in *. cbn [seek fst].
    destruct (bltb k start); [|exists it1, true; done].
    destruct (IH (incr_entry it1) (S i)) as (it' & f & G1 & G2 & G3 & G4); [lia|lia|cbn; congruence|cbn; lia|done|done|].
    exists it', f. split; [done|]. cbn in G2. split; [congruence|done].
  - exists it, false. split; [done|]. do 2 (split; [done|]). split; [|done]. by rewrite drop_ge by lia.
Qed.

Lemma seek_app start l1 l2 :
  seek start (l1 ++ l2) = match seek start l1 with [] => seek start l2 | s => s ++ l2 end.
Proof. induction l1 as [|e l1 IH]; cbn [app seek]; [done|]. by destruct (bltb e.1 start). Qed.

Lemma seekToStart_spec start fuel l1 l2 it :
  bss = l1 ++ l2 -> (length l2 < fuel)%nat -> err it = None ->
  match l2 with
  | [] => cblock it = None
  | es :: _ => exists blk, cblock it = Some blk /\ blk_rep blk es /\ blockIdx it = len l1 /\ entryIdx it = 0
  end ->
  exists it', seekToStart r fuel start it = Some it' /\ stands it' (seek start (concat l2)) /\ endKey it' = endKey it.
Proof.
  revert l1 l2 it; induction fuel as [|fuel IH]; intros l1 l2 it E Hf He Hst; [lia|].
  cbn [seekToStart]. destruct l2 as [|es l2].
  - rewrite Hst. exists it. split; [done|]. split; [|done]. by apply stands_end.
  - destruct Hst as (blk & Hc & Hrep & Hb & Hei). rewrite Hc.
    destruct (seekInBlock_spec start l1 es l2 blk (S (Z.to_nat (numEntries blk))) it 0 E Hrep) as (it1 & f & H1 & H2 & H3 & H4);
      [lia|rewrite (blk_count _ _ Hrep); unfold len; lia|done..|].
    rewrite H1. cbn [mbind option_bind fst snd concat]. rewrite seek_app. rewrite drop_0 in H4. destruct f.
    + exists it1. split; [done|]. split; [|done]. 
      by destruct (seek start es), H4.
    + destruct H4 as [-> Hb1].
      pose proof (loadBlock_spec (incr_block it1) (l1 ++ [es]) l2 ltac:(by rewrite <-app_assoc)
        ltac:(cbn; rewrite Hb1; len_lia) H3) as Hlb.
      assert (exists it2, loadBlock r (incr_block it1) = Some it2 /\ err it2 = None /\ endKey it2 = endKey it /\
        match l2 with
        | [] => cblock it2 = None
        | es' :: _ => exists blk, cblock it2 = Some blk /\ blk_rep blk es' /\ blockIdx it2 = len (l1 ++ [es]) /\ entryIdx it2 = 0
        end) as (it2 & L1 & L2 & L3 & L4).
      { destruct l2 as [|es' l2].
        - destruct Hlb as (it2 & G1 & G2 & G3 & G4). exists it2. cbn in G4. by rewrite G4.
        - destruct Hlb as (it2 & blk' & G1 & G2 & G3 & G4 & G5 & G6 & G7). exists it2. cbn in G7.
          rewrite G7. eauto 10. }
      rewrite L1. cbn [mbind option_bind]. rewrite L2.
      destruct (IH (l1 ++ [es]) l2 it2) as (it' & G1 & G2 & G3); [by rewrite <-app_assoc|cbn in Hf; lia|done|done|].
      exists it'. split; [done|]. split; [done|congruence].
Qed.

Lemma newSSTableIterator_yields l1 l2 st en :
  bss = l1 ++ l2 ->
  exists it, newSSTableIterator r (len l1) st en = Some it /\
    yields (Iterator0 := sit_iterator r) it
      (map kvp_of (before en (match st with Some s => seek s (concat l2) | None => concat l2 end))).
Proof.
  intros E. unfold newSSTableIterator.
  destruct (enter_spec (mkSIt (len l1) 0 None st en None zeroValue None) l1 l2 E) as
    (it1 & it2 & H1 & H2 & H3 & H4 & H5 & H6 & H7 & H8); [done..|].
  pose proof (loadBlock_spec (mkSIt (len l1) 0 None st en None zeroValue None) l1 l2 E eq_refl eq_refl) as Hlb.
  rewrite H1. cbn [mbind option_bind]. rewrite H3. cbn in H6.
  destruct (cblock it1) as [blk|] eqn:Ec.
  - destruct st as [s|].
    + destruct (seekToStart_spec s (S (length (rmetas r))) l1 l2 it1 E) as (it' & G1 & G2 & G3).
      { pose proof (len_metas r bss Hr) as Hm. rewrite E in Hm. unfold len in Hm. rewrite length_app in Hm. lia. }
      { done. }
      { destruct l2 as [|es l2]; [by pose proof (proj2 H4 eq_refl)|]. destruct Hlb as (it1' & blk' & L1 & L2 & L3 & L4 & L5 & _).
        assert (it1' = it1) as -> by congruence. eauto. }
      rewrite G1. cbn [mbind option_bind]. eexists. split; [done|].
      assert (endKey it1 = en) as Hen.
      { destruct l2 as [|es l2]; [destruct Hlb as (? & L1 & _ & _ & L)|destruct Hlb as (? & ? & L1 & _ & _ & _ & _ & _ & L)];
          cbn in L; congruence. }
      rewrite <-Hen, <-G3. by apply sit_yields.
    + rewrite H2. cbn [mbind option_bind]. eexists. split; [done|]. rewrite <-H6. by apply sit_yields.
  - assert (l2 = []) as El by by apply H4. specialize (H8 El). subst it2 l2.
    assert (exists it, (it ← match st with Some _ => Some it1 | None => Some it1 end; Some (checkEnd it)) = Some it /\
      it = checkEnd it1) as (it & Hit & ->) by (destruct st; eauto).
    exists (checkEnd it1). split; [by destruct st|]. pose proof (sit_yields [] it1 H5) as Hy. cbn in Hy |- *.
    rewrite H6 in Hy. by destruct st, en.
Qed.

Lemma Reader_Scan_yields :
  exists it, Reader_Scan r = Some it /\ yields (Iterator0 := sit_iterator r) it (map kvp_of (concat bss)).
Proof.
  destruct (newSSTableIterator_yields [] bss None None eq_refl) as (it & H1 & H2). exists it.
  split; [done|]. by destruct (concat bss).
Qed.

Lemma seek_skip t l1 : Forall (fun es => blt (last_key es) t) l1 ->
  (forall es, es ∈ l1 -> ksorted es) -> forall l2, seek t (concat l1 ++ l2) = seek t l2.
Proof.
  induction 1 as [|es l1 Hes Hl1 IH]; intros Hs l2; cbn [concat app]; [done|].
  rewrite <-app_assoc, seek_app. rewrite IH by (intros; apply Hs; by right).
  destruct (seek t es) as [|e tl] eqn:Es; [done|]. exfalso.
  assert (e ∈ seek t es) as He by (rewrite Es; by left).
  pose proof (seek_not_below t es e (Hs es ltac:(by left)) He) as Hn. apply Hn.
  destruct (seek_split t es) as (l & El & _).
  assert (e ∈ es) by (rewrite El; apply elem_of_app; by right).
  eapply ble_blt_trans; [apply last_key_max; [apply Hs; by left|done]|done].
Qed.

Lemma Reader_ScanRange_yields st en :
  exists it, Reader_ScanRange r st en = Some it /\
    yields (Iterator0 := sit_iterator r) it
      (map kvp_of (before (MakeSearchKey <$> en)
         (match st with None => concat bss | Some u => seek (MakeSearchKey u) (concat bss) end))).
Proof.
  unfold Reader_ScanRange. destruct st as [u|].
  - destruct (findBlock_spec r bss Hr (MakeSearchKey u)) as (l1 & l2 & E & H1 & H2 & ->).
    assert (seek (MakeSearchKey u) (concat bss) = seek (MakeSearchKey u) (concat l2)) as ->.
    { rewrite E, concat_app. apply seek_skip; [done|]. intros es Hes.
      apply (block_facts r bss Hr). rewrite E. apply elem_of_app. by left. }
    destruct l2 as [|es l2].
    + destruct (newSSTableIterator_yields bss [] None None) as (it & G1 & G2); [by rewrite app_nil_r|].
      rewrite <-(len_metas r bss Hr) in G1. exists it. split; [done|]. cbn in *. by destruct en.
    + rewrite (proj2 (Z.ltb_ge _ _)) by len_lia.
      apply (newSSTableIterator_yields l1 (es :: l2) (Some (MakeSearchKey u)) (MakeSearchKey <$> en) E).
  - apply (newSSTableIterator_yields [] bss None (MakeSearchKey <$> en) eq_refl).
Qed.
End yields.

(** An iterator together with the table it reads: iterators of different tables
    in one list. *)
#[global] Instance open_iterator : Iterator SstErr (Reader * SSTableIterator) := {
  it_Key := fun p => sit_Key p.2;
  it_Value := fun p => sit_Value p.2;
  it_Next := fun p => pair p.1 <$> sit_Next p.1 p.2;
  it_IsValid := fun p => sit_IsValid p.2;
  it_Err := fun p => err p.2;
  it_Close := fun p => let '(it, e) := it_Close (Iterator := sit_iterator p.1) p.2 in ((p.1, it), e)
}.

Lemma open_yields r it l :
  yields (Iterator0 := sit_iterator r) it l -> yields (E := SstErr) (r, it) l.
Proof.
  revert it; induction l as [|[k v] l IH]; intros it; [done|].
  intros (H1 & H2 & H3 & H4 & it' & H5 & H6). do 4 (split; [done|]).
  exists (r, it'). split; [|by apply IH]. cbn in *. by rewrite H5.
Qed.


Lemma filter_map_norm (P : bytes -> Prop) `{!forall u, Decision (P u)} es :
  filter (fun e => P (UserKey e.1)) (map norm es) = map norm (filter (fun e => P (UserKey e.1)) es).
Proof.
  induction es as [|e es IH]; [done|]. cbn [map]. rewrite !filter_cons. cbn [norm fst].
  case_decide; cbn [map]; by rewrite IH.
Qed.

(** ** Claims *)

(** Scanning a table that was built, written and opened again yields its
    entries, in order and without error: [Scan] all of them, and
    [ScanRange start end] exactly those whose user key lies in [start, end), for
    bounds of which no stored user key is a proper prefix. *)
Theorem sstable_scan_roundtrip id bs es :
  es <> [] -> ksorted es -> ikeys_ok es -> Forall entry_fits es -> sst_fits es -> bs <= maxBlockOffset ->
  exists b file r, add_all (NewBuilder id bs) es = Ok b /\ Finish b = Ok file /\
    openFromData id file = Ok r /\
    (exists it, Reader_Scan r = Some it /\
       yields (Iterator0 := sit_iterator r) it (map kvp_of (map norm es))) /\
    (forall st en, (forall u, st = Some u \/ en = Some u -> bound_compat u es) ->
       exists it, Reader_ScanRange r st en = Some it /\
         yields (Iterator0 := sit_iterator r) it
           (map kvp_of (map norm (filter (fun e => in_range st en (UserKey e.1)) es)))).
Proof.
  intros H1 H2 H3 H4 H5 H6. destruct (build_open id bs es H1 H2 H3 H4 H5 H6) as (b & file & r & bss & Ha & Hf & Ho & Hr & Hc & _).
  exists b, file, r. do 3 (split; [done|]). rewrite <-Hc. split; [by apply Reader_Scan_yields|].
  intros st en Hcu. destruct (Reader_ScanRange_yields r bss Hr st en) as (it & Hi & Hy). exists it. split; [done|].
  rewrite range_filter, Hc, filter_map_norm in Hy; [done| |..].
  - apply (sst_sorted _ _ Hr).
  - apply (sst_ikeys _ _ Hr).
  - intros u Hu. rewrite Hc. apply Forall_map. by apply (Forall_impl _ _ _ (Hcu u Hu)).
Qed.

Lemma sstable_scan_roundtrip_witness :
  exists b file r, add_all (NewBuilder 3 40) demo_table = Ok b /\ Finish b = Ok file /\
    openFromData 3 file = Ok r /\
    (exists it, Reader_Scan r = Some it /\
       yields (Iterator0 := sit_iterator r) it (map kvp_of (map norm demo_table))) /\
    (forall st en, (forall u, st = Some u \/ en = Some u -> bound_compat u demo_table) ->
       exists it, Reader_ScanRange r st en = Some it /\
         yields (Iterator0 := sit_iterator r) it
           (map kvp_of (map norm (filter (fun e => in_range st en (UserKey e.1)) demo_table)))).
Proof.
  apply (sstable_scan_roundtrip 3 40 demo_table).
  - done.
  - repeat constructor.
  - by_decide.
  - by_decide.
  - vm_compute. reflexivity.
  - vm_compute. discriminate.
Defined.
