(* ===== verification/Cache.v ===== *)
(** * The block cache (src/sstable/cache.go, Reader.readBlock)

    A sharded LRU cache of decoded blocks.  A shard keeps its entries as elements
    of a [container/list] and a map from keys to elements: elements are numbered,
    [order] is the list of their numbers, most recent first.  The theorems compare
    a shard with a plain list of entries in recency order, and reads through the
    cache with reads without it. *)

From Stdlib Require Import ZArith Lia Sorted.
From stdpp Require Import base countable option gmap list sorting.
From S2P Require Import Prelude GoBytes KV Entries Block SSTable.

Record BlockCacheKey := mkKey { SSTID : Z; BlockOffset : Z }.
#[global] Instance BlockCacheKey_eq_dec : EqDecision BlockCacheKey.
Proof. solve_decision. Defined.
#[global] Instance BlockCacheKey_countable : Countable BlockCacheKey.
Proof. apply (inj_countable' (fun k => (SSTID k, BlockOffset k)) (fun p => mkKey p.1 p.2)). by intros []. Defined.

Record cacheEntry := mkCE { ekey : BlockCacheKey; eblock : Block; esize : Z }.

Record cacheShard := mkShard {
  items : gmap BlockCacheKey nat;
  order : list nat;
  elements : gmap nat cacheEntry;
  fresh_elem : nat;
  ssize : Z;
  scapacity : Z
}.

Record BlockCache := mkCache { shards : list cacheShard; numShards : Z; capacity : Z }.

Definition defaultNumShards : Z := 16.

Definition shardCapacity (cap : Z) : Z :=
  let c := cap ÷ defaultNumShards in if c <? 1 then 1 else c.
Definition NewBlockCache (cap : Z) : BlockCache :=
  let cap := if cap <=? 0 then 8 * 1024 * 1024 else cap in
  mkCache (replicate (Z.to_nat defaultNumShards) (mkShard ∅ [] ∅ 0 0 (shardCapacity cap))) defaultNumShards cap.

(** The index of the shard of a key. *)
Definition getShard (c : BlockCache) (key : BlockCacheKey) : nat :=
  let h := Z.lxor (u64 (SSTID key * 0x9E3779B97F4A7C15)) (u64 (BlockOffset key * 0x517CC1B727220A95)) in
  Z.to_nat (h mod numShards c).

(** [list.MoveToFront] and [list.Remove]. *)
Definition list_Remove (id : nat) (l : list nat) : list nat := filter (fun i => i <> id) l.
Definition MoveToFront (id : nat) (l : list nat) : list nat := id :: list_Remove id l.

(** [Get] on the shard of the key; [None] in the first component is a nil
    dereference. *)
Definition shard_Get (s : cacheShard) (key : BlockCacheKey) : option (cacheShard * option Block) :=
  match items s !! key with
  | None => Some (s, None)
  | Some id =>
      e ← elements s !! id;
      Some (mkShard (items s) (MoveToFront id (order s)) (elements s) (fresh_elem s) (ssize s) (scapacity s), Some (eblock e))
  end.

Definition evict (s : cacheShard) : option cacheShard :=
  match last (order s) with
  | None => Some s
  | Some id =>
      e ← elements s !! id;
      Some (mkShard (delete (ekey e) (items s)) (list_Remove id (order s)) (delete id (elements s)) (fresh_elem s)
              (i64 (ssize s - esize e)) (scapacity s))
  end.

(** [for shard.size+size > shard.capacity && shard.order.Len() > 0] *)
Fixpoint evictLoop (fuel : nat) (s : cacheShard) (sz : Z) : option cacheShard :=
  if (scapacity s <? i64 (ssize s + sz)) && (0 <? length (order s))%nat then
    match fuel with
    | O => None
    | S fuel => s ← evict s; evictLoop fuel s sz
    end
  else Some s.

Definition shard_Put (s : cacheShard) (key : BlockCacheKey) (block : Block) (sz : Z) : option cacheShard :=
  match items s !! key with
  | Some id =>
      old ← elements s !! id;
      Some (mkShard (items s) (MoveToFront id (order s)) (<[id := mkCE (ekey old) block sz]> (elements s)) (fresh_elem s)
              (i64 (i64 (ssize s - esize old) + sz)) (scapacity s))
  | None =>
      s ← evictLoop (length (order s)) s sz;
      let id := fresh_elem s in
      Some (mkShard (<[key := id]> (items s)) (id :: order s) (<[id := mkCE key block sz]> (elements s)) (S id)
              (i64 (ssize s + sz)) (scapacity s))
  end.

Definition set_shard (c : BlockCache) (i : nat) (s : cacheShard) : BlockCache :=
  mkCache (<[i := s]> (shards c)) (numShards c) (capacity c).

Definition cache_Get (c : BlockCache) (key : BlockCacheKey) : option (BlockCache * option Block) :=
  let i := getShard c key in
  s ← shards c !! i; r ← shard_Get s key; Some (set_shard c i r.1, r.2).
Definition cache_Put (c : BlockCache) (key : BlockCacheKey) (block : Block) (sz : Z) : option BlockCache :=
  let i := getShard c key in
  s ← shards c !! i; s ← shard_Put s key block sz; Some (set_shard c i s).

(** [Reader.readBlock] of a reader opened with the cache; [None] is a panic of the
    cache. *)
Definition readBlock_cached (c : BlockCache) (r : Reader) (blockIdx : Z) : option (BlockCache * outcome SstErr Block) :=
  if (blockIdx <? 0) || (len (rmetas r) <=? blockIdx) then Some (c, Err ErrBlockIndex) else
  match index (E := SstErr) (rmetas r) blockIdx with
  | Ok meta =>
      let key := mkKey (rid r) (moffset meta) in
      g ← cache_Get c key;
      match g.2 with
      | Some block => Some (g.1, Ok block)
      | None =>
          match readBlockFromData r meta with
          | Ok block => c ← cache_Put g.1 key block (msize meta); Some (c, Ok block)
          | o => Some (g.1, o)
          end
      end
  | _ => Some (c, Panic)
  end.

(** ** The reference: a list in recency order *)
Definition others (k : BlockCacheKey) (l : list cacheEntry) : list cacheEntry := filter (fun e => ekey e <> k) l.
Definition lookup_entry (k : BlockCacheKey) (l : list cacheEntry) : option cacheEntry :=
  head (filter (fun e => ekey e = k) l).

Definition lru_Get (l : list cacheEntry) (k : BlockCacheKey) : list cacheEntry * option Block :=
  match lookup_entry k l with
  | None => (l, None)
  | Some e => (e :: others k l, Some (eblock e))
  end.

(** The longest prefix, the most recent entries, whose sizes fit the budget. *)
Fixpoint lru_keep (budget : Z) (l : list cacheEntry) : list cacheEntry :=
  match l with
  | [] => []
  | e :: l => if esize e <=? budget then e :: lru_keep (budget - esize e) l else []
  end.

Definition lru_Put (cap : Z) (l : list cacheEntry) (e : cacheEntry) : list cacheEntry :=
  e :: match lookup_entry (ekey e) l with
       | Some _ => others (ekey e) l
       | None => lru_keep (cap - esize e) l
       end.

Fixpoint total (l : list cacheEntry) : Z := match l with [] => 0 | e :: l => esize e + total l end.

(** ** Facts about the reference *)
Definition sized (l : list cacheEntry) : Prop := Forall (fun e => 0 <= esize e < 2^32) l.

Lemma total_app l1 l2 : total (l1 ++ l2) = total l1 + total l2.
Proof. induction l1 as [|e l1 IH]; cbn; [done|]. rewrite IH. lia. Qed.

Lemma total_bound l : sized l -> 0 <= total l <= 2^32 * len l.
Proof. induction 1 as [|e l He Hl IH]; [change (len (@nil cacheEntry)) with 0; cbn [total]; lia|]. cbn [total]. rewrite len_cons. lia. Qed.

Lemma keep_all b l : sized l -> total l <= b -> lru_keep b l = l.
Proof.
  intros Hs. revert b; induction Hs as [|e l He Hl IH]; intros b Hb; cbn; [done|]. cbn in Hb.
  pose proof (total_bound l Hl). rewrite (proj2 (Z.leb_le _ _)) by lia. rewrite IH by lia. done.
Qed.

Lemma keep_snoc b l e : sized (l ++ [e]) -> b < total (l ++ [e]) -> lru_keep b (l ++ [e]) = lru_keep b l.
Proof.
  revert b; induction l as [|x l IH]; intros b Hs Hb; cbn.
  - cbn in Hb. by rewrite (proj2 (Z.leb_gt _ _)) by lia.
  - cbn in Hs, Hb. apply Forall_cons in Hs as [Hx Hs].
    destruct (Z.leb_spec (esize x) b); [|done]. rewrite IH by (done || lia). done.
Qed.

Lemma keep_prefix b l : lru_keep b l `prefix_of` l.
Proof.
  revert b; induction l as [|e l IH]; intros b; cbn; [done|]. destruct (_ <=? _); [apply prefix_cons, IH|apply prefix_nil].
Qed.

Lemma filter_prefix_fresh (P : cacheEntry -> Prop) `{!forall e, Decision (P e)} l1 l2 :
  l1 `prefix_of` l2 -> filter P l2 = [] -> filter P l1 = [].
Proof. intros [k ->]. rewrite filter_app. by intros [? _]%app_eq_nil. Qed.

(** ** A shard represents a list *)
Definition elem_of_shard (s : cacheShard) (id : nat) (e : cacheEntry) : Prop :=
  elements s !! id = Some e /\ items s !! ekey e = Some id.

Record shard_rep (s : cacheShard) (l : list cacheEntry) : Prop := {
  sr_nodup : NoDup (order s);
  sr_elems : Forall2 (elem_of_shard s) (order s) l;
  sr_items : forall k id, items s !! k = Some id -> id ∈ order s /\ exists e, elements s !! id = Some e /\ ekey e = k;
  sr_fresh : Forall (fun id => id < fresh_elem s)%nat (order s);
  sr_size : ssize s = total l;
  sr_sized : sized l
}.

Lemma Forall2_filter {A B} (R : A -> B -> Prop) (P : A -> Prop) (Q : B -> Prop)
    `{!forall a, Decision (P a), !forall b, Decision (Q b)} xs ys :
  (forall x y, x ∈ xs -> y ∈ ys -> R x y -> P x <-> Q y) -> Forall2 R xs ys -> Forall2 R (filter P xs) (filter Q ys).
Proof.
  intros HPQ. induction 1 as [|x y xs ys Hxy Hl IH]; [constructor|]. rewrite !filter_cons.
  assert (P x <-> Q y) as Hi by (apply HPQ; [left|left|done]).
  assert (Forall2 R (filter P xs) (filter Q ys)) as IH' by (apply IH; intros; apply HPQ; [by right|by right|done]).
  repeat case_decide; tauto || by constructor.
Qed.

Lemma lookup_entry_spec k l :
  match lookup_entry k l with
  | Some e => e ∈ l /\ ekey e = k
  | None => Forall (fun e => ekey e <> k) l
  end.
Proof.
  unfold lookup_entry. induction l as [|e l IH]; [constructor|]. rewrite filter_cons. case_decide; cbn.
  - split; [left|done].
  - destruct (head _) as [e'|]; [destruct IH; split; [by right|done]|by constructor].
Qed.

Section shard.
Context (s : cacheShard) (l : list cacheEntry) (Hs : shard_rep s l).

Lemma rep_same id id' e e' : elem_of_shard s id e -> elem_of_shard s id' e' -> id = id' <-> ekey e = ekey e'.
Proof using. intros [H1 H2] [H3 H4]. split; [intros ->; congruence|intros E; rewrite E in H2; congruence]. Qed.

Lemma rep_elem id : id ∈ order s -> exists e, e ∈ l /\ elem_of_shard s id e.
Proof using Hs.
  intros Hin. apply list_elem_of_lookup in Hin as [i Hi].
  destruct (Forall2_lookup_l _ _ _ _ _ (sr_elems _ _ Hs) Hi) as (e & He & Hr). exists e. split; [by eapply list_elem_of_lookup_2|done].
Qed.
Lemma rep_id e : e ∈ l -> exists id, id ∈ order s /\ elem_of_shard s id e.
Proof using Hs.
  intros Hin. apply list_elem_of_lookup in Hin as [i Hi].
  destruct (Forall2_lookup_r _ _ _ _ _ (sr_elems _ _ Hs) Hi) as (id & Hid & Hr). exists id. split; [by eapply list_elem_of_lookup_2|done].
Qed.

Lemma rep_lookup k :
  match items s !! k with
  | Some id => exists e, elem_of_shard s id e /\ ekey e = k /\ id ∈ order s /\ lookup_entry k l = Some e
  | None => lookup_entry k l = None
  end.
Proof using Hs.
  pose proof (lookup_entry_spec k l) as Hl. destruct (items s !! k) as [id|] eqn:E.
  - destruct (sr_items _ _ Hs k id E) as (Hin & e & He & <-). exists e. split; [done|]. split; [done|]. split; [done|].
    destruct (lookup_entry (ekey e) l) as [e'|].
    + destruct Hl as [Hin' E']. destruct (rep_id e' Hin') as (id' & _ & H1 & H2). rewrite E', E in H2. injection H2 as <-. congruence.
    + destruct (rep_elem id Hin) as (e' & Hin' & [H1 _]). rewrite Forall_forall in Hl. destruct (Hl e' Hin'). congruence.
  - destruct (lookup_entry k l) as [e|]; [|done]. destruct Hl as [Hin <-]. destruct (rep_id e Hin) as (id & _ & _ & H2). congruence.
Qed.

Lemma rep_remove id e :
  elem_of_shard s id e -> Forall2 (elem_of_shard s) (list_Remove id (order s)) (others (ekey e) l).
Proof using Hs.
  intros He. apply Forall2_filter; [|apply (sr_elems _ _ Hs)]. intros id' e' _ _ He'. by rewrite (rep_same _ _ _ _ He' He).
Qed.

Lemma rep_total id e : id ∈ order s -> elem_of_shard s id e -> total (others (ekey e) l) = total l - esize e.
Proof using Hs.
  intros Hin He. pose proof (sr_elems _ _ Hs) as Hf. pose proof (sr_nodup _ _ Hs) as Hnd. clear Hs.
  assert (forall os ls, Forall2 (elem_of_shard s) os ls -> id ∉ os -> others (ekey e) ls = ls) as Hno.
  { induction 1 as [|i x os ls Hx Hls IH]; intros Hni; [done|]. unfold others. rewrite filter_cons_True.
    - f_equal. apply IH. intros ?. apply Hni. by right.
    - intros E. apply Hni. rewrite (proj2 (rep_same _ _ _ _ He Hx)) by done. left. }
  induction Hf as [|i x os ls Hx Hls IH]; [by apply elem_of_nil in Hin|]. apply NoDup_cons in Hnd as [Hn Hnd].
  unfold others. rewrite filter_cons. apply elem_of_cons in Hin as [<-|Hin].
  - rewrite decide_False by (intros Hf; by apply Hf, (rep_same id id)). fold (others (ekey e) ls). rewrite (Hno os ls) by done.
    destruct Hx as [H1 _], He as [H2 _]. assert (x = e) as -> by congruence. cbn. lia.
  - assert (ekey x <> ekey e) by (intros E; apply Hn; by rewrite (proj2 (rep_same _ _ _ _ Hx He))).
    rewrite decide_True by done. cbn [total]. fold (others (ekey e) ls). rewrite IH by done. lia.
Qed.
End shard.

(** ** The operations of a shard *)
Lemma shard_rep_empty cap : shard_rep (mkShard ∅ [] ∅ 0 0 cap) [].
Proof. split; cbn; try constructor; done. Qed.

Lemma NoDup_move id (os : list nat) : NoDup os -> NoDup (MoveToFront id os).
Proof.
  intros H. apply NoDup_cons. split; [|by apply NoDup_filter]. intros [? _]%list_elem_of_filter. done.
Qed.
Lemma elem_move id i (os : list nat) : id ∈ os -> i ∈ os <-> i ∈ MoveToFront id os.
Proof.
  intros Hin. unfold MoveToFront, list_Remove. rewrite elem_of_cons, list_elem_of_filter.
  destruct (decide (i = id)) as [->|]; tauto.
Qed.

Lemma Forall_filter' {A} (P Q : A -> Prop) `{!forall x, Decision (P x)} (l : list A) : Forall Q l -> Forall Q (filter P l).
Proof. rewrite !Forall_forall. intros HQ x [_ Hx]%list_elem_of_filter. by apply HQ. Qed.

Lemma sized_others k l : sized l -> sized (others k l).
Proof. apply Forall_filter'. Qed.

Lemma shard_Get_spec s l k :
  shard_rep s l ->
  exists s', shard_Get s k = Some (s', (lru_Get l k).2) /\ shard_rep s' (lru_Get l k).1 /\ scapacity s' = scapacity s.
Proof.
  intros Hs. pose proof (rep_lookup s l Hs k) as Hl. unfold shard_Get, lru_Get. destruct (items s !! k) as [id|].
  - destruct Hl as (e & He & <- & Hin & ->). rewrite (proj1 He). cbn. eexists. split; [done|]. split; [|done].
    pose proof (rep_total s l Hs id e Hin He) as Ht. pose proof (rep_elem s l Hs id Hin) as (e' & He' & [Ee _]).
    assert (e' = e) as -> by (destruct He; congruence). split; cbn.
    + apply NoDup_move, (sr_nodup _ _ Hs).
    + constructor; [exact He|]. by apply (rep_remove s l Hs).
    + intros k' id' Hk. destruct (sr_items _ _ Hs k' id' Hk) as [H1 H2]. split; [by apply elem_move|done].
    + constructor; [|apply Forall_filter', (sr_fresh _ _ Hs)]. pose proof (sr_fresh _ _ Hs) as Hf. rewrite Forall_forall in Hf. by apply Hf.
    + rewrite Ht, (sr_size _ _ Hs). lia.
    + constructor; [|by apply sized_others, (sr_sized _ _ Hs)]. pose proof (sr_sized _ _ Hs) as Hf. unfold sized in Hf. rewrite Forall_forall in Hf. by apply Hf.
  - rewrite Hl. exists s. done.
Qed.

Lemma others_last l e : NoDup (map ekey (l ++ [e])) -> others (ekey e) (l ++ [e]) = l.
Proof.
  rewrite map_app, NoDup_app. intros (_ & Hd & _). unfold others. rewrite filter_app, filter_cons_False by (intros H; by apply H).
  rewrite filter_nil, app_nil_r. apply filter_True'. apply Forall_forall. intros x Hx E. apply (Hd (ekey x)).
  - apply list_elem_of_fmap. by exists x.
  - rewrite E. left.
Qed.

Lemma rep_keys s l : shard_rep s l -> NoDup (map ekey l).
Proof.
  intros Hs. pose proof (sr_elems _ _ Hs) as Hf. pose proof (sr_nodup _ _ Hs) as Hnd. clear Hs.
  induction Hf as [|i x os ls Hx Hls IH]; cbn; [constructor|]. apply NoDup_cons in Hnd as [Hn Hnd]. constructor; [|by apply IH].
  intros (y & E & Hy)%list_elem_of_fmap. apply list_elem_of_lookup in Hy as [j Hj].
  destruct (Forall2_lookup_r _ _ _ _ _ Hls Hj) as (i' & Hi & Hy'). apply Hn.
  rewrite (proj2 (rep_same s _ _ _ _ Hx Hy') E). by eapply list_elem_of_lookup_2.
Qed.

Lemma evict_spec s l e :
  shard_rep s (l ++ [e]) -> total (l ++ [e]) < 2^62 ->
  exists s', evict s = Some s' /\ shard_rep s' l /\ scapacity s' = scapacity s /\ (length (order s) = S (length (order s')))%nat.
Proof.
  intros Hs Hb. pose proof (sr_elems _ _ Hs) as Hf. apply Forall2_app_inv_r in Hf as (os & o1 & Hos & Ho1 & Eo).
  apply Forall2_cons_inv_r in Ho1 as (id & o2 & He & Hn & ->). apply Forall2_nil_inv_r in Hn as ->.
  assert (id ∈ order s) as Hin by (rewrite Eo; apply elem_of_app; right; left).
  pose proof (sr_nodup _ _ Hs) as Hnd. pose proof (rep_remove s _ Hs id e He) as Hr. rewrite (others_last l e (rep_keys _ _ Hs)) in Hr.
  assert (list_Remove id (order s) = os) as Er.
  { rewrite Eo in *. apply NoDup_app in Hnd as (Hnd1 & Hd & _). unfold list_Remove. rewrite filter_app, filter_cons_False by (intros H; by apply H).
    rewrite filter_nil, app_nil_r. apply filter_True'. apply Forall_forall. intros i Hi ->. apply (Hd id Hi). left. }
  rewrite Er in Hr. pose proof (sr_sized _ _ Hs) as Hsz. pose proof (total_bound _ Hsz) as Ht. apply Forall_app in Hsz as [Hsz He1].
  apply Forall_cons in He1 as [He1 _]. pose proof (total_bound _ Hsz) as Htl. rewrite total_app in *. cbn [total] in *.
  unfold evict. rewrite Eo, last_snoc, (proj1 He). cbn. rewrite <-Eo, Er. eexists. split; [done|]. cbn.
  assert (id ∉ os) as Hni by (rewrite Eo in Hnd; apply NoDup_app in Hnd as (_ & Hd & _); intros ?; apply (Hd id); [done|left]).
  split; [|split; [done|rewrite Eo, length_app; cbn; lia]]. split; cbn.
  - rewrite Eo in Hnd. by apply NoDup_app in Hnd as (? & _).
  - eapply Forall2_impl; [|intros i x Hx; exact Hx]. clear -Hr Hni He. induction Hr as [|i x os l Hx Hl IH]; constructor.
    + assert (i <> id) as Hne by (intros ->; apply Hni; left). destruct Hx as [H1 H2]. split; cbn.
      * by rewrite lookup_delete_ne.
      * rewrite lookup_delete_ne; [done|]. intros E. apply Hne. apply (rep_same s i id x e); done.
    + apply IH. intros ?. apply Hni. by right.
  - intros k i Hk. apply lookup_delete_Some in Hk as [Hk1 Hk2]. destruct (sr_items _ _ Hs k i Hk2) as (H1 & x & H2 & <-).
    rewrite Eo in H1. assert (i <> id) as Hne by (intros ->; apply Hk1; destruct He; congruence).
    split; [apply elem_of_app in H1 as [?|[->|?%elem_of_nil]%elem_of_cons]; done|]. exists x. by rewrite lookup_delete_ne.
  - pose proof (sr_fresh _ _ Hs) as Hfr. rewrite Eo in Hfr. by apply Forall_app in Hfr as [? _].
  - rewrite (sr_size _ _ Hs), total_app. cbn [total]. rewrite i64_small; lia.
  - done.
Qed.

Lemma evictLoop_spec n s l sz :
  shard_rep s l -> length (order s) = n -> 0 <= sz < 2^32 -> total l < 2^62 ->
  exists s', evictLoop n s sz = Some s' /\ shard_rep s' (lru_keep (scapacity s - sz) l) /\ scapacity s' = scapacity s.
Proof.
  revert s l; induction n as [|n IH]; intros s l Hs Hn Hsz Hb;
    pose proof (Forall2_length _ _ _ (sr_elems _ _ Hs)) as Hlen; pose proof (total_bound l (sr_sized _ _ Hs)) as Ht;
    pose proof (sr_size _ _ Hs) as Hss.
  - rewrite Hn in Hlen. destruct l; [|done]. cbn [evictLoop]. rewrite Hn, andb_false_r. exists s. done.
  - destruct l as [|e l _] using rev_ind; [cbn in Hlen; lia|]. cbn [evictLoop]. rewrite Hn, andb_true_r.
    rewrite i64_small by lia. destruct (Z.ltb_spec (scapacity s) (ssize s + sz)) as [Hlt|Hge].
    + destruct (evict_spec s l e Hs Hb) as (s1 & E & Hs1 & Hc & Hl1). rewrite E. cbn [mbind option_bind].
      rewrite keep_snoc; [|apply (sr_sized _ _ Hs)|lia]. rewrite <-Hc.
      apply IH; [done|lia|done|]. rewrite total_app in *. cbn [total] in *.
      pose proof (sr_sized _ _ Hs) as Hz. apply Forall_app in Hz as [_ Hz]. apply Forall_cons in Hz as [Hz _]. lia.
    + exists s. split; [done|]. split; [|done]. rewrite keep_all; [done|apply (sr_sized _ _ Hs)|lia].
Qed.

(** A new element at the front. *)
Lemma rep_insert s l k b sz :
  shard_rep s l -> items s !! k = None -> 0 <= sz < 2^32 -> total l < 2^62 ->
  shard_rep (mkShard (<[k := fresh_elem s]> (items s)) (fresh_elem s :: order s) (<[fresh_elem s := mkCE k b sz]> (elements s))
               (S (fresh_elem s)) (i64 (ssize s + sz)) (scapacity s)) (mkCE k b sz :: l).
Proof.
  intros Hs Ek Hsz Hb. pose proof (sr_fresh _ _ Hs) as Hfr. rewrite Forall_forall in Hfr.
  assert (fresh_elem s ∉ order s) as Hni by (intros Hi; apply Hfr in Hi; lia).
  pose proof (total_bound l (sr_sized _ _ Hs)) as Ht. split; cbn.
  - constructor; [done|apply (sr_nodup _ _ Hs)].
  - constructor; [split; cbn; by rewrite lookup_insert_eq|]. pose proof (sr_elems _ _ Hs) as Hf. clear -Hf Hni Ek.
    induction Hf as [|i x os ls Hx Hls IH]; constructor.
    + destruct Hx as [H1 H2]. split; cbn; (rewrite lookup_insert_ne; [done|]); intros Ex; [|congruence]. apply Hni. rewrite Ex. left.
    + apply IH. intros ?. apply Hni. by right.
  - intros k' i Hk. destruct (decide (k' = k)) as [->|Hne].
    + rewrite lookup_insert_eq in Hk. injection Hk as <-. split; [left|]. eexists. by rewrite lookup_insert_eq.
    + rewrite lookup_insert_ne in Hk by done. destruct (sr_items _ _ Hs k' i Hk) as (H1 & x & H2 & <-). split; [by right|].
      exists x. rewrite lookup_insert_ne; [done|]. intros Ex. apply Hni. by rewrite Ex.
  - constructor; [lia|]. apply Forall_forall. intros i Hi. apply Hfr in Hi. lia.
  - rewrite (sr_size _ _ Hs), i64_small by lia. lia.
  - constructor; [done|apply (sr_sized _ _ Hs)].
Qed.

(** An element overwritten and moved to the front. *)
Lemma rep_update s l id e b sz :
  shard_rep s l -> id ∈ order s -> elem_of_shard s id e -> 0 <= sz < 2^32 -> total l < 2^62 ->
  shard_rep (mkShard (items s) (MoveToFront id (order s)) (<[id := mkCE (ekey e) b sz]> (elements s)) (fresh_elem s)
               (i64 (i64 (ssize s - esize e) + sz)) (scapacity s)) (mkCE (ekey e) b sz :: others (ekey e) l).
Proof.
  intros Hs Hin He Hsz Hb. pose proof (total_bound l (sr_sized _ _ Hs)) as Ht.
  pose proof (rep_total s l Hs id e Hin He) as Hto. pose proof (total_bound _ (sized_others (ekey e) _ (sr_sized _ _ Hs))) as Hto'.
  assert (0 <= esize e < 2^32) as Hez.
  { destruct (rep_elem s l Hs id Hin) as (e' & He' & [E' _]). destruct He as [He _]. assert (e' = e) as -> by congruence.
    pose proof (sr_sized _ _ Hs) as Hf. unfold sized in Hf. rewrite Forall_forall in Hf. by apply Hf. }
  split; cbn.
  - apply NoDup_move, (sr_nodup _ _ Hs).
  - constructor; [split; cbn; [by rewrite lookup_insert_eq|apply He]|].
    pose proof (rep_remove s l Hs id e He) as Hr. assert (id ∉ list_Remove id (order s)) as Hni by (by intros [? _]%list_elem_of_filter).
    clear -Hr Hni. induction Hr as [|i x os ls Hx Hls IH]; constructor.
    + destruct Hx as [H1 H2]. split; cbn; [|done]. rewrite lookup_insert_ne; [done|]. intros ->. apply Hni. left.
    + apply IH. intros ?. apply Hni. by right.
  - intros k' i Hk. destruct (sr_items _ _ Hs k' i Hk) as (H1 & x & H2 & <-). split; [by apply elem_move|].
    destruct (decide (i = id)) as [->|Hne]; [|by exists x; rewrite lookup_insert_ne].
    eexists. rewrite lookup_insert_eq. split; [done|]. cbn. destruct He; congruence.
  - constructor; [|apply Forall_filter', (sr_fresh _ _ Hs)]. pose proof (sr_fresh _ _ Hs) as Hf. rewrite Forall_forall in Hf. by apply Hf.
  - rewrite (sr_size _ _ Hs), !i64_small by (rewrite ?i64_small; lia). lia.
  - constructor; [done|apply sized_others, (sr_sized _ _ Hs)].
Qed.

Lemma keep_lookup k bdg l : lookup_entry k l = None -> lookup_entry k (lru_keep bdg l) = None.
Proof.
  unfold lookup_entry. intros H. assert (filter (fun e => ekey e = k) l = []) as Hf by (destruct (filter (fun e => ekey e = k) l); done).
  by rewrite (filter_prefix_fresh _ _ l (keep_prefix _ _) Hf).
Qed.

Lemma total_keep bdg l : sized l -> total (lru_keep bdg l) <= total l.
Proof.
  intros Hs. destruct (keep_prefix bdg l) as [t Et]. rewrite Et in Hs |- * at 2. apply Forall_app in Hs as [_ Hs].
  apply total_bound in Hs. rewrite total_app. lia.
Qed.

Lemma shard_Put_spec s l k b sz :
  shard_rep s l -> 0 <= sz < 2^32 -> total l < 2^62 ->
  exists s', shard_Put s k b sz = Some s' /\ shard_rep s' (lru_Put (scapacity s) l (mkCE k b sz)) /\ scapacity s' = scapacity s.
Proof.
  intros Hs Hsz Hb. pose proof (rep_lookup s l Hs k) as Hl. unfold shard_Put, lru_Put. cbn [ekey esize].
  destruct (items s !! k) as [id|] eqn:Ek.
  - destruct Hl as (e & He & <- & Hin & ->). rewrite (proj1 He). cbn [mbind option_bind]. eexists. split; [done|]. split; [|done].
    by apply rep_update.
  - rewrite Hl. destruct (evictLoop_spec _ s l sz Hs eq_refl Hsz Hb) as (s1 & E & Hs1 & Hc). rewrite E. cbn [mbind option_bind].
    eexists. split; [done|]. split; [|done]. apply rep_insert; [done| |done|].
    + pose proof (rep_lookup s1 _ Hs1 k) as H. destruct (items s1 !! k); [|done]. destruct H as (? & _ & _ & _ & H).
      rewrite keep_lookup in H by done. done.
    + pose proof (total_keep (scapacity s - sz) l (sr_sized _ _ Hs)). lia.
Qed.

(** ** The whole cache *)
Inductive cop := CGet (k : BlockCacheKey) | CPut (k : BlockCacheKey) (b : Block) (sz : Z).
Definition cop_key (o : cop) : BlockCacheKey := match o with CGet k => k | CPut k _ _ => k end.
Definition cop_ok (o : cop) : Prop := match o with CGet _ => True | CPut _ _ sz => 0 <= sz < 2^32 end.

Definition cache_step (c : BlockCache) (o : cop) : option (BlockCache * option Block) :=
  match o with
  | CGet k => cache_Get c k
  | CPut k b sz => c ← cache_Put c k b sz; Some (c, None)
  end.
Fixpoint cache_run (c : BlockCache) (os : list cop) : option (BlockCache * list (option Block)) :=
  match os with
  | [] => Some (c, [])
  | o :: os => r ← cache_step c o; r' ← cache_run r.1 os; Some (r'.1, r.2 :: r'.2)
  end.

(** One list per shard; [route] says which. *)
Definition lru_step (cap : Z) (l : list cacheEntry) (o : cop) : list cacheEntry * option Block :=
  match o with
  | CGet k => lru_Get l k
  | CPut k b sz => (lru_Put cap l (mkCE k b sz), None)
  end.
Fixpoint lru_run (cap : Z) (route : BlockCacheKey -> nat) (ls : nat -> list cacheEntry) (os : list cop) : list (option Block) :=
  match os with
  | [] => []
  | o :: os =>
      let i := route (cop_key o) in
      let r := lru_step cap (ls i) o in
      r.2 :: lru_run cap route (fun j => if decide (j = i) then r.1 else ls j) os
  end.

Record cache_rep (c : BlockCache) (cap n : Z) (ls : nat -> list cacheEntry) : Prop := {
  cr_num : numShards c = 16;
  cr_len : length (shards c) = 16%nat;
  cr_shards : forall i s, shards c !! i = Some s -> shard_rep s (ls i) /\ scapacity s = cap /\ len (ls i) <= n
}.

Lemma getShard_lt c k : numShards c = 16 -> (getShard c k < 16)%nat.
Proof.
  intros E. unfold getShard. rewrite E. set (h := Z.lxor _ _). pose proof (Z.mod_pos_bound h 16 ltac:(lia)). lia.
Qed.

Lemma len_lru_step cap l o : len (lru_step cap l o).1 <= len l + 1.
Proof.
  assert (forall k, len (others k l) <= len l) as Ho by (intros k; unfold len, others; pose proof (length_filter (fun e => ekey e <> k) l); lia).
  assert (forall b, len (lru_keep b l) <= len l) as Hk.
  { intros b. destruct (keep_prefix b l) as [t Et]. rewrite Et at 2. rewrite len_app. len_nonneg_all. lia. }
  destruct o as [k|k b sz]; cbn.
  - unfold lru_Get. destruct (lookup_entry k l); cbn [fst]; [rewrite len_cons; specialize (Ho k); lia|lia].
  - unfold lru_Put. rewrite len_cons. destruct (lookup_entry _ l); [specialize (Ho k)|specialize (Hk (cap - sz))]; cbn in *; lia.
Qed.

Lemma cache_step_rep c cap n ls o :
  cache_rep c cap n ls -> cop_ok o -> n < 2^29 ->
  let i := getShard c (cop_key o) in
  exists c', cache_step c o = Some (c', (lru_step cap (ls i) o).2) /\
    (forall k, getShard c' k = getShard c k) /\
    cache_rep c' cap (n + 1) (fun j => if decide (j = i) then (lru_step cap (ls i) o).1 else ls j).
Proof.
  intros [Hn Hl Hsh] Ho Hb i. pose proof (getShard_lt c (cop_key o) Hn) as Hi. fold i in Hi.
  destruct (shards c !! i) as [s|] eqn:Es; [|apply lookup_ge_None in Es; lia]. destruct (Hsh i s Es) as (Hs & <- & Hln).
  pose proof (total_bound _ (sr_sized _ _ Hs)) as Ht. pose proof (len_lru_step (scapacity s) (ls i) o) as Hlen.
  assert (exists s', shard_rep s' (lru_step (scapacity s) (ls i) o).1 /\ scapacity s' = scapacity s /\
            cache_step c o = Some (set_shard c i s', (lru_step (scapacity s) (ls i) o).2)) as (s' & Hs' & Hc' & E).
  { destruct o as [k|k b sz]; cbn [cache_step cop_key lru_step fst snd] in *; unfold cache_Get, cache_Put; fold i; rewrite Es; cbn [mbind option_bind].
    - destruct (shard_Get_spec s (ls i) k Hs) as (s' & -> & Hs' & Hc'). by exists s'.
    - destruct (shard_Put_spec s (ls i) k b sz Hs Ho ltac:(lia)) as (s' & -> & Hs' & Hc'). by exists s'. }
  exists (set_shard c i s'). split; [done|]. split; [done|]. split; cbn; [done|by rewrite length_insert|].
  intros j sj Hj. destruct (decide (j = i)) as [->|Hne].
  - rewrite list_lookup_insert_eq in Hj by lia. injection Hj as <-. split; [done|]. split; [done|lia].
  - rewrite list_lookup_insert_ne in Hj by done. destruct (Hsh j sj Hj) as (H1 & H2 & H3). split; [done|]. split; [done|lia].
Qed.

Lemma cache_run_rep c cap n ls os :
  cache_rep c cap n ls -> Forall cop_ok os -> n + len os < 2^29 ->
  exists c' ls', cache_run c os = Some (c', lru_run cap (getShard c) ls os) /\ cache_rep c' cap (n + len os) ls'.
Proof.
  revert c n ls; induction os as [|o os IH]; intros c n ls Hc Hos Hb.
  - exists c, ls. split; [done|]. change (len (@nil cop)) with 0. by rewrite Z.add_0_r.
  - apply Forall_cons in Hos as [Ho Hos]. rewrite len_cons in Hb |- *. pose proof (len_nonneg os).
    destruct (cache_step_rep c cap n ls o Hc Ho ltac:(lia)) as (c1 & E & Hg & Hc1). cbn [cache_run]. rewrite E. cbn [mbind option_bind fst snd].
    destruct (IH c1 _ _ Hc1 Hos ltac:(lia)) as (c' & ls' & E' & Hc'). rewrite E'. cbn [mbind option_bind fst snd].
    exists c', ls'. split; [|by rewrite Z.add_assoc]. cbn [lru_run]. f_equal. f_equal. f_equal.
    assert (forall r1 r2 ls os, (forall k, r1 k = r2 k) -> lru_run cap r1 ls os = lru_run cap r2 ls os) as Hr.
    { clear. intros r1 r2 ls os. revert ls; induction os as [|o os IH]; intros ls H; cbn; [done|]. rewrite H. f_equal. by apply IH. }
    by apply Hr.
Qed.

Lemma cache_New_rep cap :
  cache_rep (NewBlockCache cap) (shardCapacity (if cap <=? 0 then 8 * 1024 * 1024 else cap)) 0 (fun _ => []).
Proof.
  split; [done|done|]. intros i s Hi. cbn in Hi. apply lookup_replicate in Hi as [-> _].
  split; [apply shard_rep_empty|]. split; [done|]. change (len (@nil cacheEntry)) with 0. lia.
Qed.

(** C34: The cache is an LRU cache.  Over any run of fewer than 2^29 [Get]s and
    [Put]s of blocks below 4 GiB on a new cache, every answer is the one of plain
    lists in recency order, one per shard: a hit moves the entry to the front, an
    insertion drops from the back exactly the entries that do not fit the shard's
    capacity with the new one. *)
Theorem cache_refines_lru cap os :
  Forall cop_ok os -> len os < 2^29 ->
  exists c', cache_run (NewBlockCache cap) os =
    Some (c', lru_run (shardCapacity (if cap <=? 0 then 8 * 1024 * 1024 else cap)) (getShard (NewBlockCache cap)) (fun _ => []) os).
Proof.
  intros Hos Hb. destruct (cache_run_rep _ _ 0 _ os (cache_New_rep cap) Hos ltac:(lia)) as (c' & _ & E & _). by exists c'.
Qed.

(** ** Reads through the cache *)

(** The open tables: one per id, blocks at distinct offsets. *)
Definition tables_ok (rs : list Reader) : Prop :=
  (forall r r', r ∈ rs -> r' ∈ rs -> rid r = rid r' -> r = r') /\
  (forall r m m', r ∈ rs -> m ∈ rmetas r -> m' ∈ rmetas r -> moffset m = moffset m' -> m = m') /\
  (forall r m, r ∈ rs -> m ∈ rmetas r -> 0 <= msize m < 2^32).

(** Every cached block is what a read of the table gives. *)
Definition block_of (rs : list Reader) (e : cacheEntry) : Prop :=
  forall r m, r ∈ rs -> m ∈ rmetas r -> ekey e = mkKey (rid r) (moffset m) -> readBlockFromData r m = Ok (eblock e).
Definition coherent (rs : list Reader) (ls : nat -> list cacheEntry) : Prop := forall i e, e ∈ ls i -> block_of rs e.

Lemma lru_Get_sub l k e : e ∈ (lru_Get l k).1 -> e ∈ l.
Proof.
  unfold lru_Get. pose proof (lookup_entry_spec k l) as Hl. destruct (lookup_entry k l) as [x|]; [|done]. cbn.
  intros [->|[_ ?]%list_elem_of_filter]%elem_of_cons; [apply Hl|done].
Qed.
Lemma lru_Get_hit l k b : (lru_Get l k).2 = Some b -> exists e, e ∈ l /\ ekey e = k /\ eblock e = b.
Proof.
  unfold lru_Get. pose proof (lookup_entry_spec k l) as Hl. destruct (lookup_entry k l) as [x|]; [|done]. intros [= <-]. exists x. by destruct Hl.
Qed.
Lemma lru_Put_sub cap l x e : e ∈ lru_Put cap l x -> e = x \/ e ∈ l.
Proof.
  unfold lru_Put. intros [->|He]%elem_of_cons; [by left|right]. destruct (lookup_entry _ l).
  - by apply list_elem_of_filter in He as [_ ?].
  - destruct (keep_prefix (cap - esize x) l) as [t Et]. rewrite Et. apply elem_of_app. by left.
Qed.

Lemma readBlock_cached_spec rs c cap n ls r idx :
  tables_ok rs -> cache_rep c cap n ls -> coherent rs ls -> r ∈ rs -> n + 1 < 2^29 ->
  exists c' ls', readBlock_cached c r idx = Some (c', readBlock r idx) /\ cache_rep c' cap (n + 2) ls' /\ coherent rs ls'.
Proof.
  intros (Hr1 & Hr2 & Hr3) Hc Hco Hr Hn.
  assert (cache_rep c cap (n + 2) ls) as Hc2.
  { destruct Hc as [H1 H2 H3]. split; [done|done|]. intros i s Hi. destruct (H3 i s Hi) as (? & ? & ?). split; [done|]. split; [done|lia]. }
  unfold readBlock_cached, readBlock. destruct ((idx <? 0) || (len (rmetas r) <=? idx)) eqn:Eb; [by exists c, ls|].
  unfold index. destruct (_ && _); [|by exists c, ls]. destruct (rmetas r !! Z.to_nat idx) as [m|] eqn:Em; [|by exists c, ls].
  apply list_elem_of_lookup_2 in Em. cbn [mbind outcome_bind]. set (k := mkKey (rid r) (moffset m)).
  destruct (cache_step_rep c cap n ls (CGet k) Hc I ltac:(lia)) as (c1 & E1 & Hg1 & Hc1). cbn [cache_step cop_key lru_step] in *.
  set (i := getShard c k) in *. rewrite E1. cbn [mbind option_bind fst snd].
  set (ls1 := fun j => if decide (j = i) then (lru_Get (ls i) k).1 else ls j) in *.
  assert (coherent rs ls1) as Hco1.
  { intros j e. unfold ls1. case_decide; [|apply Hco]. intros He%lru_Get_sub. by apply (Hco i). }
  assert (forall c' ls' n', n' <= n + 2 -> cache_rep c' cap n' ls' -> cache_rep c' cap (n + 2) ls') as Hmono.
  { intros c' ls' n' Hn' [H1 H2 H3]. split; [done|done|]. intros j s Hj. destruct (H3 j s Hj) as (? & ? & ?). split; [done|]. split; [done|lia]. }
  destruct (lru_Get (ls i) k).2 as [b|] eqn:Eg.
  - destruct (lru_Get_hit _ _ _ Eg) as (e & He & Ek & <-). rewrite (Hco i e He r m Hr Em Ek).
    exists c1, ls1. split; [done|]. split; [by eapply Hmono; [|done]; lia|done].
  - destruct (readBlockFromData r m) as [b|err|] eqn:Ed; [|exists c1, ls1; split; [done|]; split; [by eapply Hmono; [|done]; lia|done]..].
    destruct (cache_step_rep c1 cap (n + 1) ls1 (CPut k b (msize m)) Hc1 (Hr3 r m Hr Em) ltac:(lia)) as (c2 & E2 & _ & Hcr).
    cbn [cache_step cop_key lru_step snd fst] in *. destruct (cache_Put c1 k b (msize m)) as [c2'|]; [|done]. cbn in E2. injection E2 as ->.
    cbn [mbind option_bind]. eexists c2, _. split; [done|]. split; [by eapply Hmono; [|exact Hcr]; lia|].
    intros j e. cbn beta. case_decide; [|apply Hco1]. intros [->|He]%lru_Put_sub; [|by eapply Hco1].
    intros r' m' Hr' Hm' Ek. cbn in Ek. injection Ek as Ei Eo. apply Hr1 in Ei; [|done|done]. subst r'.
    rewrite (Hr2 r m' m) by (done || congruence). done.
Qed.

Fixpoint read_run (c : BlockCache) (reads : list (Reader * Z)) : option (BlockCache * list (outcome SstErr Block)) :=
  match reads with
  | [] => Some (c, [])
  | p :: reads => x ← readBlock_cached c p.1 p.2; y ← read_run x.1 reads; Some (y.1, x.2 :: y.2)
  end.

(** Caching is invisible.  Whatever the capacity, over any run of fewer than
    2^28 block reads of the open tables through one shared cache, every read
    returns what it returns without the cache, errors included. *)
Theorem cached_reads_transparent cap rs reads :
  tables_ok rs -> Forall (fun p => p.1 ∈ rs) reads -> len reads < 2^28 ->
  exists c', read_run (NewBlockCache cap) reads = Some (c', map (fun p => readBlock p.1 p.2) reads).
Proof.
  intros Hrs Hin Hb.
  assert (forall c scap n ls, cache_rep c scap n ls -> coherent rs ls -> n + 2 * len reads < 2^29 ->
    exists c', read_run c reads = Some (c', map (fun p => readBlock p.1 p.2) reads)) as H.
  { clear Hb. induction Hin as [|p reads Hp Hin IH]; intros c scap n ls Hc Hco Hb; [by exists c|].
    rewrite len_cons in Hb. pose proof (len_nonneg reads).
    destruct (readBlock_cached_spec rs c scap n ls p.1 p.2 Hrs Hc Hco Hp ltac:(lia)) as (c1 & ls1 & E & Hc1 & Hco1).
    cbn [read_run]. rewrite E. cbn [mbind option_bind fst snd]. destruct (IH c1 scap (n + 2) ls1 Hc1 Hco1 ltac:(lia)) as (c' & E').
    rewrite E'. by exists c'. }
  apply (H _ _ _ _ (cache_New_rep cap)); [|lia]. intros i e He. by apply elem_of_nil in He.
Qed.

(** ** Small examples *)
Definition demo_reader : option Reader :=
  match add_all (NewBuilder 3 40) demo_table with
  | Ok b => match Finish b with
            | Ok file => match openFromData 3 file with Ok r => Some r | _ => None end
            | _ => None
            end
  | _ => None
  end.
Definition demo_readers : list Reader := option_list demo_reader.

(** It has two blocks. *)
Lemma demo_reader_blocks :
  match demo_reader with
  | Some r => match rmetas r with
              | [m1; m2] => moffset m1 <> moffset m2 /\ 0 <= msize m1 < 2^32 /\ 0 <= msize m2 < 2^32
              | _ => False
              end
  | None => False
  end.
Proof. vm_compute. split; [discriminate|]. repeat split; discriminate. Qed.

Lemma demo_tables_ok : tables_ok demo_readers.
Proof.
  unfold demo_readers. pose proof demo_reader_blocks as Hb. generalize dependent demo_reader. intros [r|] Hb; [|done]. cbn [option_list].
  destruct (rmetas r) as [|m1 [|m2 [|]]] eqn:Em; try done. destruct Hb as (Hne & H1 & H2).
  split; [|split].
  - intros r1 r2 ->%list_elem_of_singleton ->%list_elem_of_singleton. done.
  - intros r1 a b ->%list_elem_of_singleton. rewrite Em.
    intros [->|[->|?%elem_of_nil]%elem_of_cons]%elem_of_cons [->|[->|?%elem_of_nil]%elem_of_cons]%elem_of_cons; done.
  - intros r1 a ->%list_elem_of_singleton. rewrite Em. intros [->|[->|?%elem_of_nil]%elem_of_cons]%elem_of_cons; done.
Qed.

Definition demo_reads : list (Reader * Z) := concat (map (fun r => [(r, 0); (r, 1); (r, 0); (r, 7)]) demo_readers).

Lemma cached_reads_transparent_witness :
  exists c', read_run (NewBlockCache 64) demo_reads = Some (c', map (fun p => readBlock p.1 p.2) demo_reads).
Proof.
  apply (cached_reads_transparent 64 demo_readers demo_reads demo_tables_ok); [|vm_compute; reflexivity].
  unfold demo_reads. generalize demo_readers. intros rs. apply Forall_forall. intros p Hp.
  apply list_elem_of_In, in_concat in Hp as (l & Hl & Hp). apply in_map_iff in Hl as (r & <- & Hr). apply list_elem_of_In.
  destruct Hp as [<-|[<-|[<-|[<-|[]]]]]; exact Hr.
Defined.

(** In a shard for two entries of size 20, a third one replaces the least recent. *)
Definition demo_cops (b : Block) : list cop :=
  [CPut (mkKey 0 0) b 20; CPut (mkKey 0 16) b 20; CGet (mkKey 0 0); CPut (mkKey 0 32) b 20; CGet (mkKey 0 16); CGet (mkKey 0 0)].

Lemma cache_refines_lru_witness :
  exists c', cache_run (NewBlockCache 640) (demo_cops (mkBlock [] [] 0 0)) = Some (c', lru_run 40 (getShard (NewBlockCache 640)) (fun _ => []) (demo_cops (mkBlock [] [] 0 0))).
Proof.
  apply (cache_refines_lru 640); [|vm_compute; reflexivity]. repeat constructor; vm_compute; (discriminate || reflexivity).
Defined.
