(* ===== verification/Manifest.v ===== *)
(** * The manifest (src/manifest)

    The record codec of encoding.go and the append-only log of
    manifest.go.  A manifest holds its file's contents and the in-memory
    state; [range] over a Go map has no fixed order, so the iteration
    orders are parameters of which only that they enumerate the map is
    assumed. *)

From Stdlib Require Import ZArith Lia Sorted.
From stdpp Require Import base list option sorting gmap.
From S2P Require Import Prelude GoBytes.

(** ** encoding.go *)
Definition checksumSize : Z := 4.
Definition lengthSize : Z := 4.
Definition recordHeaderSize : Z := checksumSize + lengthSize.
Definition recordTypeSize : Z := 1.
Definition typeSSTableAdded : byte := Byte.x01.
Definition typeSSTableRemoved : byte := Byte.x02.
Definition typeSnapshot : byte := Byte.x03.
Definition typeNextIDs : byte := Byte.x04.
Definition typeHNSWSnapshot : byte := Byte.x05.
Definition idSize : Z := 8.
Definition levelSize : Z := 1.
Definition keyLenSize : Z := 2.
Definition nextIDSize : Z := 16.
Definition snapshotCountSize : Z := 4.
Definition minInfoSize : Z := idSize + levelSize + keyLenSize.

Inductive ManErr := ErrCorruptRecord | ErrShortRecord | ErrUnknownType.
#[global] Instance ManErr_eq_dec : EqDecision ManErr.
Proof. solve_decision. Defined.

Record SSTableInfo := mkInfo { ID : Z; Level : byte; FirstKey : bytes; LastKey : bytes }.
Record HNSWSnapshotInfo := mkHnsw { Collection : bytes; HSeq : Z; Filename : bytes }.

(** A record; the constructor is its [Type] byte. *)
Inductive record :=
| SSTableAdded (t : SSTableInfo)
| SSTableRemoved (id : Z) (level : byte)
| Snapshot (tables : list SSTableInfo) (hnsw : gmap bytes HNSWSnapshotInfo)
| NextIDs (nextMemID nextSeq : Z)
| HNSWSnapshot (h : HNSWSnapshotInfo).

Definition rec_type (r : record) : byte :=
  match r with
  | SSTableAdded _ => typeSSTableAdded
  | SSTableRemoved _ _ => typeSSTableRemoved
  | Snapshot _ _ => typeSnapshot
  | NextIDs _ _ => typeNextIDs
  | HNSWSnapshot _ => typeHNSWSnapshot
  end.

Definition appendSSTableInfo (buf : bytes) (t : SSTableInfo) : bytes :=
  buf ++ put_le 8 (ID t) ++ [Level t] ++ put_le 2 (len (FirstKey t)) ++ FirstKey t
  ++ put_le 2 (len (LastKey t)) ++ LastKey t.
Definition encodeSSTableInfo (t : SSTableInfo) : bytes := appendSSTableInfo [] t.
Definition encodeSSTableRemoved (id : Z) (level : byte) : bytes := put_le 8 id ++ [level].
Definition encodeNextIDs (nextMemID nextSeq : Z) : bytes := put_le 8 nextMemID ++ put_le 8 nextSeq.
Definition encodeHNSWSnapshot (h : HNSWSnapshotInfo) : bytes :=
  put_le 2 (len (Collection h)) ++ Collection h ++ put_le 8 (HSeq h)
  ++ put_le 2 (len (Filename h)) ++ Filename h.

Definition decodeSSTableInfoAt (data : bytes) : outcome ManErr (SSTableInfo * Z) :=
  if len data <? minInfoSize then Err ErrShortRecord else
  let offset := 0 in
  t ← slice_from data offset; id ← le_Uint64 t;
  let offset := offset + idSize in
  level ← index data offset;
  let offset := offset + levelSize in
  t ← slice_from data offset; fkLen ← le_Uint16 t;
  let offset := offset + keyLenSize in
  if len data <? offset + fkLen then Err ErrShortRecord else
  firstKey ← slice data offset (offset + fkLen);
  let offset := offset + fkLen in
  if len data <? offset + keyLenSize then Err ErrShortRecord else
  t ← slice_from data offset; lkLen ← le_Uint16 t;
  let offset := offset + keyLenSize in
  if len data <? offset + lkLen then Err ErrShortRecord else
  lastKey ← slice data offset (offset + lkLen);
  let offset := offset + lkLen in
  Ok (mkInfo id level firstKey lastKey, offset).

Definition decodeSSTableInfo (data : bytes) : outcome ManErr SSTableInfo :=
  r ← decodeSSTableInfoAt data; Ok r.1.

Definition decodeSSTableRemoved (data : bytes) : outcome ManErr (Z * byte) :=
  if len data <? idSize + levelSize then Err ErrShortRecord else
  t ← slice data 0 idSize; id ← le_Uint64 t;
  level ← index data idSize;
  Ok (id, level).

Definition decodeNextIDs (data : bytes) : outcome ManErr (Z * Z) :=
  if len data <? nextIDSize then Err ErrShortRecord else
  t ← slice data 0 idSize; a ← le_Uint64 t;
  t ← slice_from data idSize; b ← le_Uint64 t;
  Ok (a, b).

Definition decodeHNSWSnapshot (data : bytes) : outcome ManErr HNSWSnapshotInfo :=
  if len data <? keyLenSize + idSize + keyLenSize then Err ErrShortRecord else
  let offset := 0 in
  t ← slice_from data offset; colLen ← le_Uint16 t;
  let offset := offset + keyLenSize in
  if len data <? offset + colLen then Err ErrShortRecord else
  collection ← slice data offset (offset + colLen);
  let offset := offset + colLen in
  if len data <? offset + idSize then Err ErrShortRecord else
  t ← slice_from data offset; seq ← le_Uint64 t;
  let offset := offset + idSize in
  if len data <? offset + keyLenSize then Err ErrShortRecord else
  t ← slice_from data offset; fnLen ← le_Uint16 t;
  let offset := offset + keyLenSize in
  if len data <? offset + fnLen then Err ErrShortRecord else
  filename ← slice data offset (offset + fnLen);
  Ok (mkHnsw collection seq filename).

(** The table loop of [decodeSnapshot]. *)
Fixpoint decodeTables (n : nat) (data : bytes) (offset : Z) : outcome ManErr (list SSTableInfo * Z) :=
  match n with
  | O => Ok ([], offset)
  | S n =>
      t ← slice_from data offset;
      r ← decodeSSTableInfoAt t;
      rest ← decodeTables n data (offset + r.2);
      Ok (r.1 :: rest.1, rest.2)
  end.

(** The HNSW loop of [decodeSnapshot]. *)
Fixpoint decodeHnsws (n : nat) (data : bytes) (offset : Z) (acc : gmap bytes HNSWSnapshotInfo)
  : outcome ManErr (gmap bytes HNSWSnapshotInfo) :=
  match n with
  | O => Ok acc
  | S n =>
      t ← slice_from data offset;
      h ← decodeHNSWSnapshot t;
      decodeHnsws n data (offset + (keyLenSize + len (Collection h) + idSize + keyLenSize + len (Filename h)))
        (<[Collection h := h]> acc)
  end.

Definition decodeSnapshot (data : bytes)
  : outcome ManErr (list SSTableInfo * gmap bytes HNSWSnapshotInfo) :=
  if len data <? snapshotCountSize then Err ErrShortRecord else
  t ← slice data 0 snapshotCountSize; count ← le_Uint32 t;
  r ← decodeTables (Z.to_nat count) data snapshotCountSize;
  let offset := snd r : Z in
  if offset + snapshotCountSize <=? len data then
    t ← slice_from data offset; hnswCount ← le_Uint32 t;
    h ← decodeHnsws (Z.to_nat hnswCount) data (offset + snapshotCountSize) ∅;
    Ok (fst r, h)
  else Ok (fst r, ∅).

Definition decodeRecord (data : bytes) : outcome ManErr (record * Z) :=
  if len data <? recordHeaderSize then Err ErrShortRecord else
  t ← slice data checksumSize recordHeaderSize; payloadLen ← le_Uint32 t;
  if payloadLen <? recordTypeSize then Err ErrShortRecord else
  let totalLen := recordHeaderSize + payloadLen in
  if len data <? totalLen then Err ErrShortRecord else
  t ← slice data 0 checksumSize; stored ← le_Uint32 t;
  body ← slice data checksumSize totalLen;
  if negb (stored =? crc32 body) then Err ErrCorruptRecord else
  recType ← index data recordHeaderSize;
  payload ← slice data (recordHeaderSize + recordTypeSize) totalLen;
  r ← (if decide (recType = typeSSTableAdded) then
         t ← decodeSSTableInfo payload; Ok (SSTableAdded t)
       else if decide (recType = typeSSTableRemoved) then
         t ← decodeSSTableRemoved payload; Ok (SSTableRemoved t.1 t.2)
       else if decide (recType = typeSnapshot) then
         t ← decodeSnapshot payload; Ok (Snapshot t.1 t.2)
       else if decide (recType = typeNextIDs) then
         t ← decodeNextIDs payload; Ok (NextIDs t.1 t.2)
       else if decide (recType = typeHNSWSnapshot) then
         t ← decodeHNSWSnapshot payload; Ok (HNSWSnapshot t)
       else Err ErrUnknownType);
  Ok (r, totalLen).

(** ** manifest.go *)
Record Manifest := mkMan {
  file : bytes;
  tables : gmap Z SSTableInfo;
  nextMemID : Z;
  nextSeq : Z;
  hnswSnapshots : gmap bytes HNSWSnapshotInfo;
  recordsSinceSnapshot : Z
}.

Definition snapshotInterval : Z := 64.

Section range.
(** The orders in which [range] enumerates the two maps. *)
Context (range_tables : gmap Z SSTableInfo -> list SSTableInfo).
Context (range_hnsw : gmap bytes HNSWSnapshotInfo -> list HNSWSnapshotInfo).

Definition encodeSnapshot (ts : list SSTableInfo) (hnsw : gmap bytes HNSWSnapshotInfo) : bytes :=
  fold_left appendSSTableInfo ts (put_le 4 (len ts))
  ++ put_le 4 (Z.of_nat (size hnsw)) ++ concat (map encodeHNSWSnapshot (range_hnsw hnsw)).

Definition payload (r : record) : bytes :=
  match r with
  | SSTableAdded t => encodeSSTableInfo t
  | SSTableRemoved id level => encodeSSTableRemoved id level
  | Snapshot ts h => encodeSnapshot ts h
  | NextIDs a b => encodeNextIDs a b
  | HNSWSnapshot h => encodeHNSWSnapshot h
  end.

Definition encodeRecord (r : record) : bytes :=
  let totalPayload := recordTypeSize + len (payload r) in
  let body := put_le 4 totalPayload ++ [rec_type r] ++ payload r in
  put_le 4 (crc32 body) ++ body.

(** [writeRecord] appends and syncs; I/O errors are not modelled. *)
Definition writeRecord (m : Manifest) (r : record) : Manifest :=
  mkMan (file m ++ encodeRecord r) (tables m) (nextMemID m) (nextSeq m) (hnswSnapshots m)
    (recordsSinceSnapshot m + 1).

Definition applyRecord (m : Manifest) (r : record) : Manifest :=
  match r with
  | SSTableAdded t =>
      mkMan (file m) (<[ID t := t]> (tables m)) (nextMemID m) (nextSeq m) (hnswSnapshots m) (recordsSinceSnapshot m)
  | SSTableRemoved id _ =>
      mkMan (file m) (delete id (tables m)) (nextMemID m) (nextSeq m) (hnswSnapshots m) (recordsSinceSnapshot m)
  | Snapshot ts h =>
      mkMan (file m) (fold_left (fun mp t => <[ID t := t]> mp) ts ∅) (nextMemID m) (nextSeq m) h (recordsSinceSnapshot m)
  | NextIDs a b =>
      mkMan (file m) (tables m) a b (hnswSnapshots m) (recordsSinceSnapshot m)
  | HNSWSnapshot h =>
      mkMan (file m) (tables m) (nextMemID m) (nextSeq m) (<[Collection h := h]> (hnswSnapshots m)) (recordsSinceSnapshot m)
  end.

Definition set_tables (m : Manifest) (ts : gmap Z SSTableInfo) : Manifest :=
  mkMan (file m) ts (nextMemID m) (nextSeq m) (hnswSnapshots m) (recordsSinceSnapshot m).

Definition maybeSnapshot (m : Manifest) : Manifest :=
  if recordsSinceSnapshot m <? snapshotInterval then m else
  let m := writeRecord m (Snapshot (range_tables (tables m)) (hnswSnapshots m)) in
  let m := writeRecord m (NextIDs (nextMemID m) (nextSeq m)) in
  mkMan (file m) (tables m) (nextMemID m) (nextSeq m) (hnswSnapshots m) 0.

Definition Create (nextMemID nextSeq : Z) : Manifest :=
  writeRecord (mkMan [] ∅ nextMemID nextSeq ∅ 0) (NextIDs nextMemID nextSeq).

Definition AddSSTable (m : Manifest) (info : SSTableInfo) : Manifest :=
  let m := writeRecord m (SSTableAdded info) in
  maybeSnapshot (set_tables m (<[ID info := info]> (tables m))).

Definition RemoveSSTable (m : Manifest) (id : Z) (level : byte) : Manifest :=
  let m := writeRecord m (SSTableRemoved id level) in
  maybeSnapshot (set_tables m (delete id (tables m))).

Definition UpdateNextIDs (m : Manifest) (a b : Z) : Manifest :=
  writeRecord (mkMan (file m) (tables m) a b (hnswSnapshots m) (recordsSinceSnapshot m)) (NextIDs a b).

Definition AddHNSWSnapshot (m : Manifest) (h : HNSWSnapshotInfo) : Manifest :=
  let m := writeRecord m (HNSWSnapshot h) in
  mkMan (file m) (tables m) (nextMemID m) (nextSeq m) (<[Collection h := h]> (hnswSnapshots m))
    (recordsSinceSnapshot m).
End range.

(** The replay loop of [Open]; each record is at least nine bytes. *)
Fixpoint replay (fuel : nat) (data : bytes) (offset : Z) (m : Manifest) : outcome ManErr Manifest :=
  match fuel with
  | O => Ok m
  | S fuel =>
      if offset <? len data then
        t ← slice_from data offset;
        match decodeRecord t with
        | Ok (r, n) => replay fuel data (offset + n) (applyRecord m r)
        | Err ErrCorruptRecord | Err ErrShortRecord => Ok m
        | Err e => Err e
        | Panic => Panic
        end
      else Ok m
  end.

(** *** buildState *)
Record State := mkState {
  L0 : list SSTableInfo;
  Levels : list (list SSTableInfo);
  SNextMemID : Z;
  SNextSeq : Z;
  SHNSW : gmap bytes HNSWSnapshotInfo
}.

(** [sort.Slice] with a strict [less]: some sorted permutation. *)
Definition newer_first (a b : SSTableInfo) : Prop := ID b <= ID a.
Definition by_first_key (a b : SSTableInfo) : Prop := ~ blt (FirstKey b) (FirstKey a).
#[global] Instance newer_first_dec : RelDecision newer_first.
Proof. intros a b. unfold newer_first. apply _. Defined.
#[global] Instance by_first_key_dec : RelDecision by_first_key.
Proof. intros a b. unfold by_first_key. apply _. Defined.

Definition at_level (l : Z) (ts : list SSTableInfo) : list SSTableInfo :=
  filter (fun t => bZ (Level t) = l) ts.

Definition buildState (range_tables : gmap Z SSTableInfo -> list SSTableInfo) (m : Manifest) : State :=
  let ts := range_tables (tables m) in
  let maxLevel := fold_left (fun l t => if l <? bZ (Level t) then bZ (Level t) else l) ts 0 in
  mkState (merge_sort newer_first (at_level 0 ts))
    (if 0 <? maxLevel
     then [] :: map (fun l => merge_sort by_first_key (at_level (Z.of_nat l) ts)) (seq 1 (Z.to_nat maxLevel))
     else [])
    (nextMemID m) (nextSeq m) (hnswSnapshots m).

Definition Open (range_tables : gmap Z SSTableInfo -> list SSTableInfo) (data : bytes)
  : outcome ManErr (Manifest * State) :=
  m ← replay (length data) data 0 (mkMan data ∅ 0 0 ∅ 0);
  Ok (m, buildState range_tables m).

(** ** The codec *)
Definition wf_info (t : SSTableInfo) : Prop :=
  0 <= ID t < 2^64 /\ len (FirstKey t) < 2^16 /\ len (LastKey t) < 2^16.
Definition wf_hnsw (h : HNSWSnapshotInfo) : Prop :=
  0 <= HSeq h < 2^64 /\ len (Collection h) < 2^16 /\ len (Filename h) < 2^16.

Ltac man_unfold := unfold minInfoSize, nextIDSize, idSize, levelSize, keyLenSize, snapshotCountSize,
  recordHeaderSize, checksumSize, lengthSize, recordTypeSize in *.
Ltac pass_guard := rewrite (proj2 (Z.ltb_ge _ _)) by len_lia.
Ltac bnd := cbn [mbind outcome_bind].

Lemma decodeInfo_encode t rest :
  wf_info t ->
  decodeSSTableInfoAt (encodeSSTableInfo t ++ rest) = Ok (t, len (encodeSSTableInfo t)).
Proof.
  intros (Hid & Hfk & Hlk). pose proof (len_nonneg (FirstKey t)). pose proof (len_nonneg (LastKey t)).
  assert (exists d, d = put_le 8 (ID t) ++ Level t :: put_le 2 (len (FirstKey t)) ++ FirstKey t
    ++ put_le 2 (len (LastKey t)) ++ LastKey t ++ rest /\ encodeSSTableInfo t ++ rest = d) as (d & E & ->)
    by (eexists; split; [done|]; unfold encodeSSTableInfo, appendSSTableInfo; app_eq).
  assert (len d = 13 + len (FirstKey t) + len (LastKey t) + len rest) as Hd by (rewrite E; len_lia).
  pose proof (len_nonneg rest).
  assert (len (encodeSSTableInfo t) = 13 + len (FirstKey t) + len (LastKey t)) as ->
    by (unfold encodeSSTableInfo, appendSSTableInfo; len_lia).
  unfold decodeSSTableInfoAt. man_unfold. pass_guard.
  rd E. rewrite le_Uint64_put, u64_small by done. bnd. rd E. rd E.
  rewrite le_Uint16_put, u16_small by lia. bnd. pass_guard. rd E. pass_guard. rd E.
  rewrite le_Uint16_put, u16_small by lia. bnd. pass_guard. rd E.
  f_equal. f_equal; [by destruct t|lia].
Qed.

Lemma decodeHnsw_encode h rest :
  wf_hnsw h -> decodeHNSWSnapshot (encodeHNSWSnapshot h ++ rest) = Ok h.
Proof.
  intros (Hid & Hc & Hf). pose proof (len_nonneg (Collection h)). pose proof (len_nonneg (Filename h)).
  assert (exists d, d = put_le 2 (len (Collection h)) ++ Collection h ++ put_le 8 (HSeq h)
    ++ put_le 2 (len (Filename h)) ++ Filename h ++ rest /\ encodeHNSWSnapshot h ++ rest = d) as (d & E & ->)
    by (eexists; split; [done|]; unfold encodeHNSWSnapshot; app_eq).
  assert (len d = 12 + len (Collection h) + len (Filename h) + len rest) as Hd by (rewrite E; len_lia).
  pose proof (len_nonneg rest). unfold decodeHNSWSnapshot. man_unfold. pass_guard.
  rd E. rewrite le_Uint16_put, u16_small by lia. bnd. pass_guard. rd E. pass_guard. rd E.
  rewrite le_Uint64_put, u64_small by done. bnd. pass_guard. rd E.
  rewrite le_Uint16_put, u16_small by lia. bnd. pass_guard. rd E. by destruct h.
Qed.

Lemma decodeTables_spec A ts rest :
  Forall wf_info ts ->
  decodeTables (length ts) (A ++ concat (map encodeSSTableInfo ts) ++ rest) (len A) =
  Ok (ts, len A + len (concat (map encodeSSTableInfo ts))).
Proof.
  intros Hf. revert A; induction Hf as [|t ts Ht Hf IH]; intros A; cbn [length decodeTables map concat].
  { rewrite (@len_nil byte), Z.add_0_r. done. }
  rewrite <-app_assoc. rewrite slice_from_app by done. bnd. rewrite decodeInfo_encode by done. bnd.
  specialize (IH (A ++ encodeSSTableInfo t)). rewrite <-app_assoc, len_app in IH. cbn [fst snd].
  rewrite IH. bnd. cbn [fst snd]. do 2 f_equal. len_lia.
Qed.

Definition hnsw_list_map (hs : list HNSWSnapshotInfo) (acc : gmap bytes HNSWSnapshotInfo) :=
  fold_left (fun mp h => <[Collection h := h]> mp) hs acc.

Lemma decodeHnsws_spec A hs rest acc :
  Forall wf_hnsw hs ->
  decodeHnsws (length hs) (A ++ concat (map encodeHNSWSnapshot hs) ++ rest) (len A) acc =
  Ok (hnsw_list_map hs acc).
Proof.
  intros Hf. revert A acc; induction Hf as [|h hs Hh Hf IH]; intros A acc; cbn [length decodeHnsws map concat]; [done|].
  rewrite <-app_assoc. rewrite slice_from_app by done. bnd. rewrite decodeHnsw_encode by done. bnd.
  specialize (IH (A ++ encodeHNSWSnapshot h) (<[Collection h:=h]> acc)). rewrite <-app_assoc, len_app in IH.
  change (hnsw_list_map (h :: hs) acc) with (hnsw_list_map hs (<[Collection h := h]> acc)).
  rewrite <-IH. f_equal. man_unfold. unfold encodeHNSWSnapshot. len_lia.
Qed.

Lemma fold_appendInfo ts buf :
  fold_left appendSSTableInfo ts buf = buf ++ concat (map encodeSSTableInfo ts).
Proof.
  revert buf; induction ts as [|t ts IH]; intros buf; cbn [fold_left map concat]; [by rewrite app_nil_r|].
  rewrite IH. unfold encodeSSTableInfo, appendSSTableInfo. app_eq.
Qed.

(** A map keyed by a field of its values is rebuilt by inserting them in any order. *)
Lemma fold_insert_range {K V} `{Countable K} (key : V -> K) (m : gmap K V) (l : list V) :
  (forall k v, m !! k = Some v -> key v = k) -> l ≡ₚ (map_to_list m).*2 ->
  fold_left (fun mp v => <[key v := v]> mp) l ∅ = m.
Proof.
  intros Hk Hp.
  assert (forall v, v ∈ l <-> m !! key v = Some v) as Hin.
  { intros v. rewrite Hp, list_elem_of_fmap. split.
    - intros ([k v'] & -> & Hkv). apply elem_of_map_to_list in Hkv. cbn. by rewrite (Hk _ _ Hkv).
    - intros Hv. exists (key v, v). split; [done|]. by apply elem_of_map_to_list. }
  assert (NoDup (map key l)) as Hnd.
  { rewrite Hp. assert (map key (map_to_list m).*2 = (map_to_list m).*1) as ->.
    { rewrite map_map. apply map_ext_in. intros [k v] Hkv%list_elem_of_In. cbn.
      by apply Hk, elem_of_map_to_list. }
    apply NoDup_fst_map_to_list. }
  apply map_eq. intros k.
  assert (forall mp : gmap K V, fold_left (fun mp v => <[key v := v]> mp) l mp !! k =
    match List.find (fun v => bool_decide (key v = k)) l with Some v => Some v | None => mp !! k end) as Hfold.
  { clear -Hnd. induction l as [|v l IH]; intros mp; cbn; [done|]. apply NoDup_cons in Hnd as [Hn Hnd].
    rewrite (IH Hnd). case_bool_decide as E.
    - destruct (List.find _ l) as [v'|] eqn:Ef; [|subst; by rewrite lookup_insert_eq].
      apply List.find_some in Ef as [Hin E']. apply bool_decide_eq_true in E'. exfalso. apply Hn.
      rewrite E, <-E'. apply list_elem_of_In, in_map, Hin.
    - destruct (List.find _ l); [done|]. by rewrite lookup_insert_ne. }
  rewrite Hfold, lookup_empty. destruct (List.find _ l) as [v|] eqn:Ef.
  - apply List.find_some in Ef as [Hv E]. apply bool_decide_eq_true in E. apply list_elem_of_In, Hin in Hv. by rewrite <-E.
  - destruct (m !! k) as [v|] eqn:Em; [|done]. exfalso.
    pose proof (List.find_none _ _ Ef v) as Hnone. cbn beta in Hnone. rewrite bool_decide_eq_true_2 in Hnone by (by apply Hk).
    assert (key v = k) as Ek by by apply Hk. rewrite <-Ek in Em. apply Hin, list_elem_of_In in Em. by apply Hnone in Em.
Qed.

Section codec.
Context (range_tables : gmap Z SSTableInfo -> list SSTableInfo).
Context (range_hnsw : gmap bytes HNSWSnapshotInfo -> list HNSWSnapshotInfo).
Context (Hrt : forall m, range_tables m ≡ₚ (map_to_list m).*2).
Context (Hrh : forall m, range_hnsw m ≡ₚ (map_to_list m).*2).

Abbreviation payload := (payload range_hnsw).
Abbreviation encodeRecord := (encodeRecord range_hnsw).

(** Records the code writes: fields within their widths, maps keyed consistently. *)
Definition hnsw_ok (h : gmap bytes HNSWSnapshotInfo) : Prop :=
  (forall k v, h !! k = Some v -> Collection v = k /\ wf_hnsw v) /\ Z.of_nat (size h) < 2^32.
Definition wf_record (r : record) : Prop :=
  match r with
  | SSTableAdded t => wf_info t
  | SSTableRemoved id _ => 0 <= id < 2^64
  | Snapshot ts h => Forall wf_info ts /\ len ts < 2^32 /\ hnsw_ok h
  | NextIDs a b => 0 <= a < 2^64 /\ 0 <= b < 2^64
  | HNSWSnapshot h => wf_hnsw h
  end /\ len (payload r) < 2^32 - 1.

Lemma range_hnsw_wf h : hnsw_ok h -> Forall wf_hnsw (range_hnsw h).
Proof.
  intros [Hk _]. rewrite Hrh. apply Forall_forall. intros v Hv.
  apply list_elem_of_fmap in Hv as ([k v'] & -> & Hkv). apply elem_of_map_to_list in Hkv. by apply Hk in Hkv as [_ ?].
Qed.

Lemma decodeSnapshot_encode ts h :
  Forall wf_info ts -> len ts < 2^32 -> hnsw_ok h ->
  decodeSnapshot (encodeSnapshot range_hnsw ts h) = Ok (ts, h).
Proof.
  intros Hts Hl Hh. pose proof (range_hnsw_wf h Hh) as Hwf. destruct Hh as [Hk Hsz].
  assert (length (range_hnsw h) = size h) as Hlen.
  { rewrite (Permutation_length (Hrh h)), length_fmap. apply length_map_to_list. }
  unfold encodeSnapshot. rewrite fold_appendInfo.
  set (tb := concat (map encodeSSTableInfo ts)). set (hb := concat (map encodeHNSWSnapshot (range_hnsw h))).
  assert (exists d, d = put_le 4 (len ts) ++ tb ++ put_le 4 (Z.of_nat (size h)) ++ hb /\
    (put_le 4 (len ts) ++ tb) ++ put_le 4 (Z.of_nat (size h)) ++ hb = d) as (d & E & ->)
    by (eexists; split; [done|]; app_eq).
  assert (len d = 8 + len tb + len hb) as Hd by (rewrite E; len_lia).
  pose proof (len_nonneg tb). pose proof (len_nonneg hb). pose proof (len_nonneg ts).
  unfold decodeSnapshot. man_unfold. pass_guard. rd E.
  rewrite <-(app_nil_r (put_le 4 (len ts))), le_Uint32_put, u32_small by lia. bnd.
  rewrite len_to_nat.
  pose proof (decodeTables_spec (put_le 4 (len ts)) ts (put_le 4 (Z.of_nat (size h)) ++ hb) Hts) as Ht.
  fold tb in Ht. rewrite <-E in Ht. rewrite len_put_le in Ht. change (Z.of_nat 4) with 4 in Ht. rewrite Ht. bnd.
  cbn [fst snd]. rewrite (proj2 (Z.leb_le _ _)) by lia. rd E.
  rewrite le_Uint32_put, u32_small by lia. bnd. rewrite Nat2Z.id, <-Hlen.
  pose proof (decodeHnsws_spec (put_le 4 (len ts) ++ tb ++ put_le 4 (Z.of_nat (size h))) (range_hnsw h) [] ∅ Hwf) as Hhs.
  fold hb in Hhs. rewrite app_nil_r, <-!app_assoc, <-E in Hhs.
  replace (4 + len tb + 4) with (len (put_le 4 (len ts) ++ tb ++ put_le 4 (Z.of_nat (size h)))) by len_lia.
  rewrite Hhs. bnd. do 2 f_equal. unfold hnsw_list_map.
  apply (fold_insert_range Collection); [|apply Hrh]. intros k v Hv. by apply Hk in Hv as [? _].
Qed.

Lemma decode_payload (r : record) :
  wf_record r ->
  match r with
  | SSTableAdded t => decodeSSTableInfo (payload r) = Ok t
  | SSTableRemoved id l => decodeSSTableRemoved (payload r) = Ok (id, l)
  | Snapshot ts h => decodeSnapshot (payload r) = Ok (ts, h)
  | NextIDs a b => decodeNextIDs (payload r) = Ok (a, b)
  | HNSWSnapshot h => decodeHNSWSnapshot (payload r) = Ok h
  end.
Proof.
  intros [Hw Hlen]. destruct r as [t|id l|ts h|a b|h]; cbn [Manifest.payload].
  - unfold decodeSSTableInfo. rewrite <-(app_nil_r (encodeSSTableInfo t)), decodeInfo_encode by done. done.
  - unfold decodeSSTableRemoved, encodeSSTableRemoved. man_unfold.
    assert (exists d, d = put_le 8 id ++ [] ++ l :: [] /\ put_le 8 id ++ [l] = d) as (d & E & ->) by eauto.
    assert (len d = 9) by (rewrite E; len_lia). pass_guard. rd E.
    rewrite <-(app_nil_r (put_le 8 id)), le_Uint64_put, u64_small by done. bnd. rd E. done.
  - destruct Hw as (? & ? & ?). by apply decodeSnapshot_encode.
  - unfold decodeNextIDs, encodeNextIDs. man_unfold.
    assert (exists d, d = put_le 8 a ++ put_le 8 b /\ put_le 8 a ++ put_le 8 b = d) as (d & E & ->) by eauto.
    assert (len d = 16) by (rewrite E; len_lia). pass_guard. rd E.
    rewrite <-(app_nil_r (put_le 8 a)), le_Uint64_put, u64_small by tauto. bnd. rd E.
    rewrite <-(app_nil_r (put_le 8 b)), le_Uint64_put, u64_small by tauto. done.
  - rewrite <-(app_nil_r (encodeHNSWSnapshot h)). by apply decodeHnsw_encode.
Qed.

Lemma man_len_encode r : len (encodeRecord r) = 9 + len (payload r).
Proof. unfold Manifest.encodeRecord. len_lia. Qed.

Lemma man_decode_encode r rest :
  wf_record r -> decodeRecord (encodeRecord r ++ rest) = Ok (r, len (encodeRecord r)).
Proof.
  intros Hw. pose proof (decode_payload r Hw) as Hp. destruct Hw as [_ Hlen].
  rewrite man_len_encode. set (p := payload r) in *. pose proof (len_nonneg p). pose proof (len_nonneg rest).
  set (body := put_le 4 (1 + len p) ++ [rec_type r] ++ p).
  assert (exists d, d = put_le 4 (crc32 body) ++ put_le 4 (1 + len p) ++ rec_type r :: p ++ rest /\
    encodeRecord r ++ rest = d) as (d & E & ->).
  { eexists; split; [done|]. unfold Manifest.encodeRecord. man_unfold. fold p. fold body. unfold body. app_eq. }
  assert (len d = 9 + len p + len rest) as Hd by (rewrite E; len_lia).
  unfold decodeRecord. man_unfold. pass_guard. rd E.
  rewrite <-(app_nil_r (put_le 4 (1 + len p))), le_Uint32_put, u32_small by lia. bnd. pass_guard. pass_guard.
  rd E. rewrite <-(app_nil_r (put_le 4 (crc32 body))), le_Uint32_put, u32_small by apply crc32_range. bnd.
  rewrite (slice_eq d (put_le 4 (crc32 body)) body rest 4 (4 + 4 + (1 + len p))).
  2: { rewrite E. unfold body. app_eq. } 2: { len_lia. } 2: { unfold body. len_lia. }
  bnd. rewrite Z.eqb_refl. cbn [negb]. rd E. rd E.
  replace (9 + len p) with (4 + 4 + (1 + len p)) by lia.
  destruct r; cbn [rec_type]; cbn [rec_type] in *; rewrite Hp; done.
Qed.

(** A torn record is recognised as such. *)
Lemma man_decode_torn r p :
  wf_record r -> p `prefix_of` encodeRecord r -> p <> encodeRecord r ->
  decodeRecord p = Err ErrShortRecord.
Proof.
  intros [_ Hlen] [s E] Hne. pose proof (man_len_encode r) as Hle. set (q := payload r) in *.
  assert (0 < len s) as Hs.
  { destruct s; [|len_lia]. rewrite app_nil_r in E. congruence. }
  assert (len p + len s = 9 + len q) as Hls by (rewrite <-Hle, E; len_lia).
  pose proof (len_nonneg q). unfold decodeRecord. man_unfold.
  destruct (Z.ltb_spec (len p) (4 + 4)) as [Hlt|Hge]; [done|].
  assert (exists p2, p = put_le 4 (crc32 (put_le 4 (1 + len q) ++ [rec_type r] ++ q)) ++ put_le 4 (1 + len q) ++ p2) as (p2 & Ep).
  { unfold Manifest.encodeRecord in E. man_unfold. fold q in E.
    set (c := put_le 4 (crc32 _)) in *. set (l4 := put_le 4 (1 + len q)) in *.
    assert (len (c ++ l4) = 8) as H8 by (unfold c, l4; len_lia).
    exists (drop 8 p). rewrite app_assoc in E. rewrite app_assoc.
    assert (take 8 p = c ++ l4) as <-; [|by rewrite take_drop].
    assert (take 8 (p ++ s) = take 8 ((c ++ l4) ++ [rec_type r] ++ q)) as Ht by (by rewrite <-E, <-app_assoc).
    rewrite take_app_le in Ht by (unfold len in Hge; lia). rewrite Ht.
    rewrite take_app_le by (unfold len in H8; lia). apply take_ge. unfold len in H8. lia. }
  rd Ep. rewrite <-(app_nil_r (put_le 4 (1 + len q))), le_Uint32_put, u32_small by lia. bnd. pass_guard.
  rewrite (proj2 (Z.ltb_lt _ _)) by lia. done.
Qed.

(** ** Replay *)
Definition same_state (m m' : Manifest) : Prop :=
  tables m = tables m' /\ nextMemID m = nextMemID m' /\ nextSeq m = nextSeq m' /\
  hnswSnapshots m = hnswSnapshots m'.

#[global] Instance same_state_equiv : Equivalence same_state.
Proof.
  split.
  - intros m. done.
  - intros m m' (? & ? & ? & ?). repeat split; congruence.
  - intros a b c (? & ? & ? & ?) (? & ? & ? & ?). repeat split; congruence.
Qed.

#[global] Instance applyRecord_proper : Proper (same_state ==> eq ==> same_state) applyRecord.
Proof.
  intros m m' (H1 & H2 & H3 & H4) r ? <-. destruct r; cbn; repeat split; cbn; congruence.
Qed.

Lemma apply_all_proper rs m m' :
  same_state m m' -> same_state (fold_left applyRecord rs m) (fold_left applyRecord rs m').
Proof. revert m m'; induction rs as [|r rs IH]; intros m m' H; cbn; [done|]. apply IH. by rewrite H. Qed.

Definition log (rs : list record) : bytes := concat (map encodeRecord rs).
Lemma log_app l1 l2 : log (l1 ++ l2) = log l1 ++ log l2.
Proof. unfold log. by rewrite map_app, concat_app. Qed.

Lemma replay_log fuel A rs p m :
  Forall wf_record rs -> (length rs < fuel)%nat ->
  p = [] \/ decodeRecord p = Err ErrShortRecord ->
  replay fuel (A ++ log rs ++ p) (len A) m = Ok (fold_left applyRecord rs m).
Proof.
  intros Hw. revert fuel A m; induction Hw as [|r rs Hr Hw IH]; intros [|fuel] A m Hf Hp; cbn in Hf; [lia| |lia|].
  - cbn [replay fold_left]. change (log []) with (@nil byte). cbn [app].
    destruct (Z.ltb_spec (len A) (len (A ++ p))) as [H|H]; [|done].
    rewrite slice_from_app by done. bnd. destruct Hp as [->| ->]; [|done]. exfalso. len_lia.
  - cbn [replay fold_left]. unfold log. cbn [map concat]. fold (log rs).
    pose proof (man_len_encode r) as Hle. pose proof (len_nonneg (payload r)).
    rewrite (proj2 (Z.ltb_lt _ _)) by len_lia.
    rewrite <-app_assoc. rewrite slice_from_app by done. bnd. rewrite man_decode_encode by done.
    specialize (IH fuel (A ++ encodeRecord r) (applyRecord m r)). rewrite <-app_assoc, len_app in IH.
    apply IH; [lia|done].
Qed.

Definition blank (d : bytes) : Manifest := mkMan d ∅ 0 0 ∅ 0.

Lemma log_length rs : (length rs <= length (log rs))%nat.
Proof.
  induction rs as [|r rs IH]; [done|]. unfold log in *. cbn [map concat length]. rewrite length_app.
  pose proof (man_len_encode r) as H. pose proof (len_nonneg (payload r)). unfold len in H. lia.
Qed.

Lemma Open_log rs p :
  Forall wf_record rs -> rs <> [] \/ p <> [] -> p = [] \/ decodeRecord p = Err ErrShortRecord ->
  exists m, Open range_tables (log rs ++ p) = Ok (m, buildState range_tables m) /\
    m = fold_left applyRecord rs (blank (log rs ++ p)).
Proof.
  intros Hw Hne Hp. unfold Open. pose proof (replay_log (length (log rs ++ p)) [] rs p (blank (log rs ++ p)) Hw) as H.
  cbn [app] in H. change (len []) with 0 in H. fold (blank (log rs ++ p)). rewrite H; [eauto| |done].
  rewrite length_app. destruct p as [|x p]; [|pose proof (log_length rs); cbn; lia].
  destruct rs as [|r rs]; [by destruct Hne|]. unfold log. cbn [map concat length]. rewrite length_app.
  pose proof (log_length rs) as Hl. unfold log in Hl. pose proof (man_len_encode r) as Hle.
  pose proof (len_nonneg (payload r)). unfold len in Hle. cbn. lia.
Qed.

(** ** Operations and what they write *)
Inductive man_op :=
| OAdd (t : SSTableInfo)
| ORemove (id : Z) (level : byte)
| ONext (a b : Z)
| OHnsw (h : HNSWSnapshotInfo).

Definition do_op (m : Manifest) (o : man_op) : Manifest :=
  match o with
  | OAdd t => AddSSTable range_tables range_hnsw m t
  | ORemove id l => RemoveSSTable range_tables range_hnsw m id l
  | ONext a b => UpdateNextIDs range_hnsw m a b
  | OHnsw h => AddHNSWSnapshot range_hnsw m h
  end.

Definition op_record (o : man_op) : record :=
  match o with
  | OAdd t => SSTableAdded t
  | ORemove id l => SSTableRemoved id l
  | ONext a b => NextIDs a b
  | OHnsw h => HNSWSnapshot h
  end.

(** Maps keyed consistently, counters within their widths, and a snapshot of the
    state within the format's limits. *)
Record man_wf (m : Manifest) : Prop := {
  wf_tables : forall k t, tables m !! k = Some t -> ID t = k /\ wf_info t;
  wf_hnsws : hnsw_ok (hnswSnapshots m);
  wf_next : 0 <= nextMemID m < 2^64 /\ 0 <= nextSeq m < 2^64;
  wf_count : Z.of_nat (size (tables m)) < 2^32;
  wf_snap : len (encodeSnapshot range_hnsw (range_tables (tables m)) (hnswSnapshots m)) < 2^32 - 1
}.

Lemma snapshot_record_wf m :
  man_wf m -> wf_record (Snapshot (range_tables (tables m)) (hnswSnapshots m)) /\
    wf_record (NextIDs (nextMemID m) (nextSeq m)).
Proof.
  intros [Ht Hh Hn Hc Hs]. split.
  - split; [|done]. split; [|split; [|done]].
    + rewrite Hrt. apply Forall_forall. intros t Hin. apply list_elem_of_fmap in Hin as ([k t'] & -> & Hkt).
      apply elem_of_map_to_list in Hkt. by apply Ht in Hkt as [_ ?].
    + unfold len. rewrite (Permutation_length (Hrt (tables m))), length_fmap, length_map_to_list. done.
  - split; [done|]. unfold Manifest.payload, encodeNextIDs. rewrite len_app, !len_put_le. lia.
Qed.

(** The records an operation appends: its own, then possibly a snapshot of the
    state it leads to, which replays to that same state. *)
Lemma do_op_log m o :
  man_wf m -> wf_record (op_record o) -> man_wf (do_op m o) ->
  exists more, file (do_op m o) = file m ++ log (op_record o :: more) /\ Forall wf_record more /\
    same_state (applyRecord m (op_record o)) (do_op m o) /\
    forall j m', same_state m' (do_op m o) -> same_state (fold_left applyRecord (take j more) m') (do_op m o).
Proof.
  intros Hm Ho Hm'.
  assert (forall m1, man_wf m1 -> exists more, file (maybeSnapshot range_tables range_hnsw m1) = file m1 ++ log more /\
    Forall wf_record more /\ same_state m1 (maybeSnapshot range_tables range_hnsw m1) /\
    forall j m', same_state m' m1 -> same_state (fold_left applyRecord (take j more) m') m1) as Hms.
  { intros m1 H1. unfold maybeSnapshot. destruct (_ <? _).
    - exists []. split; [by rewrite app_nil_r|]. split; [done|]. split; [done|]. intros [|j] m'' H; done.
    - destruct (snapshot_record_wf m1 H1) as [Hw1 Hw2].
      exists [Snapshot (range_tables (tables m1)) (hnswSnapshots m1); NextIDs (nextMemID m1) (nextSeq m1)].
      split; [cbn; unfold log; cbn [map concat]; app_eq|]. split; [constructor; [done|by constructor]|]. split; [done|].
      assert (forall m'', same_state m'' m1 ->
        same_state (applyRecord m'' (Snapshot (range_tables (tables m1)) (hnswSnapshots m1))) m1) as Hsn.
      { intros m'' (E1 & E2 & E3 & E4). repeat split; cbn; [|done..].
        apply (fold_insert_range ID); [|apply Hrt]. intros k t Hk. by apply (wf_tables _ H1) in Hk as [? _]. }
      assert (forall m'', same_state m'' m1 -> same_state (applyRecord m'' (NextIDs (nextMemID m1) (nextSeq m1))) m1) as Hnx.
      { intros m'' (E1 & E2 & E3 & E4). by repeat split. }
      intros [|[|j]] m'' H; cbn [take fold_left]; [done|by apply Hsn|].
      destruct j; cbn [take fold_left]; apply Hnx, Hsn, H. }
  destruct o as [t|id l|a b|h]; cbn [do_op op_record] in *.
  - unfold AddSSTable in *. set (m1 := set_tables _ _) in *.
    assert (man_wf m1) as H1.
    { unfold maybeSnapshot in Hm'. destruct (_ <? _) in Hm'; [done|]. destruct Hm'. by split. }
    destruct (Hms m1 H1) as (more & F1 & F2 & F3 & F4). exists more. split; [|split; [done|split]].
    + rewrite F1. unfold m1. cbn. unfold log. cbn [map concat]. app_eq.
    + rewrite <-F3. done.
    + intros j m' H. rewrite <-F3. apply F4. by rewrite F3.
  - unfold RemoveSSTable in *. set (m1 := set_tables _ _) in *.
    assert (man_wf m1) as H1.
    { unfold maybeSnapshot in Hm'. destruct (_ <? _) in Hm'; [done|]. destruct Hm'. by split. }
    destruct (Hms m1 H1) as (more & F1 & F2 & F3 & F4). exists more. split; [|split; [done|split]].
    + rewrite F1. unfold m1. cbn. unfold log. cbn [map concat]. app_eq.
    + rewrite <-F3. done.
    + intros j m' H. rewrite <-F3. apply F4. by rewrite F3.
  - exists []. split; [cbn; unfold log; cbn; by rewrite app_nil_r|]. split; [done|]. split; [done|]. by intros [|j].
  - exists []. split; [cbn; unfold log; cbn; by rewrite app_nil_r|]. split; [done|]. split; [done|]. by intros [|j].
Qed.

(** A manifest whose file replays to its state. *)
Definition man_inv (m : Manifest) : Prop :=
  man_wf m /\ exists rs, rs <> [] /\ file m = log rs /\ Forall wf_record rs /\
    same_state (fold_left applyRecord rs (blank (file m))) m.

Lemma Create_inv a b : 0 <= a < 2^64 -> 0 <= b < 2^64 -> man_wf (Create range_hnsw a b) -> man_inv (Create range_hnsw a b).
Proof.
  intros Ha Hb Hw. split; [done|]. exists [NextIDs a b]. split; [done|].
  split; [cbn; unfold log; cbn; by rewrite app_nil_r|]. split; [|done].
  constructor; [|done]. split; [done|]. unfold Manifest.payload, encodeNextIDs. rewrite len_app, !len_put_le. lia.
Qed.

Lemma do_op_inv m o :
  man_inv m -> wf_record (op_record o) -> man_wf (do_op m o) -> man_inv (do_op m o).
Proof.
  intros (Hm & rs & Hne & Hf & Hw & Hs) Ho Hm'. split; [done|].
  destruct (do_op_log m o Hm Ho Hm') as (more & F1 & F2 & F3 & F4).
  exists (rs ++ op_record o :: more). split; [by destruct rs|]. split; [rewrite F1, Hf, log_app; done|].
  split; [apply Forall_app; split; [done|by constructor]|].
  rewrite fold_left_app. cbn [fold_left].
  assert (same_state (fold_left applyRecord rs (blank (file (do_op m o)))) m) as Hs'.
  { etransitivity; [|exact Hs]. by apply apply_all_proper. }
  pose proof (F4 (length more)) as F5. rewrite take_ge in F5 by lia. apply F5. by rewrite Hs'.
Qed.

(** Cutting a concatenation of records. *)
Lemma cut_log p rs :
  p `prefix_of` log rs ->
  exists j p', p = log (take j rs) ++ p' /\
    (p' = [] \/ exists r, rs !! j = Some r /\ p' `prefix_of` encodeRecord r /\ p' <> encodeRecord r).
Proof.
  revert p; induction rs as [|r rs IH]; intros p Hp.
  - exists 0%nat, []. apply prefix_nil_inv in Hp as ->. auto.
  - unfold log in Hp. cbn [map concat] in Hp. fold (log rs) in Hp.
    destruct (decide (encodeRecord r `prefix_of` p)) as [[q ->]|Hn].
    + apply prefix_app_inv in Hp. destruct (IH q Hp) as (j & p' & -> & Hj). exists (S j), p'.
      split; [unfold log; cbn [take map concat]; by rewrite <-app_assoc|done].
    + exists 0%nat, p. split; [done|]. right. exists r. split; [done|].
      assert (p `prefix_of` encodeRecord r) as Hpr.
      { destruct (prefix_weak_total p (encodeRecord r) (encodeRecord r ++ log rs)) as [?|?]; [done|by eexists|done|done]. }
      split; [done|]. intros ->. done.
Qed.
End codec.

Section claims.
Context (range_tables : gmap Z SSTableInfo -> list SSTableInfo).
Context (range_hnsw : gmap bytes HNSWSnapshotInfo -> list HNSWSnapshotInfo).

Abbreviation do_op := (do_op range_tables range_hnsw).

(** Every operation of the run is within the format's limits. *)
Fixpoint run_ok (m : Manifest) (ops : list man_op) : Prop :=
  man_wf range_tables range_hnsw m /\
  match ops with
  | [] => True
  | o :: ops => wf_record range_hnsw (op_record o) /\ run_ok (do_op m o) ops
  end.

Lemma man_run_inv (Hrt : forall m, range_tables m ≡ₚ (map_to_list m).*2)
  (Hrh : forall m, range_hnsw m ≡ₚ (map_to_list m).*2) m ops o :
  man_inv range_tables range_hnsw m -> run_ok m (ops ++ [o]) ->
  let m' := fold_left do_op ops m in
  man_inv range_tables range_hnsw m' /\ wf_record range_hnsw (op_record o) /\
  man_wf range_tables range_hnsw (do_op m' o).
Proof.
  revert m; induction ops as [|o1 ops IH]; intros m Hi; cbn [app run_ok fold_left].
  - intros (_ & Ho & Hw & _). done.
  - intros (_ & Ho & Hr). apply IH; [|done]. apply do_op_inv; [done..|].
    destruct ops; cbn in Hr; tauto.
Qed.

(** C39: The manifest is crash-atomic per operation.  Take any run of operations
    from a fresh manifest (adding and removing tables, advancing the id counters,
    recording vector snapshots, with the periodic state snapshots the code writes
    in between) and cut the file at any byte of the last operation's writes:
    [Open] succeeds, and the recovered tables, counters and vector snapshots are
    those before the operation or those after it, and those after it when all its
    bytes are there; so replaying the log always reproduces the in-memory state. *)
Theorem manifest_crash_replay a b ops o p :
  (forall m, range_tables m ≡ₚ (map_to_list m).*2) ->
  (forall m, range_hnsw m ≡ₚ (map_to_list m).*2) ->
  0 <= a < 2^64 -> 0 <= b < 2^64 ->
  run_ok (Create range_hnsw a b) (ops ++ [o]) ->
  let m := fold_left do_op ops (Create range_hnsw a b) in
  file m ++ p `prefix_of` file (do_op m o) ->
  exists m', Open range_tables (file m ++ p) = Ok (m', buildState range_tables m') /\
    (same_state m' m \/ same_state m' (do_op m o)) /\
    (file m ++ p = file (do_op m o) -> same_state m' (do_op m o)).
Proof.
  intros Hrt Hrh Ha Hb Hrun m Hp.
  assert (man_wf range_tables range_hnsw (Create range_hnsw a b)) as Hc
    by (destruct ops; cbn in Hrun; tauto).
  destruct (man_run_inv Hrt Hrh _ ops o (Create_inv range_tables range_hnsw a b Ha Hb Hc) Hrun) as (Hi & Ho & Hm').
  fold m in Hi, Hm'. pose proof Hi as (Hm & rs & Hne & Hf & Hw & Hs).
  destruct (do_op_log range_tables range_hnsw Hrt m o Hm Ho Hm') as (more & F1 & F2 & F3 & F4).
  rewrite F1 in Hp. apply prefix_app_inv in Hp.
  destruct (cut_log range_hnsw p (op_record o :: more) Hp) as (j & p' & Ep & Hp').
  assert (Forall (wf_record range_hnsw) (op_record o :: more)) as Hwm by by constructor.
  assert (Forall (wf_record range_hnsw) (rs ++ take j (op_record o :: more))) as Hwj
    by (apply Forall_app; split; [done|by apply Forall_take]).
  destruct (Open_log range_tables range_hnsw Hrh (rs ++ take j (op_record o :: more)) p' Hwj) as (m' & Hop & Em').
  { left. by destruct rs. }
  { destruct Hp' as [->|(r & Hr & Hpr & Hne')]; [by left|right].
    apply (man_decode_torn range_hnsw r); [|done..]. by eapply Forall_lookup_1 in Hwm. }
  rewrite log_app, <-app_assoc, <-Hf, <-Ep in Hop, Em'. exists m'. split; [done|].
  rewrite fold_left_app in Em'.
  assert (same_state (fold_left applyRecord rs (blank (file m ++ p))) m) as Hs'.
  { etransitivity; [|exact Hs]. by apply apply_all_proper. }
  assert (forall i, same_state (fold_left applyRecord (take i more)
            (applyRecord (fold_left applyRecord rs (blank (file m ++ p))) (op_record o))) (do_op m o)) as Hafter.
  { intros i. apply F4. etransitivity; [|exact F3]. by apply applyRecord_proper. }
  destruct j as [|j]; cbn [take fold_left] in Em'.
  - split; [left; by rewrite Em'|]. intros E. exfalso. rewrite F1 in E. apply app_inv_head in E.
    cbn in Ep. subst p. unfold log in E. cbn [map concat] in E.
    pose proof (man_len_encode range_hnsw (op_record o)) as Hl.
    pose proof (len_nonneg (payload range_hnsw (op_record o))).
    destruct Hp' as [->|(r & Hr & [s Hps] & Hne')].
    + apply (f_equal len) in E. len_lia.
    + injection Hr as <-. destruct Hne'. destruct s as [|x s]; [by rewrite app_nil_r in Hps|].
      apply (f_equal len) in E, Hps. len_lia.
  - split; [right; by rewrite Em'|]. intros _. by rewrite Em'.
Qed.

(** The state handed to the engine files every table exactly once: [L0] holds
    the level-0 tables, newest id first, and [Levels] at index [l] the level-[l]
    tables in first-key order. *)
Theorem manifest_state_levels m :
  (forall m, range_tables m ≡ₚ (map_to_list m).*2) ->
  let ts := (map_to_list (tables m)).*2 in
  let s := buildState range_tables m in
  (L0 s ≡ₚ at_level 0 ts /\ StronglySorted newer_first (L0 s)) /\
  (forall l lts, (1 <= l)%nat -> Levels s !! l = Some lts ->
     lts ≡ₚ at_level (Z.of_nat l) ts /\ StronglySorted by_first_key lts) /\
  (forall t, t ∈ ts -> 0 < bZ (Level t) -> exists lts, Levels s !! Z.to_nat (bZ (Level t)) = Some lts /\ t ∈ lts) /\
  SNextMemID s = nextMemID m /\ SNextSeq s = nextSeq m.
Proof.
  intros Hrt ts s.
  assert (Transitive newer_first) by (intros x y z; unfold newer_first; lia).
  assert (Total newer_first) by (intros x y; unfold newer_first; lia).
  assert (Transitive by_first_key).
  { intros x y z; unfold by_first_key. rewrite <-!ble_not_blt. apply ble_trans. }
  assert (Total by_first_key).
  { intros x y. unfold by_first_key. rewrite <-!ble_not_blt.
    destruct (blt_total (FirstKey x) (FirstKey y)) as [?|[->|?]]; [left; by apply blt_ble|left; apply ble_refl|right; by apply blt_ble]. }
  assert (forall l, at_level l (range_tables (tables m)) ≡ₚ at_level l ts) as Hal.
  { intros l. unfold at_level. by rewrite Hrt. }
  set (rt := range_tables (tables m)) in *.
  set (mx := fold_left (fun l t => if l <? bZ (Level t) then bZ (Level t) else l) rt 0).
  assert (forall acc, acc <= fold_left (fun l t => if l <? bZ (Level t) then bZ (Level t) else l) rt acc /\
    forall t, t ∈ rt -> bZ (Level t) <= fold_left (fun l t => if l <? bZ (Level t) then bZ (Level t) else l) rt acc) as Hmx.
  { clear. induction rt as [|x rt IH]; intros acc; cbn; [split; [lia|]; by intros ? ?%elem_of_nil|].
    destruct (IH (if acc <? bZ (Level x) then bZ (Level x) else acc)) as [H1 H2].
    destruct (Z.ltb_spec acc (bZ (Level x))); split; try lia; intros t [->|Ht]%elem_of_cons; auto; lia. }
  assert (forall l, (1 <= l <= Z.to_nat mx)%nat ->
    Levels s !! l = Some (merge_sort by_first_key (at_level (Z.of_nat l) rt))) as Hlev.
  { intros l Hl. unfold s, buildState. cbn [Levels]. fold rt. fold mx. rewrite (proj2 (Z.ltb_lt 0 mx)) by lia.
    destruct l as [|l]; [lia|]. rewrite lookup_cons_ne_0 by done. cbn [Nat.pred].
    rewrite list_lookup_fmap, lookup_seq_lt by lia. done. }
  split; [split; [cbn; rewrite merge_sort_Permutation; apply Hal|by apply StronglySorted_merge_sort]|].
  split; [|split; [|done]].
  - intros l lts Hl Hlk. assert (l <= Z.to_nat mx)%nat as Hle.
    { unfold s, buildState in Hlk. cbn [Levels] in Hlk. fold rt in Hlk. fold mx in Hlk.
      destruct (Z.ltb_spec 0 mx) as [Hp|Hp].
      - destruct l as [|l]; [lia|]. rewrite lookup_cons_ne_0 in Hlk by done. cbn [Nat.pred] in Hlk. apply lookup_lt_Some in Hlk. rewrite length_map, length_seq in Hlk. lia.
      - by rewrite lookup_nil in Hlk. }
    rewrite (Hlev l) in Hlk by lia. injection Hlk as <-.
    split; [rewrite merge_sort_Permutation; apply Hal|by apply StronglySorted_merge_sort].
  - intros t Ht Hpos. assert (t ∈ rt) as Ht' by (unfold rt; by rewrite Hrt).
    pose proof (proj2 (Hmx 0) t Ht') as Hle. fold mx in Hle.
    exists (merge_sort by_first_key (at_level (bZ (Level t)) rt)). split.
    + rewrite Hlev by lia. by rewrite Z2Nat.id by lia.
    + rewrite merge_sort_Permutation. by apply list_elem_of_filter.
Qed.
End claims.

Definition demo_info : SSTableInfo := mkInfo 7 Byte.x01 [Byte.x61] [Byte.x62].
Definition range_snd {K V} `{Countable K} (m : gmap K V) : list V := (map_to_list m).*2.

Lemma man_demo_run_ok :
  run_ok range_snd range_snd (Create range_snd 1 1) ([] ++ [OAdd demo_info]).
Proof.
  assert (forall m, tables m = ∅ \/ tables m = {[7 := demo_info]} -> hnswSnapshots m = ∅ -> nextMemID m = 1 -> nextSeq m = 1 ->
    man_wf range_snd range_snd m) as Hwf.
  { intros m Ht Hh Hm Hn. split.
    - intros k t Hk. destruct Ht as [Ht|Ht]; rewrite Ht in Hk; [done|]. apply lookup_singleton_Some in Hk as [<- <-]. by_decide.
    - rewrite Hh. split; [done|]. by_decide.
    - rewrite Hm, Hn. by_decide.
    - destruct Ht as [-> | ->]; by_decide.
    - rewrite Hh. destruct Ht as [-> | ->]; vm_compute; reflexivity. }
  split; [by apply Hwf; auto|]. split.
  - split; [by_decide|]. vm_compute. reflexivity.
  - split; [|done]. apply Hwf; [right|..]; vm_compute; reflexivity.
Qed.

Lemma manifest_crash_replay_witness :
  exists m', Open range_snd (file (Create range_snd 1 1) ++ take 5 (encodeRecord range_snd (SSTableAdded demo_info))) = Ok (m', buildState range_snd m') /\
    (same_state m' (Create range_snd 1 1) \/ same_state m' (AddSSTable range_snd range_snd (Create range_snd 1 1) demo_info)).
Proof.
  destruct (manifest_crash_replay range_snd range_snd 1 1 [] (OAdd demo_info) (take 5 (encodeRecord range_snd (SSTableAdded demo_info)))
    ltac:(done) ltac:(done) ltac:(lia) ltac:(lia) man_demo_run_ok) as (m' & Hop & Hs & _).
  - by_decide.
  - exists m'. split; [exact Hop|exact Hs].
Defined.

Lemma manifest_state_levels_witness :
  let m := AddSSTable range_snd range_snd (Create range_snd 1 1) demo_info in
  L0 (buildState range_snd m) ≡ₚ at_level 0 (map_to_list (tables m)).*2.
Proof. apply (manifest_state_levels range_snd). intros. reflexivity. Defined.
