(* ===== verification/Compaction.v ===== *)
(** * Package [compaction] (src/compaction)

    The picker of picker.go and the executor of executor.go.  A
    [*sstable.TableHandle] appears here as the [Reader] it wraps: the picker and
    the executor use nothing else of it (the reference counts are in Refcount).
    The executor runs in a small state-and-error monad over the table directory
    and the id counter, both of which keep their changes when it fails. *)

From Stdlib Require Import ZArith Lia List Sorted.
From stdpp Require Import base list option gmap sorting.
From S2P Require Import Prelude GoBytes KV Entries Iter Iterators Block SSTable SSTIter.

(** ** picker.go *)
Record Config := mkConfig {
  L0CompactionTrigger : Z;
  LevelSizeBase : Z;
  LevelSizeMultiplier : Z;
  MaxLevels : Z
}.

Definition DefaultConfig : Config := mkConfig 4 (256 * 1024 * 1024) 10 7.

Record CompactionTask := mkTask {
  InputLevel : Z;
  OutputLevel : Z;
  Inputs : list Reader;
  Overlapping : list Reader;
  MinKey : option bytes;
  MaxKey : option bytes
}.

Definition AllInputs (t : CompactionTask) : list Reader := Inputs t ++ Overlapping t.

Record LevelState := mkLevels { L0 : list Reader; Levels : list (list Reader) }.

Definition total_FileSize (rs : list Reader) : Z :=
  fold_left (fun total r => i64 (total + FileSize r)) rs 0.

Definition LevelSize (ls : LevelState) (level : Z) : Z :=
  if (level <=? 0) || (len (Levels ls) <=? level) then 0
  else total_FileSize (default [] (Levels ls !! Z.to_nat level)).

Definition L0Size (ls : LevelState) : Z := total_FileSize (L0 ls).

Definition keyRange_step (acc : option bytes * option bytes) (r : Reader) : option bytes * option bytes :=
  let fk := Reader_FirstKey r in
  let lk := Reader_LastKey r in
  (match acc.1 with
   | None => Some fk
   | Some m => if bltb fk m then Some fk else Some m
   end,
   match acc.2 with
   | None => lk
   | Some m => if bltb m (sl lk) then lk else Some m
   end).

Definition keyRange (handles : list Reader) : option bytes * option bytes :=
  fold_left keyRange_step handles (None, None).

Definition overlaps (minKey maxKey : option bytes) (r : Reader) : bool :=
  bleb (UserKey (Reader_FirstKey r)) (UserKey (sl maxKey)) &&
  bleb (UserKey (sl minKey)) (UserKey (sl (Reader_LastKey r))).

Definition findOverlapping (level : list Reader) (minKey maxKey : option bytes) : list Reader :=
  List.filter (overlaps minKey maxKey) level.

Definition pickL0Compaction (state : LevelState) : option CompactionTask :=
  if len (L0 state) =? 0 then None else
  let '(minKey, maxKey) := keyRange (L0 state) in
  let overlapping :=
    if 1 <? len (Levels state)
    then findOverlapping (default [] (Levels state !! 1%nat)) minKey maxKey else [] in
  Some (mkTask 0 1 (L0 state) overlapping minKey maxKey).

Definition pickLevelCompaction (state : LevelState) (level : Z) : option CompactionTask :=
  match Levels state !! Z.to_nat level with
  | None | Some [] => None
  | Some (input :: _) =>
      let minKey := Some (Reader_FirstKey input) in
      let maxKey := Reader_LastKey input in
      let overlapping :=
        if level + 1 <? len (Levels state)
        then findOverlapping (default [] (Levels state !! Z.to_nat (level + 1))) minKey maxKey else [] in
      Some (mkTask level (level + 1) [input] overlapping minKey maxKey)
  end.

(** The loop over the levels; [n] levels are left. *)
Fixpoint pickLevels (n : nat) (state : LevelState) (cfg : Config) (level levelTarget : Z)
  : option CompactionTask :=
  match n with
  | O => None
  | S n =>
      if levelTarget <? LevelSize state level then pickLevelCompaction state level
      else pickLevels n state cfg (level + 1) (i64 (levelTarget * LevelSizeMultiplier cfg))
  end.

Definition PickCompaction (state : LevelState) (cfg : Config) : option CompactionTask :=
  if L0CompactionTrigger cfg <=? len (L0 state) then pickL0Compaction state
  else pickLevels (Z.to_nat (MaxLevels cfg - 2)) state cfg 1 (LevelSizeBase cfg).

(** ** executor.go *)
Record CompactionResult := mkResult {
  Task : CompactionTask;
  NewTables : list Reader;
  NewTableIDs : list Z
}.

(** The executor's local variables, the directory it writes to and the counter
    behind [IDAllocator]. *)
Record exec := mkExec {
  builder : option Builder;
  currentID : Z;
  newTables : list Reader;
  newIDs : list Z;
  files : gmap Z bytes;
  nextID : Z
}.

Definition M (A : Type) : Type := exec -> exec * outcome SstErr A.
#[global] Instance M_ret : MRet M := fun A a x => (x, Ok a).
#[global] Instance M_bind : MBind M := fun A B k m x =>
  match m x with
  | (x', Ok a) => k a x'
  | (x', Err e) => (x', Err e)
  | (x', Panic) => (x', Panic)
  end.
Definition lift {A} (o : outcome SstErr A) : M A := fun x => (x, o).
Definition get {A} (f : exec -> A) : M A := fun x => (x, Ok (f x)).
Definition put (f : exec -> exec) : M unit := fun x => (f x, Ok tt).

(** Unfold the monad. *)
Ltac mrun := unfold get, put, lift, mret, M_ret, mbind, M_bind; cbn.

(** [db.nextMemID.Add(1)] *)
Definition NextID (next : Z) : Z := u64 (next + 1).

Definition startNewBuilder (blockSize : Z) : M unit := put (fun x =>
  let id := NextID (nextID x) in
  mkExec (Some (NewBuilder id blockSize)) id (newTables x) (newIDs x) (files x) id).

Definition finishCurrentBuilder : M unit :=
  ob ← get builder;
  match ob with
  | None => mret tt
  | Some b =>
      file ← lift (Finish b);
      put (fun x => mkExec (Some b) (currentID x) (newTables x) (newIDs x) (<[bid b := file]> (files x)) (nextID x));;
      x ← get (fun x => x);
      reader ← lift (OpenReader (files x) (currentID x));
      put (fun x => mkExec None (currentID x) (newTables x ++ [reader]) (newIDs x ++ [currentID x]) (files x) (nextID x))
  end.

(** The body of the loop for one merged entry. *)
Definition execEntry (blockSize targetFileSize : Z) (key : bytes) (val : option bytes) : M unit :=
  let value := value_of_iter val in
  ob ← get builder;
  match ob with None => startNewBuilder blockSize | Some _ => mret tt end;;
  ob ← get builder;
  match ob with
  | None => lift Panic
  | Some b =>
      b ← lift (Builder_Add b key value);
      put (fun x => mkExec (Some b) (currentID x) (newTables x) (newIDs x) (files x) (nextID x));;
      if u64 targetFileSize <=? EstimatedSize b then finishCurrentBuilder else mret tt
  end.

Definition of_panic {A} (o : option A) : outcome SstErr A := match o with Some a => Ok a | None => Panic end.

(** [for mergeIter.IsValid()], with fuel for the iterations. *)
Fixpoint execLoop (fuel : nat) (blockSize targetFileSize : Z)
    (it : MergeIterator (E := SstErr) (I := Reader * SSTableIterator)) : M unit :=
  if it_IsValid it then
    match fuel with
    | O => lift Panic
    | S fuel =>
        key ← lift (of_panic (it_Key it));
        val ← lift (of_panic (it_Value it));
        execEntry blockSize targetFileSize key val;;
        it ← lift (of_panic (it_Next it));
        execLoop fuel blockSize targetFileSize it
    end
  else match it_Err it with Some e => lift (Err e) | None => mret tt end.

(** The number of entries of a table, by its blocks. *)
Definition Reader_count (r : Reader) : nat :=
  sum_list_with (fun i => match readBlock r (Z.of_nat i) with Ok b => Z.to_nat (numEntries b) | _ => O end)
    (seq 0 (length (rmetas r))).

Definition Execute (task : CompactionTask) (blockSize targetFileSize : Z) : M CompactionResult :=
  let inputs := AllInputs task in
  its ← lift (of_panic (mapM (fun r => pair r <$> Reader_Scan r) inputs));
  m ← lift (of_panic (NewMergeIterator its));
  execLoop (sum_list_with Reader_count inputs) blockSize targetFileSize m;;
  finishCurrentBuilder;;
  x ← get (fun x => x);
  mret (mkResult task (newTables x) (newIDs x)).

(** Started with no builder and no output. *)
Definition runExecute (task : CompactionTask) (blockSize targetFileSize : Z) (dir : gmap Z bytes) (next : Z)
  : gmap Z bytes * Z * outcome SstErr CompactionResult :=
  let '(x, o) := Execute task blockSize targetFileSize (mkExec None 0 [] [] dir next) in
  (files x, nextID x, o).

(** ** The contract of a table in the tree *)

Definition entry_sound (e : entry) : Prop := value_ok e.2 /\ entry_fits e.
#[global] Instance entry_sound_dec e : Decision (entry_sound e).
Proof. apply and_dec; apply _. Defined.

(** [r] is an open table with exactly the entries [es]. *)
Record holds (r : Reader) (es : list entry) : Prop := {
  holds_rep : exists bss, sst_rep r bss /\ concat bss = es;
  holds_nonempty : es <> [];
  holds_sound : Forall entry_sound es
}.

Lemma norm_sound e : entry_sound e -> norm e = e.
Proof.
  intros [Hv _]. destruct e as [k v]. unfold norm. cbn in *. f_equal.
  apply value_ok_spec in Hv as [->|[d ->]]; done.
Qed.
Lemma map_norm_sound es : Forall entry_sound es -> map norm es = es.
Proof. induction 1 as [|e es He Hs IH]; cbn; [done|]. by rewrite IH, norm_sound. Qed.
Lemma sound_fits es : Forall entry_sound es -> Forall entry_fits es.
Proof. intros H. apply (Forall_impl _ _ _ H). by intros e [_ ?]. Qed.
Lemma sound_value e : entry_sound e -> value_of_iter (iter_value e.2) = e.2.
Proof. by intros [H _]. Qed.

Section holds.
Context (r : Reader) (es : list entry) (Hr : holds r es).

Lemma holds_sorted : ksorted es.
Proof. destruct (holds_rep _ _ Hr) as (bss & H & <-). apply (sst_sorted _ _ H). Qed.
Lemma holds_ikeys : ikeys_ok es.
Proof. destruct (holds_rep _ _ Hr) as (bss & H & <-). apply (sst_ikeys _ _ H). Qed.

Lemma holds_first : exists e es', es = e :: es' /\ Reader_FirstKey r = e.1.
Proof.
  destruct (holds_rep _ _ Hr) as (bss & H & <-). pose proof (sst_first _ _ H) as Hf.
  destruct (concat bss) as [|e es'] eqn:E; [by destruct (holds_nonempty _ _ Hr)|]. eauto.
Qed.

Lemma last_concat (bss : list (list entry)) b :
  Forall (fun es => es <> []) bss -> last bss = Some b -> last (concat bss) = last b.
Proof.
  intros Hne Hl. destruct bss as [|x l _] using rev_ind; [done|].
  rewrite last_snoc in Hl. injection Hl as ->. rewrite concat_app. cbn. rewrite app_nil_r.
  apply Forall_app in Hne as [_ Hne]. apply Forall_cons in Hne as [Hne _].
  rewrite last_app. destruct (last b) eqn:E; [done|]. by apply last_None in E.
Qed.

Lemma holds_last : exists e, last es = Some e /\ Reader_LastKey r = Some e.1.
Proof.
  destruct (holds_rep _ _ Hr) as (bss & H & E). unfold Reader_LastKey.
  pose proof (sst_metas _ _ H) as Hm. rewrite <-fmap_last. change (mlastKey <$> rmetas r) with (map mlastKey (rmetas r)).
  rewrite Hm. change (map last_key bss) with (last_key <$> bss). rewrite fmap_last.
  destruct (last bss) as [b|] eqn:Eb.
  - pose proof (last_concat _ _ (sst_nonempty _ _ H) Eb) as Hl. rewrite E in Hl.
    destruct (last es) as [e|] eqn:El; [|apply last_None in El; by destruct (holds_nonempty _ _ Hr)].
    exists e. split; [done|]. cbn. unfold last_key. by rewrite <-Hl.
  - apply last_None in Eb. subst bss. by destruct (holds_nonempty _ _ Hr).
Qed.

Lemma holds_count : Reader_count r = length es.
Proof.
  destruct (holds_rep _ _ Hr) as (bss & H & <-). unfold Reader_count.
  assert (length (rmetas r) = length bss) as ->.
  { pose proof (f_equal length (sst_metas _ _ H)) as E. by rewrite !length_map in E. }
  pose proof (sst_read _ _ H) as Hrd. clear -Hrd.
  assert (forall l1 l2, bss = l1 ++ l2 ->
    sum_list_with (fun i => match readBlock r (Z.of_nat i) with Ok b => Z.to_nat (numEntries b) | _ => O end)
      (seq (length l1) (length l2)) = length (concat l2)) as Hg; [|by apply (Hg [])].
  intros l1 l2; revert l1; induction l2 as [|b l2 IH]; intros l1 E; [done|].
  cbn [length seq sum_list_with concat]. rewrite length_app.
  destruct (Hrd (length l1) b) as (blk & -> & Hb); [rewrite E; by apply list_lookup_middle|].
  rewrite (blk_count _ _ Hb). unfold len. rewrite Nat2Z.id. f_equal.
  specialize (IH (l1 ++ [b])). rewrite length_app, Nat.add_1_r in IH. apply IH. by rewrite <-app_assoc.
Qed.

Lemma holds_Scan : exists it, Reader_Scan r = Some it /\ yields (E := SstErr) (r, it) (map kvp_of es).
Proof.
  destruct (holds_rep _ _ Hr) as (bss & H & <-). destruct (Reader_Scan_yields r bss H) as (it & H1 & H2).
  exists it. split; [done|]. by apply open_yields.
Qed.

Lemma holds_GetAt u q : key_compat u es -> exists o, Reader_GetAt r u q = Ok o /\ is_newest es u q o.
Proof. destruct (holds_rep _ _ Hr) as (bss & H & <-). by apply Reader_GetAt_newest. Qed.
End holds.

(** ** The executor *)

Lemma Builder_Add_bid b k v b' : Builder_Add b k v = Ok b' -> bid b' = bid b.
Proof.
  unfold Builder_Add. destruct (finished b); [done|]. destruct (match prevKey b with Some p => _ | None => _ end); [done|].
  set (b1 := mkB _ _ _ _ _ _ _ _ _). destruct (BlockBuilder_Add (block b1) k v) as [[bb []]|e|]; cbn; try done.
  - by intros [= <-].
  - unfold flushBlock. destruct (IsEmpty (block b1)); cbn.
    + destruct (BlockBuilder_Add _ _ _) as [[? ?]|e|]; cbn; [by intros [= <-]|done..].
    + destruct (2^32 - 1 <? _); cbn; [done|]. destruct (BlockBuilder_Add _ _ _) as [[? ?]|e|]; cbn; [by intros [= <-]|done..].
Qed.

Lemma openFromData_len id d r : openFromData id d = Ok r -> footerSize <= len d.
Proof.
  unfold openFromData, decodeFooter. destruct (Z.ltb_spec (len d) footerSize); [done|lia].
Qed.

(** A finished builder's file opens to a table with the added entries. *)
Lemma Finish_holds b full cur dir id :
  build_rep b full cur -> cur <> [] -> ikeys_ok (concat full ++ cur) -> sst_fits (concat full ++ cur) ->
  Forall entry_sound (concat full ++ cur) ->
  exists file r, Finish b = Ok file /\ OpenReader (<[id := file]> dir) id = Ok r /\
    holds r (concat full ++ cur) /\ rid r = id /\ rdata r = file.
Proof.
  intros Hb Hne Hik Hfit Hs.
  assert (concat (full ++ [cur]) = concat full ++ cur) as Hall by (rewrite concat_app; cbn; by rewrite app_nil_r).
  rewrite <-Hall in Hik, Hfit.
  destruct (Finish_open b full cur Hb Hne Hfit id) as (file & r & bloom & Hf & Ho & Hfo & Hok).
  exists file, r. split; [done|]. split.
  { unfold OpenReader. rewrite lookup_insert_eq. by rewrite (proj2 (Z.ltb_ge _ _)) by (by eapply openFromData_len). }
  split; [|split; [apply (fo_id _ _ _ _ _ _ Hfo)|apply (fo_data _ _ _ _ _ _ Hfo)]].
  split; [|by destruct (concat full), cur|done].
  exists (map (map norm) (full ++ [cur])). split; [by eapply finish_sst_rep|].
  by rewrite concat_norm, Hall, map_norm_sound.
Qed.

Section execute.
Context (dir0 : gmap Z bytes) (next0 : Z) (bs target : Z).

(** The executor's state between two entries: the finished tables hold [outs],
    the open builder holds [cur]; ids are fresh and increasing, files are in place. *)
Record ex_inv (x : exec) (outs : list (list entry)) (cur : list entry) : Prop := {
  ex_builder : match builder x with
    | None => cur = []
    | Some b => bid b = currentID x /\ next0 < currentID x <= nextID x /\
        Forall (fun r => rid r < currentID x) (newTables x) /\
        exists full c, build_rep b full c /\ concat full ++ c = cur /\ c <> []
    end;
  ex_tables : Forall2 holds (newTables x) outs;
  ex_ids : newIDs x = map rid (newTables x);
  ex_fresh : Forall (fun r => next0 < rid r <= nextID x /\ files x !! rid r = Some (rdata r)) (newTables x);
  ex_incr : StronglySorted Z.lt (map rid (newTables x));
  ex_old : forall id, id <= next0 -> files x !! id = dir0 !! id;
  ex_next : next0 <= nextID x <= next0 + len (concat outs ++ cur)
}.

Lemma StronglySorted_snoc (l : list Z) z :
  StronglySorted Z.lt l -> Forall (fun y => y < z) l -> StronglySorted Z.lt (l ++ [z]).
Proof.
  induction 1 as [|y l Hl IH Hy]; cbn; intros Hz; [repeat constructor|].
  apply Forall_cons in Hz as [Hyz Hz]. constructor; [by apply IH|]. apply Forall_app. by repeat constructor.
Qed.

Lemma finishCurrentBuilder_inv x outs cur :
  ex_inv x outs cur -> ikeys_ok cur -> sst_fits cur -> Forall entry_sound cur ->
  exists x' outs', finishCurrentBuilder x = (x', Ok tt) /\ ex_inv x' outs' [] /\ builder x' = None /\
    concat outs' = concat outs ++ cur.
Proof.
  intros Hx Hik Hfit Hs. unfold finishCurrentBuilder. mrun.
  pose proof (ex_builder _ _ _ Hx) as Hb. destruct (builder x) as [b|] eqn:Eb; cbn.
  2: { subst cur. exists x, outs. by rewrite app_nil_r. }
  destruct Hb as (Hid & Hcur & Hlt & full & c & Hb & <- & Hc).
  destruct (Finish_holds b full c (files x) (currentID x) Hb Hc Hik Hfit Hs) as (file & r & Hf & Ho & Hr & Hrid & Hdata).
  rewrite Hf. cbn. rewrite Hid, Ho. cbn.
  eexists _, (outs ++ [concat full ++ c]). split; [done|].
  assert (Forall (fun y => y < currentID x) (map rid (newTables x))) as Hlt' by (by apply Forall_map).
  split; [|split; [done|]].
  2: { rewrite concat_app. cbn. by rewrite app_nil_r. }
  split; cbn.
  - done.
  - apply Forall2_app; [apply (ex_tables _ _ _ Hx)|by constructor].
  - rewrite (ex_ids _ _ _ Hx), map_app. cbn. by rewrite Hrid.
  - apply Forall_app. split.
    + pose proof (ex_fresh _ _ _ Hx) as Hfr. rewrite Forall_forall in *. intros r' Hr'. destruct (Hfr _ Hr') as [H1 H2].
      split; [lia|]. rewrite lookup_insert_ne; [done|]. specialize (Hlt r' Hr'). cbn in Hlt. lia.
    + constructor; [|done]. rewrite Hrid, lookup_insert_eq, Hdata. split; [lia|done].
  - rewrite map_app. cbn. rewrite Hrid. apply StronglySorted_snoc; [apply (ex_incr _ _ _ Hx)|done].
  - intros id Hle. rewrite lookup_insert_ne by lia. by apply (ex_old _ _ _ Hx).
  - pose proof (ex_next _ _ _ Hx). rewrite concat_app. cbn. by rewrite !app_nil_r.
Qed.

Context (Hbs : bs <= maxBlockOffset).

Lemma fits_sub l1 l2 l3 : sst_fits (l1 ++ l2 ++ l3) -> sst_fits l2.
Proof.
  unfold sst_fits. rewrite !weight_app. pose proof (weight_nonneg l1). pose proof (weight_nonneg l3). lia.
Qed.

(** The builder after the [builder == nil] test of the loop body. *)
Lemma ensure_builder x outs cur :
  ex_inv x outs cur -> 0 <= next0 -> nextID x + 1 < 2^64 ->
  exists x' b full c,
    match builder x with None => startNewBuilder bs | Some _ => mret tt end x = (x', Ok tt) /\
    builder x' = Some b /\ build_rep b full c /\ concat full ++ c = cur /\
    bid b = currentID x' /\ next0 < currentID x' <= nextID x' /\
    Forall (fun r => rid r < currentID x') (newTables x') /\
    newTables x' = newTables x /\ newIDs x' = newIDs x /\ files x' = files x /\
    nextID x <= nextID x' <= nextID x + (if decide (cur = []) then 1 else 0).
Proof.
  intros Hx H0 Hn. pose proof (ex_builder _ _ _ Hx) as Hb. pose proof (ex_next _ _ _ Hx) as Hnx.
  destruct (builder x) as [b|] eqn:Eb.
  - destruct Hb as (Hid & Hcur & Hlt & full & c & Hb & <- & Hc). exists x, b, full, c.
    cbn. repeat (split; [done|]). case_decide; lia.
  - subst cur. unfold startNewBuilder, put, NextID. cbn. rewrite u64_small by lia.
    eexists _, _, [], []. split; [done|]. cbn. split; [done|]. split; [by apply NewBuilder_rep|].
    do 2 (split; [done|]). split; [lia|]. split; [|repeat (split; [done|]); rewrite decide_True by done; lia].
    apply (Forall_impl _ _ _ (ex_fresh _ _ _ Hx)). intros r [? _]. lia.
Qed.

Lemma execEntry_inv x outs cur e rest :
  ex_inv x outs cur -> 0 <= next0 -> next0 + len (concat outs ++ cur ++ e :: rest) < 2^64 ->
  ksorted (cur ++ e :: rest) -> ikeys_ok (cur ++ e :: rest) ->
  sst_fits (concat outs ++ cur ++ e :: rest) -> Forall entry_sound (cur ++ e :: rest) ->
  exists x' outs' cur', execEntry bs target e.1 (iter_value e.2) x = (x', Ok tt) /\ ex_inv x' outs' cur' /\
    concat outs' ++ cur' = (concat outs ++ cur) ++ [e] /\ (cur' = [] \/ cur' = cur ++ [e]).
Proof.
  intros Hx H0 Hlim Hso Hik Hfit Hs. pose proof (ex_next _ _ _ Hx) as Hnx.
  rewrite !len_app, len_cons in Hlim. rewrite len_app in Hnx. pose proof (len_nonneg rest).
  destruct (ensure_builder x outs cur Hx H0 ltac:(len_lia)) as
    (x1 & b & full & c & E1 & E2 & Hb & <- & Hid & Hcur & Hlt & Et & Ei & Ef & En).
  unfold execEntry. mrun. unfold mret, M_ret in E1. rewrite E1. cbn. rewrite E2. cbn.
  rewrite (sound_value e) by (apply Forall_app in Hs as [_ Hs]; by apply Forall_cons in Hs as [? _]).
  assert (sst_fits ((concat full ++ c) ++ [e])) as Hfe.
  { apply (fits_sub (concat outs) _ rest). by rewrite <-!app_assoc in *. }
  destruct (add_all_spec [e] b full c Hb) as (b' & full' & c' & Ha & Hb' & Hcat & Hc').
  { change (e :: rest) with ([e] ++ rest) in Hso. rewrite app_assoc in Hso. by apply ksorted_app_inv in Hso as [? _]. }
  { apply sound_fits. apply Forall_app in Hs as [_ Hs]. apply Forall_cons in Hs as [? _]. by constructor. }
  { done. }
  cbn in Ha. destruct (Builder_Add b e.1 e.2) as [b2| |] eqn:Eadd; cbn in Ha; [injection Ha as ->|done..].
  cbn. set (x2 := mkExec _ _ _ _ _ _).
  assert (ex_inv x2 outs (concat full' ++ c')) as Hx2.
  { split; unfold x2; cbn.
    - split; [by rewrite (Builder_Add_bid _ _ _ _ Eadd)|]. split; [done|]. split; [done|].
      exists full', c'. split; [done|]. split; [done|]. apply Hc'. by left.
    - rewrite Et. apply (ex_tables _ _ _ Hx).
    - rewrite Et, Ei. apply (ex_ids _ _ _ Hx).
    - rewrite Et, Ef. apply (Forall_impl _ _ _ (ex_fresh _ _ _ Hx)). intros r [? ?]. split; [lia|done].
    - rewrite Et. apply (ex_incr _ _ _ Hx).
    - rewrite Ef. apply (ex_old _ _ _ Hx).
    - rewrite Hcat. pose proof (ex_next _ _ _ Hx) as Hn2.
      case_decide as D; [rewrite D in *|]; rewrite ?len_app, ?len_cons in *; len_lia. }
  assert (Forall entry_sound (concat full' ++ c') /\ ikeys_ok (concat full' ++ c')) as [Hs' Hik'].
  { rewrite Hcat. unfold ikeys_ok in *. rewrite !Forall_app, !Forall_cons in *. naive_solver. }
  destruct (u64 target <=? EstimatedSize b').
  - destruct (finishCurrentBuilder_inv x2 outs _ Hx2) as (x3 & outs3 & Hf & Hx3 & _ & Hc3); [done|by rewrite Hcat|done|].
    exists x3, outs3, []. split; [done|]. split; [done|]. split; [|by left].
    rewrite app_nil_r, Hc3, Hcat. by rewrite app_assoc.
  - exists x2, outs, (concat full' ++ c'). split; [done|]. split; [done|]. split; [|right; done].
    rewrite Hcat. by rewrite app_assoc.
Qed.

Lemma execLoop_inv fuel it x outs cur rem :
  yields it (map kvp_of rem) -> (length rem <= fuel)%nat ->
  ex_inv x outs cur -> 0 <= next0 -> next0 + len (concat outs ++ cur ++ rem) < 2^64 ->
  ksorted (cur ++ rem) -> ikeys_ok (cur ++ rem) ->
  sst_fits (concat outs ++ cur ++ rem) -> Forall entry_sound (cur ++ rem) ->
  exists x' outs' cur', execLoop fuel bs target it x = (x', Ok tt) /\ ex_inv x' outs' cur' /\
    concat outs' ++ cur' = concat outs ++ cur ++ rem /\ (exists l, cur ++ rem = l ++ cur').
Proof.
  revert fuel it x outs cur; induction rem as [|e rem IH]; intros fuel it x outs cur Hy Hf Hx H0 Hlim Hso Hik Hfit Hs.
  { destruct Hy as [H1 H2]. exists x, outs, cur. rewrite !app_nil_r.
    split; [|split; [done|split; [done|by exists []]]]. destruct fuel; cbn [execLoop]; by rewrite H1, H2. }
  destruct Hy as (H1 & H2 & H3 & H4 & it' & H5 & H6). destruct fuel as [|fuel]; cbn in Hf; [lia|].
  cbn [execLoop]. rewrite H1, H3, H4. mrun. cbn in H3.
  destruct (execEntry_inv x outs cur e rem Hx H0 Hlim Hso Hik Hfit Hs) as (x1 & outs1 & cur1 & E1 & Hx1 & Hc1 & Hsub).
  rewrite E1. cbn in H5 |- *. rewrite H5. cbn.
  assert (exists l, cur ++ e :: rem = l ++ cur1 ++ rem) as [l Hl].
  { destruct Hsub as [->| ->]; [exists (cur ++ [e])|exists []]; cbn; by rewrite <-?app_assoc. }
  assert (concat outs1 ++ cur1 ++ rem = concat outs ++ cur ++ e :: rem) as Hall.
  { rewrite app_assoc, Hc1. by rewrite <-!app_assoc. }
  destruct (IH fuel it' x1 outs1 cur1) as (x2 & outs2 & cur2 & E2 & Hx2 & Hc2 & l2 & Hl2);
    [done|lia|done|done|by rewrite Hall| | |by rewrite Hall| |].
  - rewrite Hl in Hso. by apply ksorted_app_inv in Hso as (_ & ? & _).
  - rewrite Hl in Hik. by apply Forall_app in Hik as [_ ?].
  - rewrite Hl in Hs. by apply Forall_app in Hs as [_ ?].
  - exists x2, outs2, cur2. split; [done|]. split; [done|]. split; [by rewrite Hc2|].
    exists (l ++ l2). rewrite Hl, Hl2. by rewrite app_assoc.
Qed.
End execute.

(** The merge of the inputs: one entry list that is sorted and holds exactly the
    inputs' entries. *)
Lemma merged_unique ess :
  Forall ksorted ess -> NoDup (map fst (concat ess)) ->
  exists all, all ≡ₚ concat ess /\ ksorted all.
Proof.
  intros Hs Hnd. exists (foldr kinsert [] (concat ess)). split.
  - clear. induction (concat ess) as [|e es IH]; cbn; [done|]. rewrite kinsert_perm. by rewrite IH.
  - clear Hs. induction (concat ess) as [|e es IH]; cbn in *; [constructor|].
    apply NoDup_cons in Hnd as [Hn Hnd]. apply kinsert_sorted; [by apply IH|]. intros e' He' E. destruct Hn.
    rewrite <-E. apply list_elem_of_fmap. exists e'. split; [done|].
    assert (foldr kinsert [] es ≡ₚ es) as Hp; [|by rewrite <-Hp].
    clear. induction es as [|e es IH]; cbn; [done|]. rewrite kinsert_perm. by rewrite IH.
Qed.

#[global] Instance kvp_lt_antisymm : AntiSymm (=) kvp_lt.
Proof. intros a b H1 H2. pose proof (blt_trans _ _ _ H1 H2) as H. by apply blt_irrefl in H. Qed.

(** What a successful compaction leaves behind. *)
Record exec_ok (dir : gmap Z bytes) (next : Z) (es : list entry) (dir' : gmap Z bytes) (next' : Z)
    (res : CompactionResult) (outs : list (list entry)) : Prop := {
  eo_holds : Forall2 holds (NewTables res) outs;
  eo_sorted : ksorted (concat outs);
  eo_perm : concat outs ≡ₚ es;
  eo_ids : NewTableIDs res = map rid (NewTables res);
  eo_incr : StronglySorted Z.lt (NewTableIDs res);
  eo_fresh : Forall (fun r => next < rid r <= next' /\ dir' !! rid r = Some (rdata r)) (NewTables res);
  eo_old : forall id, id <= next -> dir' !! id = dir !! id;
  eo_next : next <= next' <= next + len es
}.

Lemma mapM_Scan rs ess :
  Forall2 holds rs ess ->
  exists its, mapM (fun r => pair r <$> Reader_Scan r) rs = Some its /\
    Forall2 (yields (E := SstErr)) its (map (map kvp_of) ess).
Proof.
  induction 1 as [|r es rs ess Hr Hrs (its & E & Hy)]; cbn.
  - exists []. done.
  - destruct (holds_Scan _ _ Hr) as (it & -> & Hit). cbn. rewrite E. cbn. eexists. split; [done|]. by constructor.
Qed.

Lemma sum_counts rs ess : Forall2 holds rs ess -> sum_list_with Reader_count rs = length (concat ess).
Proof.
  induction 1 as [|r es rs ess Hr Hrs IH]; cbn; [done|]. by rewrite length_app, IH, (holds_count _ _ Hr).
Qed.

Lemma holds_all (P : entry -> Prop) rs ess :
  (forall r es, holds r es -> Forall P es) -> Forall2 holds rs ess -> Forall P (concat ess).
Proof. intros HP. induction 1; cbn; [done|]. apply Forall_app. eauto. Qed.

Lemma merge_entries (its : list (Reader * SSTableIterator)) ess all :
  Forall2 (yields (E := SstErr)) its (map (map kvp_of) ess) -> Forall ksorted ess ->
  all ≡ₚ concat ess -> ksorted all ->
  exists m, NewMergeIterator its = Some m /\ yields m (map kvp_of all).
Proof.
  intros Hy Hs Hp Ha. destruct (merge_yields its _ Hy) as (m & l & Hm & Hl & Hpl & Hsl).
  { apply Forall_map. apply (Forall_impl _ _ _ Hs). intros es He. by apply kvp_sorted_le, kvp_sorted_map. }
  exists m. split; [done|]. replace (map kvp_of all) with l; [done|].
  assert (l ≡ₚ map kvp_of all) as Hpa.
  { rewrite Hpl, <-concat_map. apply Permutation_map. by symmetry. }
  pose proof (kvp_sorted_map _ Ha) as Hka.
  apply (StronglySorted_unique kvp_lt); [|done|done].
  apply sorted_strict; [done|]. rewrite Hpa. clear -Hka.
  induction Hka as [|x k Hk IH Hx]; cbn; constructor; [|done].
  intros (y & E & Hy)%list_elem_of_fmap. rewrite Forall_forall in Hx. specialize (Hx y Hy).
  unfold kvp_lt in Hx. rewrite E in Hx. by apply blt_irrefl in Hx.
Qed.

Lemma Execute_ok task bs target dir next ess :
  Forall2 holds (AllInputs task) ess -> NoDup (map fst (concat ess)) ->
  sst_fits (concat ess) -> bs <= maxBlockOffset -> 0 <= next -> next + len (concat ess) < 2^64 ->
  exists dir' next' res outs, runExecute task bs target dir next = (dir', next', Ok res) /\
    Task res = task /\ exec_ok dir next (concat ess) dir' next' res outs.
Proof.
  intros Hin Hnd Hfit Hbs H0 Hlim.
  assert (Forall ksorted ess) as Hks.
  { clear -Hin. induction Hin; constructor; [|done]. by eapply holds_sorted. }
  destruct (merged_unique ess Hks Hnd) as (all & Hp & Hso).
  assert (ikeys_ok all) as Hik.
  { unfold ikeys_ok. rewrite Hp. eapply (holds_all _ _ _ holds_ikeys Hin). }
  assert (Forall entry_sound all) as Hs.
  { rewrite Hp. eapply (holds_all _ _ _ holds_sound Hin). }
  assert (weight all = weight (concat ess)) as Hw.
  { unfold weight, encs. assert (forall l1 l2 : list entry, l1 ≡ₚ l2 -> len (concat (map enc l1)) = len (concat (map enc l2))) as Hl.
    { clear. induction 1; cbn; rewrite ?len_app; lia. }
    rewrite (Hl _ _ Hp). unfold len. by rewrite (Permutation_length Hp). }
  destruct (mapM_Scan _ _ Hin) as (its & Eits & Hits). destruct (merge_entries its ess all Hits Hks Hp Hso) as (m & Em & Hm).
  unfold runExecute, Execute. rewrite Eits. mrun. rewrite Em. cbn. rewrite (sum_counts _ _ Hin).
  set (x0 := mkExec None 0 [] [] dir next).
  assert (len all = len (concat ess)) as Hlen by (unfold len; by rewrite (Permutation_length Hp)).
  assert (ex_inv dir next x0 [] []) as Hx0.
  { split; cbn; try done; [constructor|]. rewrite (@len_nil entry). lia. }
  destruct (execLoop_inv dir next bs target Hbs (length (concat ess)) m x0 [] [] all Hm)
    as (x1 & outs1 & cur1 & E1 & Hx1 & Hc1 & l & Hl); cbn; try done.
  { by rewrite (Permutation_length Hp). }
  { by rewrite Hlen. }
  { unfold sst_fits. by rewrite Hw. }
  rewrite E1. cbn in Hc1, Hl.
  destruct (finishCurrentBuilder_inv dir next x1 outs1 cur1 Hx1) as (x2 & outs2 & E2 & Hx2 & _ & Hc2).
  { rewrite Hl in Hik. by apply Forall_app in Hik as [_ ?]. }
  { apply (fits_sub l _ []). rewrite app_nil_r, <-Hl. unfold sst_fits. by rewrite Hw. }
  { rewrite Hl in Hs. by apply Forall_app in Hs as [_ ?]. }
  rewrite E2. eexists _, _, _, outs2. split; [done|]. split; [done|].
  assert (concat outs2 = all) as Hall by (by rewrite Hc2).
  pose proof (ex_next _ _ _ _ _ Hx2) as Hn. rewrite app_nil_r, Hall, Hlen in Hn.
  split; cbn; try rewrite Hall; try done.
  - apply (ex_tables _ _ _ _ _ Hx2).
  - apply (ex_ids _ _ _ _ _ Hx2).
  - rewrite (ex_ids _ _ _ _ _ Hx2). apply (ex_incr _ _ _ _ _ Hx2).
  - apply (ex_fresh _ _ _ _ _ Hx2).
  - apply (ex_old _ _ _ _ _ Hx2).
Qed.

(** ** The picker *)
Section ranges.
(** The entries of the database, whose user keys are pairwise prefix-compatible. *)
Context (univ : list entry) (Hc : keys_compat (map fst univ)) (Hik : ikeys_ok univ).

Lemma univ_user_le a b : a ∈ univ -> b ∈ univ -> ble a.1 b.1 -> ble (UserKey a.1) (UserKey b.1).
Proof.
  intros Ha Hb Hle. apply ble_iff in Hle as [Hlt| ->]; [|apply ble_refl].
  unfold ikeys_ok in Hik. rewrite Forall_forall in Hik. rewrite keys_compat_spec in Hc.
  apply blt_internal in Hlt as [Hlt|[-> _]]; [by apply blt_ble|apply ble_refl|by apply Hik|by apply Hik|].
  apply Hc; apply list_elem_of_fmap; eauto.
Qed.

(** The union key range of a list of tables. *)
Definition in_bounds (es : list entry) (mn mx : option bytes) : Prop :=
  match mn, mx with
  | Some a, Some b => (exists e, e ∈ es /\ e.1 = a) /\ (exists e, e ∈ es /\ e.1 = b) /\
      forall e, e ∈ es -> ble a e.1 /\ ble e.1 b
  | None, None => es = []
  | _, _ => False
  end.

Lemma table_bounds r es : holds r es -> in_bounds es (Some (Reader_FirstKey r)) (Reader_LastKey r).
Proof.
  intros Hr. pose proof (holds_sorted _ _ Hr) as Hs.
  destruct (holds_first _ _ Hr) as (e & es' & E & Hf). destruct (holds_last _ _ Hr) as (l & El & Hl).
  rewrite Hl, Hf. cbn. split; [exists e; rewrite E; split; [left|done]|]. split.
  { exists l. split; [by apply last_elem|done]. }
  intros x Hx. split.
  - rewrite E in Hx, Hs. apply ksorted_cons_inv in Hs as [_ Hlt].
    apply elem_of_cons in Hx as [->|Hx]; [apply ble_refl|by apply blt_ble, Hlt].
  - apply last_Some in El as [l0 ->]. apply ksorted_app_inv in Hs as (_ & _ & Hlt).
    apply elem_of_app in Hx as [Hx|Hx%list_elem_of_singleton]; [|subst; apply ble_refl].
    apply blt_ble, Hlt; [done|]. by apply list_elem_of_singleton.
Qed.

Lemma keyRange_step_bounds acc es r es' :
  in_bounds es acc.1 acc.2 -> holds r es' ->
  in_bounds (es ++ es') (keyRange_step acc r).1 (keyRange_step acc r).2.
Proof.
  intros Ha Hr. pose proof (table_bounds _ _ Hr) as Hb. destruct acc as [mn mx]. unfold keyRange_step. cbn [fst snd] in *.
  destruct (holds_last _ _ Hr) as (l & _ & El). rewrite El in *. cbn [sl] in *.
  destruct mn as [a|], mx as [b|]; cbn in Ha; [|done..|by subst es].
  cbn in Hb. destruct Ha as (Ha1 & Ha2 & Ha3), Hb as (Hb1 & Hb2 & Hb3). set (f := Reader_FirstKey r) in *.
  assert (forall mn' mx', (mn' = a \/ mn' = f) -> (mx' = b \/ mx' = l.1) -> ble mn' a -> ble mn' f -> ble b mx' -> ble l.1 mx' ->
    in_bounds (es ++ es') (Some mn') (Some mx')) as Hgen.
  { intros mn' mx' Em Ex H1 H2 H3 H4. split; [|split].
    - destruct Em as [->| ->]; [destruct Ha1 as (e & ? & ?)|destruct Hb1 as (e & ? & ?)]; exists e; rewrite elem_of_app; auto.
    - destruct Ex as [->| ->]; [destruct Ha2 as (e & ? & ?)|destruct Hb2 as (e & ? & ?)]; exists e; rewrite elem_of_app; auto.
    - intros e [He|He]%elem_of_app; [destruct (Ha3 e He) as [G1 G2]|destruct (Hb3 e He) as [G1 G2]]; split.
      + by apply (ble_trans _ a).
      + by apply (ble_trans _ b).
      + by apply (ble_trans _ f).
      + by apply (ble_trans _ l.1). }
  change (sl (Some l.1)) with l.1. destruct (bltb_spec f a) as [H1|H1], (bltb_spec b l.1) as [H2|H2]; apply Hgen; auto using ble_refl, blt_ble;
    by apply ble_not_blt.
Qed.

Lemma keyRange_bounds rs ess :
  Forall2 holds rs ess -> in_bounds (concat ess) (keyRange rs).1 (keyRange rs).2.
Proof.
  intros Hr. unfold keyRange.
  assert (forall acc es, in_bounds es acc.1 acc.2 ->
    in_bounds (es ++ concat ess) (fold_left keyRange_step rs acc).1 (fold_left keyRange_step rs acc).2) as Hg.
  { induction Hr as [|r es rs ess Hr Hrs IH]; intros acc es0 Ha; cbn [fold_left concat].
    - by rewrite app_nil_r.
    - rewrite app_assoc. by apply IH, keyRange_step_bounds. }
  by apply (Hg (None, None) []).
Qed.

Section overlap.
Context (mn mx : bytes).
Let umin := UserKey mn.
Let umax := UserKey mx.

Lemma overlaps_spec r es :
  holds r es -> es ⊆ univ ->
  overlaps (Some mn) (Some mx) r = true <->
  ble (UserKey (Reader_FirstKey r)) umax /\ ble umin (UserKey (sl (Reader_LastKey r))).
Proof.
  intros Hr Hu. unfold overlaps. change (sl (Some mn)) with mn. change (sl (Some mx)) with mx.
  rewrite andb_true_iff. fold umin umax.
  destruct (bleb_spec (UserKey (Reader_FirstKey r)) umax), (bleb_spec umin (UserKey (sl (Reader_LastKey r)))); naive_solver.
Qed.

(** User keys of a table lie between those of its first and last keys. *)
Lemma table_user_bounds r es e :
  holds r es -> es ⊆ univ -> e ∈ es ->
  ble (UserKey (Reader_FirstKey r)) (UserKey e.1) /\ ble (UserKey e.1) (UserKey (sl (Reader_LastKey r))).
Proof.
  intros Hr Hu He. pose proof (table_bounds _ _ Hr) as Hb. destruct (holds_last _ _ Hr) as (l & _ & El). rewrite El in *.
  destruct Hb as ((a & Ha & Ea) & (b & Hb & Eb) & Hab). destruct (Hab e He) as [H1 H2]. rewrite <-Ea in *.
  change (sl (Some l.1)) with l.1. rewrite <-Eb in *. split; apply univ_user_le; auto.
Qed.

(** [findOverlapping] picks a contiguous run of a sorted level; what is before it
    is below the range, what is after it above. *)
Lemma overlap_split lvl ess :
  Forall2 holds lvl ess -> concat ess ⊆ univ -> ksorted (concat ess) ->
  exists lb lm la eb em ea, lvl = lb ++ lm ++ la /\ ess = eb ++ em ++ ea /\
    Forall2 holds lb eb /\ Forall2 holds lm em /\ Forall2 holds la ea /\
    findOverlapping lvl (Some mn) (Some mx) = lm /\
    (forall e, e ∈ concat eb -> blt (UserKey e.1) umin) /\ (forall e, e ∈ concat ea -> blt umax (UserKey e.1)).
Proof.
  intros Hl. induction Hl as [|r es lvl ess Hr Hl IH]; cbn [concat]; intros Hu Hs.
  { exists [], [], [], [], [], []. repeat (split; [by constructor|]). split; intros e He; by apply elem_of_nil in He. }
  apply list_subseteq_app_iff_l in Hu as [Hue Hu].
  apply ksorted_app_inv in Hs as (Hse & Hs & Hlt).
  destruct (IH Hu Hs) as (lb & lm & la & eb & em & ea & -> & -> & H1 & H2 & H3 & H4 & H5 & H6).
  assert (forall e, e ∈ es -> _) as Hb by (intros e He; exact (table_user_bounds r es e Hr Hue He)).
  destruct (holds_first _ _ Hr) as (f & es' & Ef & Hf). destruct (holds_last _ _ Hr) as (l & El & Hll).
  apply last_elem in El. rewrite Hf, Hll in Hb. change (sl (Some l.1)) with l.1 in Hb.
  (** later tables are above the last key of [r] *)
  assert (forall e, e ∈ concat (eb ++ em ++ ea) -> ble (UserKey l.1) (UserKey e.1)) as Hab.
  { intros e He. apply univ_user_le; [by apply Hue|by apply Hu|]. by apply blt_ble, Hlt. }
  cbn [findOverlapping List.filter].
  destruct (overlaps (Some mn) (Some mx) r) eqn:Eo.
  - (** the run starts here: no table before it *)
    apply (overlaps_spec r es Hr Hue) in Eo as [Eo1 Eo2]. rewrite Hll in Eo2. change (sl (Some l.1)) with l.1 in Eo2.
    assert (eb = [] /\ lb = []) as [-> ->].
    { destruct H1 as [|r0 e0 lb eb Hr0 _]; [done|]. exfalso. destruct (holds_first _ _ Hr0) as (f0 & e0' & -> & _).
      assert (f0 ∈ concat ((f0 :: e0') :: eb)) as Hin by (cbn; left).
      pose proof (H5 f0 Hin) as Hx. apply (proj1 (ble_not_blt umin (UserKey f0.1))); [|done].
      apply (ble_trans _ (UserKey l.1)); [done|]. apply Hab. rewrite concat_app. apply elem_of_app. by left. }
    exists [], (r :: lm), la, [], (es :: em), ea. repeat (split; [done || by constructor|]).
    split; [f_equal; exact H4|]. split; [|done]. intros e He; by apply elem_of_nil in He.
  - destruct (decide (blt (UserKey l.1) umin)) as [Hlow|Hlow].
    + exists (r :: lb), lm, la, (es :: eb), em, ea. repeat (split; [done || by constructor|]). split; [|done].
      intros e [He|He]%elem_of_app; [|by apply H5]. eapply ble_blt_trans; [apply Hb, He|done].
    + (** above the range, and so is the rest *)
      assert (blt umax (UserKey f.1)) as Hup.
      { destruct (decide (blt umax (UserKey f.1))) as [?|Hn]; [done|]. exfalso.
        assert (overlaps (Some mn) (Some mx) r = true) as Et; [|by rewrite Et in Eo].
        apply (overlaps_spec r es Hr Hue). rewrite Hf, Hll. change (sl (Some l.1)) with l.1. by rewrite !ble_not_blt. }
      assert (forall e, e ∈ es ++ concat (eb ++ em ++ ea) -> blt umax (UserKey e.1)) as Hall.
      { assert (forall e, e ∈ es -> blt umax (UserKey e.1)) as He1.
        { intros e He. eapply blt_ble_trans; [exact Hup|]. by apply Hb. }
        intros e [He|He]%elem_of_app; [by apply He1|]. eapply blt_ble_trans; [by apply (He1 l)|by apply Hab]. }
      assert (lm = []) as Elm.
      { destruct H2 as [|r0 e0 lm em Hr0 _]; [done|]. exfalso. destruct (holds_first _ _ Hr0) as (f0 & e0' & E0 & Ef0).
        assert (overlaps (Some mn) (Some mx) r0 = true) as Eo0.
        { assert (r0 ∈ findOverlapping (lb ++ (r0 :: lm) ++ la) (Some mn) (Some mx)) as Hin by (rewrite H4; left).
          apply list_elem_of_In, filter_In in Hin. apply Hin. }
        assert (e0 ⊆ concat (eb ++ (e0 :: em) ++ ea)) as Hsub.
        { intros x Hx. rewrite concat_app. apply elem_of_app. right. cbn. apply elem_of_app. by left. }
        apply (overlaps_spec r0 e0 Hr0) in Eo0 as [Eo0 _]; [|set_solver]. rewrite Ef0 in Eo0.
        apply ble_not_blt in Eo0. apply Eo0, Hall. apply elem_of_app. right. apply Hsub. rewrite E0. left. }
      exists [], [], (r :: lb ++ lm ++ la), [], [], (es :: eb ++ em ++ ea).
      repeat (split; [done || by constructor|]).
      split; [transitivity lm; [exact H4|done]|]. split; [|done].
      intros e He; by apply elem_of_nil in He.
Qed.
End overlap.
End ranges.

(** Building a table file and opening it. *)
Lemma build_holds id bs es dir :
  es <> [] -> ksorted es -> ikeys_ok es -> Forall entry_sound es -> sst_fits es -> bs <= maxBlockOffset ->
  exists b file r, add_all (NewBuilder id bs) es = Ok b /\ Finish b = Ok file /\
    OpenReader (<[id := file]> dir) id = Ok r /\ holds r es /\ rid r = id /\ rdata r = file.
Proof.
  intros Hne Hs Hik Hf Hw Hbs.
  destruct (add_all_spec es (NewBuilder id bs) [] [] (NewBuilder_rep id bs Hbs)) as (b & full & cur & Ha & Hb & Hcat & Hcur);
    [done|by apply sound_fits|done|]. cbn in Hcat.
  destruct (Finish_holds b full cur dir id Hb) as (file & r & H1 & H2 & H3 & H4 & H5);
    [by apply Hcur; left|by rewrite Hcat..|]. rewrite Hcat in H3. exists b, file, r. by repeat (split; [done|]).
Qed.

(** The range an L0 pick covers: what it leaves of L1 shares no user key with the
    inputs, and lies wholly below or above them. *)
Lemma pickL0_split univ st t ess0 ess1 :
  keys_compat (map fst univ) -> ikeys_ok univ ->
  Forall2 holds (L0 st) ess0 -> Forall2 holds (default [] (Levels st !! 1%nat)) ess1 ->
  concat ess0 ⊆ univ -> concat ess1 ⊆ univ -> ksorted (concat ess1) ->
  pickL0Compaction st = Some t ->
  InputLevel t = 0 /\ OutputLevel t = 1 /\ Inputs t = L0 st /\ L0 st <> [] /\
  exists lb la eb em ea, default [] (Levels st !! 1%nat) = lb ++ Overlapping t ++ la /\ ess1 = eb ++ em ++ ea /\
    Forall2 holds lb eb /\ Forall2 holds (Overlapping t) em /\ Forall2 holds la ea /\
    (forall e e', e ∈ concat eb -> e' ∈ concat ess0 -> blt (UserKey e.1) (UserKey e'.1)) /\
    (forall e e', e ∈ concat ea -> e' ∈ concat ess0 -> blt (UserKey e'.1) (UserKey e.1)).
Proof.
  intros Hc Hik H0 H1 Hu0 Hu1 Hs1. unfold pickL0Compaction.
  destruct (Z.eqb_spec (len (L0 st)) 0) as [|Hne]; [done|]. destruct (keyRange (L0 st)) as [omn omx] eqn:Ek.
  assert (L0 st <> []) as Hne' by (by intros E; rewrite E in Hne).
  pose proof (keyRange_bounds _ _ H0) as Hb. rewrite Ek in Hb. cbn [fst snd] in Hb.
  destruct omn as [mn|], omx as [mx|]; cbn in Hb; [|done..|].
  2: { destruct H0 as [|r es rs ess Hr _]; [done|]. cbn in Hb. apply app_eq_nil in Hb as [Hb _]. by destruct (holds_nonempty _ _ Hr). }
  destruct Hb as ((a & Ha & Ea) & (b & Hbb & Eb) & Hab).
  assert (forall e, e ∈ concat ess0 -> ble (UserKey mn) (UserKey e.1) /\ ble (UserKey e.1) (UserKey mx)) as Hub.
  { intros e He. destruct (Hab e He) as [G1 G2]. rewrite <-Ea, <-Eb in *.
    split; apply (univ_user_le univ); auto. }
  intros [= <-]. cbn. do 4 (split; [done|]).
  destruct (overlap_split univ Hc Hik mn mx _ _ H1 Hu1 Hs1) as (lb & lm & la & eb & em & ea & E1 & E2 & F1 & F2 & F3 & F4 & F5 & F6).
  exists lb, la, eb, em, ea. rewrite F4.
  assert ((if 1 <? len (Levels st) then lm else []) = lm) as ->.
  { destruct (Z.ltb_spec 1 (len (Levels st))); [done|].
    assert (Levels st !! 1%nat = None) as En by (apply lookup_ge_None_2; unfold len in *; lia).
    rewrite En in E1. cbn in E1. by destruct lb, lm. }
  do 5 (split; [done|]). split.
  - intros e e' He He'. eapply blt_ble_trans; [by apply F5|]. by apply Hub.
  - intros e e' He He'. eapply ble_blt_trans; [by apply Hub|by apply F6].
Qed.

(** The merged tables take the place of the run they replace. *)
Lemma merged_level_sorted (before mid after ins outs : list entry) univ :
  keys_compat (map fst univ) -> ikeys_ok univ -> before ++ mid ++ after ⊆ univ -> ins ⊆ univ ->
  ksorted (before ++ mid ++ after) -> ksorted outs -> outs ≡ₚ ins ++ mid ->
  (forall e e', e ∈ before -> e' ∈ ins -> blt (UserKey e.1) (UserKey e'.1)) ->
  (forall e e', e ∈ after -> e' ∈ ins -> blt (UserKey e'.1) (UserKey e.1)) ->
  ksorted (before ++ outs ++ after).
Proof.
  intros Hc Hik Hu Hui Hs Ho Hp Hb Ha. unfold ikeys_ok in Hik. rewrite Forall_forall in Hik. rewrite keys_compat_spec in Hc.
  assert (forall x y, x ∈ univ -> y ∈ univ -> blt (UserKey x.1) (UserKey y.1) -> blt x.1 y.1) as Hlt.
  { intros x y Hx Hy H. apply blt_internal; [by apply Hik..| |by left]. apply Hc; apply list_elem_of_fmap; eauto. }
  apply ksorted_app_inv in Hs as (Hsb & Hs & Hb').
  apply ksorted_app_inv in Hs as (_ & Hsa & Ha').
  assert (forall x, x ∈ before -> x ∈ univ) as U1 by (intros; apply Hu; set_solver).
  assert (forall x, x ∈ after -> x ∈ univ) as U2 by (intros; apply Hu; set_solver).
  apply ksorted_app; [done|apply ksorted_app; [done|done|]|].
  - intros a b Hx Hy. rewrite Hp in Hx. apply elem_of_app in Hx as [Hx|Hx]; [|by apply Ha'].
    apply Hlt; [by apply Hui|by apply U2|by apply Ha].
  - intros a b Hx Hy. apply elem_of_app in Hy as [Hy|Hy]; [|apply Hb'; set_solver].
    rewrite Hp in Hy. apply elem_of_app in Hy as [Hy|Hy]; [|apply Hb'; set_solver].
    apply Hlt; [by apply U1|by apply Hui|by apply Hb].
Qed.

(** ** Claims *)

(** C15: Compaction loses and invents nothing.  Executing a task over open tables
    whose internal keys are pairwise distinct, within the table format's limits,
    succeeds; the tables it writes, read back from the directory, hold together
    exactly the entries of the inputs, every version and every tombstone, in one
    strictly sorted order across the outputs; their ids are fresh and increasing,
    their files are in the directory, and no file with an older id has changed.  The
    loop ends within the fuel it is given, the number of input entries. *)
Theorem compaction_execute_preserves task bs target dir next ess :
  Forall2 holds (AllInputs task) ess -> NoDup (map fst (concat ess)) ->
  sst_fits (concat ess) -> bs <= maxBlockOffset -> 0 <= next -> next + len (concat ess) < 2^64 ->
  exists dir' next' res outs, runExecute task bs target dir next = (dir', next', Ok res) /\
    Forall2 holds (NewTables res) outs /\ concat outs ≡ₚ concat ess /\ ksorted (concat outs) /\
    NewTableIDs res = map rid (NewTables res) /\ StronglySorted Z.lt (NewTableIDs res) /\
    (forall r, r ∈ NewTables res -> next < rid r <= next' /\ dir' !! rid r = Some (rdata r)) /\
    (forall id, id <= next -> dir' !! id = dir !! id).
Proof.
  intros H1 H2 H3 H4 H5 H6.
  destruct (Execute_ok task bs target dir next ess H1 H2 H3 H4 H5 H6) as (dir' & next' & res & outs & E & _ & Ho).
  exists dir', next', res, outs. split; [done|]. destruct Ho as [G1 G2 G3 G4 G5 G6 G7 G8].
  rewrite Forall_forall in G6. by repeat (split; [done|]).
Qed.

Definition demo_old : list entry :=
  [(MakeInternalKey [Byte.x61] 3, NewValue (Some [Byte.x31])); (MakeInternalKey [Byte.x62] 2, NewValue (Some []))].
Definition demo_new : list entry :=
  [(MakeInternalKey [Byte.x61] 6, NewTombstone); (MakeInternalKey [Byte.x63] 5, NewValue (Some [Byte.x32]))].

Lemma compaction_execute_preserves_witness :
  exists r1 r2 dir' next' res outs, holds r1 demo_new /\ holds r2 demo_old /\
    runExecute (mkTask 0 1 [r1] [r2] None None) 4096 30 ∅ 7 = (dir', next', Ok res) /\
    Forall2 holds (NewTables res) outs /\ concat outs ≡ₚ concat [demo_new; demo_old] /\ ksorted (concat outs).
Proof.
  destruct (build_holds 2 4096 demo_new ∅) as (_ & _ & r1 & _ & _ & _ & H1 & _ & _);
    [done|repeat constructor|by_decide|by_decide|vm_compute; reflexivity|vm_compute; discriminate|].
  destruct (build_holds 1 4096 demo_old ∅) as (_ & _ & r2 & _ & _ & _ & H2 & _ & _);
    [done|repeat constructor|by_decide|by_decide|vm_compute; reflexivity|vm_compute; discriminate|].
  exists r1, r2.
  destruct (compaction_execute_preserves (mkTask 0 1 [r1] [r2] None None) 4096 30 ∅ 7 [demo_new; demo_old])
    as (dir' & next' & res & outs & E & G1 & G2 & G3 & _).
  - constructor; [exact H1|constructor; [exact H2|constructor]].
  - by_decide.
  - vm_compute. reflexivity.
  - vm_compute. discriminate.
  - vm_compute. discriminate.
  - vm_compute. reflexivity.
  - exists dir', next', res, outs. by repeat (split; [done|]).
Defined.

(** The L0 picker takes enough: its task moves all of L0 into L1, and the L1
    tables it takes along form one run of the sorted level such that every user key
    before the run is smaller, and every user key after it larger, than every user
    key of the inputs.  So no version of a user key of L0 is left behind in L1. *)
Theorem pickL0_covers st t ess0 ess1 :
  Forall2 holds (L0 st) ess0 -> Forall2 holds (default [] (Levels st !! 1%nat)) ess1 ->
  keys_compat (map fst (concat ess0 ++ concat ess1)) -> ksorted (concat ess1) ->
  pickL0Compaction st = Some t ->
  Inputs t = L0 st /\ InputLevel t = 0 /\ OutputLevel t = 1 /\
  exists lb la eb ea, default [] (Levels st !! 1%nat) = lb ++ Overlapping t ++ la /\
    Forall2 holds lb eb /\ Forall2 holds la ea /\
    (forall e e', e ∈ concat eb -> e' ∈ concat ess0 -> blt (UserKey e.1) (UserKey e'.1)) /\
    (forall e e', e ∈ concat ea -> e' ∈ concat ess0 -> blt (UserKey e'.1) (UserKey e.1)).
Proof.
  intros H0 H1 Hc Hs Hp.
  destruct (pickL0_split (concat ess0 ++ concat ess1) st t ess0 ess1) as (E1 & E2 & E3 & _ & lb & la & eb & em & ea & F1 & _ & F2 & _ & F3 & F4 & F5);
    [done| |done|done|set_solver|set_solver|done|done|].
  - unfold ikeys_ok. apply Forall_app. split; [apply (holds_all _ _ _ holds_ikeys H0)|apply (holds_all _ _ _ holds_ikeys H1)].
  - do 3 (split; [done|]). exists lb, la, eb, ea. by repeat (split; [done|]).
Qed.

Lemma pickL0_covers_witness :
  exists r1 r2 t, holds r1 demo_new /\ holds r2 demo_old /\
    pickL0Compaction (mkLevels [r1] [[]; [r2]]) = Some t /\ Inputs t = [r1] /\
    exists lb la, [r2] = lb ++ Overlapping t ++ la.
Proof.
  destruct (build_holds 2 4096 demo_new ∅) as (_ & _ & r1 & _ & _ & _ & H1 & _ & _);
    [done|repeat constructor|by_decide|by_decide|vm_compute; reflexivity|vm_compute; discriminate|].
  destruct (build_holds 1 4096 demo_old ∅) as (_ & _ & r2 & _ & _ & _ & H2 & _ & _);
    [done|repeat constructor|by_decide|by_decide|vm_compute; reflexivity|vm_compute; discriminate|].
  exists r1, r2.
  destruct (pickL0Compaction (mkLevels [r1] [[]; [r2]])) as [t|] eqn:Et.
  2: { exfalso. unfold pickL0Compaction in Et. cbn in Et. destruct (keyRange [r1]); done. }
  exists t. destruct (pickL0_covers (mkLevels [r1] [[]; [r2]]) t [demo_new] [demo_old]) as (E & _ & _ & lb & la & _ & _ & F & _).
  - constructor; [exact H1|constructor].
  - constructor; [exact H2|constructor].
  - by_decide.
  - repeat constructor.
  - done.
  - repeat (split; [done|]). exists lb, la. exact F.
Defined.
