(* ===== verification/Refcount.v ===== *)
(** * Table handles (src/sstable/refcount.go)

    The reference-counted handle of a table file: the methods, and a
    step-by-step model of their atomic operations, in which the steps of
    concurrent [Ref], [Unref] and [MarkObsolete] calls interleave freely. *)

From Stdlib Require Import ZArith Lia.
From stdpp Require Import base list option.
From S2P Require Import Prelude GoBytes.

(** The mutable fields of a handle; [removed] counts the [os.Remove] calls made
    under [deleteOnce]. *)
Record TableHandle := mkHandle { refcount : Z; obsolete : bool; deleteOnce : bool; removed : nat }.

Inductive HandleErr := RefPanic | UnrefPanic.

Definition NewTableHandle : TableHandle := mkHandle 1 false false 0.

Definition tryDelete (h : TableHandle) : TableHandle :=
  if deleteOnce h then h else mkHandle (refcount h) (obsolete h) true (S (removed h)).

Definition Ref (h : TableHandle) : outcome HandleErr TableHandle :=
  let refs := i32 (refcount h + 1) in
  if refs <=? 1 then Err RefPanic
  else Ok (mkHandle refs (obsolete h) (deleteOnce h) (removed h)).

Definition Unref (h : TableHandle) : outcome HandleErr TableHandle :=
  let remaining := i32 (refcount h - 1) in
  if remaining <? 0 then Err UnrefPanic else
  let h := mkHandle remaining (obsolete h) (deleteOnce h) (removed h) in
  Ok (if (remaining =? 0) && obsolete h then tryDelete h else h).

Definition MarkObsolete (h : TableHandle) : TableHandle :=
  let h := mkHandle (refcount h) true (deleteOnce h) (removed h) in
  if refcount h =? 0 then tryDelete h else h.

Definition IsObsolete (h : TableHandle) : bool := obsolete h.

(** ** Interleaved atomic steps *)

(** [unrefs] threads are in [Unref] between a decrement to zero and the load of
    [obsolete]; [marks] threads are in [MarkObsolete] between its store and load. *)
Record hstate := mkHS { hd : TableHandle; unrefs : nat; marks : nat }.

Inductive micro := RefAdd | UnrefAdd | UnrefLoad | MarkStore | MarkLoad.

Definition hstep (s : hstate) (m : micro) : outcome HandleErr (option hstate) :=
  let h := hd s in
  match m with
  | RefAdd => h ← Ref h; Ok (Some (mkHS h (unrefs s) (marks s)))
  | UnrefAdd =>
      let remaining := i32 (refcount h - 1) in
      if remaining <? 0 then Err UnrefPanic else
      Ok (Some (mkHS (mkHandle remaining (obsolete h) (deleteOnce h) (removed h))
             (if remaining =? 0 then S (unrefs s) else unrefs s) (marks s)))
  | UnrefLoad =>
      match unrefs s with
      | O => Ok None
      | S n => Ok (Some (mkHS (if obsolete h then tryDelete h else h) n (marks s)))
      end
  | MarkStore => Ok (Some (mkHS (mkHandle (refcount h) true (deleteOnce h) (removed h)) (unrefs s) (S (marks s))))
  | MarkLoad =>
      match marks s with
      | O => Ok None
      | S n => Ok (Some (mkHS (if refcount h =? 0 then tryDelete h else h) (unrefs s) n))
      end
  end.

(** A run of enabled steps without panic. *)
Fixpoint hrun (s : hstate) (ms : list micro) : option hstate :=
  match ms with
  | [] => Some s
  | m :: ms => match hstep s m with Ok (Some s') => hrun s' ms | _ => None end
  end.

(** The methods are the uninterrupted runs of their steps. *)
Lemma Unref_steps h h' :
  Unref h = Ok h' ->
  hrun (mkHS h 0 0) (if refcount h' =? 0 then [UnrefAdd; UnrefLoad] else [UnrefAdd]) = Some (mkHS h' 0 0).
Proof.
  destruct h as [n o d k]. unfold Unref. cbn [refcount obsolete deleteOnce removed].
  destruct (Z.ltb_spec (i32 (n - 1)) 0) as [|Hr]; [done|]. intros [= <-].
  destruct (Z.eqb_spec (i32 (n - 1)) 0) as [E|E].
  - rewrite E. destruct o, d; cbn; rewrite E; done.
  - cbn [andb refcount]. rewrite (proj2 (Z.eqb_neq _ _) E). cbn.
    by rewrite (proj2 (Z.ltb_ge _ _) Hr), (proj2 (Z.eqb_neq _ _) E).
Qed.

Lemma MarkObsolete_steps h :
  hrun (mkHS h 0 0) [MarkStore; MarkLoad] = Some (mkHS (MarkObsolete h) 0 0).
Proof. done. Qed.

Record h_inv (s : hstate) : Prop := {
  hi_range : 0 <= refcount (hd s) < 2^31;
  hi_once : removed (hd s) = if deleteOnce (hd s) then 1%nat else 0%nat;
  hi_deleted : deleteOnce (hd s) = true -> refcount (hd s) = 0 /\ obsolete (hd s) = true;
  hi_pending : refcount (hd s) = 0 -> obsolete (hd s) = true -> deleteOnce (hd s) = false ->
               (0 < unrefs s + marks s)%nat;
  hi_zero : (0 < unrefs s)%nat -> refcount (hd s) = 0;
  hi_marks : (0 < marks s)%nat -> obsolete (hd s) = true
}.

Lemma tryDelete_inv h u m :
  refcount h = 0 -> obsolete h = true ->
  h_inv (mkHS h (S u) m) \/ h_inv (mkHS h u (S m)) ->
  h_inv (mkHS (tryDelete h) u m).
Proof.
  intros H0 Ho Hi. assert (removed h = if deleteOnce h then 1%nat else 0%nat) as Hr by (destruct Hi as [[]|[]]; done).
  unfold tryDelete. destruct (deleteOnce h) eqn:Ed.
  - split; cbn; rewrite ?Ed; auto; try lia; congruence.
  - split; cbn; rewrite ?Hr; auto; try lia; congruence.
Qed.

Lemma hstep_inv s m s' : h_inv s -> refcount (hd s) + 1 < 2^31 -> hstep s m = Ok (Some s') -> h_inv s'.
Proof.
  destruct s as [h u k]. intros Hi Hb. pose proof Hi as [Hr Ho Hd Hp Hz Hm]. cbn in *. destruct m; cbn.
  - unfold Ref. rewrite i32_small by lia. destruct (Z.leb_spec (refcount h + 1) 1); [done|]. intros [= <-].
    split; cbn; auto; try lia. intros E. apply Hd in E. lia.
  - rewrite i32_small by lia. destruct (Z.ltb_spec (refcount h - 1) 0); [done|]. intros [= <-].
    split; cbn; auto; try lia; destruct (Z.eqb_spec (refcount h - 1) 0); auto; try lia.
    + intros E. apply Hd in E. lia.
    + intros E. apply Hd in E. lia.
  - destruct u as [|u]; [done|]. intros [= <-]. destruct (obsolete h) eqn:E.
    + apply tryDelete_inv; [apply Hz; lia|done|by left].
    + split; cbn; rewrite ?E; auto; congruence.
  - intros [= <-]. split; cbn; auto; try lia. intros E. by split; [apply Hd|].
  - destruct k as [|k]; [done|]. intros [= <-]. destruct (Z.eqb_spec (refcount h) 0) as [E|E].
    + apply tryDelete_inv; [done|apply Hm; lia|by right].
    + split; cbn; auto; lia.
Qed.

(** Fewer than 2^31 references are taken. *)
Lemma hrun_inv s ms s' :
  h_inv s -> refcount (hd s) + Z.of_nat (length ms) < 2^31 -> hrun s ms = Some s' -> h_inv s'.
Proof.
  revert s; induction ms as [|m ms IH]; intros s Hi Hb; cbn.
  - by intros [= <-].
  - destruct (hstep s m) as [[s1|]| |] eqn:E; [|done..]. cbn [length] in Hb.
    pose proof (hi_range _ Hi). apply IH; [by eapply hstep_inv; [done|lia|done]|].
    assert (refcount (hd s1) <= refcount (hd s) + 1) as Hle; [|lia].
    destruct m; cbn in E; unfold Ref, tryDelete in E; cbn in E;
      repeat (match type of E with context [match ?x with _ => _ end] => destruct x end; try done);
      cbn in E; injection E as <-; cbn; try (rewrite i32_small by lia); try lia.
Qed.

(** C31: Table files are deleted exactly when they should be, under every
    interleaving of the atomic steps of concurrent [Ref], [Unref] and
    [MarkObsolete] calls on a fresh handle (fewer than 2^31 steps): the file is
    removed at most once; it is removed only after the handle became obsolete and
    while no reference is held, and none can be taken afterwards; and when no call
    is in flight, an obsolete handle without references has had its file removed:
    no deletion is lost in the race between the last [Unref] and [MarkObsolete]. *)
Theorem handle_deletes_once ms s :
  hrun (mkHS NewTableHandle 0 0) ms = Some s -> Z.of_nat (length ms) < 2^31 - 1 ->
  (removed (hd s) <= 1)%nat /\
  (removed (hd s) = 1%nat -> refcount (hd s) = 0 /\ obsolete (hd s) = true /\ Ref (hd s) = Err RefPanic) /\
  (unrefs s = 0%nat -> marks s = 0%nat -> refcount (hd s) = 0 -> obsolete (hd s) = true -> removed (hd s) = 1%nat).
Proof.
  intros Hr Hl. assert (h_inv s) as [H1 H2 H3 H4 H5 H6].
  { apply (hrun_inv (mkHS NewTableHandle 0 0) ms); [|cbn; lia|exact Hr]. split; cbn; try lia; done. }
  destruct (deleteOnce (hd s)).
  - split; [lia|]. split; [|lia]. intros _. destruct H3 as [E1 E2]; [done|]. do 2 (split; [done|]).
    unfold Ref. by rewrite E1.
  - split; [lia|]. split; [lia|]. intros E1 E2 E3 E4. specialize (H4 E3 E4 eq_refl). lia.
Qed.

(** A reader's reference and the compaction that retires the table race. *)
Lemma handle_deletes_once_witness :
  exists s, hrun (mkHS NewTableHandle 0 0)
      [RefAdd; UnrefAdd; UnrefAdd; MarkStore; UnrefLoad; MarkLoad] = Some s /\ removed (hd s) = 1%nat.
Proof.
  eexists. split; [reflexivity|].
  apply (handle_deletes_once [RefAdd; UnrefAdd; UnrefAdd; MarkStore; UnrefLoad; MarkLoad]); vm_compute; reflexivity.
Defined.
