(* ===== verification/Registry.v ===== *)
(** * The registry of open snapshots (src/db/snapshot_registry.go)

    A sorted slice of sequence numbers, searched with [sort.Search]. *)

From Stdlib Require Import ZArith Lia List Sorted.
From stdpp Require Import base list option sorting.
From S2P Require Import Prelude GoSort.

Record snapshotRegistry := mkRegistry { seqs : list Z }.

(** The closure both methods search with. *)
Definition at_least (r : snapshotRegistry) (q : Z) (i : nat) : bool :=
  match seqs r !! i with Some s => q <=? s | None => true end.

(** [slices.Insert(r.seqs, i, seq)] *)
Definition Register (r : snapshotRegistry) (q : Z) : snapshotRegistry :=
  let i := sort_Search (length (seqs r)) (at_least r q) in
  mkRegistry (take i (seqs r) ++ q :: drop i (seqs r)).

(** [slices.Delete(r.seqs, i, i+1)] *)
Definition Deregister (r : snapshotRegistry) (q : Z) : snapshotRegistry :=
  let i := sort_Search (length (seqs r)) (at_least r q) in
  if ((i <? length (seqs r))%nat && bool_decide (seqs r !! i = Some q))
  then mkRegistry (take i (seqs r) ++ drop (S i) (seqs r)) else r.

Definition OldestSeq (r : snapshotRegistry) : option Z := head (seqs r).
Definition Registry_Len (r : snapshotRegistry) : Z := len (seqs r).

Abbreviation ascending := (StronglySorted Z.le).

Lemma ascending_lookup l i j a b :
  ascending l -> (i <= j)%nat -> l !! i = Some a -> l !! j = Some b -> a <= b.
Proof.
  intros Hs. revert i j; induction Hs as [|x l Hs IH Hx]; intros [|i] [|j] Hij Ha Hb; cbn in *; try done; try lia.
  - simplify_eq. lia.
  - simplify_eq. rewrite Forall_forall in Hx. apply Hx. by eapply list_elem_of_lookup_2.
  - apply (IH i j); [lia|done|done].
Qed.

(** Where the search lands in a sorted registry. *)
Lemma search_split l q :
  ascending l ->
  let i := sort_Search (length l) (at_least (mkRegistry l) q) in
  (i <= length l)%nat /\ Forall (fun s => s < q) (take i l) /\ Forall (fun s => q <= s) (drop i l).
Proof.
  intros Hs i. destruct (sort_Search_spec (length l) (at_least (mkRegistry l) q)) as (H1 & H2 & H3).
  { intros a b Hab. unfold at_least; cbn [seqs]. destruct (l !! a) as [x|] eqn:Ea; [|apply lookup_ge_None in Ea; lia].
    destruct (l !! b) as [y|] eqn:Eb; [|done]. pose proof (ascending_lookup l a b x y Hs ltac:(lia) Ea Eb).
    rewrite !Z.leb_le. lia. }
  fold i in H1, H2, H3. split; [done|]. split; apply Forall_lookup.
  - intros k s Hk. apply lookup_take_Some in Hk as [Hk Hki]. specialize (H2 k Hki). unfold at_least in H2; cbn [seqs] in H2. rewrite Hk in H2. lia.
  - intros k s Hk. rewrite lookup_drop in Hk. pose proof (lookup_lt_Some _ _ _ Hk).
    specialize (H3 (i + k)%nat ltac:(lia)). unfold at_least in H3; cbn [seqs] in H3. rewrite Hk in H3. lia.
Qed.

Lemma Register_spec r q : ascending (seqs r) -> ascending (seqs (Register r q)) /\ seqs (Register r q) ≡ₚ q :: seqs r.
Proof.
  destruct r as [l]. cbn [seqs]. intros Hs. destruct (search_split l q Hs) as (Hi & Hlo & Hhi). unfold Register; cbn [seqs].
  set (i := sort_Search _ _) in *. split.
  2: { rewrite <-Permutation_middle. by rewrite take_drop. }
  rewrite <-(take_drop i l) in Hs. revert Hlo Hs. generalize (take i l) as l1.
  revert Hhi. generalize (drop i l) as l2. clear. intros l2 Hhi l1.
  induction l1 as [|x l1 IH]; cbn; intros Hlo Hs; [by constructor|].
  apply Forall_cons in Hlo as [Hx Hlo]. apply StronglySorted_inv in Hs as [Hs Hf]. constructor; [by apply IH|].
  rewrite Forall_app in Hf |- *. destruct Hf as [? ?]. split; [done|]. constructor; [lia|done].
Qed.

Lemma StronglySorted_delete (l1 l2 : list Z) x : ascending (l1 ++ x :: l2) -> ascending (l1 ++ l2).
Proof.
  induction l1 as [|y l1 IH]; cbn; intros [Hs Hf]%StronglySorted_inv; [done|].
  constructor; [by apply IH|]. rewrite Forall_app, Forall_cons in Hf. apply Forall_app. naive_solver.
Qed.

Lemma Deregister_spec r q :
  ascending (seqs r) ->
  ascending (seqs (Deregister r q)) /\ (q ∈ seqs r -> q :: seqs (Deregister r q) ≡ₚ seqs r) /\ (q ∉ seqs r -> Deregister r q = r).
Proof.
  destruct r as [l]. cbn [seqs]. intros Hs. destruct (search_split l q Hs) as (Hi & Hlo & Hhi). unfold Deregister; cbn [seqs].
  set (i := sort_Search _ _) in *.
  assert (forall x, l !! i = Some x -> l = take i l ++ x :: drop (S i) l) as Hsplit.
  { intros x Hx. by rewrite (take_drop_middle l i x Hx). }
  destruct (Nat.ltb_spec i (length l)) as [Hlt|Hge]; cbn [andb].
  - destruct (bool_decide_reflect (l !! i = Some q)) as [Hq|Hq].
    + apply Hsplit in Hq. split; [|split].
      * apply (StronglySorted_delete _ _ q). by rewrite <-Hq.
      * intros _. cbn [seqs]. rewrite Permutation_middle. by rewrite <-Hq.
      * intros Hn. destruct Hn. cbn [seqs]. rewrite Hq. apply elem_of_app. right. left.
    + split; [done|]. split; [|done]. intros Hin. exfalso. rewrite <-(take_drop i l) in Hin.
      apply elem_of_app in Hin as [Hin|Hin].
      { rewrite Forall_forall in Hlo. specialize (Hlo q Hin). cbn in Hlo. lia. }
      destruct (l !! i) as [x|] eqn:Ex; [|apply lookup_ge_None in Ex; lia].
      rewrite (drop_S _ _ _ Ex) in Hin, Hhi. apply Forall_cons in Hhi as [Hx Hhi].
      apply elem_of_cons in Hin as [->|Hin]; [done|].
      assert (x <= q); [|assert (x = q) as -> by lia; done].
      rewrite <-(take_drop i l), (drop_S _ _ _ Ex) in Hs.
      clear -Hs Hin. induction (take i l) as [|y l' IH]; cbn in Hs; apply StronglySorted_inv in Hs as [Hs Hf]; [|by apply IH].
      rewrite Forall_forall in Hf. by apply Hf.
  - split; [done|]. split; [|done]. intros Hin. exfalso. rewrite take_ge in Hlo by lia.
    rewrite Forall_forall in Hlo. specialize (Hlo q Hin). cbn in Hlo. lia.
Qed.

(** ** A history of snapshots: each is opened, and closed at most once. *)

(** Closing closes an open one. *)
Inductive snap_run : snapshotRegistry -> list Z -> Prop :=
| run_start : snap_run (mkRegistry []) []
| run_open r open q : snap_run r open -> snap_run (Register r q) (q :: open)
| run_close r l1 q l2 : snap_run r (l1 ++ q :: l2) -> snap_run (Deregister r q) (l1 ++ l2).

(** The registry tracks the open snapshots: after any history of snapshots
    being opened and closed, its slice is sorted and is exactly the multiset of the
    open snapshots' sequence numbers, so [Len] is their number and [OldestSeq] is
    the smallest of them, or absent when none is open. *)
Theorem registry_tracks_open r open :
  snap_run r open ->
  ascending (seqs r) /\ seqs r ≡ₚ open /\ Registry_Len r = len open /\
  match OldestSeq r with
  | Some q => q ∈ open /\ Forall (fun s => q <= s) open
  | None => open = []
  end.
Proof.
  intros Hr. assert (ascending (seqs r) /\ seqs r ≡ₚ open) as [Hs Hp].
  { induction Hr as [|r open q Hr [Hs Hp]|r l1 q l2 Hr [Hs Hp]].
    - split; [constructor|done].
    - destruct (Register_spec r q Hs) as [H1 H2]. split; [done|]. by rewrite H2, Hp.
    - destruct (Deregister_spec r q Hs) as (H1 & H2 & _). split; [done|].
      assert (q ∈ seqs r) as Hin by (rewrite Hp; apply elem_of_app; right; left).
      apply (Permutation_cons_inv (a := q)). etransitivity; [exact (H2 Hin)|].
      rewrite Permutation_middle. exact Hp. }
  split; [done|]. split; [done|]. split; [unfold Registry_Len, len; by rewrite (Permutation_length Hp)|].
  unfold OldestSeq. destruct r as [[|q l]]; cbn in *.
  - apply Permutation_nil in Hp. done.
  - apply StronglySorted_inv in Hs as [Hs Hf]. rewrite <-Hp. split; [left|]. by constructor.
Qed.

Lemma registry_tracks_open_witness :
  exists r, snap_run r [9; 5] /\ seqs r ≡ₚ [9; 5] /\ OldestSeq r = Some 5.
Proof.
  exists (Deregister (Register (Register (Register (mkRegistry []) 5) 9) 5) 5).
  assert (snap_run (Deregister (Register (Register (Register (mkRegistry []) 5) 9) 5) 5) ([] ++ [9; 5])) as H.
  { apply run_close. cbn [app]. do 3 apply run_open. apply run_start. }
  split; [exact H|]. split; [|reflexivity].
  destruct (registry_tracks_open _ _ H) as (_ & Hp & _). exact Hp.
Defined.
