(* ===== verification/DB.v ===== *)
(** * Package [db]: the storage engine (src/db)

    The state of a [DB] and one definition per operation: db.go, write.go,
    batch.go, flush.go, read.go, compact.go.  An operation under [db.mu] is one
    step.  [Err Wait] is a call that blocks (a full flush backlog, or a memtable
    whose read lock an open iterator holds); it is retried from the start.

    Log and table files are maps from ids to contents.  Table handles are the
    [Reader]s they wrap, with the mutable part of the handle kept by table id in
    [handles].  [coins] are the random bits of each memtable's skip list;
    [range_tables] and [range_hnsw] are the iteration orders of Go maps. *)

From Stdlib Require Import ZArith Lia List Sorted.
From stdpp Require Import base list option gmap sorting.
From S2P Require Import Prelude GoBytes KV Entries WAL Iter SkipList Memtable Iterators Block SSTable SSTIter.
From S2P Require Import Manifest Compaction Refcount Registry.

(** ** db.go: options and state *)
Record Options := mkOptions {
  MemtableSize : Z;
  BlockSize : Z;
  MaxImmutableCount : Z;
  CompactionCfg : Config
}.

Definition DefaultOptions : Options := mkOptions (64 * 1024 * 1024) 4096 5 DefaultConfig.

Inductive DbErr :=
| Wait
| ErrSst (e : SstErr)
| ErrWal (e : WalErr)
| ErrMan (e : ManErr)
| ErrHandle (e : HandleErr)
| ErrConflict
| ErrTxClosed.

Record DB := mkDB {
  active : Memtable;
  immutables : list Memtable;
  l0 : list Reader;
  levels : list (list Reader);
  man : Manifest;
  nextMemID : Z;
  nextSeq : Z;
  snapshots : snapshotRegistry;
  flushCh : bool;
  compactCh : bool;
  handles : gmap Z TableHandle;
  wals : gmap Z bytes;
  ssts : gmap Z bytes
}.

(** Field updates. *)
Definition set_active (m : Memtable) (db : DB) : DB :=
  mkDB m (immutables db) (l0 db) (levels db) (man db) (nextMemID db) (nextSeq db) (snapshots db)
    (flushCh db) (compactCh db) (handles db) (wals db) (ssts db).
Definition set_immutables (ms : list Memtable) (db : DB) : DB :=
  mkDB (active db) ms (l0 db) (levels db) (man db) (nextMemID db) (nextSeq db) (snapshots db)
    (flushCh db) (compactCh db) (handles db) (wals db) (ssts db).
Definition set_tables (l : list Reader) (ls : list (list Reader)) (db : DB) : DB :=
  mkDB (active db) (immutables db) l ls (man db) (nextMemID db) (nextSeq db) (snapshots db)
    (flushCh db) (compactCh db) (handles db) (wals db) (ssts db).
Definition set_man (m : Manifest) (db : DB) : DB :=
  mkDB (active db) (immutables db) (l0 db) (levels db) m (nextMemID db) (nextSeq db) (snapshots db)
    (flushCh db) (compactCh db) (handles db) (wals db) (ssts db).
Definition set_ids (mid sq : Z) (db : DB) : DB :=
  mkDB (active db) (immutables db) (l0 db) (levels db) (man db) mid sq (snapshots db)
    (flushCh db) (compactCh db) (handles db) (wals db) (ssts db).
Definition set_snapshots (s : snapshotRegistry) (db : DB) : DB :=
  mkDB (active db) (immutables db) (l0 db) (levels db) (man db) (nextMemID db) (nextSeq db) s
    (flushCh db) (compactCh db) (handles db) (wals db) (ssts db).
Definition set_channels (f c : bool) (db : DB) : DB :=
  mkDB (active db) (immutables db) (l0 db) (levels db) (man db) (nextMemID db) (nextSeq db) (snapshots db)
    f c (handles db) (wals db) (ssts db).
Definition set_handles (h : gmap Z TableHandle) (db : DB) : DB :=
  mkDB (active db) (immutables db) (l0 db) (levels db) (man db) (nextMemID db) (nextSeq db) (snapshots db)
    (flushCh db) (compactCh db) h (wals db) (ssts db).
Definition set_files (w s : gmap Z bytes) (db : DB) : DB :=
  mkDB (active db) (immutables db) (l0 db) (levels db) (man db) (nextMemID db) (nextSeq db) (snapshots db)
    (flushCh db) (compactCh db) (handles db) w s.

(** Errors of the components as errors of the engine. *)
Definition of_lock {A} (o : outcome Lock A) : outcome DbErr A :=
  match o with Ok a => Ok a | Err Blocked => Err Wait | Panic => Panic end.
Definition of_sst {A} (o : outcome SstErr A) : outcome DbErr A :=
  match o with Ok a => Ok a | Err e => Err (ErrSst e) | Panic => Panic end.
Definition of_handle {A} (o : outcome HandleErr A) : outcome DbErr A :=
  match o with Ok a => Ok a | Err e => Err (ErrHandle e) | Panic => Panic end.
Definition of_opt {A} (o : option A) : outcome DbErr A :=
  match o with Some a => Ok a | None => Panic end.

(** ** Iterators over memtables and tables in one list *)
#[global] Instance mem_open_iterator : Iterator SstErr (Memtable * memtableIterator) := {
  it_Key := fun p => mi_Key p.1 p.2;
  it_Value := fun p => mi_Value p.1 p.2;
  it_Next := fun p => pair p.1 <$> mi_Next p.1 p.2;
  it_IsValid := fun p => mi_IsValid p.2;
  it_Err := fun p => None;
  it_Close := fun p => (mi_Close p.1 p.2, None)
}.

Abbreviation src_iter := ((Memtable * memtableIterator) + (Reader * SSTableIterator))%type.
Abbreviation raw_iter := (MergeIterator (E := SstErr) (I := src_iter)).

Section engine.
Context (opts : Options) (coins : Z -> nat -> bool).
Context (range_tables : gmap Z SSTableInfo -> list SSTableInfo).
Context (range_hnsw : gmap bytes HNSWSnapshotInfo -> list HNSWSnapshotInfo).

Definition newMemtable (db : DB) : DB :=
  let id := u64 (nextMemID db + 1) in
  set_files (<[id := WAL.Create]> (wals db)) (ssts db)
    (set_active (Memtable.New (coins id) id) (set_ids id (nextSeq db) db)).

Definition CurrentSeq (db : DB) : Z := nextSeq db.

(** ** write.go *)

(** Append a record to the log of the active memtable. *)
Definition activeWAL_Write (entries : list Entry) (db : DB) : DB :=
  let id := Memtable.ID (active db) in
  set_files (<[id := WriteEntries (default [] (wals db !! id)) entries]> (wals db)) (ssts db) db.

Definition rotateMemtable (db : DB) : outcome DbErr DB :=
  m ← of_lock (Freeze (active db));
  let db := newMemtable (set_immutables (m :: immutables db) db) in
  Ok (set_channels true (compactCh db) db).

Definition waitForFlushSpace (db : DB) : outcome DbErr unit :=
  if MaxImmutableCount opts <=? len (immutables db) then Err Wait else Ok tt.

(** The check at the end of every write. *)
Definition maybeRotate (db : DB) : outcome DbErr DB :=
  if MemtableSize opts <=? Memtable.ApproximateSize (active db) then rotateMemtable db else Ok db.

Definition Put (key : bytes) (value : option bytes) (db : DB) : outcome DbErr DB :=
  _ ← waitForFlushSpace db;
  let seq := u64 (nextSeq db + 1) in
  let db := set_ids (nextMemID db) seq db in
  let db := activeWAL_Write [mkEntry seq key (NewValue value)] db in
  m ← of_lock (Memtable.Put (active db) (MakeInternalKey key seq) (NewValue value));
  maybeRotate (set_active m db).

Definition Delete (key : bytes) (db : DB) : outcome DbErr DB :=
  _ ← waitForFlushSpace db;
  let seq := u64 (nextSeq db + 1) in
  let db := set_ids (nextMemID db) seq db in
  let db := activeWAL_Write [mkEntry seq key NewTombstone] db in
  m ← of_lock (Memtable.Put (active db) (MakeInternalKey key seq) NewTombstone);
  maybeRotate (set_active m db).

(** ** batch.go *)
Record batchOp := mkOp { bkey : bytes; bvalue : option bytes; tombstone : bool }.
Record WriteBatch := mkBatch { ops : list batchOp; bsize : Z }.

Definition NewWriteBatch : WriteBatch := mkBatch [] 0.
Definition WriteBatch_Put (b : WriteBatch) (key : bytes) (value : option bytes) : WriteBatch :=
  mkBatch (ops b ++ [mkOp key value false]) (bsize b + (len key + len (sl value))).
Definition WriteBatch_Delete (b : WriteBatch) (key : bytes) : WriteBatch :=
  mkBatch (ops b ++ [mkOp key None true]) (bsize b + len key).
Definition WriteBatch_Count (b : WriteBatch) : Z := len (ops b).
Definition WriteBatch_Reset (b : WriteBatch) : WriteBatch := mkBatch [] 0.

Definition op_value (op : batchOp) : Value := if tombstone op then NewTombstone else NewValue (bvalue op).

(** The entries of the batch from sequence number [seq] on. *)
Fixpoint batchEntries (seq : Z) (ops : list batchOp) : list Entry :=
  match ops with
  | [] => []
  | op :: ops => mkEntry (u64 seq) (bkey op) (op_value op) :: batchEntries (seq + 1) ops
  end.

Fixpoint putAll (m : Memtable) (entries : list Entry) : outcome DbErr Memtable :=
  match entries with
  | [] => Ok m
  | e :: entries =>
      m ← of_lock (Memtable.Put m (MakeInternalKey (Key e) (Seq e)) (EValue e));
      putAll m entries
  end.

Definition applyBatchLocked (ops : list batchOp) (db : DB) : outcome DbErr DB :=
  _ ← waitForFlushSpace db;
  let last := u64 (nextSeq db + u64 (len ops)) in
  let baseSeq := u64 (u64 (last - u64 (len ops)) + 1) in
  let db := set_ids (nextMemID db) last db in
  let entries := batchEntries baseSeq ops in
  let db := activeWAL_Write entries db in
  m ← putAll (active db) entries;
  maybeRotate (set_active m db).

Definition WriteBatch_Commit (b : WriteBatch) (db : DB) : outcome DbErr (DB * WriteBatch) :=
  if len (ops b) =? 0 then Ok (db, b) else
  db ← applyBatchLocked (ops b) db;
  Ok (db, WriteBatch_Reset b).

(** ** flush.go *)

(** The loop over the memtable's iterator. *)
Fixpoint flushLoop (fuel : nat) (it : Memtable * memtableIterator) (b : Builder) : outcome DbErr Builder :=
  if it_IsValid it then
    match fuel with
    | O => Panic
    | S fuel =>
        key ← of_opt (it_Key it);
        val ← of_opt (it_Value it);
        b ← of_sst (Builder_Add b key (value_of_iter val));
        it ← of_opt (it_Next it);
        flushLoop fuel it b
    end
  else match it_Err it with Some e => Err (ErrSst e) | None => Ok b end.

(** The table file of a memtable. *)
Definition flushBuild (mt : Memtable) : outcome DbErr bytes :=
  it ← of_opt (Memtable.Scan mt);
  b ← flushLoop (Z.to_nat (Memtable.Len mt)) it (NewBuilder (Memtable.ID mt) (BlockSize opts));
  of_sst (Finish b).

Definition table_info (r : Reader) (level : Z) : SSTableInfo :=
  mkInfo (rid r) (Zb level) (Reader_FirstKey r) (sl (Reader_LastKey r)).

Definition flushMemtable (mt : Memtable) (db : DB) : outcome DbErr DB :=
  let id := Memtable.ID mt in
  file ← flushBuild mt;
  let db := set_files (wals db) (<[id := file]> (ssts db)) db in
  r ← of_sst (OpenReader (ssts db) id);
  let m := AddSSTable range_tables range_hnsw (man db) (table_info r 0) in
  let m := UpdateNextIDs range_hnsw m (nextMemID db) (nextSeq db) in
  let db := set_handles (<[id := NewTableHandle]> (handles db)) (set_man m db) in
  let db := set_tables (r :: l0 db) (levels db) db in
  let db := set_immutables (take (length (immutables db) - 1) (immutables db)) db in
  let db := set_files (delete id (wals db)) (ssts db) db in
  Ok (set_channels (flushCh db) true db).

(** One pass of the loop of [flushImmutables]: the oldest memtable, if any. *)
Definition flushOldest (db : DB) : outcome DbErr DB :=
  match last (immutables db) with
  | None => Ok db
  | Some mt => flushMemtable mt db
  end.

Fixpoint flushImmutables_loop (fuel : nat) (db : DB) : outcome DbErr DB :=
  match fuel with
  | O => Ok db
  | S fuel =>
      match immutables db with
      | [] => Ok db
      | _ => db ← flushOldest db; flushImmutables_loop fuel db
      end
  end.
Definition flushImmutables (db : DB) : outcome DbErr DB :=
  flushImmutables_loop (length (immutables db)) db.

(** ** read.go *)
Fixpoint mems_getAt (ms : list Memtable) (key : bytes) (maxSeq : Z) : option (option Value) :=
  match ms with
  | [] => Some None
  | m :: ms =>
      r ← Memtable.GetAt m key maxSeq;
      match r with Some v => Some (Some v) | None => mems_getAt ms key maxSeq end
  end.

(** A table that fails to read is skipped. *)
Fixpoint tables_getAt (rs : list Reader) (key : bytes) (maxSeq : Z) : option (option Value) :=
  match rs with
  | [] => Some None
  | r :: rs =>
      if negb (MayContain r key) then tables_getAt rs key maxSeq else
      match Reader_GetAt r key maxSeq with
      | Panic => None
      | Err _ => tables_getAt rs key maxSeq
      | Ok (Some v) => Some (Some v)
      | Ok None => tables_getAt rs key maxSeq
      end
  end.

Definition getAt (db : DB) (key : bytes) (maxSeq : Z) : option (option Value) :=
  r ← mems_getAt (active db :: immutables db) key maxSeq;
  match r with
  | Some v => Some (Some v)
  | None =>
      r ← tables_getAt (l0 db) key maxSeq;
      match r with
      | Some v => Some (Some v)
      | None => tables_getAt (concat (drop 1 (levels db))) key maxSeq
      end
  end.

Definition Get (db : DB) (key : bytes) : option (option Value) := getAt db key (CurrentSeq db).

(** Opening the iterators takes the read locks of the memtables. *)
Definition rlock_all (db : DB) : DB :=
  set_active (RLock (active db)) (set_immutables (map RLock (immutables db)) db).

Definition rawScan (db : DB) : option (DB * raw_iter) :=
  mems ← mapM Memtable.Scan (active db :: immutables db);
  tabs ← mapM (fun r => pair r <$> Reader_Scan r) (l0 db ++ concat (drop 1 (levels db)));
  m ← NewMergeIterator (map inl mems ++ map inr tabs);
  Some (rlock_all db, m).

(** [levels[1:]] panics when there are no levels. *)
Definition rawScanRange (start end_ : option bytes) (db : DB) : option (DB * raw_iter) :=
  mems ← mapM (fun m => Memtable.ScanRange m start end_) (active db :: immutables db);
  match levels db with
  | [] => None
  | _ :: ls =>
      tabs ← mapM (fun r => pair r <$> Reader_ScanRange r start end_) (l0 db ++ concat ls);
      m ← NewMergeIterator (map inl mems ++ map inr tabs);
      Some (rlock_all db, m)
  end.

(** Enough iterations for a scan: the entries of all sources. *)
Definition total_entries (db : DB) : nat :=
  sum_list_with (fun m => Z.to_nat (Memtable.Len m)) (active db :: immutables db) +
  sum_list_with Reader_count (l0 db ++ concat (drop 1 (levels db))).

(** [Snapshot.Scan] and [DB.Scan] (at the current sequence number). *)
Definition scanAt (db : DB) (q : Z) : option (DB * SnapshotIterator (I := raw_iter)) :=
  r ← rawScan db;
  s ← NewSnapshotIterator (E := SstErr) (total_entries db) r.2 q;
  Some (r.1, s).
Definition scanRangeAt (start end_ : option bytes) (db : DB) (q : Z)
  : option (DB * SnapshotIterator (I := raw_iter)) :=
  r ← rawScanRange start end_ db;
  s ← NewSnapshotIterator (E := SstErr) (total_entries db) r.2 q;
  Some (r.1, s).

Definition Scan (db : DB) := scanAt db (CurrentSeq db).
Definition ScanRange (start end_ : option bytes) (db : DB) := scanRangeAt start end_ db (CurrentSeq db).

(** The loop of [prefixSuccessor] from the last byte down: [p] is the reversed
    prefix still to look at. *)
Fixpoint prefixSuccessor_loop (p : bytes) : option bytes :=
  match p with
  | [] => None
  | b :: p => if bZ b <? 0xFF then Some (Zb (bZ b + 1) :: p) else prefixSuccessor_loop p
  end.
Definition prefixSuccessor (prefix : bytes) : option bytes :=
  reverse <$> prefixSuccessor_loop (reverse prefix).

Definition ScanPrefix (prefix : bytes) (db : DB) := ScanRange (Some prefix) (prefixSuccessor prefix) db.

(** ** compact.go *)
Definition buildLevelState (db : DB) : LevelState := mkLevels (l0 db) (levels db).

(** A handle method on the handle of table [id]; the file goes when the method
    removed it. *)
Definition on_handle (f : TableHandle -> outcome HandleErr TableHandle) (id : Z) (db : DB) : outcome DbErr DB :=
  match handles db !! id with
  | None => Panic
  | Some h =>
      h' ← of_handle (f h);
      let db := set_handles (<[id := h']> (handles db)) db in
      Ok (if (removed h <? removed h')%nat then set_files (wals db) (delete id (ssts db)) db else db)
  end.

Fixpoint on_handles (f : TableHandle -> outcome HandleErr TableHandle) (rs : list Reader) (db : DB)
  : outcome DbErr DB :=
  match rs with
  | [] => Ok db
  | r :: rs => db ← on_handle f (rid r) db; on_handles f rs db
  end.

(** [runCompaction] up to the execution: pick a task and take references. *)
Definition compactPick (db : DB) : outcome DbErr (option (DB * CompactionTask)) :=
  match PickCompaction (buildLevelState db) (CompactionCfg opts) with
  | None => Ok None
  | Some task => db ← on_handles Ref (AllInputs task) db; Ok (Some (db, task))
  end.

Definition by_first (a b : Reader) : Prop := ~ blt (Reader_FirstKey b) (Reader_FirstKey a).
#[global] Instance by_first_dec : RelDecision by_first.
Proof. intros a b. unfold by_first. apply _. Defined.

Definition sortHandlesByFirstKey (rs : list Reader) : list Reader := merge_sort by_first rs.

(** The handles that are not inputs of the task. *)
Definition not_obsolete (task : CompactionTask) (rs : list Reader) : list Reader :=
  filter (fun r => rid r ∉ map rid (AllInputs task)) rs.

(** Step 6: the swap under the lock. *)
Definition swapTables (res : CompactionResult) (db : DB) : DB :=
  let task := Task res in
  let db :=
    if InputLevel task =? 0 then set_tables (not_obsolete task (l0 db)) (levels db) db
    else if InputLevel task <? len (levels db) then
      set_tables (l0 db) (alter (not_obsolete task) (Z.to_nat (InputLevel task)) (levels db)) db
    else db in
  if (0 <=? OutputLevel task) && (OutputLevel task <? len (levels db)) then
    set_tables (l0 db)
      (alter (fun lvl => sortHandlesByFirstKey (not_obsolete task lvl ++ NewTables res))
         (Z.to_nat (OutputLevel task)) (levels db)) db
  else db.

Definition applyCompactionResult (res : CompactionResult) (db : DB) : outcome DbErr DB :=
  let task := Task res in
  let m := man db in
  let m := fold_left (fun m r => AddSSTable range_tables range_hnsw m (table_info r (u8 (OutputLevel task)))) (NewTables res) m in
  let m := fold_left (fun m r => RemoveSSTable range_tables range_hnsw m (rid r) (Zb (InputLevel task))) (Inputs task) m in
  let m := fold_left (fun m r => RemoveSSTable range_tables range_hnsw m (rid r) (Zb (OutputLevel task))) (Overlapping task) m in
  let m := UpdateNextIDs range_hnsw m (nextMemID db) (nextSeq db) in
  let db := set_man m db in
  let db := set_handles (fold_left (fun hs r => <[rid r := NewTableHandle]> hs) (NewTables res) (handles db)) db in
  let db := swapTables res db in
  on_handles (fun h => Unref (MarkObsolete h)) (AllInputs task) db.

(** The rest of an iteration of [runCompaction], for a task picked earlier. *)
Definition compactRun (task : CompactionTask) (db : DB) : outcome DbErr DB :=
  let '(dir, next, res) := runExecute task (BlockSize opts) (LevelSizeBase (CompactionCfg opts) ÷ 10)
                             (ssts db) (nextMemID db) in
  let db := set_files (wals db) dir (set_ids next (nextSeq db) db) in
  db ← on_handles Unref (AllInputs task) db;
  res ← of_sst res;
  applyCompactionResult res db.

(** ** snapshot.go *)
Record Snapshot := mkSnapshot { snap_seq : Z; snap_closed : bool }.

Definition GetSnapshot (db : DB) : DB * Snapshot :=
  let q := CurrentSeq db in
  (set_snapshots (Register (snapshots db) q) db, mkSnapshot q false).
Definition Snapshot_Get (s : Snapshot) (db : DB) (key : bytes) : option (option Value) := getAt db key (snap_seq s).
Definition Snapshot_Scan (s : Snapshot) (db : DB) := scanAt db (snap_seq s).
Definition Snapshot_ScanRange (s : Snapshot) (start end_ : option bytes) (db : DB) := scanRangeAt start end_ db (snap_seq s).
Definition Snapshot_Close (s : Snapshot) (db : DB) : DB * Snapshot :=
  if snap_closed s then (db, s)
  else (set_snapshots (Deregister (snapshots db) (snap_seq s)) db, mkSnapshot (snap_seq s) true).

(** ** db.go: recovery *)
Definition of_wal {A} (o : outcome WalErr A) : outcome DbErr A :=
  match o with Ok a => Ok a | Err e => Err (ErrWal e) | Panic => Panic end.
Definition of_man {A} (o : outcome ManErr A) : outcome DbErr A :=
  match o with Ok a => Ok a | Err e => Err (ErrMan e) | Panic => Panic end.

(** What is in the directory: the manifest file, the log and the table files. *)
Record Disk := mkDisk { dmanifest : option bytes; dwals : gmap Z bytes; dssts : gmap Z bytes }.

Fixpoint openTables (dir : gmap Z bytes) (infos : list SSTableInfo) : outcome DbErr (list Reader) :=
  match infos with
  | [] => Ok []
  | info :: infos =>
      r ← of_sst (OpenReader dir (Manifest.ID info));
      rs ← openTables dir infos;
      Ok (r :: rs)
  end.

(** Levels 1 .. [n]-1 of the state, the others empty. *)
Fixpoint openLevels (dir : gmap Z bytes) (n level : nat) (ls : list (list SSTableInfo)) : outcome DbErr (list (list Reader)) :=
  match n with
  | O => Ok []
  | S n =>
      rs ← openTables dir (if decide (level = 0)%nat then [] else default [] (ls !! level));
      rest ← openLevels dir n (S level) ls;
      Ok (rs :: rest)
  end.

Record recovering := mkRec { r_active : option Memtable; r_immutables : list Memtable; r_memID : Z; r_seq : Z }.

(** One recovered log becomes the active memtable; the one before is frozen. *)
Definition recoverOne (st : recovering) (rw : Z * list Entry) : outcome DbErr recovering :=
  mt ← putAll (Memtable.New (coins rw.1) rw.1) rw.2;
  let q := fold_left (fun q e => if q <=? Seq e then Seq e else q) rw.2 (r_seq st) in
  let mid := if r_memID st <=? rw.1 then rw.1 else r_memID st in
  match r_active st with
  | None => Ok (mkRec (Some mt) (r_immutables st) mid q)
  | Some a =>
      a ← of_lock (Freeze a);
      Ok (mkRec (Some mt) (a :: r_immutables st) mid q)
  end.

Fixpoint recoverAll (st : recovering) (ws : list (Z * list Entry)) : outcome DbErr recovering :=
  match ws with
  | [] => Ok st
  | rw :: ws => st ← recoverOne st rw; recoverAll st ws
  end.

Definition by_id (a b : Z * bytes) : Prop := a.1 <= b.1.
#[global] Instance by_id_dec : RelDecision by_id.
Proof. intros a b. unfold by_id. apply _. Defined.

(** [FindWALFiles]: the log files by ascending id. *)
Definition FindWALFiles (ws : gmap Z bytes) : list (Z * bytes) := merge_sort by_id (map_to_list ws).

Definition recover (d : Disk) : outcome DbErr DB :=
  ms ← match dmanifest d with
       | Some f => of_man (Manifest.Open range_tables f)
       | None => Ok (Manifest.Create range_hnsw 0 0, mkState [] [] 0 0 ∅)
       end;
  tabs ← openTables (dssts d) (Manifest.L0 ms.2);
  levs ← openLevels (dssts d) (Z.to_nat (MaxLevels (CompactionCfg opts))) 0 (Manifest.Levels ms.2);
  ws ← of_wal (RecoverDir (FindWALFiles (dwals d)));
  st ← recoverAll (mkRec None [] (SNextMemID ms.2) (SNextSeq ms.2)) ws;
  let hs := fold_left (fun hs r => <[rid r := NewTableHandle]> hs) (tabs ++ concat levs) ∅ in
  match r_active st with
  | Some a => Ok (mkDB a (r_immutables st) tabs levs ms.1 (r_memID st) (r_seq st) (mkRegistry []) false false hs (dwals d) (dssts d))
  | None =>
      let noMem := Memtable.New (coins 0) 0 in
      Ok (newMemtable (mkDB noMem (r_immutables st) tabs levs ms.1 (r_memID st) (r_seq st) (mkRegistry []) false false hs (dwals d) (dssts d)))
  end.

(** [Close]: the flush goroutine drains the backlog, then the ids are recorded. *)
Definition Close (db : DB) : outcome DbErr DB :=
  db ← flushImmutables db;
  Ok (set_man (UpdateNextIDs range_hnsw (man db) (nextMemID db) (nextSeq db)) db).

Definition disk_of (db : DB) : Disk := mkDisk (Some (file (man db))) (wals db) (ssts db).

(** A database just created. *)
Definition emptyDB : DB :=
  newMemtable (mkDB (Memtable.New (coins 0) 0) [] [] (replicate (Z.to_nat (MaxLevels (CompactionCfg opts))) [])
    (Manifest.Create range_hnsw 0 0) 0 0 (mkRegistry []) false false ∅ ∅ ∅).

Lemma recover_empty : recover (mkDisk None ∅ ∅) = Ok emptyDB.
Proof.
  unfold recover. cbn [dmanifest mbind outcome_bind dssts dwals fst snd Manifest.L0 Manifest.Levels openTables].
  assert (forall n lv, openLevels ∅ n lv [] = Ok (replicate n [])) as H.
  { induction n as [|n IH]; intros lv; cbn; [done|].
    replace (if decide (lv = 0)%nat then [] else default [] ([] !! lv)) with (@nil SSTableInfo) by (by case_decide).
    cbn. by rewrite IH. }
  rewrite H. cbn [mbind outcome_bind]. unfold FindWALFiles. rewrite map_to_list_empty. cbn.
  unfold emptyDB. f_equal. f_equal. f_equal.
  induction (Z.to_nat (MaxLevels (CompactionCfg opts))) as [|n IH]; cbn; [done|]. exact IH.
Qed.
End engine.
