(* ===== verification/DBProof.v ===== *)
(** * The engine's invariant (src/db)

    Reads of the engine against its history of writes.  [db_inv db hist] says that
    the memtables, L0 and the levels together hold exactly the versions written
    ([hist]), newer sources first; every operation preserves it, with a flush or
    a compaction in progress, so point reads and scans at any sequence number see
    the newest visible version of the history. *)

From Stdlib Require Import ZArith Lia List Sorted.
From stdpp Require Import base list option gmap sorting.
From S2P Require Import Prelude GoBytes KV Entries WAL Iter SkipList Memtable Iterators Block SSTable SSTIter.
From S2P Require Import Manifest Compaction Refcount Registry DB.

(** ** Sources in search order *)

(** Versions of a user key in [es] are newer than those in [es']. *)
Definition newer (es es' : list entry) : Prop :=
  forall e e', e ∈ es -> e' ∈ es' -> UserKey e.1 = UserKey e'.1 -> SeqNum e'.1 < SeqNum e.1.

Fixpoint ordered (srcs : list (list entry)) : Prop :=
  match srcs with
  | [] => True
  | es :: rest => newer es (concat rest) /\ ordered rest
  end.

Lemma newer_sub es1 es2 es1' es2' : newer es1 es2 -> es1' ⊆ es1 -> es2' ⊆ es2 -> newer es1' es2'.
Proof. intros Hn H1 H2 e e' He He'. apply Hn; [by apply H1|by apply H2]. Qed.

#[global] Instance newer_proper : Proper ((≡ₚ) ==> (≡ₚ) ==> iff) newer.
Proof. intros a a' Ha b b' Hb. unfold newer. setoid_rewrite Ha. setoid_rewrite Hb. done. Qed.

Lemma newer_nil_l es : newer [] es.
Proof. intros e e' He. by apply elem_of_nil in He. Qed.
Lemma newer_nil_r es : newer es [].
Proof. intros e e' _ He. by apply elem_of_nil in He. Qed.
Lemma newer_app_l a b c : newer (a ++ b) c <-> newer a c /\ newer b c.
Proof. unfold newer. setoid_rewrite elem_of_app. naive_solver. Qed.
Lemma newer_app_r a b c : newer a (b ++ c) <-> newer a b /\ newer a c.
Proof. unfold newer. setoid_rewrite elem_of_app. naive_solver. Qed.

Lemma ordered_app a b : ordered (a ++ b) <-> ordered a /\ ordered b /\ newer (concat a) (concat b).
Proof.
  induction a as [|es a IH]; cbn.
  - split; [intros H; split; [done|]; split; [done|apply newer_nil_l]|tauto].
  - rewrite concat_app, newer_app_r, newer_app_l, IH. tauto.
Qed.

Lemma ordered_sources u srcs : ordered srcs -> sources_ordered u srcs.
Proof.
  induction srcs as [|es rest IH]; cbn; [done|]. intros [Hn Ho]. split; [|by apply IH].
  intros e e' He He' E1 E2. apply Hn; [done|done|congruence].
Qed.

(** Sources merged into the next one below them. *)
Lemma ordered_merge A B c c' D : ordered (A ++ B ++ c :: D) -> c' ≡ₚ concat B ++ c -> ordered (A ++ c' :: D).
Proof.
  rewrite !ordered_app. cbn [ordered concat]. rewrite concat_app. cbn [concat]. intros (HA & (HB & (Hc & HD) & HBc) & HAB) Hp.
  rewrite Hp. rewrite !newer_app_r in *. rewrite newer_app_l. tauto.
Qed.
(** Part of a source moved to the one below it. *)
Lemma ordered_move A i r c c' D :
  ordered (A ++ (i ++ r) :: c :: D) -> c' ≡ₚ i ++ c -> newer r i -> ordered (A ++ r :: c' :: D).
Proof.
  rewrite !ordered_app. cbn [ordered concat]. intros (HA & (Hir & Hc & HD) & HAB) Hp Hri.
  rewrite Hp. rewrite !newer_app_r, !newer_app_l in *. rewrite ?newer_app_r. tauto.
Qed.

(** A sorted level searched table by table. *)
Lemma ordered_sorted lv :
  ksorted (concat lv) -> keys_compat (map fst (concat lv)) -> ikeys_ok (concat lv) -> ordered lv.
Proof.
  induction lv as [|es lv IH]; cbn; [done|]. intros Hs Hc Hik.
  apply ksorted_app_inv in Hs as (_ & Hs & Hlt). rewrite keys_compat_spec in Hc.
  unfold ikeys_ok in *. rewrite Forall_forall in Hik. split.
  - intros e e' He He' E. specialize (Hlt e e' He He').
    apply blt_internal in Hlt as [Hlt|[_ ?]]; [|done|apply Hik, elem_of_app; auto|apply Hik, elem_of_app; auto|].
    + rewrite E in Hlt. by apply blt_irrefl in Hlt.
    + apply Hc; apply list_elem_of_fmap; eexists; (split; [done|]); apply elem_of_app; auto.
  - apply IH; [done| |].
    + apply keys_compat_spec. intros a b Ha Hb. apply Hc; rewrite map_app, elem_of_app; auto.
    + apply Forall_forall. intros e He. apply Hik, elem_of_app. auto.
Qed.

Lemma concat_map_concat {A} (ls : list (list (list A))) : concat (map (@concat A) ls) = concat (concat ls).
Proof. induction ls as [|l ls IH]; cbn; [done|]. by rewrite concat_app, IH. Qed.

Lemma ordered_flatten pre lvs :
  ordered (pre ++ map (@concat entry) lvs) -> Forall ordered lvs -> ordered (pre ++ concat lvs).
Proof.
  rewrite !ordered_app. rewrite concat_map_concat. intros (H1 & H2 & H3) Hf. split; [done|]. split; [|done].
  clear H1 H3. induction Hf as [|lv lvs Hl Hf IH]; cbn in *; [done|]. destruct H2 as [Hn H2].
  rewrite ordered_app. split; [done|]. split; [by apply IH|]. by rewrite <-concat_map_concat.
Qed.

(** ** Point reads *)
Lemma first_found_app {A} (l1 l2 : list (option A)) :
  first_found (l1 ++ l2) = match first_found l1 with Some a => Some a | None => first_found l2 end.
Proof. induction l1 as [|[a|] l1 IH]; cbn; auto. Qed.

Abbreviation answers u q := (Forall2 (fun es o => is_newest es u q o)).

Lemma mems_getAt_spec ms ess u q :
  Forall2 mem_inv ms ess -> key_compat u (concat ess) ->
  exists os, mems_getAt ms u q = Some (first_found os) /\ answers u q ess os.
Proof.
  induction 1 as [|m es ms ess Hm Hms IH]; cbn [concat mems_getAt]; intros Hc; [by exists []|].
  apply Forall_app in Hc as [Hc1 Hc2]. destruct (GetAt_newest m es u q Hm Hc1) as (o & -> & Ho).
  destruct (IH Hc2) as (os & E & Hos). exists (o :: os). split; [|by constructor]. cbn. destruct o; [done|exact E].
Qed.

Lemma tables_getAt_spec rs ess u q :
  Forall2 holds rs ess -> key_compat u (concat ess) ->
  exists os, tables_getAt rs u q = Some (first_found os) /\ answers u q ess os.
Proof.
  induction 1 as [|r es rs ess Hr Hrs IH]; cbn [concat tables_getAt]; intros Hc; [by exists []|].
  apply Forall_app in Hc as [Hc1 Hc2]. destruct (holds_GetAt r es Hr u q Hc1) as (o & Eo & Ho).
  destruct (IH Hc2) as (os & E & Hos). exists (o :: os). split; [|by constructor]. rewrite Eo.
  unfold Reader_GetAt in Eo. destruct (negb (MayContain r u)).
  - injection Eo as <-. exact E.
  - destruct o; [done|exact E].
Qed.

(** ** The invariant *)

(** What the sources hold: the active memtable, the immutable ones, L0, and the
    levels table by table. *)
Record view := mkView {
  v_act : list entry;
  v_imm : list (list entry);
  v_l0 : list (list entry);
  v_lev : list (list (list entry))
}.

(** The searched levels, L1 on. *)
Definition v_deep (v : view) : list (list (list entry)) := drop 1 (v_lev v).
(** The sources newest first, a level as one source. *)
Definition v_srcs (v : view) : list (list entry) :=
  v_act v :: v_imm v ++ v_l0 v ++ map (@concat entry) (v_deep v).
Definition v_all (v : view) : list entry := concat (v_srcs v).

Definition all_tables (db : DB) : list Reader := l0 db ++ concat (levels db).
Definition mem_ids (db : DB) : list Z := map Memtable.ID (active db :: immutables db).

(** The references a compaction in progress holds on its inputs. *)
Definition pins (pend : option CompactionTask) : list Z :=
  match pend with Some t => map rid (AllInputs t) | None => [] end.

Definition live_handle (pend : option CompactionTask) (id : Z) : TableHandle :=
  mkHandle (if decide (id ∈ pins pend) then 2 else 1) false false 0.

Record db_inv (db : DB) (pend : option CompactionTask) (hist : list entry) (v : view) : Prop := {
  inv_active : mem_inv (active db) (v_act v);
  inv_imm : Forall2 mem_inv (immutables db) (v_imm v);
  inv_imm_ne : Forall (fun es => es <> []) (v_imm v);
  inv_l0 : Forall2 holds (l0 db) (v_l0 v);
  inv_levels : Forall2 (Forall2 holds) (levels db) (v_lev v);
  inv_L0_separate : v_lev v !! 0%nat = Some [];
  inv_sorted : Forall (fun lv => ksorted (concat lv)) (v_deep v);
  inv_ordered : ordered (v_srcs v);
  inv_hist : v_all v ≡ₚ hist;
  inv_compat : keys_compat (map fst hist);
  inv_ikeys : ikeys_ok hist;
  inv_sound : Forall entry_sound hist;
  inv_nodup : NoDup (map fst hist);
  inv_seqs : Forall (fun e => SeqNum e.1 <= nextSeq db) hist;
  inv_seq_range : 0 <= nextSeq db;
  inv_ids : NoDup (mem_ids db ++ map rid (all_tables db));
  inv_id_range : Forall (fun i => 0 <= i <= nextMemID db) (mem_ids db ++ map rid (all_tables db));
  inv_handles : Forall (fun r => handles db !! rid r = Some (live_handle pend (rid r)) /\
                                 ssts db !! rid r = Some (rdata r)) (all_tables db);
  inv_pins : Forall (fun i => i ∈ map rid (all_tables db)) (pins pend)
}.

Lemma v_all_eq v : v_all v = v_act v ++ concat (v_imm v) ++ concat (v_l0 v) ++ concat (concat (v_deep v)).
Proof. unfold v_all, v_srcs. cbn. by rewrite !concat_app, concat_map_concat. Qed.

Section reads.
Context (db : DB) (pend : option CompactionTask) (hist : list entry) (v : view) (Hi : db_inv db pend hist v).

Lemma deep_holds : Forall2 holds (concat (drop 1 (levels db))) (concat (v_deep v)).
Proof.
  unfold v_deep. pose proof (inv_levels _ _ _ _ Hi) as H. apply (Forall2_drop _ _ _ 1) in H.
  induction H as [|l lv ls lvs Hl H IH]; cbn; [constructor|]. by apply Forall2_app.
Qed.

Lemma hist_elem e : e ∈ hist <-> e ∈ v_all v.
Proof. by rewrite (inv_hist _ _ _ _ Hi). Qed.

(** Each level searched table by table is in order. *)
Lemma deep_ordered : Forall ordered (v_deep v).
Proof.
  pose proof (inv_sorted _ _ _ _ Hi) as Hs. rewrite Forall_forall in Hs |- *. intros lv Hlv.
  assert (forall e, e ∈ concat lv -> e ∈ hist) as Hsub.
  { intros e He. apply hist_elem. rewrite v_all_eq. rewrite !elem_of_app. do 3 right.
    rewrite <-concat_map_concat. apply list_elem_of_In, in_concat. exists (concat lv). split; [|by apply list_elem_of_In].
    apply in_map. by apply list_elem_of_In. }
  apply ordered_sorted; [by apply Hs| |].
  - apply keys_compat_spec. intros a b Ha Hb. apply (proj1 (keys_compat_spec _) (inv_compat _ _ _ _ Hi));
      [apply list_elem_of_fmap in Ha as (e & -> & He)|apply list_elem_of_fmap in Hb as (e & -> & He)];
      apply list_elem_of_fmap; eauto.
  - apply Forall_forall. intros e He. pose proof (inv_ikeys _ _ _ _ Hi) as Hk. unfold ikeys_ok in Hk.
    rewrite Forall_forall in Hk. by apply Hk, Hsub.
Qed.

Lemma getAt_newest u q :
  key_compat u hist -> exists o, getAt db u q = Some o /\ is_newest hist u q o.
Proof.
  intros Hc. assert (key_compat u (v_all v)) as Hc'.
  { unfold key_compat. by rewrite (inv_hist _ _ _ _ Hi). }
  rewrite v_all_eq in Hc'. apply Forall_app in Hc' as [Hca Hc']. apply Forall_app in Hc' as [Hci Hc'].
  apply Forall_app in Hc' as [Hc0 Hcd].
  destruct (mems_getAt_spec (active db :: immutables db) (v_act v :: v_imm v) u q) as (os1 & E1 & A1).
  { constructor; [apply (inv_active _ _ _ _ Hi)|apply (inv_imm _ _ _ _ Hi)]. }
  { cbn. by apply Forall_app. }
  destruct (tables_getAt_spec (l0 db) (v_l0 v) u q) as (os2 & E2 & A2); [apply (inv_l0 _ _ _ _ Hi)|done|].
  destruct (tables_getAt_spec _ _ u q deep_holds Hcd) as (os3 & E3 & A3).
  exists (first_found (os1 ++ os2 ++ os3)). split.
  - unfold getAt. rewrite E1. cbn [mbind option_bind]. rewrite E2, E3, !first_found_app. cbn [mbind option_bind].
    destruct (first_found os1); [done|]. by destruct (first_found os2).
  - rewrite <-(inv_hist _ _ _ _ Hi). rewrite v_all_eq.
    replace (v_act v ++ concat (v_imm v) ++ concat (v_l0 v) ++ concat (concat (v_deep v)))
      with (concat ((v_act v :: v_imm v) ++ v_l0 v ++ concat (v_deep v))) by (cbn; by rewrite !concat_app).
    apply first_found_newest; [|by repeat apply Forall2_app].
    apply ordered_sources. rewrite app_assoc. apply ordered_flatten; [|apply deep_ordered].
    pose proof (inv_ordered _ _ _ _ Hi) as Ho. unfold v_srcs in Ho. cbn in *. by rewrite <-app_assoc.
Qed.
End reads.

(** ** Writes *)

(** The version a log entry stands for. *)
Definition wentry (e : Entry) : entry := (MakeInternalKey (Key e) (Seq e), EValue e).

Lemma len_batchEntries q ops : len (batchEntries q ops) = len ops.
Proof. revert q; induction ops as [|op ops IH]; intros q; cbn [batchEntries]; [done|]. rewrite !len_cons. by rewrite IH. Qed.

(** The versions a batch writes, numbered from [q] on. *)
Definition versions (q : Z) (ops : list batchOp) : list entry := map wentry (batchEntries q ops).

Lemma versions_seq q ops e :
  0 <= q -> q + len ops <= 2^64 -> e ∈ versions q ops ->
  q <= SeqNum e.1 < q + len ops /\ 8 <= len e.1.
Proof.
  revert q; induction ops as [|op ops IH]; intros q H0 Hq He; [by apply elem_of_nil in He|].
  unfold versions in He. cbn [batchEntries map] in He.
  rewrite len_cons in *. pose proof (len_nonneg ops). apply elem_of_cons in He as [->|He].
  - cbn [wentry fst Key Seq]. rewrite (u64_small q) by lia. rewrite SeqNum_make by (unfold seq_ok, MaxSeqNum; lia). split; [lia|]. rewrite len_MakeInternalKey. len_lia.
  - apply IH in He; lia.
Qed.

Lemma versions_nodup q ops : 0 <= q -> q + len ops <= 2^64 -> NoDup (map fst (versions q ops)).
Proof.
  revert q; induction ops as [|op ops IH]; intros q H0 Hq; [constructor|].
  rewrite len_cons in Hq. pose proof (len_nonneg ops). unfold versions. cbn [batchEntries map]. constructor; [|apply IH; lia]. intros (e & E & He)%list_elem_of_fmap.
  apply versions_seq in He as [He _]; [|lia|lia]. rewrite <-E in He. cbn [wentry fst Key Seq] in He.
  rewrite (u64_small q), SeqNum_make in He by (unfold seq_ok, MaxSeqNum; lia). lia.
Qed.

Lemma putAll_inv ops q m es :
  mem_inv m es -> readers m = 0%nat -> 0 <= q -> q + len ops <= 2^64 ->
  (forall e, e ∈ es -> SeqNum e.1 < q) ->
  exists m' es', putAll m (batchEntries q ops) = Ok m' /\ mem_inv m' es' /\ es' ≡ₚ versions q ops ++ es /\
    readers m' = 0%nat /\ Memtable.ID m' = Memtable.ID m.
Proof.
  revert q m es; induction ops as [|op ops IH]; intros q m es Hm Hr H0 Hq Hlt; cbn [batchEntries putAll].
  { exists m, es. done. }
  rewrite len_cons in Hq. pose proof (len_nonneg ops). cbn [Key Seq EValue]. rewrite u64_small by lia.
  assert (SeqNum (MakeInternalKey (bkey op) q) = q) as Hs by (apply SeqNum_make; unfold seq_ok, MaxSeqNum; lia).
  destruct (mem_Put_inv m es (MakeInternalKey (bkey op) q) (op_value op)) as (m1 & E1 & Hm1 & Hr1 & _ & Hid); [done|done| | |].
  { rewrite len_MakeInternalKey. len_lia. }
  { intros e He E. specialize (Hlt e He). rewrite E, Hs in Hlt. lia. }
  rewrite E1. cbn [mbind outcome_bind of_lock].
  destruct (IH (q + 1) m1 (kinsert (MakeInternalKey (bkey op) q, op_value op) es) Hm1 Hr1) as (m2 & es2 & E2 & Hm2 & Hp2 & Hr2 & Hid2);
    [lia|lia| |].
  { intros e. rewrite kinsert_perm. intros [->|He]%elem_of_cons; cbn; [lia|]. apply Hlt in He. lia. }
  exists m2, es2. split; [done|]. split; [done|]. split; [|split; [done|unfold Memtable.ID in *; congruence]].
  rewrite Hp2, kinsert_perm. unfold versions. cbn [batchEntries map wentry Key Seq EValue].
  rewrite (u64_small q) by lia. symmetry. apply Permutation_middle.
Qed.

(** New versions, all numbered above [q0], join the active memtable. *)
Lemma inv_insert db pend hist v m es new q ents :
  db_inv db pend hist v -> mem_inv m es -> es ≡ₚ new ++ v_act v -> Memtable.ID m = Memtable.ID (active db) ->
  nextSeq db <= q -> (forall e, e ∈ new -> nextSeq db < SeqNum e.1 <= q) ->
  NoDup (map fst new) -> Forall entry_sound new -> ikeys_ok new -> keys_compat (map fst (new ++ hist)) ->
  db_inv (set_active m (activeWAL_Write ents (set_ids (nextMemID db) q db))) pend (new ++ hist)
    (mkView es (v_imm v) (v_l0 v) (v_lev v)).
Proof.
  intros Hi Hm Hes Hid Hq Hseq Hnd Hs Hik Hc. pose proof (inv_seqs _ _ _ _ Hi) as Hsq. rewrite Forall_forall in Hsq.
  assert (forall e, e ∈ v_all v -> SeqNum e.1 <= nextSeq db) as Hold.
  { intros e He. apply Hsq. by rewrite <-(inv_hist _ _ _ _ Hi). }
  split; cbn; try (by destruct Hi).
  - pose proof (inv_ordered _ _ _ _ Hi) as Ho. unfold v_srcs, v_deep in *. cbn in *. destruct Ho as [Hn Ho]. split; [|done].
    rewrite Hes, newer_app_l. split; [|done]. intros e e' He He' _. apply Hseq in He.
    assert (SeqNum e'.1 <= nextSeq db); [|lia]. apply Hold. unfold v_all, v_srcs, v_deep. cbn. apply elem_of_app. by right.
  - rewrite <-(inv_hist _ _ _ _ Hi). unfold v_all, v_srcs, v_deep. cbn. rewrite Hes. by rewrite <-app_assoc.
  - apply Forall_app. split; [done|apply (inv_ikeys _ _ _ _ Hi)].
  - apply Forall_app. split; [done|apply (inv_sound _ _ _ _ Hi)].
  - rewrite map_app. apply NoDup_app. split; [done|]. split; [|apply (inv_nodup _ _ _ _ Hi)].
    intros k (e & -> & He)%list_elem_of_fmap (e' & E & He')%list_elem_of_fmap.
    apply Hseq in He. apply Hsq in He'. rewrite <-E in He'. lia.
  - apply Forall_app. split; apply Forall_forall; intros e He; [apply Hseq in He|apply Hsq in He]; lia.
  - pose proof (inv_seq_range _ _ _ _ Hi). lia.
  - pose proof (inv_ids _ _ _ _ Hi) as H. unfold mem_ids, all_tables in *. cbn in *. by rewrite Hid.
  - pose proof (inv_id_range _ _ _ _ Hi) as H. unfold mem_ids, all_tables in *. cbn in *. by rewrite Hid.
Qed.

Section steps.
Context (opts : Options) (coins : Z -> nat -> bool).
Context (range_tables : gmap Z SSTableInfo -> list SSTableInfo).
Context (range_hnsw : gmap bytes HNSWSnapshotInfo -> list HNSWSnapshotInfo).

Lemma rotate_inv db pend hist v :
  db_inv db pend hist v -> v_act v <> [] -> readers (active db) = 0%nat -> nextMemID db + 1 < 2^64 ->
  exists db', rotateMemtable coins db = Ok db' /\
    db_inv db' pend hist (mkView [] (v_act v :: v_imm v) (v_l0 v) (v_lev v)) /\
    nextSeq db' = nextSeq db /\ immutables db' <> [] /\ readers (active db') = 0%nat /\
    (length (immutables db') = S (length (immutables db)))%nat.
Proof.
  intros Hi Hne Hr Hlim. unfold rotateMemtable, Freeze, with_lock. rewrite decide_True by done. cbn [of_lock mbind outcome_bind].
  pose proof (inv_id_range _ _ _ _ Hi) as Hrg. pose proof (inv_ids _ _ _ _ Hi) as Hnd.
  assert (0 <= nextMemID db) as H0.
  { unfold mem_ids in Hrg. cbn in Hrg. apply Forall_cons in Hrg as [? _]. lia. }
  eexists. split; [done|]. split; [|done].
  unfold newMemtable. cbn. rewrite u64_small by lia.
  split; cbn; try (by destruct Hi).
  - apply New_inv.
  - constructor; [|apply (inv_imm _ _ _ _ Hi)]. destruct (inv_active _ _ _ _ Hi). by split.
  - constructor; [done|apply (inv_imm_ne _ _ _ _ Hi)].
  - split; [apply newer_nil_l|]. exact (inv_ordered _ _ _ _ Hi).
  - unfold mem_ids, all_tables in *. cbn in *. constructor; [|done].
    intros Hin. rewrite Forall_forall in Hrg. apply Hrg in Hin. lia.
  - unfold mem_ids, all_tables in *. cbn in *. constructor; [lia|]. apply (Forall_impl _ _ _ Hrg). lia.
Qed.

(** A write of one or more versions: it succeeds unless it has to wait, and the
    history grows by its versions. *)
Lemma applyBatch_inv db pend hist v ops :
  db_inv db pend hist v -> ops <> [] -> readers (active db) = 0%nat ->
  len (immutables db) < MaxImmutableCount opts -> nextSeq db + len ops < 2^64 -> nextMemID db + 1 < 2^64 ->
  let new := versions (nextSeq db + 1) ops in
  Forall entry_sound new -> keys_compat (map fst (new ++ hist)) ->
  exists db' v', applyBatchLocked opts coins ops db = Ok db' /\ db_inv db' pend (new ++ hist) v' /\
    nextSeq db' = nextSeq db + len ops /\ readers (active db') = 0%nat /\
    v_l0 v' = v_l0 v /\ v_lev v' = v_lev v /\ l0 db' = l0 db /\ levels db' = levels db.
Proof.
  intros Hi Hne Hr Himm Hq Hmid new Hs Hc. pose proof (inv_seq_range _ _ _ _ Hi) as H0. pose proof (len_nonneg ops).
  assert (0 < len ops) as Hpos by (destruct ops; [done|rewrite len_cons; len_lia]).
  unfold applyBatchLocked, waitForFlushSpace. rewrite (proj2 (Z.leb_gt _ _)) by lia. cbn [mbind outcome_bind].
  rewrite (u64_small (len ops)), (u64_small (nextSeq db + len ops)) by lia.
  replace (nextSeq db + len ops - len ops) with (nextSeq db) by lia. rewrite (u64_small (nextSeq db)), u64_small by lia.
  destruct (putAll_inv ops (nextSeq db + 1) (active db) (v_act v)) as (m & es & E & Hm & Hes & Hrm & Hid); [apply Hi|done|lia|lia| |].
  { intros e He. pose proof (inv_seqs _ _ _ _ Hi) as Hsq. rewrite Forall_forall in Hsq.
    assert (SeqNum e.1 <= nextSeq db); [|lia]. apply Hsq. rewrite <-(inv_hist _ _ _ _ Hi). unfold v_all, v_srcs. cbn.
    apply elem_of_app. by left. }
  set (ents := batchEntries (nextSeq db + 1) ops) in *. cbn [active activeWAL_Write set_ids set_files]. rewrite E. cbn [mbind outcome_bind].
  assert (db_inv (set_active m (activeWAL_Write ents (set_ids (nextMemID db) (nextSeq db + len ops) db))) pend (new ++ hist)
    (mkView es (v_imm v) (v_l0 v) (v_lev v))) as Hi2.
  { apply inv_insert; try done; [lia|..].
    - intros e He. apply versions_seq in He as [He _]; lia.
    - apply versions_nodup; lia.
    - apply Forall_forall. intros e He. apply versions_seq in He; lia. }
  assert (es <> []) as Hes0.
  { intros ->. apply Permutation_nil in Hes. unfold versions in Hes. destruct ops; [done|]. cbn in Hes. done. }
  unfold maybeRotate. destruct (MemtableSize opts <=? _).
  - destruct (rotate_inv _ _ _ _ Hi2 Hes0) as (db' & E' & Hi' & Hq' & _ & Hr' & _); [done|done|].
    exists db'. eexists. split; [exact E'|]. split; [exact Hi'|]. split; [by rewrite Hq'|]. split; [done|].
    do 2 (split; [done|]). unfold rotateMemtable in E'. cbn in E'. destruct (of_lock _); [|done..]. cbn in E'. by injection E' as <-.
  - eexists _, _. split; [done|]. split; [exact Hi2|]. by repeat (split; [done|]).
Qed.

(** [Put] and [Delete] are batches of one. *)
Lemma Put_batch db key value :
  0 <= nextSeq db -> nextSeq db + 1 < 2^64 ->
  Put opts coins key value db = applyBatchLocked opts coins [mkOp key value false] db.
Proof.
  intros H0 H1. unfold Put, applyBatchLocked, waitForFlushSpace. destruct (_ <=? _); [done|]. cbn [mbind outcome_bind].
  change (len [mkOp key value false]) with 1. rewrite (u64_small 1), (u64_small (nextSeq db + 1)) by lia.
  replace (nextSeq db + 1 - 1) with (nextSeq db) by lia. rewrite (u64_small (nextSeq db)) by lia.
  cbn [batchEntries putAll bkey op_value tombstone bvalue Key Seq EValue].
  rewrite !(u64_small (nextSeq db + 1)) by lia.
  cbn [active set_ids activeWAL_Write set_files].
  destruct (of_lock _); done.
Qed.
Lemma Delete_batch db key :
  0 <= nextSeq db -> nextSeq db + 1 < 2^64 ->
  Delete opts coins key db = applyBatchLocked opts coins [mkOp key None true] db.
Proof.
  intros H0 H1. unfold Delete, applyBatchLocked, waitForFlushSpace. destruct (_ <=? _); [done|]. cbn [mbind outcome_bind].
  change (len [mkOp key None true]) with 1. rewrite (u64_small 1), (u64_small (nextSeq db + 1)) by lia.
  replace (nextSeq db + 1 - 1) with (nextSeq db) by lia. rewrite (u64_small (nextSeq db)) by lia.
  cbn [batchEntries putAll bkey op_value tombstone bvalue Key Seq EValue].
  rewrite !(u64_small (nextSeq db + 1)) by lia.
  cbn [active set_ids activeWAL_Write set_files].
  destruct (of_lock _); done.
Qed.

(** ** Flush *)
Lemma mem_open_yields m it l :
  yields (Iterator0 := mi_iterator (E := SstErr) m) it l -> yields (E := SstErr) (m, it) l.
Proof.
  revert it; induction l as [|[k w] l IH]; intros it; [done|].
  intros (H1 & H2 & H3 & H4 & it' & H5 & H6). do 4 (split; [done|]).
  exists (m, it'). split; [|by apply IH]. cbn in *. by rewrite H5.
Qed.

Lemma mem_Scan_yields m es :
  mem_inv m es ->
  exists it, Memtable.Scan m = Some (RLock m, it) /\ yields (E := SstErr) (RLock m, it) (map kvp_of es).
Proof.
  intros [Hs Hso Hik]. destruct (Scan_yields (E := SstErr) (slist m) es Hs) as (it & E & Hy).
  exists (mkMI it true). unfold Memtable.Scan. rewrite E. split; [done|]. by apply mem_open_yields, mi_yields.
Qed.

Lemma mem_Len m es : mem_inv m es -> Memtable.Len m = len es.
Proof. intros [[order Hs] _ _]. apply (rep_size _ _ _ Hs). Qed.

Lemma flushLoop_add_all fuel it b es :
  yields (E := SstErr) it (map kvp_of es) -> (length es <= fuel)%nat -> Forall entry_sound es ->
  flushLoop fuel it b = of_sst (add_all b es).
Proof.
  revert fuel it b; induction es as [|e es IH]; intros fuel it b Hy Hf Hs.
  - destruct Hy as [H1 H2]. destruct fuel; cbn [flushLoop]; by rewrite H1, H2.
  - destruct Hy as (H1 & H2 & H3 & H4 & it' & H5 & H6). apply Forall_cons in Hs as [He Hs].
    destruct fuel as [|fuel]; cbn [length] in Hf; [lia|]. cbn [flushLoop add_all]. rewrite H1, H3, H4. cbn [of_opt mbind outcome_bind].
    change (iter_value e.2) with (iter_value e.2). rewrite (sound_value e He).
    destruct (Builder_Add b e.1 e.2) as [b'| |]; cbn [of_sst mbind outcome_bind]; [|done..]. rewrite H5. cbn [of_opt mbind outcome_bind].
    apply IH; [done|lia|done].
Qed.

Lemma flushBuild_holds mt es dir :
  mem_inv mt es -> es <> [] -> Forall entry_sound es -> sst_fits es -> BlockSize opts <= maxBlockOffset ->
  exists file r, flushBuild opts mt = Ok file /\ OpenReader (<[Memtable.ID mt := file]> dir) (Memtable.ID mt) = Ok r /\
    holds r es /\ rid r = Memtable.ID mt /\ rdata r = file.
Proof.
  intros Hm Hne Hs Hf Hb.
  destruct (build_holds (Memtable.ID mt) (BlockSize opts) es dir) as (b & file & r & E1 & E2 & E3 & Hr & Hid & Hd);
    [done|apply (mem_sorted _ _ Hm)|apply (mem_ikeys _ _ Hm)|done|done|done|].
  destruct (mem_Scan_yields _ _ Hm) as (it & Ei & Hy).
  exists file, r. split; [|done]. unfold flushBuild. rewrite Ei. cbn [of_opt mbind outcome_bind].
  rewrite (mem_Len _ _ Hm). rewrite (flushLoop_add_all _ _ _ es); [|done|unfold len; lia|done].
  rewrite E1. cbn [of_sst mbind outcome_bind]. by rewrite E2.
Qed.

Lemma elem_hist_src db pend hist v es :
  db_inv db pend hist v -> es ∈ v_srcs v -> forall e, e ∈ es -> e ∈ hist.
Proof.
  intros Hi Hes e He. rewrite <-(inv_hist _ _ _ _ Hi). unfold v_all.
  apply list_elem_of_In, in_concat. exists es. split; by apply list_elem_of_In.
Qed.

Lemma live_handle_other pend pend' i :
  (i ∈ pins pend <-> i ∈ pins pend') -> live_handle pend i = live_handle pend' i.
Proof. intros H. unfold live_handle. f_equal. by destruct (decide (i ∈ pins pend)), (decide (i ∈ pins pend')); try tauto. Qed.

Lemma flush_inv db pend hist v ei el :
  db_inv db pend hist v -> v_imm v = ei ++ [el] -> sst_fits el -> BlockSize opts <= maxBlockOffset ->
  exists db' r, flushOldest opts range_tables range_hnsw db = Ok db' /\
    db_inv db' pend hist (mkView (v_act v) ei (el :: v_l0 v) (v_lev v)) /\
    nextSeq db' = nextSeq db /\ nextMemID db' = nextMemID db /\ active db' = active db /\
    l0 db' = r :: l0 db /\ levels db' = levels db /\ (length (immutables db) = S (length (immutables db')))%nat.
Proof.
  intros Hi Ev Hfit Hb. pose proof (inv_imm _ _ _ _ Hi) as Him. rewrite Ev in Him.
  apply Forall2_app_inv_r in Him as (ms & mts & Hms & Hmt & Eim).
  apply Forall2_cons_inv_r in Hmt as (mt & mts' & Hmt & Hn & ->). apply Forall2_nil_inv_r in Hn as ->.
  pose proof (inv_imm_ne _ _ _ _ Hi) as Hne. rewrite Ev in Hne. apply Forall_app in Hne as [Hne1 Hne2]. apply Forall_cons in Hne2 as [Hne2 _].
  assert (Forall entry_sound el) as Hs.
  { apply Forall_forall. intros e He. pose proof (inv_sound _ _ _ _ Hi) as Hs. rewrite Forall_forall in Hs. apply Hs.
    apply (elem_hist_src _ _ _ _ el Hi); [|done]. unfold v_srcs. rewrite Ev. set_solver. }
  destruct (flushBuild_holds mt el (ssts db) Hmt Hne2 Hs Hfit Hb) as (file & r & E1 & E2 & Hr & Hid & Hd).
  unfold flushOldest. rewrite Eim, last_snoc. unfold flushMemtable. rewrite E1. cbn [mbind outcome_bind ssts set_files wals].
  rewrite E2. cbn [of_sst mbind outcome_bind].
  pose proof (inv_ids _ _ _ _ Hi) as Hnd. pose proof (inv_id_range _ _ _ _ Hi) as Hrg.
  unfold mem_ids in Hnd, Hrg. rewrite Eim in Hnd, Hrg. cbn [map] in Hnd, Hrg. rewrite map_app in Hnd, Hrg. cbn [map] in Hnd, Hrg.
  assert (Memtable.ID mt ∉ map rid (all_tables db)) as Hfresh.
  { intros Hin. cbn in Hnd. apply NoDup_cons in Hnd as [_ Hnd]. rewrite <-app_assoc in Hnd. apply NoDup_app in Hnd as (_ & _ & Hnd).
    cbn in Hnd. by apply NoDup_cons in Hnd as [? _]. }
  eexists _, r. split; [done|]. split.
  2: { cbn. rewrite ?Eim. rewrite length_app, take_app_le, !length_take by (cbn; lia). cbn. by repeat (split; [done|]); lia. }
  assert (take (length (ms ++ [mt]) - 1) (ms ++ [mt]) = ms) as Etk.
  { rewrite length_app. cbn. replace (length ms + 1 - 1)%nat with (length ms) by lia. by rewrite take_app_length. }
  split; cbn; rewrite ?Eim, ?Etk; try (by destruct Hi).
  - constructor; [done|apply (inv_l0 _ _ _ _ Hi)].
  - pose proof (inv_ordered _ _ _ _ Hi) as Ho. unfold v_srcs in Ho. rewrite Ev in Ho. cbn in *. by rewrite <-app_assoc in Ho.
  - rewrite <-(inv_hist _ _ _ _ Hi). unfold v_all, v_srcs. rewrite Ev. cbn. by rewrite <-app_assoc.
  - unfold mem_ids, all_tables in *. cbn. rewrite ?Eim, ?Etk, Hid. cbn in Hnd. by rewrite <-app_assoc in Hnd.
  - unfold mem_ids, all_tables in *. cbn. rewrite ?Eim, ?Etk, Hid. cbn in Hrg. by rewrite <-app_assoc in Hrg.
  - unfold all_tables. cbn. constructor.
    + rewrite Hid, lookup_insert_eq, lookup_insert_eq, Hd. split; [|done]. f_equal. unfold live_handle, NewTableHandle.
      rewrite decide_False; [done|]. intros Hin. pose proof (inv_pins _ _ _ _ Hi) as Hp. rewrite Forall_forall in Hp. by apply Hp in Hin.
    + pose proof (inv_handles _ _ _ _ Hi) as Hh. unfold all_tables in *. rewrite Forall_forall in Hh |- *. intros r' Hr'.
      assert (rid r' <> Memtable.ID mt).
      { intros E. apply Hfresh. rewrite <-E. apply list_elem_of_fmap. eauto. }
      rewrite !lookup_insert_ne by done. by apply Hh.
  - apply (Forall_impl _ _ _ (inv_pins _ _ _ _ Hi)). intros i Hin. unfold all_tables in *. cbn. by right.
Qed.

(** ** Handles in bulk *)
Lemma DB_eta db : set_files (wals db) (ssts db) (set_handles (handles db) db) = db.
Proof. by destruct db. Qed.

Lemma on_handles_spec f h h' rs db :
  f h = Ok h' -> NoDup (map rid rs) -> Forall (fun r => handles db !! rid r = Some h) rs ->
  exists hs ss, on_handles f rs db = Ok (set_files (wals db) ss (set_handles hs db)) /\
    Forall (fun r => hs !! rid r = Some h') rs /\
    (forall i, i ∉ map rid rs -> hs !! i = handles db !! i /\ ss !! i = ssts db !! i) /\
    (removed h' = removed h -> ss = ssts db).
Proof.
  intros Hf. revert db; induction rs as [|r rs IH]; intros db Hnd Hh.
  { exists (handles db), (ssts db). cbn. by rewrite DB_eta. }
  cbn [map] in Hnd. apply NoDup_cons in Hnd as [Hn Hnd]. apply Forall_cons in Hh as [Hr Hh].
  cbn [on_handles]. unfold on_handle. rewrite Hr, Hf. cbn [of_handle mbind outcome_bind].
  set (hs1 := <[rid r := h']> (handles db)).
  set (ss1 := if (removed h <? removed h')%nat then delete (rid r) (ssts db) else ssts db).
  set (db1 := set_files (wals db) ss1 (set_handles hs1 db)).
  assert ((if (removed h <? removed h')%nat then set_files (wals (set_handles hs1 db)) (delete (rid r) (ssts (set_handles hs1 db))) (set_handles hs1 db)
     else set_handles hs1 db) = db1) as ->.
  { unfold db1, ss1. destruct (removed h <? removed h')%nat; by destruct db. }
  destruct (IH db1 Hnd) as (hs & ss & E & H1 & H2 & H3).
  { rewrite Forall_forall in Hh |- *. intros r' Hr'. unfold db1, hs1. cbn. rewrite lookup_insert_ne; [by apply Hh|].
    intros Er. apply Hn. rewrite Er. apply list_elem_of_fmap. eauto. }
  exists hs, ss. rewrite E. split; [done|]. split; [constructor; [|done]|split].
  - destruct (H2 (rid r) Hn) as [-> _]. unfold db1, hs1. cbn. apply lookup_insert_eq.
  - intros i Hi. cbn in Hi. rewrite not_elem_of_cons in Hi. destruct Hi as [Hi1 Hi2]. destruct (H2 i Hi2) as [-> ->].
    unfold db1, hs1, ss1. cbn [handles ssts set_files set_handles]. rewrite lookup_insert_ne by done. split; [done|].
    destruct (removed h <? removed h')%nat; [by rewrite lookup_delete_ne|done].
  - intros Er. rewrite (H3 Er). unfold db1, ss1. cbn [ssts set_files]. rewrite Er. by rewrite Nat.ltb_irrefl.
Qed.

(** Picking a task takes a reference on each input. *)
Lemma pick_inv db hist v :
  db_inv db None hist v ->
  match PickCompaction (buildLevelState db) (CompactionCfg opts) with
  | None => compactPick opts db = Ok None
  | Some task =>
      NoDup (map rid (AllInputs task)) -> AllInputs task ⊆ all_tables db ->
      exists db', compactPick opts db = Ok (Some (db', task)) /\ db_inv db' (Some task) hist v /\
        l0 db' = l0 db /\ levels db' = levels db /\ nextSeq db' = nextSeq db /\ nextMemID db' = nextMemID db /\
        active db' = active db /\ immutables db' = immutables db
  end.
Proof.
  intros Hi. unfold compactPick. destruct (PickCompaction _ _) as [task|]; [|done]. intros Hnd Hsub.
  pose proof (inv_handles _ _ _ _ Hi) as Hh. rewrite Forall_forall in Hh.
  destruct (on_handles_spec Ref (mkHandle 1 false false 0) (mkHandle 2 false false 0) (AllInputs task) db) as (hs & ss & E & H1 & H2 & H3).
  { done. }
  { done. }
  { apply Forall_forall. intros r Hr. apply Hsub, Hh in Hr as [-> _]. unfold live_handle. rewrite decide_False; [done|]. apply not_elem_of_nil. }
  rewrite E. cbn [mbind outcome_bind]. rewrite (H3 eq_refl). eexists. split; [done|]. split; [|done].
  split; cbn; try (by destruct Hi).
  - apply Forall_forall. intros r Hr. destruct (Hh r Hr) as [G1 G2]. split; [|done]. unfold live_handle.
    destruct (decide (rid r ∈ pins (Some task))) as [Hin|Hin].
    + cbn in Hin. apply list_elem_of_fmap in Hin as (r' & Er & Hr'). rewrite Forall_forall in H1. rewrite Er. by apply H1.
    + destruct (H2 (rid r) Hin) as [-> _]. rewrite G1. unfold live_handle. rewrite decide_False; [done|]. apply not_elem_of_nil.
  - apply Forall_forall. intros i (r & -> & Hr)%list_elem_of_fmap. apply list_elem_of_fmap. exists r. split; [done|]. by apply Hsub.
Qed.

(** ** Compaction *)

(** The effect of [swapTables] on L0 and on the levels. *)
Definition swap_l0 (res : CompactionResult) (l : list Reader) : list Reader :=
  if InputLevel (Task res) =? 0 then not_obsolete (Task res) l else l.
Definition swap_levels (res : CompactionResult) (ls : list (list Reader)) : list (list Reader) :=
  let task := Task res in
  let ls :=
    if InputLevel task =? 0 then ls
    else if InputLevel task <? len ls then alter (not_obsolete task) (Z.to_nat (InputLevel task)) ls else ls in
  if (0 <=? OutputLevel task) && (OutputLevel task <? len ls)
  then alter (fun lvl => sortHandlesByFirstKey (not_obsolete task lvl ++ NewTables res)) (Z.to_nat (OutputLevel task)) ls
  else ls.

Lemma swapTables_eq res db :
  swapTables res db = set_tables (swap_l0 res (l0 db)) (swap_levels res (levels db)) db.
Proof.
  destruct db. unfold swapTables, swap_l0, swap_levels. cbn.
  destruct (InputLevel (Task res) =? 0); cbn; [by destruct (_ && _)|].
  destruct (InputLevel (Task res) <? len levels); cbn; by destruct (_ && _).
Qed.

Lemma length_swap_levels res ls : length (swap_levels res ls) = length ls.
Proof.
  unfold swap_levels. destruct (InputLevel (Task res) =? 0); [|destruct (InputLevel (Task res) <? len ls)];
    (destruct (_ && _); [rewrite length_alter|]; try done; by rewrite ?length_alter).
Qed.

(** What a swap must achieve for the view. *)
Record swap_ok (v v' : view) (res : CompactionResult) (keep l : list Reader) (ls : list (list Reader)) : Prop := {
  sw_l0 : Forall2 holds (swap_l0 res l) (v_l0 v');
  sw_levels : Forall2 (Forall2 holds) (swap_levels res ls) (v_lev v');
  sw_act : v_act v' = v_act v;
  sw_imm : v_imm v' = v_imm v;
  sw_sep : v_lev v' !! 0%nat = Some [];
  sw_sorted : Forall (fun lv => ksorted (concat lv)) (v_deep v');
  sw_ordered : ordered (v_srcs v');
  sw_perm : v_all v' ≡ₚ v_all v;
  sw_tables : swap_l0 res l ++ concat (swap_levels res ls) ≡ₚ NewTables res ++ keep
}.

Lemma fresh_handles (rs : list Reader) (hs : gmap Z TableHandle) :
  let hs' := fold_left (fun hs r => <[rid r := NewTableHandle]> hs) rs hs in
  (forall r, r ∈ rs -> hs' !! rid r = Some NewTableHandle) /\
  (forall i, i ∉ map rid rs -> hs' !! i = hs !! i).
Proof.
  revert hs; induction rs as [|r rs IH]; intros hs; cbn.
  - split; [|done]. intros r Hr. by apply elem_of_nil in Hr.
  - destruct (IH (<[rid r := NewTableHandle]> hs)) as [H1 H2]. split.
    + intros r' [->|Hr']%elem_of_cons; [|by apply H1].
      destruct (decide (rid r ∈ map rid rs)) as [(r' & E & Hr')%list_elem_of_fmap|Hn].
      * specialize (H1 r' Hr'). by rewrite E in H1 |- *.
      * rewrite H2 by done. apply lookup_insert_eq.
    + intros i [Hi1 Hi2]%not_elem_of_cons. rewrite H2 by done. by rewrite lookup_insert_ne.
Qed.

Lemma compactRun_inv db hist v task ess others keep :
  db_inv db (Some task) hist v ->
  Forall2 holds (AllInputs task) ess -> concat ess ++ others ≡ₚ hist -> sst_fits (concat ess) ->
  BlockSize opts <= maxBlockOffset -> nextMemID db + len (concat ess) < 2^64 ->
  all_tables db ≡ₚ AllInputs task ++ keep ->
  (forall res outs dir' next', Task res = task -> exec_ok (ssts db) (nextMemID db) (concat ess) dir' next' res outs ->
     exists v', swap_ok v v' res keep (l0 db) (levels db)) ->
  exists db' v', compactRun opts range_tables range_hnsw task db = Ok db' /\ db_inv db' None hist v' /\
    nextSeq db' = nextSeq db /\ active db' = active db /\ immutables db' = immutables db /\
    length (levels db') = length (levels db).
Proof.
  intros Hi Hess Hoth Hfit Hbs Hlim Htab Hswap. pose proof (inv_id_range _ _ _ _ Hi) as Hrg.
  assert (0 <= nextMemID db) as H0 by (cbn in Hrg; apply Forall_cons in Hrg as [? _]; lia).
  destruct (Execute_ok task (BlockSize opts) (LevelSizeBase (CompactionCfg opts) ÷ 10) (ssts db) (nextMemID db) ess)
    as (dir' & next' & res & outs & Eex & Etask & Hex); [done| |done|done|done|done|].
  { pose proof (inv_nodup _ _ _ _ Hi) as Hnd. rewrite <-Hoth, map_app in Hnd. by apply NoDup_app in Hnd as [? _]. }
  destruct (Hswap res outs dir' next' Etask Hex) as (v' & Hsw).
  pose proof (inv_ids _ _ _ _ Hi) as Hids. rewrite Htab, map_app in Hids.
  assert (NoDup (map rid (AllInputs task))) as Hnin.
  { apply NoDup_app in Hids as (_ & _ & Hids). by apply NoDup_app in Hids as [? _]. }
  assert (forall r, r ∈ keep -> rid r ∉ map rid (AllInputs task)) as Hkeep.
  { apply NoDup_app in Hids as (_ & _ & Hids). apply NoDup_app in Hids as (_ & Hids & _). intros r Hr Hin.
    apply (Hids _ Hin). apply list_elem_of_fmap. eauto. }
  pose proof (inv_handles _ _ _ _ Hi) as Hh. rewrite Htab in Hh. apply Forall_app in Hh as [Hhin Hhk].
  unfold compactRun. rewrite Eex.
  (** drop the executor's references *)
  set (db1 := set_files (wals db) dir' (set_ids next' (nextSeq db) db)).
  destruct (on_handles_spec Unref (mkHandle 2 false false 0) (mkHandle 1 false false 0) (AllInputs task) db1)
    as (hs & ss & E1 & F1 & F2 & F3); [done|done| |].
  { rewrite Forall_forall in Hhin |- *. intros r Hr. unfold db1. cbn. destruct (Hhin r Hr) as [-> _]. unfold live_handle.
    rewrite decide_True; [done|]. cbn. apply list_elem_of_fmap. eauto. }
  rewrite E1. cbn [mbind outcome_bind of_sst]. rewrite (F3 eq_refl).
  unfold applyCompactionResult. rewrite Etask. cbv zeta. cbn [man set_files set_handles nextMemID nextSeq set_man].
  set (mm := UpdateNextIDs _ _ _ _).
  match goal with |- context [swapTables res ?d] => set (db2 := d) end.
  rewrite swapTables_eq.
  destruct (fresh_handles (NewTables res) hs) as [N1 N2]. set (hs2 := fold_left _ (NewTables res) hs) in *.
  assert (handles db2 = hs2) as Eh2 by done. assert (l0 db2 = l0 db) as El0 by done. assert (levels db2 = levels db) as Elv by done.
  assert (ssts db2 = dir') as Es2 by done. rewrite El0, Elv.
  assert (forall i, i ∈ map rid (all_tables db) -> i ∉ map rid (NewTables res)) as Hnew.
  { intros i Hin (r & -> & Hr)%list_elem_of_fmap. pose proof (eo_fresh _ _ _ _ _ _ _ Hex) as Hfr. rewrite Forall_forall in Hfr. rewrite Forall_forall in Hrg.
    specialize (Hfr r Hr). pose proof (Hrg (rid r)) as Hb. rewrite elem_of_app in Hb. specialize (Hb (or_intror Hin)). cbn in Hb, Hfr. lia. }
  assert (forall r, r ∈ AllInputs task -> rid r ∉ map rid (NewTables res)) as Hnew_in.
  { intros r Hr. apply Hnew. rewrite Htab. apply list_elem_of_fmap. exists r. split; [done|]. apply elem_of_app. by left. }
  set (db3 := set_tables _ _ db2).
  destruct (on_handles_spec (fun h => Unref (MarkObsolete h)) (mkHandle 1 false false 0) (mkHandle 0 true true 1) (AllInputs task) db3)
    as (hs3 & ss3 & E3 & G1 & G2 & _); [done|done| |].
  { rewrite Forall_forall in F1 |- *. intros r Hr. change (handles db3) with hs2. rewrite N2 by (by apply Hnew_in). by apply F1. }
  rewrite E3. eexists _, v'. split; [done|]. split; [|split; [done|split; [done|split; [done|apply length_swap_levels]]]].
  assert (forall r, r ∈ NewTables res ++ keep -> (rid r ∉ map rid (AllInputs task)) /\
    handles db3 !! rid r = Some (mkHandle 1 false false 0) /\ ssts db3 !! rid r = Some (rdata r)) as Hlive.
  { intros r [Hr|Hr]%elem_of_app.
    - split; [|split; [by apply N1|]].
      + intros (r' & E & Hr')%list_elem_of_fmap. apply (Hnew_in r' Hr'). rewrite <-E. apply list_elem_of_fmap. eauto.
      + pose proof (eo_fresh _ _ _ _ _ _ _ Hex) as Hfr. rewrite Forall_forall in Hfr. by apply Hfr.
    - split; [by apply Hkeep|]. rewrite Forall_forall in Hhk. destruct (Hhk r Hr) as [K1 K2]. split.
      + change (handles db3) with hs2. rewrite N2.
        * destruct (F2 (rid r) (Hkeep r Hr)) as [-> _]. unfold db1. cbn. rewrite K1. unfold live_handle. rewrite decide_False; [done|].
          by apply Hkeep.
        * apply Hnew. rewrite Htab. apply list_elem_of_fmap. exists r. split; [done|]. apply elem_of_app. by right.
      + change (ssts db3) with dir'. rewrite (eo_old _ _ _ _ _ _ _ Hex); [done|].
        rewrite Forall_forall in Hrg. apply Hrg. apply elem_of_app. right. rewrite Htab.
        apply list_elem_of_fmap. exists r. split; [done|]. apply elem_of_app. by right. }
  destruct Hsw as [S1 S2 S3 S4 S5 S6 S7 S8 S9].
  split; cbn; rewrite ?S3, ?S4; try (by destruct Hi); try done.
  - unfold v_srcs in S7. by rewrite S3, S4 in S7.
  - rewrite <-(inv_hist _ _ _ _ Hi), <-S8. unfold v_all, v_srcs. by rewrite S3, S4.
  - unfold mem_ids, all_tables in *. cbn. rewrite S9, map_app.
    apply NoDup_app in Hids as (Hm & Hmi & Hids). apply NoDup_app in Hids as (_ & _ & Hk).
    rewrite <-(eo_ids _ _ _ _ _ _ _ Hex).
    assert (NoDup (NewTableIDs res)) as Hni.
    { pose proof (eo_incr _ _ _ _ _ _ _ Hex) as Hinc. clear -Hinc. induction Hinc as [|x l Hs IH Hx]; constructor; [|done].
      intros Hin. rewrite Forall_forall in Hx. specialize (Hx _ Hin). lia. }
    assert (forall i, i ∈ NewTableIDs res -> nextMemID db < i) as Hgt.
    { intros i. rewrite (eo_ids _ _ _ _ _ _ _ Hex). intros (r & -> & Hr)%list_elem_of_fmap.
      pose proof (eo_fresh _ _ _ _ _ _ _ Hex) as Hfr. rewrite Forall_forall in Hfr. specialize (Hfr r Hr). lia. }
    rewrite Forall_forall in Hrg.
    apply (NoDup_app (Memtable.ID (active db) :: map Memtable.ID (immutables db))). split; [done|]. split.
    + intros i Hmem Hin. apply elem_of_app in Hin as [Hin|Hin].
      * apply Hgt in Hin. specialize (Hrg i ltac:(apply elem_of_app; by left)). cbn in Hrg. lia.
      * apply (Hmi i Hmem). apply elem_of_app. by right.
    + apply NoDup_app. split; [done|]. split; [|done]. intros i Hin Hin2. apply Hgt in Hin.
      specialize (Hrg i). cbn in Hrg. assert (0 <= i <= nextMemID db); [|lia]. apply Hrg. rewrite elem_of_cons, elem_of_app. do 2 right.
      rewrite Htab, map_app. apply elem_of_app. by right.
  - pose proof (eo_next _ _ _ _ _ _ _ Hex) as Hnx. unfold mem_ids, all_tables in *. cbn. rewrite S9, map_app.
    rewrite Htab, map_app in Hrg. rewrite Forall_forall in Hrg |- *. intros i Hin. cbn in Hrg, Hin.
    assert (i ∈ map rid (NewTables res) \/ 0 <= i <= nextMemID db) as [(r & -> & Hr)%list_elem_of_fmap|?]; [|..|lia].
    + rewrite elem_of_cons, !elem_of_app in Hin. destruct Hin as [Hin|[Hin|[Hin|Hin]]]; [right|right|by left|right];
        apply Hrg; rewrite elem_of_cons, !elem_of_app; auto.
    + pose proof (eo_fresh _ _ _ _ _ _ _ Hex) as Hfr. rewrite Forall_forall in Hfr. specialize (Hfr r Hr). lia.
  - unfold all_tables in *. cbn. rewrite S9. apply Forall_forall. intros r Hr. destruct (Hlive r Hr) as (L1 & L2 & L3).
    destruct (G2 (rid r) L1) as [-> ->]. split; [|done]. rewrite L2. done.
Qed.

Lemma not_obsolete_app task l1 l2 : not_obsolete task (l1 ++ l2) = not_obsolete task l1 ++ not_obsolete task l2.
Proof. apply filter_app. Qed.
Lemma not_obsolete_keep task l : (forall r, r ∈ l -> rid r ∉ map rid (AllInputs task)) -> not_obsolete task l = l.
Proof.
  induction l as [|r l IH]; intros H; [done|]. unfold not_obsolete in *. rewrite filter_cons_True; [f_equal; apply IH|apply H; left].
  intros r' Hr'. apply H. by right.
Qed.
Lemma not_obsolete_drop task l : l ⊆ AllInputs task -> not_obsolete task l = [].
Proof.
  induction l as [|r l IH]; intros H; [done|]. unfold not_obsolete in *. rewrite filter_cons_False; [apply IH; set_solver|].
  intros Hn. apply Hn, list_elem_of_fmap. exists r. split; [done|]. apply H. left.
Qed.

(** The tables of a sorted level have increasing first keys. *)
Definition first_lt (a b : Reader) : Prop := blt (Reader_FirstKey a) (Reader_FirstKey b).

Lemma level_first_keys rs ess : Forall2 holds rs ess -> ksorted (concat ess) -> StronglySorted first_lt rs.
Proof.
  induction 1 as [|r es rs ess Hr Hrs IH]; cbn; intros Hs; constructor; apply ksorted_app_inv in Hs as (Hse & Hs & Hlt); [by apply IH|].
  apply Forall_forall. intros r' Hr'. unfold first_lt. destruct (holds_first _ _ Hr) as (f & es' & -> & ->).
  apply list_elem_of_lookup in Hr' as [i Hi]. destruct (Forall2_lookup_l _ _ _ _ _ Hrs Hi) as (es1 & Hi1 & Hr1).
  destruct (holds_first _ _ Hr1) as (f1 & es1' & -> & ->). apply Hlt; [left|].
  apply list_elem_of_In, in_concat. exists (f1 :: es1'). split; [apply list_elem_of_In; by eapply list_elem_of_lookup_2|by left].
Qed.

Lemma sort_level rs target :
  rs ≡ₚ target -> StronglySorted first_lt target -> sortHandlesByFirstKey rs = target.
Proof.
  intros Hp Hs. unfold sortHandlesByFirstKey.
  assert (Transitive by_first) as Ht.
  { intros a b c. unfold by_first. rewrite <-!ble_not_blt. apply ble_trans. }
  assert (Total by_first) as Hto.
  { intros a b. unfold by_first. destruct (blt_total (Reader_FirstKey a) (Reader_FirstKey b)) as [H|[H|H]].
    - left. apply ble_not_blt. by apply blt_ble.
    - left. apply ble_not_blt. rewrite H. apply ble_refl.
    - right. apply ble_not_blt. by apply blt_ble. }
  apply (StronglySorted_unique_strong by_first).
  - intros a b Ha Hb H1 H2. rewrite merge_sort_Permutation, Hp in Ha.
    unfold by_first in H1, H2. rewrite <-ble_not_blt in H1, H2.
    assert (Reader_FirstKey a = Reader_FirstKey b) as E.
    { apply ble_iff in H1 as [H1|H1]; [|done]. apply ble_not_blt in H2. done. }
    clear -Hs Ha Hb E. induction Hs as [|x l Hs IH Hx]; [by apply elem_of_nil in Ha|]. rewrite Forall_forall in Hx.
    apply elem_of_cons in Ha as [Ea|Ha]; apply elem_of_cons in Hb as [Eb|Hb]; [congruence|subst a|subst b|by apply IH].
    + apply Hx in Hb. unfold first_lt in Hb. rewrite E in Hb. by apply blt_irrefl in Hb.
    + apply Hx in Ha. unfold first_lt in Ha. rewrite E in Ha. by apply blt_irrefl in Ha.
  - apply StronglySorted_merge_sort; apply _.
  - clear -Hs. induction Hs as [|x l Hs IH Hx]; constructor; [done|]. apply (Forall_impl _ _ _ Hx).
    intros y Hy. unfold by_first. apply ble_not_blt. by apply blt_ble.
  - by rewrite merge_sort_Permutation.
Qed.

(** The output level after the swap: the new tables in place of the overlapping run. *)
Lemma output_level univ res lb la eb em ea ins outs :
  keys_compat (map fst univ) -> ikeys_ok univ -> concat (eb ++ em ++ ea) ⊆ univ -> ins ⊆ univ ->
  Forall2 holds lb eb -> Forall2 holds la ea -> Forall2 holds (NewTables res) outs ->
  ksorted (concat (eb ++ em ++ ea)) -> ksorted (concat outs) -> concat outs ≡ₚ ins ++ concat em ->
  (forall e e', e ∈ concat eb -> e' ∈ ins -> blt (UserKey e.1) (UserKey e'.1)) ->
  (forall e e', e ∈ concat ea -> e' ∈ ins -> blt (UserKey e'.1) (UserKey e.1)) ->
  (forall r, r ∈ lb ++ la -> rid r ∉ map rid (AllInputs (Task res))) ->
  sortHandlesByFirstKey (not_obsolete (Task res) (lb ++ Overlapping (Task res) ++ la) ++ NewTables res) = lb ++ NewTables res ++ la /\
  Forall2 holds (lb ++ NewTables res ++ la) (eb ++ outs ++ ea) /\ ksorted (concat (eb ++ outs ++ ea)).
Proof.
  intros Hc Hik Hu Hui Hb Ha Hn Hs Hso Hp Hlo Hhi Hid.
  assert (ksorted (concat (eb ++ outs ++ ea))) as Hks.
  { rewrite !concat_app in *. by apply (merged_level_sorted _ (concat em) _ ins _ univ). }
  assert (Forall2 holds (lb ++ NewTables res ++ la) (eb ++ outs ++ ea)) as Hh by (by repeat apply Forall2_app).
  split; [|done]. apply sort_level; [|by eapply level_first_keys].
  rewrite !not_obsolete_app, not_obsolete_keep, (not_obsolete_drop _ (Overlapping (Task res))), not_obsolete_keep.
  - cbn. rewrite <-app_assoc. f_equiv. apply Permutation_app_comm.
  - intros r Hr. apply Hid, elem_of_app. by right.
  - intros r Hr. unfold AllInputs. apply elem_of_app. by right.
  - intros r Hr. apply Hid, elem_of_app. by left.
Qed.

(** The structure of the levels: L0's own slot is empty. *)
Lemma levels_split db pend hist v :
  db_inv db pend hist v -> (2 <= length (levels db))%nat ->
  exists L1 Ls ev1 evs, levels db = [] :: L1 :: Ls /\ v_lev v = [] :: ev1 :: evs /\
    Forall2 holds L1 ev1 /\ Forall2 (Forall2 holds) Ls evs.
Proof.
  intros Hi Hlen. pose proof (inv_levels _ _ _ _ Hi) as Hl. pose proof (inv_L0_separate _ _ _ _ Hi) as H0.
  destruct (levels db) as [|lv0 [|L1 Ls]]; cbn in Hlen; [lia|lia|].
  apply Forall2_cons_inv_l in Hl as (e0 & e1 & Hl0 & Hl & E). rewrite E in *. cbn in H0. injection H0 as ->.
  apply Forall2_nil_inv_r in Hl0 as ->. apply Forall2_cons_inv_l in Hl as (ev1 & evs & H1 & Hl & ->).
  exists L1, Ls, ev1, evs. done.
Qed.

Lemma concat_subseteq_hist db pend hist v (ess : list (list entry)) :
  db_inv db pend hist v -> (forall es, es ∈ ess -> es ⊆ v_all v) -> concat ess ⊆ hist.
Proof.
  intros Hi H e He. rewrite <-(inv_hist _ _ _ _ Hi). apply list_elem_of_In, in_concat in He as (es & Hes & He).
  apply (H es); by apply list_elem_of_In.
Qed.

(** A task picked from L0, when newer tables may have been flushed since. *)
Lemma L0_swap db hist v task pre rest :
  db_inv db (Some task) hist v -> (2 <= length (levels db))%nat ->
  l0 db = pre ++ rest -> pickL0Compaction (mkLevels rest (levels db)) = Some task ->
  exists ess others keep, Forall2 holds (AllInputs task) ess /\ concat ess ++ others ≡ₚ hist /\
    all_tables db ≡ₚ AllInputs task ++ keep /\
    forall res outs dir' next', Task res = task -> exec_ok (ssts db) (nextMemID db) (concat ess) dir' next' res outs ->
      exists v', swap_ok v v' res keep (l0 db) (levels db).
Proof.
  intros Hi Hlen El0 Hpick. destruct (levels_split _ _ _ _ Hi Hlen) as (L1 & Ls & ev1 & evs & Elv & Evl & H1 & Hls).
  pose proof (inv_l0 _ _ _ _ Hi) as H0. rewrite El0 in H0. apply Forall2_app_inv_l in H0 as (epre & erest & Hpre & Hrest & Ev0).
  assert (v_all v = v_act v ++ concat (v_imm v) ++ (concat epre ++ concat erest) ++ concat ev1 ++ concat (concat evs)) as Eall.
  { rewrite v_all_eq. unfold v_deep. rewrite Evl, Ev0. cbn. by rewrite !concat_app. }
  assert (concat erest ⊆ hist /\ concat ev1 ⊆ hist) as [Hu0 Hu1].
  { split; intros e He; rewrite <-(inv_hist _ _ _ _ Hi), Eall; rewrite !elem_of_app; tauto. }
  pose proof (inv_sorted _ _ _ _ Hi) as Hso. unfold v_deep in Hso. rewrite Evl in Hso. cbn in Hso. apply Forall_cons in Hso as [Hso1 Hsos].
  pose proof Hpick as Hpick'. rewrite Elv in Hpick'.
  destruct (pickL0_split hist (mkLevels rest ([] :: L1 :: Ls)) task erest ev1) as
    (Ein & Eout & Einp & Hne & lb & la & eb & em & ea & EL1 & Eev & Hb & Ho & Ha & Hlo & Hhi);
    [apply Hi|apply Hi|done|done|done|done|done|done|]. cbn in Einp, EL1. subst L1 ev1.
  set (keep := pre ++ lb ++ la ++ concat Ls).
  assert (all_tables db ≡ₚ AllInputs task ++ keep) as Htab.
  { unfold all_tables, keep, AllInputs. rewrite El0, Elv, Einp. cbn. rewrite <-!app_assoc. solve_Permutation. }
  exists (erest ++ em). eexists _, keep. split; [unfold AllInputs; rewrite Einp; by apply Forall2_app|].
  split; [|split; [done|]].
  { rewrite <-(inv_hist _ _ _ _ Hi), Eall, !concat_app.
    instantiate (1 := v_act v ++ concat (v_imm v) ++ concat epre ++ concat eb ++ concat ea ++ concat (concat evs)). solve_Permutation. }
  intros res outs dir' next' Etask Hex.
  pose proof (inv_ids _ _ _ _ Hi) as Hids. rewrite Htab, map_app in Hids. apply NoDup_app in Hids as (_ & _ & Hids).
  apply NoDup_app in Hids as (_ & Hids & _).
  assert (forall r, r ∈ keep -> rid r ∉ map rid (AllInputs (Task res))) as Hk.
  { intros r Hr Hin. rewrite Etask in Hin. apply (Hids _ Hin). apply list_elem_of_fmap. eauto. }
  destruct (output_level hist res lb la eb em ea (concat erest) outs) as (Esort & Hnl & Hnso);
    [apply Hi|apply Hi|done|done|done|done|apply Hex|done|apply Hex| |done|done| |].
  { rewrite (eo_perm _ _ _ _ _ _ _ Hex). by rewrite concat_app. }
  { intros r Hr. apply Hk. unfold keep. rewrite !elem_of_app in *. tauto. }
  exists (mkView (v_act v) (v_imm v) epre ([] :: (eb ++ outs ++ ea) :: evs)).
  assert (swap_l0 res (l0 db) = pre) as Es0.
  { unfold swap_l0. rewrite Etask, Ein, El0. cbn. rewrite not_obsolete_app, not_obsolete_keep, not_obsolete_drop; [apply app_nil_r| |].
    - rewrite <-Einp. intros r Hr. unfold AllInputs. apply elem_of_app. by left.
    - intros r Hr. rewrite <-Etask. apply Hk. unfold keep. apply elem_of_app. by left. }
  assert (swap_levels res (levels db) = [] :: (lb ++ NewTables res ++ la) :: Ls) as Esl.
  { unfold swap_levels. rewrite Elv, Etask, Ein, Eout. cbn. rewrite (proj2 (Z.ltb_lt _ _)) by (rewrite !len_cons; len_lia).
    rewrite Etask in Esort. rewrite <-Esort. reflexivity. }
  pose proof (inv_ordered _ _ _ _ Hi) as Hord. unfold v_srcs, v_deep in Hord. rewrite Ev0, Evl in Hord.
  split; cbn; rewrite ?Es0, ?Esl; try done.
  - constructor; [done|]. by constructor.
  - by constructor.
  - change (ordered ((v_act v :: v_imm v) ++ epre ++ concat (eb ++ outs ++ ea) :: map (@concat entry) evs)).
    change (ordered ((v_act v :: v_imm v) ++ (epre ++ erest) ++ concat (eb ++ em ++ ea) :: map (@concat entry) evs)) in Hord.
    rewrite <-(app_assoc epre), app_assoc in Hord. rewrite app_assoc.
    apply (ordered_merge _ erest (concat (eb ++ em ++ ea))); [done|].
    rewrite !concat_app, (eo_perm _ _ _ _ _ _ _ Hex), concat_app. solve_Permutation.
  - change (v_all (mkView (v_act v) (v_imm v) epre ([] :: (eb ++ outs ++ ea) :: evs)) ≡ₚ v_all v).
    rewrite Eall, v_all_eq. cbn. rewrite !concat_app, (eo_perm _ _ _ _ _ _ _ Hex), concat_app. solve_Permutation.
  - cbn. unfold keep. solve_Permutation.
Qed.

Lemma list_alter_middle {A} (f : A -> A) (l1 : list A) x l2 :
  alter f (length l1) (l1 ++ x :: l2) = l1 ++ f x :: l2.
Proof. induction l1 as [|y l1 IH]; [done|]. cbn. f_equal. exact IH. Qed.

(** The input table of a level task shares no user key with the rest of its level. *)
Definition clean_cut (task : CompactionTask) (ls : list (list Reader)) : Prop :=
  match Inputs task, ls !! Z.to_nat (InputLevel task) with
  | [input], Some (_ :: next :: _) => UserKey (sl (Reader_LastKey input)) <> UserKey (Reader_FirstKey next)
  | _, _ => True
  end.

Lemma clean_cut_newer univ input tl ein etl :
  keys_compat (map fst univ) -> ikeys_ok univ -> concat (ein :: etl) ⊆ univ ->
  Forall2 holds (input :: tl) (ein :: etl) -> ksorted (concat (ein :: etl)) ->
  match tl with next :: _ => UserKey (sl (Reader_LastKey input)) <> UserKey (Reader_FirstKey next) | [] => True end ->
  newer (concat etl) ein.
Proof.
  intros Hc Hik Hu Hh Hs Hcut. apply Forall2_cons in Hh as [Hin Htl].
  destruct Htl as [|next en tl etl Hn Htl]; [apply newer_nil_l|].
  cbn [concat] in *. apply ksorted_app_inv in Hs as (_ & Hs & Hlt).
  assert (ein ⊆ univ /\ en ⊆ univ /\ (en ++ concat etl) ⊆ univ) as (U1 & U2 & U3) by set_solver.
  destruct (holds_first _ _ Hn) as (f & en' & Een & Ef). destruct (holds_last _ _ Hin) as (l & El & Ell).
  rewrite Ef, Ell in Hcut. change (sl (Some l.1)) with l.1 in Hcut. apply last_elem in El.
  assert (f ∈ en ++ concat etl) as Hfin by (rewrite Een; left).
  assert (blt (UserKey l.1) (UserKey f.1)) as Hlf.
  { assert (ble (UserKey l.1) (UserKey f.1)) as H.
    { apply (univ_user_le univ); [done|done|by apply U1|by apply U3|]. by apply blt_ble, Hlt. }
    apply ble_iff in H as [?|?]; done. }
  intros e e' He He' E. exfalso.
  assert (ble (UserKey f.1) (UserKey e.1)) as H1.
  { apply (univ_user_le univ); [done|done|by apply U3|by apply U3|]. rewrite Een in Hs, He. cbn in Hs, He.
    apply ksorted_cons_inv in Hs as [_ Hx]. apply elem_of_cons in He as [->|He]; [apply ble_refl|by apply blt_ble, Hx]. }
  assert (ble (UserKey e'.1) (UserKey l.1)) as H2.
  { pose proof (table_user_bounds univ Hc Hik input ein e' Hin U1 He') as [_ H]. by rewrite Ell in H. }
  rewrite E in H1. pose proof (ble_blt_trans _ _ _ H2 Hlf) as H3. apply ble_not_blt in H1. done.
Qed.

Lemma level_swap db hist v task level :
  db_inv db (Some task) hist v -> 1 <= level -> level + 1 < len (levels db) ->
  pickLevelCompaction (mkLevels (l0 db) (levels db)) level = Some task -> clean_cut task (levels db) ->
  exists ess others keep, Forall2 holds (AllInputs task) ess /\ concat ess ++ others ≡ₚ hist /\
    all_tables db ≡ₚ AllInputs task ++ keep /\
    forall res outs dir' next', Task res = task -> exec_ok (ssts db) (nextMemID db) (concat ess) dir' next' res outs ->
      exists v', swap_ok v v' res keep (l0 db) (levels db).
Proof.
  intros Hi Hlv Hlen Hpick Hcut. unfold pickLevelCompaction in Hpick. cbn [Levels] in Hpick.
  destruct (levels db !! Z.to_nat level) as [[|input tl]|] eqn:Ein; [done| |done].
  rewrite (proj2 (Z.ltb_lt _ _)) in Hpick by lia.
  destruct (levels db !! Z.to_nat (level + 1)) as [Lo|] eqn:Eo; [|apply lookup_ge_None in Eo; unfold len in Hlen; lia].
  cbn [default] in Hpick. injection Hpick as Etask.
  replace (Z.to_nat (level + 1)) with (S (Z.to_nat level)) in Eo by lia.
  (** split the levels at the input level *)
  assert (exists A D, levels db = A ++ (input :: tl) :: Lo :: D /\ length A = Z.to_nat level) as (A & D & Elv & HA).
  { exists (take (Z.to_nat level) (levels db)), (drop (S (S (Z.to_nat level))) (levels db)).
    split; [|apply length_take_le; apply lookup_lt_Some in Ein; lia].
    rewrite <-(drop_S _ _ _ Eo), <-(drop_S _ _ _ Ein). by rewrite take_drop. }
  pose proof (inv_levels _ _ _ _ Hi) as Hl. rewrite Elv in Hl.
  apply Forall2_app_inv_l in Hl as (eA & l2 & HlA & Hl & Evl). apply Forall2_cons_inv_l in Hl as (elv & l3 & Hli & Hl & ->).
  apply Forall2_cons_inv_l in Hl as (eo & eD & Hlo & HlD & ->).
  pose proof Hli as Hli'. apply Forall2_cons_inv_l in Hli' as (ein & etl & Hin & Htl & ->).
  destruct A as [|A0 A]; [cbn in HA; lia|]. destruct eA as [|e0 eA]; [by apply Forall2_length in HlA|].
  assert (e0 = [] /\ A0 = []) as [-> ->].
  { pose proof (inv_L0_separate _ _ _ _ Hi) as H0. rewrite Evl in H0. cbn in H0. injection H0 as ->.
    apply Forall2_cons in HlA as [H _]. by apply Forall2_nil_inv_r in H as ->. }
  assert (v_all v = v_act v ++ concat (v_imm v) ++ concat (v_l0 v) ++ concat (concat eA) ++ (ein ++ concat etl) ++ concat eo ++ concat (concat eD)) as Eall.
  { rewrite v_all_eq. unfold v_deep. rewrite Evl. cbn. rewrite drop_0, !concat_app. cbn. by rewrite ?concat_app, <-?app_assoc. }
  assert (concat (ein :: etl) ⊆ hist /\ concat eo ⊆ hist) as [Hu0 Hu1].
  { split; intros e He; rewrite <-(inv_hist _ _ _ _ Hi), Eall; cbn in He; rewrite !elem_of_app in *; tauto. }
  pose proof (inv_sorted _ _ _ _ Hi) as Hso. unfold v_deep in Hso. rewrite Evl in Hso. cbn in Hso. rewrite drop_0 in Hso.
  apply Forall_app in Hso as [HsoA Hso]. apply Forall_cons in Hso as [Hsi Hso]. apply Forall_cons in Hso as [Hs1 HsD].
  assert (newer (concat etl) ein) as Hnew.
  { apply (clean_cut_newer hist input tl); [apply Hi|apply Hi|done|done|done|].
    unfold clean_cut in Hcut. rewrite <-Etask in Hcut. cbn in Hcut. rewrite Ein in Hcut. by destruct tl. }
  (** the overlapping run of the output level *)
  destruct (holds_last _ _ Hin) as (lst & Elst & Elk).
  destruct (overlap_split hist (inv_compat _ _ _ _ Hi) (inv_ikeys _ _ _ _ Hi) (Reader_FirstKey input) lst.1 Lo eo Hlo Hu1 Hs1)
    as (lb & lm & la & eb & em & ea & ELo & Eeo & Hb & Hm & Ha & Efo & Hlo' & Hhi').
  rewrite Elk, Efo in Etask. subst Lo eo.
  assert (ein ⊆ hist) as Huin by (cbn in Hu0; set_solver).
  assert (forall e, e ∈ ein -> ble (UserKey (Reader_FirstKey input)) (UserKey e.1) /\ ble (UserKey e.1) (UserKey lst.1)) as Hbnd.
  { intros e He. pose proof (table_user_bounds hist (inv_compat _ _ _ _ Hi) (inv_ikeys _ _ _ _ Hi) input ein e Hin Huin He) as H.
    by rewrite Elk in H. }
  set (keep := l0 db ++ concat A ++ tl ++ lb ++ la ++ concat D).
  assert (AllInputs task = [input] ++ lm) as Eai by (rewrite <-Etask; done).
  assert (all_tables db ≡ₚ AllInputs task ++ keep) as Htab.
  { unfold all_tables, keep. rewrite Elv, Eai. cbn. rewrite !concat_app. cbn. solve_Permutation. }
  exists (ein :: em). eexists _, keep. split; [rewrite Eai; by constructor|]. split; [|split; [done|]].
  { rewrite <-(inv_hist _ _ _ _ Hi), Eall. cbn [concat]. rewrite !concat_app.
    instantiate (1 := v_act v ++ concat (v_imm v) ++ concat (v_l0 v) ++ concat (concat eA) ++ concat etl ++ concat eb ++ concat ea ++ concat (concat eD)).
    solve_Permutation. }
  intros res outs dir' next' Etr Hex.
  pose proof (inv_ids _ _ _ _ Hi) as Hids. rewrite Htab, map_app in Hids. apply NoDup_app in Hids as (_ & _ & Hids).
  apply NoDup_app in Hids as (_ & Hids & _).
  assert (forall r, r ∈ keep -> rid r ∉ map rid (AllInputs (Task res))) as Hk.
  { intros r Hr Hrin. rewrite Etr in Hrin. apply (Hids _ Hrin). apply list_elem_of_fmap. eauto. }
  destruct (output_level hist res lb la eb em ea ein outs) as (Esort & Hnl & Hnso);
    [apply Hi|apply Hi|done|done|done|done|apply Hex|done|apply Hex|apply (eo_perm _ _ _ _ _ _ _ Hex)| | | |].
  { intros e e' He He'. eapply blt_ble_trans; [by apply Hlo'|]. by apply Hbnd. }
  { intros e e' He He'. eapply ble_blt_trans; [by apply Hbnd|by apply Hhi']. }
  { intros r Hr. apply Hk. unfold keep. rewrite !elem_of_app in *. tauto. }
  exists (mkView (v_act v) (v_imm v) (v_l0 v) (([] :: eA) ++ etl :: (eb ++ outs ++ ea) :: eD)).
  assert (swap_l0 res (l0 db) = l0 db) as Es0.
  { unfold swap_l0. rewrite Etr, <-Etask. cbn. by rewrite (proj2 (Z.eqb_neq _ _)) by lia. }
  assert (swap_levels res (levels db) = ([] :: A) ++ tl :: (lb ++ NewTables res ++ la) :: D) as Esl.
  { unfold swap_levels. rewrite Etr, <-Etask. cbn [InputLevel OutputLevel]. rewrite Etask.
    rewrite (proj2 (Z.eqb_neq level 0)), (proj2 (Z.ltb_lt level (len (levels db)))), (proj2 (Z.leb_le 0 (level + 1))) by lia.
    rewrite Elv, <-HA, list_alter_middle. rewrite (proj2 (Z.ltb_lt _ _)).
    2: { rewrite Elv in Hlen. unfold len in *. rewrite !length_app in *. cbn in *. lia. }
    replace (Z.to_nat (level + 1)) with (length (([] :: A) ++ [not_obsolete task (input :: tl)])) by (rewrite length_app, HA; cbn; lia).
    cbn [andb]. change (?x :: ?y :: D) with ([x] ++ y :: D). rewrite (app_assoc ([] :: A)), list_alter_middle.
    rewrite Etr in Esort. replace (Overlapping task) with lm in Esort by (by rewrite <-Etask). rewrite Esort, <-app_assoc. cbn [app].
    replace (not_obsolete task (input :: tl)) with tl; [done|]. symmetry.
    change (input :: tl) with ([input] ++ tl). rewrite not_obsolete_app, not_obsolete_drop, not_obsolete_keep; [done| |].
    - intros r Hr. rewrite <-Etr. apply Hk. unfold keep. rewrite !elem_of_app. auto.
    - rewrite Eai. set_solver. }
  pose proof (inv_ordered _ _ _ _ Hi) as Hord. unfold v_srcs, v_deep in Hord. rewrite Evl in Hord.
  cbn [drop app map] in Hord. rewrite drop_0, map_app in Hord. cbn [map] in Hord.
  split; rewrite ?Es0, ?Esl; try done.
  - apply (inv_l0 _ _ _ _ Hi).
  - apply Forall2_app; [done|]. constructor; [done|]. by constructor.
  - unfold v_deep. cbn. rewrite drop_0. apply Forall_app. split; [done|]. constructor; [|by constructor].
    cbn in Hsi. by apply ksorted_app_inv in Hsi as (_ & ? & _).
  - unfold v_srcs, v_deep. cbn [v_act v_imm v_l0 v_lev drop app map]. rewrite drop_0, map_app. cbn [map].
    assert (forall R, v_act v :: v_imm v ++ v_l0 v ++ map (@concat entry) eA ++ R =
      (v_act v :: v_imm v ++ v_l0 v ++ map (@concat entry) eA) ++ R) as EP by (intros; cbn; by rewrite <-!app_assoc).
    rewrite EP in Hord |- *. cbn [concat] in Hord.
    apply (ordered_move _ ein _ (concat (eb ++ em ++ ea))); [done| |done].
    rewrite !concat_app, (eo_perm _ _ _ _ _ _ _ Hex). cbn [concat]. solve_Permutation.
  - rewrite Eall, v_all_eq. unfold v_deep. cbn. rewrite drop_0, !concat_app. cbn. rewrite !concat_app, (eo_perm _ _ _ _ _ _ _ Hex).
    cbn [concat]. rewrite ?concat_app. solve_Permutation.
  - unfold keep. cbn. rewrite !concat_app. cbn. solve_Permutation.
Qed.

(** ** Picked tasks *)
Lemma filter_sublist (f : Reader -> bool) l : List.filter f l `sublist_of` l.
Proof. induction l as [|r l IH]; cbn; [done|]. destruct (f r); by constructor. Qed.

Lemma level_sublist (ls : list (list Reader)) n l : ls !! n = Some l -> l `sublist_of` concat ls.
Proof.
  revert n; induction ls as [|x ls IH]; intros [|n] H; cbn in *; [done|done| |].
  - injection H as ->. by apply sublist_inserts_r.
  - apply sublist_inserts_l. by eapply IH.
Qed.

Lemma pickLevels_task n st cfg level target t :
  pickLevels n st cfg level target = Some t ->
  exists k, level <= k < level + Z.of_nat n /\ pickLevelCompaction st k = Some t.
Proof.
  revert level target; induction n as [|n IH]; intros level target; cbn; [done|].
  destruct (target <? LevelSize st level).
  - intros H. exists level. split; [lia|done].
  - intros H. destruct (IH _ _ H) as (k & Hk & Hp). exists k. split; [lia|done].
Qed.

(** A task comes from L0, or from a level that is not the last one. *)
Lemma Pick_cases l ls cfg t :
  PickCompaction (mkLevels l ls) cfg = Some t ->
  pickL0Compaction (mkLevels l ls) = Some t \/
  exists k, 1 <= k < MaxLevels cfg - 1 /\ pickLevelCompaction (mkLevels l ls) k = Some t.
Proof.
  unfold PickCompaction. destruct (L0CompactionTrigger cfg <=? _); [by left|].
  intros H. right. destruct (pickLevels_task _ _ _ _ _ _ H) as (k & Hk & Hp). exists k. split; [lia|done].
Qed.

Lemma pickLevel_sublist l ls k t :
  1 <= k -> pickLevelCompaction (mkLevels l ls) k = Some t -> AllInputs t `sublist_of` l ++ concat ls.
Proof.
  intros Hk. unfold pickLevelCompaction. cbn [Levels]. destruct (ls !! Z.to_nat k) as [[|input tl]|] eqn:Ei; [done| |done].
  intros [= <-]. unfold AllInputs. cbn [Inputs Overlapping]. apply sublist_inserts_l.
  assert (concat ls = concat (take (Z.to_nat k) ls) ++ input :: tl ++ concat (drop (S (Z.to_nat k)) ls)) as ->
    by (rewrite <-(take_drop_middle _ _ _ Ei) at 1; by rewrite concat_app).
  apply sublist_inserts_l. cbn [app]. apply sublist_skip, sublist_inserts_l.
  destruct (k + 1 <? len ls); [|apply sublist_nil_l].
  destruct (ls !! Z.to_nat (k + 1)) as [lo|] eqn:Eo; cbn [default]; [|apply sublist_nil_l].
  etransitivity; [apply filter_sublist|]. apply (level_sublist _ 0). rewrite lookup_drop.
  by replace (S (Z.to_nat k) + 0)%nat with (Z.to_nat (k + 1)) by lia.
Qed.

Lemma pick_sublist l ls cfg t :
  PickCompaction (mkLevels l ls) cfg = Some t -> AllInputs t `sublist_of` l ++ concat ls.
Proof.
  intros [H|(k & Hk & H)]%Pick_cases; [|by apply (pickLevel_sublist _ _ k); [lia|]].
  unfold pickL0Compaction in H. cbn [L0 Levels] in H. destruct (len l =? 0); [done|].
  destruct (keyRange l) as [mn mx]. injection H as <-. unfold AllInputs. cbn [Inputs Overlapping].
  apply sublist_app; [done|]. destruct (1 <? len ls); [|apply sublist_nil_l].
  destruct (ls !! 1%nat) as [lv|] eqn:E; cbn [default]; [|apply sublist_nil_l].
  etransitivity; [apply filter_sublist|by apply (level_sublist _ 1)].
Qed.

(** ** The engine as a transition system *)
Record sys := mkSys { sdb : DB; spend : option CompactionTask }.

Inductive op :=
| OpPut (key : bytes) (value : option bytes)
| OpDelete (key : bytes)
| OpBatch (ops : list batchOp)
| OpFlush
| OpPick
| OpCompact
| OpSnapshot
| OpRelease (s : Snapshot).

Definition sys_step (s : sys) (o : op) : outcome DbErr sys :=
  let db := sdb s in
  match o with
  | OpPut k x => db ← Put opts coins k x db; Ok (mkSys db (spend s))
  | OpDelete k => db ← Delete opts coins k db; Ok (mkSys db (spend s))
  | OpBatch ops =>
      r ← WriteBatch_Commit opts coins (mkBatch ops 0) db; Ok (mkSys r.1 (spend s))
  | OpFlush => db ← flushOldest opts range_tables range_hnsw db; Ok (mkSys db (spend s))
  | OpPick =>
      match spend s with
      | Some _ => Ok s
      | None =>
          r ← compactPick opts db;
          match r with None => Ok s | Some (db, t) => Ok (mkSys db (Some t)) end
      end
  | OpCompact =>
      match spend s with
      | None => Ok s
      | Some t => db ← compactRun opts range_tables range_hnsw t db; Ok (mkSys db None)
      end
  | OpSnapshot => Ok (mkSys (GetSnapshot db).1 (spend s))
  | OpRelease sn => Ok (mkSys (Snapshot_Close sn db).1 (spend s))
  end.

(** The versions an operation writes. *)
Definition op_writes (o : op) : list batchOp :=
  match o with
  | OpPut k x => [mkOp k x false]
  | OpDelete k => [mkOp k None true]
  | OpBatch ops => ops
  | _ => []
  end.
Definition written (s : sys) (o : op) : list entry := versions (nextSeq (sdb s) + 1) (op_writes o).

(** What an operation asks of its arguments and of the sizes: values are not nil
    and fit the table format, user keys are prefix-compatible with the stored ones,
    tables stay below 4 GiB, counters do not wrap; a level task does not split the
    versions of a user key. *)
Definition admissible (s : sys) (hist : list entry) (o : op) : Prop :=
  let db := sdb s in
  match o with
  | OpPut _ _ | OpDelete _ | OpBatch _ =>
      Forall entry_sound (written s o) /\ keys_compat (map fst (written s o ++ hist)) /\
      nextSeq db + len (op_writes o) < 2^64 /\ nextMemID db + 1 < 2^64
  | OpFlush => forall mt es, last (immutables db) = Some mt -> mem_inv mt es -> sst_fits es
  | OpCompact =>
      forall t, spend s = Some t ->
        (InputLevel t <> 0 -> clean_cut t (levels db)) /\
        forall ess, Forall2 holds (AllInputs t) ess -> sst_fits (concat ess) /\ nextMemID db + len (concat ess) < 2^64
  | _ => True
  end.

Record sys_inv (s : sys) (hist : list entry) (v : view) : Prop := {
  si_db : db_inv (sdb s) (spend s) hist v;
  si_readers : readers (active (sdb s)) = 0%nat;
  si_levels : length (levels (sdb s)) = Z.to_nat (MaxLevels (CompactionCfg opts));
  si_pend : forall t, spend s = Some t -> exists pre rest, l0 (sdb s) = pre ++ rest /\
              PickCompaction (mkLevels rest (levels (sdb s))) (CompactionCfg opts) = Some t
}.

Context (Hbs : BlockSize opts <= maxBlockOffset) (Hlev : 2 <= MaxLevels (CompactionCfg opts)).

Lemma sys_write s hist v ops :
  sys_inv s hist v -> ops <> [] -> len (immutables (sdb s)) < MaxImmutableCount opts ->
  let new := versions (nextSeq (sdb s) + 1) ops in
  Forall entry_sound new -> keys_compat (map fst (new ++ hist)) ->
  nextSeq (sdb s) + len ops < 2^64 -> nextMemID (sdb s) + 1 < 2^64 ->
  exists db' v', applyBatchLocked opts coins ops (sdb s) = Ok db' /\ sys_inv (mkSys db' (spend s)) (new ++ hist) v' /\
    nextSeq db' = nextSeq (sdb s) + len ops.
Proof.
  intros [Hdb Hr Hl Hp] Hne Himm new Hs Hc Hq Hm.
  destruct (applyBatch_inv _ _ _ _ ops Hdb Hne Hr Himm Hq Hm Hs Hc) as (db' & v' & E & Hi & Hq' & Hr' & _ & _ & El0 & Elv).
  exists db', v'. split; [done|]. split; [|done]. split; cbn; [done|done|by rewrite Elv|by rewrite El0, Elv].
Qed.

Lemma sys_flush s hist v mt :
  sys_inv s hist v -> last (immutables (sdb s)) = Some mt -> (forall es, mem_inv mt es -> sst_fits es) ->
  exists db' v', flushOldest opts range_tables range_hnsw (sdb s) = Ok db' /\ sys_inv (mkSys db' (spend s)) hist v' /\
    nextSeq db' = nextSeq (sdb s) /\ nextMemID db' = nextMemID (sdb s) /\
    (length (immutables (sdb s)) = S (length (immutables db')))%nat.
Proof.
  intros [Hdb Hr Hl Hp] Hlast Hfit.
  pose proof (inv_imm _ _ _ _ Hdb) as Him. apply last_Some in Hlast as [ms Ems]. rewrite Ems in Him.
  apply Forall2_app_inv_l in Him as (ei & el & _ & Hel & Ev). apply Forall2_cons_inv_l in Hel as (e1 & e2 & Hmt & Hn & ->).
  apply Forall2_nil_inv_l in Hn as ->.
  destruct (flush_inv _ _ _ _ ei e1 Hdb Ev (Hfit _ Hmt) Hbs) as (db' & r & E & Hi & Hq & Hmid & Ha & El0 & Elv & Hlen).
  exists db'. eexists. split; [done|]. split; [|done]. split; cbn; [exact Hi|by rewrite Ha|by rewrite Elv|].
  intros t Ht. destruct (Hp t Ht) as (pre & rest & E1 & E2). exists (r :: pre), rest. rewrite El0, Elv, E1. done.
Qed.

Lemma sys_pick s hist v :
  sys_inv s hist v -> spend s = None ->
  exists s', sys_step s OpPick = Ok s' /\ sys_inv s' hist v /\ nextSeq (sdb s') = nextSeq (sdb s) /\
    immutables (sdb s') = immutables (sdb s).
Proof.
  intros [Hdb Hr Hl Hp] Hn. cbn. rewrite Hn. rewrite Hn in Hdb. pose proof (pick_inv _ _ _ Hdb) as Hpk.
  destruct (PickCompaction (buildLevelState (sdb s)) (CompactionCfg opts)) as [t|] eqn:Ep.
  - apply pick_sublist in Ep as Hsub. destruct Hpk as (db' & E & Hi & El0 & Elv & Hq & _ & Ha & Him).
    { pose proof (inv_ids _ _ _ _ Hdb) as Hids. apply NoDup_app in Hids as (_ & _ & Hids).
      eapply sublist_NoDup; [exact Hids|apply (fmap_sublist rid _ _ Hsub)]. }
    { intros r Hr'. eapply elem_of_submseteq; [exact Hr'|by apply sublist_submseteq]. }
    rewrite E. cbn. eexists. split; [done|]. split; [|done]. split; cbn; [done|by rewrite Ha|by rewrite Elv|].
    intros t' [= <-]. exists [], (l0 db'). split; [done|]. rewrite El0, Elv. exact Ep.
  - rewrite Hpk. cbn. exists s. split; [done|]. split; [|done]. split; [by rewrite Hn|done|done|done].
Qed.

(** The inputs of the task in progress, and the effect of its swap. *)
Lemma sys_task s hist v t :
  sys_inv s hist v -> spend s = Some t -> (InputLevel t <> 0 -> clean_cut t (levels (sdb s))) ->
  exists ess others keep, Forall2 holds (AllInputs t) ess /\ concat ess ++ others ≡ₚ hist /\
    all_tables (sdb s) ≡ₚ AllInputs t ++ keep /\
    forall res outs dir' next', Task res = t -> exec_ok (ssts (sdb s)) (nextMemID (sdb s)) (concat ess) dir' next' res outs ->
      exists v', swap_ok v v' res keep (l0 (sdb s)) (levels (sdb s)).
Proof.
  intros [Hdb Hr Hl Hp] Ht Hcut. destruct (Hp t Ht) as (pre & rest & E0 & Epick). rewrite Ht in Hdb.
  apply Pick_cases in Epick as [Epick|(k & Hk & Epick)].
  - apply (L0_swap _ _ _ _ pre rest); [done|lia|done|done].
  - apply (level_swap _ _ _ _ k); [done|lia|unfold len; lia|exact Epick|]. apply Hcut.
    unfold pickLevelCompaction in Epick. destruct (Levels _ !! _) as [[|r l]|]; [done| |done]. injection Epick as <-. cbn. lia.
Qed.

Lemma sys_compact s hist v t :
  sys_inv s hist v -> spend s = Some t -> admissible s hist OpCompact ->
  exists db' v', compactRun opts range_tables range_hnsw t (sdb s) = Ok db' /\ sys_inv (mkSys db' None) hist v' /\
    nextSeq db' = nextSeq (sdb s) /\ immutables db' = immutables (sdb s).
Proof.
  intros Hs Ht Hadm. destruct (Hadm t Ht) as [Hcut Hsz].
  destruct (sys_task s hist v t Hs Ht Hcut) as (ess & others & keep & H1 & H2 & H3 & H4).
  destruct Hs as [Hdb Hr Hl Hp]. rewrite Ht in Hdb. destruct (Hsz ess H1) as [Hf Hm].
  destruct (compactRun_inv _ _ _ _ ess others keep Hdb H1 H2 Hf Hbs Hm H3 H4) as (db' & v' & E & Hi & Hq & Ha & Him & Hll).
  exists db', v'. split; [done|]. split; [|done]. split; cbn; [done|by rewrite Ha|by rewrite Hll|done].
Qed.

Ltac no_writes := cbn [op_writes sdb fst GetSnapshot set_snapshots nextSeq] in *; unfold len; cbn [length Z.of_nat]; lia.

(** Every admissible operation that does not have to wait succeeds, and keeps the
    invariant for the history extended by its versions. *)
Lemma sys_step_inv s hist v o :
  sys_inv s hist v -> admissible s hist o ->
  (op_writes o <> [] -> len (immutables (sdb s)) < MaxImmutableCount opts) ->
  exists s' v', sys_step s o = Ok s' /\ sys_inv s' (written s o ++ hist) v' /\
    nextSeq (sdb s') = nextSeq (sdb s) + len (op_writes o).
Proof.
  intros Hs Ha Hw. pose proof (inv_seq_range _ _ _ _ (si_db _ _ _ Hs)) as H0. destruct o as [k x|k|bops| | | | |sn].
  - destruct Ha as (A1 & A2 & A3 & A4). change (len (op_writes (OpPut k x))) with 1 in A3.
    destruct (sys_write s hist v [mkOp k x false] Hs) as (db' & v' & E & Hi & Hq); [done|by apply Hw|done|done|done|done|].
    cbn [sys_step]. rewrite Put_batch, E by lia. eexists _, v'. split; [done|]. split; [exact Hi|]. done.
  - destruct Ha as (A1 & A2 & A3 & A4). change (len (op_writes (OpDelete k))) with 1 in A3.
    destruct (sys_write s hist v [mkOp k None true] Hs) as (db' & v' & E & Hi & Hq); [done|by apply Hw|done|done|done|done|].
    cbn [sys_step]. rewrite Delete_batch, E by lia. eexists _, v'. split; [done|]. split; [exact Hi|]. done.
  - destruct Ha as (A1 & A2 & A3 & A4). cbn [op_writes] in A3, Hw. cbn [sys_step]. unfold WriteBatch_Commit. cbn [ops].
    destruct bops as [|op bops].
    + exists s, v. cbn. split; [by destruct s|]. split; [done|no_writes].
    + destruct (sys_write s hist v (op :: bops) Hs) as (db' & v' & E & Hi & Hq); [done|by apply Hw|done|done|done|done|].
      rewrite (proj2 (Z.eqb_neq _ _)) by (rewrite len_cons; len_lia). rewrite E. cbn [mbind outcome_bind fst].
      eexists _, v'. split; [done|]. split; [exact Hi|]. done.
  - cbn [sys_step]. destruct (last (immutables (sdb s))) as [mt|] eqn:El.
    + destruct (sys_flush s hist v mt Hs El) as (db' & v' & E & Hi & Hq & _); [intros es; by apply Ha|].
      rewrite E. eexists _, v'. split; [done|]. split; [exact Hi|]. no_writes.
    + unfold flushOldest. rewrite El. cbn. exists s, v. split; [by destruct s|]. split; [done|no_writes].
  - destruct (spend s) as [t|] eqn:Et.
    + cbn. rewrite Et. exists s, v. split; [done|]. split; [done|no_writes].
    + destruct (sys_pick s hist v Hs Et) as (s' & E & Hi & Hq & _). exists s', v. split; [done|]. split; [exact Hi|no_writes].
  - destruct (spend s) as [t|] eqn:Et.
    + destruct (sys_compact s hist v t Hs Et Ha) as (db' & v' & E & Hi & Hq & _). cbn. rewrite Et, E. cbn.
      eexists _, v'. split; [done|]. split; [exact Hi|]. no_writes.
    + cbn. rewrite Et. exists s, v. split; [done|]. split; [done|no_writes].
  - cbn. eexists _, v. split; [done|]. split; [|no_writes]. destruct Hs as [Hdb Hr Hl Hp]. split; cbn; try done.
    destruct Hdb. by split.
  - cbn. eexists _, v. split; [done|]. unfold Snapshot_Close. destruct (snap_closed sn); cbn; (split; [|no_writes]);
      destruct Hs as [Hdb Hr Hl Hp]; split; cbn; try done. destruct Hdb. by split.
Qed.

Lemma sys_inv_init : sys_inv (mkSys (emptyDB opts coins range_hnsw) None) [] (mkView [] [] [] (replicate (Z.to_nat (MaxLevels (CompactionCfg opts))) [])).
Proof.
  assert (forall n, concat (replicate n (@nil Reader)) = []) as Hc by (induction n; done).
  assert (forall n, concat (map (@concat entry) (replicate n [])) = []) as Hc' by (induction n; done).
  assert (forall n, ordered (map (@concat entry) (replicate n []))) as Ho.
  { induction n as [|n IH]; cbn; [done|]. split; [apply newer_nil_l|done]. }
  destruct (Z.to_nat (MaxLevels (CompactionCfg opts))) as [|n] eqn:En; [lia|].
  split; cbn; [|done|by rewrite En, length_replicate|done].
  split; unfold v_all, v_srcs, v_deep, mem_ids, all_tables; cbn; rewrite ?En; cbn; rewrite ?Hc, ?drop_0; cbn; try done.
  - apply New_inv.
  - constructor; [constructor|]. clear. by induction n; cbn; constructor.
  - clear. induction n; cbn; constructor; [constructor|done].
  - split; [apply newer_nil_l|apply Ho].
  - by rewrite Hc'.
  - constructor.
  - constructor.
  - constructor.
  - apply NoDup_singleton.
  - constructor; [vm_compute; split; discriminate|constructor].
Qed.

(** ** Histories *)

(** [steps os h s h' s']: the admissible operations [os] take the engine from
    [s], whose history is [h], to [s'] with history [h']. *)
Inductive steps (h : list entry) (s : sys) : list op -> list entry -> sys -> Prop :=
| steps_nil : steps h s [] h s
| steps_snoc os h1 s1 o s2 :
    steps h s os h1 s1 -> admissible s1 h1 o -> sys_step s1 o = Ok s2 -> steps h s (os ++ [o]) (written s1 o ++ h1) s2.

Definition init_sys : sys := mkSys (emptyDB opts coins range_hnsw) None.
Definition run (os : list op) (h : list entry) (s : sys) : Prop := steps [] init_sys os h s.

Lemma waits_or_space s o s' :
  sys_step s o = Ok s' -> op_writes o <> [] -> 0 <= nextSeq (sdb s) -> nextSeq (sdb s) + 1 < 2^64 ->
  len (immutables (sdb s)) < MaxImmutableCount opts.
Proof.
  intros E Hw H0 H1.
  assert (forall bops, applyBatchLocked opts coins bops (sdb s) <> Err Wait ->
            len (immutables (sdb s)) < MaxImmutableCount opts) as Hx.
  { intros bops Hn. unfold applyBatchLocked, waitForFlushSpace in Hn.
    destruct (Z.leb_spec (MaxImmutableCount opts) (len (immutables (sdb s)))); [done|lia]. }
  destruct o as [k x|k|bops| | | | |sn]; cbn in Hw; try done; cbn [sys_step] in E.
  - rewrite Put_batch in E by lia. apply (Hx [mkOp k x false]). intros Ew. by rewrite Ew in E.
  - rewrite Delete_batch in E by lia. apply (Hx [mkOp k None true]). intros Ew. by rewrite Ew in E.
  - unfold WriteBatch_Commit in E. cbn [DB.ops] in E. destruct bops as [|op bops]; [done|].
    rewrite (proj2 (Z.eqb_neq _ _)) in E by (rewrite len_cons; len_lia). apply (Hx (op :: bops)). intros Ew. by rewrite Ew in E.
Qed.

Lemma step_inv s h v o s' :
  sys_inv s h v -> admissible s h o -> sys_step s o = Ok s' ->
  exists v', sys_inv s' (written s o ++ h) v' /\ nextSeq (sdb s') = nextSeq (sdb s) + len (op_writes o).
Proof.
  intros Hs Ha E. pose proof (inv_seq_range _ _ _ _ (si_db _ _ _ Hs)) as H0.
  destruct (sys_step_inv s h v o Hs Ha) as (s1 & v1 & E1 & Hi & Hq).
  { intros Hw. apply (waits_or_space s o s' E Hw H0).
    assert (0 < len (op_writes o)) by (destruct (op_writes o); [done|rewrite len_cons; len_lia]).
    destruct o; try done; destruct Ha as (_ & _ & Ha & _); lia. }
  rewrite E in E1. injection E1 as <-. eauto.
Qed.

Lemma steps_inv os h s h' s' v :
  sys_inv s h v -> steps h s os h' s' ->
  exists v', sys_inv s' h' v' /\ nextSeq (sdb s) <= nextSeq (sdb s') /\
    exists new, h' = new ++ h /\ Forall (fun e => nextSeq (sdb s) < SeqNum e.1) new.
Proof.
  intros Hs. induction 1 as [|os h1 s1 o s2 Hst IH Ha E].
  { exists v. split; [done|]. split; [lia|]. by exists []. }
  destruct IH as (v1 & Hi1 & Hq1 & new & -> & Hnew). destruct (step_inv _ _ _ _ _ Hi1 Ha E) as (v2 & Hi2 & Hq2).
  exists v2. split; [done|]. split; [len_lia|]. exists (written s1 o ++ new). split; [by rewrite app_assoc|].
  apply Forall_app. split; [|done]. apply Forall_forall. intros e He.
  assert (nextSeq (sdb s1) + len (op_writes o) < 2^64 \/ op_writes o = []) as [Hb|Hb]
    by (destruct o; try (by right); left; by destruct Ha as (_ & _ & Hb & _)).
  - pose proof (inv_seq_range _ _ _ _ (si_db _ _ _ Hi1)). apply versions_seq in He as [He _]; lia.
  - unfold written in He. rewrite Hb in He. by apply elem_of_nil in He.
Qed.

Lemma run_inv os h s : run os h s -> exists v, sys_inv s h v.
Proof. intros Hr. destruct (steps_inv _ _ _ _ _ _ sys_inv_init Hr) as (v & Hv & _). eauto. Qed.
End steps.
