(* ===== verification/DBSpec.v ===== *)
(** * What the engine promises (src/db)

    Two abstract stores and the theorems that the engine of [DB] implements them
    over any interleaving of writes, flushes, compactions and snapshots:
    - [store]: a finite map, the last write wins ([DB.Get]);
    - [abs_read]: the versions written so far, read at a sequence number
      ([Snapshot.Get]).
    Background work never changes an answer; a write that has to wait proceeds
    after one flush; the flush loop drains its backlog.  [checked_run] executes
    operations together with the size and key conditions they rely on. *)

From Stdlib Require Import ZArith Lia List Sorted.
From stdpp Require Import base list option gmap sorting.
From S2P Require Import Prelude GoBytes KV Entries WAL Iter SkipList Memtable Iterators Block SSTable SSTIter.
From S2P Require Import Manifest Compaction Refcount Registry DB DBProof.

(** ** The versioned store *)

(** The newest version of [u] not above [q] in a history, by its definition. *)
Fixpoint abs_best (h : list entry) (u : bytes) (q : Z) : option entry :=
  match h with
  | [] => None
  | e :: h =>
      if decide (UserKey e.1 = u /\ SeqNum e.1 <= q) then
        match abs_best h u q with
        | Some e' => if SeqNum e.1 <? SeqNum e'.1 then Some e' else Some e
        | None => Some e
        end
      else abs_best h u q
  end.
Definition abs_read (h : list entry) (u : bytes) (q : Z) : option Value := snd <$> abs_best h u q.

Lemma abs_best_spec h u q :
  match abs_best h u q with
  | Some e => e ∈ h /\ visible u q e /\ forall e', e' ∈ h -> visible u q e' -> SeqNum e'.1 <= SeqNum e.1
  | None => forall e, e ∈ h -> ~ visible u q e
  end.
Proof.
  induction h as [|e h IH]; cbn; [intros e He; by apply elem_of_nil in He|].
  destruct (decide (UserKey e.1 = u /\ SeqNum e.1 <= q)) as [Hv|Hv].
  - destruct (abs_best h u q) as [b|].
    + destruct IH as (Hb & Hvb & Hm). destruct (Z.ltb_spec (SeqNum e.1) (SeqNum b.1)).
      * split; [by right|]. split; [done|]. intros e' [->|He']%elem_of_cons Hve; [lia|by apply Hm].
      * split; [by left|]. split; [done|]. intros e' [->|He']%elem_of_cons Hve; [lia|]. apply Hm in He'; [lia|done].
    + split; [by left|]. split; [done|]. intros e' [->|He']%elem_of_cons Hve; [lia|]. by apply IH in Hve.
  - destruct (abs_best h u q) as [b|].
    + destruct IH as (Hb & Hvb & Hm). split; [by right|]. split; [done|].
      intros e' [->|He']%elem_of_cons Hve; [done|by apply Hm].
    + intros e' [->|He']%elem_of_cons; [done|by apply IH].
Qed.

Lemma abs_read_newest h u q : is_newest h u q (abs_read h u q).
Proof.
  pose proof (abs_best_spec h u q) as H. unfold abs_read. destruct (abs_best h u q) as [[k w]|]; cbn; [|done].
  destruct H as (H1 & H2 & H3). by exists k.
Qed.

Lemma abs_best_new new h u q :
  Forall (fun e => q < SeqNum e.1) new -> abs_best (new ++ h) u q = abs_best h u q.
Proof.
  induction 1 as [|e new He Hn IH]; cbn; [done|]. rewrite decide_False; [done|]. intros [_ ?]. lia.
Qed.

Lemma functional_nodup (es : list entry) : NoDup (map fst es) -> functional_keys es.
Proof.
  intros Hnd k v v' H1 H2. apply list_elem_of_lookup in H1 as [i Hi]. apply list_elem_of_lookup in H2 as [j Hj].
  assert (i = j) as <-; [|congruence].
  apply (NoDup_lookup (map fst es) i j k); [done|..]; rewrite list_lookup_fmap; [by rewrite Hi|by rewrite Hj].
Qed.

Lemma getAt_abs db pend h v u q :
  db_inv db pend h v -> key_compat u h -> getAt db u q = Some (abs_read h u q).
Proof.
  intros Hi Hc. destruct (getAt_newest _ _ _ _ Hi u q Hc) as (o & E & Ho). rewrite E. f_equal.
  apply (is_newest_det h u q); [apply (inv_ikeys _ _ _ _ Hi)| |done|apply abs_read_newest].
  apply functional_nodup, (inv_nodup _ _ _ _ Hi).
Qed.

(** ** The map *)
Abbreviation store := (gmap bytes Value).

Definition store_write (m : store) (w : batchOp) : store := <[bkey w := op_value w]> m.
(** Only writes change the map; flushes, compactions and snapshots do not. *)
Definition store_step (m : store) (o : op) : store := fold_left store_write (op_writes o) m.
Definition store_run (os : list op) : store := fold_left store_step os ∅.

Lemma abs_best_swap e1 e2 h u q :
  SeqNum e1.1 <> SeqNum e2.1 -> abs_best (e1 :: e2 :: h) u q = abs_best (e2 :: e1 :: h) u q.
Proof.
  intros Hne. cbn. repeat case_decide; try done. destruct (abs_best h u q) as [b|].
  - destruct (Z.ltb_spec (SeqNum e1.1) (SeqNum b.1)) as [H1|H1], (Z.ltb_spec (SeqNum e2.1) (SeqNum b.1)) as [H2|H2];
      rewrite ?(proj2 (Z.ltb_lt _ _) H1), ?(proj2 (Z.ltb_lt _ _) H2), ?(proj2 (Z.ltb_ge _ _) H1), ?(proj2 (Z.ltb_ge _ _) H2);
      try done; destruct (Z.ltb_spec (SeqNum e1.1) (SeqNum e2.1)), (Z.ltb_spec (SeqNum e2.1) (SeqNum e1.1)); try done; lia.
  - destruct (Z.ltb_spec (SeqNum e1.1) (SeqNum e2.1)), (Z.ltb_spec (SeqNum e2.1) (SeqNum e1.1)); try done; lia.
Qed.

Lemma abs_best_middle l e h u q :
  (forall e', e' ∈ l -> SeqNum e'.1 <> SeqNum e.1) -> abs_best (l ++ e :: h) u q = abs_best (e :: l ++ h) u q.
Proof.
  induction l as [|e' l IH]; intros Hne; [done|]. cbn [app]. rewrite (abs_best_swap e e') by (intros E; by apply (Hne e'); [left|]).
  cbn [abs_best]. cbn [abs_best] in IH. rewrite IH; [done|]. intros; apply Hne; by right.
Qed.

(** The map is the versioned store read at its last sequence number. *)
Lemma store_read (ops : list batchOp) (q : Z) (h : list entry) (u : bytes) (m : store) :
  0 <= q -> q + len ops < 2^64 -> Forall (fun e => SeqNum e.1 <= q) h -> m !! u = abs_read h u q ->
  fold_left store_write ops m !! u = abs_read (versions (q + 1) ops ++ h) u (q + len ops).
Proof.
  revert q h m; induction ops as [|w ops IH]; intros q h m H0 Hq Hh Hm.
  { cbn [fold_left versions batchEntries map app]. rewrite Hm. f_equal. change (len (@nil batchOp)) with 0. lia. }
  rewrite len_cons in *. pose proof (len_nonneg ops). cbn [fold_left].
  set (e := (MakeInternalKey (bkey w) (q + 1), op_value w) : entry).
  assert (SeqNum e.1 = q + 1) as Es by (apply SeqNum_make; unfold seq_ok, MaxSeqNum; lia).
  assert (UserKey e.1 = bkey w) as Eu by apply UserKey_make.
  rewrite (IH (q + 1) (e :: h)); [|lia|lia| |].
  - replace (q + 1 + len ops) with (q + (1 + len ops)) by lia. unfold abs_read. f_equal.
    unfold versions. cbn [batchEntries map wentry Key Seq EValue]. rewrite (u64_small (q + 1)) by lia. fold e.
    assert (forall e', e' ∈ map wentry (batchEntries (q + 1 + 1) ops) -> SeqNum e'.1 <> SeqNum e.1) as Hne.
    { intros e' He'. apply versions_seq in He' as [? _]; lia. }
    apply abs_best_middle. exact Hne.
  - constructor; [lia|]. eapply Forall_impl; [exact Hh|]. cbn. lia.
  - unfold store_write, abs_read. cbn [abs_best]. rewrite Eu, Es.
    assert (abs_best h u (q + 1) = abs_best h u q) as Eb.
    { clear -Hh. induction Hh as [|x h Hx Hh IHh]; cbn; [done|]. rewrite IHh. by repeat case_decide; naive_solver lia. }
    rewrite Eb. destruct (decide (bkey w = u)) as [->|Hne].
    + rewrite decide_True by (split; [done|lia]). rewrite lookup_insert_eq.
      pose proof (abs_best_spec h u q) as Hb. destruct (abs_best h u q) as [b|]; [|done].
      destruct Hb as (_ & [_ ?] & _). by rewrite (proj2 (Z.ltb_ge _ _)) by lia.
    + rewrite decide_False by naive_solver. by rewrite lookup_insert_ne.
Qed.

(** ** Decidable conditions *)
Lemma weight_kvp es1 es2 : map kvp_of es1 = map kvp_of es2 -> weight es1 = weight es2.
Proof.
  revert es2; induction es1 as [|e1 es1 IH]; intros [|e2 es2] H; try done. injection H as Hk Hv H.
  change (e1 :: es1) with ([e1] ++ es1). change (e2 :: es2) with ([e2] ++ es2). rewrite !weight_app, (IH es2 H). f_equal.
  destruct e1 as [k1 v1], e2 as [k2 v2]. cbn in Hk, Hv. subst k2. unfold weight, encs, enc, entry_bytes. cbn [map concat fst snd].
  assert ((if Tombstone v1 then [] else sl (Data v1)) = (if Tombstone v2 then [] else sl (Data v2))) as E.
  { unfold iter_value in Hv. destruct (Tombstone v1), (Tombstone v2); first [done | by rewrite Hv | by rewrite <-Hv]. }
  rewrite E. len_lia.
Qed.

Lemma weight_sub es es' h : es ++ es' ≡ₚ h -> weight es <= weight h.
Proof.
  intros Hp. assert (weight (es ++ es') = weight h) as <-.
  { clear -Hp. induction Hp as [|e l l' _ IH|e1 e2 l|l1 l2 l3 _ IH1 _ IH2]; [done|..|congruence].
    - change (e :: l) with ([e] ++ l). change (e :: l') with ([e] ++ l'). rewrite !weight_app. lia.
    - change (e1 :: e2 :: l) with ([e1] ++ [e2] ++ l). change (e2 :: e1 :: l) with ([e2] ++ [e1] ++ l). rewrite !weight_app. lia. }
  rewrite weight_app. pose proof (weight_nonneg es'). lia.
Qed.

Lemma mem_weight m es1 es2 : mem_inv m es1 -> mem_inv m es2 -> weight es1 = weight es2.
Proof.
  intros H1 H2. apply mem_Scan_yields in H1 as (it1 & E1 & H1), H2 as (it2 & E2 & H2). rewrite E1 in E2. injection E2 as <-.
  by apply weight_kvp, (yields_inj (RLock m, it1)).
Qed.

Lemma holds_weight r es1 es2 : holds r es1 -> holds r es2 -> weight es1 = weight es2.
Proof.
  intros H1 H2. apply holds_Scan in H1 as (it1 & E1 & H1), H2 as (it2 & E2 & H2). rewrite E1 in E2. injection E2 as <-.
  by apply weight_kvp, (yields_inj (r, it1)).
Qed.

Lemma holds_len r es1 es2 : holds r es1 -> holds r es2 -> len es1 = len es2.
Proof.
  intros H1 H2. apply holds_Scan in H1 as (it1 & E1 & H1), H2 as (it2 & E2 & H2). rewrite E1 in E2. injection E2 as <-.
  pose proof (yields_inj _ _ _ H1 H2) as E. apply (f_equal length) in E. rewrite !length_map in E. unfold len. lia.
Qed.

#[global] Instance clean_cut_dec t ls : Decision (clean_cut t ls).
Proof. unfold clean_cut. repeat case_match; apply _. Defined.

Section spec.
Context (opts : Options) (coins : Z -> nat -> bool).
Context (range_tables : gmap Z SSTableInfo -> list SSTableInfo).
Context (range_hnsw : gmap bytes HNSWSnapshotInfo -> list HNSWSnapshotInfo).

(** What the theorems ask of the options. *)
Definition opts_ok : Prop := BlockSize opts <= maxBlockOffset /\ 2 <= MaxLevels (CompactionCfg opts).

(** [admissible], with the size of a table bounded by the size of all that is stored. *)
Definition admissible_b (s : sys) (h : list entry) (o : op) : bool :=
  let db := sdb s in
  let fits := weight h + 2^17 <? 2^32 in
  match o with
  | OpPut _ _ | OpDelete _ | OpBatch _ =>
      bool_decide (Forall entry_sound (written s o)) && bool_decide (keys_compat (map fst (written s o ++ h))) &&
      (nextSeq db + len (op_writes o) <? 2^64) && (nextMemID db + 1 <? 2^64)
  | OpFlush => fits
  | OpCompact =>
      match spend s with
      | None => true
      | Some t => ((InputLevel t =? 0) || bool_decide (clean_cut t (levels db))) && fits && (nextMemID db + len h <? 2^64)
      end
  | _ => true
  end.

(** Execute operations, checking each first. *)
Fixpoint checked_run (os : list op) (h : list entry) (s : sys) : option (list entry * sys) :=
  match os with
  | [] => Some (h, s)
  | o :: os =>
      if admissible_b s h o then
        match sys_step opts coins range_tables range_hnsw s o with
        | Ok s' => checked_run os (written s o ++ h) s'
        | _ => None
        end
      else None
  end.

Context (Hopts : opts_ok).
Let Hbs : BlockSize opts <= maxBlockOffset := proj1 Hopts.
Let Hlev : 2 <= MaxLevels (CompactionCfg opts) := proj2 Hopts.

Lemma admissible_b_sound s h v o : sys_inv opts s h v -> admissible_b s h o = true -> admissible s h o.
Proof using coins Hopts.
  intros Hs. destruct o as [k x|k|bops| | | | |sn]; cbn [admissible_b admissible]; try done.
  1-3: intros (((H1%bool_decide_eq_true & H2%bool_decide_eq_true)%andb_prop & H3%Z.ltb_lt)%andb_prop & H4%Z.ltb_lt)%andb_prop; done.
  - intros Hf%Z.ltb_lt mt es El Hm. destruct Hs as [Hdb _ _ _].
    pose proof (inv_imm _ _ _ _ Hdb) as Him. apply last_Some in El as [ms El]. rewrite El in Him.
    apply Forall2_app_inv_l in Him as (ei & el & _ & Hel & Ev). apply Forall2_cons_inv_l in Hel as (e1 & e2 & Hmt & Hn & ->).
    apply Forall2_nil_inv_l in Hn as ->. unfold sst_fits. rewrite (mem_weight _ _ _ Hm Hmt).
    assert (weight e1 <= weight h); [|lia].
    apply (weight_sub _ (v_act v ++ concat ei ++ concat (v_l0 v) ++ concat (concat (v_deep v)))). rewrite <-(inv_hist _ _ _ _ Hdb), v_all_eq, Ev.
    rewrite concat_app. cbn [concat]. rewrite app_nil_r.
    solve_Permutation.
  - intros Hb t Ht. rewrite Ht in Hb.
    apply andb_prop in Hb as [[Hc Hf%Z.ltb_lt]%andb_prop Hm%Z.ltb_lt].
    assert (InputLevel t <> 0 -> clean_cut t (levels (sdb s))) as Hcut.
    { intros Hne. apply orb_prop in Hc as [?%Z.eqb_eq|?%bool_decide_eq_true]; done. }
    split; [done|]. intros ess Hess.
    destruct (sys_task _ coins Hlev s h v t Hs Ht Hcut) as (ess0 & others & _ & H0 & Hp & _).
    assert (weight (concat ess) = weight (concat ess0) /\ len (concat ess) = len (concat ess0)) as [Ew En].
    { clear -Hess H0. revert ess0 H0; induction Hess as [|r es rs ess Hr Hrs IH]; intros ess0 H0; inversion H0 as [|? e0 ? l0 Hr0 Hrs0]; subst; [done|].
      destruct (IH _ Hrs0) as [E1 E2]. cbn [concat]. rewrite !weight_app, !len_app, E1, E2.
      by rewrite (holds_weight r es e0), (holds_len r es e0). }
    pose proof (weight_sub _ _ _ Hp). apply Permutation_length in Hp. rewrite length_app in Hp. unfold sst_fits, len in *. lia.
Qed.

(** The states admissible operations lead to from an empty database. *)
Definition reached (os : list op) (h : list entry) (s : sys) : Prop := run opts coins range_tables range_hnsw os h s.
Abbreviation steps := (steps opts coins range_tables range_hnsw).

Lemma checked_run_app os os' h s :
  checked_run (os ++ os') h s = '(h, s) ← checked_run os h s; checked_run os' h s.
Proof.
  revert h s; induction os as [|o os IH]; intros h s; cbn; [done|]. destruct (admissible_b s h o); [|done].
  destruct (sys_step _ _ _ _ s o); done.
Qed.

Lemma checked_run_steps os0 os h s h' s' :
  reached os0 h s -> checked_run os h s = Some (h', s') -> steps h s os h' s'.
Proof using Hopts.
  intros Hr. assert (forall os os1 h1 s1, steps h s os1 h1 s1 -> checked_run os h1 s1 = Some (h', s') -> steps h s (os1 ++ os) h' s') as H.
  { clear os. induction os as [|o os IH]; intros os1 h1 s1 Hs; cbn [checked_run].
    - intros [= <- <-]. by rewrite app_nil_r.
    - destruct (admissible_b s1 h1 o) eqn:Ea; [|done]. destruct (sys_step _ _ _ _ s1 o) as [s2| |] eqn:Es; [|done..].
      intros E. replace (os1 ++ o :: os) with ((os1 ++ [o]) ++ os) by (by rewrite <-app_assoc).
      apply (IH _ (written s1 o ++ h1) s2); [|done].
      destruct (run_inv _ _ _ _ Hbs Hlev _ _ _ Hr) as [v Hv]. destruct (steps_inv _ _ _ _ Hbs Hlev _ _ _ _ _ _ Hv Hs) as (v1 & Hv1 & _).
      eapply steps_snoc; [done|by eapply admissible_b_sound|done]. }
  intros E. apply (H os [] h s); [apply steps_nil|done].
Qed.

Lemma checked_run_sound os h' s' : checked_run os [] (init_sys opts coins range_hnsw) = Some (h', s') -> reached os h' s'.
Proof using Hopts. intros E. unfold reached, run. apply (checked_run_steps [] os [] _ _ _); [apply steps_nil|done]. Qed.

Lemma run_store os h s (u : bytes) : reached os h s -> store_run os !! u = abs_read h u (nextSeq (sdb s)).
Proof using Hopts.
  unfold reached. intros Hr. induction Hr as [|os h1 s1 o s2 Hr IH Ha E]; [done|].
  destruct (run_inv _ _ _ _ Hbs Hlev _ _ _ Hr) as [v Hv]. destruct (step_inv _ _ _ _ Hbs Hlev _ _ _ _ _ Hv Ha E) as (_ & _ & ->).
  unfold store_run in *. rewrite fold_left_app. cbn [fold_left].
  destruct (decide (op_writes o = [])) as [Hn|Hn].
  - unfold store_step, written. rewrite Hn. cbn. by rewrite Z.add_0_r.
  - apply store_read; [apply (inv_seq_range _ _ _ _ (si_db _ _ _ _ Hv))| |apply (inv_seqs _ _ _ _ (si_db _ _ _ _ Hv))|done].
    destruct o; try done; by destruct Ha as (_ & _ & Hq & _).
Qed.

(** C1: The engine implements a map.  After any admissible run of puts, deletes,
    batches, flushes, compactions (possibly interleaved with writes and flushes)
    and snapshots, [Get] of a user key compatible with the stored ones returns
    what the map gives after the writes of the run in order: the last value
    written, a tombstone if it was deleted last, nothing if it was never written. *)
Theorem db_refines_map os h s u :
  reached os h s -> key_compat u h -> Get (sdb s) u = Some (store_run os !! u).
Proof using Hopts.
  intros Hr Hc. destruct (run_inv _ _ _ _ Hbs Hlev _ _ _ Hr) as [v Hv].
  unfold Get, CurrentSeq. rewrite (getAt_abs _ _ _ _ u _ (si_db _ _ _ _ Hv) Hc). by rewrite (run_store os h s).
Qed.

(** Reads at a sequence number.  After any admissible run, a read of a user
    key at any sequence number (a snapshot's) returns the newest version written
    at or below it, wherever flushes and compactions have moved it. *)
Theorem db_reads_versions os h s u q :
  reached os h s -> key_compat u h -> getAt (sdb s) u q = Some (abs_read h u q).
Proof using Hopts.
  intros Hr Hc. destruct (run_inv _ _ _ _ Hbs Hlev _ _ _ Hr) as [v Hv].
  exact (getAt_abs _ _ _ _ u q (si_db _ _ _ _ Hv) Hc).
Qed.

(** C8: Snapshot isolation.  A read through a snapshot returns what it returned when
    the snapshot was taken, after any puts, deletes, batches, flushes, compaction
    picks, other snapshots and compactions, so long as they keep within
    [admissible]: in particular no compaction splits the versions of a user key
    between two levels.  The code does not ensure that for compactions below level
    0, and such a one changes what is read: [db_level_compaction_stale]. *)
Theorem db_snapshot_stable os h s os' h' s' u :
  reached os h s -> let sn := (GetSnapshot (sdb s)).2 in
  steps h s os' h' s' -> key_compat u h' ->
  Snapshot_Get sn (sdb s') u = Snapshot_Get sn (sdb s) u.
Proof using Hopts.
  intros Hr sn Hst Hc. destruct (run_inv _ _ _ _ Hbs Hlev _ _ _ Hr) as [v Hv].
  destruct (steps_inv _ _ _ _ Hbs Hlev _ _ _ _ _ _ Hv Hst) as (v' & Hv' & _ & new & -> & Hnew).
  apply Forall_app in Hc as Hc'. destruct Hc' as [_ Hc']. unfold Snapshot_Get.
  rewrite (getAt_abs _ _ _ _ u _ (si_db _ _ _ _ Hv') Hc), (getAt_abs _ _ _ _ u _ (si_db _ _ _ _ Hv) Hc').
  unfold abs_read. by rewrite abs_best_new.
Qed.

(** A write waits exactly on a full backlog. *)
Lemma step_waits s o :
  op_writes o <> [] -> 0 <= nextSeq (sdb s) -> nextSeq (sdb s) + 1 < 2^64 ->
  MaxImmutableCount opts <= len (immutables (sdb s)) ->
  sys_step opts coins range_tables range_hnsw s o = Err Wait.
Proof.
  intros Hw H0 H1 Hfull.
  assert (forall bops, applyBatchLocked opts coins bops (sdb s) = Err Wait) as Hx.
  { intros bops. unfold applyBatchLocked, waitForFlushSpace. by rewrite (proj2 (Z.leb_le _ _)) by lia. }
  destruct o as [k x|k|bops| | | | |sn]; cbn in Hw; try done; cbn [sys_step].
  - by rewrite Put_batch, Hx by lia.
  - by rewrite Delete_batch, Hx by lia.
  - unfold WriteBatch_Commit. cbn [DB.ops]. destruct bops as [|op bops]; [done|].
    rewrite (proj2 (Z.eqb_neq _ _)) by (rewrite len_cons; len_lia). by rewrite Hx.
Qed.

(** The engine never fails.  In any state an admissible run reaches, every
    admissible operation succeeds, except a write on a full backlog of immutable
    memtables, which waits; no operation panics or returns an error. *)
Theorem db_progress os h s o :
  reached os h s -> admissible s h o ->
  (exists s', sys_step opts coins range_tables range_hnsw s o = Ok s') \/
  op_writes o <> [] /\ MaxImmutableCount opts <= len (immutables (sdb s)) /\
    sys_step opts coins range_tables range_hnsw s o = Err Wait.
Proof using Hopts.
  intros Hr Ha. destruct (run_inv _ _ _ _ Hbs Hlev _ _ _ Hr) as [v Hv].
  destruct (decide (op_writes o <> [] /\ MaxImmutableCount opts <= len (immutables (sdb s)))) as [[Hw Hfull]|Hn].
  - right. split; [done|]. split; [done|]. apply step_waits; [done|apply (inv_seq_range _ _ _ _ (si_db _ _ _ _ Hv))| |done].
    assert (0 < len (op_writes o)) by (destruct (op_writes o); [done|rewrite len_cons; len_lia]).
    destruct o; try done; destruct Ha as (_ & _ & Ha & _); lia.
  - left. destruct (sys_step_inv _ coins range_tables range_hnsw Hbs Hlev s h v o Hv Ha) as (s' & _ & E & _); [|by exists s'].
    intros Hw. destruct (Z.lt_ge_cases (len (immutables (sdb s))) (MaxImmutableCount opts)); [done|]. by destruct Hn.
Qed.

(** The loop of [flushImmutables], one admissible flush after another. *)
Lemma flush_drains os h s n :
  reached os h s -> sst_fits h -> length (immutables (sdb s)) = n ->
  exists db', flushImmutables_loop opts range_tables range_hnsw n (sdb s) = Ok db' /\ immutables db' = [] /\
    nextSeq db' = nextSeq (sdb s) /\ nextMemID db' = nextMemID (sdb s) /\
    reached (os ++ replicate n OpFlush) h (mkSys db' (spend s)).
Proof using Hopts.
  intros Hr Hf. revert os s Hr; induction n as [|n IH]; intros os s Hr Hn.
  - exists (sdb s). apply nil_length_inv in Hn. cbn. rewrite app_nil_r. by destruct s.
  - destruct (run_inv _ _ _ _ Hbs Hlev _ _ _ Hr) as [v Hv].
    assert (admissible s h OpFlush) as Ha.
    { apply (admissible_b_sound s h v); [done|]. cbn. apply Z.ltb_lt. exact Hf. }
    cbn [flushImmutables_loop]. destruct (immutables (sdb s)) as [|m0 ms] eqn:Em; [done|]. rewrite <-Em in Hn.
    destruct (last (immutables (sdb s))) as [mt|] eqn:El; [|apply last_None in El; congruence].
    destruct (sys_flush _ range_tables range_hnsw Hbs s h v mt Hv El) as (db1 & v1 & E & Hi & Hq & Hmid & Hlen); [intros es; by apply Ha|].
    destruct (IH (os ++ [OpFlush]) (mkSys db1 (spend s))) as (db' & E' & Him & Hq' & Hm' & Hr'); [|cbn; lia|].
    { eapply (steps_snoc _ _ _ _ _ _ os h s OpFlush); [done|done|]. cbn. by rewrite E. }
    exists db'. rewrite E. cbn [mbind outcome_bind]. split; [done|]. split; [done|]. cbn in *.
    split; [congruence|]. split; [congruence|]. by rewrite <-app_assoc in Hr'.
Qed.

(** Flushing terminates.  The flush loop ends with no immutable memtable left
    after exactly as many flushes as there were, when what is stored fits a table. *)
Theorem db_flush_drains os h s :
  reached os h s -> sst_fits h ->
  exists db', flushImmutables opts range_tables range_hnsw (sdb s) = Ok db' /\ immutables db' = [] /\
    reached (os ++ replicate (length (immutables (sdb s))) OpFlush) h (mkSys db' (spend s)).
Proof using Hopts.
  intros Hr Hf. destruct (flush_drains os h s _ Hr Hf eq_refl) as (db' & E & Hi & _ & _ & Hr'). by exists db'.
Qed.

(** C25: Waiting writes get through.  A write that the backlog makes wait succeeds
    once the flush loop has run, if the backlog may hold a memtable at all. *)
Theorem db_write_unblocked os h s o :
  reached os h s -> sst_fits h -> 0 < MaxImmutableCount opts -> admissible s h o -> op_writes o <> [] ->
  exists db' s', flushImmutables opts range_tables range_hnsw (sdb s) = Ok db' /\
    sys_step opts coins range_tables range_hnsw (mkSys db' (spend s)) o = Ok s'.
Proof using Hopts.
  intros Hr Hf Hmax Ha Hw. destruct (flush_drains os h s _ Hr Hf eq_refl) as (db' & E & Hi & Hq & Hm & Hr').
  destruct (run_inv _ _ _ _ Hbs Hlev _ _ _ Hr') as [v Hv].
  destruct (sys_step_inv _ coins range_tables range_hnsw Hbs Hlev _ h v o Hv) as (s' & _ & E' & _); [| |by exists db', s'].
  - destruct o; try done; unfold admissible, written in *; cbn [sdb]; by rewrite Hq, Hm.
  - intros _. cbn [sdb]. rewrite Hi. exact Hmax.
Qed.
End spec.

(** ** Small runs *)

(** A memtable is full with its first entry, two tables trigger a compaction of L0. *)
Definition demo_opts : Options := mkOptions 1 4096 2 (mkConfig 2 1000 10 3).
Definition demo_coins (_ : Z) (i : nat) : bool := Nat.even i.
Definition demo_range : gmap Z SSTableInfo -> list SSTableInfo := fun m => map snd (map_to_list m).
Definition demo_hnsw : gmap bytes HNSWSnapshotInfo -> list HNSWSnapshotInfo := fun m => map snd (map_to_list m).

Definition demo_ops : list op :=
  [OpPut [Byte.x61] (Some [Byte.x31]); OpPut [Byte.x62] (Some []); OpFlush; OpFlush; OpPick;
   OpBatch [mkOp [Byte.x61] (Some [Byte.x32]) false; mkOp [Byte.x62] None true]; OpSnapshot; OpCompact; OpPut [Byte.x61] (Some [Byte.x33])].

Definition demo_run (os : list op) : list entry * sys :=
  default ([], init_sys demo_opts demo_coins demo_hnsw)
    (checked_run demo_opts demo_coins demo_range demo_hnsw os [] (init_sys demo_opts demo_coins demo_hnsw)).

Lemma demo_opts_ok : opts_ok demo_opts.
Proof. split; vm_compute; discriminate. Qed.

Lemma demo_run_ok os :
  is_Some (checked_run demo_opts demo_coins demo_range demo_hnsw os [] (init_sys demo_opts demo_coins demo_hnsw)) ->
  reached demo_opts demo_coins demo_range demo_hnsw os (demo_run os).1 (demo_run os).2.
Proof.
  intros [[h s] E]. unfold demo_run. rewrite E. by apply (checked_run_sound _ _ _ _ demo_opts_ok).
Qed.

(** A run continued. *)
Lemma demo_run_split os n :
  is_Some (checked_run demo_opts demo_coins demo_range demo_hnsw os [] (init_sys demo_opts demo_coins demo_hnsw)) ->
  is_Some (checked_run demo_opts demo_coins demo_range demo_hnsw (take n os) [] (init_sys demo_opts demo_coins demo_hnsw)) ->
  steps demo_opts demo_coins demo_range demo_hnsw (demo_run (take n os)).1 (demo_run (take n os)).2 (drop n os)
    (demo_run os).1 (demo_run os).2.
Proof.
  intros [[h s] E] [[h1 s1] E1]. unfold demo_run. rewrite E, E1. cbn.
  rewrite <-(take_drop n os), checked_run_app, E1 in E. cbn in E.
  apply (checked_run_steps _ _ _ _ demo_opts_ok (take n os)); [|done]. by apply (checked_run_sound _ _ _ _ demo_opts_ok).
Qed.

Lemma demo_ops_run : reached demo_opts demo_coins demo_range demo_hnsw demo_ops (demo_run demo_ops).1 (demo_run demo_ops).2.
Proof. apply demo_run_ok. apply (bool_decide_unpack _). vm_compute. exact I. Qed.

Abbreviation demo_db os := (sdb (demo_run os).2).

(** The compaction of the run has moved both tables to L1. *)
Example demo_levels : l0 (demo_db demo_ops) = [] /\ map length (levels (demo_db demo_ops)) = [0; 1; 0]%nat.
Proof. vm_compute. done. Qed.

Lemma db_refines_map_witness :
  Get (demo_db demo_ops) [Byte.x61] = Some (store_run demo_ops !! [Byte.x61]).
Proof.
  apply (db_refines_map demo_opts demo_coins demo_range demo_hnsw demo_opts_ok demo_ops (demo_run demo_ops).1); [apply demo_ops_run|by_decide].
Defined.

Lemma db_reads_versions_witness :
  getAt (demo_db demo_ops) [Byte.x62] 3 = Some (abs_read (demo_run demo_ops).1 [Byte.x62] 3).
Proof.
  apply (db_reads_versions demo_opts demo_coins demo_range demo_hnsw demo_opts_ok demo_ops (demo_run demo_ops).1); [apply demo_ops_run|by_decide].
Defined.

(** The snapshot is taken with a compaction in progress; the compaction and an
    overwrite follow. *)
Lemma db_snapshot_stable_witness :
  Snapshot_Get (GetSnapshot (demo_db (take 6 demo_ops))).2 (demo_db demo_ops) [Byte.x61] =
  Snapshot_Get (GetSnapshot (demo_db (take 6 demo_ops))).2 (demo_db (take 6 demo_ops)) [Byte.x61].
Proof.
  apply (db_snapshot_stable demo_opts demo_coins demo_range demo_hnsw demo_opts_ok (take 6 demo_ops) (demo_run (take 6 demo_ops)).1
           (demo_run (take 6 demo_ops)).2 (drop 6 demo_ops) (demo_run demo_ops).1 (demo_run demo_ops).2).
  - apply demo_run_ok. by_decide.
  - apply demo_run_split; by_decide.
  - by_decide.
Defined.

Lemma db_progress_witness :
  (exists s', sys_step demo_opts demo_coins demo_range demo_hnsw (demo_run demo_ops).2 (OpDelete [Byte.x62]) = Ok s') \/
  op_writes (OpDelete [Byte.x62]) <> [] /\ MaxImmutableCount demo_opts <= len (immutables (demo_db demo_ops)) /\
    sys_step demo_opts demo_coins demo_range demo_hnsw (demo_run demo_ops).2 (OpDelete [Byte.x62]) = Err Wait.
Proof.
  apply (db_progress demo_opts demo_coins demo_range demo_hnsw demo_opts_ok demo_ops (demo_run demo_ops).1); [apply demo_ops_run|].
  cbn [admissible]. split; [by_decide|]. split; [by_decide|]. by_decide.
Defined.

Lemma db_flush_drains_witness :
  exists db', flushImmutables demo_opts demo_range demo_hnsw (demo_db demo_ops) = Ok db' /\ immutables db' = [] /\
    reached demo_opts demo_coins demo_range demo_hnsw
      (demo_ops ++ replicate (length (immutables (demo_db demo_ops))) OpFlush) (demo_run demo_ops).1
      (mkSys db' (spend (demo_run demo_ops).2)).
Proof.
  apply (db_flush_drains demo_opts demo_coins demo_range demo_hnsw demo_opts_ok demo_ops); [apply demo_ops_run|vm_compute; done].
Defined.

Lemma db_write_unblocked_witness :
  exists db' s', flushImmutables demo_opts demo_range demo_hnsw (demo_db demo_ops) = Ok db' /\
    sys_step demo_opts demo_coins demo_range demo_hnsw (mkSys db' (spend (demo_run demo_ops).2)) (OpDelete [Byte.x62]) = Ok s'.
Proof.
  apply (db_write_unblocked demo_opts demo_coins demo_range demo_hnsw demo_opts_ok demo_ops (demo_run demo_ops).1); [apply demo_ops_run|vm_compute; done|done| |done].
  cbn [admissible]. split; [by_decide|]. split; [by_decide|]. by_decide.
Defined.

(** ** A level task that splits a user key *)

(** Operations without the checks. *)
Fixpoint plain_run (opts : Options) (os : list op) (s : sys) : outcome DbErr sys :=
  match os with
  | [] => Ok s
  | o :: os => s ← sys_step opts demo_coins demo_range demo_hnsw s o; plain_run opts os s
  end.

(** Tables of one entry: the target size of a compaction's outputs is a tenth of
    [LevelSizeBase]. *)
Definition split_opts : Options := mkOptions 1 4096 5 (mkConfig 2 10 10 4).
Definition split_ops : list op :=
  [OpPut [Byte.x61] (Some [Byte.x31]); OpPut [Byte.x61] (Some [Byte.x32]); OpFlush; OpFlush;
   OpPick; OpCompact; OpPick; OpCompact].

(** A level compaction can bring an overwritten value back.  The picker moves
    the first table of a level down; when the versions of a user key continue in the
    level's next table, the newer ones end below the older ones, and a read, which
    stops at the first level with a version, returns the older.  Here two puts of
    one key, two flushes and two compactions leave [Get] with the first value. *)
Lemma db_level_compaction_stale :
  exists s, plain_run split_opts split_ops (init_sys split_opts demo_coins demo_hnsw) = Ok s /\
    map length (levels (sdb s)) = [0; 1; 1; 0]%nat /\
    Get (sdb s) [Byte.x61] = Some (Some (NewValue (Some [Byte.x31]))) /\
    store_run split_ops !! [Byte.x61] = Some (NewValue (Some [Byte.x32])).
Proof.
  destruct (plain_run split_opts split_ops (init_sys split_opts demo_coins demo_hnsw)) as [s|e|] eqn:E; [|vm_compute in E; discriminate E..].
  exists s. split; [done|].
  assert (forall P : sys -> Prop, (match plain_run split_opts split_ops (init_sys split_opts demo_coins demo_hnsw) with
    Ok s => P s | _ => True end) -> P s) as H by (intros P; by rewrite E).
  split; [|split]; [apply H; vm_compute; reflexivity..|vm_compute; reflexivity].
Qed.
