(* ===== verification/DBScan.v ===== *)
(** * Scans of the engine (src/db/read.go, snapshot.go)

    A scan merges one iterator per memtable and table and filters the merge at a
    sequence number.  Over the invariant of [DBProof] it yields, in key order,
    exactly the newest version of every user key of the range that is visible
    there.  [prefixSuccessor] gives the range of a prefix scan. *)

From Stdlib Require Import ZArith Lia List Sorted.
From stdpp Require Import base list option gmap sorting.
From S2P Require Import Prelude GoBytes KV Entries WAL Iter SkipList Memtable Iterators Block SSTable SSTIter.
From S2P Require Import Manifest Compaction Refcount Registry DB DBProof DBSpec.

(** What a source shows of the entries that satisfy [P]. *)
Abbreviation shows P := (fun es => map kvp_of (filter P es)).

Lemma filter_all (es : list entry) : filter (fun _ => True) es = es.
Proof. induction es as [|e es IH]; [done|]. rewrite filter_cons_True by done. by rewrite IH. Qed.

Lemma concat_filter (P : entry -> Prop) `{!forall e, Decision (P e)} (ess : list (list entry)) :
  concat (map (fun es => filter P es) ess) = filter P (concat ess).
Proof. induction ess as [|es ess IH]; cbn; [done|]. by rewrite filter_app, IH. Qed.

(** Opening the iterators of a list of sources. *)
Lemma mapM_yields {A I} `{!Iterator SstErr I} (R : A -> list entry -> Prop) (f : A -> option I) (P : entry -> Prop)
    `{!forall e, Decision (P e)} xs ess :
  (forall x es, x ∈ xs -> es ∈ ess -> R x es -> exists it, f x = Some it /\ yields (E := SstErr) it (shows P es)) ->
  Forall2 R xs ess -> exists its, mapM f xs = Some its /\ Forall2 (yields (E := SstErr)) its (map (shows P) ess).
Proof.
  intros Hf. induction 1 as [|x es xs ess Hx Hxs IH]; [by exists []|].
  destruct (Hf x es) as (it & E & Hy); [by left|by left|done|].
  destruct IH as (its & E' & Hys); [intros; apply Hf; by (try right)|].
  exists (it :: its). cbn. rewrite E. cbn. rewrite E'. split; [done|]. by constructor.
Qed.

Lemma mem_counts ms ess :
  Forall2 mem_inv ms ess -> sum_list_with (fun m => Z.to_nat (Memtable.Len m)) ms = length (concat ess).
Proof.
  induction 1 as [|m es ms ess Hm Hms IH]; cbn [sum_list_with concat]; [done|].
  rewrite length_app, IH, (mem_Len _ _ Hm). unfold len. lia.
Qed.

Lemma StronglySorted_sublist {A} (R : A -> A -> Prop) l1 l2 :
  l1 `sublist_of` l2 -> StronglySorted R l2 -> StronglySorted R l1.
Proof.
  induction 1 as [|x l1 l2 Hl IH|x l1 l2 Hl IH]; intros Hs; [constructor|..]; apply StronglySorted_inv in Hs as [Hs Hx]; [|auto].
  constructor; [auto|]. rewrite Forall_forall in Hx |- *. intros y Hy. apply Hx. eapply elem_of_submseteq; [done|by apply sublist_submseteq].
Qed.

(** No empty user key was written. *)
Definition nonempty_keys (h : list entry) : Prop := forall e, e ∈ h -> UserKey e.1 <> [].

Section scan.
Context (db : DB) (pend : option CompactionTask) (hist : list entry) (v : view) (Hi : db_inv db pend hist v).

Definition scan_srcs : list (list entry) := (v_act v :: v_imm v) ++ v_l0 v ++ concat (v_deep v).

Lemma scan_srcs_hist : concat scan_srcs ≡ₚ hist.
Proof using Hi. rewrite <-(inv_hist _ _ _ _ Hi), v_all_eq. unfold scan_srcs. rewrite !concat_app. cbn. by rewrite <-app_assoc. Qed.

Lemma scan_mems : Forall2 mem_inv (active db :: immutables db) (v_act v :: v_imm v).
Proof using Hi. constructor; [apply (inv_active _ _ _ _ Hi)|apply (inv_imm _ _ _ _ Hi)]. Qed.
Lemma scan_tabs : Forall2 holds (l0 db ++ concat (drop 1 (levels db))) (v_l0 v ++ concat (v_deep v)).
Proof using Hi. apply Forall2_app; [apply (inv_l0 _ _ _ _ Hi)|by eapply deep_holds]. Qed.

Lemma scan_srcs_sorted : Forall ksorted scan_srcs.
Proof using Hi.
  assert (forall {A} (R : A -> list entry -> Prop) xs ess, (forall x es, R x es -> ksorted es) -> Forall2 R xs ess -> Forall ksorted ess) as H
    by (intros A R xs ess HR; induction 1; constructor; eauto).
  apply Forall_app. split.
  - eapply H; [|apply scan_mems]. intros m es. apply mem_sorted.
  - eapply H; [|apply scan_tabs]. intros r es. apply holds_sorted.
Qed.

Lemma scan_total : total_entries db = length hist.
Proof using Hi.
  rewrite <-(Permutation_length scan_srcs_hist). unfold total_entries, scan_srcs. rewrite (sum_counts _ _ scan_tabs), (mem_counts _ _ scan_mems).
  by rewrite (concat_app (v_act v :: v_imm v)), length_app.
Qed.

Lemma hist_nodup_shows (P : entry -> Prop) `{!forall e, Decision (P e)} : NoDup (map fst (shows P hist)).
Proof using Hi.
  pose proof (inv_nodup _ _ _ _ Hi) as Hnd. cbn beta. rewrite map_map. cbn. eapply sublist_NoDup; [exact Hnd|].
  apply (fmap_sublist fst). apply sublist_filter.
Qed.

(** The merge of the sources. *)
Lemma scan_merge (P : entry -> Prop) `{!forall e, Decision (P e)} (mems : list (Memtable * memtableIterator))
    (tabs : list (Reader * SSTableIterator)) :
  Forall2 (yields (E := SstErr)) mems (map (shows P) (v_act v :: v_imm v)) ->
  Forall2 (yields (E := SstErr)) tabs (map (shows P) (v_l0 v ++ concat (v_deep v))) ->
  exists m l, NewMergeIterator (map inl mems ++ map inr tabs) = Some m /\ yields (E := SstErr) m l /\
    l ≡ₚ shows P hist /\ kvp_sorted l.
Proof using Hi.
  intros Hm Ht.
  assert (Forall2 (yields (E := SstErr)) (map inl mems ++ map inr tabs : list src_iter) (map (shows P) scan_srcs)) as Hy.
  { unfold scan_srcs. rewrite map_app. apply Forall2_app.
    - clear -Hm. induction Hm; cbn; constructor; [by apply yields_inl|done].
    - clear -Ht. induction Ht; cbn; constructor; [by apply yields_inr|done]. }
  destruct (merge_yields _ _ Hy) as (m & l & E & Hl & Hp & Hs).
  { apply Forall_map. eapply Forall_impl; [apply scan_srcs_sorted|]. intros es He. by apply kvp_sorted_le, kvp_sorted_map, ksorted_filter. }
  exists m, l. split; [done|]. split; [done|].
  assert (l ≡ₚ shows P hist) as Hp'.
  { rewrite Hp, <-scan_srcs_hist, <-concat_filter, concat_map, map_map. done. }
  split; [done|]. apply sorted_strict; [done|]. rewrite Hp'. apply hist_nodup_shows.
Qed.

(** The filter at a sequence number over the merge; [P] looks at user keys. *)
Lemma scan_filter (P : bytes -> Prop) `{!forall u, Decision (P u)} (m : raw_iter) l q :
  yields (E := SstErr) m l -> l ≡ₚ shows (fun e => P (UserKey e.1)) hist -> kvp_sorted l ->
  nonempty_keys hist ->
  exists s out, NewSnapshotIterator (E := SstErr) (total_entries db) m q = Some s /\
    yields (Iterator0 := snapshot_iterator (total_entries db)) s out /\ kvp_sorted out /\
    forall e, e ∈ out <-> P (UserKey e.1) /\ newest_visible q (map kvp_of hist) e.
Proof using Hi.
  intros Hy Hp Hs Hne.
  assert (forall e, e ∈ l <-> exists x, e = kvp_of x /\ P (UserKey x.1) /\ x ∈ hist) as Hl.
  { intros e. rewrite Hp. split.
    - intros (x & -> & Hx)%list_elem_of_fmap. apply list_elem_of_filter in Hx as [? ?]. eauto.
    - intros (x & -> & Hx & Hin). apply list_elem_of_fmap. exists x. split; [done|]. by apply list_elem_of_filter. }
  destruct (NewSnapshotIterator_yields (E := SstErr) (total_entries db) m l q Hy) as (s & Es & Hys).
  { rewrite scan_total, (Permutation_length Hp), length_map. apply sublist_length, sublist_filter. }
  exists s, (snap None q l). split; [done|]. split; [done|]. split.
  { eapply StronglySorted_sublist; [apply snap_sublist|done]. }
  intros e. rewrite snap_spec; [|done|..|done].
  - unfold newest_visible. rewrite Hl. split.
    + intros [((x & -> & Hx & Hin) & Hq & Hmax) _]. cbn in *. split; [done|]. split; [apply list_elem_of_fmap; eauto|]. split; [done|].
      intros e' (y & -> & Hy')%list_elem_of_fmap E' Hq'. cbn in *. apply (Hmax (kvp_of y)); [|done|done].
      apply Hl. exists y. by rewrite E'.
    + intros (HP & (x & -> & Hx)%list_elem_of_fmap & Hq & Hmax). split; [|done]. split; [eauto|]. split; [done|].
      intros e' (y & -> & HPy & Hy')%Hl. apply Hmax, list_elem_of_fmap. eauto.
  - apply Forall_forall. intros e' (x & -> & _ & Hx)%Hl. pose proof (inv_ikeys _ _ _ _ Hi) as Hk.
    unfold ikeys_ok in Hk. rewrite Forall_forall in Hk. by apply (Hk x).
  - apply keys_compat_spec. pose proof (inv_compat _ _ _ _ Hi) as Hc. rewrite keys_compat_spec in Hc.
    intros a b (e1 & -> & (x & -> & _ & Hx)%Hl)%list_elem_of_fmap (e2 & -> & (y & -> & _ & Hy')%Hl)%list_elem_of_fmap.
    apply Hc; apply list_elem_of_fmap; eauto.
  - intros e' (x & -> & _ & Hx)%Hl. by apply (Hne x).
Qed.

Lemma scanAt_ok q :
  nonempty_keys hist ->
  exists db' s out, scanAt db q = Some (db', s) /\
    yields (Iterator0 := snapshot_iterator (total_entries db)) s out /\ kvp_sorted out /\
    forall e, e ∈ out <-> newest_visible q (map kvp_of hist) e.
Proof using Hi.
  intros Hne.
  destruct (mapM_yields mem_inv Memtable.Scan (fun _ => True) (active db :: immutables db) (v_act v :: v_imm v)) as (mems & Em & Hm); [|apply scan_mems|].
  { intros m es _ _ H. rewrite filter_all. destruct (mem_Scan_yields m es H) as (it & ? & ?). eauto. }
  destruct (mapM_yields holds (fun r => pair r <$> Reader_Scan r) (fun _ => True)
              (l0 db ++ concat (drop 1 (levels db))) (v_l0 v ++ concat (v_deep v))) as (tabs & Et & Ht); [|apply scan_tabs|].
  { intros r es _ _ H. rewrite filter_all. destruct (holds_Scan r es H) as (it & -> & Hy). eauto. }
  destruct (scan_merge (fun _ => True) mems tabs Hm Ht) as (m & l & E & Hl & Hp & Hs).
  destruct (scan_filter (fun _ => True) m l q Hl Hp Hs Hne) as (s & out & Es & Hy & Hso & Hout).
  exists (rlock_all db), s, out. unfold scanAt, rawScan. rewrite Em. cbn [mbind option_bind]. rewrite Et. cbn [mbind option_bind].
  rewrite E. cbn [mbind option_bind snd fst]. rewrite Es. split; [done|]. split; [done|]. split; [done|].
  intros e. rewrite Hout. tauto.
Qed.

(** No stored user key is a proper prefix of a bound. *)
Definition bounds_ok (st en : option bytes) (es : list entry) : Prop :=
  forall u, st = Some u \/ en = Some u -> bound_compat u es.

Lemma bounds_src st en es : bounds_ok st en hist -> es ∈ scan_srcs -> bounds_ok st en es.
Proof using Hi.
  intros Hb Hes u Hu. specialize (Hb u Hu). unfold bound_compat in *. rewrite Forall_forall in Hb |- *. intros e He. apply Hb.
  rewrite <-scan_srcs_hist. apply list_elem_of_In, in_concat. exists es. split; by apply list_elem_of_In.
Qed.

Lemma scanRangeAt_ok st en q :
  nonempty_keys hist -> bounds_ok st en hist -> levels db <> [] ->
  exists db' s out, scanRangeAt st en db q = Some (db', s) /\
    yields (Iterator0 := snapshot_iterator (total_entries db)) s out /\ kvp_sorted out /\
    forall e, e ∈ out <-> in_range st en (UserKey e.1) /\ newest_visible q (map kvp_of hist) e.
Proof using Hi.
  intros Hne Hb Hlv.
  destruct (mapM_yields mem_inv (fun m => Memtable.ScanRange m st en) (fun e => in_range st en (UserKey e.1))
              (active db :: immutables db) (v_act v :: v_imm v)) as (mems & Em & Hm); [|apply scan_mems|].
  { intros m es _ Hes [Hs Hso Hik]. destruct (SkipList.ScanRange_yields (E := SstErr) (slist m) es st en Hs) as (it & E & Hy).
    exists (RLock m, mkMI it true). unfold Memtable.ScanRange. rewrite E. split; [done|].
    rewrite range_filter in Hy; [by apply mem_open_yields, mi_yields|done|done|].
    apply bounds_src; [done|]. apply elem_of_app. by left. }
  destruct (mapM_yields holds (fun r => pair r <$> Reader_ScanRange r st en) (fun e => in_range st en (UserKey e.1))
              (l0 db ++ concat (drop 1 (levels db))) (v_l0 v ++ concat (v_deep v))) as (tabs & Et & Ht); [|apply scan_tabs|].
  { intros r es _ Hes Hr. pose proof (holds_sorted _ _ Hr) as Hso. pose proof (holds_ikeys _ _ Hr) as Hik.
    destruct (holds_rep _ _ Hr) as (bss & Hb' & <-). destruct (Reader_ScanRange_yields r bss Hb' st en) as (it & E & Hy).
    exists (r, it). rewrite E. split; [done|]. rewrite range_filter in Hy; [by apply open_yields|done|done|].
    apply bounds_src; [done|]. apply elem_of_app. by right. }
  destruct (scan_merge _ mems tabs Hm Ht) as (m & l & E & Hl & Hp & Hs).
  destruct (scan_filter (in_range st en) m l q Hl Hp Hs Hne) as (s & out & Es & Hy & Hso & Hout).
  exists (rlock_all db), s, out. unfold scanRangeAt, rawScanRange. rewrite Em. cbn [mbind option_bind].
  destruct (levels db) as [|lv0 lvs]; [done|]. cbn [drop] in Et. rewrite drop_0 in Et. rewrite Et. cbn [mbind option_bind].
  rewrite E. cbn [mbind option_bind snd fst]. rewrite Es. done.
Qed.
End scan.

(** ** The range of a prefix *)

(** The reversed loop: the last byte below 0xFF is incremented, the rest dropped. *)
Lemma prefixSuccessor_split p :
  match prefixSuccessor p with
  | None => Forall (fun b => bZ b = 255) p
  | Some s => exists pre b rest, p = pre ++ b :: rest /\ bZ b < 255 /\ s = pre ++ [Zb (bZ b + 1)] /\ Forall (fun b => bZ b = 255) rest
  end.
Proof.
  unfold prefixSuccessor. rewrite <-(reverse_involutive p). generalize (reverse p) as r. clear p. intros r.
  rewrite reverse_involutive. induction r as [|b r IH]; cbn [prefixSuccessor_loop]; [constructor|].
  pose proof (bZ_range b). destruct (Z.ltb_spec (bZ b) 255).
  - cbn [fmap option_fmap option_map]. exists (reverse r), b, []. rewrite !reverse_cons. done.
  - destruct (prefixSuccessor_loop r) as [s|]; cbn [fmap option_fmap option_map] in *; rewrite reverse_cons.
    + destruct IH as (pre & b' & rest & -> & Hb & -> & Hrest). exists pre, b', (rest ++ [b]).
      split; [by rewrite <-app_assoc|]. split; [done|]. split; [done|]. apply Forall_app. split; [done|]. constructor; [lia|done].
    + apply Forall_app. split; [done|]. constructor; [lia|done].
Qed.

Lemma ble_cons a x b y : ble (a :: x) (b :: y) <-> bZ a < bZ b \/ (a = b /\ ble x y).
Proof.
  unfold ble. cbn. destruct (Z.compare_spec (bZ a) (bZ b)) as [E|E|E].
  - apply bZ_inj in E as ->. split; [by right|]. intros [?|[_ ?]]; [lia|done].
  - split; [by left|done].
  - split; [done|]. intros [?|[-> _]]; lia.
Qed.
Lemma blt_cons a x b y : blt (a :: x) (b :: y) <-> bZ a < bZ b \/ (a = b /\ blt x y).
Proof.
  unfold blt. cbn. destruct (Z.compare_spec (bZ a) (bZ b)) as [E|E|E].
  - apply bZ_inj in E as ->. split; [by right|]. intros [?|[_ ?]]; [lia|done].
  - split; [by left|done].
  - split; [done|]. intros [?|[-> _]]; lia.
Qed.

Lemma ble_all_ff p u : Forall (fun b => bZ b = 255) p -> ble p u -> p `prefix_of` u.
Proof.
  intros Hp. revert u; induction Hp as [|b p Hb Hp IH]; intros u Hle; [apply prefix_nil|].
  destruct u as [|c u]; [done|]. pose proof (bZ_range c). apply ble_cons in Hle as [?|[-> Hle]]; [lia|]. by apply prefix_cons, IH.
Qed.

Lemma prefix_range p u : in_range (Some p) (prefixSuccessor p) u <-> p `prefix_of` u.
Proof.
  pose proof (prefixSuccessor_split p) as Hs. unfold in_range. destruct (prefixSuccessor p) as [s|].
  - destruct Hs as (pre & b & rest & -> & Hb & -> & Hrest). pose proof (bZ_range b).
    assert (bZ (Zb (bZ b + 1)) = bZ b + 1) as Eb by (rewrite bZ_Zb; unfold u8; apply Z.mod_small; lia). split.
    + revert u; induction pre as [|a pre IH]; intros [|c u] [Hle Hlt]; try done; cbn in Hle, Hlt.
      * apply ble_cons in Hle as [Hle|[<- Hle]].
        -- apply blt_cons in Hlt as [Hlt|[_ Hlt]]; [lia|by destruct u].
        -- by apply prefix_cons, ble_all_ff.
      * apply ble_cons in Hle as [Hle|[<- Hle]].
        -- apply blt_cons in Hlt as [Hlt|[-> Hlt]]; lia.
        -- apply blt_cons in Hlt as [Hlt|[_ Hlt]]; [lia|]. apply prefix_cons, IH. done.
    + intros [x ->]. split; [by apply prefix_ble, prefix_app_r|]. rewrite <-app_assoc. apply blt_first_byte. lia.
  - split; [intros [? _]; by apply ble_all_ff|]. intros Hp. split; [by apply prefix_ble|done].
Qed.

(** ** Claims *)
Section claims.
Context (opts : Options) (coins : Z -> nat -> bool).
Context (range_tables : gmap Z SSTableInfo -> list SSTableInfo).
Context (range_hnsw : gmap bytes HNSWSnapshotInfo -> list HNSWSnapshotInfo).
Context (Hopts : opts_ok opts).

Lemma run_db os h s :
  reached opts coins range_tables range_hnsw os h s -> exists v, db_inv (sdb s) (spend s) h v /\ levels (sdb s) <> [].
Proof using Hopts.
  intros Hr. destruct Hopts as [H1 H2]. destruct (run_inv _ _ _ _ H1 H2 _ _ _ Hr) as [v Hv]. exists v. split; [by destruct Hv|].
  pose proof (si_levels _ _ _ _ Hv) as Hl. intros E. rewrite E in Hl. cbn in Hl. lia.
Qed.

(** C9: Scans.  After any admissible run in which no empty user key was written,
    a scan at sequence number [q] ends without error and yields, in key order,
    exactly the newest version at or below [q] of every user key of the history
    (a tombstone shows as a nil value). *)
Theorem db_scan_exact os h s q :
  reached opts coins range_tables range_hnsw os h s -> nonempty_keys h ->
  exists db' it out, scanAt (sdb s) q = Some (db', it) /\
    yields (Iterator0 := snapshot_iterator (total_entries (sdb s))) it out /\ kvp_sorted out /\
    forall e, e ∈ out <-> newest_visible q (map kvp_of h) e.
Proof using Hopts.
  intros Hr Hne. destruct (run_db os h s Hr) as (v & Hv & _). exact (scanAt_ok _ _ _ _ Hv q Hne).
Qed.

(** Prefix scans.  [ScanPrefix] of a prefix yields in key order exactly the newest versions of
    the user keys that start with the prefix, also when the prefix is empty or all
    0xFF bytes; no stored user key is empty or a proper prefix of the two bounds. *)
Theorem db_scan_prefix os h s p :
  reached opts coins range_tables range_hnsw os h s -> nonempty_keys h ->
  bounds_ok (Some p) (prefixSuccessor p) h ->
  exists db' it out, ScanPrefix p (sdb s) = Some (db', it) /\
    yields (Iterator0 := snapshot_iterator (total_entries (sdb s))) it out /\ kvp_sorted out /\
    forall e, e ∈ out <-> p `prefix_of` UserKey e.1 /\ newest_visible (nextSeq (sdb s)) (map kvp_of h) e.
Proof using Hopts.
  intros Hr Hne Hb. destruct (run_db os h s Hr) as (v & Hv & Hlv).
  destruct (scanRangeAt_ok _ _ _ _ Hv (Some p) (prefixSuccessor p) (CurrentSeq (sdb s)) Hne Hb Hlv) as (db' & it & out & E & Hy & Hs & Hout).
  exists db', it, out. split; [done|]. split; [done|]. split; [done|]. intros e. rewrite Hout, prefix_range. done.
Qed.
End claims.

Ltac by_nonempty := unfold nonempty_keys; apply Forall_forall; by_decide.

Lemma db_scan_exact_witness :
  exists db' it out, scanAt (demo_db demo_ops) 3 = Some (db', it) /\
    yields (Iterator0 := snapshot_iterator (total_entries (demo_db demo_ops))) it out /\ kvp_sorted out /\
    forall e, e ∈ out <-> newest_visible 3 (map kvp_of (demo_run demo_ops).1) e.
Proof.
  apply (db_scan_exact demo_opts demo_coins demo_range demo_hnsw demo_opts_ok demo_ops (demo_run demo_ops).1); [apply demo_ops_run|].
  by_nonempty.
Defined.

Lemma db_scan_prefix_witness :
  exists db' it out, ScanPrefix [Byte.x61] (demo_db demo_ops) = Some (db', it) /\
    yields (Iterator0 := snapshot_iterator (total_entries (demo_db demo_ops))) it out /\ kvp_sorted out /\
    forall e, e ∈ out <-> [Byte.x61] `prefix_of` UserKey e.1 /\
      newest_visible (nextSeq (demo_db demo_ops)) (map kvp_of (demo_run demo_ops).1) e.
Proof.
  apply (db_scan_prefix demo_opts demo_coins demo_range demo_hnsw demo_opts_ok demo_ops (demo_run demo_ops).1); [apply demo_ops_run|..].
  - by_nonempty.
  - intros u [[= <-]|[= <-]]; by_decide.
Defined.
