(* ===== verification/Transaction.v ===== *)
(** * Transactions (src/db/transaction.go)

    A transaction reads from a snapshot and buffers its writes; [Commit] looks for
    newer versions of the written keys in the memtables and applies the buffer as
    one batch.  [range_writes] is the iteration order of the Go map of buffered
    writes.  [Commit] holds [db.mu] except while it waits for flush space, which
    happens after the conflict check: [Err Wait] is that point, and
    [Commit_resume] is what runs when the wait ends. *)

From Stdlib Require Import ZArith Lia List Sorted.
From stdpp Require Import base list option gmap sorting.
From S2P Require Import Prelude GoBytes KV Entries WAL Iter SkipList Memtable Iterators Block SSTable SSTIter.
From S2P Require Import Manifest Compaction Refcount Registry DB DBProof DBSpec.

Record Transaction := mkTx {
  tx_snapshot : Snapshot;
  writes : gmap bytes Value;
  tx_closed : bool
}.

Definition BeginTransaction (db : DB) : DB * Transaction :=
  let '(db, sn) := GetSnapshot db in (db, mkTx sn ∅ false).

Definition tx_Get (tx : Transaction) (db : DB) (key : bytes) : option (option Value) :=
  match writes tx !! key with
  | Some w => if Tombstone w then Some None else Some (Some w)
  | None => Snapshot_Get (tx_snapshot tx) db key
  end.

Definition tx_Put (tx : Transaction) (key : bytes) (value : option bytes) : outcome DbErr Transaction :=
  if tx_closed tx then Err ErrTxClosed
  else Ok (mkTx (tx_snapshot tx) (<[key := NewValue value]> (writes tx)) false).

Definition tx_Delete (tx : Transaction) (key : bytes) : outcome DbErr Transaction :=
  if tx_closed tx then Err ErrTxClosed
  else Ok (mkTx (tx_snapshot tx) (<[key := NewTombstone]> (writes tx)) false).

Definition Rollback (tx : Transaction) (db : DB) : DB * Transaction :=
  if tx_closed tx then (db, tx)
  else let '(db, sn) := Snapshot_Close (tx_snapshot tx) db in (db, mkTx sn ∅ true).

(** Does a memtable hold a version of [key] above [q]?  [None] is a panic. *)
Fixpoint newer_in (ms : list Memtable) (key : bytes) (q : Z) : option bool :=
  match ms with
  | [] => Some false
  | m :: ms =>
      r ← Memtable.GetNewest m key;
      match r with
      | Some (_, seq) => if q <? seq then Some true else newer_in ms key q
      | None => newer_in ms key q
      end
  end.

Fixpoint checkConflicts_loop (keys : list bytes) (q : Z) (db : DB) : option bool :=
  match keys with
  | [] => Some false
  | k :: keys =>
      match newer_in (active db :: immutables db) k q with
      | None => None
      | Some true => Some true
      | Some false => checkConflicts_loop keys q db
      end
  end.

Section tx.
Context (opts : Options) (coins : Z -> nat -> bool).
Context (range_writes : gmap bytes Value -> list (bytes * Value)).

Definition checkConflicts (tx : Transaction) (db : DB) : option bool :=
  checkConflicts_loop (map fst (range_writes (writes tx))) (snap_seq (tx_snapshot tx)) db.

(** The batch of the buffered writes. *)
Definition tx_ops (tx : Transaction) : list batchOp :=
  map (fun kw => mkOp kw.1 (Data kw.2) (Tombstone kw.2)) (range_writes (writes tx)).

(** The deferred [snapshot.Close()]. *)
Definition tx_finish (tx : Transaction) (db : DB) : DB * Transaction :=
  let '(db, sn) := Snapshot_Close (tx_snapshot tx) db in (db, mkTx sn (writes tx) true).

(** [Commit] from [applyBatchLocked] on. *)
Definition Commit_resume (tx : Transaction) (db : DB) : DB * Transaction * outcome DbErr unit :=
  match applyBatchLocked opts coins (tx_ops tx) db with
  | Ok db' => (tx_finish tx db', Ok tt)
  | Err Wait => (db, mkTx (tx_snapshot tx) (writes tx) true, Err Wait)
  | Err e => (tx_finish tx db, Err e)
  | Panic => (tx_finish tx db, Panic)
  end.

Definition Commit (tx : Transaction) (db : DB) : DB * Transaction * outcome DbErr unit :=
  if tx_closed tx then (db, tx, Err ErrTxClosed) else
  if decide (writes tx = ∅) then (tx_finish tx db, Ok tt) else
  match checkConflicts tx db with
  | None => (tx_finish tx db, Panic)
  | Some true => (tx_finish tx db, Err ErrConflict)
  | Some false => Commit_resume tx db
  end.

(** ** Scans *)
Definition by_key (a b : entry) : Prop := ble a.1 b.1.
#[global] Instance by_key_dec : RelDecision by_key.
Proof. intros a b. unfold by_key, ble. apply _. Defined.

(** The write buffer as versions numbered just above the snapshot. *)
Definition bufEntries (tx : Transaction) : list entry :=
  let bufSeq := u64 (snap_seq (tx_snapshot tx) + 1) in
  merge_sort by_key (map (fun kw => (MakeInternalKey kw.1 bufSeq, kw.2)) (range_writes (writes tx))).

Abbreviation tx_src := (WriteBufferIterator + raw_iter)%type.

Definition mergedIterator (tx : Transaction) (fuel : nat) (rawIter : raw_iter)
  : option (SnapshotIterator (I := MergeIterator (E := SstErr) (I := tx_src))) :=
  m ← NewMergeIterator (E := SstErr) [inl (NewWriteBufferIterator (bufEntries tx)) : tx_src; inr rawIter];
  NewSnapshotIterator (E := SstErr) fuel m (u64 (snap_seq (tx_snapshot tx) + 1)).

Definition tx_fuel (tx : Transaction) (db : DB) : nat := base.size (writes tx) + total_entries db.

Definition tx_Scan (tx : Transaction) (db : DB) :=
  r ← rawScan db; s ← mergedIterator tx (tx_fuel tx db) r.2; Some (r.1, s).
Definition tx_ScanRange (tx : Transaction) (start end_ : option bytes) (db : DB) :=
  r ← rawScanRange start end_ db; s ← mergedIterator tx (tx_fuel tx db) r.2; Some (r.1, s).
End tx.

(** ** The conflict check *)
Lemma first_at_spec es u :
  ksorted es -> ikeys_ok es -> key_compat u es ->
  match first_at es u with
  | Some e => e ∈ es /\ UserKey e.1 = u /\ forall e', e' ∈ es -> UserKey e'.1 = u -> SeqNum e'.1 <= SeqNum e.1
  | None => forall e, e ∈ es -> UserKey e.1 <> u
  end.
Proof.
  intros Hs Hik Hc. unfold first_at. pose proof (fun e => seek_not_below (MakeSearchKey u) es e Hs) as Hge.
  destruct (seek_split (MakeSearchKey u) es) as (l & El & Hl). set (tl := seek (MakeSearchKey u) es) in *. clearbody tl.
  unfold ikeys_ok, key_compat in *. rewrite Forall_forall in Hik, Hc, Hl.
  assert (forall e, e ∈ l -> UserKey e.1 <> u) as Hlu.
  { intros e He. apply below_search_not_user; [|by apply Hl]. apply Hik. rewrite El. apply elem_of_app. by left. }
  destruct tl as [|e tl]; [rewrite El, app_nil_r; done|].
  assert (e ∈ es) as He by (rewrite El; apply elem_of_app; right; left).
  rewrite El in Hs. apply ksorted_app_inv in Hs as (_ & Hst & _). apply ksorted_cons_inv in Hst as [_ Hlt].
  assert (forall e', e' ∈ es -> UserKey e'.1 = u -> e' = e \/ e' ∈ tl) as Hin.
  { intros e' He' E. rewrite El in He'. apply elem_of_app in He' as [He'|He']; [by apply Hlu in He'|by apply elem_of_cons in He']. }
  assert (forall e', e' ∈ tl -> 8 <= len e'.1) as Hlen by (intros; apply Hik; rewrite El; apply elem_of_app; right; by right).
  unfold bytes_Equal. case_bool_decide as E.
  - split; [done|]. split; [done|]. intros e' He' E'. destruct (Hin e' He' E') as [->|Ht]; [lia|]. specialize (Hlt e' Ht).
    destruct (internal_key_decomp e.1 (Hik e He)) as [Ek Hsk]. destruct (internal_key_decomp e'.1 (Hlen e' Ht)) as [Ee Hse].
    rewrite Ek, Ee, E, E' in Hlt. unfold blt in Hlt. rewrite compare_same_user in Hlt by done. rewrite Z.compare_lt_iff in Hlt. lia.
  - intros e' He' E'. destruct (Hin e' He' E') as [->|Ht]; [done|]. specialize (Hlt e' Ht).
    apply (blt_asym _ _ Hlt), (past_user u); [by apply Hik|by apply Hlen|by apply Hc|apply (Hge e); by left|done|done].
Qed.

(** A version above [q] of a key. *)
Definition newer_version (u : bytes) (q : Z) (e : entry) : Prop := UserKey e.1 = u /\ q < SeqNum e.1.
#[global] Instance newer_version_dec u q e : Decision (newer_version u q e).
Proof. unfold newer_version. apply _. Defined.

Lemma newer_in_spec ms ess u q :
  Forall2 mem_inv ms ess -> key_compat u (concat ess) ->
  newer_in ms u q = Some (bool_decide (Exists (newer_version u q) (concat ess))).
Proof.
  induction 1 as [|m es ms ess Hm Hms IH]; intros Hc; cbn [newer_in concat].
  { done. }
  apply Forall_app in Hc as [Hc1 Hc2]. destruct Hm as [Hs Hso Hik]. unfold Memtable.GetNewest.
  rewrite (proj1 (SkipList.GetNewest_spec _ es u Hs)). cbn [mbind option_bind]. specialize (IH Hc2).
  pose proof (first_at_spec es u Hso Hik Hc1) as Hf.
  assert (~ Exists (newer_version u q) es -> newer_in ms u q = Some (bool_decide (Exists (newer_version u q) (es ++ concat ess)))) as Hno.
  { intros Hn. rewrite IH. f_equal. apply bool_decide_ext. rewrite Exists_app. tauto. }
  destruct (first_at es u) as [e|]; cbn [fmap option_fmap option_map].
  - destruct Hf as (He & Eu & Hmax). destruct (Z.ltb_spec q (SeqNum e.1)) as [Hlt|Hge].
    + f_equal. symmetry. apply bool_decide_eq_true. apply Exists_app. left. apply Exists_exists. by exists e.
    + apply Hno. intros (e' & He' & E' & Hlt)%Exists_exists. specialize (Hmax e' He' E'). lia.
  - apply Hno. intros (e' & He' & E' & _)%Exists_exists. by apply (Hf e').
Qed.

Lemma checkConflicts_loop_spec keys q db es ess :
  Forall2 mem_inv (active db :: immutables db) (es :: ess) -> Forall (fun k => key_compat k (es ++ concat ess)) keys ->
  checkConflicts_loop keys q db =
    Some (bool_decide (Exists (fun k => Exists (newer_version k q) (es ++ concat ess)) keys)).
Proof.
  intros Hm. induction 1 as [|k keys Hk Hks IH]; cbn [checkConflicts_loop].
  { done. }
  rewrite (newer_in_spec _ _ k q Hm Hk). cbn [concat].
  destruct (bool_decide_reflect (Exists (newer_version k q) (es ++ concat ess))) as [E|E].
  - f_equal. symmetry. apply bool_decide_eq_true. by left.
  - rewrite IH. f_equal. apply bool_decide_ext. rewrite Exists_cons. tauto.
Qed.

(** ** The buffer as a batch *)

(** Buffered values are what [Put] and [Delete] make. *)
Definition tx_ok (tx : Transaction) : Prop := map_Forall (fun _ w => Tombstone w = true -> w = NewTombstone) (writes tx).

Lemma Begin_ok db : tx_ok (BeginTransaction db).2.
Proof. apply map_Forall_empty. Qed.
Lemma tx_Put_ok tx k v tx' : tx_ok tx -> tx_Put tx k v = Ok tx' -> tx_ok tx'.
Proof. unfold tx_Put. destruct (tx_closed tx); [done|]. intros H [= <-]. by apply map_Forall_insert_2. Qed.
Lemma tx_Delete_ok tx k tx' : tx_ok tx -> tx_Delete tx k = Ok tx' -> tx_ok tx'.
Proof. unfold tx_Delete. destruct (tx_closed tx); [done|]. intros H [= <-]. by apply map_Forall_insert_2. Qed.

Lemma store_write_list (l : list (bytes * Value)) (m : store) (u : bytes) :
  NoDup (map fst l) -> Forall (fun kw => Tombstone kw.2 = true -> kw.2 = NewTombstone) l ->
  fold_left store_write (map (fun kw => mkOp kw.1 (Data kw.2) (Tombstone kw.2)) l) m !! u =
  match (list_to_map l : store) !! u with Some w => Some w | None => m !! u end.
Proof.
  revert m; induction l as [|[k w] l IH]; intros m Hnd Hok; [done|].
  cbn in Hnd. apply NoDup_cons in Hnd as [Hk Hnd]. apply Forall_cons in Hok as [Hw Hok]. cbn [map fold_left]. rewrite IH by done.
  cbn [list_to_map foldr uncurry]. destruct (decide (k = u)) as [->|Hne].
  - rewrite lookup_insert_eq. rewrite (not_elem_of_list_to_map_1 l u Hk). unfold store_write. cbn [bkey]. rewrite lookup_insert_eq. f_equal.
    unfold op_value. cbn in *. destruct (Tombstone w) eqn:E; [by rewrite Hw|]. by destruct w as [d t]; cbn in E; subst t.
  - rewrite lookup_insert_ne by done. destruct (list_to_map l !! u); [done|]. unfold store_write. cbn [bkey]. by rewrite lookup_insert_ne.
Qed.

(** ** Conflicts *)

(** A version still in a memtable: what the check looks at. *)
Definition recent (db : DB) (e : entry) : Prop :=
  exists m es, m ∈ active db :: immutables db /\ mem_inv m es /\ e ∈ es.

(** Another writer changed a key of the write set after the snapshot. *)
Definition conflict (tx : Transaction) (db : DB) : Prop :=
  exists k e, is_Some (writes tx !! k) /\ recent db e /\ newer_version k (snap_seq (tx_snapshot tx)) e.

Lemma mem_keys m es1 es2 : mem_inv m es1 -> mem_inv m es2 -> map fst es1 = map fst es2.
Proof.
  intros H1 H2. apply mem_Scan_yields in H1 as (it1 & E1 & H1), H2 as (it2 & E2 & H2). rewrite E1 in E2. injection E2 as <-.
  pose proof (yields_inj _ _ _ H1 H2) as E. apply (f_equal (map fst)) in E. by rewrite !map_map in E.
Qed.

Lemma recent_view db pend h v k q :
  db_inv db pend h v ->
  (exists e, recent db e /\ newer_version k q e) <-> Exists (newer_version k q) (v_act v ++ concat (v_imm v)).
Proof.
  intros Hi. assert (Forall2 mem_inv (active db :: immutables db) (v_act v :: v_imm v)) as Hm
    by (constructor; [apply (inv_active _ _ _ _ Hi)|apply (inv_imm _ _ _ _ Hi)]).
  change (v_act v ++ concat (v_imm v)) with (concat (v_act v :: v_imm v)). rewrite Exists_exists. unfold recent. split.
  - intros (e & (m & es & Hin & Hes & He) & Hn). apply list_elem_of_lookup in Hin as [i Hin].
    destruct (Forall2_lookup_l _ _ _ _ _ Hm Hin) as (es0 & Hl & Hes0).
    assert (e.1 ∈ map fst es0) as (e0 & E0 & He0)%list_elem_of_fmap.
    { rewrite (mem_keys _ _ _ Hes0 Hes). apply list_elem_of_fmap. by exists e. }
    exists e0. unfold newer_version in *. rewrite <-E0. split; [|done].
    apply list_elem_of_In, in_concat. exists es0. split; [|by apply list_elem_of_In]. apply list_elem_of_In. by eapply list_elem_of_lookup_2.
  - intros (e & He & Hn). apply list_elem_of_In, in_concat in He as (es & Hes & He).
    apply list_elem_of_In, list_elem_of_lookup in Hes as [i Hes]. destruct (Forall2_lookup_r _ _ _ _ _ Hm Hes) as (m & Hl & Hmi).
    exists e. split; [|done]. exists m, es. split; [by eapply list_elem_of_lookup_2|]. split; [done|by apply list_elem_of_In].
Qed.

Section claims.
Context (opts : Options) (coins : Z -> nat -> bool).
Context (range_tables : gmap Z SSTableInfo -> list SSTableInfo).
Context (range_hnsw : gmap bytes HNSWSnapshotInfo -> list HNSWSnapshotInfo).
Context (range_writes : gmap bytes Value -> list (bytes * Value)).
(** Ranging over a Go map visits every entry once. *)
Context (Hrange : forall m, range_writes m ≡ₚ map_to_list m).
Context (Hopts : opts_ok opts).

Abbreviation reached := (reached opts coins range_tables range_hnsw).

Lemma range_lookup (m : gmap bytes Value) (u : bytes) : (list_to_map (range_writes m) : store) !! u = m !! u.
Proof using Hrange.
  rewrite (list_to_map_proper _ (map_to_list m)); [by rewrite list_to_map_to_list| |apply Hrange].
  rewrite Hrange. apply NoDup_fst_map_to_list.
Qed.

Lemma elem_range_keys m k : k ∈ map fst (range_writes m) <-> is_Some (m !! k).
Proof using Hrange.
  rewrite Hrange. split.
  - intros ([k' w] & -> & Hin)%list_elem_of_fmap. apply elem_of_map_to_list in Hin. by exists w.
  - intros [w Hw]. apply list_elem_of_fmap. exists (k, w). split; [done|]. by apply elem_of_map_to_list.
Qed.

Lemma checkConflicts_spec db pend h v tx :
  db_inv db pend h v -> (forall k, is_Some (writes tx !! k) -> key_compat k h) ->
  exists b, checkConflicts range_writes tx db = Some b /\ (b = true <-> conflict tx db).
Proof using Hrange.
  intros Hi Hc. unfold checkConflicts.
  rewrite (checkConflicts_loop_spec _ _ _ (v_act v) (v_imm v)).
  - eexists. split; [done|]. rewrite bool_decide_eq_true, Exists_exists. unfold conflict. split.
    + intros (k & Hk%elem_range_keys & He). apply (recent_view _ _ _ _ _ _ Hi) in He as (e & He & Hn). by exists k, e.
    + intros (k & e & Hk & He & Hn). exists k. split; [by apply elem_range_keys|]. apply (recent_view _ _ _ _ _ _ Hi). by exists e.
  - constructor; [apply (inv_active _ _ _ _ Hi)|apply (inv_imm _ _ _ _ Hi)].
  - apply Forall_forall. intros k Hk%elem_range_keys. specialize (Hc k Hk). unfold key_compat in *. rewrite Forall_forall in Hc |- *.
    intros e He. apply Hc. rewrite <-(inv_hist _ _ _ _ Hi), v_all_eq, !elem_of_app in *. tauto.
Qed.

Lemma tx_ops_nil tx : writes tx <> ∅ -> tx_ops range_writes tx <> [].
Proof using Hrange.
  intros Hne E. apply map_eq_nil in E. destruct Hne. apply map_empty. intros k. destruct (writes tx !! k) eqn:Ek; [|done].
  assert (k ∈ map fst (range_writes (writes tx))) as Hk by (apply elem_range_keys; eauto). rewrite E in Hk. by apply elem_of_nil in Hk.
Qed.

(** The map after the batch of a transaction. *)
Lemma tx_store (tx : Transaction) (m : store) (u : bytes) :
  tx_ok tx -> store_step m (OpBatch (tx_ops range_writes tx)) !! u = match writes tx !! u with Some w => Some w | None => m !! u end.
Proof using Hrange.
  intros Hok. unfold store_step. cbn [op_writes]. unfold tx_ops. rewrite store_write_list, range_lookup; [done|..]; rewrite Hrange.
  - apply NoDup_fst_map_to_list.
  - apply Forall_forall. intros [k w] Hkw%elem_of_map_to_list. by apply (Hok k).
Qed.

(** The batch of a commit that need not wait. *)
Lemma batch_step s h v bops :
  sys_inv opts s h v -> bops <> [] -> admissible s h (OpBatch bops) -> len (immutables (sdb s)) < MaxImmutableCount opts ->
  exists db1, applyBatchLocked opts coins bops (sdb s) = Ok db1 /\
    sys_step opts coins range_tables range_hnsw s (OpBatch bops) = Ok (mkSys db1 (spend s)).
Proof using Hopts.
  intros Hv Hops Ha Hsp. destruct Hopts as [H1 H2].
  destruct (sys_step_inv _ coins range_tables range_hnsw H1 H2 s h v _ Hv Ha) as (s1 & _ & E1 & _); [done|].
  cbn [sys_step] in *. unfold WriteBatch_Commit in *. cbn [DB.ops] in *.
  destruct (len bops =? 0) eqn:E0.
  { apply Z.eqb_eq in E0. destruct bops; [done|]. rewrite len_cons in E0. len_lia. }
  destruct (applyBatchLocked _ _ _ _) as [db1| |]; [|done..]. by exists db1.
Qed.

(** C14: A transaction reads its own writes over a fixed snapshot.  Begun in a
    reached state and read after any admissible operations of other clients and of
    the engine, [Get] returns the buffered value of a key the transaction wrote (not
    found if it deleted it), and otherwise the value the key had when the
    transaction began.  As for [db_snapshot_stable], admissible excludes a
    compaction that splits the versions of a user key. *)
Theorem tx_get_isolated (os os' : list op) (h h' : list entry) (s s' : sys) (ws : gmap bytes Value) (u : bytes) :
  reached os h s -> steps opts coins range_tables range_hnsw h s os' h' s' -> key_compat u h' ->
  let tx := mkTx (tx_snapshot (BeginTransaction (sdb s)).2) ws false in
  tx_Get tx (sdb s') u =
    Some (match ws !! u with Some w => if Tombstone w then None else Some w | None => store_run os !! u end).
Proof using Hopts.
  intros Hr Hst Hc tx. unfold tx_Get. cbn [writes tx tx_snapshot]. destruct (ws !! u) as [w|]; [by destruct (Tombstone w)|].
  destruct Hopts as [H1 H2]. destruct (run_inv _ _ _ _ H1 H2 _ _ _ Hr) as [v Hv].
  destruct (steps_inv _ _ _ _ H1 H2 _ _ _ _ _ _ Hv Hst) as (v' & Hv' & _ & new & -> & Hnew).
  unfold Snapshot_Get. rewrite (getAt_abs _ _ _ _ u _ (si_db _ _ _ _ Hv') Hc). cbn [tx_snapshot BeginTransaction GetSnapshot snd snap_seq].
  unfold abs_read, CurrentSeq. rewrite abs_best_new by done. by rewrite (run_store opts coins range_tables range_hnsw Hopts os h s).
Qed.

(** C13: Commit, decided.  In a reached state with flush space, committing an open
    transaction with writes closes it, and
    - if some written key has a version in a memtable newer than the snapshot, it
      returns [ErrConflict] and the database changes only in the snapshot registry;
    - otherwise it succeeds, the state is the one reached by the batch of its writes
      and the release of its snapshot, and [Get] returns the buffered values of the
      keys it wrote and the previous ones of all others. *)
Theorem tx_commit_exact os h s tx :
  reached os h s -> tx_closed tx = false -> writes tx <> ∅ -> tx_ok tx ->
  (forall k, is_Some (writes tx !! k) -> key_compat k h) ->
  admissible s h (OpBatch (tx_ops range_writes tx)) -> len (immutables (sdb s)) < MaxImmutableCount opts ->
  let '(db', tx', r) := Commit opts coins range_writes tx (sdb s) in
  tx_closed tx' = true /\
  (conflict tx (sdb s) -> r = Err ErrConflict /\ db' = (Snapshot_Close (tx_snapshot tx) (sdb s)).1) /\
  (~ conflict tx (sdb s) -> r = Ok tt /\
     exists h', reached (os ++ [OpBatch (tx_ops range_writes tx); OpRelease (tx_snapshot tx)]) h' (mkSys db' (spend s)) /\
       forall u, key_compat u h' ->
         Get db' u = Some (match writes tx !! u with Some w => Some w | None => store_run os !! u end)).
Proof using Hopts Hrange.
  intros Hr Hcl Hne Hok Hc Ha Hsp. pose proof Hopts as [H1 H2]. destruct (run_inv _ _ _ _ H1 H2 _ _ _ Hr) as [v Hv].
  destruct (checkConflicts_spec _ _ _ _ tx (si_db _ _ _ _ Hv) Hc) as (b & Eb & Hb).
  unfold Commit. rewrite Hcl, decide_False, Eb by done. destruct b.
  - unfold tx_finish. destruct (Snapshot_Close (tx_snapshot tx) (sdb s)) as [db1 sn1]. split; [done|]. split; [done|].
    intros Hn. destruct Hn. by apply Hb.
  - destruct (batch_step s h v (tx_ops range_writes tx) Hv) as (db1 & Ea & E1); [by apply tx_ops_nil|done|done|].
    unfold Commit_resume. rewrite Ea. unfold tx_finish.
    destruct (Snapshot_Close (tx_snapshot tx) db1) as [db2 sn2] eqn:Ec. split; [done|]. split; [intros Hcf; by apply Hb in Hcf|].
    intros _. split; [done|]. eexists.
    assert (reached (os ++ [OpBatch (tx_ops range_writes tx); OpRelease (tx_snapshot tx)])
              (written (mkSys db1 (spend s)) (OpRelease (tx_snapshot tx)) ++ written s (OpBatch (tx_ops range_writes tx)) ++ h) (mkSys db2 (spend s))) as Hr2.
    { change [OpBatch (tx_ops range_writes tx); OpRelease (tx_snapshot tx)] with ([OpBatch (tx_ops range_writes tx)] ++ [OpRelease (tx_snapshot tx)]).
      rewrite app_assoc. eapply steps_snoc; [by eapply steps_snoc|done|]. cbn. by rewrite Ec. }
    split; [exact Hr2|]. intros u Hcu. destruct (run_inv _ _ _ _ H1 H2 _ _ _ Hr2) as [v2 Hv2].
    unfold Get, CurrentSeq. rewrite (getAt_abs db2 _ _ _ u _ (si_db _ _ _ _ Hv2) Hcu). f_equal.
    pose proof (run_store _ _ _ _ Hopts _ _ _ u Hr2) as Es. cbn [sdb] in Es. rewrite <-Es.
    unfold store_run. rewrite fold_left_app. cbn [fold_left]. by apply tx_store.
Qed.
End claims.

(** ** Small transactions *)
Definition demo_writes : gmap bytes Value -> list (bytes * Value) := map_to_list.

(** A transaction that writes one key. *)
Definition demo_tx (db : DB) (k v : bytes) : DB * Transaction :=
  let '(db, tx) := BeginTransaction db in
  (db, match tx_Put tx k (Some v) with Ok tx => tx | _ => tx end).

Lemma tx_get_isolated_witness :
  let tx := mkTx (tx_snapshot (BeginTransaction (demo_db (take 5 demo_ops))).2) ∅ false in
  tx_Get tx (demo_db demo_ops) [Byte.x61] =
    Some (match (∅ : store) !! [Byte.x61] with
          | Some w => if Tombstone w then None else Some w
          | None => store_run (take 5 demo_ops) !! [Byte.x61] end).
Proof.
  apply (tx_get_isolated demo_opts demo_coins demo_range demo_hnsw demo_opts_ok (take 5 demo_ops) (drop 5 demo_ops)
           (demo_run (take 5 demo_ops)).1 (demo_run demo_ops).1 (demo_run (take 5 demo_ops)).2 (demo_run demo_ops).2).
  - apply demo_run_ok. by_decide.
  - apply demo_run_split; by_decide.
  - by_decide.
Defined.

Lemma tx_commit_exact_witness :
  let s := (demo_run (take 4 demo_ops)).2 in
  let tx := (demo_tx (sdb s) [Byte.x61] [Byte.x39]).2 in
  let '(db', tx', r) := Commit demo_opts demo_coins demo_writes tx (sdb s) in
  tx_closed tx' = true /\
  (conflict tx (sdb s) -> r = Err ErrConflict /\ db' = (Snapshot_Close (tx_snapshot tx) (sdb s)).1) /\
  (~ conflict tx (sdb s) -> r = Ok tt /\
     exists h', reached demo_opts demo_coins demo_range demo_hnsw
         (take 4 demo_ops ++ [OpBatch (tx_ops demo_writes tx); OpRelease (tx_snapshot tx)]) h' (mkSys db' (spend s)) /\
       forall u, key_compat u h' ->
         Get db' u = Some (match writes tx !! u with Some w => Some w | None => store_run (take 4 demo_ops) !! u end)).
Proof.
  intros s tx.
  apply (tx_commit_exact demo_opts demo_coins demo_range demo_hnsw demo_writes (fun m => reflexivity _) demo_opts_ok
           (take 4 demo_ops) (demo_run (take 4 demo_ops)).1 s tx).
  - apply demo_run_ok. by_decide.
  - reflexivity.
  - intros E. apply (f_equal (lookup [Byte.x61])) in E. discriminate E.
  - apply tx_Put_ok with (BeginTransaction (sdb s)).2 [Byte.x61] (Some [Byte.x39]); [apply Begin_ok|reflexivity].
  - intros k Hk. destruct (decide (k = [Byte.x61])) as [->|Hne]; [by_decide|].
    exfalso. destruct Hk as [w Hw]. change (writes tx) with ({[ [Byte.x61] := NewValue (Some [Byte.x39]) ]} : gmap bytes Value) in Hw.
    rewrite lookup_singleton_ne in Hw by done. discriminate Hw.
  - cbn [admissible]. split; [by_decide|]. split; [by_decide|]. by_decide.
  - by_decide.
Defined.

(** A memtable holds a few small entries; one may wait for the flush. *)
Definition wait_opts : Options := mkOptions 64 4096 1 (mkConfig 4 1000 10 3).

(** A commit that waits for flush space can overwrite a conflicting write.  The
    conflict check runs before the wait, and the wait releases the lock: here a
    transaction on a key waits behind a full backlog, a flush frees it, another
    client's put of the same key gets in first, and the transaction then commits
    although the check, made now, would report the conflict. *)
Theorem tx_commit_wait_overwrites :
  match plain_run wait_opts [OpPut [Byte.x78] (Some (replicate 80 Byte.x00))] (init_sys wait_opts demo_coins demo_hnsw) with
  | Ok s =>
      let '(db, tx) := demo_tx (sdb s) [Byte.x61] [Byte.x31] in
      let '(db, tx, r) := Commit wait_opts demo_coins demo_writes tx db in
      r = Err Wait /\
      match plain_run wait_opts [OpFlush; OpPut [Byte.x61] (Some [Byte.x32])] (mkSys db None) with
      | Ok s =>
          checkConflicts demo_writes tx (sdb s) = Some true /\
          let '(db, _, r) := Commit_resume wait_opts demo_coins demo_writes tx (sdb s) in
          r = Ok tt /\ Get db [Byte.x61] = Some (Some (NewValue (Some [Byte.x31])))
      | _ => False
      end
  | _ => False
  end.
Proof. vm_compute. done. Qed.

(** A transaction's scan sees the next write of another client.  Buffered writes
    are numbered one above the snapshot and the scan filters there, so a version
    that another client writes with that number is shown, although [Get] in the
    same transaction does not find the key. *)
Theorem tx_scan_sees_next_write :
  let '(db, tx) := BeginTransaction (sdb (init_sys demo_opts demo_coins demo_hnsw)) in
  match plain_run demo_opts [OpPut [Byte.x61] (Some [Byte.x31])] (mkSys db None) with
  | Ok s =>
      tx_Get tx (sdb s) [Byte.x61] = Some None /\
      match tx_Scan demo_writes tx (sdb s) with
      | Some (_, it) =>
          drain (Iterator0 := snapshot_iterator (tx_fuel tx (sdb s))) 1 it =
            Some ([(MakeInternalKey [Byte.x61] 1, Some [Byte.x31])], None)
      | None => False
      end
  | _ => False
  end.
Proof. vm_compute. done. Qed.
