(* ===== verification/HashRing.v ===== *)
(** * The consistent hash ring (src/hashring/ring.go)

    Virtual nodes sorted by hash; a key belongs to the first distinct physical
    nodes found clockwise from its hash.  [Sum64] is xxhash, a third-party
    function; strings are byte lists.  Go's sorts are some sorted permutation:
    the theorems use nothing else about them, and say so where ties of hashes
    matter ([distinct]). *)

From Stdlib Require Import ZArith Lia List Sorted.
From stdpp Require Import base list option gmap sorting.
From S2P Require Import Prelude GoBytes GoSort.

Record Node := mkNode { NodeID : bytes; Addr : bytes }.
Record vnode := mkVnode { hash : Z; nodeID : bytes }.

Record Ring := mkRing {
  vnodes : list vnode;
  nodes : gmap bytes Node;
  vnodesPerNode : Z
}.

(** [strconv.AppendInt(buf, n, 10)] for [n >= 0]; at most 19 digits. *)
Fixpoint digits (fuel : nat) (n : Z) (acc : bytes) : bytes :=
  match fuel with
  | O => acc
  | S fuel =>
      let acc := Zb (48 + n mod 10) :: acc in
      if n <? 10 then acc else digits fuel (n / 10) acc
  end.
Definition AppendInt (buf : bytes) (n : Z) : bytes := buf ++ digits 19 n [].

Definition by_hash (a b : vnode) : Prop := hash a <= hash b.
#[global] Instance by_hash_dec : RelDecision by_hash.
Proof. intros a b. unfold by_hash. apply _. Defined.

Section ring.
Context (Sum64 : bytes -> Z).

Definition hashVnode (id : bytes) (index : Z) : Z := Sum64 (AppendInt (id ++ [Byte.x2d]) index).
Definition hashKey (key : bytes) : Z := Sum64 key.

Definition New (n : Z) : Ring := mkRing [] ∅ (if n <=? 0 then 150 else n).

(** The points of a node. *)
Definition nodeVnodes (n : Z) (id : bytes) : list vnode :=
  map (fun i => mkVnode (hashVnode id (Z.of_nat i)) id) (seq 0 (Z.to_nat n)).

Definition AddNode (r : Ring) (node : Node) : Ring :=
  match nodes r !! NodeID node with
  | Some _ => r
  | None =>
      mkRing (merge_sort by_hash (vnodes r ++ nodeVnodes (vnodesPerNode r) (NodeID node)))
        (<[NodeID node := node]> (nodes r)) (vnodesPerNode r)
  end.

Definition RemoveNode (r : Ring) (id : bytes) : Ring :=
  match nodes r !! id with
  | None => r
  | Some _ => mkRing (filter (fun v => nodeID v <> id) (vnodes r)) (delete id (nodes r)) (vnodesPerNode r)
  end.

Definition ReplaceMembers (r : Ring) (ns : list Node) : Ring :=
  mkRing (merge_sort by_hash (concat (map (fun n => nodeVnodes (vnodesPerNode r) (NodeID n)) ns)))
    (fold_left (fun m n => <[NodeID n := n]> m) ns ∅) (vnodesPerNode r).

Definition Size (r : Ring) : Z := Z.of_nat (size (nodes r)).

Definition search (r : Ring) (h : Z) : nat :=
  let idx := sort_Search (length (vnodes r)) (fun i => match vnodes r !! i with Some v => h <=? hash v | None => true end) in
  if decide (idx = length (vnodes r)) then 0%nat else idx.

Definition zeroNode : Node := mkNode [] [].
Definition nodeOf (r : Ring) (id : bytes) : Node := default zeroNode (nodes r !! id).

(** [None] is an index out of range. *)
Definition GetNode (r : Ring) (key : bytes) : option Node :=
  match vnodes r with
  | [] => Some zeroNode
  | _ => v ← vnodes r !! search r (hashKey key); Some (nodeOf r (nodeID v))
  end.

(** The loop [for range r.vnodes] of [GetNodes] and of [CoReplicas]: the ids of up
    to [n] distinct nodes met from index [idx] on. *)
Fixpoint walk (fuel : nat) (vs : list vnode) (n : nat) (idx : nat) (result : list bytes) : option (list bytes) :=
  match fuel with
  | O => Some result
  | S fuel =>
      v ← vs !! idx;
      let next := ((idx + 1) mod length vs)%nat in
      if decide (nodeID v ∈ result) then walk fuel vs n next result
      else
        let result := result ++ [nodeID v] in
        if decide (length result = n) then Some result else walk fuel vs n next result
  end.

Definition capped (r : Ring) (n : Z) : nat := Z.to_nat (if Size r <? n then Size r else n).

(** [nil] for an empty ring or [n <= 0]. *)
Definition GetNodes (r : Ring) (key : bytes) (n : Z) : option (list Node) :=
  if decide (vnodes r = []) then Some [] else if n <=? 0 then Some [] else
  ids ← walk (length (vnodes r)) (vnodes r) (capped r n) (search r (hashKey key)) [];
  Some (map (nodeOf r) ids).

(** The peers collected over all start positions. *)
Fixpoint peersLoop (starts : list nat) (vs : list vnode) (n : nat) (self : bytes) (peers : gset bytes) : option (gset bytes) :=
  match starts with
  | [] => Some peers
  | i :: starts =>
      window ← walk (length vs) vs n i [];
      peersLoop starts vs n self
        (if decide (self ∈ window) then peers ∪ list_to_set (filter (fun id => id <> self) window) else peers)
  end.

Definition by_bytes (a b : bytes) : Prop := ble a b.
#[global] Instance by_bytes_dec : RelDecision by_bytes.
Proof. intros a b. unfold by_bytes, ble. apply _. Defined.

Definition CoReplicas (r : Ring) (self : bytes) (n : Z) : option (list bytes) :=
  if decide (vnodes r = []) then Some [] else if n <=? 0 then Some [] else
  match nodes r !! self with
  | None => Some []
  | Some _ =>
      peers ← peersLoop (seq 0 (length (vnodes r))) (vnodes r) (capped r n) self ∅;
      Some (merge_sort by_bytes (elements peers))
  end.

Definition Members (range_nodes : gmap bytes Node -> list Node) (r : Ring) : list Node := range_nodes (nodes r).
End ring.

(** ** The reference *)

(** First occurrences, in order. *)
Fixpoint firsts (seen : list bytes) (l : list bytes) : list bytes :=
  match l with
  | [] => []
  | x :: l => if decide (x ∈ seen) then firsts seen l else x :: firsts (x :: seen) l
  end.

(** The points from [h] on, then around. *)
Definition clockwise (h : Z) (vs : list vnode) : list vnode :=
  filter (fun v => h <= hash v) vs ++ filter (fun v => hash v < h) vs.

(** The owners of a position, nearest first. *)
Definition owners (h : Z) (vs : list vnode) : list bytes := firsts [] (map nodeID (clockwise h vs)).

(** ** First occurrences *)
Lemma firsts_ext s1 s2 l : (forall x, x ∈ s1 <-> x ∈ s2) -> firsts s1 l = firsts s2 l.
Proof.
  revert s1 s2; induction l as [|x l IH]; intros s1 s2 H; cbn; [done|].
  destruct (decide (x ∈ s1)) as [H1|H1], (decide (x ∈ s2)) as [H2|H2]; [by apply IH|by apply H in H1|by apply H in H2|].
  f_equal. apply IH. intros y. rewrite !elem_of_cons, H. done.
Qed.

Lemma elem_firsts x s l : x ∈ firsts s l <-> x ∈ l /\ x ∉ s.
Proof.
  revert s; induction l as [|y l IH]; intros s; cbn.
  - split; [by intros ?%elem_of_nil|intros [?%elem_of_nil _]; done].
  - rewrite elem_of_cons. destruct (decide (y ∈ s)) as [Hy|Hy]; [rewrite IH|rewrite elem_of_cons, IH, elem_of_cons];
      destruct (decide (x = y)) as [->|]; naive_solver.
Qed.

Lemma NoDup_firsts s l : NoDup (firsts s l).
Proof.
  revert s; induction l as [|y l IH]; intros s; cbn; [constructor|]. destruct (decide (y ∈ s)); [done|].
  constructor; [|done]. intros [_ H]%elem_firsts. apply H. left.
Qed.

Lemma firsts_filter (P : bytes -> Prop) `{!forall x, Decision (P x)} s l :
  firsts s (filter P l) = filter P (firsts s l).
Proof.
  revert s; induction l as [|y l IH]; intros s; [done|]. rewrite filter_cons. cbn [firsts]. destruct (decide (P y)) as [Hy|Hy]; cbn [firsts].
  - destruct (decide (y ∈ s)); [done|]. by rewrite filter_cons_True, IH.
  - destruct (decide (y ∈ s)); [done|]. rewrite filter_cons_False by done. rewrite IH.
    assert (forall s1 s2 l, (forall x, P x -> x ∈ s1 <-> x ∈ s2) -> filter P (firsts s1 l) = filter P (firsts s2 l)) as Hx.
    { clear. intros s1 s2 l. revert s1 s2; induction l as [|z l IH]; intros s1 s2 Hs; cbn; [done|].
      destruct (decide (z ∈ s1)) as [H1|H1], (decide (z ∈ s2)) as [H2|H2]; rewrite ?filter_cons.
      - by apply IH.
      - rewrite decide_False by (intros Hz; by apply (Hs z Hz) in H1). apply IH. intros x Hx'. rewrite elem_of_cons, (Hs x Hx').
        split; [tauto|]. intros [->|?]; [by apply Hs in H1|done].
      - rewrite decide_False by (intros Hz; by apply (Hs z Hz) in H2). apply IH. intros x Hx'. rewrite elem_of_cons, <-(Hs x Hx').
        split; [|tauto]. intros [->|?]; [by apply Hs in H2|done].
      - case_decide; [f_equal|]; apply IH; intros x Hx'; by rewrite !elem_of_cons, (Hs x Hx'). }
    apply Hx. intros x Hxp. rewrite elem_of_cons. split; [tauto|]. intros [->|?]; done.
Qed.

(** ** The walk *)
Definition rot {A} (i : nat) (l : list A) : list A := drop i l ++ take i l.

Lemma rot_next {A} (vs : list A) i v :
  vs !! i = Some v -> exists X, rot i vs = v :: X /\ rot ((i + 1) mod length vs) vs = X ++ [v].
Proof.
  intros Hv. pose proof (lookup_lt_Some _ _ _ Hv) as Hlt. unfold rot. rewrite (drop_S _ _ _ Hv). exists (drop (S i) vs ++ take i vs). split; [done|].
  destruct (decide (i + 1 = length vs)%nat) as [E|E].
  - rewrite E, Nat.Div0.mod_same. rewrite drop_0, take_0, app_nil_r. rewrite (drop_ge vs (S i)) by lia. cbn.
    rewrite <-(take_drop i vs) at 1. by rewrite (drop_S _ _ _ Hv), (drop_ge vs (S i)) by lia.
  - rewrite Nat.mod_small by lia. rewrite Nat.add_1_r, (take_S_r _ _ _ Hv). by rewrite app_assoc.
Qed.

Lemma walk_spec fuel vs n i res :
  (i < length vs)%nat -> (fuel <= length vs)%nat -> (length res < n)%nat ->
  walk fuel vs n i res = Some (res ++ take (n - length res) (firsts res (map nodeID (take fuel (rot i vs))))).
Proof.
  revert i res; induction fuel as [|fuel IH]; intros i res Hi Hf Hn; cbn [walk].
  { rewrite take_0. cbn [map firsts]. by rewrite take_nil, app_nil_r. }
  destruct (lookup_lt_is_Some_2 vs i Hi) as [v Hv]. rewrite Hv. cbn [mbind option_bind].
  destruct (rot_next vs i v Hv) as (X & E1 & E2).
  assert (length X = (length vs - 1)%nat) as HX.
  { apply (f_equal length) in E1. unfold rot in E1. rewrite length_app, length_drop, length_take in E1. cbn in E1. lia. }
  assert ((i + 1) mod length vs < length vs)%nat as Hi' by (apply Nat.mod_upper_bound; lia).
  assert (take fuel (rot ((i + 1) mod length vs) vs) = take fuel X) as Et by (rewrite E2, take_app_le by lia; done).
  rewrite E1. cbn [take map firsts]. destruct (decide (nodeID v ∈ res)) as [Hin|Hni].
  - rewrite IH by (done || lia). by rewrite Et.
  - rewrite length_app. cbn [length]. destruct (n - length res)%nat as [|k] eqn:Ek; [lia|]. cbn [take].
    destruct (decide (length res + 1 = n)%nat) as [E|E].
    + assert (k = 0%nat) as -> by lia. by rewrite take_0.
    + rewrite IH by (done || rewrite ?length_app; cbn; lia). rewrite Et, length_app, <-app_assoc. cbn [length app].
      replace (n - (length res + 1))%nat with k by lia. do 3 f_equal. f_equal. apply firsts_ext.
      intros x. rewrite elem_of_app, !elem_of_cons. split; [|tauto]. intros [?|[?|?%elem_of_nil]]; tauto || done.
Qed.

Lemma walk_all vs n i :
  (i < length vs)%nat -> (0 < n)%nat -> walk (length vs) vs n i [] = Some (take n (firsts [] (map nodeID (rot i vs)))).
Proof.
  intros Hi Hn. rewrite walk_spec by (done || cbn; lia). cbn [app length]. rewrite Nat.sub_0_r. do 4 f_equal.
  apply take_ge. unfold rot. rewrite length_app, length_drop, length_take. lia.
Qed.

(** ** The search *)
Abbreviation sorted := (StronglySorted by_hash).

Lemma sorted_split vs i h :
  sorted vs -> (forall k v, (k < i)%nat -> vs !! k = Some v -> hash v < h) ->
  (forall k v, (i <= k)%nat -> vs !! k = Some v -> h <= hash v) -> rot i vs = clockwise h vs.
Proof.
  intros _ Hlo Hhi. unfold rot, clockwise. rewrite <-(take_drop i vs) at 3 4. rewrite !filter_app.
  assert (Forall (fun v => hash v < h) (take i vs)) as H1.
  { apply Forall_lookup. intros k v Hk. apply lookup_take_Some in Hk as [Hk Hlt]. by apply (Hlo k). }
  assert (Forall (fun v => h <= hash v) (drop i vs)) as H2.
  { apply Forall_lookup. intros k v Hk. rewrite lookup_drop in Hk. apply (Hhi (i + k)%nat); [lia|done]. }
  assert (forall (P : vnode -> Prop) `{!forall v, Decision (P v)} l, Forall P l -> filter P l = l) as Ht.
  { intros P ? l. induction 1; [done|]. by rewrite filter_cons_True, IHForall. }
  assert (forall (P : vnode -> Prop) `{!forall v, Decision (P v)} l, Forall (fun v => ~ P v) l -> filter P l = []) as Hf.
  { intros P ? l. induction 1; [done|]. by rewrite filter_cons_False. }
  rewrite (Ht (fun v => hash v < h) _ _ H1), (Ht (fun v => h <= hash v) _ _ H2).
  rewrite (Hf (fun v => h <= hash v)), (Hf (fun v => hash v < h) _ (drop i vs)); [by rewrite app_nil_r| |].
  - eapply Forall_impl; [exact H2|]. cbn. lia.
  - eapply Forall_impl; [exact H1|]. cbn. lia.
Qed.

Lemma sorted_lookup vs i j a b : sorted vs -> (i <= j)%nat -> vs !! i = Some a -> vs !! j = Some b -> hash a <= hash b.
Proof.
  intros Hs. revert i j; induction Hs as [|x l Hs IH Hx]; intros [|i] [|j] Hij Ha Hb; cbn in *; try done; try lia.
  - simplify_eq. lia.
  - simplify_eq. rewrite Forall_forall in Hx. apply Hx. by eapply list_elem_of_lookup_2.
  - apply (IH i j); [lia|done|done].
Qed.

Lemma ring_search_spec r h :
  sorted (vnodes r) -> vnodes r <> [] ->
  (search r h < length (vnodes r))%nat /\ rot (search r h) (vnodes r) = clockwise h (vnodes r).
Proof.
  intros Hs Hne. assert (0 < length (vnodes r))%nat as Hl by (destruct (vnodes r); [done|cbn; lia]). unfold search.
  set (f := fun i => match vnodes r !! i with Some v => h <=? hash v | None => true end).
  destruct (sort_Search_spec (length (vnodes r)) f) as (H1 & H2 & H3).
  { intros i j Hij. unfold f. destruct (vnodes r !! i) as [a|] eqn:Ea; [|apply lookup_ge_None in Ea; lia].
    destruct (vnodes r !! j) as [b|] eqn:Eb; [|done]. pose proof (sorted_lookup _ i j a b Hs ltac:(lia) Ea Eb). rewrite !Z.leb_le. lia. }
  set (idx := sort_Search _ _) in *.
  assert (forall k v, (k < idx)%nat -> vnodes r !! k = Some v -> hash v < h) as Hlo.
  { intros k v Hk Hv. specialize (H2 k Hk). unfold f in H2. rewrite Hv in H2. lia. }
  assert (forall k v, (idx <= k)%nat -> vnodes r !! k = Some v -> h <= hash v) as Hhi.
  { intros k v Hk Hv. pose proof (lookup_lt_Some _ _ _ Hv). specialize (H3 k ltac:(lia)). unfold f in H3. rewrite Hv in H3. lia. }
  destruct (decide (idx = length (vnodes r))) as [E|E].
  - split; [lia|]. rewrite <-(sorted_split _ idx h Hs Hlo Hhi). unfold rot. by rewrite E, drop_0, take_0, drop_ge, take_ge, app_nil_r by lia.
  - split; [lia|]. by apply sorted_split.
Qed.

(** ** The invariant *)
Record ring_ok (Sum64 : bytes -> Z) (r : Ring) : Prop := {
  rk_sorted : sorted (vnodes r);
  rk_points : forall v, v ∈ vnodes r <-> is_Some (nodes r !! nodeID v) /\ v ∈ nodeVnodes Sum64 (vnodesPerNode r) (nodeID v);
  rk_ids : map_Forall (fun id n => NodeID n = id) (nodes r);
  rk_pos : 1 <= vnodesPerNode r
}.

Lemma sort_vnodes l : sorted (merge_sort by_hash l) /\ merge_sort by_hash l ≡ₚ l.
Proof.
  split; [|apply merge_sort_Permutation]. apply StronglySorted_merge_sort; intros a b; unfold by_hash; [intros c; lia|lia].
Qed.

Section inv.
Context (Sum64 : bytes -> Z).
Abbreviation ring_ok := (ring_ok Sum64).

Lemma nodeVnodes_id n id v : v ∈ nodeVnodes Sum64 n id -> nodeID v = id.
Proof. by intros (i & -> & _)%list_elem_of_fmap. Qed.

Lemma New_ok n : ring_ok (New n).
Proof.
  split; cbn; [constructor| |apply map_Forall_empty|destruct (Z.leb_spec n 0); lia].
  intros v. split; [by intros ?%elem_of_nil|]. intros [[? H] _]. by rewrite lookup_empty in H.
Qed.

Lemma AddNode_ok r node : ring_ok r -> ring_ok (AddNode Sum64 r node).
Proof.
  intros Hr. unfold AddNode. destruct (nodes r !! NodeID node) as [x|] eqn:E; [done|].
  destruct (sort_vnodes (vnodes r ++ nodeVnodes Sum64 (vnodesPerNode r) (NodeID node))) as [Hs Hp].
  split; cbn [vnodes nodes vnodesPerNode]; [done| | |apply (rk_pos _ _ Hr)].
  - intros v. rewrite Hp, elem_of_app, (rk_points _ _ Hr). destruct (decide (nodeID v = NodeID node)) as [Ev|Ev].
    + rewrite Ev, lookup_insert_eq, E. split; [intros [[[? ?] _]|?]; [done|by split]|intros [_ ?]; by right].
    + rewrite lookup_insert_ne by done. split; [|by left]. intros [?|Hv%nodeVnodes_id]; done.
  - apply map_Forall_insert_2; [done|apply (rk_ids _ _ Hr)].
Qed.

Lemma RemoveNode_ok r id : ring_ok r -> ring_ok (RemoveNode r id).
Proof.
  intros Hr. unfold RemoveNode. destruct (nodes r !! id) as [x|] eqn:E; [|done].
  split; cbn [vnodes nodes vnodesPerNode]; [| | |apply (rk_pos _ _ Hr)].
  - pose proof (rk_sorted _ _ Hr) as Hs. induction Hs as [|v vs Hs IH Hx]; [constructor|]. rewrite filter_cons. case_decide; [|apply IH].
    constructor; [apply IH|]. rewrite Forall_forall in Hx |- *. intros y [_ Hy]%list_elem_of_filter. by apply Hx.
  - intros v. rewrite list_elem_of_filter, (rk_points _ _ Hr). destruct (decide (nodeID v = id)) as [->|Hne].
    + rewrite lookup_delete_eq. split; [by intros [? _]|]. intros [[? ?] _]. done.
    + rewrite lookup_delete_ne by done. tauto.
  - apply map_Forall_delete, (rk_ids _ _ Hr).
Qed.

Lemma ReplaceMembers_ok r ns : ring_ok r -> ring_ok (ReplaceMembers Sum64 r ns).
Proof.
  intros Hr. unfold ReplaceMembers. set (f := fun m n => <[NodeID n := n]> m).
  assert (forall m, (forall id, is_Some (fold_left f ns m !! id) <-> is_Some (m !! id) \/ id ∈ map NodeID ns) /\
            (map_Forall (fun id n => NodeID n = id) m -> map_Forall (fun id n => NodeID n = id) (fold_left f ns m))) as Hm.
  { clear. induction ns as [|n ns IH]; intros m; cbn [fold_left map].
    - split; [|done]. intros id. split; [by left|]. intros [?|?%elem_of_nil]; done.
    - destruct (IH (f m n)) as [H1 H2]. split.
      + intros id. rewrite H1. unfold f. rewrite elem_of_cons. destruct (decide (NodeID n = id)) as [->|Hne].
        * rewrite lookup_insert_eq. split; [by right; left|]. intros _. left. by eexists.
        * rewrite lookup_insert_ne by done. split; [tauto|]. intros [?|[?|?]]; tauto || congruence.
      + intros H. apply H2. by apply map_Forall_insert_2. }
  destruct (sort_vnodes (concat (map (fun n => nodeVnodes Sum64 (vnodesPerNode r) (NodeID n)) ns))) as [Hs Hp].
  split; cbn [vnodes nodes vnodesPerNode]; [done| | |apply (rk_pos _ _ Hr)].
  - intros v. rewrite Hp. rewrite (proj1 (Hm ∅) (nodeID v)). split.
    + intros (l & Hl & Hv)%list_elem_of_In%in_concat. apply in_map_iff in Hl as (n & <- & Hn). apply list_elem_of_In in Hv.
      pose proof (nodeVnodes_id _ _ _ Hv) as Ei. rewrite Ei. split; [right|done]. apply list_elem_of_fmap. exists n. split; [done|by apply list_elem_of_In].
    + intros [[[? H]|(n & En & Hn)%list_elem_of_fmap] Hv]; [by rewrite lookup_empty in H|]. apply list_elem_of_In, in_concat.
      exists (nodeVnodes Sum64 (vnodesPerNode r) (NodeID n)). rewrite <-En. split; [|by apply list_elem_of_In].
      rewrite En. apply in_map_iff. exists n. split; [done|by apply list_elem_of_In].
  - apply Hm, map_Forall_empty.
Qed.

(** ** Owners *)
Lemma elem_clockwise h vs v : v ∈ clockwise h vs <-> v ∈ vs.
Proof.
  unfold clockwise. rewrite elem_of_app, !list_elem_of_filter. split; [tauto|]. intros. destruct (Z.le_gt_cases h (hash v)); auto.
Qed.

Lemma elem_owners r h id : ring_ok r -> id ∈ owners h (vnodes r) <-> is_Some (nodes r !! id).
Proof.
  intros Hr. unfold owners. rewrite elem_firsts. split.
  - intros [(v & -> & Hv)%list_elem_of_fmap _]. apply elem_clockwise, (rk_points _ _ Hr) in Hv. tauto.
  - intros Hid. split; [|apply not_elem_of_nil]. apply list_elem_of_fmap. exists (mkVnode (hashVnode Sum64 id 0) id). split; [done|].
    apply elem_clockwise, (rk_points _ _ Hr). cbn. split; [done|]. apply list_elem_of_fmap. exists 0%nat. split; [done|].
    apply elem_of_seq. pose proof (rk_pos _ _ Hr). lia.
Qed.

Lemma length_owners r h : ring_ok r -> length (owners h (vnodes r)) = size (nodes r).
Proof.
  intros Hr. rewrite <-(size_dom (D := gset bytes)).
  rewrite <-(size_list_to_set (C := gset bytes) (owners h (vnodes r))) by apply NoDup_firsts. f_equal.
  apply set_eq. intros id. rewrite elem_of_list_to_set, elem_of_dom. by apply elem_owners.
Qed.

Lemma GetNodes_owners r key n :
  ring_ok r -> vnodes r <> [] -> 0 < n ->
  GetNodes Sum64 r key n = Some (map (nodeOf r) (take (capped r n) (owners (hashKey Sum64 key) (vnodes r)))).
Proof.
  intros Hr Hne Hn. destruct (ring_search_spec r (hashKey Sum64 key) (rk_sorted _ _ Hr) Hne) as [Hi Hrot].
  unfold GetNodes. rewrite decide_False by done. rewrite (proj2 (Z.leb_gt _ _)) by lia.
  assert (0 < capped r n)%nat as Hc.
  { unfold capped. assert (0 < Size r); [|destruct (Z.ltb_spec (Size r) n); lia]. unfold Size. rewrite <-(length_owners r 0 Hr).
    destruct (vnodes r) as [|v vs] eqn:Ev; [done|]. assert (v ∈ vnodes r) as Hv by (rewrite Ev; left).
    apply (rk_points _ _ Hr) in Hv as [Hid _]. apply (elem_owners r 0 _ Hr) in Hid. rewrite Ev in Hid.
    destruct (owners 0 (v :: vs)); [by apply elem_of_nil in Hid|cbn; lia]. }
  rewrite walk_all by done. cbn [mbind option_bind]. by rewrite Hrot.
Qed.
End inv.

(** ** Claims *)
Inductive ring_op := RAdd (node : Node) | RRemove (id : bytes) | RReplace (ns : list Node).

Section claims.
Context (Sum64 : bytes -> Z).

Definition ring_step (r : Ring) (o : ring_op) : Ring :=
  match o with
  | RAdd node => AddNode Sum64 r node
  | RRemove id => RemoveNode r id
  | RReplace ns => ReplaceMembers Sum64 r ns
  end.
(** A ring built by any sequence of membership changes. *)
Definition ring_run (n : Z) (os : list ring_op) : Ring := fold_left ring_step os (New n).

Lemma ring_run_ok n os : ring_ok Sum64 (ring_run n os).
Proof.
  unfold ring_run. generalize (New_ok Sum64 n). generalize (New n). induction os as [|o os IH]; intros r Hr; cbn; [done|].
  apply IH. destruct o; [by apply AddNode_ok|by apply RemoveNode_ok|by apply ReplaceMembers_ok].
Qed.

Lemma nodeOf_ok r id : ring_ok Sum64 r -> is_Some (nodes r !! id) -> NodeID (nodeOf r id) = id.
Proof. intros Hr [n Hn]. unfold nodeOf. rewrite Hn. cbn. by apply (rk_ids _ _ Hr) in Hn. Qed.

Lemma vnodes_nonempty r : ring_ok Sum64 r -> nodes r <> ∅ -> vnodes r <> [].
Proof.
  intros Hr Hne E. apply Hne, map_empty. intros id. destruct (nodes r !! id) as [x|] eqn:Ex; [|done].
  assert (id ∈ owners 0 (vnodes r)) as H by (apply (elem_owners Sum64 r 0 id Hr); eauto). rewrite E in H. by apply elem_of_nil in H.
Qed.

Lemma GetNode_eq r key :
  vnodes r <> [] -> GetNode Sum64 r key = v ← vnodes r !! search r (hashKey Sum64 key); Some (nodeOf r (nodeID v)).
Proof. intros H. unfold GetNode. by destruct (vnodes r). Qed.

(** On a ring with at least one node, [GetNodes key n] returns the first
    min(n, size) distinct nodes met clockwise from the key's hash. *)
Lemma GetNodes_spec r key n :
  ring_ok Sum64 r -> nodes r <> ∅ -> 0 < n ->
  exists ns, GetNodes Sum64 r key n = Some ns /\
    map NodeID ns = take (Z.to_nat (Z.min n (Size r))) (owners (hashKey Sum64 key) (vnodes r)) /\
    NoDup (map NodeID ns) /\ len ns = Z.min n (Size r) /\ Forall (fun nd => nodes r !! NodeID nd = Some nd) ns /\
    GetNode Sum64 r key = head ns.
Proof.
  intros Hr Hne Hn. pose proof (vnodes_nonempty r Hr Hne) as Hv.
  rewrite (GetNodes_owners Sum64 r key n Hr Hv Hn). set (L := owners (hashKey Sum64 key) (vnodes r)).
  assert (capped r n = Z.to_nat (Z.min n (Size r))) as Ec by (unfold capped; destruct (Z.ltb_spec (Size r) n); f_equal; lia).
  rewrite Ec. set (k := Z.to_nat (Z.min n (Size r))). eexists. split; [done|].
  assert (forall id, id ∈ take k L -> is_Some (nodes r !! id)) as Hmem.
  { intros id Hid. apply (elem_owners Sum64 r (hashKey Sum64 key) id Hr). fold L. rewrite <-(take_drop k L). apply elem_of_app. by left. }
  assert (map NodeID (map (nodeOf r) (take k L)) = take k L) as Eids.
  { rewrite map_map. rewrite <-(map_id (take k L)) at 2. apply map_ext_in. intros id Hid. apply nodeOf_ok; [done|]. apply Hmem. by apply list_elem_of_In. }
  assert (length L = size (nodes r)) as HL by (by apply (length_owners Sum64)). unfold Size in *.
  assert (0 < size (nodes r))%nat as Hsz by (destruct (decide (size (nodes r) = 0)%nat) as [E0|]; [by apply map_size_empty_inv in E0|lia]).
  split; [exact Eids|]. split; [|split; [|split]].
  - rewrite Eids. eapply sublist_NoDup; [|apply sublist_take]. apply NoDup_firsts.
  - unfold len. rewrite length_map, length_take. lia.
  - apply Forall_map, Forall_forall. intros id Hid. destruct (Hmem id Hid) as [nd Hnd]. rewrite (nodeOf_ok r id Hr) by eauto. unfold nodeOf. by rewrite Hnd.
  - rewrite GetNode_eq by done. destruct (ring_search_spec r (hashKey Sum64 key) (rk_sorted _ _ Hr) Hv) as [Hi Hrot].
    destruct (lookup_lt_is_Some_2 _ _ Hi) as [v Ev]. rewrite Ev. cbn [mbind option_bind].
    assert (exists X, clockwise (hashKey Sum64 key) (vnodes r) = v :: X) as [X EX].
    { destruct (rot_next _ _ _ Ev) as (X & EX & _). exists X. by rewrite <-Hrot. }
    unfold L, owners. rewrite EX. cbn [map firsts]. rewrite decide_False by apply not_elem_of_nil.
    assert (exists k', k = S k') as [k' ->] by (exists (k - 1)%nat; unfold k; lia). done.
Qed.

(** Replica sets never repeat a node. *)
Lemma GetNodes_nodup r key n ns : ring_ok Sum64 r -> GetNodes Sum64 r key n = Some ns -> NoDup (map NodeID ns).
Proof.
  intros Hr E. destruct (decide (vnodes r = [])) as [Hv|Hv]; [unfold GetNodes in E; rewrite decide_True in E by done; injection E as <-; constructor|].
  destruct (Z.leb_spec n 0) as [Hn|Hn].
  { unfold GetNodes in E. rewrite decide_False in E by done. rewrite (proj2 (Z.leb_le _ _) Hn) in E. injection E as <-. constructor. }
  destruct (GetNodes_spec r key n Hr) as (ns' & E' & _ & H & _); [|lia|].
  - intros Hne. destruct (vnodes r) as [|v vs] eqn:Ev; [done|].
    assert (is_Some (nodes r !! nodeID v)) as [x Hx]; [|rewrite Hne in Hx; by rewrite lookup_empty in Hx].
    apply (elem_owners Sum64 r 0 (nodeID v) Hr). rewrite Ev. apply elem_firsts. split; [|set_solver].
    apply list_elem_of_fmap. exists v. split; [done|]. apply elem_clockwise. left.
  - congruence.
Qed.

(** C27: Replica sets: on a ring built by any membership changes, with at least one
    node, [GetNodes key n] returns the first min(n, size) distinct nodes met
    clockwise from the key's hash, each a current member, and [GetNode] the first. *)
Theorem ring_replica_set vn os key n :
  let r := ring_run vn os in
  nodes r <> ∅ -> 0 < n ->
  exists ns, GetNodes Sum64 r key n = Some ns /\
    map NodeID ns = take (Z.to_nat (Z.min n (Size r))) (owners (hashKey Sum64 key) (vnodes r)) /\
    NoDup (map NodeID ns) /\ len ns = Z.min n (Size r) /\ Forall (fun nd => nodes r !! NodeID nd = Some nd) ns /\
    GetNode Sum64 r key = head ns.
Proof. intros r Hne Hn. apply GetNodes_spec; [apply ring_run_ok|done..]. Qed.

Lemma owners_filter h vs x : owners h (filter (fun v => nodeID v <> x) vs) = filter (fun id => id <> x) (owners h vs).
Proof.
  unfold owners. rewrite <-firsts_filter. f_equal. unfold clockwise. rewrite !list_filter_filter, map_app.
  assert (forall (P : vnode -> Prop) `{!forall v, Decision (P v)},
    map nodeID (filter (fun v => P v /\ nodeID v <> x) vs) = filter (fun id => id <> x) (map nodeID (filter P vs))) as Hc.
  { intros P ?. induction vs as [|v vs IH]; [done|]. rewrite !filter_cons. destruct (decide (P v)) as [Hp|Hp].
    - cbn [map]. rewrite filter_cons. destruct (decide (nodeID v <> x)) as [Hx|Hx].
      + rewrite decide_True by done. cbn [map]. by rewrite IH.
      + rewrite decide_False by tauto. done.
    - rewrite decide_False by tauto. done. }
  rewrite map_app, filter_app. f_equal; apply Hc.
Qed.

(** Taking from a list with one element removed. *)
Lemma take_without (L : list bytes) (x : bytes) (n : nat) :
  NoDup L -> x ∈ L -> let k := Nat.min n (length L) in let k' := Nat.min n (length L - 1) in
  let L' := filter (fun id => id <> x) L in
  (x ∉ take k L -> take k' L' = take k L) /\ filter (fun id => id <> x) (take k L) `prefix_of` take k' L'.
Proof.
  intros Hnd Hx k k' L'. apply list_elem_of_split in Hx as (A & B & EL). subst k k' L'. rewrite EL in *.
  apply NoDup_app in Hnd as (_ & HA & HB). apply NoDup_cons in HB as [HB _].
  assert (x ∉ A) as HA' by (intros Hin; apply (HA x Hin); left).
  assert (forall l : list bytes, x ∉ l -> filter (fun id => id <> x) l = l) as Hf.
  { clear. induction l as [|y l IH]; intros Hn; [done|]. rewrite filter_cons_True by (intros ->; apply Hn; left).
    rewrite IH; [done|]. intros ?. apply Hn. by right. }
  rewrite filter_app, filter_cons_False, (Hf A HA'), (Hf B HB) by (intros H; by apply H).
  rewrite length_app. cbn [length]. destruct (Nat.le_gt_cases n (length A)) as [Hn|Hn].
  - replace (Nat.min n (length A + S (length B))) with n by lia. replace (Nat.min n (length A + S (length B) - 1)) with n by lia.
    rewrite !take_app_le by lia. split; [done|]. rewrite Hf; [done|]. intros Hin. apply HA'. rewrite <-(take_drop n A). apply elem_of_app. by left.
  - set (j := (Nat.min n (length A + S (length B)) - length A - 1)%nat).
    assert (take (Nat.min n (length A + S (length B))) (A ++ x :: B) = A ++ x :: take j B) as ->.
    { rewrite take_app_ge by lia. f_equal. unfold j. destruct (Nat.min n (length A + S (length B)) - length A)%nat as [|m] eqn:Em; [lia|]. cbn. f_equal. f_equal. lia. }
    split; [intros H; destruct H; apply elem_of_app; right; left|].
    rewrite filter_app, filter_cons_False, (Hf A HA') by (intros H; by apply H).
    rewrite Hf by (intros Hin; apply HB; rewrite <-(take_drop j B); apply elem_of_app; by left).
    rewrite take_app_ge by lia. apply prefix_app.
    exists (drop j (take (Nat.min n (length A + S (length B) - 1) - length A) B)).
    rewrite <-(take_drop j (take (Nat.min n (length A + S (length B) - 1) - length A) B)) at 1. f_equal.
    rewrite take_take. f_equal. unfold j. lia.
Qed.

Lemma capped_eq r n : 0 < n -> capped r n = Nat.min (Z.to_nat n) (size (nodes r)).
Proof. intros. unfold capped, Size. destruct (Z.ltb_spec (Z.of_nat (size (nodes r))) n); lia. Qed.

(** C28: Minimal disruption: removing a node changes no replica set it is not in, and
    in the others keeps the remaining nodes in their order, so only keys it held
    move. *)
Theorem ring_remove_minimal vn os key n x :
  let r := ring_run vn os in
  is_Some (nodes r !! x) -> 0 < n ->
  exists ns ns', GetNodes Sum64 r key n = Some ns /\ GetNodes Sum64 (RemoveNode r x) key n = Some ns' /\
    (x ∉ map NodeID ns -> ns' = ns) /\
    filter (fun nd => NodeID nd <> x) ns `prefix_of` ns'.
Proof.
  intros r Hx Hn. pose proof (ring_run_ok vn os : ring_ok Sum64 r) as Hr. pose proof (RemoveNode_ok Sum64 r x Hr) as Hr'.
  assert (nodes r <> ∅) as Hne by (intros E; rewrite E in Hx; destruct Hx as [? H]; by rewrite lookup_empty in H).
  set (h := hashKey Sum64 key). set (L := owners h (vnodes r)).
  assert (map NodeID (map (nodeOf r) (take (capped r n) L)) = take (capped r n) L) as Eids.
  { rewrite map_map. rewrite <-(map_id (take _ L)) at 2. apply map_ext_in. intros id Hid%list_elem_of_In. apply nodeOf_ok; [done|].
    apply (elem_owners Sum64 r h id Hr). fold L. rewrite <-(take_drop (capped r n) L). apply elem_of_app. by left. }
  assert (forall l, map NodeID (map (nodeOf r) l) = l ->
            filter (fun nd => NodeID nd <> x) (map (nodeOf r) l) = map (nodeOf r) (filter (fun id => id <> x) l)) as Hfm.
  { induction l as [|id l IH]; [done|]. cbn [map]. intros [= E1 E2]. rewrite !filter_cons, E1. case_decide; [cbn [map]; f_equal|]; by apply IH. }
  exists (map (nodeOf r) (take (capped r n) L)). rewrite (GetNodes_owners Sum64 r key n Hr (vnodes_nonempty r Hr Hne) Hn).
  pose proof (length_owners Sum64 r h Hr) as HL. fold L in HL.
  destruct (take_without L x (Z.to_nat n)) as [T1 T2]; [apply NoDup_firsts|by apply (elem_owners Sum64 r h x Hr)|].
  rewrite HL in T1, T2. rewrite capped_eq in * by done.
  assert (size (nodes (RemoveNode r x)) = (size (nodes r) - 1)%nat /\ vnodes (RemoveNode r x) = filter (fun v => nodeID v <> x) (vnodes r) /\
    forall id, id <> x -> nodeOf (RemoveNode r x) id = nodeOf r id) as (Esz & Ev & Eno).
  { destruct Hx as [nd Hx]. unfold RemoveNode. rewrite Hx. cbn. split; [rewrite map_size_delete_Some by eauto; lia|]. split; [done|].
    intros id Hid. unfold nodeOf. cbn. by rewrite lookup_delete_ne. }
  assert (GetNodes Sum64 (RemoveNode r x) key n =
    Some (map (nodeOf r) (take (Nat.min (Z.to_nat n) (size (nodes r) - 1)) (filter (fun id => id <> x) L)))) as ->.
  { destruct (decide (vnodes (RemoveNode r x) = [])) as [E|E].
    - unfold GetNodes. rewrite decide_True by done. pose proof (length_owners Sum64 _ h Hr') as HL'. rewrite E, Esz in HL'. cbn in HL'.
      by rewrite <-HL', Nat.min_0_r, take_0.
    - rewrite (GetNodes_owners Sum64 _ key n Hr' E Hn), capped_eq, Esz, Ev, owners_filter by done. f_equal. apply map_ext_in.
      intros id Hid%list_elem_of_In. apply Eno. fold h L in Hid.
      assert (id ∈ filter (fun id => id <> x) L) as [? _]%list_elem_of_filter; [|done].
      rewrite <-(take_drop (Nat.min (Z.to_nat n) (size (nodes r) - 1)) (filter _ L)). apply elem_of_app. by left. }
  eexists. split; [done|]. split; [done|]. split.
  - intros Hni. fold h L in Hni. rewrite Eids in Hni. f_equal. by apply T1.
  - fold h L. rewrite Hfm by done. destruct T2 as [t Et]. rewrite Et, map_app. by apply prefix_app_r.
Qed.

(** No two points share a hash. *)
Definition distinct (vs : list vnode) : Prop := NoDup (map hash vs).

Definition hash_lt (a b : vnode) : Prop := hash a < hash b.

#[local] Instance hash_lt_antisymm : AntiSymm (=) hash_lt.
Proof. intros a b Hab Hba. unfold hash_lt in *. lia. Qed.

Lemma sorted_distinct vs : sorted vs -> distinct vs -> StronglySorted hash_lt vs.
Proof.
  induction 1 as [|v vs Hs IH Hx]; intros Hd; constructor; cbn in Hd; apply NoDup_cons in Hd as [Hn Hd]; [by apply IH|].
  rewrite Forall_forall in Hx |- *. intros y Hy. specialize (Hx y Hy). unfold by_hash, hash_lt in *.
  assert (hash v <> hash y); [|lia]. intros E. apply Hn. apply list_elem_of_fmap. by exists y.
Qed.

Lemma sorted_unique vs vs' : sorted vs -> sorted vs' -> distinct vs -> vs ≡ₚ vs' -> vs = vs'.
Proof.
  intros H1 H2 Hd Hp. apply (StronglySorted_unique hash_lt).
  - by apply sorted_distinct.
  - apply sorted_distinct; [done|]. unfold distinct in *. by rewrite <-Hp.
  - done.
Qed.

(** Adding and removing a node that was not a member gives the ring back, point
    for point, when no two points share a hash; with the minimal disruption of
    removals, a node that joins takes over only the keys it now holds. *)
Theorem ring_add_remove vn os node :
  let r := ring_run vn os in
  nodes r !! NodeID node = None -> distinct (vnodes (AddNode Sum64 r node)) ->
  RemoveNode (AddNode Sum64 r node) (NodeID node) = r.
Proof.
  intros r Hno Hd. pose proof (ring_run_ok vn os : ring_ok Sum64 r) as Hr. pose proof (AddNode_ok Sum64 r node Hr) as Ha.
  pose proof (RemoveNode_ok Sum64 _ (NodeID node) Ha) as Hrr.
  unfold RemoveNode in *. unfold AddNode in *. rewrite Hno in *. cbn [nodes vnodes vnodesPerNode] in *. rewrite lookup_insert_eq in *.
  destruct r as [vs ns k] eqn:Er. cbn [nodes vnodes vnodesPerNode] in *. f_equal.
  - apply sorted_unique; [apply (rk_sorted _ _ Hrr)|apply (rk_sorted _ _ Hr)| |].
    + unfold distinct in *. eapply sublist_NoDup; [exact Hd|]. apply (fmap_sublist hash), sublist_filter.
    + rewrite merge_sort_Permutation, filter_app.
      assert (forall l : list vnode, (forall v, v ∈ l -> nodeID v <> NodeID node) -> filter (fun v => nodeID v <> NodeID node) l = l) as Ht.
      { induction l as [|v l IH]; intros H; [done|]. rewrite filter_cons_True by (apply H; left). rewrite IH; [done|]. intros; apply H; by right. }
      assert (forall l : list vnode, (forall v, v ∈ l -> nodeID v = NodeID node) -> filter (fun v => nodeID v <> NodeID node) l = []) as Hf.
      { induction l as [|v l IH]; intros H; [done|]. rewrite filter_cons_False by (intros H'; apply H', H; left). apply IH. intros; apply H; by right. }
      rewrite Ht, Hf, app_nil_r; [done|..].
      * intros v. apply nodeVnodes_id.
      * intros v Hv E. apply (rk_points _ _ Hr) in Hv as [[? Hv] _]. cbn in Hv. rewrite E, Hno in Hv. done.
  - by rewrite delete_insert_id.
Qed.

Lemma window_owners r i v n :
  ring_ok Sum64 r -> distinct (vnodes r) -> vnodes r !! i = Some v -> (0 < n)%nat ->
  walk (length (vnodes r)) (vnodes r) n i [] = Some (take n (owners (hash v) (vnodes r))).
Proof.
  intros Hr Hd Hv Hn. rewrite walk_all by (done || by eapply lookup_lt_Some). do 2 f_equal. unfold owners. do 2 f_equal.
  pose proof (sorted_distinct _ (rk_sorted _ _ Hr) Hd) as Hs. apply sorted_split; [apply (rk_sorted _ _ Hr)|..].
  - intros k w Hk Hw. clear -Hs Hv Hw Hk. revert i k Hv Hw Hk. induction Hs as [|x l Hs IH Hx]; intros [|i] [|k] Hv Hw Hk; cbn in *; try done; try lia.
    + simplify_eq. rewrite Forall_forall in Hx. apply (Hx v). by eapply list_elem_of_lookup_2.
    + apply (IH i k); [done|done|lia].
  - intros k w Hk Hw. by apply (sorted_lookup _ i k v w (rk_sorted _ _ Hr)).
Qed.

Lemma peersLoop_spec starts vs n self peers W :
  (forall i, i ∈ starts -> walk (length vs) vs n i [] = Some (W i)) ->
  exists out, peersLoop starts vs n self peers = Some out /\
    forall id, id ∈ out <-> id ∈ peers \/ exists i, i ∈ starts /\ self ∈ W i /\ id ∈ W i /\ id <> self.
Proof.
  revert peers; induction starts as [|i starts IH]; intros peers HW; cbn [peersLoop].
  { exists peers. split; [done|]. intros id. split; [by left|]. intros [?|(i & ?%elem_of_nil & _)]; done. }
  rewrite HW by left. cbn [mbind option_bind].
  destruct (IH (if decide (self ∈ W i) then peers ∪ list_to_set (filter (fun id => id <> self) (W i)) else peers)) as (out & E & Hout);
    [intros; apply HW; by right|].
  exists out. split; [done|]. intros id. rewrite Hout. setoid_rewrite elem_of_cons. case_decide as Hs.
  - rewrite elem_of_union, elem_of_list_to_set, list_elem_of_filter. split.
    + intros [[?|[? ?]]|(j & ? & ?)]; [by left|right; exists i; auto|right; exists j; tauto].
    + intros [?|(j & [->|?] & ? & ? & ?)]; [tauto|left; right; done|right; exists j; tauto].
  - split; [intros [?|(j & ? & ?)]; [by left|right; exists j; tauto]|]. intros [?|(j & [->|?] & ? & ?)]; [by left|done|right; exists j; tauto].
Qed.

(** [CoReplicas] is exact: with pairwise distinct hashes, it returns without
    duplicates precisely the other nodes that appear together with the given
    member among the first min(n, size) owners of some ring position. *)
Theorem ring_coreplicas vn os self n :
  let r := ring_run vn os in
  is_Some (nodes r !! self) -> 0 < n -> distinct (vnodes r) ->
  exists out, CoReplicas r self n = Some out /\ NoDup out /\
    forall id, id ∈ out <-> id <> self /\
      exists h, self ∈ take (Z.to_nat (Z.min n (Size r))) (owners h (vnodes r)) /\
                id ∈ take (Z.to_nat (Z.min n (Size r))) (owners h (vnodes r)).
Proof.
  intros r Hself Hn Hd. pose proof (ring_run_ok vn os : ring_ok Sum64 r) as Hr.
  assert (nodes r <> ∅) as Hne by (intros E; rewrite E in Hself; destruct Hself as [? H]; by rewrite lookup_empty in H).
  pose proof (vnodes_nonempty r Hr Hne) as Hv.
  assert (capped r n = Z.to_nat (Z.min n (Size r))) as Ec by (unfold capped; destruct (Z.ltb_spec (Size r) n); f_equal; lia).
  rewrite <-Ec. unfold CoReplicas. rewrite decide_False by done. rewrite (proj2 (Z.leb_gt _ _)) by lia. destruct Hself as [nd ->].
  assert (0 < capped r n)%nat as Hc.
  { rewrite capped_eq by done. destruct (decide (size (nodes r) = 0)%nat) as [E0|]; [by apply map_size_empty_inv in E0|lia]. }
  destruct (peersLoop_spec (seq 0 (length (vnodes r))) (vnodes r) (capped r n) self ∅
              (fun i => take (capped r n) (owners (match vnodes r !! i with Some v => hash v | None => 0 end) (vnodes r)))) as (out & -> & Hout).
  { intros i Hi%elem_of_seq. destruct (lookup_lt_is_Some_2 (vnodes r) i ltac:(lia)) as [v Ev]. rewrite Ev. by apply window_owners. }
  cbn [mbind option_bind]. eexists. split; [done|]. split; [rewrite merge_sort_Permutation; apply NoDup_elements|].
  intros id. rewrite merge_sort_Permutation, elem_of_elements, Hout. split.
  - intros [?%elem_of_empty|(i & _ & H1 & H2 & H3)]; [done|]. split; [done|]. eexists. split; [exact H1|exact H2].
  - intros [Hid (h & H1 & H2)]. right. destruct (ring_search_spec r h (rk_sorted _ _ Hr) Hv) as [Hi Hrot]. exists (search r h).
    destruct (lookup_lt_is_Some_2 _ _ Hi) as [v Ev]. rewrite Ev.
    assert (owners (hash v) (vnodes r) = owners h (vnodes r)) as Eo.
    { pose proof (window_owners r _ v (size (nodes r)) Hr Hd Ev) as Hw. pose proof Hc as Hc'. rewrite capped_eq in Hc' by done.
      rewrite walk_all, Hrot in Hw by lia. specialize (Hw ltac:(lia)). injection Hw as Hw. fold (owners h (vnodes r)) in Hw.
      rewrite !take_ge in Hw by (rewrite (length_owners Sum64) by done; lia). done. }
    rewrite Eo. split; [apply elem_of_seq; lia|]. done.
Qed.
End claims.

(** ** A small ring *)
Definition demo_Sum64 (b : bytes) : Z := fold_left (fun h x => u64 (Z.lxor h (bZ x) * 1099511628211)) b 14695981039346656037.
Definition demo_node (b : Byte.byte) : Node := mkNode [b] [b; b].
Definition demo_members : list ring_op :=
  [RAdd (demo_node Byte.x61); RAdd (demo_node Byte.x62); RReplace [demo_node Byte.x61; demo_node Byte.x62; demo_node Byte.x63];
   RRemove [Byte.x62]; RAdd (demo_node Byte.x64)].
Abbreviation demo_ring := (ring_run demo_Sum64 3 demo_members).

Lemma ring_replica_set_witness :
  exists ns, GetNodes demo_Sum64 demo_ring [Byte.x6b] 2 = Some ns /\
    map NodeID ns = take 2 (owners (hashKey demo_Sum64 [Byte.x6b]) (vnodes demo_ring)) /\
    NoDup (map NodeID ns) /\ len ns = 2 /\ Forall (fun nd => nodes demo_ring !! NodeID nd = Some nd) ns /\
    GetNode demo_Sum64 demo_ring [Byte.x6b] = head ns.
Proof.
  apply (ring_replica_set demo_Sum64 3 demo_members [Byte.x6b] 2); [|reflexivity].
  intros E. apply (f_equal (lookup [Byte.x61])) in E. vm_compute in E. discriminate E.
Defined.

Lemma ring_remove_minimal_witness :
  exists ns ns', GetNodes demo_Sum64 demo_ring [Byte.x6b] 2 = Some ns /\
    GetNodes demo_Sum64 (RemoveNode demo_ring [Byte.x61]) [Byte.x6b] 2 = Some ns' /\
    ([Byte.x61] ∉ map NodeID ns -> ns' = ns) /\ filter (fun nd => NodeID nd <> [Byte.x61]) ns `prefix_of` ns'.
Proof. apply (ring_remove_minimal demo_Sum64 3 demo_members [Byte.x6b] 2 [Byte.x61]); [vm_compute; by eexists|reflexivity]. Defined.

Lemma ring_add_remove_witness :
  RemoveNode (AddNode demo_Sum64 demo_ring (demo_node Byte.x65)) [Byte.x65] = demo_ring.
Proof. apply (ring_add_remove demo_Sum64 3 demo_members (demo_node Byte.x65)); [vm_compute; reflexivity|]. unfold distinct. by_decide. Defined.

Lemma ring_coreplicas_witness :
  exists out, CoReplicas demo_ring [Byte.x61] 2 = Some out /\ NoDup out /\
    forall id, id ∈ out <-> id <> [Byte.x61] /\
      exists h, [Byte.x61] ∈ take 2 (owners h (vnodes demo_ring)) /\ id ∈ take 2 (owners h (vnodes demo_ring)).
Proof. apply (ring_coreplicas demo_Sum64 3 demo_members [Byte.x61] 2); [vm_compute; by eexists|reflexivity|]. unfold distinct. by_decide. Defined.
