(* ===== verification/Envelope.v ===== *)
(** * Replicated values (src/cluster/envelope.go)

    A replica stores the bytes of an [Envelope]: the value, or a tombstone, with
    the hybrid logical timestamp of the write.  The codec, the last-writer-wins
    choice [NewerEnvelope], and the order on envelopes the cluster relies on. *)

From Stdlib Require Import ZArith Lia Sorted.
From stdpp Require Import base list option sorting.
From S2P Require Import Prelude GoBytes KV HLC.

Record Envelope := mkEnvelope { ETs : Timestamp; EDeleted : bool; EVal : option bytes }.
#[global] Instance Envelope_eq_dec : EqDecision Envelope.
Proof. solve_decision. Defined.

Definition envelopeVersion : Byte.byte := Byte.x01.
Definition envelopeHeaderSize : Z := 1 + 1.
Definition NodeIDLenOffset : Z := wallTimeSize + logicalSize.

Inductive EnvErr := ErrUnknownEnvelopeVersion | ErrCorruptEnvelope | ErrEnvTimestamp (e : HlcErr).

(** [fmt.Errorf] with [%w] around an error of [hlc]. *)
Definition wrap_ts {A} (o : outcome HlcErr A) : outcome EnvErr A :=
  match o with Ok a => Ok a | Err e => Err (ErrEnvTimestamp e) | Panic => Panic end.

Definition EncodeEnvelope (e : Envelope) : outcome EnvErr bytes :=
  tsBytes ← wrap_ts (Encode (ETs e));
  if EDeleted e then Ok (envelopeVersion :: Byte.x01 :: tsBytes)
  else Ok (envelopeVersion :: Byte.x00 :: tsBytes ++ sl (EVal e)).

Definition DecodeEnvelope (b : bytes) : outcome EnvErr Envelope :=
  if len b <? envelopeHeaderSize then Err ErrCorruptEnvelope else
  v ← index b 0;
  if negb (bool_decide (v = envelopeVersion)) then Err ErrUnknownEnvelopeVersion else
  d ← index b 1;
  let deleted := negb (bool_decide (d = Byte.x00)) in
  let tsStart := envelopeHeaderSize in
  if len b <? tsStart + TimestampHeaderSize then Err ErrCorruptEnvelope else
  tail ← slice_from b (tsStart + NodeIDLenOffset);
  nodeIDLen ← be_Uint16 tail;
  let tsEnd := tsStart + TimestampHeaderSize + nodeIDLen in
  if len b <? tsEnd then Err ErrCorruptEnvelope else
  tsb ← slice b tsStart tsEnd;
  ts ← wrap_ts (DecodeTimestamp tsb);
  if deleted then
    if negb (len b =? tsEnd) then Err ErrCorruptEnvelope else Ok (mkEnvelope ts true None)
  else remaining ← slice_from b tsEnd; Ok (mkEnvelope ts false (Some remaining)).

Definition NewerEnvelope (a b : Envelope) : Envelope :=
  if Less (ETs b) (ETs a) || Equal (ETs a) (ETs b) then a else b.

(** ** The codec *)
Definition env_ok (e : Envelope) : Prop := ts_ok (ETs e) /\ len (NodeID (ETs e)) <= maxNodeIDLen.
#[global] Instance env_ok_dec e : Decision (env_ok e).
Proof. unfold env_ok, ts_ok. apply _. Defined.
(** What is read back: the data of a tombstone is dropped, a nil value is empty. *)
Definition env_norm (e : Envelope) : Envelope :=
  mkEnvelope (ETs e) (EDeleted e) (if EDeleted e then None else Some (sl (EVal e))).

Lemma wrap_ts_ok {A} (o : outcome HlcErr A) a : wrap_ts o = Ok a -> o = Ok a.
Proof. destruct o; cbn; congruence. Qed.

(** The bytes of an encoded envelope. *)
Definition env_bytes (e : Envelope) : bytes :=
  let ts := put_be 8 (u64 (WallTime (ETs e))) ++ put_be 4 (Logical (ETs e))
            ++ put_be 2 (len (NodeID (ETs e))) ++ NodeID (ETs e) in
  envelopeVersion :: (if EDeleted e then Byte.x01 else Byte.x00) :: ts ++ (if EDeleted e then [] else sl (EVal e)).

Lemma EncodeEnvelope_ok e : len (NodeID (ETs e)) <= maxNodeIDLen -> EncodeEnvelope e = Ok (env_bytes e).
Proof.
  intros H. unfold EncodeEnvelope, env_bytes. rewrite (Encode_ok _ H). cbn [wrap_ts mbind outcome_bind].
  destruct (EDeleted e); [by rewrite app_nil_r|done].
Qed.

Lemma EncodeEnvelope_inv e b : EncodeEnvelope e = Ok b -> b = env_bytes e /\ len (NodeID (ETs e)) <= maxNodeIDLen.
Proof.
  intros E. destruct (Z.le_gt_cases (len (NodeID (ETs e))) maxNodeIDLen) as [H|H].
  - rewrite (EncodeEnvelope_ok _ H) in E. by injection E as <-.
  - unfold EncodeEnvelope, Encode in E. by rewrite (proj2 (Z.ltb_lt _ _)) in E by lia.
Qed.

Ltac env_lia := unfold envelopeHeaderSize, NodeIDLenOffset in *; hlc_lia.

Lemma Decode_env_bytes e : env_ok e -> DecodeEnvelope (env_bytes e) = Ok (env_norm e).
Proof.
  intros [Ht Hn]. unfold env_bytes.
  set (ts := put_be 8 _ ++ _). set (rest := if EDeleted e then [] else _). set (flag := if EDeleted e then Byte.x01 else Byte.x00).
  assert (len ts = TimestampHeaderSize + len (NodeID (ETs e))) as Hl by (subst ts; hlc_lia).
  unfold DecodeEnvelope. pose proof (len_nonneg (NodeID (ETs e))). pose proof (len_nonneg rest).
  rewrite (proj2 (Z.ltb_ge _ _)) by env_lia.
  erewrite (index_eq _ [] _ _ 0) by reflexivity. cbn [mbind outcome_bind]. rewrite bool_decide_true by done. cbn [negb].
  erewrite (index_eq _ [_] _ _ 1) by reflexivity. cbn [mbind outcome_bind].
  rewrite (proj2 (Z.ltb_ge _ _)) by env_lia.
  rewrite (slice_from_eq _ (envelopeVersion :: flag :: put_be 8 (u64 (WallTime (ETs e))) ++ put_be 4 (Logical (ETs e)))
             (put_be 2 (len (NodeID (ETs e))) ++ NodeID (ETs e) ++ rest)); [|subst ts; app_eq|env_lia].
  cbn [mbind outcome_bind]. unfold maxNodeIDLen in Hn.
  rewrite be_Uint16_put, (u16_small (len _)) by lia. cbn [mbind outcome_bind].
  rewrite (proj2 (Z.ltb_ge _ _)) by env_lia.
  rewrite (slice_eq _ [envelopeVersion; flag] ts rest); [|done|env_lia|env_lia]. cbn [mbind outcome_bind].
  subst ts. rewrite Decode_encoded by done. cbn [wrap_ts mbind outcome_bind]. unfold env_norm.
  subst rest flag. destruct (EDeleted e); cbn [negb bool_decide decide decide_rel].
  - rewrite (proj2 (Z.eqb_eq _ _)); [done|]. rewrite app_nil_r in *. env_lia.
  - match goal with |- context [slice_from (?a :: ?b :: ?t ++ ?r)] => rewrite (slice_from_eq _ (a :: b :: t) r) end; [done|done|env_lia].
Qed.

(** Accepted bytes are the encoding of what they decode to, up to the flag byte,
    of which only zero or not zero counts. *)
Lemma DecodeEnvelope_ok b e :
  DecodeEnvelope b = Ok e -> env_ok e /\ env_norm e = e /\ exists d, b = <[1%nat := d]> (env_bytes e).
Proof.
  unfold DecodeEnvelope. destruct (Z.ltb_spec (len b) envelopeHeaderSize) as [|H2]; [done|].
  destruct b as [|v [|d b]]; [by cbn in H2..|]. erewrite (index_eq _ [] _ _ 0) by reflexivity. cbn [mbind outcome_bind].
  destruct (bool_decide_reflect (v = envelopeVersion)) as [->|]; [|done]. cbn [negb].
  erewrite (index_eq _ [_] _ _ 1) by reflexivity. cbn [mbind outcome_bind].
  destruct (Z.ltb_spec (len (envelopeVersion :: d :: b)) (envelopeHeaderSize + TimestampHeaderSize)) as [|H3]; [done|]. rewrite !len_cons in H3.
  destruct (len_three b 8 4 2) as (x & y & z & r & -> & Hx & Hy & Hz);
    [unfold envelopeHeaderSize, TimestampHeaderSize, wallTimeSize, logicalSize, nodeIDLenSize, len in H3; lia|].
  assert (len x = 8 /\ len y = 4 /\ len z = 2) as (Lx & Ly & Lz) by (unfold len; lia).
  rewrite (slice_from_eq _ (envelopeVersion :: d :: x ++ y) (z ++ r)); [|app_eq|env_lia].
  cbn [mbind outcome_bind]. unfold be_Uint16. rewrite (get_fixed_app get_be 2 z) by done. cbn [mbind outcome_bind].
  pose proof (get_be_range z) as Rz.
  match goal with |- context [len ?l <? ?e] => destruct (Z.ltb_spec (len l) e) as [|H4]; [done|] end.
  destruct (decide (get_be z <= len r)) as [Hr|Hr]; [|exfalso; env_lia].
  set (nid := take (Z.to_nat (get_be z)) r). set (rest := drop (Z.to_nat (get_be z)) r).
  assert (r = nid ++ rest) as Er by (unfold nid, rest; by rewrite take_drop).
  assert (len nid = get_be z) as Eid by (unfold nid, len in *; rewrite length_take; lia).
  rewrite (slice_eq _ [envelopeVersion; d] (x ++ y ++ z ++ nid) rest); [|rewrite Er; app_eq|env_lia|env_lia].
  cbn [mbind outcome_bind]. destruct (DecodeTimestamp _) as [t| |] eqn:Et; cbn [wrap_ts mbind outcome_bind]; [|done..].
  apply Decode_inv in Et as (Et & Hok & Hn). intros E.
  assert (e = mkEnvelope t (negb (bool_decide (d = Byte.x00))) (if bool_decide (d = Byte.x00) then Some rest else None)
          /\ (d <> Byte.x00 -> rest = [])) as [-> Hrest].
  { destruct (bool_decide_reflect (d = Byte.x00)) as [->|Hd]; cbn [negb] in E |- *.
    - rewrite (slice_from_eq _ (envelopeVersion :: Byte.x00 :: x ++ y ++ z ++ nid) rest) in E; [|rewrite Er; app_eq|env_lia].
      injection E as <-. done.
    - match type of E with context [len ?l =? ?k] => destruct (Z.eqb_spec (len l) k) as [El|]; [|done] end. injection E as <-.
      split; [done|]. intros _. apply len_zero_nil. rewrite Er in El. env_lia. }
  split; [done|]. split; [by destruct (bool_decide_reflect (d = Byte.x00))|]. exists d. unfold env_bytes. cbn [ETs EDeleted EVal].
  rewrite <-Et. destruct (bool_decide_reflect (d = Byte.x00)) as [->|Hd]; cbn [negb sl default id].
  - cbn. rewrite Er. f_equal. f_equal. rewrite <-!app_assoc. by f_equal.
  - cbn. rewrite Er, Hrest by done. f_equal. f_equal. by rewrite <-!app_assoc.
Qed.

(** ** Last writer wins *)
Lemma Less_total a b : Less a b = true \/ Less b a = true \/ a = b.
Proof. destruct hlc_total_order as (_ & _ & H). destruct (H a b) as [|[|[? _]]]; tauto. Qed.

Lemma Less_asym a b : Less a b = true -> Less b a = false.
Proof.
  intros H. destruct (Less b a) eqn:E; [|done]. pose proof (Less_trans _ _ _ H E) as Hc. by rewrite Less_irrefl in Hc.
Qed.

Lemma Equal_iff a b : Equal a b = true <-> a = b.
Proof.
  unfold Equal, bytes_Equal. rewrite !andb_true_iff, !Z.eqb_eq, bool_decide_eq_true. destruct a, b; cbn. naive_solver.
Qed.

(** [b] is not older than [a]. *)
Definition ts_le (a b : Timestamp) : Prop := Less b a = false.

Lemma ts_le_refl a : ts_le a a.
Proof. apply Less_irrefl. Qed.
Lemma ts_le_cases a b : ts_le a b <-> Less a b = true \/ a = b.
Proof.
  unfold ts_le. split.
  - intros H. destruct (Less_total a b) as [?|[?|?]]; [by left|congruence|by right].
  - intros [H| ->]; [by apply Less_asym|apply Less_irrefl].
Qed.
Lemma ts_le_trans a b c : ts_le a b -> ts_le b c -> ts_le a c.
Proof. rewrite !ts_le_cases. intros [H1| ->] [H2| ->]; eauto using Less_trans. Qed.
Lemma ts_le_antisym a b : ts_le a b -> ts_le b a -> a = b.
Proof. rewrite !ts_le_cases. intros [H1| ->] [H2|H2]; try done. apply Less_asym in H1. congruence. Qed.
Lemma ts_le_total a b : ts_le a b \/ ts_le b a.
Proof. rewrite !ts_le_cases. destruct (Less_total a b) as [?|[?|?]]; auto. Qed.
Lemma Less_ts_le a b : Less a b = true -> ts_le a b.
Proof. intros. apply ts_le_cases. by left. Qed.
Lemma ts_le_false a b : ~ ts_le a b -> Less b a = true.
Proof. unfold ts_le. by destruct (Less b a). Qed.
#[global] Instance ts_le_dec a b : Decision (ts_le a b).
Proof. unfold ts_le. apply _. Defined.

Create HintDb lww.
#[export] Hint Resolve ts_le_refl Less_ts_le ts_le_trans : lww.

Lemma NewerEnvelope_le a b : ts_le (ETs a) (ETs (NewerEnvelope a b)) /\ ts_le (ETs b) (ETs (NewerEnvelope a b)).
Proof.
  unfold NewerEnvelope. destruct (Less (ETs b) (ETs a)) eqn:E1; cbn; [by split; auto with lww|].
  destruct (Equal (ETs a) (ETs b)) eqn:E2; [apply Equal_iff in E2; rewrite E2; auto with lww|]. auto with lww.
Qed.

Lemma NewerEnvelope_pick a b : NewerEnvelope a b = a \/ NewerEnvelope a b = b.
Proof. unfold NewerEnvelope. destruct (_ || _); auto. Qed.

(** [NewerEnvelope] is idempotent and associative, and commutative on envelopes
    of different timestamps; it keeps its first argument when the timestamps
    are equal, so two different envelopes of one timestamp are not resolved
    alike on all replicas. *)
Theorem newer_envelope_join a b c :
  NewerEnvelope a a = a /\
  NewerEnvelope a (NewerEnvelope b c) = NewerEnvelope (NewerEnvelope a b) c /\
  (ETs a <> ETs b -> NewerEnvelope a b = NewerEnvelope b a) /\
  (ETs a = ETs b -> NewerEnvelope a b = a).
Proof.
  assert (forall a b, NewerEnvelope a b = if decide (ts_le (ETs b) (ETs a)) then a else b) as Hd.
  { intros x y. unfold NewerEnvelope. case_decide as H.
    - apply ts_le_cases in H as [-> | ->]; [done|]. by rewrite (proj2 (Equal_iff _ _)), orb_true_r.
    - apply ts_le_false in H. rewrite (Less_asym _ _ H). destruct (Equal _ _) eqn:E; [|done].
      apply Equal_iff in E. rewrite E, Less_irrefl in H. done. }
  rewrite !Hd. split_and!.
  - by case_decide.
  - repeat case_decide; try done; exfalso; eauto using ts_le_trans.
    destruct (ts_le_total (ETs b) (ETs c)) as [H'|H']; eauto using ts_le_trans.
  - intros Hne. destruct (ts_le_total (ETs a) (ETs b)); repeat case_decide; try done; by destruct Hne; apply ts_le_antisym.
  - intros ->. by rewrite decide_True by apply ts_le_refl.
Qed.

(** Envelopes survive storage.  An envelope with a timestamp of
    machine width and a node name of at most 65535 bytes is encoded, and decodes
    to itself, except that a tombstone loses its data and a nil value becomes
    empty; and whatever decodes is an encoding of its result up to the value of
    a non-zero flag byte. *)
Theorem envelope_roundtrip e :
  env_ok e ->
  (exists b, EncodeEnvelope e = Ok b /\ DecodeEnvelope b = Ok (env_norm e)) /\
  (forall b e', DecodeEnvelope b = Ok e' -> exists b' d, EncodeEnvelope e' = Ok b' /\ b = <[1%nat := d]> b').
Proof.
  intros He. split.
  - exists (env_bytes e). split; [apply EncodeEnvelope_ok, He|by apply Decode_env_bytes].
  - intros b e' (Hok & _ & d & ->)%DecodeEnvelope_ok. exists (env_bytes e'), d. split; [apply EncodeEnvelope_ok, Hok|done].
Qed.

Lemma envelope_roundtrip_witness :
  let e := mkEnvelope (mkTs 7 1 [Byte.x61]) true (Some [Byte.x62]) in
  exists b, EncodeEnvelope e = Ok b /\ DecodeEnvelope b = Ok (env_norm e).
Proof.
  apply (envelope_roundtrip (mkEnvelope (mkTs 7 1 [Byte.x61]) true (Some [Byte.x62]))).
  by_decide.
Defined.
