(* ===== verification/KVStore.v ===== *)
(** * The store a node keeps (interface between src/db and src/cluster)

    The cluster layer uses its [*db.DB] through [Put], [Delete], write batches,
    [Get], [Scan] and [ScanPrefix].  [KVStore] is that interface, [KVLaws] what
    it promises: a finite map from user keys to values, scanned in key order.
    The theorems on the cluster are proved against [KVLaws]; [map_laws] is the
    obvious instance, and EngineStore.v discharges the laws for the storage
    engine of DB.v. *)

From Stdlib Require Import ZArith Lia List Sorted.
From stdpp Require Import base list option gmap sorting.
From S2P Require Import Prelude GoBytes KV Entries.

(** A write that fails leaves the store as it was ([None]). *)
Class KVStore (S : Type) := {
  db_Put : bytes -> bytes -> S -> option S;
  db_Delete : bytes -> S -> option S;
  db_Batch : list (bytes * bytes) -> S -> option S;
  db_Get : S -> bytes -> option Value;
  db_Scan : S -> list (bytes * option bytes);
  db_ScanPrefix : bytes -> S -> list (bytes * option bytes)
}.

Definition key_lt {A} (a b : bytes * A) : Prop := blt a.1 b.1.
Definition put_all (kvs : list (bytes * bytes)) (m : gmap bytes Value) : gmap bytes Value :=
  fold_left (fun m kv => <[kv.1 := NewValue (Some kv.2)]> m) kvs m.
(** [l] lists the entries of [m] that satisfy [P], in key order. *)
Definition lists (m : gmap bytes Value) (P : bytes -> Prop) (l : list (bytes * option bytes)) : Prop :=
  StronglySorted key_lt l /\
  forall u v, (u, v) ∈ l <-> P u /\ exists w, m !! u = Some w /\ v = iter_value w.

(** [key_ok] are the user keys the deployment uses; the engine needs that none of
    them is a proper prefix of another one. *)
Class KVLaws (S : Type) `{!KVStore S} := {
  key_ok : bytes -> Prop;
  contents : S -> gmap bytes Value;
  law_keys s (u : bytes) w : contents s !! u = Some w -> key_ok u;
  law_put k v s s' : db_Put k v s = Some s' -> contents s' = <[k := NewValue (Some v)]> (contents s);
  law_delete k s s' : db_Delete k s = Some s' -> contents s' = <[k := NewTombstone]> (contents s);
  law_batch kvs s s' : db_Batch kvs s = Some s' -> contents s' = put_all kvs (contents s);
  law_get s u : key_ok u -> db_Get s u = contents s !! u;
  law_scan s : lists (contents s) (fun _ => True) (db_Scan s);
  law_scan_prefix s p :
    (forall u w, contents s !! u = Some w -> u `prefix_of` p -> u = p) ->
    lists (contents s) (fun u => p `prefix_of` u) (db_ScanPrefix p s)
}.

(** ** Two lists of the same entries in key order are equal *)
Lemma scan_unique {A} (l1 l2 : list (bytes * A)) :
  StronglySorted key_lt l1 -> StronglySorted key_lt l2 -> (forall x, x ∈ l1 <-> x ∈ l2) -> l1 = l2.
Proof.
  revert l2; induction l1 as [|x l1 IH]; intros [|y l2] H1 H2 Hin; [done|..].
  - exfalso. apply (not_elem_of_nil y), Hin. left.
  - exfalso. apply (not_elem_of_nil x), Hin. left.
  - apply StronglySorted_inv in H1 as [H1 F1]. apply StronglySorted_inv in H2 as [H2 F2]. rewrite Forall_forall in F1, F2.
    assert (x = y) as ->.
    { destruct (proj1 (elem_of_cons _ _ _) (proj1 (Hin x) (list_elem_of_here _ _))) as [|Hx]; [done|].
      destruct (proj1 (elem_of_cons _ _ _) (proj2 (Hin y) (list_elem_of_here _ _))) as [|Hy]; [done|].
      exfalso. apply (blt_irrefl x.1). eapply blt_trans; [by apply F1|by apply F2]. }
    f_equal. apply IH; [done..|]. intros z. specialize (Hin z). rewrite !elem_of_cons in Hin. split; intros Hz.
    + destruct (proj1 Hin (or_intror Hz)) as [->|]; [|done]. exfalso. by apply (blt_irrefl y.1), F1.
    + destruct (proj2 Hin (or_intror Hz)) as [->|]; [|done]. exfalso. by apply (blt_irrefl y.1), F2.
Qed.

(** ** The map itself *)
Definition by_key (a b : bytes * option bytes) : Prop := ble a.1 b.1.
#[global] Instance by_key_dec a b : Decision (by_key a b).
Proof. unfold by_key, ble. apply _. Defined.

#[local] Instance by_key_trans : Transitive by_key.
Proof. intros ???. apply ble_trans. Qed.
#[local] Instance by_key_total : Total by_key.
Proof. intros a b. unfold by_key. rewrite !ble_iff. destruct (blt_total a.1 b.1) as [?|[?|?]]; auto. Qed.

Definition map_scan (P : bytes -> bool) (m : gmap bytes Value) : list (bytes * option bytes) :=
  merge_sort by_key (prod_map id iter_value <$> filter (fun kw : bytes * Value => P kw.1 = true) (map_to_list m)).

#[global] Instance map_store : KVStore (gmap bytes Value) := {
  db_Put k v m := Some (<[k := NewValue (Some v)]> m);
  db_Delete k m := Some (<[k := NewTombstone]> m);
  db_Batch kvs m := Some (put_all kvs m);
  db_Get m u := m !! u;
  db_Scan := map_scan (fun _ => true);
  db_ScanPrefix p := map_scan (fun u => bool_decide (p `prefix_of` u))
}.

Lemma map_scan_lists P m : lists m (fun u => P u = true) (map_scan P m).
Proof.
  assert (forall u v, (u, v) ∈ map_scan P m <-> P u = true /\ exists w, m !! u = Some w /\ v = iter_value w) as Hin.
  { intros u v. unfold map_scan. rewrite merge_sort_Permutation, list_elem_of_fmap. split.
    - intros ([u' w] & [= -> ->] & [Hp Hw]%list_elem_of_filter). apply elem_of_map_to_list in Hw. eauto.
    - intros (Hp & w & Hw & ->). exists (u, w). split; [done|]. apply list_elem_of_filter. split; [done|]. by apply elem_of_map_to_list. }
  split; [|done].
  assert (NoDup (map_scan P m).*1) as Hnd.
  { unfold map_scan. rewrite merge_sort_Permutation, <-list_fmap_compose.
    apply (sublist_NoDup _ ((map_to_list m).*1)); [apply NoDup_fst_map_to_list|].
    change ((fst ∘ prod_map id iter_value) <$> ?l) with (fst <$> l). apply fmap_sublist, sublist_filter. }
  assert (StronglySorted by_key (map_scan P m)) as Hs.
  { apply (StronglySorted_merge_sort by_key). }
  clear Hin. induction Hs as [|x l Hs IH Hf]; [constructor|]. cbn in Hnd. apply NoDup_cons in Hnd as [Hx Hnd]. constructor; [auto|].
  rewrite Forall_forall in Hf |- *. intros y Hy. specialize (Hf y Hy). unfold by_key in Hf. apply ble_iff in Hf as [|E]; [done|].
  exfalso. apply Hx. rewrite E. by apply list_elem_of_fmap_2.
Qed.

#[global] Instance map_laws : KVLaws (gmap bytes Value).
Proof.
  refine {| key_ok := fun _ => True; contents := fun m => m |}; try done; cbn.
  - by intros k v s s' [= <-].
  - by intros k s s' [= <-].
  - by intros k s s' [= <-].
  - intros s. destruct (map_scan_lists (fun _ => true) s) as [H1 H2]. split; [done|]. intros u v. rewrite H2. naive_solver.
  - intros s p _. destruct (map_scan_lists (fun u => bool_decide (p `prefix_of` u)) s) as [H1 H2]. split; [done|].
    intros u v. by rewrite H2, bool_decide_eq_true.
Defined.

(** ** Consequences of the laws *)
Section laws.
Context {S : Type} `{!KVStore S, !KVLaws S}.

Lemma lists_sorted (m : gmap bytes Value) P l : lists m P l -> StronglySorted key_lt l.
Proof. by intros []. Qed.

Lemma lists_fun (m : gmap bytes Value) P l1 l2 : lists m P l1 -> lists m P l2 -> l1 = l2.
Proof.
  intros [H1 E1] [H2 E2]. apply scan_unique; [done..|]. intros [u v]. by rewrite E1, E2.
Qed.

Lemma put_all_lookup (kvs : list (bytes * bytes)) (m : gmap bytes Value) (u : bytes) :
  u ∉ kvs.*1 -> put_all kvs m !! u = m !! u.
Proof.
  revert m; induction kvs as [|[k v] kvs IH]; intros m Hu; [done|]. cbn in Hu. apply not_elem_of_cons in Hu as [H1 H2].
  change (put_all ((k, v) :: kvs) m) with (put_all kvs (<[k := NewValue (Some v)]> m)). rewrite IH by done. by rewrite lookup_insert_ne.
Qed.

Lemma put_all_nodup (kvs : list (bytes * bytes)) (m : gmap bytes Value) (u v : bytes) :
  NoDup kvs.*1 -> (u, v) ∈ kvs -> put_all kvs m !! u = Some (NewValue (Some v)).
Proof.
  revert m; induction kvs as [|[k w] kvs IH]; intros m Hnd Hin; [by apply elem_of_nil in Hin|].
  cbn in Hnd. apply NoDup_cons in Hnd as [Hk Hnd]. change (put_all ((k, w) :: kvs) m) with (put_all kvs (<[k := NewValue (Some w)]> m)).
  apply elem_of_cons in Hin as [[= -> ->]|Hin]; [|by apply IH]. rewrite put_all_lookup by done. by rewrite lookup_insert_eq.
Qed.
End laws.
