(* ===== verification/EngineStore.v ===== *)
(** * The storage engine as the store of a node (src/db behind the interface of KVStore.v)

    [sys_write], [sys_get] and the scans are the operations of the engine as its
    clients call them: a write that finds the backlog full waits for the flush loop;
    scans are drained and closed before the next operation.

    [KVLaws] holds of the engine within the limits of [admissible_b].  The class has
    no place for conditions on a write, so the type [engine] has only the states
    that admissible operations reach from an empty database, and its writes refuse
    what the limits exclude; a real engine accepts some of these writes and loses
    them later.  Within the limits the two do the same ([write_within]), and the
    theorem of Standalone.v is about the operations that refuse nothing.  [K] are
    the user keys of the deployment, none of them empty or a proper prefix of
    another one. *)

From Stdlib Require Import ZArith Lia List Sorted.
From stdpp Require Import base list option gmap sorting.
From S2P Require Import Prelude GoBytes KV Entries WAL Iter SkipList Memtable Iterators Block SSTable SSTIter.
From S2P Require Import Manifest Compaction Refcount Registry DB DBProof DBSpec DBScan KVStore.

Class KeyCode (K : bytes -> bool) : Prop := {
  kc_nonempty : K [] = false;
  kc_prefix u v : K u = true -> K v = true -> u `prefix_of` v -> u = v
}.

Section engine_store.
Context (opts : Options) (coins : Z -> nat -> bool).
Context (range_tables : gmap Z SSTableInfo -> list SSTableInfo).
Context (range_hnsw : gmap bytes HNSWSnapshotInfo -> list HNSWSnapshotInfo).
Context (K : bytes -> bool).
Abbreviation step := (sys_step opts coins range_tables range_hnsw).

(** ** The operations of the engine *)
(** An operation that fails leaves the engine as it was. *)
Definition sys_op (o : op) (s : sys) : option sys := match step s o with Ok s => Some s | _ => None end.
(** A write that has to wait goes on once the flush loop has run. *)
Definition sys_write (o : op) (s : sys) : option sys :=
  match step s o with
  | Err Wait => match flushImmutables opts range_tables range_hnsw (sdb s) with Ok db => sys_op o (mkSys db (spend s)) | _ => None end
  | _ => sys_op o s
  end.
(** The entries of a scan, drained. *)
Definition drained (fuel : nat) (r : option (DB * SnapshotIterator (I := raw_iter))) : list (bytes * option bytes) :=
  match r with
  | Some (_, it) =>
      match drain (Iterator0 := snapshot_iterator (E := SstErr) fuel) fuel it with
      | Some (l, None) => map (fun kv => (UserKey kv.1, kv.2)) l
      | _ => []
      end
  | None => []
  end.
Definition sys_get (s : sys) (u : bytes) : option Value := default None (Get (sdb s) u).
Definition sys_scan (s : sys) : list (bytes * option bytes) := drained (total_entries (sdb s)) (Scan (sdb s)).
Definition sys_scan_prefix (p : bytes) (s : sys) : list (bytes * option bytes) := drained (total_entries (sdb s)) (ScanPrefix p (sdb s)).

(** ** States and operations within the limits *)
(** The engine, with the operations it has seen and the versions they wrote. *)
Record est := mkEst { e_ops : list op; e_hist : list entry; e_sys : sys }.
Definition est_ok (x : est) : Prop :=
  reached opts coins range_tables range_hnsw (e_ops x) (e_hist x) (e_sys x) /\ Forall (fun e => K (UserKey e.1) = true) (e_hist x).
Definition est_init : est := mkEst [] [] (init_sys opts coins range_hnsw).

Definition keys_in (o : op) : bool := forallb (fun w => K (bkey w)) (op_writes o).
(** An operation within the limits of [admissible_b]. *)
Definition do_op (o : op) (x : est) : option est :=
  if admissible_b (e_sys x) (e_hist x) o && keys_in o then
    match step (e_sys x) o with
    | Ok s => Some (mkEst (e_ops x ++ [o]) (written (e_sys x) o ++ e_hist x) s)
    | _ => None
    end
  else None.
(** What fits one table. *)
Definition fits_b (h : list entry) : bool := weight h + 2^17 <? 2^32.
Definition flush_all (x : est) : option est :=
  if fits_b (e_hist x) then
    match flushImmutables opts range_tables range_hnsw (sdb (e_sys x)) with
    | Ok db => Some (mkEst (e_ops x ++ replicate (length (immutables (sdb (e_sys x)))) OpFlush) (e_hist x) (mkSys db (spend (e_sys x))))
    | _ => None
    end
  else None.
(** A write that has to wait goes on once the flush loop has run. *)
Definition write_op (o : op) (x : est) : option est :=
  match step (e_sys x) o with
  | Err Wait => x ← flush_all x; do_op o x
  | _ => do_op o x
  end.
Definition est_scan (x : est) : list (bytes * option bytes) := sys_scan (e_sys x).
Definition est_scan_prefix (p : bytes) (x : est) : list (bytes * option bytes) := sys_scan_prefix p (e_sys x).
Definition est_get (x : est) (u : bytes) : option Value := sys_get (e_sys x) u.

Context (Hopts : opts_ok opts) `{!KeyCode K}.

Lemma est_init_ok : est_ok est_init.
Proof. split; [apply steps_nil|constructor]. Qed.

Lemma est_inv x : est_ok x -> exists v, sys_inv opts (e_sys x) (e_hist x) v.
Proof using Hopts. intros [Hr _]. destruct Hopts as [H1 H2]. exact (run_inv _ _ _ _ H1 H2 _ _ _ Hr). Qed.

(** The keys of the versions of an operation. *)
Lemma written_keys (ops : list batchOp) q : forallb (fun w => K (bkey w)) ops = true -> Forall (fun e => K (UserKey e.1) = true) (versions q ops).
Proof.
  revert q; induction ops as [|w ops IH]; intros q; cbn [forallb]; [constructor|]. intros [H1 H2]%andb_prop.
  unfold versions. cbn [batchEntries map]. constructor; [|by apply IH]. cbn [wentry fst Key Seq]. by rewrite UserKey_make.
Qed.

Lemma do_op_spec o x x' : est_ok x -> do_op o x = Some x' -> est_ok x' /\ e_ops x' = e_ops x ++ [o].
Proof using Hopts.
  intros Hx. unfold do_op. destruct (admissible_b _ _ _) eqn:Ea; [|done]. destruct (keys_in o) eqn:Ek; [|done]. cbn. destruct (step _ _) as [s|e|] eqn:Es; [|done..].
  intros [= <-]. split; [|done]. destruct (est_inv x Hx) as [v Hv]. destruct Hx as [Hr Hk]. split; cbn.
  - eapply steps_snoc; [exact Hr|by eapply admissible_b_sound|done].
  - apply Forall_app. split; [by apply written_keys|done].
Qed.
Lemma flush_all_spec x x' : est_ok x -> flush_all x = Some x' -> est_ok x' /\ e_ops x' = e_ops x ++ replicate (length (immutables (sdb (e_sys x)))) OpFlush.
Proof using Hopts.
  intros [Hr Hk]. unfold flush_all. destruct (fits_b _) eqn:Ef; [|done]. apply Z.ltb_lt in Ef.
  destruct (flush_drains opts coins range_tables range_hnsw Hopts _ _ _ _ Hr Ef eq_refl) as (db' & E & _ & _ & _ & Hr').
  unfold flushImmutables. rewrite E. intros [= <-]. done.
Qed.

Lemma store_run_app (os os' : list op) : store_run (os ++ os') = fold_left store_step os' (store_run os).
Proof. apply fold_left_app. Qed.
Lemma store_run_flushes os n : store_run (os ++ replicate n OpFlush) = store_run os.
Proof.
  induction n as [|n IH]; [by rewrite app_nil_r|]. rewrite replicate_S_end, app_assoc, store_run_app, IH. done.
Qed.
Lemma write_op_spec o x x' : est_ok x -> write_op o x = Some x' -> est_ok x' /\ store_run (e_ops x') = store_step (store_run (e_ops x)) o.
Proof using Hopts.
  intros Hx. unfold write_op. assert (do_op o x = Some x' -> est_ok x' /\ store_run (e_ops x') = store_step (store_run (e_ops x)) o) as H.
  { intros [H1 H2]%do_op_spec; [|done]. split; [done|]. by rewrite H2, store_run_app. }
  destruct (step _ _) as [|[]|]; try exact H. destruct (flush_all x) as [x1|] eqn:E1; [|done]. cbn. destruct (flush_all_spec x x1 Hx E1) as [Hx1 E1'].
  intros [H1 H2]%do_op_spec; [|done]. split; [done|]. by rewrite H2, store_run_app, E1', store_run_flushes.
Qed.

(** ** Reads *)
Lemma code_compat u v : K u = true -> K v = true -> prefix_ok u v.
Proof using KeyCode0. intros Hu Hv. split; [by apply kc_prefix|]. intros H. symmetry. by apply kc_prefix. Qed.

Lemma est_read x u : est_ok x -> store_run (e_ops x) !! u = abs_read (e_hist x) u (nextSeq (sdb (e_sys x))).
Proof using Hopts. intros [Hr _]. by apply (run_store opts coins range_tables range_hnsw). Qed.

Lemma est_keys x u w : est_ok x -> store_run (e_ops x) !! u = Some w -> K u = true.
Proof using Hopts.
  intros Hx. rewrite est_read by done. intros E. pose proof (abs_read_newest (e_hist x) u (nextSeq (sdb (e_sys x)))) as H. rewrite E in H.
  destruct H as (k & Hin & [Hu _] & _). cbn in Hu. subst u. destruct Hx as [_ Hk]. rewrite Forall_forall in Hk. by apply (Hk (k, w)).
Qed.

Lemma est_get_spec x u : est_ok x -> K u = true -> est_get x u = store_run (e_ops x) !! u.
Proof using Hopts KeyCode0.
  intros Hx Hu. destruct (est_inv x Hx) as [v Hv]. unfold est_get, sys_get, Get, CurrentSeq. erewrite getAt_abs; [|apply Hv|].
  - cbn. by rewrite est_read.
  - destruct Hx as [_ Hk]. eapply Forall_impl; [exact Hk|]. cbn. intros e He. by apply code_compat.
Qed.

(** The newest versions at the last sequence number are the entries of the map. *)
Lemma newest_stored x e : est_ok x ->
  newest_visible (nextSeq (sdb (e_sys x))) (map kvp_of (e_hist x)) e <->
  exists k w, e = kvp_of (k, w) /\ (k, w) ∈ e_hist x /\ store_run (e_ops x) !! UserKey k = Some w /\
    forall e', e' ∈ e_hist x -> UserKey e'.1 = UserKey k -> SeqNum e'.1 <= SeqNum k.
Proof using Hopts.
  intros Hx. destruct (est_inv x Hx) as [v Hv]. pose proof (inv_seqs _ _ _ _ (si_db _ _ _ _ Hv)) as Hs. rewrite Forall_forall in Hs.
  pose proof (functional_nodup _ (inv_nodup _ _ _ _ (si_db _ _ _ _ Hv))) as Hf. pose proof (inv_ikeys _ _ _ _ (si_db _ _ _ _ Hv)) as Hik.
  unfold newest_visible. split.
  - intros (Hin & Hq & Hmax). apply list_elem_of_fmap in Hin as ([k w] & -> & Hin). exists k, w. split; [done|]. split; [done|]. cbn in *.
    assert (forall e', e' ∈ e_hist x -> UserKey e'.1 = UserKey k -> SeqNum e'.1 <= SeqNum k) as Hm.
    { intros e' He' Hu. apply (Hmax (kvp_of e')); [by apply list_elem_of_fmap_2|done|]. by apply Hs. }
    split; [|done]. rewrite est_read by done. apply (is_newest_det (e_hist x) (UserKey k) (nextSeq (sdb (e_sys x)))); [done|done|apply abs_read_newest|].
    exists k. split; [done|]. split; [done|]. intros e' He' [Hu _]. by apply Hm.
  - intros (k & w & -> & Hin & _ & Hm). split; [by apply list_elem_of_fmap_2|]. split; [by apply (Hs (k, w))|].
    intros e' (y & -> & Hy)%list_elem_of_fmap Hu _. by apply Hm.
Qed.

(** What a scan yields lists the contents. *)
Lemma scan_lists x (P : bytes -> Prop) out :
  est_ok x -> kvp_sorted out ->
  (forall e, e ∈ out <-> P (UserKey e.1) /\ newest_visible (nextSeq (sdb (e_sys x))) (map kvp_of (e_hist x)) e) ->
  lists (store_run (e_ops x)) P (map (fun kv => (UserKey kv.1, kv.2)) out).
Proof using Hopts KeyCode0.
  intros Hx Hso Hout. destruct (est_inv x Hx) as [v Hv]. pose proof (inv_ikeys _ _ _ _ (si_db _ _ _ _ Hv)) as Hik. unfold ikeys_ok in Hik. rewrite Forall_forall in Hik.
  pose proof (inv_compat _ _ _ _ (si_db _ _ _ _ Hv)) as Hc. rewrite keys_compat_spec in Hc. setoid_rewrite (newest_stored x) in Hout; [|done]. split.
  - clear Hv. assert (forall a b, a ∈ out -> b ∈ out -> kvp_lt a b -> blt (UserKey a.1) (UserKey b.1)) as H.
    { intros a b Ha Hb Hl. apply Hout in Ha as (_ & k1 & w1 & -> & Hi1 & _ & Hm1), Hb as (_ & k2 & w2 & -> & Hi2 & _ & Hm2). unfold kvp_lt in Hl. cbn in *.
      apply blt_internal in Hl as [?|[Eu Es]]; [done| |by apply (Hik (k1, w1))|by apply (Hik (k2, w2))|apply Hc; [by apply (list_elem_of_fmap_2 fst _ (k1, w1))|by apply (list_elem_of_fmap_2 fst _ (k2, w2))]].
      specialize (Hm2 (k1, w1) Hi1 Eu). cbn in Hm2. lia. }
    clear Hout. induction Hso as [|a l Hl IH Hf]; cbn; [constructor|]. constructor; [apply IH; intros; apply H; [by right|by right|done]|].
    apply Forall_map. rewrite Forall_forall in Hf |- *. intros b Hb. unfold key_lt. cbn. apply H; [by left|by right|by apply Hf].
  - intros u y. split.
    + intros (e & [= -> ->] & He)%list_elem_of_fmap. apply Hout in He as (HP & k & w & -> & _ & E & _). split; [done|]. by exists w.
    + intros (HP & w & E & ->). pose proof (est_read x u Hx) as Er. rewrite E in Er. symmetry in Er. unfold abs_read in Er. apply fmap_Some in Er as ([k w'] & Eb & ->).
      pose proof (abs_best_spec (e_hist x) u (nextSeq (sdb (e_sys x)))) as Hb. rewrite Eb in Hb. destruct Hb as (Hin & [Hu _] & Hm). cbn in Hu. subst u.
      apply list_elem_of_fmap. exists (kvp_of (k, w')). split; [done|]. apply Hout. split; [done|]. exists k, w'. split_and!; [done..|].
      intros e' He' Hu. apply Hm; [done|]. split; [done|]. pose proof (inv_seqs _ _ _ _ (si_db _ _ _ _ Hv)) as Hs. rewrite Forall_forall in Hs. by apply Hs.
Qed.

(** A scan yields no more than what is stored. *)
Lemma out_fuel x out (P : kvp -> Prop) : est_ok x -> kvp_sorted out -> (forall e, e ∈ out <-> P e /\ newest_visible (nextSeq (sdb (e_sys x))) (map kvp_of (e_hist x)) e) ->
  (length out <= total_entries (sdb (e_sys x)))%nat.
Proof using Hopts.
  intros Hx Hs Hout. destruct (est_inv x Hx) as [v Hv]. rewrite (scan_total _ _ _ _ (si_db _ _ _ _ Hv)), <-(length_map kvp_of (e_hist x)).
  apply submseteq_length, NoDup_submseteq.
  - clear Hout. induction Hs as [|a l Hl IH Hf]; constructor; [|done]. rewrite Forall_forall in Hf. intros Hin%Hf. unfold kvp_lt in Hin. by apply blt_irrefl in Hin.
  - intros e [_ [He _]]%Hout. done.
Qed.

Lemma est_nonempty x : est_ok x -> nonempty_keys (e_hist x).
Proof using KeyCode0.
  intros [_ Hk] e He E. rewrite Forall_forall in Hk. apply Hk in He. rewrite E, kc_nonempty in He. done.
Qed.

Lemma est_scan_spec x : est_ok x -> lists (store_run (e_ops x)) (fun _ => True) (est_scan x).
Proof using Hopts KeyCode0.
  intros Hx. destruct (est_inv x Hx) as [v Hv]. destruct (scanAt_ok _ _ _ _ (si_db _ _ _ _ Hv) (CurrentSeq (sdb (e_sys x))) (est_nonempty x Hx)) as (db' & it & out & E & Hy & Hs & Hout).
  assert (forall e, e ∈ out <-> True /\ newest_visible (nextSeq (sdb (e_sys x))) (map kvp_of (e_hist x)) e) as Hout' by (intros e; rewrite Hout; tauto).
  unfold est_scan, sys_scan, drained, Scan. rewrite E. erewrite (yields_drain (E := SstErr)); [|exact Hy|by eapply (out_fuel x out (fun _ => True))]. by apply scan_lists.
Qed.

Lemma est_scan_prefix_spec x p : est_ok x ->
  (forall u w, store_run (e_ops x) !! u = Some w -> u `prefix_of` p -> u = p) ->
  lists (store_run (e_ops x)) (fun u => p `prefix_of` u) (est_scan_prefix p x).
Proof using Hopts KeyCode0.
  intros Hx Hp. destruct (est_inv x Hx) as [v Hv]. destruct Hopts as [_ Hlev].
  assert (forall e, e ∈ e_hist x -> UserKey e.1 `prefix_of` p -> UserKey e.1 = p) as Hp'.
  { intros e He. pose proof (abs_best_spec (e_hist x) (UserKey e.1) (nextSeq (sdb (e_sys x)))) as Hb. pose proof (inv_seqs _ _ _ _ (si_db _ _ _ _ Hv)) as Hs. rewrite Forall_forall in Hs.
    destruct (abs_best _ _ _) as [b|] eqn:Eb; [|exfalso; eapply Hb; [exact He|]; by split; [|apply Hs]].
    apply (Hp _ b.2). rewrite est_read by done. unfold abs_read. by rewrite Eb. }
  destruct (scanRangeAt_ok _ _ _ _ (si_db _ _ _ _ Hv) (Some p) (prefixSuccessor p) (CurrentSeq (sdb (e_sys x))) (est_nonempty x Hx)) as (db' & it & out & E & Hy & Hs & Hout).
  - intros u Hu. apply Forall_forall. intros e He Hpre. destruct Hu as [[= <-]|Es]; [by apply Hp'|].
    pose proof (prefixSuccessor_split p) as Hsp. rewrite Es in Hsp. destruct Hsp as (pre & b & rest & -> & Hb & -> & _).
    destruct (decide (UserKey e.1 `prefix_of` pre)) as [Hpp|Hnp].
    + exfalso. specialize (Hp' e He ltac:(by apply prefix_app_r)). destruct Hpp as [y Ey]. apply (f_equal length) in Ey, Hp'. rewrite length_app in Ey, Hp'. cbn in Hp'. lia.
    + destruct Hpre as [y Ey]. destruct (decide (y = [])) as [->|Hy]; [by rewrite app_nil_r in Ey|]. exfalso. apply Hnp.
      destruct (exists_last Hy) as (y' & c & ->). rewrite app_assoc in Ey. apply app_inj_tail in Ey as [-> _]. by apply prefix_app_r.
  - pose proof (si_levels _ _ _ _ Hv) as Hl. intros E. rewrite E in Hl. cbn in Hl. lia.
  - assert (forall e, e ∈ out <-> p `prefix_of` UserKey e.1 /\ newest_visible (nextSeq (sdb (e_sys x))) (map kvp_of (e_hist x)) e) as Hout'.
    { intros e. rewrite Hout, prefix_range. done. }
    unfold est_scan_prefix, sys_scan_prefix, drained, ScanPrefix, ScanRange. rewrite E. erewrite (yields_drain (E := SstErr)); [|exact Hy|by eapply (out_fuel x out (fun e => p `prefix_of` UserKey e.1))].
    by apply scan_lists.
Qed.

(** ** Writes get through *)
(** Within the limits a write succeeds, after a wait if need be; the engine has
    room for at least one immutable memtable. *)
Lemma write_op_total o x : est_ok x -> 0 < MaxImmutableCount opts -> op_writes o <> [] ->
  admissible_b (e_sys x) (e_hist x) o = true -> keys_in o = true -> fits_b (e_hist x) = true -> is_Some (write_op o x).
Proof using Hopts.
  intros Hx Hmax Hw Ha Hk Hf. destruct (est_inv x Hx) as [v Hv]. pose proof (admissible_b_sound opts coins Hopts _ _ _ _ Hv Ha) as Had. unfold write_op.
  destruct (decide (len (immutables (sdb (e_sys x))) < MaxImmutableCount opts)) as [Hlt|Hge].
  - destruct Hopts as [H1 H2]. destruct (sys_step_inv _ coins range_tables range_hnsw H1 H2 _ _ v o Hv Had ltac:(done)) as (s' & _ & E & _).
    rewrite E. unfold do_op. by rewrite Ha, Hk, E.
  - rewrite (step_waits opts coins range_tables range_hnsw); [|done|apply (inv_seq_range _ _ _ _ (si_db _ _ _ _ Hv))| |lia].
    2: { pose proof (inv_seq_range _ _ _ _ (si_db _ _ _ _ Hv)). assert (0 < len (op_writes o)) by (destruct (op_writes o); [done|rewrite len_cons; len_lia]).
      destruct o; try done; destruct Had as (_ & _ & Had & _); lia. }
    unfold flush_all. rewrite Hf. unfold fits_b in Hf. apply Z.ltb_lt in Hf.
    destruct (flush_drains opts coins range_tables range_hnsw Hopts _ _ _ _ (proj1 Hx) Hf eq_refl) as (db' & E & Hi & Hq & Hm & Hr').
    unfold flushImmutables. rewrite E. cbn [mbind option_bind].
    assert (admissible_b (mkSys db' (spend (e_sys x))) (e_hist x) o = true) as Ha'.
    { destruct o; try done; unfold admissible_b, written in *; cbn [sdb] in *; by rewrite Hq, Hm. }
    destruct (run_inv _ _ _ _ (proj1 Hopts) (proj2 Hopts) _ _ _ Hr') as [v' Hv'].
    destruct (sys_step_inv _ coins range_tables range_hnsw (proj1 Hopts) (proj2 Hopts) _ _ v' o Hv') as (s' & _ & E' & _).
    { by eapply (admissible_b_sound opts coins Hopts). }
    { intros _. cbn [sdb]. by rewrite Hi. }
    unfold do_op. cbn [e_sys e_hist]. by rewrite Ha', Hk, E'.
Qed.

(** What a write within the limits does is what the engine does. *)
Lemma write_op_sys o x x' : est_ok x -> write_op o x = Some x' ->
  sys_write o (e_sys x) = Some (e_sys x') /\ e_hist x' = written (e_sys x) o ++ e_hist x.
Proof using Hopts.
  intros Hx. unfold write_op, sys_write, sys_op.
  assert (forall y y', do_op o y = Some y' -> step (e_sys y) o = Ok (e_sys y') /\ e_hist y' = written (e_sys y) o ++ e_hist y) as H.
  { intros y y'. unfold do_op. destruct (_ && _); [|done]. destruct (step _ _); [|done..]. by intros [= <-]. }
  destruct (step (e_sys x) o) as [s|e|] eqn:Es; [by intros [E ->]%H; rewrite Es in E; injection E as ->| |by intros [E _]%H; rewrite Es in E].
  destruct e; try (by intros [E _]%H; rewrite Es in E).
  unfold flush_all. destruct (fits_b _) eqn:Ef; [|done]. apply Z.ltb_lt in Ef.
  destruct (flush_drains opts coins range_tables range_hnsw Hopts _ _ _ _ (proj1 Hx) Ef eq_refl) as (db' & E & _ & Hq & _).
  unfold flushImmutables. rewrite E. cbn [mbind option_bind]. intros [E1 E2]%H. cbn [e_sys e_hist] in *. rewrite E1. split; [done|].
  rewrite E2. unfold written. cbn [sdb]. by rewrite Hq.
Qed.

Lemma write_within o x : est_ok x -> 0 < MaxImmutableCount opts ->
  admissible_b (e_sys x) (e_hist x) o = true -> keys_in o = true -> fits_b (e_hist x) = true ->
  exists x', est_ok x' /\ sys_write o (e_sys x) = Some (e_sys x') /\ e_hist x' = written (e_sys x) o ++ e_hist x /\
    store_run (e_ops x') = store_step (store_run (e_ops x)) o.
Proof using Hopts.
  intros Hx Hmax Ha Hk Hf. assert (exists x', write_op o x = Some x') as [x' E].
  { destruct (decide (op_writes o = [])) as [Hw|Hw]; [|by apply write_op_total]. destruct (est_inv x Hx) as [v Hv]. destruct Hopts as [H1 H2].
    destruct (sys_step_inv _ coins range_tables range_hnsw H1 H2 _ _ v o Hv) as (s' & _ & E & _); [by eapply (admissible_b_sound opts coins Hopts)|done|].
    unfold write_op, do_op. rewrite E, Ha, Hk. by eexists. }
  exists x'. destruct (write_op_sys o x x' Hx E). destruct (write_op_spec o x x' Hx E). done.
Qed.

Lemma background_within o x : est_ok x -> op_writes o = [] -> admissible_b (e_sys x) (e_hist x) o = true -> keys_in o = true ->
  exists x', est_ok x' /\ sys_op o (e_sys x) = Some (e_sys x') /\ sys_write o (e_sys x) = Some (e_sys x') /\
    e_hist x' = written (e_sys x) o ++ e_hist x /\ store_run (e_ops x') = store_run (e_ops x).
Proof using Hopts.
  intros Hx Hw Ha Hk. destruct (est_inv x Hx) as [v Hv]. destruct Hopts as [H1 H2].
  destruct (sys_step_inv _ coins range_tables range_hnsw H1 H2 _ _ v o Hv) as (s' & _ & E & _); [by eapply (admissible_b_sound opts coins Hopts)|by rewrite Hw|].
  assert (do_op o x = Some (mkEst (e_ops x ++ [o]) (written (e_sys x) o ++ e_hist x) s')) as Ed by (unfold do_op; by rewrite E, Ha, Hk).
  destruct (do_op_spec o x _ Hx Ed) as [Hx' Eo]. eexists. split; [exact Hx'|]. unfold sys_write, sys_op. rewrite E. split_and!; [done..|].
  rewrite Eo, store_run_app. cbn. unfold store_step. by rewrite Hw.
Qed.

(** ** The instance *)
Definition engine : Type := { x : est | est_ok x }.
(** A function on states that keeps them reachable, on engines. *)
Definition lift_est (f : est -> option est) (Hf : forall x x', est_ok x -> f x = Some x' -> est_ok x') (e : engine) : option engine :=
  match f (proj1_sig e) as r return f (proj1_sig e) = r -> option engine with
  | Some x' => fun E => Some (exist _ x' (Hf _ _ (proj2_sig e) E))
  | None => fun _ => None
  end eq_refl.
Lemma lift_est_spec f Hf e :
  match lift_est f Hf e with Some e' => f (proj1_sig e) = Some (proj1_sig e') | None => f (proj1_sig e) = None end.
Proof.
  unfold lift_est. generalize (@eq_refl _ (f (proj1_sig e))). generalize (f (proj1_sig e)) at 2 3 as r. intros [x'|] E; exact E.
Qed.

Lemma write_op_ok o x x' : est_ok x -> write_op o x = Some x' -> est_ok x'.
Proof using Hopts. intros Hx E. by apply (write_op_spec o x). Qed.
Definition engine_write (o : op) : engine -> option engine := lift_est (write_op o) (write_op_ok o).
Lemma engine_write_spec o e e' : engine_write o e = Some e' -> store_run (e_ops (proj1_sig e')) = store_step (store_run (e_ops (proj1_sig e))) o.
Proof using Hopts.
  intros E. pose proof (lift_est_spec (write_op o) (write_op_ok o) e) as H. unfold engine_write in E. rewrite E in H. apply (write_op_spec o _ _ (proj2_sig e) H).
Qed.
Definition put_op (kv : bytes * bytes) : batchOp := mkOp kv.1 (Some kv.2) false.
Definition engine_store : KVStore engine := {|
  db_Put k v := engine_write (OpPut k (Some v));
  db_Delete k := engine_write (OpDelete k);
  db_Batch kvs := engine_write (OpBatch (map put_op kvs));
  db_Get e := est_get (proj1_sig e);
  db_Scan e := est_scan (proj1_sig e);
  db_ScanPrefix p e := est_scan_prefix p (proj1_sig e)
|}.

Lemma store_puts (kvs : list (bytes * bytes)) (m : store) : fold_left store_write (map put_op kvs) m = put_all kvs m.
Proof. revert m; induction kvs as [|kv kvs IH]; intros m; [done|]. cbn [map fold_left]. rewrite IH. done. Qed.

(** The laws of the interface hold of the engine. *)
Definition engine_laws : @KVLaws engine engine_store.
Proof using KeyCode0.
  refine (@Build_KVLaws engine engine_store (fun u => K u = true) (fun e => store_run (e_ops (proj1_sig e))) _ _ _ _ _ _ _).
  - intros e u w. apply est_keys, (proj2_sig e).
  - intros k v e e'. apply engine_write_spec.
  - intros k e e'. apply engine_write_spec.
  - intros kvs e e' H. rewrite <-store_puts. exact (engine_write_spec _ _ _ H).
  - intros e u Hu. apply est_get_spec; [apply (proj2_sig e)|done].
  - intros e. apply est_scan_spec, (proj2_sig e).
  - intros e p Hp. apply est_scan_prefix_spec; [apply (proj2_sig e)|done].
Defined.
End engine_store.

(** One-byte user keys. *)
Definition K1 (u : bytes) : bool := (length u =? 1)%nat.
#[global] Instance K1_code : KeyCode K1.
Proof.
  split; [done|]. intros u v Hu%Nat.eqb_eq Hv%Nat.eqb_eq [y ->]. rewrite length_app in Hv. destruct y; [by rewrite app_nil_r|cbn in Hv; lia].
Qed.
