(* ===== verification/Member.v ===== *)
(** * Cluster membership (src/cluster/membership.go, gossip.go, swim.go, transport.go, config.go)

    The state a node keeps about the cluster and every operation on it: the
    gossip merge, the retransmit buffer, the ring descriptor, the SWIM probe with
    its suspect timers, and the reaping of dead nodes.  Each operation runs under
    the mutex of the structure and is one step; callbacks fired after the lock is
    released are returned as data.  [time.Now()] is an argument, the answer of a
    peer is an argument, and the iteration order of a Go map, [sort.Slice] and
    [rand.Shuffle] are parameters.  The theorems are in MemberProof.v. *)

From Stdlib Require Import ZArith Lia List.
From stdpp Require Import base list option gmap sorting.
From S2P Require Import Prelude GoBytes HLC.

(** ** transport.go.  Both states are Go ints; the wire admits other values. *)
Definition LivenessState : Type := Z.
Definition Alive : LivenessState := 0.
Definition Suspect : LivenessState := 1.
Definition Dead : LivenessState := 2.
Definition RingState : Type := Z.
Definition RingNone : RingState := 0.
Definition RingJoining : RingState := 1.
Definition RingActive : RingState := 2.

Record MemberState := mkMember {
  MNodeID : bytes; MAddr : bytes; Liveness : LivenessState; MRing : RingState; Incarnation : Z }.
Record RingMember := mkRM { RMNodeID : bytes; RMAddr : bytes; RMState : RingState }.
Record RingDescriptor := mkRD { Version : Z; RDMembers : list RingMember }.
Record PingMessage := mkPing {
  SenderID : bytes; SenderAddr : bytes; Updates : list MemberState; RingDesc : option RingDescriptor }.

#[global] Instance MemberState_eq_dec : EqDecision MemberState.
Proof. solve_decision. Defined.
#[global] Instance RingMember_eq_dec : EqDecision RingMember.
Proof. solve_decision. Defined.
#[global] Instance RingDescriptor_eq_dec : EqDecision RingDescriptor.
Proof. solve_decision. Defined.

Definition set_liveness (l : LivenessState) (s : MemberState) : MemberState :=
  mkMember (MNodeID s) (MAddr s) l (MRing s) (Incarnation s).
Definition set_ring (r : RingState) (s : MemberState) : MemberState :=
  mkMember (MNodeID s) (MAddr s) (Liveness s) r (Incarnation s).
Definition set_incarnation (i : Z) (s : MemberState) : MemberState :=
  mkMember (MNodeID s) (MAddr s) (Liveness s) (MRing s) i.

(** ** config.go: the fields the operations read.  Durations are nanoseconds. *)
Record ClusterConfig := mkCC {
  CNodeID : bytes; CAddr : bytes; IndirectPeers : Z; RetransmitMult : Z; MaxPiggyback : Z; MaxBroadcasts : Z;
  DeadNodeReapTimeout : Z }.
Definition DefaultClusterConfig (nodeID addr : bytes) : ClusterConfig :=
  mkCC nodeID addr 3 4 10 128 (24 * 3600 * 1000000000).

(** ** membership.go *)
Record broadcast := mkBroadcast { bstate : MemberState; retransmits : Z }.
Record livenessEvent := mkEvent { evNode : bytes; evFrom : LivenessState; evTo : LivenessState }.

Record Membership := mkMembership {
  cfg : ClusterConfig;
  members : gmap bytes MemberState;
  broadcasts : list broadcast;
  suspectTimers : gset bytes;
  probeOrder : list bytes;
  probeIdx : nat;
  probeOrderGen : Z;
  memberGen : Z;
  deadSince : gmap bytes Z;
  ringDesc : RingDescriptor
}.
Definition selfID (m : Membership) : bytes := CNodeID (cfg m).

Definition set_members (ms : gmap bytes MemberState) (m : Membership) : Membership :=
  mkMembership (cfg m) ms (broadcasts m) (suspectTimers m) (probeOrder m) (probeIdx m) (probeOrderGen m) (memberGen m) (deadSince m) (ringDesc m).
Definition set_broadcasts (bs : list broadcast) (m : Membership) : Membership :=
  mkMembership (cfg m) (members m) bs (suspectTimers m) (probeOrder m) (probeIdx m) (probeOrderGen m) (memberGen m) (deadSince m) (ringDesc m).
Definition set_timers (ts : gset bytes) (m : Membership) : Membership :=
  mkMembership (cfg m) (members m) (broadcasts m) ts (probeOrder m) (probeIdx m) (probeOrderGen m) (memberGen m) (deadSince m) (ringDesc m).
Definition set_probe (order : list bytes) (i : nat) (gen : Z) (m : Membership) : Membership :=
  mkMembership (cfg m) (members m) (broadcasts m) (suspectTimers m) order i gen (memberGen m) (deadSince m) (ringDesc m).
Definition bump_gen (m : Membership) : Membership :=
  mkMembership (cfg m) (members m) (broadcasts m) (suspectTimers m) (probeOrder m) (probeIdx m) (probeOrderGen m) (u64 (memberGen m + 1)) (deadSince m) (ringDesc m).
Definition set_dead (ds : gmap bytes Z) (m : Membership) : Membership :=
  mkMembership (cfg m) (members m) (broadcasts m) (suspectTimers m) (probeOrder m) (probeIdx m) (probeOrderGen m) (memberGen m) ds (ringDesc m).
Definition set_desc (rd : RingDescriptor) (m : Membership) : Membership :=
  mkMembership (cfg m) (members m) (broadcasts m) (suspectTimers m) (probeOrder m) (probeIdx m) (probeOrderGen m) (memberGen m) (deadSince m) rd.

Definition NewMembership (cfg : ClusterConfig) : Membership :=
  mkMembership cfg {[ CNodeID cfg := mkMember (CNodeID cfg) (CAddr cfg) Alive RingNone 1 ]} [] ∅ [] 0 0 0 ∅ (mkRD 0 []).

(** ** Queries *)
Definition IsAlive (m : Membership) (id : bytes) : bool :=
  match members m !! id with Some ms => Liveness ms =? Alive | None => false end.
Definition IsRoutable (m : Membership) (id : bytes) : bool :=
  match members m !! id with Some ms => negb (Liveness ms =? Dead) | None => false end.
Definition RingStateOf (m : Membership) (id : bytes) : RingState :=
  match members m !! id with Some ms => MRing ms | None => RingNone end.
Definition AddrOf (m : Membership) (id : bytes) : bytes :=
  match members m !! id with Some ms => MAddr ms | None => [] end.
Definition livenessOf (m : Membership) (id : bytes) : LivenessState :=
  match members m !! id with Some ms => Liveness ms | None => Dead end.
Definition GetRingDescriptor (m : Membership) : RingDescriptor := ringDesc m.

Fixpoint ring_state_in (rms : list RingMember) (id : bytes) : RingState :=
  match rms with
  | [] => RingNone
  | rm :: rms => if bytes_Equal (RMNodeID rm) id then RMState rm else ring_state_in rms id
  end.
Definition ringStateFromDescriptor (m : Membership) (id : bytes) : RingState :=
  ring_state_in (RDMembers (ringDesc m)) id.

Section membership.
(** The order in which [range] visits the members. *)
Context (range_members : gmap bytes MemberState -> list bytes).
(** [sort.Slice] by descending retransmit count; the order of equal counts is not specified. *)
Context (sort_broadcasts : list broadcast -> list broadcast).
(** [rand.Shuffle] *)
Context (shuffle : list bytes -> list bytes).

Definition states_of (m : Membership) (ids : list bytes) : list MemberState := omap (fun id => members m !! id) ids.
Definition GetMembers (m : Membership) : list MemberState := states_of m (range_members (members m)).
Definition AliveMembers (m : Membership) : list MemberState :=
  filter (fun ms => Liveness ms = Alive) (GetMembers m).
Definition ActiveRingMembers (m : Membership) : list MemberState :=
  filter (fun ms => Liveness ms = Alive /\ MRing ms = RingActive) (GetMembers m).

(** ** gossip.go: the retransmit buffer *)
Definition defaultMaxPiggyback : Z := 10.
Definition maxPiggyback (m : Membership) : Z :=
  if 0 <? MaxPiggyback (cfg m) then MaxPiggyback (cfg m) else defaultMaxPiggyback.

(** [ceil(log2(n))] in floating point is [Z.log2_up n] for the sizes of a cluster. *)
Definition retransmitLimit (m : Membership) : Z :=
  let n := Z.of_nat (size (members m)) in
  if n <? 2 then RetransmitMult (cfg m) else RetransmitMult (cfg m) * Z.log2_up n.

Definition queueBroadcastLocked (state : MemberState) (m : Membership) : Membership :=
  let bs := broadcasts m ++ [mkBroadcast state (retransmitLimit m)] in
  let maxB := if MaxBroadcasts (cfg m) <=? 0 then 128 else MaxBroadcasts (cfg m) in
  set_broadcasts (if maxB <? len bs then take (Z.to_nat maxB) (sort_broadcasts bs) else bs) m.

(** The loop of [getBroadcastsLocked]; [n] is [len(result)]. *)
Fixpoint piggyback (limit n : Z) (bs : list broadcast) : list MemberState * list broadcast :=
  match bs with
  | [] => ([], [])
  | b :: bs =>
      let taken := n <? limit in
      let b' := if taken then mkBroadcast (bstate b) (retransmits b - 1) else b in
      let '(res, alive) := piggyback limit (if taken then n + 1 else n) bs in
      (if taken then bstate b :: res else res, if 0 <? retransmits b' then b' :: alive else alive)
  end.
Definition getBroadcastsLocked (limit : Z) (m : Membership) : Membership * list MemberState :=
  match broadcasts m with
  | [] => (m, [])
  | _ => let '(res, alive) := piggyback limit 0 (sort_broadcasts (broadcasts m)) in (set_broadcasts alive m, res)
  end.

(** ** swim.go: transitions *)
Definition setLivenessLocked (now : Z) (id : bytes) (to : LivenessState) (m : Membership) : Membership * option livenessEvent :=
  match members m !! id with
  | None => (m, None)
  | Some ms =>
      let from := Liveness ms in
      if from =? to then (m, None) else
      let ms := set_liveness to ms in
      let m := bump_gen (set_members (<[id := ms]> (members m)) m) in
      let m := set_dead (if to =? Dead then <[id := now]> (deadSince m) else delete id (deadSince m)) m in
      let m := if from =? Suspect then set_timers (suspectTimers m ∖ {[id]}) m else m in
      (queueBroadcastLocked ms m, Some (mkEvent id from to))
  end.

Definition startSuspectTimerLocked (id : bytes) (m : Membership) : Membership :=
  set_timers (suspectTimers m ∪ {[id]}) m.

(** The function the timer of [id] runs when it fires. *)
Definition suspectTimeout (now : Z) (id : bytes) (m : Membership) : Membership * option livenessEvent :=
  match members m !! id with
  | Some ms => if negb (Liveness ms =? Suspect) then (m, None) else setLivenessLocked now id Dead m
  | None => (m, None)
  end.

(** ** gossip.go: merge *)
Definition mergeLocked (now : Z) (remote : MemberState) (m : Membership) : Membership * option livenessEvent :=
  let id := MNodeID remote in
  match members m !! id with
  | None =>
      let state := set_ring (ringStateFromDescriptor m id) remote in
      let m := bump_gen (set_members (<[id := state]> (members m)) m) in
      (if Liveness state =? Dead then set_dead (<[id := now]> (deadSince m)) m else m, None)
  | Some local =>
      if bytes_Equal id (selfID m) && (Alive <? Liveness remote) then
        if Incarnation local <=? Incarnation remote then
          let local := set_liveness Alive (set_incarnation (u64 (Incarnation remote + 1)) local) in
          (queueBroadcastLocked local (set_members (<[id := local]> (members m)) m), None)
        else (m, None)
      else if Incarnation local <? Incarnation remote then
        let newLiveness := Liveness remote in
        let oldLiveness := Liveness local in
        let local := set_liveness oldLiveness (set_ring (MRing local) remote) in
        let m := bump_gen (set_members (<[id := local]> (members m)) m) in
        if negb (newLiveness =? oldLiveness) then setLivenessLocked now id newLiveness m
        else (queueBroadcastLocked local m, None)
      else if (Incarnation remote =? Incarnation local) && (Liveness local <? Liveness remote)
      then setLivenessLocked now id (Liveness remote) m
      else (m, None)
  end.

(** The loop over the updates of a message, collecting the events. *)
Fixpoint mergeAll (now : Z) (us : list MemberState) (m : Membership) : Membership * list livenessEvent :=
  match us with
  | [] => (m, [])
  | u :: us =>
      let '(m, ev) := mergeLocked now u m in
      let '(m, evs) := mergeAll now us m in
      (m, match ev with Some e => e :: evs | None => evs end)
  end.

(** ** Ring descriptor *)
(** [ringMembers[rm.NodeID] = rm.State] over the members, then the look-up. *)
Definition ringMap (rms : list RingMember) : gmap bytes RingState :=
  fold_left (fun r rm => <[RMNodeID rm := RMState rm]> r) rms ∅.

Definition applyRingOne (rms : gmap bytes RingState) (m : Membership) (id : bytes) : Membership :=
  match members m !! id with
  | None => m
  | Some ms =>
      let newState := default RingNone (rms !! id) in
      if negb (MRing ms =? newState) then
        let ms := set_ring newState ms in queueBroadcastLocked ms (set_members (<[id := ms]> (members m)) m)
      else m
  end.
Definition applyRingDescLocked (rd : RingDescriptor) (m : Membership) : Membership :=
  set_desc rd (fold_left (applyRingOne (ringMap (RDMembers rd))) (range_members (members m)) m).

(** The new state and the descriptor [onRingChange] is called with. *)
Definition ApplyRingDescriptor (rd : RingDescriptor) (m : Membership) : Membership * option RingDescriptor :=
  if Version rd <=? Version (ringDesc m) then (m, None) else (applyRingDescLocked rd m, Some rd).

(** [if rd != nil && rd.Version > m.ringDesc.Version] of the message handlers. *)
Definition applyNewer (rd : option RingDescriptor) (m : Membership) : Membership * option RingDescriptor :=
  match rd with
  | Some rd => if Version (ringDesc m) <? Version rd then (applyRingDescLocked rd m, Some rd) else (m, None)
  | None => (m, None)
  end.

(** ** gossip.go: handlers *)
Record effects := mkEff { eRing : option RingDescriptor; eEvents : list livenessEvent }.

Definition HandlePing (now : Z) (msg : PingMessage) (m : Membership) : Membership * PingMessage * effects :=
  let '(m, events) := mergeAll now (Updates msg) m in
  let '(m, ringCb) := applyNewer (RingDesc msg) m in
  let '(m, updates) := getBroadcastsLocked (maxPiggyback m) m in
  (m, mkPing (selfID m) (CAddr (cfg m)) updates (Some (ringDesc m)), mkEff ringCb events).

(** [resp] is what the target answered, if it did. *)
Definition HandlePingReq (now : Z) (resp : option PingMessage) (m : Membership) : Membership * bool * effects :=
  match resp with
  | None => (m, false, mkEff None [])
  | Some resp => let '(m, events) := mergeAll now (Updates resp) m in (m, true, mkEff None events)
  end.

Definition HandleGossipSync (now : Z) (remote : list MemberState) (remoteRD : option RingDescriptor) (m : Membership)
  : Membership * (list MemberState * RingDescriptor) * effects :=
  let '(m, events) := mergeAll now remote m in
  let '(m, ringCb) := applyNewer remoteRD m in
  (m, (GetMembers m, ringDesc m), mkEff ringCb events).

(** [syncWithPeer] after the peer answered [resp]. *)
Definition syncWithPeer (now : Z) (resp : option (list MemberState * option RingDescriptor)) (m : Membership) : Membership * effects :=
  match resp with
  | None => (m, mkEff None [])
  | Some (remote, remoteRD) =>
      let '(m, events) := mergeAll now remote m in
      let '(m, ringCb) := applyNewer remoteRD m in (m, mkEff ringCb events)
  end.

(** ** swim.go: choice of the targets *)
Definition probe_targets (m : Membership) : list bytes :=
  filter (fun id => id <> selfID m /\ IsRoutable m id = true) (range_members (members m)).
Definition rebuildProbeOrderLocked (m : Membership) : Membership :=
  set_probe (shuffle (probe_targets m)) 0 (memberGen m) m.

(** [nextProbeTargetLocked]: skips dead and removed nodes; [rest] is the order from [probeIdx] on. *)
Fixpoint nextProbe_loop (rest : list bytes) (m : Membership) : Membership * option MemberState :=
  match rest with
  | [] => (m, None)
  | id :: rest =>
      let m := set_probe (probeOrder m) (S (probeIdx m)) (probeOrderGen m) m in
      match members m !! id with
      | Some ms => if negb (Liveness ms =? Dead) then (m, Some ms) else nextProbe_loop rest m
      | None => nextProbe_loop rest m
      end
  end.
Definition nextProbeTarget (m : Membership) : Membership * option MemberState :=
  let m := if (length (probeOrder m) <=? probeIdx m)%nat || negb (probeOrderGen m =? memberGen m)
           then rebuildProbeOrderLocked m else m in
  nextProbe_loop (drop (probeIdx m) (probeOrder m)) m.

Definition randomAlivePeersLocked (k : Z) (excludeID : bytes) (m : Membership) : list MemberState :=
  let candidates := filter (fun id => id <> selfID m /\ id <> excludeID /\ IsAlive m id = true) (range_members (members m)) in
  states_of m (if len candidates <=? k then candidates else take (Z.to_nat k) (shuffle candidates)).

(** ** swim.go: one probe.  The steps between the network calls of [probe]. *)
Definition reapOne (now timeout : Z) (m : Membership) (id : bytes) : Membership :=
  match deadSince m !! id with
  | None => m
  | Some deadAt =>
      if now - deadAt <? timeout then m else
      match members m !! id with
      | None => set_dead (delete id (deadSince m)) m
      | Some ms =>
          if (Liveness ms =? Dead) && (MRing ms =? RingNone)
          then bump_gen (set_dead (delete id (deadSince m)) (set_members (delete id (members m)) m))
          else m
      end
  end.
Definition reapDeadNodes (now : Z) (ids : list bytes) (m : Membership) : Membership :=
  if DeadNodeReapTimeout (cfg m) <=? 0 then m
  else fold_left (reapOne now (DeadNodeReapTimeout (cfg m))) ids m.

(** The ping [probe] sends to its target. *)
Definition probe_send (m : Membership) : Membership * PingMessage :=
  let '(m, updates) := getBroadcastsLocked (maxPiggyback m) m in
  (m, mkPing (selfID m) (CAddr (cfg m)) updates (Some (ringDesc m))).

(** If the target was suspected, it is alive again. *)
Definition probe_refute (now : Z) (target : bytes) (m : Membership) : Membership * option livenessEvent :=
  match members m !! target with
  | Some ms => if Liveness ms =? Suspect then setLivenessLocked now target Alive m else (m, None)
  | None => (m, None)
  end.

(** The direct ping was answered with [resp]. *)
Definition probe_ack (now : Z) (target : bytes) (resp : PingMessage) (m : Membership) : Membership * effects :=
  let '(m, events) := mergeAll now (Updates resp) m in
  let '(m, ringCb) := applyNewer (RingDesc resp) m in
  let '(m, ev) := probe_refute now target m in
  (m, mkEff ringCb (events ++ option_list ev)).

(** No ping reached the target. *)
Definition probe_fail (now : Z) (target : bytes) (m : Membership) : Membership * option livenessEvent :=
  match members m !! target with
  | Some ms =>
      if Liveness ms =? Alive then
        let '(m, ev) := setLivenessLocked now target Suspect m in (startSuspectTimerLocked target m, ev)
      else (m, None)
  | None => (m, None)
  end.

Definition StopMembership (m : Membership) : Membership := set_timers ∅ m.
End membership.
