(* ===== verification/Replica.v ===== *)
(** * The replica of a node (src/server/internal_handlers.go)

    The data-plane handlers a node serves: [ReplicateWrite],
    [ReplicateWriteBatch] and [ReplicateRead], over a clock and a store used
    through the interface of KVStore.v.  An error after the clock was updated
    leaves the clock updated, so a handler returns the new state with its
    status.  Go's nil timestamp is [None]; the wire form of a timestamp has the
    fields of [hlc.Timestamp], so the conversions are the identity. *)

From Stdlib Require Import ZArith Lia List.
From stdpp Require Import base list option gmap.
From S2P Require Import Prelude GoBytes KV Entries HLC Envelope KVStore.

Inductive code := Unavailable | InvalidArgument | Internal.

Record ReplicateWriteRequest := mkReq {
  rqKey : bytes; rqValue : option bytes; rqTimestamp : option Timestamp; rqDeleted : bool }.
Record ReplicateReadResponse := mkResp {
  rsValue : option bytes; rsTimestamp : option Timestamp; rsFound : bool; rsDeleted : bool }.

Definition protoToHLCTimestamp (p : Timestamp) : Timestamp := mkTs (WallTime p) (Logical p) (NodeID p).
Definition hlcTimestampToProto (t : Timestamp) : Timestamp := mkTs (WallTime t) (Logical t) (NodeID t).

Section replica.
Context {S : Type} `{!KVStore S}.

Record Replica := mkReplica { r_clock : Clock; r_db : S }.

(** [s.clock == nil || s.db == nil] is [None]: the node runs standalone. *)
Definition internalServer : Type := option Replica.

Definition ReplicateWrite (pt : Z) (req : ReplicateWriteRequest) (s : internalServer) : internalServer * option code :=
  match s with
  | None => (s, Some Unavailable)
  | Some r =>
      if len (rqKey req) =? 0 then (s, Some InvalidArgument) else
      match rqTimestamp req with
      | None => (s, Some InvalidArgument)
      | Some p =>
          let ts := protoToHLCTimestamp p in
          let '(clock, err) := Update (r_clock r) pt ts in
          match err with
          | Some _ => (Some (mkReplica clock (r_db r)), Some Internal)
          | None =>
              match EncodeEnvelope (mkEnvelope ts (rqDeleted req) (rqValue req)) with
              | Ok encoded =>
                  match db_Put (rqKey req) encoded (r_db r) with
                  | Some db => (Some (mkReplica clock db), None)
                  | None => (Some (mkReplica clock (r_db r)), Some Internal)
                  end
              | _ => (Some (mkReplica clock (r_db r)), Some Internal)
              end
          end
      end
  end.

(** The validation loop of the batch: the greatest timestamp, or the first invalid entry. *)
Fixpoint maxTimestamp (maxTS : Timestamp) (entries : list ReplicateWriteRequest) : outcome code Timestamp :=
  match entries with
  | [] => Ok maxTS
  | entry :: entries =>
      if len (rqKey entry) =? 0 then Err InvalidArgument else
      match rqTimestamp entry with
      | None => Err InvalidArgument
      | Some p =>
          let ts := protoToHLCTimestamp p in
          maxTimestamp (if IsZero maxTS || Less maxTS ts then ts else maxTS) entries
      end
  end.

Fixpoint encodeEntries (entries : list ReplicateWriteRequest) : outcome code (list (bytes * bytes)) :=
  match entries with
  | [] => Ok []
  | entry :: entries =>
      match rqTimestamp entry with
      | None => Panic
      | Some p =>
          match EncodeEnvelope (mkEnvelope (protoToHLCTimestamp p) (rqDeleted entry) (rqValue entry)) with
          | Ok encoded => rest ← encodeEntries entries; Ok ((rqKey entry, encoded) :: rest)
          | Err _ => Err Internal
          | Panic => Panic
          end
      end
  end.

Definition ReplicateWriteBatch (pt : Z) (entries : list ReplicateWriteRequest) (s : internalServer) : internalServer * option code :=
  match s with
  | None => (s, Some Unavailable)
  | Some r =>
      match maxTimestamp zeroTs entries with
      | Ok maxTS =>
          let '(clock, err) := Update (r_clock r) pt maxTS in
          match err with
          | Some _ => (Some (mkReplica clock (r_db r)), Some Internal)
          | None =>
              match encodeEntries entries with
              | Ok batch =>
                  match db_Batch batch (r_db r) with
                  | Some db => (Some (mkReplica clock db), None)
                  | None => (Some (mkReplica clock (r_db r)), Some Internal)
                  end
              | _ => (Some (mkReplica clock (r_db r)), Some Internal)
              end
          end
      | Err c => (s, Some c)
      | Panic => (s, Some Internal)
      end
  end.

(** The answer to a read of [key] in the store [db]; [localRead] of the coordinator too. *)
Definition readResponse (db : S) (key : bytes) : outcome EnvErr ReplicateReadResponse :=
  match db_Get db key with
  | None => Ok (mkResp None None false false)
  | Some val =>
      env ← DecodeEnvelope (sl (Data val));
      Ok (mkResp (EVal env) (Some (hlcTimestampToProto (ETs env))) true (EDeleted env))
  end.

Definition ReplicateRead (key : bytes) (s : internalServer) : outcome code ReplicateReadResponse :=
  match s with
  | None => Err Unavailable
  | Some r =>
      if len key =? 0 then Err InvalidArgument else
      match readResponse (r_db r) key with Ok resp => Ok resp | Err _ => Err Internal | Panic => Panic end
  end.
End replica.
Arguments Replica : clear implicits.
Arguments mkReplica {S} _ _.
Arguments internalServer : clear implicits.

(** ** What a replica stores *)
Lemma protoToHLC_id t : protoToHLCTimestamp t = t.
Proof. by destruct t. Qed.
Lemma hlcToProto_id t : hlcTimestampToProto t = t.
Proof. by destruct t. Qed.

Section stored.
Context {S : Type} `{!KVStore S, !KVLaws S}.

(** The store holds bytes under [key] that decode to [e]. *)
Definition holds_env (db : S) (key : bytes) (e : Envelope) : Prop :=
  exists val, contents db !! key = Some val /\ DecodeEnvelope (sl (Data val)) = Ok e.

Lemma holds_env_fun db key e e' : holds_env db key e -> holds_env db key e' -> e = e'.
Proof. intros (v & Hv & E) (v' & Hv' & E'). rewrite Hv in Hv'. injection Hv' as <-. congruence. Qed.

Lemma readResponse_spec db key :
  key_ok key ->
  match readResponse db key with
  | Ok r => (rsFound r = false /\ contents db !! key = None) \/
            exists e, holds_env db key e /\ r = mkResp (EVal e) (Some (ETs e)) true (EDeleted e)
  | _ => forall e, ~ holds_env db key e
  end.
Proof.
  intros Hk. unfold readResponse. rewrite (law_get _ _ Hk). destruct (contents db !! key) as [val|] eqn:E; [|by left].
  destruct (DecodeEnvelope (sl (Data val))) as [e| |] eqn:Ed; cbn.
  - right. exists e. rewrite hlcToProto_id. split; [by exists val|done].
  - intros e' (v & Hv & E'). congruence.
  - intros e' (v & Hv & E'). congruence.
Qed.

Lemma env_norm_ok e : env_ok e -> env_ok (env_norm e).
Proof. done. Qed.
Lemma env_norm_idem e : env_norm (env_norm e) = env_norm e.
Proof. unfold env_norm. cbn. by destruct (EDeleted e). Qed.

(** Putting the encoding of an envelope stores it. *)
Lemma put_holds db db' key e b :
  ts_ok (ETs e) -> EncodeEnvelope e = Ok b -> db_Put key b db = Some db' ->
  holds_env db' key (env_norm e) /\ forall u, u <> key -> contents db' !! u = contents db !! u.
Proof.
  intros Ht E Hp. apply EncodeEnvelope_inv in E as [-> Hn]. apply law_put in Hp. rewrite Hp. split.
  - exists (NewValue (Some (env_bytes e))). rewrite Hp, lookup_insert_eq. split; [done|]. apply Decode_env_bytes. by split.
  - intros u Hu. by rewrite lookup_insert_ne.
Qed.

Lemma ReplicateWrite_ok pt req r s' :
  (forall t, rqTimestamp req = Some t -> ts_ok t) ->
  ReplicateWrite pt req (Some r) = (s', None) ->
  exists t r', s' = Some r' /\ rqTimestamp req = Some t /\ rqKey req <> [] /\
    holds_env (r_db r') (rqKey req) (env_norm (mkEnvelope t (rqDeleted req) (rqValue req))) /\
    forall u, u <> rqKey req -> contents (r_db r') !! u = contents (r_db r) !! u.
Proof.
  intros Ht. unfold ReplicateWrite. destruct (Z.eqb_spec (len (rqKey req)) 0) as [|Hk]; [done|].
  destruct (rqTimestamp req) as [t|] eqn:Et; [|done]. rewrite protoToHLC_id.
  destruct (Update _ _ _) as [clock [err|]]; [done|].
  destruct (EncodeEnvelope _) as [b| |] eqn:E; [|done..]. destruct (db_Put _ _ _) as [db|] eqn:Ep; [|done].
  intros [= <-]. destruct (put_holds (r_db r) db (rqKey req) (mkEnvelope t (rqDeleted req) (rqValue req)) b (Ht t eq_refl) E Ep) as [H1 H2].
  exists t, (mkReplica clock db). split_and!; try done. intros E0. by rewrite E0 in Hk.
Qed.

(** Whatever its status, the handler changes at most the entry of its key, and
    only to the envelope of the request. *)
Lemma ReplicateWrite_frame pt req r :
  (forall t, rqTimestamp req = Some t -> ts_ok t) ->
  exists r', (ReplicateWrite pt req (Some r)).1 = Some r' /\
    (r_db r' = r_db r \/ (ReplicateWrite pt req (Some r)).2 = None).
Proof.
  intros Ht. unfold ReplicateWrite. destruct (Z.eqb_spec (len (rqKey req)) 0) as [|Hk]; [by eauto|].
  destruct (rqTimestamp req) as [t|]; [|by eauto]. destruct (Update _ _ _) as [clock [err|]]; [by eexists; eauto|].
  destruct (EncodeEnvelope _) as [b| |]; [|by eexists; eauto..]. destruct (db_Put _ _ _) as [db|]; by eexists; eauto.
Qed.
End stored.
