(* ===== verification/HintStore.v ===== *)
(** * Hints for unreachable replicas (src/cluster/hintedhandoff/store.go)

    A hint is the envelope (or vector request) of a write that did not reach a
    dead replica, kept in a store of its own under a key made of the target, the
    timestamp and the user key.  The key codec, the store with its capacity
    accounting, and iteration over the hints of one target. *)

From Stdlib Require Import ZArith Lia List Sorted.
From stdpp Require Import base list option gmap sorting.
From S2P Require Import Prelude GoBytes KV Entries HLC Envelope KVStore.

Definition HintKV : Byte.byte := Byte.x00.
Definition HintVectorWrite : Byte.byte := Byte.xf1.
Definition HintVectorDelete : Byte.byte := Byte.xf2.

Definition ParseHintType (value : bytes) : Byte.byte * bytes :=
  match value with
  | [] => (HintKV, value)
  | b :: rest => if bool_decide (b = HintVectorWrite) || bool_decide (b = HintVectorDelete) then (b, rest) else (HintKV, value)
  end.

Definition DefaultMaxBytes : Z := 256 * 1024 * 1024.
Definition DefaultHintTTL : Z := 24 * 3600 * 1000000000.
Record StoreConfig := mkStoreConfig { MaxBytes : Z; HintTTL : Z }.
Definition StoreConfig_defaults (c : StoreConfig) : StoreConfig :=
  mkStoreConfig (if MaxBytes c <=? 0 then DefaultMaxBytes else MaxBytes c) (if HintTTL c <=? 0 then DefaultHintTTL else HintTTL c).

(** ** Key encoding *)
Definition encodeHintKey (nodeID : bytes) (ts : Timestamp) (userKey : bytes) : bytes :=
  put_be 2 (len nodeID) ++ nodeID ++ put_be 8 (u64 (WallTime ts)) ++ put_be 4 (Logical ts) ++ userKey.
Definition targetPrefix (nodeID : bytes) : bytes := put_be 2 (len nodeID) ++ nodeID.

(** The slice expressions below are within bounds after the guards. *)
Definition extractNodeID (hintKey : bytes) : bytes :=
  if len hintKey <? 2 then [] else
  let nidLen := get_be (take 2 hintKey) in
  if len hintKey <? 2 + nidLen then [] else take (Z.to_nat nidLen) (drop 2 hintKey).
Definition ExtractTimestamp (hintKey : bytes) : Timestamp :=
  if len hintKey <? 2 then zeroTs else
  let nidLen := get_be (take 2 hintKey) in
  let off := 2 + nidLen in
  if len hintKey <? off + 12 then zeroTs else
  let r := drop (Z.to_nat off) hintKey in
  mkTs (i64 (get_be (take 8 r))) (get_be (take 4 (drop 8 r))) [].
Definition ExtractUserKey (hintKey : bytes) : option bytes :=
  if len hintKey <? 2 then None else
  let nidLen := get_be (take 2 hintKey) in
  let off := 2 + nidLen + 12 in
  if len hintKey <? off then None else Some (drop (Z.to_nat off) hintKey).

(** ** The store *)
Inductive HintErr := ErrCapacityExceeded | ErrHintDB.

Section store.
Context {S : Type} `{!KVStore S}.

Record Store := mkStore { h_db : S; h_cfg : StoreConfig; h_size : Z; h_targets : gset bytes }.

(** The loop of [computeLogicalSize] over the entries of the scan. *)
Definition sizeLoop (acc : Z * gset bytes) (kv : bytes * option bytes) : Z * gset bytes :=
  match kv.2 with
  | Some val =>
      let nodeID := extractNodeID kv.1 in
      (acc.1 + len val, if bool_decide (nodeID = []) then acc.2 else acc.2 ∪ {[nodeID]})
  | None => acc
  end.
Definition computeLogicalSize (s : Store) : Store :=
  let '(total, targets) := fold_left sizeLoop (db_Scan (h_db s)) (0, h_targets s) in
  mkStore (h_db s) (h_cfg s) total targets.
(** [NewStore] on the database opened in its directory. *)
Definition NewStore (cfg : StoreConfig) (database : S) : Store :=
  computeLogicalSize (mkStore database (StoreConfig_defaults cfg) 0 ∅).

(** The three critical sections of [Add], and their composition. *)
Definition Add_reserve (entrySize : Z) (s : Store) : outcome HintErr Store :=
  if MaxBytes (h_cfg s) <? h_size s + entrySize then Err ErrCapacityExceeded
  else Ok (mkStore (h_db s) (h_cfg s) (h_size s + entrySize) (h_targets s)).
Definition Add (target key envelope : bytes) (ts : Timestamp) (s : Store) : Store * option HintErr :=
  let hintKey := encodeHintKey target ts key in
  let entrySize := len envelope in
  match Add_reserve entrySize s with
  | Ok s =>
      match db_Put hintKey envelope (h_db s) with
      | None => (mkStore (h_db s) (h_cfg s) (h_size s - entrySize) (h_targets s), Some ErrHintDB)
      | Some db => (mkStore db (h_cfg s) (h_size s) (h_targets s ∪ {[target]}), None)
      end
  | Err e => (s, Some e)
  | Panic => (s, None)
  end.

(** [tombstoneFilter] over the prefix scan, drained: the live hints of a target. *)
Definition tombstoneFilter (l : list (bytes * option bytes)) : list (bytes * bytes) :=
  omap (fun kv => match kv.2 with Some v => Some (kv.1, v) | None => None end) l.
Definition Iterate (target : bytes) (s : Store) : list (bytes * bytes) :=
  tombstoneFilter (db_ScanPrefix (targetPrefix target) (h_db s)).

Definition Remove (hintKey : bytes) (envSize : Z) (s : Store) : Store * option HintErr :=
  match db_Delete hintKey (h_db s) with
  | None => (s, Some ErrHintDB)
  | Some db => (mkStore db (h_cfg s) (h_size s - envSize) (h_targets s), None)
  end.

Definition Targets (range_targets : gset bytes -> list bytes) (s : Store) : list bytes := range_targets (h_targets s).
Definition RemoveTarget (nodeID : bytes) (s : Store) : Store :=
  mkStore (h_db s) (h_cfg s) (h_size s) (h_targets s ∖ {[nodeID]}).
Definition LogicalSize (s : Store) : Z := h_size s.
End store.
Arguments Store : clear implicits.
Arguments mkStore {S} _ _ _ _.

(** ** The codec *)
Definition id_ok (nodeID : bytes) : Prop := 0 < len nodeID < 2^16.

Lemma encodeHintKey_prefix n ts k : encodeHintKey n ts k = targetPrefix n ++ put_be 8 (u64 (WallTime ts)) ++ put_be 4 (Logical ts) ++ k.
Proof. unfold encodeHintKey, targetPrefix. by rewrite <-app_assoc. Qed.

Lemma take_put_be n z l : take n (put_be n z ++ l) = put_be n z.
Proof. rewrite <-(length_put_be n z) at 1. apply take_app_length. Qed.
Lemma drop_put_be n z l : drop n (put_be n z ++ l) = l.
Proof. rewrite <-(length_put_be n z) at 1. apply drop_app_length. Qed.

Lemma nid_len n l : id_ok n -> get_be (take 2 (put_be 2 (len n) ++ l)) = len n.
Proof.
  intros Hn. unfold id_ok in Hn. rewrite take_put_be, get_be_put_be. change (256 ^ Z.of_nat 2) with (2^16).
  apply Z.mod_small. pose proof (len_nonneg n). lia.
Qed.

Lemma drop_target n l : drop (Z.to_nat (2 + len n)) (put_be 2 (len n) ++ n ++ l) = l.
Proof.
  replace (Z.to_nat (2 + len n)) with (length (put_be 2 (len n) ++ n)) by (rewrite length_app, length_put_be; unfold len; lia).
  rewrite app_assoc. apply drop_app_length.
Qed.

(** The parts of a hint key are read back; the node of the timestamp is not stored. *)
Lemma hint_key_parts n ts k :
  id_ok n -> ts_ok ts ->
  extractNodeID (encodeHintKey n ts k) = n /\
  ExtractTimestamp (encodeHintKey n ts k) = mkTs (WallTime ts) (Logical ts) [] /\
  ExtractUserKey (encodeHintKey n ts k) = Some k.
Proof.
  intros Hn [Hw Hl]. unfold extractNodeID, ExtractTimestamp, ExtractUserKey, encodeHintKey. pose proof (len_nonneg n).
  rewrite !(proj2 (Z.ltb_ge _ 2)) by len_lia. rewrite nid_len by done. rewrite !(proj2 (Z.ltb_ge _ _)) by len_lia.
  split_and!.
  - rewrite drop_put_be. unfold len. rewrite Nat2Z.id. apply take_app_length.
  - rewrite drop_target, take_put_be, drop_put_be, take_put_be, !get_be_put_be. f_equal.
    + change (256 ^ Z.of_nat 8) with (2^64). rewrite Z.mod_small by apply u64_range. by apply i64_u64.
    + change (256 ^ Z.of_nat 4) with (2^32). by apply Z.mod_small.
  - f_equal. replace (Z.to_nat (2 + len n + 12)) with (length (put_be 2 (len n) ++ n ++ put_be 8 (u64 (WallTime ts)) ++ put_be 4 (Logical ts)))
      by (rewrite !length_app, !length_put_be; unfold len; lia).
    replace (put_be 2 (len n) ++ n ++ put_be 8 (u64 (WallTime ts)) ++ put_be 4 (Logical ts) ++ k)
      with ((put_be 2 (len n) ++ n ++ put_be 8 (u64 (WallTime ts)) ++ put_be 4 (Logical ts)) ++ k) by app_eq.
    apply drop_app_length.
Qed.

Lemma put_be_inj2 a b : 0 <= a < 2^16 -> 0 <= b < 2^16 -> put_be 2 a = put_be 2 b -> a = b.
Proof.
  intros Ha Hb E. apply (f_equal get_be) in E. rewrite !get_be_put_be in E. change (256 ^ Z.of_nat 2) with (2^16) in E.
  by rewrite !Z.mod_small in E.
Qed.

(** A hint key starts with the prefix of exactly its own target. *)
Lemma targetPrefix_hint n n' ts k :
  id_ok n -> id_ok n' -> targetPrefix n `prefix_of` encodeHintKey n' ts k <-> n = n'.
Proof.
  unfold id_ok. intros Hn Hn'. pose proof (len_nonneg n). pose proof (len_nonneg n'). rewrite encodeHintKey_prefix. split.
  - intros [l E]. unfold targetPrefix in E. rewrite <-!app_assoc in E.
    apply app_inj_1 in E as [E1 E2]; [|by rewrite !length_put_be]. apply put_be_inj2 in E1; [|lia..].
    apply app_inj_1 in E2 as [-> _]; [done|]. unfold len in E1. lia.
  - intros ->. by apply prefix_app_r.
Qed.

(** No hint key is a prefix of a target prefix. *)
Lemma hint_not_prefix n n' ts k : id_ok n -> id_ok n' -> ~ encodeHintKey n' ts k `prefix_of` targetPrefix n.
Proof.
  unfold id_ok. intros Hn Hn' [l E]. pose proof (len_nonneg n). pose proof (len_nonneg n').
  assert (len (targetPrefix n) = len (encodeHintKey n' ts k ++ l)) as El by (by rewrite E).
  unfold encodeHintKey, targetPrefix in *. rewrite <-!app_assoc in E.
  apply app_inj_1 in E as [E1 _]; [|by rewrite !length_put_be]. apply put_be_inj2 in E1; [|lia..]. len_lia.
Qed.

(** ** Size of the live hints *)
Definition live (m : gmap bytes Value) (hk : bytes) : option bytes := m !! hk ≫= iter_value.
Definition live_len (o : option bytes) : Z := match o with Some v => len v | None => 0 end.
Definition live_size (m : gmap bytes Value) : Z := map_fold (fun (_ : bytes) (w : Value) (acc : Z) => live_len (iter_value w) + acc) 0 m.

Lemma live_size_insert (m : gmap bytes Value) (hk : bytes) w :
  live_size (<[hk := w]> m) = live_size m - live_len (live m hk) + live_len (iter_value w).
Proof.
  unfold live_size, live. rewrite <-insert_delete_eq.
  rewrite (map_fold_insert_L _ _ hk w (delete hk m)); [|intros; lia|by rewrite lookup_delete_eq].
  destruct (m !! hk) as [w0|] eqn:E; cbn.
  - rewrite (map_fold_delete_L _ _ hk w0 m); [lia|intros; lia|done].
  - rewrite delete_id by done. cbn. lia.
Qed.

Lemma live_size_nonneg (m : gmap bytes Value) : 0 <= live_size m.
Proof.
  unfold live_size. apply (map_fold_weak_ind (fun r _ => 0 <= r)); [done|]. intros k w m' r _ Hr. unfold live_len.
  destruct (iter_value w); [pose proof (len_nonneg l)|]; lia.
Qed.

(** The size counted while scanning is the size of the live hints. *)
Definition list_size (l : list (bytes * option bytes)) : Z := foldr (fun kv acc => live_len kv.2 + acc) 0 l.

Lemma lists_size (m : gmap bytes Value) l : lists m (fun _ => True) l -> list_size l = live_size m.
Proof.
  revert m; induction l as [|[u v] l IH]; intros m [Hs Hin].
  - assert (m = ∅) as ->; [|done]. apply map_empty. intros u. destruct (m !! u) as [w|] eqn:E; [|done].
    exfalso. apply (not_elem_of_nil (u, iter_value w)), Hin. eauto.
  - apply StronglySorted_inv in Hs as [Hs Hf]. rewrite Forall_forall in Hf.
    destruct (proj1 (Hin u v) (list_elem_of_here _ _)) as (_ & w & Hw & ->).
    cbn [list_size foldr snd]. fold (list_size l). rewrite (IH (delete u m)).
    + unfold live_size. rewrite (map_fold_delete_L _ _ u w m); [lia|intros; lia|done].
    + split; [done|]. intros u' v'. specialize (Hin u' v'). rewrite elem_of_cons in Hin. split.
      * intros H'. specialize (Hf _ H'). destruct (proj1 Hin (or_intror H')) as (_ & w' & Hw' & ->). split; [done|]. exists w'.
        split; [|done]. rewrite lookup_delete_ne; [done|]. intros ->. by apply (blt_irrefl u').
      * intros (_ & w' & Hw' & ->). apply lookup_delete_Some in Hw' as [Hne Hw'].
        destruct (proj2 Hin ltac:(eauto)) as [[= -> _]|]; done.
Qed.

(** ** The invariant *)
Section inv.
Context {S : Type} `{!KVStore S, !KVLaws S}.
Abbreviation Store := (Store S).

Record hint_inv (s : Store) : Prop := {
  hi_keys : forall hk w, contents (h_db s) !! hk = Some w -> exists n ts k, id_ok n /\ ts_ok ts /\ hk = encodeHintKey n ts k;
  hi_size : h_size s = live_size (contents (h_db s));
  hi_cap : h_size s <= MaxBytes (h_cfg s);
  hi_targets : forall n ts k, id_ok n -> live (contents (h_db s)) (encodeHintKey n ts k) <> None -> n ∈ h_targets s
}.

Lemma live_Some (m : gmap bytes Value) (hk : bytes) w : m !! hk = Some w -> live m hk = iter_value w.
Proof. intros E. unfold live. by rewrite E. Qed.

(** [Iterate] gives the live hints of its target, in the order of their keys. *)
Lemma Iterate_spec s n :
  hint_inv s -> id_ok n ->
  StronglySorted key_lt (Iterate n s) /\
  forall hk v, (hk, v) ∈ Iterate n s <-> live (contents (h_db s)) hk = Some v /\ targetPrefix n `prefix_of` hk.
Proof.
  intros Hi Hn. destruct (law_scan_prefix (h_db s) (targetPrefix n)) as [Hs Hin].
  { intros u w Hw Hp. destruct (hi_keys s Hi u w Hw) as (n' & ts & k & Hn' & _ & ->). by apply hint_not_prefix in Hp. }
  unfold Iterate, tombstoneFilter. split.
  - clear Hin. induction Hs as [|[u [v|]] l Hs IH Hf]; cbn; [constructor| |done]. constructor; [done|].
    rewrite Forall_forall in Hf. apply Forall_forall. intros [u' v'] Hu. apply list_elem_of_omap in Hu as ([u0 [v0|]] & Hu & E); [|done].
    injection E as -> ->. exact (Hf _ Hu).
  - intros hk v. rewrite list_elem_of_omap. split.
    + intros ([u [v0|]] & Hu & E); [|done]. injection E as -> ->. apply Hin in Hu as (Hp & w & Hw & Ev).
      split; [|done]. by rewrite (live_Some _ _ _ Hw).
    + intros [Hl Hp]. unfold live in Hl. destruct (contents (h_db s) !! hk) as [w|] eqn:E; [|done]. cbn in Hl.
      exists (hk, Some v). split; [|done]. apply Hin. split; [done|]. exists w. by rewrite E.
Qed.

(** ** Runs of correct uses of the store *)
Inductive hint_op := HAdd (target key envelope : bytes) (ts : Timestamp) | HRemove (hintKey : bytes) (envSize : Z) | HForget (nodeID : bytes).

(** A hint is added once, a removed hint was iterated and not removed since, a
    target is forgotten when it has no hints. *)
Definition hint_allowed (s : Store) (o : hint_op) : Prop :=
  match o with
  | HAdd target key envelope ts => id_ok target /\ ts_ok ts /\ live (contents (h_db s)) (encodeHintKey target ts key) = None
  | HRemove hk n => exists v, live (contents (h_db s)) hk = Some v /\ n = len v
  | HForget n => id_ok n /\ Iterate n s = []
  end.
Definition hint_step (s : Store) (o : hint_op) : Store :=
  match o with
  | HAdd target key envelope ts => (Add target key envelope ts s).1
  | HRemove hk n => (Remove hk n s).1
  | HForget n => RemoveTarget n s
  end.
Inductive hint_run : Store -> list hint_op -> Store -> Prop :=
| hint_run_nil s : hint_run s [] s
| hint_run_cons s o os s' : hint_allowed s o -> hint_run (hint_step s o) os s' -> hint_run s (o :: os) s'.

Lemma encodeHintKey_inj n ts k n' ts' k' :
  id_ok n -> id_ok n' -> ts_ok ts -> ts_ok ts' -> encodeHintKey n ts k = encodeHintKey n' ts' k' -> n = n' /\ k = k'.
Proof.
  intros Hn Hn' Ht Ht' E. destruct (hint_key_parts n ts k Hn Ht) as (E1 & _ & E3). destruct (hint_key_parts n' ts' k' Hn' Ht') as (E1' & _ & E3').
  rewrite E in E1, E3. split; congruence.
Qed.

Lemma Add_inv s target key envelope ts :
  hint_inv s -> hint_allowed s (HAdd target key envelope ts) -> hint_inv (Add target key envelope ts s).1.
Proof.
  intros Hi (Hn & Ht & Hfresh). unfold Add, Add_reserve.
  destruct (Z.ltb_spec (MaxBytes (h_cfg s)) (h_size s + len envelope)) as [|Hc]; [done|]. cbn [h_db h_cfg h_size h_targets].
  destruct (db_Put _ _ _) as [db|] eqn:E; cbn [fst].
  - apply law_put in E. destruct Hi as [H1 H2 H3 H4]. split; cbn; rewrite ?E.
    + intros hk w. destruct (decide (hk = encodeHintKey target ts key)) as [->|Hne]; [by exists target, ts, key|].
      rewrite lookup_insert_ne by done. apply H1.
    + rewrite live_size_insert, Hfresh. cbn. lia.
    + lia.
    + intros n ts' k Hid Hl. destruct (decide (encodeHintKey n ts' k = encodeHintKey target ts key)) as [Ek|Hne].
      * assert (targetPrefix target `prefix_of` encodeHintKey n ts' k) as Hp by (rewrite Ek; by apply targetPrefix_hint).
        apply targetPrefix_hint in Hp as ->; [|done..]. set_solver.
      * unfold live in Hl. rewrite lookup_insert_ne in Hl by done. apply elem_of_union_l, (H4 n ts' k); done.
  - destruct s as [db c sz tg]. cbn in *. replace (sz + len envelope - len envelope) with sz by lia. done.
Qed.

Lemma Remove_inv s hk n : hint_inv s -> hint_allowed s (HRemove hk n) -> hint_inv (Remove hk n s).1.
Proof.
  intros Hi (v & Hl & ->). unfold Remove. destruct (db_Delete _ _) as [db|] eqn:E; [|done]. apply law_delete in E.
  destruct Hi as [H1 H2 H3 H4]. split; cbn; rewrite ?E.
  - intros hk' w. destruct (decide (hk' = hk)) as [->|Hne]; [|rewrite lookup_insert_ne by done; apply H1].
    intros _. unfold live in Hl. destruct (contents (h_db s) !! hk) as [w'|] eqn:E'; [|done]. by apply (H1 hk w').
  - rewrite live_size_insert, Hl. cbn. lia.
  - pose proof (len_nonneg v). lia.
  - intros n ts k Hid. destruct (decide (encodeHintKey n ts k = hk)) as [->|Hne]; unfold live.
    + rewrite lookup_insert_eq. done.
    + rewrite lookup_insert_ne by done. by apply H4.
Qed.

Lemma RemoveTarget_inv s n : hint_inv s -> hint_allowed s (HForget n) -> hint_inv (RemoveTarget n s).
Proof.
  intros Hi [Hn He]. pose proof (Iterate_spec s n Hi Hn) as [_ Hin]. destruct Hi as [H1 H2 H3 H4]. split; cbn; [done..|].
  intros n' ts k Hid Hl. apply elem_of_difference. split; [by apply (H4 n' ts k)|]. intros ->%elem_of_singleton.
  destruct (live _ _) as [v|] eqn:E; [|done]. apply (not_elem_of_nil (encodeHintKey n ts k, v)). rewrite <-He. apply Hin.
  split; [done|]. by apply targetPrefix_hint.
Qed.

Lemma hint_run_inv s os s' : hint_run s os s' -> hint_inv s -> hint_inv s'.
Proof.
  induction 1 as [|s o os s' Ha Hr IH]; [done|]. intros Hi. apply IH. destruct o; [by apply Add_inv|by apply Remove_inv|by apply RemoveTarget_inv].
Qed.

Lemma hint_run_cfg (s : Store) os s' : hint_run s os s' -> h_cfg s' = h_cfg s.
Proof.
  induction 1 as [|s o os s' Ha Hr IH]; [done|]. rewrite IH. destruct o; cbn; [|by unfold Remove; destruct (db_Delete _ _)|done].
  unfold Add, Add_reserve. destruct (_ <? _); [done|]. by destruct (db_Put _ _ _).
Qed.

Lemma sizeLoop_spec (l : list (bytes * option bytes)) (acc : Z * gset bytes) :
  (fold_left sizeLoop l acc).1 = acc.1 + list_size l /\ acc.2 ⊆ (fold_left sizeLoop l acc).2 /\
  forall u v, (u, Some v) ∈ l -> extractNodeID u <> [] -> extractNodeID u ∈ (fold_left sizeLoop l acc).2.
Proof.
  revert acc; induction l as [|[u o] l IH]; intros acc; cbn [fold_left list_size foldr snd].
  - split; [lia|]. split; [done|]. intros ?? []%not_elem_of_nil.
  - fold (list_size l). destruct (IH (sizeLoop acc (u, o))) as (E & Hsub & Hin). rewrite E.
    assert ((snd acc : gset bytes) ⊆ (sizeLoop acc (u, o)).2) as H1 by (destruct o; cbn; [case_bool_decide; set_solver|done]).
    split; [destruct o; cbn; lia|]. split; [by etrans|]. intros u' v [[= -> <-]|Hu]%elem_of_cons Hne; [|by eapply Hin].
    apply Hsub. cbn. rewrite bool_decide_false by done. set_solver.
Qed.

Definition hint_keys (m : gmap bytes Value) : Prop :=
  forall (hk : bytes) w, m !! hk = Some w -> exists n ts k, id_ok n /\ ts_ok ts /\ hk = encodeHintKey n ts k.

Lemma NewStore_inv c database :
  hint_keys (contents database) -> live_size (contents database) <= MaxBytes (StoreConfig_defaults c) ->
  hint_inv (NewStore c database).
Proof.
  intros Hk Hc. unfold NewStore, computeLogicalSize. cbn [h_db h_targets h_cfg].
  destruct (sizeLoop_spec (db_Scan database) (0, ∅)) as (E & _ & Hin). destruct (fold_left sizeLoop _ _) as [total targets]. cbn in E, Hin.
  pose proof (law_scan database) as Hl. rewrite (lists_size _ _ Hl) in E. split; cbn [h_db h_cfg h_size h_targets]; [done|lia|lia|].
  intros n ts k Hid Hlive. destruct (live _ _) as [v|] eqn:Ev; [|done].
  unfold live in Ev. destruct (contents database !! encodeHintKey n ts k) as [w|] eqn:Ew; [|done]. cbn in Ev.
  destruct (Hk _ _ Ew) as (n' & ts' & k' & Hn' & Ht' & Ek).
  assert (n = n') as <-.
  { apply (targetPrefix_hint n n' ts' k'); [done..|]. rewrite <-Ek. by apply targetPrefix_hint. }
  destruct (hint_key_parts n ts' k' Hn' Ht') as (En & _). rewrite <-Ek in En. rewrite <-En.
  apply (Hin _ v); [|rewrite En; intros ->; by destruct Hid]. apply Hl. split; [done|]. exists w. by rewrite Ew.
Qed.

(** C40: Capacity accounting of the hint store.  Over any run in which
    hints are added under fresh keys and removed once, after the store was opened
    on a database of hints within the limit: the tracked size is the size of the
    live hints and stays within the limit, every node with a live hint is in the
    target index, and iterating a target yields exactly its live hints in the
    order of their keys. *)
Theorem hint_accounting c database os s' :
  hint_keys (contents database) -> live_size (contents database) <= MaxBytes (StoreConfig_defaults c) ->
  hint_run (NewStore c database) os s' ->
  LogicalSize s' = live_size (contents (h_db s')) /\ 0 <= LogicalSize s' <= MaxBytes (StoreConfig_defaults c) /\
  forall n, id_ok n ->
    StronglySorted key_lt (Iterate n s') /\
    (forall hk v, (hk, v) ∈ Iterate n s' <-> live (contents (h_db s')) hk = Some v /\ targetPrefix n `prefix_of` hk) /\
    (Iterate n s' <> [] -> n ∈ h_targets s').
Proof.
  intros Hk Hc Hr. assert (h_cfg s' = StoreConfig_defaults c) as Ec.
  { rewrite (hint_run_cfg _ _ _ Hr). unfold NewStore, computeLogicalSize. by destruct (fold_left _ _ _). }
  apply hint_run_inv in Hr; [|by apply NewStore_inv]. pose proof Hr as [H1 H2 H3 H4]. rewrite Ec in H3.
  split; [done|]. split; [unfold LogicalSize; rewrite H2 in *; split; [apply live_size_nonneg|done]|].
  intros n Hn. pose proof (Iterate_spec s' n Hr Hn) as [Hs Hin]. split; [done|]. split; [done|]. intros Hne.
  destruct (Iterate n s') as [|[hk v] l] eqn:E; [done|]. destruct (proj1 (Hin hk v) (list_elem_of_here _ _)) as [Hl Hp].
  unfold live in Hl. destruct (contents (h_db s') !! hk) as [w|] eqn:Ew; [|done]. destruct (H1 _ _ Ew) as (n' & ts & k & Hn' & Ht & ->).
  apply targetPrefix_hint in Hp as ->; [|done..]. apply (H4 n' ts k); [done|]. unfold live. by rewrite Ew, Hl.
Qed.
End inv.

Definition demo_hints : list hint_op :=
  [HAdd [Byte.x62] [Byte.x6b] [Byte.x01; Byte.x02] (mkTs 5 0 [Byte.x61]);
   HAdd [Byte.x63] [Byte.x6b] [Byte.x03] (mkTs 6 0 [Byte.x61]);
   HRemove (encodeHintKey [Byte.x62] (mkTs 5 0 [Byte.x61]) [Byte.x6b]) 2].

Lemma hint_accounting_witness :
  let s := fold_left hint_step demo_hints (NewStore (mkStoreConfig 0 0) (∅ : gmap bytes Value)) in
  LogicalSize s = live_size (contents (h_db s)) /\ 0 <= LogicalSize s <= DefaultMaxBytes /\ LogicalSize s = 1.
Proof.
  set (s := fold_left _ _ _). destruct (hint_accounting (mkStoreConfig 0 0) (∅ : gmap bytes Value) demo_hints s) as (H1 & H2 & _); [| | |by repeat split].
  - intros hk w. cbn. by rewrite lookup_empty.
  - by vm_compute.
  - subst s. unfold demo_hints. repeat first [apply hint_run_nil | apply hint_run_cons].
    + split; [by vm_compute|]. split; [by vm_compute|]. by vm_compute.
    + split; [by vm_compute|]. split; [by vm_compute|]. by vm_compute.
    + exists [Byte.x01; Byte.x02]. split; by vm_compute.
Defined.

(** Removing a hint twice, as the TTL purge of a sweep and a drain of the same
    target running at the same time do, counts it twice: the tracked size drops
    below the size of the live hints, here below zero. *)
Theorem hint_removed_twice_drifts :
  let hk := encodeHintKey [Byte.x62] (mkTs 5 0 [Byte.x61]) [Byte.x6b] in
  let s0 := (Add [Byte.x62] [Byte.x6b] [Byte.x01; Byte.x02] (mkTs 5 0 [Byte.x61]) (NewStore (mkStoreConfig 0 0) (∅ : gmap bytes Value))).1 in
  let s := (Remove hk 2 (Remove hk 2 s0).1).1 in
  LogicalSize s0 = 2 /\ live_size (contents (h_db s)) = 0 /\ LogicalSize s = -2.
Proof. vm_compute. done. Qed.
