(* ===== verification/Coordinator.v ===== *)
(** * Quorum reads and writes (src/cluster/coordinator.go)

    The coordinator of a node sends a write to the N replicas of its key and
    waits for W acknowledgements, and a read to the readable replicas and waits
    for R answers, of which it returns the newest and repairs the others.  A
    [cluster] is the state of all nodes.  A goroutine of a write is a task that
    runs at any time, in any order, with any [fate] of its remote call; the
    coordinator receives the acknowledgements in any order.  Read answers are
    taken from the states in which the replicas answered. *)

From Stdlib Require Import ZArith Lia List.
From stdpp Require Import base list option gmap.
From S2P Require Import Prelude GoBytes KV Entries HLC Envelope KVStore Replica Member HintStore HashRing.
Open Scope Z_scope.

Record CoordinatorConfig := mkCoord { ReplicationFactor : Z; WriteQuorum : Z; ReadQuorum : Z }.
Definition DefaultCoordinatorConfig : CoordinatorConfig := mkCoord 3 2 2.

Inductive CoordErr :=
| ErrEmptyKey | ErrNotEnoughReplicas | ErrWriteQuorumNotMet | ErrReadQuorumNotMet | ErrCoordEncode.

(** What happens to a remote call: the request is lost, the answer is lost, or
    it is answered; [pt] is the physical clock of the receiver. *)
Inductive fate := Lost | ReplyLost (pt : Z) | Delivered (pt : Z).

Definition splitReplicas (m : Membership) (replicas : list Node) : list Node * list Node :=
  (filter (fun r => RingStateOf m (HashRing.NodeID r) <> RingJoining) replicas,
   filter (fun r => RingStateOf m (HashRing.NodeID r) = RingJoining) replicas).

(** The loop that waits for acknowledgements; [None]: it waits for another one. *)
Fixpoint collectAcks (W maxFailures successes failures : Z) (acks : list bool) : option bool :=
  if (successes <? W) && (failures <? maxFailures) then
    match acks with
    | [] => None
    | true :: acks => collectAcks W maxFailures (successes + 1) failures acks
    | false :: acks => collectAcks W maxFailures successes (failures + 1) acks
    end
  else Some (W <=? successes).

Definition protoToHLC (p : option Timestamp) : Timestamp := default zeroTs (protoToHLCTimestamp <$> p).

(** One replica's answer; [None]: an error. *)
Record replicaReadResult := mkRead { rd_node : bytes; rd_addr : bytes; rd_resp : option ReplicateReadResponse }.
Record ReadResult := mkResult { res_value : option bytes; res_found : bool; res_deleted : bool }.

(** Phase 1 of [Read]: the answers of the quorum, the number of failures, and the
    answers still to come; [None]: it waits for another one. *)
Fixpoint collectReads (R maxFailures : Z) (got : list replicaReadResult) (failures : Z) (arrivals : list replicaReadResult)
  : option (list replicaReadResult * Z * list replicaReadResult) :=
  if (len got <? R) && (failures <? maxFailures) then
    match arrivals with
    | [] => None
    | r :: arrivals =>
        match rd_resp r with
        | None => collectReads R maxFailures got (failures + 1) arrivals
        | Some _ => collectReads R maxFailures (got ++ [r]) failures arrivals
        end
    end
  else Some (got, failures, arrivals).

Definition resp_found (r : replicaReadResult) : bool := match rd_resp r with Some p => rsFound p | None => false end.
Definition resp_ts (r : replicaReadResult) : Timestamp :=
  match rd_resp r with Some p => protoToHLC (rsTimestamp p) | None => zeroTs end.

(** The search for the newest value among the answers. *)
Fixpoint newestOf (cur : option replicaReadResult) (responses : list replicaReadResult) : option replicaReadResult :=
  match responses with
  | [] => cur
  | r :: responses =>
      newestOf (if negb (resp_found r) then cur else
                match cur with
                | None => Some r
                | Some c => if Less (resp_ts c) (resp_ts r) then Some r else cur
                end) responses
  end.

Definition resultOf (newest : option replicaReadResult) : ReadResult :=
  match newest with
  | None => mkResult None false false
  | Some r => match rd_resp r with
              | Some p => mkResult (rsValue p) true (rsDeleted p)
              | None => mkResult None false false
              end
  end.

(** [collectAndRepair]: late answers, without the failed ones, and the newest of all. *)
Definition lateNewest (newest r : replicaReadResult) : replicaReadResult :=
  if resp_found r && (negb (resp_found newest) || Less (resp_ts newest) (resp_ts r)) then r else newest.
Fixpoint collectLate (newest : replicaReadResult) (all : list replicaReadResult) (late : list replicaReadResult)
  : replicaReadResult * list replicaReadResult :=
  match late with
  | [] => (newest, all)
  | r :: late =>
      match rd_resp r with
      | None => collectLate newest all late
      | Some _ => collectLate (lateNewest newest r) (all ++ [r]) late
      end
  end.
(** The replicas [readRepair] writes the newest value to. *)
Definition staleNodes (newest : replicaReadResult) (responses : list replicaReadResult) : list (bytes * bytes) :=
  omap (fun r =>
    if bytes_Equal (rd_node r) (rd_node newest) then None
    else if negb (resp_found r) || Less (resp_ts r) (resp_ts newest) then Some (rd_node r, rd_addr r) else None) responses.

Section coordinator.
Context {S : Type} `{!KVStore S}.
Context (Sum64 : bytes -> Z) (cfg : CoordinatorConfig).
(** The node that answers at an address. *)
Context (resolve : bytes -> bytes).

Record peer := mkPeer { p_rep : Replica S; p_mem : Membership; p_ring : Ring; p_hints : option (Store S) }.
Abbreviation cluster := (gmap bytes peer).

Definition set_rep (p : peer) (r : Replica S) : peer := mkPeer r (p_mem p) (p_ring p) (p_hints p).
Definition set_hints (p : peer) (h : option (Store S)) : peer := mkPeer (p_rep p) (p_mem p) (p_ring p) h.

(** [db.Put] on the node itself. *)
Definition localPut (self key encoded : bytes) (c : cluster) : cluster * bool :=
  match c !! self with
  | None => (c, false)
  | Some p =>
      match db_Put key encoded (r_db (p_rep p)) with
      | Some db => (<[self := set_rep p (mkReplica (r_clock (p_rep p)) db)]> c, true)
      | None => (c, false)
      end
  end.

(** The request reaches the node at [addr]. *)
Definition deliverWrite (pt : Z) (addr : bytes) (req : ReplicateWriteRequest) (c : cluster) : cluster * bool :=
  match c !! resolve addr with
  | None => (c, false)
  | Some p =>
      let '(s, err) := ReplicateWrite pt req (Some (p_rep p)) in
      (match s with Some r => <[resolve addr := set_rep p r]> c | None => c end, bool_decide (err = None))
  end.
Definition remoteWrite (f : fate) (addr key : bytes) (value : option bytes) (ts : Timestamp) (deleted : bool) (c : cluster) : cluster * bool :=
  let req := mkReq key value (Some ts) deleted in
  match f with
  | Lost => (c, false)
  | ReplyLost pt => ((deliverWrite pt addr req c).1, false)
  | Delivered pt => deliverWrite pt addr req c
  end.

(** ** Writes *)
Record wplan := mkPlan {
  w_key : bytes; w_value : option bytes; w_deleted : bool; w_ts : Timestamp; w_encoded : bytes;
  w_voters : list Node; w_learners : list Node }.

(** [writeInternal] up to the start of its goroutines. *)
Definition writeBegin (self : bytes) (pt : Z) (key : bytes) (value : option bytes) (deleted : bool) (c : cluster)
  : cluster * outcome CoordErr wplan :=
  if len key =? 0 then (c, Err ErrEmptyKey) else
  match c !! self with
  | None => (c, Panic)
  | Some p =>
      let '(clock, ts) := Now (r_clock (p_rep p)) pt in
      let c := <[self := set_rep p (mkReplica clock (r_db (p_rep p)))]> c in
      match GetNodes Sum64 (p_ring p) key (ReplicationFactor cfg) with
      | None => (c, Panic)
      | Some replicas =>
          let '(voters, learners) := splitReplicas (p_mem p) replicas in
          if len voters <? WriteQuorum cfg then (c, Err ErrNotEnoughReplicas) else
          match EncodeEnvelope (mkEnvelope ts deleted value) with
          | Ok encoded => (c, Ok (mkPlan key value deleted ts encoded voters learners))
          | Err _ => (c, Err ErrCoordEncode)
          | Panic => (c, Panic)
          end
      end
  end.

Definition learnerTask (self : bytes) (w : wplan) (node : Node) (f : fate) (c : cluster) : cluster :=
  match c !! self with
  | None => c
  | Some p =>
      if negb (IsRoutable (p_mem p) (HashRing.NodeID node)) then c
      else (remoteWrite f (Addr node) (w_key w) (w_value w) (w_ts w) (w_deleted w) c).1
  end.

(** The goroutine of a voter, and whether its acknowledgement has no error. *)
Definition voterTask (self : bytes) (w : wplan) (node : Node) (f : fate) (c : cluster) : cluster * bool :=
  match c !! self with
  | None => (c, false)
  | Some p =>
      if bytes_Equal (HashRing.NodeID node) self then localPut self (w_key w) (w_encoded w) c
      else if IsRoutable (p_mem p) (HashRing.NodeID node)
      then remoteWrite f (Addr node) (w_key w) (w_value w) (w_ts w) (w_deleted w) c
      else
        match p_hints p with
        | None => (c, false)
        | Some hs => (<[self := set_hints p (Some (Add (HashRing.NodeID node) (w_key w) (w_encoded w) (w_ts w) hs).1)]> c, false)
        end
  end.

(** Run the goroutines of a write in the order [sched]; an index past the voters
    is a learner.  The acknowledgements in the order they are sent. *)
Fixpoint runTasks (self : bytes) (w : wplan) (sched : list (nat * fate)) (c : cluster) : cluster * list (nat * bool) :=
  match sched with
  | [] => (c, [])
  | (i, f) :: sched =>
      match w_voters w !! i with
      | Some node =>
          let '(c, ok) := voterTask self w node f c in
          let '(c, acks) := runTasks self w sched c in (c, (i, ok) :: acks)
      | None =>
          match w_learners w !! (i - length (w_voters w))%nat with
          | Some node => runTasks self w sched (learnerTask self w node f c)
          | None => runTasks self w sched c
          end
      end
  end.

(** The write as its client sees it, when the goroutines in [sched] have run and
    their acknowledgements are received in the order [arrival] of positions;
    [None]: the client still waits. *)
Definition writeInternal (self : bytes) (pt : Z) (key : bytes) (value : option bytes) (deleted : bool)
  (sched : list (nat * fate)) (arrival : list nat) (c : cluster) : cluster * option (outcome CoordErr unit) :=
  match writeBegin self pt key value deleted c with
  | (c, Ok w) =>
      let '(c, acks) := runTasks self w sched c in
      let maxFailures := len (w_voters w) - WriteQuorum cfg + 1 in
      (c, (fun ok : bool => if ok then Ok tt else Err ErrWriteQuorumNotMet) <$>
          collectAcks (WriteQuorum cfg) maxFailures 0 0 (omap (fun i => snd <$> acks !! i) arrival))
  | (c, Err e) => (c, Some (Err e))
  | (c, Panic) => (c, Some Panic)
  end.
Definition Write (self : bytes) (pt : Z) (key value : bytes) := writeInternal self pt key (Some value) false.
Definition Delete (self : bytes) (pt : Z) (key : bytes) := writeInternal self pt key None true.

(** ** Reads *)
Definition readable (m : Membership) (replicas : list Node) : list Node :=
  filter (fun r => IsRoutable m (HashRing.NodeID r) = true /\ RingStateOf m (HashRing.NodeID r) <> RingJoining) replicas.

Definition localRead (self key : bytes) (c : cluster) : option ReplicateReadResponse :=
  p ← c !! self; match readResponse (r_db (p_rep p)) key with Ok r => Some r | _ => None end.
Definition remoteRead (f : fate) (addr key : bytes) (c : cluster) : option ReplicateReadResponse :=
  match f with
  | Delivered _ =>
      p ← c !! resolve addr; match ReplicateRead key (Some (p_rep p)) with Ok r => Some r | _ => None end
  | _ => None
  end.
(** The goroutine of a readable replica. *)
Definition readTask (self key : bytes) (node : Node) (f : fate) (c : cluster) : replicaReadResult :=
  mkRead (HashRing.NodeID node) (Addr node)
    (if bytes_Equal (HashRing.NodeID node) self then localRead self key c else remoteRead f (Addr node) key c).

(** The read up to the start of its goroutines. *)
Definition readBegin (self key : bytes) (c : cluster) : outcome CoordErr (list Node) :=
  if len key =? 0 then Err ErrEmptyKey else
  match c !! self with
  | None => Panic
  | Some p =>
      match GetNodes Sum64 (p_ring p) key (ReplicationFactor cfg) with
      | None => Panic
      | Some replicas =>
          let ns := readable (p_mem p) replicas in
          if len ns <? ReadQuorum cfg then Err ErrReadQuorumNotMet else Ok ns
      end
  end.
(** The read from the answers in their order of arrival: what the client gets,
    and what the background repair starts from. *)
Definition readFinish (ns : list Node) (arrivals : list replicaReadResult)
  : option (outcome CoordErr (ReadResult * option (replicaReadResult * list replicaReadResult * list replicaReadResult))) :=
  '(got, failures, late) ← collectReads (ReadQuorum cfg) (len ns - ReadQuorum cfg + 1) [] 0 arrivals;
  Some (if len got <? ReadQuorum cfg then Err ErrReadQuorumNotMet else
        match newestOf None got with
        | None => Ok (resultOf None, None)
        | Some newest => Ok (resultOf (Some newest), Some (newest, got, take (Z.to_nat (len ns - len got - failures)) late))
        end).
Definition Read (self key : bytes) (arrivals : list replicaReadResult) (c : cluster) :=
  match readBegin self key c with
  | Ok ns => readFinish ns arrivals
  | Err e => Some (Err e)
  | Panic => Some Panic
  end.

(** ** Repairs *)
Definition ApplyRepair (self targetID targetAddr key : bytes) (value : option bytes) (ts : Timestamp) (deleted : bool) (f : fate)
  (c : cluster) : cluster * bool :=
  if bytes_Equal targetID self then
    match EncodeEnvelope (mkEnvelope ts deleted value) with
    | Ok encoded => localPut self key encoded c
    | _ => (c, false)
    end
  else remoteWrite f targetAddr key value ts deleted c.

Definition repairNode (self key : bytes) (newest : replicaReadResult) (c : cluster) (nf : bytes * bytes * fate) : cluster :=
  match rd_resp newest with
  | None => c
  | Some p => (ApplyRepair self nf.1.1 nf.1.2 key (rsValue p) (resp_ts newest) (rsDeleted p) nf.2 c).1
  end.
(** [collectAndRepair] once all answers are in and its repairs have run with the given fates. *)
Definition collectAndRepair (self key : bytes) (newest : replicaReadResult) (got late : list replicaReadResult) (fates : list fate)
  (c : cluster) : cluster :=
  let '(newest, all) := collectLate newest got late in
  fold_left (repairNode self key newest) (zip (staleNodes newest all) fates) c.
End coordinator.
Arguments peer : clear implicits.
Arguments mkPeer {S} _ _ _ _.
