(* ===== verification/CoordSpec.v ===== *)
(** * What quorum reads and writes guarantee (src/cluster/coordinator.go)

    A successful write is stored by W replicas; a later quorum read sees it when
    R + W exceeds the number of replicas and no replica went back to an older
    envelope; the coordinator always gets its answer when every replica
    answers; read repair targets exactly the stale replicas.  The last theorem
    shows that replicas do go back: a delayed message overwrites a newer value,
    and an acknowledged write can disappear from quorum reads. *)

From Stdlib Require Import ZArith Lia List.
From stdpp Require Import base list option gmap.
From S2P Require Import Prelude GoBytes KV Entries HLC Envelope KVStore Replica Member HintStore HashRing Coordinator.
Open Scope Z_scope.

(** ** Waiting for acknowledgements *)
Fixpoint oks (acks : list bool) : Z := match acks with [] => 0 | a :: acks => (if a then 1 else 0) + oks acks end.
Definition fails (acks : list bool) : Z := len acks - oks acks.

Lemma oks_range acks : 0 <= oks acks <= len acks.
Proof. induction acks as [|[] acks IH]; cbn [oks]; len_lia. Qed.

Lemma collectAcks_spec W maxF s f acks :
  match collectAcks W maxF s f acks with
  | Some true => W <= s + oks acks
  | Some false => f <= maxF -> maxF <= f + fails acks
  | None => s + oks acks < W /\ f + fails acks < maxF
  end.
Proof.
  revert s f; induction acks as [|a acks IH]; intros s f; cbn [collectAcks].
  - destruct (Z.ltb_spec s W), (Z.ltb_spec f maxF); cbn [andb]; unfold fails; cbn [oks]; change (len (@nil bool)) with 0; try lia; destruct (Z.leb_spec W s); lia.
  - pose proof (oks_range acks). unfold fails in *. cbn [oks]. rewrite len_cons.
    destruct (Z.ltb_spec s W), (Z.ltb_spec f maxF); cbn [andb]; [|destruct (Z.leb_spec W s), a; lia..].
    destruct a; [specialize (IH (s + 1) f)|specialize (IH s (f + 1))]; destruct (collectAcks _ _ _ _ _) as [[]|]; lia.
Qed.

(** ** Pigeonhole *)
Lemma quorum_meet (l l1 l2 : list bytes) :
  NoDup l1 -> NoDup l2 -> (forall x, x ∈ l1 -> x ∈ l) -> (forall x, x ∈ l2 -> x ∈ l) ->
  len l < len l1 + len l2 -> exists x, x ∈ l1 /\ x ∈ l2.
Proof.
  intros N1 N2 S1 S2 Hlt. destruct (decide (Exists (fun x => x ∈ l2) l1)) as [(x & H1 & H2)%Exists_exists|Hno]; [eauto|].
  exfalso. assert (NoDup (l1 ++ l2)) as Hnd.
  { apply NoDup_app. split; [done|]. split; [|done]. intros x Hx Hx'. apply Hno, Exists_exists. eauto. }
  assert (length (l1 ++ l2) <= length l)%nat as Hle.
  { apply submseteq_length, NoDup_submseteq; [done|]. intros x [?|?]%elem_of_app; auto. }
  rewrite length_app in Hle. unfold len in Hlt. lia.
Qed.

(** ** The newest answer *)
Lemma newestOf_spec cur rs :
  (forall c, cur = Some c -> resp_found c = true) ->
  match newestOf cur rs with
  | None => cur = None /\ Forall (fun r => resp_found r = false) rs
  | Some n => resp_found n = true /\ (cur = Some n \/ n ∈ rs) /\
      (forall c, cur = Some c -> ts_le (resp_ts c) (resp_ts n)) /\
      Forall (fun r => resp_found r = true -> ts_le (resp_ts r) (resp_ts n)) rs
  end.
Proof.
  revert cur; induction rs as [|r rs IH]; intros cur Hc; cbn [newestOf].
  { destruct cur as [c|]; [|done]. split; [by apply Hc|]. split; [by left|]. split; [|constructor]. intros ? [= <-]. apply ts_le_refl. }
  destruct (resp_found r) eqn:Ef; cbn [negb].
  - set (cur' := match cur with None => Some r | Some c => _ end).
    assert (exists c', cur' = Some c' /\ resp_found c' = true /\ (c' = r \/ cur = Some c') /\ ts_le (resp_ts r) (resp_ts c') /\
              forall c, cur = Some c -> ts_le (resp_ts c) (resp_ts c')) as (c' & E' & Hf & Hor & Hr & Hcur).
    { subst cur'. destruct cur as [c|]; [|exists r; split_and!; auto with lww; done].
      destruct (Less (resp_ts c) (resp_ts r)) eqn:El.
      - exists r. split_and!; auto with lww. intros ? [= <-]. auto with lww.
      - exists c. split_and!; auto. intros ? [= <-]. auto with lww. }
    specialize (IH cur'). rewrite E' in IH |- *. specialize (IH ltac:(by intros ? [= <-])).
    destruct (newestOf (Some c') rs) as [n|]; [|by destruct IH]. destruct IH as (H1 & H2 & H3 & H4).
    split; [done|]. split.
    { destruct H2 as [[= <-]|H2]; [|right; by right]. destruct Hor as [-> |?]; [right; left|by left]. }
    split; [intros c Ec; eapply ts_le_trans; [by apply Hcur|by apply H3]|]. constructor; [|done]. intros _. eapply ts_le_trans; [done|by apply H3].
  - specialize (IH cur Hc). destruct (newestOf cur rs) as [n|].
    + destruct IH as (H1 & H2 & H3 & H4). split; [done|]. split; [destruct H2; [by left|right; by right]|]. split; [done|].
      constructor; [|done]. congruence.
    + destruct IH as [-> Hf]. split; [done|]. by constructor.
Qed.

Lemma collectReads_spec R maxF got f arr got' f' late :
  collectReads R maxF got f arr = Some (got', f', late) ->
  exists pre, arr = pre ++ late /\ got' = got ++ filter (fun r => is_Some (rd_resp r)) pre /\
    f' = f + len (filter (fun r => ~ is_Some (rd_resp r)) pre) /\ (R <= len got' \/ maxF <= f').
Proof.
  revert got f; induction arr as [|r arr IH]; intros got f; cbn [collectReads].
  - destruct (Z.ltb_spec (len got) R), (Z.ltb_spec f maxF); cbn [andb]; [done|..]; intros [= <- <- <-]; exists []; cbn;
      (split; [done|]); (split; [by rewrite app_nil_r|]); (split; [symmetry; apply Z.add_0_r|lia]).
  - destruct ((len got <? R) && (f <? maxF)) eqn:E.
    + destruct (rd_resp r) as [p|] eqn:Er; intros Hc; apply IH in Hc as (pre & -> & -> & -> & Hd).
      * exists (r :: pre). split; [done|]. rewrite filter_cons_True by (rewrite Er; eauto). rewrite filter_cons_False by (rewrite Er; eauto).
        split; [by rewrite <-app_assoc|]. done.
      * exists (r :: pre). split; [done|]. rewrite filter_cons_False by (rewrite Er; by intros [? ?]).
        rewrite filter_cons_True by (rewrite Er; by intros [? ?]). split; [done|]. split; [rewrite len_cons; lia|]. done.
    + intros [= <- <- <-]. exists []. cbn. split; [done|]. split; [by rewrite app_nil_r|]. split; [symmetry; apply Z.add_0_r|].
      apply andb_false_iff in E as [?%Z.ltb_ge|?%Z.ltb_ge]; lia.
Qed.

Lemma omap_seq {A B} (f : A -> B) (l : list A) : omap (fun i => f <$> l !! i) (seq 0 (length l)) = f <$> l.
Proof.
  induction l as [|x l IH]; [done|]. cbn. f_equal. rewrite <-IH, <-seq_shift. apply list_omap_ext.
  generalize (seq 0 (length l)). intros ks. induction ks; cbn; by constructor.
Qed.

Section spec.
Context {S : Type} `{!KVStore S, !KVLaws S}.
Context (Sum64 : bytes -> Z) (cfg : CoordinatorConfig) (resolve : bytes -> bytes).
Abbreviation cluster := (gmap bytes (peer S)).
Implicit Types c : cluster.

(** The store of a node, and what it holds. *)
Definition db_at c (id : bytes) : option S := (fun p => r_db (p_rep p)) <$> c !! id.
Definition holds_at c (id key : bytes) (e : Envelope) : Prop := exists db, db_at c id = Some db /\ holds_env db key e.

Lemma holds_at_fun c id key e e' : holds_at c id key e -> holds_at c id key e' -> e = e'.
Proof. intros (db & E & H) (db' & E' & H'). rewrite E in E'. injection E' as <-. by eapply holds_env_fun. Qed.

Lemma db_at_insert c id p : db_at (<[id := p]> c) id = Some (r_db (p_rep p)).
Proof. unfold db_at. by rewrite lookup_insert_eq. Qed.
Lemma db_at_insert_ne c id id' p : id <> id' -> db_at (<[id := p]> c) id' = db_at c id'.
Proof. intros. unfold db_at. by rewrite lookup_insert_ne. Qed.

(** ** Single tasks *)
Definition env_of (w : wplan) : Envelope := env_norm (mkEnvelope (w_ts w) (w_deleted w) (w_value w)).
Definition plan_ok (w : wplan) : Prop :=
  EncodeEnvelope (mkEnvelope (w_ts w) (w_deleted w) (w_value w)) = Ok (w_encoded w) /\ ts_ok (w_ts w).

Lemma localPut_frame self key b c id : id <> self -> db_at (localPut self key b c).1 id = db_at c id.
Proof.
  intros Hne. unfold localPut. destruct (c !! self) as [p|]; [|done]. destruct (db_Put _ _ _); [|done]. by apply db_at_insert_ne.
Qed.

Lemma localPut_true self key b c c' e :
  localPut self key b c = (c', true) -> ts_ok (ETs e) -> EncodeEnvelope e = Ok b -> holds_at c' self key (env_norm e).
Proof.
  unfold localPut. intros H Ht E. destruct (c !! self) as [p|]; [|done]. destruct (db_Put _ _ _) as [db|] eqn:Ep; [|done].
  injection H as <-. exists db. split; [apply db_at_insert|]. by eapply put_holds.
Qed.

Lemma deliverWrite_frame pt addr req c id : id <> resolve addr -> db_at (deliverWrite resolve pt addr req c).1 id = db_at c id.
Proof.
  intros Hne. unfold deliverWrite. destruct (c !! resolve addr) as [p|]; [|done].
  destruct (ReplicateWrite pt req _) as [[r|] err]; cbn; [by apply db_at_insert_ne|done].
Qed.

Lemma remoteWrite_frame f addr key v ts d c id :
  id <> resolve addr -> db_at (remoteWrite resolve f addr key v ts d c).1 id = db_at c id.
Proof. intros Hne. destruct f; cbn; [done|by apply deliverWrite_frame..]. Qed.

Lemma remoteWrite_true f addr key v ts d c c' :
  remoteWrite resolve f addr key v ts d c = (c', true) -> ts_ok ts -> holds_at c' (resolve addr) key (env_norm (mkEnvelope ts d v)).
Proof.
  intros H Ht. destruct f as [|pt|pt]; cbn in H; [done..|]. unfold deliverWrite in H. destruct (c !! resolve addr) as [p|] eqn:Ec; [|done].
  destruct (ReplicateWrite pt _ _) as [s err] eqn:E. destruct err; [by destruct s|].
  apply ReplicateWrite_ok in E; [|by intros t [= <-]]. destruct E as (t & r' & -> & [= <-] & _ & Hh & _). injection H as <-.
  exists (r_db r'). split; [apply db_at_insert|done].
Qed.

Lemma voterTask_frame self w n f c id :
  resolve (Addr n) = HashRing.NodeID n -> id <> HashRing.NodeID n -> db_at (voterTask resolve self w n f c).1 id = db_at c id.
Proof.
  intros Hr Hne. unfold voterTask. destruct (c !! self) as [p|] eqn:Ec; [|done]. unfold bytes_Equal.
  case_bool_decide as Hs; [apply localPut_frame; congruence|]. destruct (IsRoutable _ _); [apply remoteWrite_frame; congruence|].
  destruct (p_hints p); [|done]. cbn. destruct (decide (id = self)) as [->|]; [|by apply db_at_insert_ne].
  rewrite db_at_insert. unfold db_at. by rewrite Ec.
Qed.

Lemma learnerTask_frame self w n f c id :
  resolve (Addr n) = HashRing.NodeID n -> id <> HashRing.NodeID n -> db_at (learnerTask resolve self w n f c) id = db_at c id.
Proof.
  intros Hr Hne. unfold learnerTask. destruct (c !! self) as [p|]; [|done]. destruct (negb _); [done|]. apply remoteWrite_frame. congruence.
Qed.

Lemma voterTask_true self w n f c c' :
  plan_ok w -> resolve (Addr n) = HashRing.NodeID n -> voterTask resolve self w n f c = (c', true) ->
  holds_at c' (HashRing.NodeID n) (w_key w) (env_of w).
Proof.
  intros [He Ht] Hr. unfold voterTask. destruct (c !! self) as [p|]; [|done]. unfold bytes_Equal. case_bool_decide as Hs.
  - rewrite Hs. intros H. by eapply localPut_true in H.
  - destruct (IsRoutable _ _); [|by destruct (p_hints p)]. intros H. rewrite <-Hr. by apply remoteWrite_true in H.
Qed.

(** ** The goroutines of a write *)
Definition w_nodes (w : wplan) : list Node := w_voters w ++ w_learners w.
Definition routes_ok (w : wplan) : Prop :=
  NoDup (map HashRing.NodeID (w_nodes w)) /\ Forall (fun n => resolve (Addr n) = HashRing.NodeID n) (w_nodes w).

Lemma w_nodes_lookup w i n :
  (w_voters w !! i = Some n \/ (w_voters w !! i = None /\ w_learners w !! (i - length (w_voters w))%nat = Some n)) ->
  w_nodes w !! i = Some n.
Proof.
  intros [H|[H1 H2]]; unfold w_nodes; [by apply lookup_app_l_Some|]. apply lookup_ge_None in H1. by rewrite lookup_app_r.
Qed.

Lemma w_nodes_inj w i j n n' :
  routes_ok w -> w_nodes w !! i = Some n -> w_nodes w !! j = Some n' -> i <> j -> HashRing.NodeID n <> HashRing.NodeID n'.
Proof.
  intros [Hnd _] Hi Hj Hne E. apply Hne. apply (NoDup_lookup _ i j (HashRing.NodeID n) Hnd); rewrite list_lookup_fmap.
  - by rewrite Hi. - by rewrite Hj, E.
Qed.

Lemma routes_resolve w i n : routes_ok w -> w_nodes w !! i = Some n -> resolve (Addr n) = HashRing.NodeID n.
Proof. intros [_ Hf] H. rewrite Forall_lookup in Hf. by apply (Hf i). Qed.

Lemma runTasks_frame self w sched c i n :
  routes_ok w -> w_nodes w !! i = Some n -> i ∉ map fst sched ->
  db_at (runTasks resolve self w sched c).1 (HashRing.NodeID n) = db_at c (HashRing.NodeID n).
Proof.
  intros Hr Hi. revert c; induction sched as [|[j f] sched IH]; intros c Hn; [done|].
  cbn [map fst] in Hn. apply not_elem_of_cons in Hn as [Hij Hn]. cbn [runTasks].
  destruct (w_voters w !! j) as [n'|] eqn:Ej.
  - assert (w_nodes w !! j = Some n') as Hj by (apply w_nodes_lookup; by left).
    pose proof (voterTask_frame self w n' f c (HashRing.NodeID n) (routes_resolve w j n' Hr Hj) (w_nodes_inj w i j n n' Hr Hi Hj Hij)) as Hfr.
    destruct (voterTask resolve self w n' f c) as [c1 ok]. specialize (IH c1 Hn). destruct (runTasks resolve self w sched c1). cbn in *. congruence.
  - destruct (w_learners w !! _) as [n'|] eqn:Ek; [|by apply IH].
    assert (w_nodes w !! j = Some n') as Hj by (apply w_nodes_lookup; by right).
    rewrite IH by done. apply learnerTask_frame; [by eapply routes_resolve|by eapply w_nodes_inj].
Qed.

(** Every acknowledged voter holds the envelope when the tasks have run. *)
Lemma runTasks_holds self w sched c c' acks i :
  plan_ok w -> routes_ok w -> NoDup (map fst sched) -> runTasks resolve self w sched c = (c', acks) ->
  (i, true) ∈ acks -> exists n, w_voters w !! i = Some n /\ holds_at c' (HashRing.NodeID n) (w_key w) (env_of w).
Proof.
  intros Hp Hr. revert c acks; induction sched as [|[j f] sched IH]; intros c acks Hnd E Hin.
  { injection E as <- <-. by apply elem_of_nil in Hin. }
  cbn [map fst] in Hnd. apply NoDup_cons in Hnd as [Hj Hnd]. cbn [runTasks] in E.
  destruct (w_voters w !! j) as [n|] eqn:Ej.
  - destruct (voterTask resolve self w n f c) as [c1 ok] eqn:Ev. destruct (runTasks resolve self w sched c1) as [c2 acks'] eqn:Et.
    injection E as -> <-. apply elem_of_cons in Hin as [[= -> <-]|Hin]; [|by eapply IH].
    exists n. split; [done|]. assert (w_nodes w !! j = Some n) as Hjn by (apply w_nodes_lookup; by left).
    destruct (voterTask_true self w n f c c1 Hp (routes_resolve w j n Hr Hjn) Ev) as (db & Edb & Hh). exists db. split; [|done].
    rewrite <-Edb. pose proof (runTasks_frame self w sched c1 j n Hr Hjn Hj) as Hfr. by rewrite Et in Hfr.
  - destruct (w_learners w !! _); by eapply IH.
Qed.

Lemma runTasks_ids self w sched c : map fst (runTasks resolve self w sched c).2 `sublist_of` map fst sched.
Proof.
  revert c; induction sched as [|[j f] sched IH]; intros c; cbn [runTasks]; [done|].
  destruct (w_voters w !! j).
  - destruct (voterTask _ _ _ _ _ _) as [c1 ok]. specialize (IH c1). destruct (runTasks _ _ _ _ _). cbn in *. by constructor.
  - destruct (w_learners w !! _); cbn; by constructor.
Qed.

(** The nodes whose acknowledgements were received without error. *)
Definition acked (w : wplan) (acks : list (nat * bool)) (arrival : list nat) : list Node :=
  omap (fun k => '(i, ok) ← acks !! k; if (ok : bool) then w_voters w !! i else None) arrival.

Lemma acked_len w acks arrival :
  (forall i, (i, true) ∈ acks -> is_Some (w_voters w !! i)) ->
  len (acked w acks arrival) = oks (omap (fun k => snd <$> acks !! k) arrival).
Proof.
  intros Hv. induction arrival as [|k arrival IH]; [done|]. unfold acked. cbn [omap list_omap]. destruct (acks !! k) as [[i []]|] eqn:E; cbn.
  - destruct (Hv i) as [n En]; [by eapply list_elem_of_lookup_2|]. rewrite En. change (len (n :: acked w acks arrival) = 1 + oks (omap (fun k => snd <$> acks !! k) arrival)).
    rewrite len_cons. lia.
  - exact IH.
  - exact IH.
Qed.

Lemma elem_acked w acks arrival n :
  n ∈ acked w acks arrival -> exists k i, k ∈ arrival /\ acks !! k = Some (i, true) /\ w_voters w !! i = Some n.
Proof.
  intros (k & Hk & E)%list_elem_of_omap. destruct (acks !! k) as [[i []]|] eqn:Ek; cbn in E; try done. eauto.
Qed.

Lemma acked_nodup w acks arrival :
  routes_ok w -> NoDup (map fst acks) -> NoDup arrival -> NoDup (map HashRing.NodeID (acked w acks arrival)).
Proof.
  intros Hr Ha. induction arrival as [|k arrival IH]; intros Hnd; [constructor|]. apply NoDup_cons in Hnd as [Hk Hnd].
  unfold acked. cbn [omap list_omap]. fold (acked w acks arrival). destruct (acks !! k) as [[i []]|] eqn:E; cbn; [|by apply IH..].
  destruct (w_voters w !! i) as [n|] eqn:En; [|by apply IH]. cbn. apply NoDup_cons. split; [|by apply IH].
  intros (n' & En' & (k' & i' & Hk' & E' & Ei')%elem_acked)%list_elem_of_fmap.
  assert (i <> i') as Hii.
  { intros <-. assert (k = k') as <-; [|done]. apply (NoDup_lookup _ k k' i Ha); rewrite list_lookup_fmap; [by rewrite E|by rewrite E']. }
  refine (w_nodes_inj w i i' n n' Hr _ _ Hii En'); apply w_nodes_lookup; by left.
Qed.

(** Rings whose nodes are reachable at their addresses, and clocks of machine width. *)
Definition cluster_ok c : Prop :=
  forall id p, c !! id = Some p ->
    ring_ok Sum64 (p_ring p) /\ (forall nid n, nodes (p_ring p) !! nid = Some n -> resolve (Addr n) = HashRing.NodeID n) /\
    ts_ok (last (r_clock (p_rep p))).

Lemma Now_ts_ok clock pt : ts_ok (last clock) -> -2^63 <= pt < 2^63 -> ts_ok (Now clock pt).2.
Proof.
  intros [Hw Hl] Hpt. unfold Now. cbn [snd]. destruct (_ <? _); split; cbn [WallTime Logical]; [done|lia|done|apply u32_range].
Qed.

Lemma GetNodes_resolve r key n ns :
  ring_ok Sum64 r -> (forall nid x, nodes r !! nid = Some x -> resolve (Addr x) = HashRing.NodeID x) ->
  GetNodes Sum64 r key n = Some ns -> Forall (fun x => resolve (Addr x) = HashRing.NodeID x) ns.
Proof.
  intros Hr Hres E. destruct (decide (ns = [])) as [->|Hne]; [constructor|].
  assert (vnodes r <> [] /\ 0 < n) as [Hv Hn].
  { unfold GetNodes in E. case_decide; [congruence|]. destruct (Z.leb_spec n 0); [congruence|done]. }
  destruct (GetNodes_spec Sum64 r key n Hr) as (ns' & E' & _ & _ & _ & Hf & _); [|done|].
  - intros E0. clear E.
    destruct (vnodes r) as [|v vs] eqn:Ev; [done|].
    assert (is_Some (nodes r !! nodeID v)) as [x Hx]; [|rewrite E0 in Hx; by rewrite lookup_empty in Hx].
    apply (elem_owners Sum64 r 0 (nodeID v) Hr). rewrite Ev. apply elem_firsts. split; [|set_solver].
    apply list_elem_of_fmap. exists v. split; [done|]. apply elem_clockwise. left.
  - rewrite E in E'. injection E' as <-. eapply Forall_impl; [exact Hf|]. cbn. intros x Hx. by eapply Hres.
Qed.

Lemma filter_split_perm {A} (P : A -> Prop) `{!forall x, Decision (P x)} (l : list A) : filter (fun x => ~ P x) l ++ filter P l ≡ₚ l.
Proof.
  induction l as [|x l IH]; [done|]. destruct (decide (P x)).
  - rewrite filter_cons_False, filter_cons_True by tauto. by rewrite <-Permutation_middle, IH.
  - rewrite filter_cons_True, (filter_cons_False P) by tauto. cbn. by rewrite IH.
Qed.

Lemma writeBegin_ok self pt key value deleted c c0 w :
  cluster_ok c -> -2^63 <= pt < 2^63 -> writeBegin Sum64 cfg self pt key value deleted c = (c0, Ok w) ->
  plan_ok w /\ routes_ok w /\ w_key w = key /\ w_value w = value /\ w_deleted w = deleted /\ WriteQuorum cfg <= len (w_voters w) /\
  exists p rs, c !! self = Some p /\ GetNodes Sum64 (p_ring p) key (ReplicationFactor cfg) = Some rs /\
    w_voters w = filter (fun r => RingStateOf (p_mem p) (HashRing.NodeID r) <> RingJoining) rs /\
    w_learners w = filter (fun r => RingStateOf (p_mem p) (HashRing.NodeID r) = RingJoining) rs.
Proof.
  intros Hc Hpt. unfold writeBegin. destruct (_ =? 0); [done|]. destruct (c !! self) as [p|] eqn:Ep; [|done].
  destruct (Hc _ _ Ep) as (Hring & Hres & Hts). pose proof (Now_ts_ok _ pt Hts Hpt) as Hok. destruct (Now _ pt) as [clock ts]. cbn in Hok.
  destruct (GetNodes _ _ _ _) as [rs|] eqn:Eg; [|done]. cbn [splitReplicas]. destruct (Z.ltb_spec (len (filter (fun r => RingStateOf (p_mem p) (HashRing.NodeID r) <> RingJoining) rs)) (WriteQuorum cfg)) as [|Hw]; [done|].
  destruct (EncodeEnvelope _) as [b| |] eqn:Ee; [|done..]. intros [= <- <-]. split; [by split|]. split; [|split_and!; [done..|exists p, rs; done]].
  pose proof (filter_split_perm (fun r => RingStateOf (p_mem p) (HashRing.NodeID r) = RingJoining) rs) as Hperm.
  split; unfold w_nodes; cbn [w_voters w_learners].
  - rewrite Hperm. by eapply GetNodes_nodup.
  - rewrite Hperm. by eapply GetNodes_resolve.
Qed.

Lemma writeInternal_stored self pt key value deleted sched arrival c c' :
  cluster_ok c -> -2^63 <= pt < 2^63 -> NoDup (map fst sched) -> NoDup arrival ->
  writeInternal Sum64 cfg resolve self pt key value deleted sched arrival c = (c', Some (Ok tt)) ->
  exists w ids, (writeBegin Sum64 cfg self pt key value deleted c).2 = Ok w /\ NoDup ids /\ WriteQuorum cfg <= len ids /\
    (forall id, id ∈ ids -> id ∈ map HashRing.NodeID (w_voters w)) /\ forall id, id ∈ ids -> holds_at c' id key (env_of w).
Proof.
  intros Hc Hpt Hs Ha. unfold writeInternal. destruct (writeBegin _ _ _ _ _ _ _ c) as [c0 [w| |]] eqn:Eb; [|done..].
  destruct (writeBegin_ok _ _ _ _ _ _ _ _ Hc Hpt Eb) as (Hp & Hr & <- & _). destruct (runTasks _ _ _ _ c0) as [c1 acks] eqn:Et.
  pose proof (runTasks_ids self w sched c0) as Hsub. rewrite Et in Hsub. cbn in Hsub.
  assert (NoDup (map fst acks)) as Hnd by exact (sublist_NoDup _ _ Hs Hsub).
  intros E. apply pair_equal_spec in E as [-> E]. apply fmap_Some in E as (ok & E & Eok). destruct ok; [|done].
  pose proof (collectAcks_spec (WriteQuorum cfg) (len (w_voters w) - WriteQuorum cfg + 1) 0 0 (omap (fun i => snd <$> acks !! i) arrival)) as Hcol.
  rewrite E in Hcol. exists w, (map HashRing.NodeID (acked w acks arrival)). split; [done|].
  split; [by apply acked_nodup|]. rewrite len_map, acked_len.
  2: { intros i Hi. destruct (runTasks_holds self w sched c0 c' acks i Hp Hr Hs Et Hi) as (n & Hn & _). eauto. }
  split; [lia|]. split.
  - intros id (n & -> & (k & i & _ & _ & Hi)%elem_acked)%list_elem_of_fmap. apply list_elem_of_fmap_2. by eapply list_elem_of_lookup_2.
  - intros id (n & -> & (k & i & Hk & Ek & Hi)%elem_acked)%list_elem_of_fmap.
    destruct (runTasks_holds self w sched c0 c' acks i Hp Hr Hs Et) as (n' & Hn' & Hh); [by eapply list_elem_of_lookup_2|]. congruence.
Qed.

(** ** Reads *)
Lemma readTask_spec reader key n f c p :
  resolve (Addr n) = HashRing.NodeID n -> key_ok key -> rd_resp (readTask resolve reader key n f c) = Some p ->
  (rsFound p = false /\ forall e, ~ holds_at c (HashRing.NodeID n) key e) \/
  exists e, holds_at c (HashRing.NodeID n) key e /\ p = mkResp (EVal e) (Some (ETs e)) true (EDeleted e).
Proof.
  intros Hr Hk. cbn [readTask rd_resp]. unfold bytes_Equal.
  assert (forall q, c !! HashRing.NodeID n = Some q -> readResponse (r_db (p_rep q)) key = Ok p ->
    (rsFound p = false /\ forall e, ~ holds_at c (HashRing.NodeID n) key e) \/
    exists e, holds_at c (HashRing.NodeID n) key e /\ p = mkResp (EVal e) (Some (ETs e)) true (EDeleted e)) as H.
  { intros q Eq E. pose proof (readResponse_spec (r_db (p_rep q)) key Hk) as Hs. rewrite E in Hs.
    assert (db_at c (HashRing.NodeID n) = Some (r_db (p_rep q))) as Edb by (unfold db_at; by rewrite Eq). destruct Hs as [[Hf Hno]|(e & He & ->)].
    - left. split; [done|]. intros e (db & Edb' & v & Hv & _). rewrite Edb in Edb'. injection Edb' as <-. congruence.
    - right. exists e. split; [|done]. by exists (r_db (p_rep q)). }
  case_bool_decide as Hs.
  - unfold localRead. rewrite Hs in *. destruct (c !! reader) as [q|] eqn:Eq; [|done]. cbn. destruct (readResponse _ _) eqn:E; intros [= <-]. by apply (H q).
  - unfold remoteRead. destruct f; [done..|]. rewrite Hr. destruct (c !! HashRing.NodeID n) as [q|] eqn:Eq; [|done]. cbn [mbind option_bind].
    unfold ReplicateRead. destruct (_ =? 0); [done|]. destruct (readResponse _ _) eqn:E; intros [= <-]. by apply (H q).
Qed.

(** A replica's answer: who, with what fate, in which state of the cluster. *)
Record answer := mkAnswer { a_node : Node; a_fate : fate; a_state : cluster }.
Definition answer_of (reader key : bytes) (a : answer) : replicaReadResult := readTask resolve reader key (a_node a) (a_fate a) (a_state a).

(** No replica has gone back: what it held, it holds or has replaced by something not older. *)
Definition not_older (c1 : cluster) (key : bytes) (c2 : cluster) : Prop :=
  forall id e, holds_at c1 id key e -> exists e', holds_at c2 id key e' /\ ts_le (ETs e) (ETs e').

Lemma not_older_refl c key : not_older c key c.
Proof. intros id e He. exists e. split; [done|apply ts_le_refl]. Qed.
Lemma not_older_trans c1 c2 c3 key : not_older c1 key c2 -> not_older c2 key c3 -> not_older c1 key c3.
Proof.
  intros H1 H2 id e He. destruct (H1 id e He) as (e2 & He2 & L2). destruct (H2 id e2 He2) as (e3 & He3 & L3).
  exists e3. split; [done|by eapply ts_le_trans].
Qed.

(** ** What happens between a write and a read *)
(** What the node [id] holds for [key] is not newer than [t]. *)
Definition holds_before c (id key : bytes) (t : Timestamp) : Prop := forall e, holds_at c id key e -> ts_le (ETs e) t.
(** The stores of a cluster change by puts of a coordinator on its own node, by
    [ReplicateWrite] and by [ReplicateWriteBatch] (hints, anti-entropy); everything
    else of it may change freely.  Nothing in the code keeps these from storing an
    envelope over a newer one; [later] are the histories in which, for [key], none
    does. *)
Inductive later (key : bytes) (c : cluster) : cluster -> Prop :=
| later_refl : later key c c
| later_put c' self k b :
    later key c c' -> (k = key -> exists e, EncodeEnvelope e = Ok b /\ ts_ok (ETs e) /\ holds_before c' self key (ETs e)) ->
    later key c (localPut self k b c').1
| later_write c' pt addr req :
    later key c c' -> (forall t, rqTimestamp req = Some t -> ts_ok t /\ (rqKey req = key -> holds_before c' (resolve addr) key t)) ->
    later key c (deliverWrite resolve pt addr req c').1
| later_batch c' pt id p entries :
    later key c c' -> c' !! id = Some p ->
    (forall req t, req ∈ entries -> rqTimestamp req = Some t -> ts_ok t /\ (rqKey req = key -> holds_before c' id key t)) ->
    later key c (<[id := set_rep p (default (p_rep p) (ReplicateWriteBatch pt entries (Some (p_rep p))).1)]> c')
| later_same c' c'' : later key c c' -> (forall id, db_at c'' id = db_at c' id) -> later key c c''.

(** One store changes: its entry for [key] stays or is replaced by one not older. *)
Lemma store_not_older c key id p p' :
  c !! id = Some p ->
  (contents (r_db (p_rep p')) !! key = contents (r_db (p_rep p)) !! key \/
   exists e, holds_env (r_db (p_rep p')) key e /\ holds_before c id key (ETs e)) ->
  not_older c key (<[id := p']> c).
Proof.
  intros Ep Hk id' e He. destruct (decide (id' = id)) as [->|Hne].
  2: { exists e. split; [|apply ts_le_refl]. destruct He as (db & E & He). exists db. by rewrite db_at_insert_ne. }
  destruct Hk as [Hk|(e' & He' & Hb)].
  - exists e. split; [|apply ts_le_refl]. destruct He as (db & E & v & Ev & Ed). unfold db_at in E. rewrite Ep in E. injection E as <-.
    exists (r_db (p_rep p')). split; [apply db_at_insert|]. exists v. by rewrite Hk.
  - exists e'. split; [|by apply Hb]. exists (r_db (p_rep p')). split; [apply db_at_insert|done].
Qed.

Lemma put_all_cases (kvs : list (bytes * bytes)) (m : gmap bytes Value) (u : bytes) :
  put_all kvs m !! u = m !! u \/ exists v, (u, v) ∈ kvs /\ put_all kvs m !! u = Some (NewValue (Some v)).
Proof.
  induction kvs as [|[k v] kvs IH] using rev_ind; [by left|]. unfold put_all in *. rewrite fold_left_app. cbn.
  destruct (decide (u = k)) as [->|Hne].
  - right. exists v. rewrite lookup_insert_eq. split; [apply elem_of_app; right; left|done].
  - rewrite lookup_insert_ne by done. destruct IH as [IH|(v' & Hin & E)]; [by left|right; exists v'].
    split; [apply elem_of_app; by left|done].
Qed.
Lemma encodeEntries_elem entries kvs (u v : bytes) :
  encodeEntries entries = Ok kvs -> (u, v) ∈ kvs ->
  exists req t, req ∈ entries /\ rqKey req = u /\ rqTimestamp req = Some t /\ EncodeEnvelope (mkEnvelope t (rqDeleted req) (rqValue req)) = Ok v.
Proof.
  revert kvs; induction entries as [|req entries IH]; intros kvs; cbn [encodeEntries]; [by intros [= <-] []%not_elem_of_nil|].
  destruct (rqTimestamp req) as [t|] eqn:Et; [|done]. rewrite protoToHLC_id. destruct (EncodeEnvelope _) as [b| |] eqn:Ee; [|done..].
  destruct (encodeEntries entries) as [rest| |]; [|done..]. intros [= <-]. intros [[= -> ->]|Hin]%elem_of_cons.
  - exists req, t. split; [left|done].
  - destruct (IH rest eq_refl Hin) as (r & t' & Hr & ?). exists r, t'. split; [by right|done].
Qed.

Lemma later_not_older key c c' : later key c c' -> not_older c key c'.
Proof.
  induction 1 as [|c' self k b _ IH Hb|c' pt addr req _ IH Hb|c' pt id p entries _ IH Ep Hb|c' c'' _ IH Hs]; [apply not_older_refl|..].
  - eapply not_older_trans; [exact IH|]. unfold localPut. destruct (c' !! self) as [p|] eqn:Ep; [|apply not_older_refl].
    destruct (db_Put _ _ _) as [db|] eqn:Ed; [|apply not_older_refl]. eapply store_not_older; [exact Ep|]. cbn.
    destruct (decide (k = key)) as [->|Hne]; [right|left; rewrite (law_put _ _ _ _ Ed); by rewrite lookup_insert_ne].
    destruct (Hb eq_refl) as (e & Ee & Ht & Hh). exists (env_norm e). split; [by apply (put_holds (r_db (p_rep p)) db key e b)|exact Hh].
  - eapply not_older_trans; [exact IH|]. unfold deliverWrite. destruct (c' !! resolve addr) as [p|] eqn:Ep; [|apply not_older_refl].
    destruct (ReplicateWrite pt req (Some (p_rep p))) as [s err] eqn:Er.
    assert (forall t, rqTimestamp req = Some t -> ts_ok t) as Ht by (intros t Et; by apply Hb).
    destruct (ReplicateWrite_frame pt req (p_rep p) Ht) as (r' & E1 & E2). rewrite Er in E1, E2. cbn in E1, E2. subst s. cbn [fst].
    eapply store_not_older; [exact Ep|]. cbn. destruct E2 as [-> | ->]; [by left|].
    apply ReplicateWrite_ok in Er as (t & r2 & Er2 & Et & _ & Hh & Hf); [|done]. injection Er2 as <-. destruct (decide (rqKey req = key)) as [<-|Hne]; [right|left; by apply Hf].
    eexists. split; [exact Hh|]. by apply (Hb t Et).
  - eapply not_older_trans; [exact IH|]. eapply store_not_older; [exact Ep|]. cbn [set_rep p_rep]. unfold ReplicateWriteBatch.
    destruct (maxTimestamp _ _) as [mx| |]; cbn [fst default]; [|by left..]. destruct (Update _ _ _) as [clock [e|]]; cbn [fst default]; [by left|].
    destruct (encodeEntries entries) as [kvs| |] eqn:Ee; cbn [fst default]; [|by left..]. destruct (db_Batch _ _) as [db|] eqn:Ed; cbn [fst default r_db]; [|by left].
    rewrite (law_batch _ _ _ Ed). destruct (put_all_cases kvs (contents (r_db (p_rep p))) key) as [E|(v & Hin & E)]; [by left|right].
    destruct (encodeEntries_elem _ _ _ _ Ee Hin) as (req & t & Hreq & Hk & Et & Hv). destruct (Hb req t Hreq Et) as [Ht Hh].
    exists (env_norm (mkEnvelope t (rqDeleted req) (rqValue req))). split; [|by apply Hh]. apply EncodeEnvelope_inv in Hv as [-> Hn].
    eexists. rewrite (law_batch _ _ _ Ed), E. split; [done|]. apply Decode_env_bytes. by split.
  - intros id e He. destruct (IH id e He) as (e' & (db & E & He') & L). exists e'. split; [|done]. exists db. by rewrite Hs.
Qed.

Lemma resp_ts_env e : protoToHLC (Some (ETs e)) = ETs e.
Proof. unfold protoToHLC. cbn. by rewrite protoToHLC_id. Qed.

(** The newest answer of a quorum is not older than an envelope that one of the
    answering replicas holds. *)
Lemma readFinish_newest reader key ns obs res more a e :
  key_ok key -> Forall (fun n => resolve (Addr n) = HashRing.NodeID n) (a_node <$> obs) ->
  readFinish cfg ns (answer_of reader key <$> obs) = Some (Ok (res, more)) ->
  (forall got f late, collectReads (ReadQuorum cfg) (len ns - ReadQuorum cfg + 1) [] 0 (answer_of reader key <$> obs) = Some (got, f, late) ->
     a ∈ obs /\ answer_of reader key a ∈ got) ->
  holds_at (a_state a) (HashRing.NodeID (a_node a)) key e ->
  exists newest got late b e', more = Some (newest, got, late) /\ b ∈ obs /\ newest = answer_of reader key b /\
    holds_at (a_state b) (HashRing.NodeID (a_node b)) key e' /\ ts_le (ETs e) (ETs e') /\ resp_ts newest = ETs e' /\
    res = mkResult (EVal e') true (EDeleted e').
Proof.
  intros Hk Hres E Hin He. rewrite Forall_fmap, Forall_forall in Hres. unfold readFinish in E.
  destruct (collectReads _ _ _ _ _) as [[[got f] late]|] eqn:Ec; [|done]. destruct (Hin _ _ _ eq_refl) as [Ha Hg]. cbn [mbind option_bind] in E.
  destruct (_ <? _); [done|]. apply collectReads_spec in Ec as (pre & Epre & Egot & _). cbn in Egot.
  assert (forall r, r ∈ got -> exists b, b ∈ obs /\ r = answer_of reader key b /\ is_Some (rd_resp r)) as Hgot.
  { intros r Hr. rewrite Egot in Hr. apply list_elem_of_filter in Hr as [Hs Hr].
    assert (r ∈ answer_of reader key <$> obs) as (b & -> & Hb)%list_elem_of_fmap by (rewrite Epre; apply elem_of_app; by left). eauto. }
  pose proof (newestOf_spec None got ltac:(done)) as Hn.
  destruct (Hgot _ Hg) as (_ & _ & _ & [p Hp]).
  destruct (readTask_spec reader key _ _ _ _ (Hres a Ha) Hk Hp) as [[_ Hno]|(e0 & He0 & Ep)]; [by apply Hno in He|].
  assert (e0 = e) as -> by (by eapply holds_at_fun).
  assert (resp_found (answer_of reader key a) = true /\ resp_ts (answer_of reader key a) = ETs e) as [Hfa Hta].
  { unfold resp_found, resp_ts. rewrite Hp, Ep. cbn [rsFound rsTimestamp]. by rewrite resp_ts_env. }
  destruct (newestOf None got) as [newest|].
  2: { destruct Hn as [_ Hn]. rewrite Forall_forall in Hn. specialize (Hn _ Hg). congruence. }
  destruct Hn as (Hf & [?|Hng] & _ & Hmax); [done|]. rewrite Forall_forall in Hmax. specialize (Hmax _ Hg Hfa). rewrite Hta in Hmax.
  destruct (Hgot _ Hng) as (b & Hb & -> & [q Hq]). unfold resp_found in Hf. rewrite Hq in Hf.
  destruct (readTask_spec reader key _ _ _ _ (Hres b Hb) Hk Hq) as [[? _]|(e' & He' & Eq)]; [congruence|].
  assert (resp_ts (answer_of reader key b) = ETs e') as Htb by (unfold resp_ts; rewrite Hq, Eq; cbn [rsTimestamp]; by rewrite resp_ts_env).
  assert (resultOf (Some (answer_of reader key b)) = mkResult (EVal e') true (EDeleted e')) as Hout by (unfold resultOf; by rewrite Hq, Eq).
  injection E as <- <-. do 3 eexists. exists b, e'. split; [done|]. split; [done|]. split; [done|]. split; [done|].
  split; [by rewrite Htb in Hmax|]. split; [done|]. exact Hout.
Qed.

(** The answers a coordinator counts, [obs] in their order of arrival: distinct
    readable replicas, at their addresses, in states later than the write. *)
Record answers_ok (c1 : cluster) (key : bytes) (ns : list Node) (obs : list answer) : Prop := {
  ans_distinct : NoDup (HashRing.NodeID ∘ a_node <$> obs);
  ans_nodes : Forall (fun a => a_node a ∈ ns /\ resolve (Addr (a_node a)) = HashRing.NodeID (a_node a)) obs;
  ans_states : Forall (fun a => later key c1 (a_state a)) obs
}.

Lemma readFinish_quorum reader key ns obs res more got f late :
  NoDup (HashRing.NodeID ∘ a_node <$> obs) -> readFinish cfg ns (answer_of reader key <$> obs) = Some (Ok (res, more)) ->
  collectReads (ReadQuorum cfg) (len ns - ReadQuorum cfg + 1) [] 0 (answer_of reader key <$> obs) = Some (got, f, late) ->
  NoDup (map rd_node got) /\ ReadQuorum cfg <= len got /\ forall r, r ∈ got -> exists a, a ∈ obs /\ r = answer_of reader key a.
Proof.
  intros Hnd E Ec. unfold readFinish in E. rewrite Ec in E. cbn [mbind option_bind] in E.
  destruct (Z.ltb_spec (len got) (ReadQuorum cfg)) as [|Hq]; [done|]. apply collectReads_spec in Ec as (pre & Epre & Egot & _). cbn in Egot.
  assert (got `sublist_of` answer_of reader key <$> obs) as Hsub.
  { rewrite Egot, Epre. etrans; [apply sublist_filter|by apply sublist_inserts_r]. }
  split; [|split; [done|]].
  - apply (sublist_NoDup _ (rd_node <$> (answer_of reader key <$> obs))); [|by apply fmap_sublist]. by rewrite <-list_fmap_compose.
  - intros r Hr. apply (elem_of_submseteq _ (answer_of reader key <$> obs)) in Hr; [|by apply sublist_submseteq].
    apply list_elem_of_fmap in Hr as (a & -> & Ha). eauto.
Qed.

(** C2: Quorum reads see acknowledged writes.  A write was acknowledged
    by W voters, with any order of its goroutines and any losses; a reader whose
    ring gives the same replicas gets R answers from distinct readable replicas;
    R + W exceeds the number of replicas; and since the acknowledgement no store
    put, single or batched, has replaced an envelope of the key by an older one
    ([later]).  Then the read finds a value not older than the write, and the
    written value itself if it carries the timestamp of the write, timestamps being
    unique.  The last condition is not kept by the code, which compares no
    timestamps when it stores: see [acked_write_lost]. *)
Theorem quorum_read_sees_write self pt key value deleted sched arrival c c1 w reader c2 rs ns obs res more :
  cluster_ok c -> -2^63 <= pt < 2^63 -> NoDup (map fst sched) -> NoDup arrival -> key_ok key ->
  (writeBegin Sum64 cfg self pt key value deleted c).2 = Ok w ->
  writeInternal Sum64 cfg resolve self pt key value deleted sched arrival c = (c1, Some (Ok tt)) ->
  (forall p, c !! self = Some p -> GetNodes Sum64 (p_ring p) key (ReplicationFactor cfg) = Some rs) ->
  (forall p, c2 !! reader = Some p -> GetNodes Sum64 (p_ring p) key (ReplicationFactor cfg) = Some rs) ->
  len rs < ReadQuorum cfg + WriteQuorum cfg ->
  readBegin Sum64 cfg reader key c2 = Ok ns -> answers_ok c1 key ns obs ->
  readFinish cfg ns (answer_of reader key <$> obs) = Some (Ok (res, more)) ->
  exists newest got late, more = Some (newest, got, late) /\ res_found res = true /\ ts_le (w_ts w) (resp_ts newest) /\
    ((forall a id e, a ∈ obs -> holds_at (a_state a) id key e -> ETs e = w_ts w -> e = env_of w) ->
     resp_ts newest = w_ts w -> res = mkResult (EVal (env_of w)) true deleted).
Proof.
  intros Hc Hpt Hs Ha Hk Eb Ew Hrs1 Hrs2 Hq Er [Hd Hn Hst] Ef. rewrite Forall_forall in Hn, Hst.
  assert (forall a, a ∈ obs -> not_older c1 key (a_state a)) as Hst' by (intros a Hin; by apply later_not_older, Hst). clear Hst. rename Hst' into Hst.
  destruct (writeInternal_stored _ _ _ _ _ _ _ _ _ Hc Hpt Hs Ha Ew) as (w' & ids & Eb' & Hnd & HW & Hvot & Hholds).
  rewrite Eb in Eb'. injection Eb' as <-. destruct (writeBegin Sum64 cfg self pt key value deleted c) as [c0 ?] eqn:Eb0. cbn in Eb. subst.
  destruct (writeBegin_ok _ _ _ _ _ _ _ _ Hc Hpt Eb0) as (_ & _ & _ & _ & Hdel & _ & p & rs0 & Ep & Hg & Hv & _).
  rewrite (Hrs1 _ Ep) in Hg. injection Hg as <-.
  assert (forall n, n ∈ ns -> n ∈ rs) as Hns.
  { unfold readBegin in Er. destruct (_ =? 0); [done|]. destruct (c2 !! reader) as [p2|] eqn:Ep2; [|done]. rewrite (Hrs2 p2 eq_refl) in Er.
    destruct (_ <? _); [done|]. injection Er as <-. intros n Hin. apply list_elem_of_filter in Hin. tauto. }
  destruct (collectReads (ReadQuorum cfg) (len ns - ReadQuorum cfg + 1) [] 0 (answer_of reader key <$> obs)) as [[[got f] late]|] eqn:Ec.
  2: { unfold readFinish in Ef. by rewrite Ec in Ef. }
  destruct (readFinish_quorum _ _ _ _ _ _ _ _ _ Hd Ef Ec) as (Hgnd & HR & Hgot).
  destruct (quorum_meet (map HashRing.NodeID rs) ids (map rd_node got)) as (x & Hx1 & Hx2).
  - done.
  - done.
  - intros x Hx. apply Hvot in Hx. rewrite Hv in Hx. apply list_elem_of_fmap in Hx as (n & -> & [_ Hin]%list_elem_of_filter). by apply list_elem_of_fmap_2.
  - intros x (r & -> & (a & Hao & ->)%Hgot)%list_elem_of_fmap. change (HashRing.NodeID (a_node a) ∈ HashRing.NodeID <$> rs). apply list_elem_of_fmap_2, Hns, (Hn a Hao).
  - rewrite !len_map. lia.
  - apply list_elem_of_fmap in Hx2 as (r & -> & Hr). destruct (Hgot r Hr) as (a & Hao & ->).
    destruct (Hst a Hao _ _ (Hholds _ Hx1)) as (e & He & Hle).
    destruct (readFinish_newest reader key ns obs res more a e) as (newest & got' & late' & b & e' & -> & Hb & -> & He' & Hle' & Ht & ->); [done| |done| |done|].
    { apply Forall_fmap, Forall_forall. intros x Hx. by apply Hn. }
    { intros got0 f0 late0 E0. rewrite Ec in E0. injection E0 as <- <- <-. done. }
    do 3 eexists. split; [done|]. split; [done|]. rewrite Ht. split; [by eapply ts_le_trans|].
    intros Huniq Ets. rewrite (Huniq b _ e' Hb He' Ets). cbn. by rewrite Hdel.
Qed.

Lemma writeBegin_voters self pt key value deleted c c0 w :
  writeBegin Sum64 cfg self pt key value deleted c = (c0, Ok w) -> WriteQuorum cfg <= len (w_voters w).
Proof.
  unfold writeBegin. destruct (_ =? 0); [done|]. destruct (c !! self) as [p|]; [|done]. destruct (Now _ _).
  destruct (GetNodes _ _ _ _); [|done]. cbn [splitReplicas].
  match goal with |- context [len ?v <? ?W] => destruct (Z.ltb_spec (len v) W); [done|] end.
  destruct (EncodeEnvelope _); [|done..]. by intros [= <- <-].
Qed.

(** C24: The coordinator of a write always gets its answer.  When every
    voter's goroutine has run and its acknowledgement was received, in whatever
    order, the write has returned: with success if at least W acknowledgements
    have no error, and with failure if fewer than W have none. *)
Theorem write_returns self pt key value deleted sched arrival c c0 w :
  writeBegin Sum64 cfg self pt key value deleted c = (c0, Ok w) ->
  let acks := (runTasks resolve self w sched c0).2 in
  arrival ≡ₚ seq 0 (length acks) -> length acks = length (w_voters w) ->
  let good := oks (snd <$> acks) in
  (writeInternal Sum64 cfg resolve self pt key value deleted sched arrival c).2 =
    Some (if WriteQuorum cfg <=? good then Ok tt else Err ErrWriteQuorumNotMet).
Proof.
  intros Eb acks Harr Hlen good. unfold writeInternal. rewrite Eb. subst acks. destruct (runTasks resolve self w sched c0) as [c1 acks] eqn:Et. cbn in *.
  assert (omap (fun i => snd <$> acks !! i) arrival ≡ₚ snd <$> acks) as Hperm by (rewrite Harr; by rewrite omap_seq).
  assert (forall l l', l ≡ₚ l' -> oks l = oks l') as Hoks by (induction 1; cbn; lia).
  pose proof (collectAcks_spec (WriteQuorum cfg) (len (w_voters w) - WriteQuorum cfg + 1) 0 0 (omap (fun i => snd <$> acks !! i) arrival)) as Hcol.
  unfold fails, len in Hcol. rewrite (Hoks _ _ Hperm), (Permutation_length Hperm) in Hcol.
  rewrite length_fmap in Hcol. fold good in Hcol. pose proof (oks_range (snd <$> acks)) as Hrange. fold good in Hrange.
  unfold len in Hrange |- *. rewrite length_fmap in Hrange.
  apply writeBegin_voters in Eb. unfold len in Eb.
  destruct (collectAcks _ _ _ _ _) as [[]|]; cbn; fold good; destruct (Z.leb_spec (WriteQuorum cfg) good); try done; lia.
Qed.

(** ** Repairs *)
Lemma collectLate_spec newest got late n all :
  resp_found newest = true -> newest ∈ got -> Forall (fun r => resp_found r = true -> ts_le (resp_ts r) (resp_ts newest)) got ->
  collectLate newest got late = (n, all) ->
  resp_found n = true /\ n ∈ all /\ Forall (fun r => resp_found r = true -> ts_le (resp_ts r) (resp_ts n)) all.
Proof.
  revert newest got; induction late as [|r late IH]; intros newest got Hf Hin Hmax; cbn [collectLate]; [by intros [= <- <-]|].
  destruct (rd_resp r); [|by apply IH]. unfold lateNewest. rewrite Hf. cbn [negb orb].
  destruct (resp_found r) eqn:Er; cbn [andb].
  - destruct (Less (resp_ts newest) (resp_ts r)) eqn:El; apply IH.
    + done.
    + apply elem_of_app. right. left.
    + apply Forall_app. split; [|repeat constructor; intros; apply ts_le_refl].
      eapply Forall_impl; [exact Hmax|]. cbn. intros x Hx ?. eapply ts_le_trans; [by apply Hx|by apply Less_ts_le].
    + done.
    + apply elem_of_app. by left.
    + apply Forall_app. split; [done|]. by repeat constructor.
  - apply IH; [done|apply elem_of_app; by left|]. apply Forall_app. split; [done|]. repeat constructor. congruence.
Qed.

Lemma elem_stale n all id addr :
  (id, addr) ∈ staleNodes n all <->
  exists r, r ∈ all /\ rd_node r = id /\ rd_addr r = addr /\ id <> rd_node n /\ (resp_found r = false \/ Less (resp_ts r) (resp_ts n) = true).
Proof.
  unfold staleNodes. rewrite list_elem_of_omap. split.
  - intros (r & Hr & E). unfold bytes_Equal in E. case_bool_decide as Hb; [done|].
    destruct (negb (resp_found r) || Less (resp_ts r) (resp_ts n)) eqn:Eo; [|done]. injection E as <- <-.
    exists r. split_and!; try done. apply orb_prop in Eo as [?%negb_true_iff|?]; auto.
  - intros (r & Hr & <- & <- & Hne & Ho). exists r. split; [done|]. unfold bytes_Equal. rewrite bool_decide_false by done.
    destruct Ho as [-> | ->]; [done|]. by rewrite orb_true_r.
Qed.

(** Read repair.  The repair starts from the newest of all answers,
    early and late; it writes to exactly the other nodes that answered with
    nothing or with something older, every remaining answer has the newest
    timestamp; and a repair that succeeds stores at its target the newest
    envelope with its original timestamp and deletion flag. *)
Theorem read_repair_targets self key newest got late n all :
  resp_found newest = true -> newest ∈ got -> Forall (fun r => resp_found r = true -> ts_le (resp_ts r) (resp_ts newest)) got ->
  collectLate newest got late = (n, all) ->
  (forall id addr, (id, addr) ∈ staleNodes n all <->
     exists r, r ∈ all /\ rd_node r = id /\ rd_addr r = addr /\ id <> rd_node n /\ (resp_found r = false \/ Less (resp_ts r) (resp_ts n) = true)) /\
  (forall r, r ∈ all -> rd_node r = rd_node n \/ (resp_found r = true /\ resp_ts r = resp_ts n) \/ (rd_node r, rd_addr r) ∈ staleNodes n all) /\
  (forall p id addr f c c', rd_resp n = Some p -> ts_ok (resp_ts n) -> resolve addr = id ->
     ApplyRepair resolve self id addr key (rsValue p) (resp_ts n) (rsDeleted p) f c = (c', true) ->
     holds_at c' id key (env_norm (mkEnvelope (resp_ts n) (rsDeleted p) (rsValue p)))).
Proof.
  intros Hf Hin Hmax E. destruct (collectLate_spec _ _ _ _ _ Hf Hin Hmax E) as (Hfn & Hn & Hall). rewrite Forall_forall in Hall.
  split; [intros; apply elem_stale|]. split.
  - intros r Hr. destruct (decide (rd_node r = rd_node n)); [by left|right]. destruct (resp_found r) eqn:Er.
    + destruct (proj1 (ts_le_cases _ _) (Hall r Hr Er)) as [Hl|He]; [|by left]. right. apply elem_stale. exists r. auto 6.
    + right. apply elem_stale. exists r. auto 6.
  - intros p id addr f c c' Hp Ht Hres Ha. unfold ApplyRepair, bytes_Equal in Ha. case_bool_decide as Hs.
    + destruct (EncodeEnvelope _) as [b| |] eqn:Ee; [|done..]. rewrite Hs. by eapply localPut_true in Ha.
    + rewrite <-Hres. by eapply remoteWrite_true in Ha.
Qed.
End spec.

(** ** A cluster of three nodes *)
Definition nA : bytes := [Byte.x61].
Definition nB : bytes := [Byte.x62].
Definition nC : bytes := [Byte.x63].
Definition demo_resolve (addr : bytes) : bytes := take 1 addr.
Definition demo_nodes : list Node := [demo_node Byte.x61; demo_node Byte.x62; demo_node Byte.x63].
Definition demo_hashring : Ring := ReplaceMembers demo_Sum64 (HashRing.New 2) demo_nodes.
Definition demo_membership (id : bytes) : Membership :=
  set_members (list_to_map (map (fun n => (HashRing.NodeID n, mkMember (HashRing.NodeID n) (Addr n) Alive RingActive 1)) demo_nodes))
    (NewMembership (DefaultClusterConfig id (id ++ id))).
Definition demo_peer (id : bytes) : peer (gmap bytes Value) :=
  mkPeer (mkReplica (NewClock id) ∅) (demo_membership id) demo_hashring None.
Definition demo_cluster : gmap bytes (peer (gmap bytes Value)) :=
  list_to_map (map (fun n => (HashRing.NodeID n, demo_peer (HashRing.NodeID n))) demo_nodes).
Definition demo_key : bytes := [Byte.x6b].
Abbreviation dcfg := DefaultCoordinatorConfig.


(** One write of [v] coordinated by A at time [pt], its goroutines run in order [sched]. *)
Definition demo_write (v : bytes) (pt : Z) (sched : list (nat * fate)) (c : gmap bytes (peer (gmap bytes Value))) :=
  writeInternal demo_Sum64 dcfg demo_resolve nA pt demo_key (Some v) false sched (seq 0 (length sched)) c.
Definition demo_plan (v : bytes) (pt : Z) (c : gmap bytes (peer (gmap bytes Value))) : wplan :=
  match (writeBegin demo_Sum64 dcfg nA pt demo_key (Some v) false c).2 with
  | Ok w => w
  | _ => mkPlan [] None false zeroTs [] [] []
  end.

Lemma demo_cluster_ok : cluster_ok demo_Sum64 demo_resolve demo_cluster.
Proof.
  assert (forall id p, demo_cluster !! id = Some p -> p = demo_peer id) as H.
  { intros id p E. unfold demo_cluster in E. apply elem_of_list_to_map_2, list_elem_of_fmap in E as (n & [= -> ->] & _). done. }
  intros id p E. apply H in E as ->. cbn [p_ring p_rep demo_peer r_clock]. split; [apply ReplaceMembers_ok, New_ok|]. split.
  - intros nid n. unfold demo_hashring. cbn [nodes ReplaceMembers demo_nodes fold_left]. intros E.
    repeat (apply lookup_insert_Some in E as [[_ <-]|[_ E]]; [done|]). by rewrite lookup_empty in E.
  - split; cbn; lia.
Qed.

Lemma write_returns_witness :
  let sched := [(2%nat, Lost); (0%nat, Lost); (1%nat, Delivered 10)] in
  (writeInternal demo_Sum64 dcfg demo_resolve nA 10 demo_key (Some nA) false sched [1; 2; 0]%nat demo_cluster).2 = Some (Ok tt).
Proof.
  refine (write_returns demo_Sum64 dcfg demo_resolve nA 10 demo_key (Some nA) false [(2%nat, Lost); (0%nat, Lost); (1%nat, Delivered 10)] [1; 2; 0]%nat
    demo_cluster (writeBegin demo_Sum64 dcfg nA 10 demo_key (Some nA) false demo_cluster).1 (demo_plan nA 10 demo_cluster) _ _ _).
  - apply injective_projections; [reflexivity|]. vm_compute. reflexivity.
  - apply (bool_decide_unpack _). vm_compute. exact I.
  - vm_compute. reflexivity.
Defined.

Definition demo_obs (c : gmap bytes (peer (gmap bytes Value))) : list (answer (S := gmap bytes Value)) :=
  [mkAnswer (demo_node Byte.x62) (Delivered 30) c; mkAnswer (demo_node Byte.x63) (Delivered 30) c].

(** What the nodes of a state answer to a look-up in their rings, without the states. *)
Lemma demo_replicas (c : gmap bytes (peer (gmap bytes Value))) id rs :
  (p ← c !! id; GetNodes demo_Sum64 (p_ring p) demo_key (ReplicationFactor dcfg)) = Some rs ->
  forall p, c !! id = Some p -> GetNodes demo_Sum64 (p_ring p) demo_key (ReplicationFactor dcfg) = Some rs.
Proof. intros H p E. rewrite E in H. exact H. Qed.

Lemma quorum_read_sees_write_witness :
  let c1 := (demo_write nA 10 [(0%nat, Lost); (2%nat, Lost); (1%nat, Delivered 10)] demo_cluster).1 in
  exists res more, readFinish dcfg [demo_node Byte.x61; demo_node Byte.x63; demo_node Byte.x62] (answer_of demo_resolve nB demo_key <$> demo_obs c1) = Some (Ok (res, more)) /\
    res_found res = true.
Proof.
  set (sched := [(0%nat, Lost); (2%nat, Lost); (1%nat, Delivered 10)]). intros c1.
  set (ns := [demo_node Byte.x61; demo_node Byte.x63; demo_node Byte.x62]).
  destruct (readFinish dcfg ns (answer_of demo_resolve nB demo_key <$> demo_obs c1)) as [[[res more]| |]|] eqn:E;
    [|vm_compute in E; discriminate E..].
  exists res, more. split; [reflexivity|].
  assert (writeInternal demo_Sum64 dcfg demo_resolve nA 10 demo_key (Some nA) false sched (seq 0 (length sched)) demo_cluster = (c1, Some (Ok tt))) as Ew.
  { apply injective_projections; [reflexivity|]. vm_compute. reflexivity. }
  assert ((p ← demo_cluster !! nA; GetNodes demo_Sum64 (p_ring p) demo_key (ReplicationFactor dcfg)) = Some ns) as R0 by (vm_compute; reflexivity).
  assert ((p ← c1 !! nB; GetNodes demo_Sum64 (p_ring p) demo_key (ReplicationFactor dcfg)) = Some ns) as R1 by (vm_compute; reflexivity).
  assert (readBegin demo_Sum64 dcfg nB demo_key c1 = Ok ns) as Eb by (vm_compute; reflexivity).
  assert ((writeBegin demo_Sum64 dcfg nA 10 demo_key (Some nA) false demo_cluster).2 = Ok (demo_plan nA 10 demo_cluster)) as Ep by (vm_compute; reflexivity).
  assert (answers_ok demo_resolve c1 demo_key ns (demo_obs c1)) as Ha.
  { clearbody c1. split; [by_decide|repeat constructor|]. repeat constructor. }
  destruct (quorum_read_sees_write demo_Sum64 dcfg demo_resolve nA 10 demo_key (Some nA) false sched (seq 0 (length sched)) demo_cluster c1
    (demo_plan nA 10 demo_cluster) nB c1 ns ns (demo_obs c1) res more demo_cluster_ok ltac:(lia) ltac:(by_decide) ltac:(by_decide) I
    Ep Ew (demo_replicas _ _ _ R0) (demo_replicas _ _ _ R1) ltac:(reflexivity) Eb Ha E) as (newest & got & late & _ & H & _).
  exact H.
Defined.

(** Replicas go back, and quorum reads miss acknowledged writes.
    [ReplicateWrite] stores what it receives without comparing timestamps.  A
    first write of A reaches A and B, its message to C is delayed; a second write
    is acknowledged by A and C; then the delayed message arrives at C.  A read
    that hears from B and C returns the first value, with W = R = 2 and N = 3. *)
Lemma acked_write_lost :
  let '(c1, r1) := demo_write nA 10 [(0%nat, Lost); (2%nat, Delivered 10)] demo_cluster in
  let '(c2, r2) := demo_write nB 20 [(0%nat, Lost); (1%nat, Delivered 20)] c1 in
  let c3 := (voterTask demo_resolve nA (demo_plan nA 10 demo_cluster) (demo_node Byte.x63) (Delivered 30) c2).1 in
  r1 = Some (Ok tt) /\ r2 = Some (Ok tt) /\
  Less (w_ts (demo_plan nA 10 demo_cluster)) (w_ts (demo_plan nB 20 c1)) = true /\
  exists more, Read demo_Sum64 dcfg nB demo_key (answer_of demo_resolve nB demo_key <$> demo_obs c3) c3 =
    Some (Ok (mkResult (Some nA) true false, more)).
Proof. vm_compute. split; [done|]. split; [done|]. split; [done|]. eexists. reflexivity. Qed.

Lemma read_repair_targets_witness :
  let c1 := (demo_write nA 10 [(0%nat, Lost); (1%nat, Delivered 10)] demo_cluster).1 in
  let r := answer_of demo_resolve nB demo_key in
  let a := r (mkAnswer (demo_node Byte.x61) (Delivered 30) c1) in let b := r (mkAnswer (demo_node Byte.x62) (Delivered 30) c1) in
  (nB, [Byte.x62; Byte.x62]) ∈ staleNodes a [a; b].
Proof.
  intros c1 r a b. destruct (read_repair_targets demo_resolve nB demo_key a [a] [b] a [a; b]) as [H _].
  - vm_compute. reflexivity.
  - left.
  - repeat constructor.
  - vm_compute. reflexivity.
  - apply H. exists b. split; [by_decide || (right; left)|]. vm_compute. split_and!; try reflexivity; [discriminate|by left].
Defined.
