(* ===== verification/MerkleTree.v ===== *)
(** * Merkle trees of anti-entropy (src/cluster/antientropy/tree.go, ranges.go)

    A tree of fixed fanout and depth over (key, timestamp, deleted) triples: each
    leaf is the XOR of the hashes of its entries, an internal node the hash of
    its children.  [Sum64] is xxhash, a third-party function. *)

From Stdlib Require Import ZArith Lia List.
From stdpp Require Import base list option gmap.
From S2P Require Import Prelude GoBytes HLC HashRing.
Open Scope Z_scope.

Record Entry := mkEntry { EKey : bytes; ETimestamp : Timestamp; EDel : bool }.
#[global] Instance Entry_eq_dec : EqDecision Entry.
Proof. solve_decision. Defined.
Record Tree := mkTree { fanout : Z; depth : Z; levels : list (list Z) }.

Inductive TreeErr := ErrInvalidTreeParams | ErrPath | ErrSource.

(** ** ranges.go *)
Definition OwnedPeers (ring : option Ring) (selfID : bytes) (n : Z) : option (list bytes) :=
  match ring with None => Some [] | Some r => CoReplicas r selfID n end.

(** The loop over the owners: the first case that matches wins. *)
Fixpoint sawBoth (owners : list Node) (selfID peerID : bytes) (sawSelf sawPeer : bool) : bool :=
  match owners with
  | [] => sawSelf && sawPeer
  | o :: owners =>
      if bytes_Equal (HashRing.NodeID o) selfID then sawBoth owners selfID peerID true sawPeer
      else if bytes_Equal (HashRing.NodeID o) peerID then sawBoth owners selfID peerID sawSelf true
      else sawBoth owners selfID peerID sawSelf sawPeer
  end.

Section tree.
Context (Sum64 : bytes -> Z).

Definition ShouldReconcile (ring : option Ring) (key selfID peerID : bytes) (n : Z) : option bool :=
  match ring with
  | None => Some false
  | Some r => owners ← GetNodes Sum64 r key n; Some (sawBoth owners selfID peerID false false)
  end.

(** ** tree.go *)
(** The levels from a level of [size] nodes down, [n] more below it. *)
Fixpoint newLevels (n : nat) (fanout size : Z) : outcome TreeErr (list (list Z)) :=
  match n with
  | O => Ok [replicate (Z.to_nat size) 0]
  | S n =>
      let next := i64 (size * fanout) in
      if negb (next ÷ fanout =? size) then Err ErrInvalidTreeParams else
      rest ← newLevels n fanout next; Ok (replicate (Z.to_nat size) 0 :: rest)
  end.
Definition NewTree (fanout depth : Z) : outcome TreeErr Tree :=
  if fanout <? 2 then Err ErrInvalidTreeParams else
  if (depth <? 1) || (8 <? depth) then Err ErrInvalidTreeParams else
  ls ← newLevels (Z.to_nat depth) fanout 1; Ok (mkTree fanout depth ls).

Definition Fanout (t : Tree) : Z := fanout t.
Definition Depth (t : Tree) : Z := depth t.
Definition level (t : Tree) (i : nat) : list Z := default [] (levels t !! i).
Definition leaves (t : Tree) : list Z := level t (Z.to_nat (depth t)).
Definition NumLeaves (t : Tree) : Z := len (leaves t).
Definition Root (t : Tree) : outcome TreeErr Z := index (level t 0) 0.
Definition LeafHash (t : Tree) (idx : Z) : outcome TreeErr Z := index (leaves t) idx.

Definition BucketFor (t : Tree) (key : bytes) : Z := Sum64 key mod NumLeaves t.

Fixpoint pathLoop (n : nat) (fanout idx : Z) (acc : list Z) : list Z :=
  match n with O => acc | S n => pathLoop n fanout (idx ÷ fanout) (Z.rem idx fanout :: acc) end.
Definition PathForBucket (t : Tree) (bucketIdx : Z) : list Z := pathLoop (Z.to_nat (depth t)) (fanout t) bucketIdx [].

(** The flat index of the node at a path. *)
Fixpoint pathIndex (fanout idx : Z) (path : list Z) : outcome TreeErr Z :=
  match path with
  | [] => Ok idx
  | p :: path => if (p <? 0) || (fanout <=? p) then Err ErrPath else pathIndex fanout (idx * fanout + p) path
  end.
Definition ChildrenAt (t : Tree) (path : list Z) : outcome TreeErr (list Z) :=
  if depth t + 1 <=? len path then Err ErrPath else
  if len path =? depth t then Err ErrPath else
  idx ← pathIndex (fanout t) 0 path;
  let start := idx * fanout t in
  slice (level t (S (length path))) start (start + fanout t).

(** A timestamp that cannot be encoded hashes as the empty string. *)
Definition entryHash (e : Entry) : Z :=
  let keyH := Sum64 (EKey e) in
  let tsBytes := match Encode (ETimestamp e) with Ok b => b | _ => [] end in
  let tsH := Sum64 tsBytes in
  let delByte := if EDel e then 1 else 0 in
  Z.lxor (Z.lxor keyH tsH) delByte.
Definition hashChildren (children : list Z) : Z := Sum64 (concat (map (put_be 8) children)).

Definition set_leaves (ls : list Z) (t : Tree) : Tree := mkTree (fanout t) (depth t) (<[Z.to_nat (depth t) := ls]> (levels t)).
Definition AccumulateEntry (t : Tree) (e : Entry) : Tree :=
  let b := Z.to_nat (BucketFor t (EKey e)) in
  set_leaves (alter (fun h => Z.lxor h (entryHash e)) b (leaves t)) t.

(** The level above [child], one node for each [fanout] children. *)
Fixpoint parents (n fanout : nat) (child : list Z) : list Z :=
  match n with O => [] | S n => hashChildren (take fanout child) :: parents n fanout (drop fanout child) end.
(** [finalizeLevels lvls] recomputes all levels above the last one, from the bottom up. *)
Fixpoint finalizeLevels (fanout : nat) (lvls : list (list Z)) : list (list Z) :=
  match lvls with
  | [] => []
  | [leaf] => [leaf]
  | l :: rest =>
      let rest := finalizeLevels fanout rest in
      parents (length l) fanout (default [] (head rest)) :: rest
  end.
Definition Finalize (t : Tree) : Tree := mkTree (fanout t) (depth t) (finalizeLevels (Z.to_nat (fanout t)) (levels t)).

(** The entries of the source, or the error it ends with. *)
Fixpoint accumulateAll (cutoff : Z) (t : Tree) (es : list Entry) : Tree :=
  match es with
  | [] => t
  | e :: es => accumulateAll cutoff (if cutoff <=? WallTime (ETimestamp e) then t else AccumulateEntry t e) es
  end.
Definition BuildTree {E} (src : outcome E (list Entry)) (graceCutoffWall fanout depth : Z) : outcome TreeErr Tree :=
  t ← NewTree fanout depth;
  match src with
  | Ok es => Ok (Finalize (accumulateAll graceCutoffWall t es))
  | _ => Err ErrSource
  end.
End tree.

(** ** Shape of a tree *)
Section shape.
Context (Sum64 : bytes -> Z).

Record tree_ok (t : Tree) : Prop := {
  tk_fanout : 2 <= fanout t;
  tk_depth : 1 <= depth t <= 8;
  tk_levels : len (levels t) = depth t + 1;
  tk_level : forall i, (i <= Z.to_nat (depth t))%nat -> len (level t i) = fanout t ^ Z.of_nat i
}.

Lemma i64_mul_check size f : 0 <= size -> 2 <= f < 2^63 -> i64 (size * f) ÷ f = size -> i64 (size * f) = size * f.
Proof.
  intros Hs Hf E. pose proof (i64_range (size * f)) as Hr. set (x := i64 (size * f)) in *.
  assert (exists k, x = size * f + k * 2^64) as [k Hk].
  { subst x. unfold i64. exists (- ((size * f + 2^63) / 2^64)). pose proof (Z.div_mod (size * f + 2^63) (2^64)). lia. }
  pose proof (Z.quot_rem' x f) as Hq. rewrite E in Hq. pose proof (Z.rem_bound_abs x f ltac:(lia)) as Hb. assert (k = 0); [|lia]. lia.
Qed.

Lemma newLevels_ok n f size ls :
  0 <= size -> 2 <= f < 2^63 -> newLevels n f size = Ok ls ->
  length ls = Datatypes.S n /\ forall i, (i <= n)%nat -> len (default [] (ls !! i)) = size * f ^ Z.of_nat i.
Proof.
  revert size ls; induction n as [|n IH]; intros size ls Hs Hf; cbn [newLevels].
  - intros [= <-]. split; [done|]. intros i Hi. destruct i; [|lia]. cbn. unfold len. rewrite length_replicate. lia.
  - destruct (Z.eqb_spec (i64 (size * f) ÷ f) size) as [E|]; [|done]. cbn [negb]. apply i64_mul_check in E; [|done..]. rewrite E.
    destruct (newLevels n f (size * f)) as [rest| |] eqn:Er; [|done..]. intros [= <-]. destruct (IH (size * f) rest ltac:(nia) Hf Er) as [H1 H2].
    split; [cbn; by rewrite H1|]. intros [|i] Hi; cbn.
    + unfold len. rewrite length_replicate. lia.
    + rewrite H2 by lia. rewrite Nat2Z.inj_succ, Z.pow_succ_r by lia. lia.
Qed.

Lemma NewTree_ok f d t : f < 2^63 -> NewTree f d = Ok t -> tree_ok t /\ fanout t = f /\ depth t = d.
Proof.
  intros Hf. unfold NewTree. destruct (Z.ltb_spec f 2); [done|]. destruct (Z.ltb_spec d 1), (Z.ltb_spec 8 d); try done. cbn [orb].
  destruct (newLevels _ _ _) as [ls| |] eqn:E; [|done..]. intros [= <-]. destruct (newLevels_ok (Z.to_nat d) f 1 ls ltac:(lia) ltac:(lia) E) as [H1' H2'].
  split; [|done]. split; cbn; [lia|lia|unfold len; lia|]. intros i Hi. unfold level. cbn. rewrite H2' by done. lia.
Qed.

Lemma level_set_leaves ls t i :
  tree_ok t -> level (set_leaves ls t) i = if decide (i = Z.to_nat (depth t)) then ls else level t i.
Proof.
  intros [H1 H2 H3 H4]. unfold set_leaves, level. cbn. case_decide as Hd.
  - subst i. rewrite list_lookup_insert_eq; [done|]. unfold len in H3. lia.
  - by rewrite list_lookup_insert_ne.
Qed.

Lemma set_leaves_ok ls t : tree_ok t -> length ls = length (leaves t) -> tree_ok (set_leaves ls t).
Proof.
  intros Ht Hl. pose proof Ht as [H1 H2 H3 H4]. split; [done|done|by unfold set_leaves, len; cbn; rewrite length_insert|].
  intros i Hi. rewrite level_set_leaves by done. cbn. case_decide; [subst i|by apply H4]. rewrite <-H4 by done.
  unfold len. by rewrite Hl.
Qed.

Lemma Accumulate_ok t e : tree_ok t -> tree_ok (AccumulateEntry Sum64 t e).
Proof. intros Ht. apply set_leaves_ok; [done|]. apply length_alter. Qed.

Lemma leaves_set_leaves ls t : tree_ok t -> leaves (set_leaves ls t) = ls.
Proof. intros Ht. unfold leaves. cbn [depth set_leaves]. rewrite level_set_leaves by done. by rewrite decide_True. Qed.

Lemma leaves_accumulate t e :
  tree_ok t -> leaves (AccumulateEntry Sum64 t e) =
    alter (fun h => Z.lxor h (entryHash Sum64 e)) (Z.to_nat (BucketFor Sum64 t (EKey e))) (leaves t).
Proof. intros Ht. by apply leaves_set_leaves. Qed.

Lemma BucketFor_leaves t t' k : length (leaves t) = length (leaves t') -> BucketFor Sum64 t k = BucketFor Sum64 t' k.
Proof. intros E. unfold BucketFor, NumLeaves, len. by rewrite E. Qed.

Lemma NumLeaves_pos t : tree_ok t -> 0 < NumLeaves t.
Proof. intros [H1 H2 H3 H4]. unfold NumLeaves, leaves. rewrite H4 by lia. apply Z.pow_pos_nonneg; lia. Qed.

Lemma BucketFor_range t k : tree_ok t -> 0 <= BucketFor Sum64 t k < NumLeaves t.
Proof. intros Ht. apply Z.mod_pos_bound. by apply NumLeaves_pos. Qed.

(** ** Leaves as folds *)
Definition kept (cutoff : Z) (es : list Entry) : list Entry := filter (fun e => WallTime (ETimestamp e) < cutoff) es.
(** The XOR of the hashes of the entries of bucket [b]. *)
Definition bucket_hash (t : Tree) (es : list Entry) (b : nat) : Z :=
  foldr (fun e h => Z.lxor (if decide (Z.to_nat (BucketFor Sum64 t (EKey e)) = b) then entryHash Sum64 e else 0) h) 0 es.

Lemma accumulateAll_ok cutoff t es : tree_ok t -> tree_ok (accumulateAll Sum64 cutoff t es) /\
  length (leaves (accumulateAll Sum64 cutoff t es)) = length (leaves t) /\
  fanout (accumulateAll Sum64 cutoff t es) = fanout t /\ depth (accumulateAll Sum64 cutoff t es) = depth t.
Proof.
  revert t; induction es as [|e es IH]; intros t Ht; cbn [accumulateAll]; [done|]. destruct (_ <=? _); [by apply IH|].
  destruct (IH _ (Accumulate_ok t e Ht)) as (H1 & H2 & H3 & H4). split; [done|]. rewrite H2, H3, H4. split; [|done].
  rewrite leaves_accumulate by done. apply length_alter.
Qed.

Lemma accumulateAll_leaf cutoff t es b h :
  tree_ok t -> leaves t !! b = Some h ->
  leaves (accumulateAll Sum64 cutoff t es) !! b = Some (Z.lxor h (bucket_hash t (kept cutoff es) b)).
Proof.
  revert t h; induction es as [|e es IH]; intros t h Ht Hb; cbn [accumulateAll].
  - unfold kept, bucket_hash. cbn. by rewrite Z.lxor_0_r.
  - unfold kept. destruct (Z.leb_spec cutoff (WallTime (ETimestamp e))) as [Hc|Hc].
    + rewrite filter_cons_False by lia. by apply IH.
    + rewrite filter_cons_True by lia. cbn [bucket_hash foldr]. fold (bucket_hash t (kept cutoff es) b).
      rewrite (IH _ (Z.lxor h (if decide (Z.to_nat (BucketFor Sum64 t (EKey e)) = b) then entryHash Sum64 e else 0))).
      * f_equal. rewrite Z.lxor_assoc. f_equal. f_equal. unfold bucket_hash.
        assert (length (leaves (AccumulateEntry Sum64 t e)) = length (leaves t)) as El by (rewrite leaves_accumulate by done; apply length_alter).
        fold (kept cutoff es). clear -El. induction (kept cutoff es) as [|x l IHl]; cbn; [done|]. by rewrite IHl, (BucketFor_leaves (AccumulateEntry Sum64 t e) t (EKey x) El).
      * by apply Accumulate_ok.
      * rewrite leaves_accumulate by done. case_decide as Hd.
        -- rewrite Hd, list_lookup_alter_eq, Hb. done.
        -- rewrite list_lookup_alter_ne, Hb by done. by rewrite Z.lxor_0_r.
Qed.

Lemma bucket_hash_perm t es es' b : es ≡ₚ es' -> bucket_hash t es b = bucket_hash t es' b.
Proof.
  induction 1 as [|e es es' _ IH|e e' es|es es' es'' _ IH1 _ IH2]; unfold bucket_hash in *; cbn; [done|by rewrite IH| |congruence].
  rewrite <-!Z.lxor_assoc. f_equal. apply Z.lxor_comm.
Qed.

(** Accumulation changes only the leaves, so trees with equal leaves are equal. *)
Lemma accumulateAll_levels cutoff t es i :
  tree_ok t -> i <> Z.to_nat (depth t) -> level (accumulateAll Sum64 cutoff t es) i = level t i.
Proof.
  revert t; induction es as [|e es IH]; intros t Ht Hi; cbn [accumulateAll]; [done|]. destruct (_ <=? _); [by apply IH|].
  rewrite IH; [|by apply Accumulate_ok|done]. unfold AccumulateEntry. rewrite level_set_leaves by done. by rewrite decide_False.
Qed.

Lemma tree_ext t t' :
  tree_ok t -> tree_ok t' -> fanout t = fanout t' -> depth t = depth t' -> (forall i, level t i = level t' i) -> t = t'.
Proof.
  intros [H1 H2 H3 H4] [H1' H2' H3' H4'] Ef Ed E. destruct t as [f d ls], t' as [f' d' ls']. cbn in *. subst f' d'. f_equal.
  apply list_eq_same_length with (n := Z.to_nat (d + 1)); [unfold len in *; lia..|]. intros i x y Hi Hx Hy. specialize (E i).
  unfold level in E. cbn in E. rewrite Hx, Hy in E. exact E.
Qed.

(** Trees whose buckets hash alike are equal. *)
Lemma accumulateAll_eq cutoff t es es' :
  tree_ok t -> (forall b, (b < length (leaves t))%nat -> bucket_hash t (kept cutoff es) b = bucket_hash t (kept cutoff es') b) ->
  accumulateAll Sum64 cutoff t es = accumulateAll Sum64 cutoff t es'.
Proof.
  intros Ht Hb. destruct (accumulateAll_ok cutoff t es Ht) as (K1 & L1 & F1 & D1). destruct (accumulateAll_ok cutoff t es' Ht) as (K2 & L2 & F2 & D2).
  apply tree_ext; [done..|congruence|congruence|]. intros i. destruct (decide (i = Z.to_nat (depth t))) as [->|Hi].
  - assert (leaves (accumulateAll Sum64 cutoff t es) = leaves (accumulateAll Sum64 cutoff t es')) as El.
    { apply list_eq. intros b. destruct (leaves t !! b) as [h|] eqn:E.
      - rewrite !(accumulateAll_leaf _ _ _ _ h) by done. rewrite Hb; [done|]. by eapply lookup_lt_Some.
      - apply lookup_ge_None in E. rewrite !lookup_ge_None_2 by lia. done. }
    unfold leaves in El. by rewrite D1, D2 in El.
  - by rewrite !accumulateAll_levels.
Qed.

(** ** Internal nodes *)
Lemma finalizeLevels_cons f l l2 rest :
  finalizeLevels Sum64 f (l :: l2 :: rest) =
    parents Sum64 (length l) f (default [] (head (finalizeLevels Sum64 f (l2 :: rest)))) :: finalizeLevels Sum64 f (l2 :: rest).
Proof. done. Qed.

Lemma length_parents n f child : length (parents Sum64 n f child) = n.
Proof. revert child; induction n as [|n IH]; intros child; cbn; [done|]. by rewrite IH. Qed.

Lemma length_finalize f ls : length (finalizeLevels Sum64 f ls) = length ls.
Proof. induction ls as [|l [|l2 rest] IH]; [done..|]. rewrite finalizeLevels_cons. cbn [length]. by rewrite IH. Qed.

Lemma finalize_lookup f ls i :
  finalizeLevels Sum64 f ls !! i =
    l ← ls !! i;
    if decide (Datatypes.S i = length ls) then Some l
    else Some (parents Sum64 (length l) f (default [] (finalizeLevels Sum64 f ls !! Datatypes.S i))).
Proof.
  revert i; induction ls as [|l [|l2 rest] IH]; intros i; [done|by destruct i as [|[]]|].
  rewrite finalizeLevels_cons. destruct i as [|i].
  - clear IH. generalize (finalizeLevels Sum64 f (l2 :: rest)). intros X. change ((l :: l2 :: rest) !! 0%nat) with (Some l). cbn [mbind option_bind].
    rewrite decide_False by (cbn [length]; lia). by destruct X.
  - change ((l :: l2 :: rest) !! Datatypes.S i) with ((l2 :: rest) !! i).
    change ((?x :: ?X) !! Datatypes.S ?k) with (X !! k).
    rewrite (IH i). destruct ((l2 :: rest) !! i); [|done]. cbn [mbind option_bind length].
    destruct (decide (Datatypes.S i = Datatypes.S (length rest))) as [E|E], (decide (Datatypes.S (Datatypes.S i) = Datatypes.S (Datatypes.S (length rest)))) as [E'|E']; try lia; done.
Qed.

Lemma parents_lookup n f child j :
  (j < n)%nat -> parents Sum64 n f child !! j = Some (hashChildren Sum64 (take f (drop (j * f) child))).
Proof.
  revert j child; induction n as [|n IH]; intros j child Hj; [lia|]. destruct j as [|j]; cbn; [by rewrite drop_0|].
  rewrite IH by lia. by rewrite drop_drop.
Qed.

Definition children (t : Tree) (i : nat) (j : Z) : list Z :=
  take (Z.to_nat (fanout t)) (drop (Z.to_nat (j * fanout t)) (level t (Datatypes.S i))).
(** Every internal node is the hash of its children. *)
Definition finalized (t : Tree) : Prop :=
  forall i j, (i < Z.to_nat (depth t))%nat -> 0 <= j < fanout t ^ Z.of_nat i ->
    level t i !! Z.to_nat j = Some (hashChildren Sum64 (children t i j)).

Lemma level_lookup t i : tree_ok t -> (i <= Z.to_nat (depth t))%nat -> levels t !! i = Some (level t i).
Proof.
  intros [H1 H2 H3 H4] Hi. unfold level. destruct (levels t !! i) as [l|] eqn:E; [done|]. apply lookup_ge_None in E. unfold len in H3. lia.
Qed.

Lemma Finalize_ok t : tree_ok t -> tree_ok (Finalize Sum64 t) /\ finalized (Finalize Sum64 t) /\ leaves (Finalize Sum64 t) = leaves t.
Proof.
  intros Ht. pose proof Ht as [H1 H2 H3 H4]. assert (length (levels t) = Datatypes.S (Z.to_nat (depth t))) as El by (unfold len in H3; lia).
  assert (forall i, (i <= Z.to_nat (depth t))%nat -> level (Finalize Sum64 t) i =
    if decide (i = Z.to_nat (depth t)) then level t i
    else parents Sum64 (length (level t i)) (Z.to_nat (fanout t)) (level (Finalize Sum64 t) (Datatypes.S i))) as Hl.
  { intros i Hi. unfold level at 1. unfold Finalize at 1. cbn [levels]. rewrite finalize_lookup, (level_lookup t i Ht Hi). cbn [mbind option_bind].
    rewrite El. destruct (decide (i = Z.to_nat (depth t))) as [->|Hne]; [by rewrite decide_True|]. by rewrite decide_False by lia. }
  split_and!.
  - split; cbn [fanout depth Finalize]; [done|done|unfold len; cbn; rewrite length_finalize; exact H3|]. intros i Hi. rewrite Hl by done.
    case_decide; [by apply H4|]. unfold len. rewrite length_parents. by apply H4.
  - intros i j Hi Hj. cbn [depth fanout Finalize] in Hi, Hj. rewrite Hl, decide_False by lia. unfold children. cbn [fanout Finalize].
    rewrite parents_lookup.
    + rewrite Z2Nat.inj_mul by lia. done.
    + specialize (H4 i ltac:(lia)). unfold len in H4. lia.
  - unfold leaves. cbn [depth Finalize]. rewrite Hl by lia. by rewrite decide_True.
Qed.

(** ** Claims *)
Lemma BuildTree_inv {E} (src : outcome E (list Entry)) cutoff f d t :
  f < 2^63 -> BuildTree Sum64 src cutoff f d = Ok t ->
  exists t0 es, src = Ok es /\ NewTree f d = Ok t0 /\ tree_ok t0 /\ t = Finalize Sum64 (accumulateAll Sum64 cutoff t0 es) /\
    fanout t = f /\ depth t = d /\ tree_ok t /\ finalized t /\
    leaves t = leaves (accumulateAll Sum64 cutoff t0 es) /\ length (leaves t) = length (leaves t0).
Proof.
  intros Hf. unfold BuildTree. destruct (NewTree f d) as [t0| |] eqn:E0; [|done..]. cbn. destruct src as [es| |]; [|done..]. intros [= <-].
  destruct (NewTree_ok f d t0 Hf E0) as (Ht0 & Ef & Ed). destruct (accumulateAll_ok cutoff t0 es Ht0) as (Ha & El & Ef' & Ed').
  destruct (Finalize_ok _ Ha) as (H1 & H2 & H3). exists t0, es. cbn [fanout depth Finalize]. rewrite Ef', Ed', H3. done.
Qed.

(** The tree of a replica does not depend on the order in which its
    entries are scanned, and entries younger than the cutoff do not count. *)
Theorem tree_order_independent {E} es es' cutoff f d :
  f < 2^63 -> kept cutoff es ≡ₚ kept cutoff es' ->
  BuildTree Sum64 (@Ok E _ es) cutoff f d = BuildTree Sum64 (@Ok E _ es') cutoff f d.
Proof.
  intros Hf Hp. unfold BuildTree. destruct (NewTree f d) as [t0| |] eqn:E0; [|done..]. cbn.
  destruct (NewTree_ok f d t0 Hf E0) as (Ht0 & _). f_equal. f_equal. apply accumulateAll_eq; [done|]. intros b _. by apply bucket_hash_perm.
Qed.

(** Divergence that the tree cannot see.  An entry contributes
    hash(key) xor hash(timestamp) xor deleted to its leaf, so two replicas
    that hold two keys of one bucket with their versions exchanged build the
    same tree, whatever the hash function is. *)
Theorem tree_misses_swapped_versions {E} k1 k2 v1 v2 d1 d2 cutoff f d t0 :
  NewTree f d = Ok t0 -> f < 2^63 -> BucketFor Sum64 t0 k1 = BucketFor Sum64 t0 k2 -> WallTime v1 < cutoff -> WallTime v2 < cutoff ->
  BuildTree Sum64 (@Ok E _ [mkEntry k1 v1 d1; mkEntry k2 v2 d2]) cutoff f d =
  BuildTree Sum64 (@Ok E _ [mkEntry k1 v2 d2; mkEntry k2 v1 d1]) cutoff f d.
Proof.
  intros E0 Hf Hb H1 H2. unfold BuildTree. rewrite E0. cbn [mbind outcome_bind]. destruct (NewTree_ok f d t0 Hf E0) as (Ht0 & _).
  f_equal. f_equal. apply accumulateAll_eq; [done|]. intros b _. unfold kept. rewrite !filter_cons_True by done. cbn [filter list_filter].
  unfold bucket_hash. cbn [foldr EKey]. rewrite Hb. case_decide; [|done]. rewrite !Z.lxor_0_r. unfold entryHash. cbn [EKey ETimestamp EDel].
  rewrite <-!Z.lxor_assoc. set (a := Sum64 k1). set (b1 := Sum64 _). set (x := if d1 then 1 else 0). set (k := Sum64 k2).
  set (b2 := Sum64 _). set (y := if d2 then 1 else 0). apply Z.bits_inj'. intros n _. rewrite !Z.lxor_spec.
  by destruct (Z.testbit a n), (Z.testbit b1 n), (Z.testbit x n), (Z.testbit k n), (Z.testbit b2 n), (Z.testbit y n).
Qed.
End shape.

Definition demo_entries : list Entry :=
  [mkEntry [Byte.x61] (mkTs 5 0 [Byte.x61]) false; mkEntry [Byte.x62] (mkTs 6 0 [Byte.x61]) true].

Lemma tree_order_independent_witness :
  BuildTree demo_Sum64 (@Ok unit _ demo_entries) 10 2 3 = BuildTree demo_Sum64 (@Ok unit _ (rev demo_entries)) 10 2 3.
Proof. apply (tree_order_independent demo_Sum64); [done|]. apply (bool_decide_unpack _). vm_compute. exact I. Defined.

Lemma tree_misses_swapped_versions_witness :
  BuildTree demo_Sum64 (@Ok unit _ [mkEntry [Byte.x61] (mkTs 5 0 [Byte.x61]) false; mkEntry [Byte.x63] (mkTs 6 0 [Byte.x61]) true]) 10 2 1 =
  BuildTree demo_Sum64 (@Ok unit _ [mkEntry [Byte.x61] (mkTs 6 0 [Byte.x61]) true; mkEntry [Byte.x63] (mkTs 5 0 [Byte.x61]) false]) 10 2 1.
Proof.
  destruct (NewTree 2 1) as [t0| |] eqn:E0; [|by vm_compute in E0..].
  apply (tree_misses_swapped_versions demo_Sum64 [Byte.x61] [Byte.x63] (mkTs 5 0 [Byte.x61]) (mkTs 6 0 [Byte.x61]) false true 10 2 1 t0 E0); [done| |done|done].
  vm_compute in E0. injection E0 as <-. vm_compute. reflexivity.
Defined.
