(* ===== verification/Reconcile.v ===== *)
(** * Anti-entropy between two replicas
    (src/cluster/antientropy/db_source.go, rpc.go, reconcile.go)

    The sources that feed the trees, the handlers of the anti-entropy service, and
    one reconcile round: compare roots, descend to the differing buckets, merge
    the entries of each and repair both sides.  The state of a round is the local
    store and the peer's replica; [net] gives the fate of each remote call by its
    number, [cut] the length at which a stream of entries breaks, and [now] the
    clock at each reading.  The theorems are in ReconcileProof.v. *)

From Stdlib Require Import ZArith Lia List.
From stdpp Require Import base list option gmap.
From S2P Require Import Prelude GoBytes KV Entries HLC Envelope KVStore Replica HashRing Coordinator MerkleTree.
Open Scope Z_scope.

(** ** reconcile.go: the digest *)
Record keyspaceDigest := mkDigest {
  dRingVersion : Z; dInitiator : bytes; dTarget : bytes; dDepth : Z; dFanout : Z; dCutoff : Z; dRF : Z }.
(** [""] when [selfID] is neither endpoint. *)
Definition OtherFrom (d : keyspaceDigest) (selfID : bytes) : bytes :=
  if bytes_Equal selfID (dInitiator d) then dTarget d
  else if bytes_Equal selfID (dTarget d) then dInitiator d else [].
Definition uint32Path (p : list Z) : list Z := map u32 p.
Definition intPath (p : list Z) : list Z := p.

Inductive AECode := AEInvalid | AEInternal | AEPrecondition.

Record AntiEntropyConfig := mkAE { AEDepth : Z; AEFanout : Z; GracePeriod : Z; MaxRepairPerRound : Z }.
Definition pushBatchSize : Z := 256.

Section reconcile.
Context {S : Type} `{!KVStore S}.
Context (Sum64 : bytes -> Z).

(** ** db_source.go *)
(** [DBSource] drained: the entries yielded, and whether it ended with an error. *)
Fixpoint sourceLoop (ring : option Ring) (selfID peerID : bytes) (n : Z) (kvs : list (bytes * option bytes)) : list Entry * bool :=
  match kvs with
  | [] => ([], false)
  | (userKey, val) :: kvs =>
      match ShouldReconcile Sum64 ring userKey selfID peerID n with
      | None => ([], true)
      | Some false => sourceLoop ring selfID peerID n kvs
      | Some true =>
          if len (sl val) =? 0 then sourceLoop ring selfID peerID n kvs else
          match DecodeEnvelope (sl val) with
          | Ok env => let '(es, err) := sourceLoop ring selfID peerID n kvs in (mkEntry userKey (ETs env) (EDeleted env) :: es, err)
          | _ => ([], true)
          end
      end
  end.
Definition DBSource (database : S) (ring : option Ring) (selfID peerID : bytes) (n : Z) : list Entry * bool :=
  sourceLoop ring selfID peerID n (db_Scan database).
Definition source_outcome (src : list Entry * bool) : outcome unit (list Entry) := if src.2 then Err tt else Ok src.1.

Definition BucketSource (database : S) (ring : option Ring) (selfID peerID : bytes) (n fanout depth bucket : Z)
  : outcome TreeErr (list Entry * bool) :=
  t ← NewTree fanout depth;
  if (bucket <? 0) || (NumLeaves t <=? bucket) then Err ErrPath else
  let '(es, err) := DBSource database ring selfID peerID n in
  Ok (filter (fun e => BucketFor Sum64 t (EKey e) = bucket) es, err).

(** ** rpc.go *)
Record Service := mkService { sv_self : bytes; sv_ring : option Ring; sv_db : S; sv_ringVer : option Z; sv_defaultRF : Z }.

(** The digest with its replication factor, the other endpoint, and a ring mismatch. *)
Definition validateDigest (s : Service) (d : option keyspaceDigest) : outcome AECode (keyspaceDigest * bytes * bool) :=
  match d with
  | None => Err AEInvalid
  | Some d =>
      if bytes_Equal (dInitiator d) [] || bytes_Equal (dTarget d) [] then Err AEInvalid else
      if (dFanout d <? 2) || (dDepth d <? 1) then Err AEInvalid else
      let d := if dRF d <=? 0
               then mkDigest (dRingVersion d) (dInitiator d) (dTarget d) (dDepth d) (dFanout d) (dCutoff d) (i32 (sv_defaultRF s)) else d in
      let other := OtherFrom d (sv_self s) in
      if bytes_Equal other [] then Err AEInvalid else
      match sv_ringVer s with
      | Some v => Ok (d, other, negb (dRingVersion d =? v))
      | None => Ok (d, other, false)
      end
  end.
Definition buildTreeFor (s : Service) (d : keyspaceDigest) (otherID : bytes) : outcome TreeErr Tree :=
  BuildTree Sum64 (source_outcome (DBSource (sv_db s) (sv_ring s) (sv_self s) otherID (dRF d))) (dCutoff d) (dFanout d) (dDepth d).

(** [None] is the ring version mismatch of the answer. *)
Definition ComputeAERoot (s : Service) (d : option keyspaceDigest) : outcome AECode (option Z) :=
  '(d, other, mismatch) ← validateDigest s d;
  if mismatch : bool then Ok None else
  match buildTreeFor s d other with
  | Ok tree => match Root tree with Ok r => Ok (Some r) | _ => Panic end
  | Err _ => Err AEInternal
  | Panic => Panic
  end.
Definition GetAESubtree (s : Service) (d : option keyspaceDigest) (path : list Z) : outcome AECode (option (list Z)) :=
  '(d, other, mismatch) ← validateDigest s d;
  if mismatch : bool then Ok None else
  match buildTreeFor s d other with
  | Ok tree =>
      let path := intPath path in
      if Depth tree <=? len path then Err AEInvalid else
      match ChildrenAt tree path with
      | Ok cs => Ok (Some cs)
      | Err _ => Err AEInvalid
      | Panic => Panic
      end
  | Err _ => Err AEInternal
  | Panic => Panic
  end.
(** The entries sent on the stream, and whether it ends with an error. *)
Definition GetAELeafKeys (s : Service) (d : option keyspaceDigest) (bucketIndex : Z) : list Entry * bool :=
  match validateDigest s d with
  | Ok (d, other, mismatch) =>
      if mismatch : bool then ([], true) else
      match BucketSource (sv_db s) (sv_ring s) (sv_self s) other (dRF d) (dFanout d) (dDepth d) bucketIndex with
      | Ok (es, err) => (filter (fun e => WallTime (ETimestamp e) < dCutoff d) es, err)
      | _ => ([], true)
      end
  | _ => ([], true)
  end.

(** ** reconcile.go: one round *)
Record reconciler := mkRec {
  rc_self : bytes; rc_peer : bytes; rc_ring : option Ring; rc_peerRing : option Ring; rc_peerVer : option Z;
  rc_cfg : AntiEntropyConfig; rc_ringVersion : Z; rc_RF : Z; rc_peerRF : Z }.
Record rstate := mkRS { rs_local : S; rs_peer : Replica S; rs_calls : nat }.

Inductive RecErr := ErrRPC | ErrRingVersionMismatch | ErrPeerChildren | ErrBuild | ErrDecode | ErrRepair | ErrStream.

Context (rc : reconciler) (net : nat -> fate) (cut : nat -> option nat) (now : nat -> Z).

Definition service (st : rstate) : Service :=
  mkService (rc_peer rc) (rc_peerRing rc) (r_db (rs_peer st)) (rc_peerVer rc) (rc_peerRF rc).
Definition next_call (st : rstate) : rstate := mkRS (rs_local st) (rs_peer st) (Datatypes.S (rs_calls st)).

(** A remote call: [f] runs at the peer unless the request is lost; the result is
    returned unless the answer is lost. *)
Definition rpc {A} (f : Z -> Replica S -> Replica S * A) (st : rstate) : rstate * option A :=
  match net (rs_calls st) with
  | Lost => (next_call st, None)
  | ReplyLost pt => (mkRS (rs_local st) (f pt (rs_peer st)).1 (Datatypes.S (rs_calls st)), None)
  | Delivered pt => let '(p, a) := f pt (rs_peer st) in (mkRS (rs_local st) p (Datatypes.S (rs_calls st)), Some a)
  end.
(** A call that only reads. *)
Definition query {A} (q : rstate -> outcome AECode A) (st : rstate) : rstate * outcome RecErr A :=
  let '(st', r) := rpc (fun _ p => (p, q st)) st in
  (st', match r with Some (Ok a) => Ok a | _ => Err ErrRPC end).

Definition digest : keyspaceDigest :=
  mkDigest (rc_ringVersion rc) (rc_self rc) (rc_peer rc) (u32 (AEDepth (rc_cfg rc))) (u32 (AEFanout (rc_cfg rc)))
    (now 0 - GracePeriod (rc_cfg rc)) (i32 (rc_RF rc)).

(** The loop over the children of a node: the differing leaves and the nodes to visit. *)
Fixpoint compareChildren (localTree : Tree) (path : list Z) (i : Z) (ls ps : list Z) : list Z * list (list Z) :=
  match ls, ps with
  | l :: ls, p :: ps =>
      let '(div, queue) := compareChildren localTree path (i + 1) ls ps in
      if p =? l then (div, queue) else
      let childPath := path ++ [i] in
      if len path + 1 =? Depth localTree
      then (fold_left (fun b p => b * Fanout localTree + p) childPath 0 :: div, queue)
      else (div, childPath :: queue)
  | _, _ => ([], [])
  end.
(** [findDivergentBuckets]; the fuel is a bound on the nodes visited. *)
Fixpoint findLoop (fuel : nat) (localTree : Tree) (queue : list (list Z)) (divergent : list Z) (st : rstate)
  : rstate * outcome RecErr (list Z) :=
  match queue with
  | [] => (st, Ok divergent)
  | path :: queue =>
      match fuel with
      | O => (st, Panic)
      | Datatypes.S fuel =>
          match ChildrenAt localTree path with
          | Ok localChildren =>
              let '(st, resp) := query (fun st => GetAESubtree (service st) (Some digest) (uint32Path path)) st in
              match resp with
              | Ok (Some peerChildren) =>
                  if negb (len peerChildren =? len localChildren) then (st, Err ErrPeerChildren) else
                  let '(div, next) := compareChildren localTree path 0 localChildren peerChildren in
                  findLoop fuel localTree (queue ++ next) (divergent ++ div) st
              | Ok None => (st, Err ErrRingVersionMismatch)
              | Err e => (st, Err e)
              | Panic => (st, Panic)
              end
          | _ => (st, Err ErrBuild)
          end
      end
  end.
(** The number of internal nodes of a tree. *)
Fixpoint subtreeNodes (n : nat) (f : nat) : nat := match n with O => 0 | Datatypes.S n => 1 + f * subtreeNodes n f end.
Definition findDivergentBuckets (localTree : Tree) (st : rstate) : rstate * outcome RecErr (list Z) :=
  findLoop (subtreeNodes (Z.to_nat (depth localTree)) (Z.to_nat (fanout localTree))) localTree [[]] [] st.

(** ** reconcile.go: one bucket *)
Definition drainLocalBucket (cutoff bucket : Z) (st : rstate) : outcome RecErr (list Entry) :=
  match BucketSource (rs_local st) (rc_ring rc) (rc_self rc) (rc_peer rc) (rc_RF rc) (AEFanout (rc_cfg rc)) (AEDepth (rc_cfg rc)) bucket with
  | Ok (es, false) => Ok (filter (fun e => WallTime (ETimestamp e) < cutoff) es)
  | _ => Err ErrBuild
  end.

Definition flushPush (batch : list ReplicateWriteRequest) (st : rstate) : rstate * outcome RecErr unit :=
  match batch with
  | [] => (st, Ok tt)
  | _ =>
      let '(st, r) := rpc (fun pt p =>
        let '(s, err) := ReplicateWriteBatch pt batch (Some p) in (default p s, err)) st in
      (st, match r with Some None => Ok tt | _ => Err ErrRPC end)
  end.

(** The new state, batch and number of repairs. *)
Definition pushLocal (key : bytes) (batch : list ReplicateWriteRequest) (repaired : Z) (st : rstate)
  : rstate * outcome RecErr (list ReplicateWriteRequest * Z) :=
  match db_Get (rs_local st) key with
  | None => (st, Ok (batch, repaired))
  | Some val =>
      match DecodeEnvelope (sl (Data val)) with
      | Ok env =>
          let batch := batch ++ [mkReq key (EVal env) (Some (ETs env)) (EDeleted env)] in
          let repaired := repaired + 1 in
          if pushBatchSize <=? len batch then
            let '(st, r) := flushPush batch st in
            (st, match r with Ok _ => Ok ([], repaired) | Err e => Err e | Panic => Panic end)
          else (st, Ok (batch, repaired))
      | _ => (st, Err ErrDecode)
      end
  end.

Definition pullFromPeer (key : bytes) (repaired : Z) (st : rstate) : rstate * outcome RecErr Z :=
  let '(st, r) := rpc (fun _ p => (p, ReplicateRead key (Some p))) st in
  match r with
  | Some (Ok resp) =>
      if negb (rsFound resp) then (st, Ok repaired) else
      match EncodeEnvelope (mkEnvelope (protoToHLC (rsTimestamp resp)) (rsDeleted resp) (rsValue resp)) with
      | Ok encoded =>
          match db_Put key encoded (rs_local st) with
          | Some db => (mkRS db (rs_peer st) (rs_calls st), Ok (repaired + 1))
          | None => (st, Err ErrRepair)
          end
      | _ => (st, Err ErrRepair)
      end
  | _ => (st, Err ErrRPC)
  end.

(** The merge of the two sorted lists; [perr]: the stream breaks after [peers]. *)
Fixpoint mergeBuckets (fuel : nat) (budget : Z) (locals peers : list Entry) (perr : bool)
  (batch : list ReplicateWriteRequest) (repaired : Z) (st : rstate) : rstate * outcome RecErr (list ReplicateWriteRequest * Z) :=
  if negb (repaired <? budget) then (st, Ok (batch, repaired)) else
  match fuel with
  | O => (st, Panic)
  | Datatypes.S fuel =>
      match locals, peers with
      | _, [] =>
          if perr then (st, Err ErrStream) else
          match locals with
          | [] => (st, Ok (batch, repaired))
          | l :: locals =>
              let '(st, r) := pushLocal (EKey l) batch repaired st in
              match r with
              | Ok (batch, repaired) => mergeBuckets fuel budget locals [] perr batch repaired st
              | Err e => (st, Err e) | Panic => (st, Panic)
              end
          end
      | [], p :: peers =>
          let '(st, r) := pullFromPeer (EKey p) repaired st in
          match r with
          | Ok repaired => mergeBuckets fuel budget [] peers perr batch repaired st
          | Err e => (st, Err e) | Panic => (st, Panic)
          end
      | l :: locals', p :: peers' =>
          match bytes_Compare (EKey l) (EKey p) with
          | Eq =>
              if Less (ETimestamp l) (ETimestamp p) then
                let '(st, r) := pullFromPeer (EKey p) repaired st in
                match r with
                | Ok repaired => mergeBuckets fuel budget locals' peers' perr batch repaired st
                | Err e => (st, Err e) | Panic => (st, Panic)
                end
              else if Less (ETimestamp p) (ETimestamp l) then
                let '(st, r) := pushLocal (EKey l) batch repaired st in
                match r with
                | Ok (batch, repaired) => mergeBuckets fuel budget locals' peers' perr batch repaired st
                | Err e => (st, Err e) | Panic => (st, Panic)
                end
              else mergeBuckets fuel budget locals' peers' perr batch repaired st
          | Lt =>
              let '(st, r) := pushLocal (EKey l) batch repaired st in
              match r with
              | Ok (batch, repaired) => mergeBuckets fuel budget locals' peers perr batch repaired st
              | Err e => (st, Err e) | Panic => (st, Panic)
              end
          | Gt =>
              let '(st, r) := pullFromPeer (EKey p) repaired st in
              match r with
              | Ok repaired => mergeBuckets fuel budget locals peers' perr batch repaired st
              | Err e => (st, Err e) | Panic => (st, Panic)
              end
          end
      end
  end.

(** [reconcileBucket]; each turn of the merge consumes an entry, which bounds the fuel. *)
Definition reconcileBucket (bucket budget cutoff : Z) (st : rstate) : rstate * outcome RecErr Z :=
  if budget <=? 0 then (st, Ok 0) else
  match drainLocalBucket cutoff bucket st with
  | Ok localEntries =>
      let k := rs_calls st in
      let '(st, stream) := rpc (fun _ p => (p, GetAELeafKeys (service st) (Some digest) (u32 bucket))) st in
      match stream with
      | None => (st, Err ErrRPC)
      | Some (es, err) =>
          let '(es, err) := match cut k with Some n => (take n es, true) | None => (es, err) end in
          let '(st, r) := mergeBuckets (1 + length localEntries + length es) budget localEntries es err [] 0 st in
          match r with
          | Ok (batch, repaired) =>
              let '(st, r) := flushPush batch st in
              (st, match r with Ok _ => Ok repaired | Err e => Err e | Panic => Panic end)
          | Err e => (st, Err e)
          | Panic => (st, Panic)
          end
      end
  | Err e => (st, Err e)
  | Panic => (st, Panic)
  end.

(** Phase 4 of [Run]; [j] numbers the readings of the clock. *)
Fixpoint reconcileAll (buckets : list Z) (j : nat) (repaired : Z) (st : rstate) : rstate * outcome RecErr Z :=
  match buckets with
  | [] => (st, Ok repaired)
  | b :: buckets =>
      if MaxRepairPerRound (rc_cfg rc) <=? repaired then (st, Ok repaired) else
      let '(st, r) := reconcileBucket b (MaxRepairPerRound (rc_cfg rc) - repaired) (now j - GracePeriod (rc_cfg rc)) st in
      match r with
      | Ok n => reconcileAll buckets (Datatypes.S j) (repaired + n) st
      | Err e => (st, Err e)
      | Panic => (st, Panic)
      end
  end.

(** [Run]: the number of keys repaired, or the error in its statistics. *)
Definition Run (st : rstate) : rstate * outcome RecErr Z :=
  let cfg := rc_cfg rc in
  match BuildTree Sum64 (source_outcome (DBSource (rs_local st) (rc_ring rc) (rc_self rc) (rc_peer rc) (rc_RF rc)))
          (dCutoff digest) (AEFanout cfg) (AEDepth cfg) with
  | Ok localTree =>
      let '(st, root) := query (fun st => ComputeAERoot (service st) (Some digest)) st in
      match root with
      | Ok (Some h) =>
          match Root localTree with
          | Ok h' =>
              if h =? h' then (st, Ok 0) else
              let '(st, div) := findDivergentBuckets localTree st in
              match div with
              | Ok buckets => reconcileAll buckets 1 0 st
              | Err e => (st, Err e)
              | Panic => (st, Panic)
              end
          | _ => (st, Panic)
          end
      | Ok None => (st, Err ErrRingVersionMismatch)
      | Err e => (st, Err e)
      | Panic => (st, Panic)
      end
  | _ => (st, Err ErrBuild)
  end.
End reconcile.
Arguments rstate : clear implicits.
