(* ===== verification/ReconcileProof.v ===== *)
(** * Anti-entropy: the descent and the merge

    The descent returns exactly the buckets whose leaves differ, when no two
    different lists of children hash alike ([descent_exact]).  The merge of one
    bucket keeps [merge_inv]: every key of the bucket is still ahead in one of the
    two sorted lists, waits in the batch, or has converged, and no other key
    changes; [merge_bucket_inv] concludes.  Round.v composes the two. *)

From Stdlib Require Import ZArith Lia List Sorted.
From stdpp Require Import base list option gmap sorting.
From S2P Require Import Prelude GoBytes KV Entries HLC Envelope KVStore Replica HashRing Coordinator CoordSpec MerkleTree Reconcile.
Open Scope Z_scope.

(** ** Paths *)
Definition digits_ok (f : Z) (path : list Z) : Prop := Forall (fun p => 0 <= p < f) path.
Definition pidx (f : Z) (path : list Z) : Z := fold_left (fun b p => b * f + p) path 0.

Lemma fold_pidx f path b : fold_left (fun b p => b * f + p) path b = b * f ^ len path + pidx f path.
Proof.
  unfold pidx. revert b; induction path as [|p path IH] using rev_ind; intros b; [change (len (@nil Z)) with 0; rewrite Z.pow_0_r; cbn; lia|].
  rewrite !fold_left_app. cbn. rewrite IH, len_app. change (len [p]) with 1. pose proof (len_nonneg path).
  rewrite Z.pow_add_r by lia. lia.
Qed.

Lemma pidx_snoc f path i : pidx f (path ++ [i]) = pidx f path * f + i.
Proof. unfold pidx. by rewrite fold_left_app. Qed.

Lemma pidx_range f path : 2 <= f -> digits_ok f path -> 0 <= pidx f path < f ^ len path.
Proof.
  intros Hf. induction path as [|p path IH] using rev_ind; intros Hd; [by cbn|].
  apply Forall_app in Hd as [Hd Hp]. apply Forall_cons in Hp as [Hp _]. specialize (IH Hd). rewrite pidx_snoc, len_app.
  change (len [p]) with 1. pose proof (len_nonneg path). rewrite Z.pow_add_r, Z.pow_1_r by lia. nia.
Qed.

Lemma pathIndex_ok f path b : digits_ok f path -> pathIndex f b path = Ok (fold_left (fun b p => b * f + p) path b).
Proof.
  revert b; induction path as [|p path IH]; intros b Hd; [done|]. apply Forall_cons in Hd as [Hp Hd]. cbn.
  rewrite (proj2 (Z.ltb_ge _ _)), (proj2 (Z.leb_gt _ _)) by lia. by apply IH.
Qed.

Lemma pathLoop_spec n f idx acc :
  2 <= f -> 0 <= idx < f ^ Z.of_nat n -> digits_ok f acc ->
  digits_ok f (pathLoop n f idx acc) /\ len (pathLoop n f idx acc) = Z.of_nat n + len acc /\
  pidx f (pathLoop n f idx acc) = idx * f ^ len acc + pidx f acc.
Proof.
  intros Hf. revert idx acc; induction n as [|n IH]; intros idx acc Hi Ha; cbn [pathLoop].
  - cbn in Hi. split; [done|]. split; [lia|]. assert (idx = 0) as -> by lia. lia.
  - rewrite Nat2Z.inj_succ, Z.pow_succ_r in Hi by lia. rewrite Z.quot_div_nonneg, Z.rem_mod_nonneg by lia.
    pose proof (Z.mod_pos_bound idx f ltac:(lia)). pose proof (Z.div_mod idx f ltac:(lia)).
    assert (0 <= idx / f < f ^ Z.of_nat n) as Hd by (split; [apply Z.div_pos; lia|apply Z.div_lt_upper_bound; lia]).
    destruct (IH (idx / f) (idx mod f :: acc) Hd) as (H1 & H2 & H3); [by constructor|].
    split; [done|]. split; [rewrite H2, len_cons; lia|]. rewrite H3, len_cons. pose proof (len_nonneg acc). rewrite Z.pow_add_r, Z.pow_1_r by lia.
    unfold pidx at 1. cbn [fold_left]. rewrite fold_pidx. nia.
Qed.

(** [PathForBucket] gives the digits of the bucket, and following them leads back to it. *)
Lemma PathForBucket_spec t b :
  tree_ok t -> 0 <= b < NumLeaves t ->
  digits_ok (fanout t) (PathForBucket t b) /\ len (PathForBucket t b) = depth t /\ pidx (fanout t) (PathForBucket t b) = b.
Proof.
  intros Ht Hb. pose proof Ht as [H1 H2 H3 H4]. unfold PathForBucket, NumLeaves, leaves in *. rewrite H4 in Hb by lia.
  destruct (pathLoop_spec (Z.to_nat (depth t)) (fanout t) b [] H1 Hb) as (E1 & E2 & E3); [constructor|].
  split; [done|]. rewrite E2, E3. change (len (@nil Z)) with 0. rewrite Z.pow_0_r. split; [lia|]. change (pidx (fanout t) []) with 0. lia.
Qed.

Section find.
Context (Sum64 : bytes -> Z).

Definition node_at (t : Tree) (path : list Z) : option Z := level t (length path) !! Z.to_nat (pidx (fanout t) path).

Lemma ChildrenAt_ok t path :
  tree_ok t -> digits_ok (fanout t) path -> len path < depth t ->
  ChildrenAt t path = Ok (children t (length path) (pidx (fanout t) path)) /\
  len (children t (length path) (pidx (fanout t) path)) = fanout t.
Proof.
  intros Ht Hd Hl. pose proof Ht as [H1 H2 H3 H4]. pose proof (pidx_range (fanout t) path H1 Hd) as Hr.
  assert (len (level t (S (length path))) = fanout t ^ len path * fanout t) as El.
  { rewrite H4 by (unfold len in Hl; lia). unfold len. rewrite Nat2Z.inj_succ, Z.pow_succ_r by lia. lia. }
  assert (pidx (fanout t) path * fanout t + fanout t <= len (level t (S (length path)))) as Hfit by (rewrite El; nia).
  split.
  - unfold ChildrenAt. rewrite (proj2 (Z.leb_gt _ _)) by lia. rewrite (proj2 (Z.eqb_neq _ _)) by lia.
    rewrite pathIndex_ok by done. cbn [mbind outcome_bind]. fold (pidx (fanout t) path).
    rewrite slice_ok by nia. unfold children. f_equal. f_equal. lia.
  - unfold children, len in *. rewrite length_take, length_drop. nia.
Qed.

Lemma children_lookup t path i :
  tree_ok t -> digits_ok (fanout t) path -> len path < depth t -> 0 <= i < fanout t ->
  children t (length path) (pidx (fanout t) path) !! Z.to_nat i = node_at t (path ++ [i]).
Proof.
  intros Ht Hd Hl Hi. pose proof Ht as [H1 H2 H3 H4]. pose proof (pidx_range (fanout t) path H1 Hd).
  unfold children, node_at. rewrite pidx_snoc, length_app. cbn [length]. rewrite lookup_take_lt, lookup_drop by lia.
  rewrite Nat.add_1_r. f_equal. nia.
Qed.

Lemma node_hash t path :
  tree_ok t -> finalized Sum64 t -> digits_ok (fanout t) path -> len path < depth t ->
  node_at t path = Some (hashChildren Sum64 (children t (length path) (pidx (fanout t) path))).
Proof.
  intros Ht Hf Hd Hl. pose proof Ht as [H1 H2 H3 H4]. apply Hf; [unfold len in Hl; lia|]. by apply pidx_range.
Qed.

Context (T1 T2 : Tree) (K1 : tree_ok T1) (K2 : tree_ok T2) (F1 : finalized Sum64 T1) (F2 : finalized Sum64 T2).
Context (Ef : fanout T2 = fanout T1) (Ed : depth T2 = depth T1).
Let f := fanout T1.

(** The two trees differ at [path] and at every node on the way down [suf]. *)
Definition differs (path : list Z) : Prop := node_at T1 path <> node_at T2 path.
Definition diverges (path suf : list Z) : Prop :=
  digits_ok f suf /\ len (path ++ suf) = depth T1 /\
  forall pre, pre <> [] -> pre `prefix_of` suf -> differs (path ++ pre).

(** No two different lists of children of the trees hash alike. *)
Definition no_collision : Prop :=
  forall path, digits_ok f path -> len path < depth T1 ->
    hashChildren Sum64 (children T1 (length path) (pidx f path)) = hashChildren Sum64 (children T2 (length path) (pidx f path)) ->
    children T1 (length path) (pidx f path) = children T2 (length path) (pidx f path).

Lemma differs_up path i :
  no_collision -> digits_ok f path -> 0 <= i < f -> len path < depth T1 -> differs (path ++ [i]) -> differs path.
Proof using K1 K2 F1 F2 Ef Ed.
  intros Hc Hd Hi Hl Hdiff E. apply Hdiff. unfold f in *. rewrite (node_hash T1), (node_hash T2) in E; rewrite ?Ef, ?Ed; try done.
  injection E as E. rewrite Ef in E. apply Hc in E; [|done..]. unfold f in E. rewrite <-!children_lookup by (rewrite ?Ef, ?Ed; done). by rewrite Ef, E.
Qed.

Lemma differs_prefix path suf pre :
  no_collision -> digits_ok f (path ++ suf) -> len (path ++ suf) <= depth T1 -> differs (path ++ suf) -> pre `prefix_of` suf -> differs (path ++ pre).
Proof using K1 K2 F1 F2 Ef Ed.
  intros Hc. revert pre; induction suf as [|i suf IH] using rev_ind; intros pre Hd Hl Hdiff Hpre.
  { by apply prefix_nil_inv in Hpre as ->. }
  rewrite app_assoc in Hd, Hl, Hdiff.
  destruct (decide (pre = suf ++ [i])) as [->|Hne]; [by rewrite app_assoc|].
  assert (pre `prefix_of` suf) as Hp.
  { destruct Hpre as [k E]. destruct k as [|x k] using rev_ind; [rewrite app_nil_r in E; by subst|].
    rewrite app_assoc in E. apply app_inj_tail in E as [E _]. by exists k. }
  apply Forall_app in Hd as [Hd Hi]. apply Forall_cons in Hi as [Hi _]. rewrite len_app in Hl. change (len [i]) with 1 in Hl.
  apply IH; [done|lia| |done]. apply (differs_up _ i); [done..|lia|done].
Qed.

Lemma compareChildren_spec path i ls ps div next :
  length ls = length ps -> compareChildren T1 path i ls ps = (div, next) ->
  (forall b, b ∈ div <-> len path + 1 = depth T1 /\
     exists k l p, ls !! k = Some l /\ ps !! k = Some p /\ l <> p /\ b = pidx f (path ++ [i + Z.of_nat k])) /\
  (forall q, q ∈ next <-> len path + 1 <> depth T1 /\
     exists k l p, ls !! k = Some l /\ ps !! k = Some p /\ l <> p /\ q = path ++ [i + Z.of_nat k]) /\
  (length next <= length ls)%nat.
Proof.
  revert i ps div next; induction ls as [|l ls IH]; intros i [|p ps] div next Hlen; cbn [compareChildren]; [|done..|].
  { intros [= <- <-]. split_and!; [|intros q; split|done].
    - intros b; split; [intros []%not_elem_of_nil|intros (_ & k & ? & ? & ? & _); done].
    - intros []%not_elem_of_nil.
    - intros (_ & k & ? & ? & ? & _); done. }
  destruct (compareChildren T1 path (i + 1) ls ps) as [div' next'] eqn:E. injection Hlen as Hlen.
  destruct (IH (i + 1) ps div' next' Hlen E) as (Hdiv & Hnext & Hn).
  assert (forall (P : Z -> Prop), (exists k l0 p0, (l :: ls) !! k = Some l0 /\ (p :: ps) !! k = Some p0 /\ l0 <> p0 /\ P (i + Z.of_nat k)) <->
    (l <> p /\ P i) \/ exists k l0 p0, ls !! k = Some l0 /\ ps !! k = Some p0 /\ l0 <> p0 /\ P (i + 1 + Z.of_nat k)) as Hsplit.
  { intros P. split.
    - intros ([|k] & l0 & p0 & H1 & H2 & H3 & H4); cbn in H1, H2.
      + injection H1 as ->. injection H2 as ->. left. by rewrite Z.add_0_r in H4.
      + right. exists k, l0, p0. replace (i + 1 + Z.of_nat k) with (i + Z.of_nat (S k)) by lia. done.
    - intros [[H1 H2]|(k & l0 & p0 & H1 & H2 & H3 & H4)].
      + exists 0%nat, l, p. rewrite Z.add_0_r. done.
      + exists (S k), l0, p0. replace (i + Z.of_nat (S k)) with (i + 1 + Z.of_nat k) by lia. done. }
  setoid_rewrite (Hsplit (fun x => _ = pidx f (path ++ [x]))). setoid_rewrite (Hsplit (fun x => _ = path ++ [x])).
  destruct (Z.eqb_spec p l) as [->|Hne].
  { intros [= <- <-]. split_and!; [intros b; rewrite Hdiv; naive_solver|intros q; rewrite Hnext; naive_solver|cbn; lia]. }
  destruct (Z.eqb_spec (len path + 1) (Depth T1)) as [Hl|Hl]; intros [= <- <-]; unfold Depth in Hl; (split_and!; [intros b|intros q|cbn; lia]).
  - rewrite elem_of_cons, Hdiv. unfold pidx, f, Fanout. naive_solver.
  - rewrite Hnext. naive_solver.
  - rewrite Hdiv. naive_solver.
  - rewrite elem_of_cons, Hnext. naive_solver.
Qed.

(** ** The descent *)
Definition measure (queue : list (list Z)) : nat :=
  sum_list_with (fun path => subtreeNodes (Z.to_nat (depth T1 - len path)) (Z.to_nat f)) queue.
Definition queue_ok (queue : list (list Z)) : Prop := Forall (fun path => digits_ok f path /\ len path < depth T1) queue.
Definition below (queue : list (list Z)) (b : Z) : Prop :=
  exists path suf, path ∈ queue /\ suf <> [] /\ diverges path suf /\ b = pidx f (path ++ suf).

Lemma child_differs path k :
  digits_ok f path -> len path < depth T1 ->
  (exists l p, children T1 (length path) (pidx f path) !! k = Some l /\ children T2 (length path) (pidx f path) !! k = Some p /\ l <> p) <->
  (Z.of_nat k < f /\ differs (path ++ [Z.of_nat k])).
Proof using K1 K2 Ef Ed.
  intros Hd Hl. unfold f in *. destruct (ChildrenAt_ok T1 path K1 Hd Hl) as [_ L1].
  destruct (ChildrenAt_ok T2 path K2) as [_ L2]; [by rewrite Ef|by rewrite Ed|]. rewrite Ef in L2. unfold len in L1, L2.
  unfold differs. split.
  - intros (l & p & Hk1 & Hk2 & Hne). pose proof (lookup_lt_Some _ _ _ Hk1). split; [lia|].
    rewrite <-!children_lookup by (rewrite ?Ef, ?Ed; (done || lia)). rewrite Ef, Nat2Z.id, Hk1, Hk2. congruence.
  - intros [Hk Hdiff]. rewrite <-!children_lookup in Hdiff by (rewrite ?Ef, ?Ed; (done || lia)). rewrite Ef, Nat2Z.id in Hdiff.
    destruct (children T1 _ _ !! k) as [l|] eqn:E1; [|apply lookup_ge_None in E1; lia].
    destruct (children T2 _ _ !! k) as [p|] eqn:E2; [|apply lookup_ge_None in E2; lia]. exists l, p. split_and!; congruence.
Qed.

Lemma below_step path queue div next :
  digits_ok f path -> len path < depth T1 ->
  compareChildren T1 path 0 (children T1 (length path) (pidx f path)) (children T2 (length path) (pidx f path)) = (div, next) ->
  queue_ok next /\ (measure next <= Z.to_nat f * subtreeNodes (Z.to_nat (depth T1 - len path) - 1) (Z.to_nat f))%nat /\
  forall b, (below (path :: queue) b <-> b ∈ div \/ below (queue ++ next) b).
Proof using K1 K2 Ef Ed.
  intros Hd Hl E. destruct (ChildrenAt_ok T1 path K1 Hd Hl) as [_ L1].
  destruct (ChildrenAt_ok T2 path K2) as [_ L2]; [by rewrite Ef|by rewrite Ed|]. rewrite Ef in L2.
  apply compareChildren_spec in E as (Hdiv & Hnext & Hlen); [|unfold len, f in *; lia].
  assert (forall q, q ∈ next <-> len path + 1 <> depth T1 /\ exists k, Z.of_nat k < f /\ differs (path ++ [Z.of_nat k]) /\ q = path ++ [Z.of_nat k]) as Hn.
  { intros q. rewrite Hnext. split.
    - intros (Hc & k & l & p & H1 & H2 & H3 & ->). split; [done|]. exists k. pose proof (proj1 (child_differs path k Hd Hl) ltac:(eauto)). tauto.
    - intros (Hc & k & Hk & Hdf & ->). split; [done|]. destruct (proj2 (child_differs path k Hd Hl) (conj Hk Hdf)) as (l & p & ?). exists k, l, p. tauto. }
  assert (forall b, b ∈ div <-> len path + 1 = depth T1 /\ exists k, Z.of_nat k < f /\ differs (path ++ [Z.of_nat k]) /\ b = pidx f (path ++ [Z.of_nat k])) as Hb.
  { intros b. rewrite Hdiv. split.
    - intros (Hc & k & l & p & H1 & H2 & H3 & ->). split; [done|]. exists k. pose proof (proj1 (child_differs path k Hd Hl) ltac:(eauto)). tauto.
    - intros (Hc & k & Hk & Hdf & ->). split; [done|]. destruct (proj2 (child_differs path k Hd Hl) (conj Hk Hdf)) as (l & p & ?). exists k, l, p. tauto. }
  assert (queue_ok next) as Hok.
  { apply Forall_forall. intros q (Hc & k & Hk & _ & ->)%Hn. split; [apply Forall_app; split; [done|repeat constructor; lia]|].
    rewrite len_app. change (len [Z.of_nat k]) with 1. lia. }
  split; [done|]. split.
  - assert (forall q, q ∈ next -> subtreeNodes (Z.to_nat (depth T1 - len q)) (Z.to_nat f) = subtreeNodes (Z.to_nat (depth T1 - len path) - 1) (Z.to_nat f)) as Hm.
    { intros q (Hc & k & Hk & _ & ->)%Hn. f_equal. rewrite len_app. change (len [Z.of_nat k]) with 1. lia. }
    assert (measure next = length next * subtreeNodes (Z.to_nat (depth T1 - len path) - 1) (Z.to_nat f))%nat as ->.
    { clear -Hm. unfold measure. induction next as [|q next IH]; cbn; [done|]. rewrite IH by (intros; apply Hm; by right). rewrite Hm by left. lia. }
    apply Nat.mul_le_mono_r. unfold len, f in *. lia.
  - intros b. split.
    + intros (q & suf & [->|Hq]%elem_of_cons & Hs & Hdv & ->); [|right; exists q, suf; split_and!; [apply elem_of_app; by left|done..]].
      destruct suf as [|i suf]; [done|]. destruct Hdv as (Hds & Hlen' & Hpre). apply Forall_cons in Hds as [Hi Hds].
      assert (differs (path ++ [i])) as Hdi by (apply Hpre; [done|apply prefix_cons, prefix_nil]).
      destruct (decide (suf = [])) as [->|Hne].
      * left. apply Hb. rewrite len_app in Hlen'. change (len [i]) with 1 in Hlen'. split; [lia|]. exists (Z.to_nat i). rewrite Z2Nat.id by lia. split; [lia|done].
      * right. exists (path ++ [i]), suf. replace ((path ++ [i]) ++ suf) with (path ++ i :: suf) by (by rewrite <-app_assoc). split_and!; [|done| |done].
        -- apply elem_of_app. right. apply Hn. rewrite len_app, len_cons in Hlen'. assert (len suf <> 0) by (intros ?%len_zero_nil; done). pose proof (len_nonneg suf).
           split; [lia|]. exists (Z.to_nat i). rewrite Z2Nat.id by lia. split; [lia|done].
        -- split; [done|]. split; [by rewrite <-app_assoc|]. intros pre Hpn Hpp. rewrite <-app_assoc. apply Hpre; [done|]. by apply prefix_cons.
    + intros [(Hc & k & Hk & Hdf & ->)%Hb|(q & suf & [Hq|Hq]%elem_of_app & Hs & Hdv & ->)].
      * exists path, [Z.of_nat k]. split_and!; [left|done| |done]. split; [repeat constructor; lia|]. split; [rewrite len_app; change (len [Z.of_nat k]) with 1; lia|].
        intros pre Hpn Hpp. destruct pre as [|x pre]; [done|]. apply prefix_cons_inv_1 in Hpp as Hx. apply prefix_cons_inv_2, prefix_nil_inv in Hpp as ->. by subst.
      * exists q, suf. split_and!; [by right|done..].
      * apply Hn in Hq as (Hc & k & Hk & Hdf & ->). exists path, (Z.of_nat k :: suf). destruct Hdv as (Hds & Hlen' & Hpre).
        rewrite <-app_assoc in *. split_and!; [left|done| |done]. split; [constructor; [lia|done]|]. split; [done|].
        intros pre Hpn Hpp. destruct pre as [|x pre]; [done|]. apply prefix_cons_inv_1 in Hpp as Hx. apply prefix_cons_inv_2 in Hpp. subst x.
        destruct (decide (pre = [])) as [->|Hne]; [done|]. specialize (Hpre pre Hne Hpp). by rewrite <-app_assoc in Hpre.
Qed.

Lemma leaf_node q :
  digits_ok f q -> len q = depth T1 -> node_at T1 q = leaves T1 !! Z.to_nat (pidx f q) /\ node_at T2 q = leaves T2 !! Z.to_nat (pidx f q).
Proof using Ef Ed.
  intros Hd Hl. unfold node_at, leaves. rewrite Ef, Ed. replace (Z.to_nat (depth T1)) with (length q) by (unfold len in Hl; lia). done.
Qed.

(** A differing leaf shows at the root. *)
Lemma root_differs b :
  no_collision -> 0 <= b < NumLeaves T1 -> leaves T1 !! Z.to_nat b <> leaves T2 !! Z.to_nat b -> level T1 0 !! 0%nat <> level T2 0 !! 0%nat.
Proof using K1 K2 F1 F2 Ef Ed.
  intros Hc Hr Hdiff. destruct (PathForBucket_spec T1 b K1 Hr) as (Hd & Hl & Hi). fold f in Hd, Hi.
  apply (differs_prefix [] (PathForBucket T1 b) []); cbn [app]; [done|done|lia| |apply prefix_nil].
  unfold differs. destruct (leaf_node _ Hd Hl) as [-> ->]. by rewrite Hi.
Qed.

Context {S : Type} `{!KVStore S} (rc : reconciler) (net : nat -> fate) (now : nat -> Z) (P : Replica S).
(** The peer answers from its tree [T2] as long as its replica is [P]. *)
Context (Hpeer : forall (st : rstate S) path, rs_peer st = P -> digits_ok f path -> len path < depth T1 ->
  GetAESubtree Sum64 (service rc st) (Some (digest rc now)) (uint32Path path) = Ok (Some (children T2 (length path) (pidx f path)))).

Lemma findQueue_spec fuel queue div st :
  rs_peer st = P -> queue_ok queue -> (measure queue <= fuel)%nat ->
  match findLoop Sum64 rc net now fuel T1 queue div st with
  | (st', Ok out) => rs_local st' = rs_local st /\ rs_peer st' = P /\ forall b, b ∈ out <-> b ∈ div \/ below queue b
  | (st', Err e) => e = ErrRPC /\ exists k, forall pt, net k <> Delivered pt
  | (st', Panic) => False
  end.
Proof using K1 K2 F1 F2 Ef Ed Hpeer.
  revert queue div st; induction fuel as [|fuel IH]; intros queue div st HP Hq Hm.
  { destruct queue as [|path queue]; cbn; [split; [done|]; split; [done|]; intros b; unfold below; naive_solver set_solver|].
    exfalso. apply Forall_cons in Hq as [[Hd Hl] _]. unfold measure in Hm. cbn in Hm. pose proof (len_nonneg path).
    destruct (Z.to_nat (depth T1 - len path)) as [|n] eqn:En; [lia|]. cbn in Hm. lia. }
  destruct queue as [|path queue]; cbn [findLoop].
  { split; [done|]. split; [done|]. intros b. unfold below. set_solver. }
  apply Forall_cons in Hq as [[Hd Hl] Hq]. destruct (ChildrenAt_ok T1 path K1 Hd Hl) as [-> L1]. fold f in L1 |- *.
  unfold query, rpc. destruct (net (rs_calls st)) as [|pt|pt] eqn:En; cbn -[GetAESubtree digest service uint32Path findLoop compareChildren].
  { split; [done|]. exists (rs_calls st). intros pt'. by rewrite En. }
  { split; [done|]. exists (rs_calls st). intros pt'. by rewrite En. }
  rewrite (Hpeer st path HP Hd Hl). destruct (ChildrenAt_ok T2 path K2) as [_ L2]; [by rewrite Ef|by rewrite Ed|]. rewrite Ef in L2. fold f in L2.
  rewrite L1, L2, Z.eqb_refl. cbn [negb]. destruct (compareChildren _ _ _ _ _) as [dv next] eqn:Ec.
  destruct (below_step path queue dv next Hd Hl Ec) as (Hnext & Hmn & Hb).
  match goal with |- context [findLoop Sum64 rc net now fuel T1 _ _ ?s'] => specialize (IH (queue ++ next) (div ++ dv) s') end.
  specialize (IH HP ltac:(by apply Forall_app)). unfold measure in IH, Hm, Hmn. rewrite sum_list_with_app in IH.
  pose proof (len_nonneg path). cbn [sum_list_with] in Hm. destruct (Z.to_nat (depth T1 - len path)) as [|n] eqn:Ed'; [lia|]. cbn in Hm, Hmn.
  rewrite Nat.sub_0_r in Hmn. specialize (IH ltac:(lia)). destruct (findLoop _ _ _ _ fuel _ _ _ _) as [st' [out| |]]; [|done..].
  destruct IH as (H1 & H2 & H3). split; [done|]. split; [done|]. intros b. rewrite H3, elem_of_app, (Hb b). tauto.
Qed.

Lemma find_exact st :
  no_collision -> rs_peer st = P ->
  match findDivergentBuckets Sum64 rc net now T1 st with
  | (st', Ok out) => rs_local st' = rs_local st /\ rs_peer st' = P /\
      forall b, b ∈ out <-> 0 <= b < NumLeaves T1 /\ leaves T1 !! Z.to_nat b <> leaves T2 !! Z.to_nat b
  | (st', Err e) => e = ErrRPC /\ exists k, forall pt, net k <> Delivered pt
  | (st', Panic) => False
  end.
Proof using K1 K2 F1 F2 Ef Ed Hpeer.
  intros Hc HP. unfold findDivergentBuckets. pose proof K1 as [H1 H2 H3 H4].
  match goal with |- context [findLoop _ _ _ _ ?fuel _ ?q ?dv ?s'] => pose proof (findQueue_spec fuel q dv s') as Hs end.
  assert (queue_ok [[]]) as Hq by (repeat constructor; change (len (@nil Z)) with 0; lia).
  specialize (Hs HP Hq). unfold measure in Hs. cbn [sum_list_with] in Hs. change (len (@nil Z)) with 0 in Hs. rewrite Z.sub_0_r in Hs.
  specialize (Hs ltac:(unfold f; lia)). destruct (findLoop _ _ _ _ _ _ _ _ _) as [st' [out| |]]; [|done..].
  destruct Hs as (E1 & E2 & Hb). split; [done|]. split; [done|]. intros b. rewrite Hb. unfold below.
  assert (NumLeaves T1 = f ^ depth T1) as En by (unfold NumLeaves, leaves; rewrite H4 by lia; rewrite Z2Nat.id by lia; done).
  split.
  - intros [[]%not_elem_of_nil|(path & suf & ->%list_elem_of_singleton & Hne & (Hds & Hl & Hpre) & ->)]. cbn [app] in *.
    rewrite En, <-Hl. split; [by apply pidx_range|]. destruct (leaf_node suf Hds Hl) as [<- <-]. by apply (Hpre suf).
  - intros [Hr Hdiff]. right. destruct (PathForBucket_spec T1 b K1 Hr) as (Hd & Hl & Hi). fold f in Hd, Hi.
    exists [], (PathForBucket T1 b). cbn [app]. split; [left|]. split; [intros E; rewrite E in Hl; change (len (@nil Z)) with 0 in Hl; lia|]. split; [|done].
    split; [done|]. split; [done|]. intros pre _ Hpre. apply (differs_prefix [] (PathForBucket T1 b)); cbn [app]; [done|done|lia| |done].
    unfold differs. destruct (leaf_node _ Hd Hl) as [-> ->]. by rewrite Hi.
Qed.
End find.

(** ** The descent against a peer's service *)
Section descent.
Context {S : Type} `{!KVStore S} (Sum64 : bytes -> Z) (rc : reconciler) (net : nat -> fate) (now : nat -> Z).

Lemma uint32Path_id f path : f < 2^32 -> digits_ok f path -> uint32Path path = path.
Proof.
  intros Hf Hd. unfold uint32Path. induction Hd as [|p path Hp Hd IH]; cbn; [done|]. rewrite IH, u32_small by lia. done.
Qed.

Lemma validateDigest_params (s : Service (S := S)) d d' other mm :
  validateDigest s (Some d) = Ok (d', other, mm) -> dFanout d' = dFanout d /\ dDepth d' = dDepth d /\ dCutoff d' = dCutoff d.
Proof.
  unfold validateDigest. destruct (_ || _); [done|]. destruct (_ || _); [done|]. destruct (bytes_Equal _ []); [done|].
  destruct (sv_ringVer s); intros [= <- _ _]; by destruct (dRF d <=? 0).
Qed.

(** The descent is exact.  When no two different lists of children of
    the two trees hash alike, the descent over a peer that answers from its tree
    ends with exactly the buckets whose leaves differ, never runs forever, and
    changes nothing; it fails only when a call fails. *)
Theorem descent_exact {E} (src : outcome E (list Entry)) (st : rstate S) T1 T2 d' other :
  let cfg := rc_cfg rc in
  AEFanout cfg < 2^32 -> BuildTree Sum64 src (dCutoff (digest rc now)) (AEFanout cfg) (AEDepth cfg) = Ok T1 ->
  validateDigest (service rc st) (Some (digest rc now)) = Ok (d', other, false) ->
  buildTreeFor Sum64 (service rc st) d' other = Ok T2 -> no_collision Sum64 T1 T2 ->
  match findDivergentBuckets Sum64 rc net now T1 st with
  | (st', Ok out) => rs_local st' = rs_local st /\ rs_peer st' = rs_peer st /\
      forall b, b ∈ out <-> 0 <= b < NumLeaves T1 /\ leaves T1 !! Z.to_nat b <> leaves T2 !! Z.to_nat b
  | (st', Err e) => e = ErrRPC /\ exists k, forall pt, net k <> Delivered pt
  | (st', Panic) => False
  end.
Proof.
  cbn zeta. intros Hf E1 Ev E2 Hc. destruct (validateDigest_params _ _ _ _ _ Ev) as (Pf & Pd & Pc).
  destruct (BuildTree_inv Sum64 src _ (AEFanout (rc_cfg rc)) _ T1 ltac:(lia) E1) as (t1 & es1 & _ & En1 & _ & _ & F1 & D1 & K1 & Z1 & _).
  assert (2 <= AEFanout (rc_cfg rc) /\ 1 <= AEDepth (rc_cfg rc) <= 8) as [Hf2 Hd8] by (rewrite <-F1, <-D1; by destruct K1).
  unfold digest in Pf, Pd. cbn in Pf, Pd. rewrite u32_small in Pf, Pd by lia. unfold buildTreeFor in E2. rewrite Pf, Pd in E2.
  destruct (BuildTree_inv Sum64 _ _ (AEFanout (rc_cfg rc)) _ T2 ltac:(lia) E2) as (t2 & es2 & _ & En2 & _ & _ & F2 & D2 & K2 & Z2 & _).
  apply (find_exact Sum64 T1 T2 K1 K2 Z1 Z2 ltac:(congruence) ltac:(congruence) rc net now (rs_peer st)); [|done|done].
  intros st' path HP Hd Hl. rewrite F1 in Hd. assert (service rc st' = service rc st) as -> by (unfold service; by rewrite HP).
  unfold GetAESubtree. rewrite Ev. cbn [mbind outcome_bind]. unfold buildTreeFor. rewrite Pf, Pd, E2.
  rewrite (uint32Path_id (AEFanout (rc_cfg rc))) by done. unfold intPath, Depth. rewrite (proj2 (Z.leb_gt _ _)) by lia.
  destruct (ChildrenAt_ok T2 path K2) as [-> _]; [by rewrite F2|lia|]. by rewrite F2, F1.
Qed.
End descent.

(** ** Batches at the peer *)
Section batch.
Context {S : Type} `{!KVStore S, !KVLaws S}.

Lemma encodeEntries_spec batch kvs :
  encodeEntries batch = Ok kvs ->
  kvs.*1 = map rqKey batch /\
  forall r, r ∈ batch -> exists t b, rqTimestamp r = Some t /\ EncodeEnvelope (mkEnvelope t (rqDeleted r) (rqValue r)) = Ok b /\ (rqKey r, b) ∈ kvs.
Proof.
  revert kvs; induction batch as [|r batch IH]; intros kvs; cbn [encodeEntries].
  - intros [= <-]. split; [done|]. intros r []%not_elem_of_nil.
  - destruct (rqTimestamp r) as [t|] eqn:Et; [|done]. rewrite protoToHLC_id. destruct (EncodeEnvelope _) as [b| |] eqn:Ee; [|done..].
    destruct (encodeEntries batch) as [rest| |]; [|done..]. intros [= <-]. destruct (IH rest eq_refl) as [H1 H2]. cbn. split; [by rewrite H1|].
    intros r' [->|Hr]%elem_of_cons; [exists t, b; split_and!; [done..|left]|].
    destruct (H2 r' Hr) as (t' & b' & ? & ? & ?). exists t', b'. split_and!; [done..|by right].
Qed.

Lemma ReplicateWriteBatch_ok pt batch p p' :
  NoDup (map rqKey batch) -> (forall r t, r ∈ batch -> rqTimestamp r = Some t -> ts_ok t) ->
  ReplicateWriteBatch pt batch (Some p) = (p', None) ->
  exists q, p' = Some q /\
    (forall r, r ∈ batch -> exists t, rqTimestamp r = Some t /\ holds_env (r_db q) (rqKey r) (env_norm (mkEnvelope t (rqDeleted r) (rqValue r)))) /\
    (forall u : bytes, u ∉ map rqKey batch -> contents (r_db q) !! u = contents (r_db p) !! u).
Proof.
  intros Hnd Ht. unfold ReplicateWriteBatch. destruct (maxTimestamp _ _) as [m| |]; [|done..]. destruct (Update _ _ _) as [clock [e|]]; [done|].
  destruct (encodeEntries batch) as [kvs| |] eqn:Ee; [|done..]. destruct (db_Batch kvs _) as [db|] eqn:Eb; [|done]. intros [= <-].
  apply encodeEntries_spec in Ee as [Ek Hr]. apply law_batch in Eb. exists (mkReplica clock db). split; [done|]. cbn. rewrite Eb. split.
  - intros r Hin. destruct (Hr r Hin) as (t & b & Et & En & Hb). exists t. split; [done|].
    apply EncodeEnvelope_inv in En as [-> Hn]. exists (NewValue (Some (env_bytes (mkEnvelope t (rqDeleted r) (rqValue r))))). split.
    + rewrite Eb. apply put_all_nodup; [by rewrite Ek|done].
    + apply Decode_env_bytes. split; [by apply (Ht r)|done].
  - intros u Hu. apply put_all_lookup. by rewrite Ek.
Qed.
End batch.

(** ** One bucket *)
Section bucket.
Context {S : Type} `{!KVStore S, !KVLaws S}.
Context (net : nat -> fate).
(** The stores at the start, and the keys of the bucket. *)
Context (l0 p0 : S) (K0 : list bytes).

Abbreviation ekeys es := (map EKey es).
Abbreviation peer_db st := (r_db (rs_peer st)).

(** Both sides hold the newer envelope of [k], or two of one timestamp. *)
Definition converged (L P : S) (k : bytes) : Prop :=
  exists el ep, holds_env L k el /\ holds_env P k ep /\ ETs el = ETs ep /\
    (holds_env l0 k el \/ holds_env p0 k el) /\ (holds_env l0 k ep \/ holds_env p0 k ep) /\
    forall e, holds_env l0 k e \/ holds_env p0 k e -> ts_le (ETs e) (ETs el).

Definition same_at (db db' : S) (k : bytes) : Prop := contents db !! k = contents db' !! k.
Lemma holds_same db db' k e : same_at db db' k -> holds_env db k e -> holds_env db' k e.
Proof. intros E (v & Hv & Hd). exists v. by rewrite <-E. Qed.

Lemma converged_same L P L' P' k : same_at L' L k -> same_at P' P k -> converged L P k -> converged L' P' k.
Proof.
  intros E1 E2 (el & ep & H1 & H2 & H). exists el, ep. split; [by eapply holds_same; [symmetry|]|]. split; [by eapply holds_same; [symmetry|]|done].
Qed.

Definition wins (env : Envelope) (k : bytes) (other : S) : Prop := forall e, holds_env other k e -> Less (ETs e) (ETs env) = true.

Record merge_inv (locals peers : list Entry) (batch : list ReplicateWriteRequest) (st : rstate S) : Prop := {
  mi_sortl : StronglySorted blt (ekeys locals);
  mi_sortp : StronglySorted blt (ekeys peers);
  mi_l : forall e, e ∈ locals -> exists env, holds_env l0 (EKey e) env /\ ETs env = ETimestamp e;
  mi_p : forall e, e ∈ peers -> exists env, holds_env p0 (EKey e) env /\ ETs env = ETimestamp e;
  mi_cross_l : forall k env, k ∈ ekeys locals -> holds_env p0 k env -> k ∈ ekeys peers;
  mi_cross_p : forall k env, k ∈ ekeys peers -> holds_env l0 k env -> k ∈ ekeys locals;
  mi_todo : forall k, k ∈ ekeys locals \/ k ∈ ekeys peers -> k ∈ K0 /\ same_at (rs_local st) l0 k /\ same_at (peer_db st) p0 k;
  mi_nodup : NoDup (map rqKey batch);
  mi_batch : forall r, r ∈ batch -> exists env, holds_env l0 (rqKey r) env /\ r = mkReq (rqKey r) (EVal env) (Some (ETs env)) (EDeleted env) /\
      wins env (rqKey r) p0 /\ same_at (rs_local st) l0 (rqKey r) /\ (rqKey r ∉ ekeys locals) /\ (rqKey r ∉ ekeys peers) /\ rqKey r ∈ K0;
  mi_all : forall k, k ∈ K0 -> k ∈ ekeys locals \/ k ∈ ekeys peers \/ k ∈ map rqKey batch \/ converged (rs_local st) (peer_db st) k;
  mi_frame : forall k, k ∉ K0 -> same_at (rs_local st) l0 k /\ same_at (peer_db st) p0 k
}.

Lemma holds_ok (db : S) k e : holds_env db k e -> env_ok e /\ env_norm e = e /\ key_ok k.
Proof.
  intros (v & Hv & E). destruct (DecodeEnvelope_ok _ _ E) as (H1 & H2 & _). split; [done|]. split; [done|]. by eapply law_keys.
Qed.

(** A pushed envelope that beats the peer's leaves the key converged. *)
Lemma batch_converged L P r env :
  holds_env l0 (rqKey r) env -> r = mkReq (rqKey r) (EVal env) (Some (ETs env)) (EDeleted env) ->
  wins env (rqKey r) p0 -> same_at L l0 (rqKey r) ->
  (exists t, rqTimestamp r = Some t /\ holds_env P (rqKey r) (env_norm (mkEnvelope t (rqDeleted r) (rqValue r)))) ->
  converged L P (rqKey r).
Proof.
  intros He Eq Hw Hs (t & Et & Hh). destruct (holds_ok _ _ _ He) as (_ & Hnorm & _).
  assert (env_norm (mkEnvelope t (rqDeleted r) (rqValue r)) = env) as Een.
  { rewrite Eq in Et |- *. injection Et as <-. rewrite <-Hnorm at 4. by destruct env. }
  rewrite Een in Hh. exists env, env. split_and!; [by eapply holds_same; [symmetry|]|done|done|by left|by left|].
  intros e [Hl|Hp]; [|by apply Less_ts_le, Hw]. rewrite (holds_env_fun _ _ _ _ Hl He). apply ts_le_refl.
Qed.

Lemma flushPush_ne batch st st' :
  batch <> [] -> flushPush net batch st = (st', Ok tt) ->
  exists pt s, net (rs_calls st) = Delivered pt /\ ReplicateWriteBatch pt batch (Some (rs_peer st)) = (s, None) /\
    st' = mkRS (rs_local st) (default (rs_peer st) s) (Datatypes.S (rs_calls st)).
Proof.
  intros Hne E. destruct batch as [|r batch]; [done|]. unfold flushPush, rpc in E. destruct (net (rs_calls st)) as [|pt|pt]; [done..|].
  destruct (ReplicateWriteBatch _ _ _) as [s [err|]] eqn:Er; [done|]. injection E as <-. eauto.
Qed.

Lemma flushPush_inv locals peers batch st st' :
  merge_inv locals peers batch st -> flushPush net batch st = (st', Ok tt) -> merge_inv locals peers [] st'.
Proof.
  intros Hi E. destruct (decide (length batch = 0%nat)) as [Hz|Hne].
  { destruct batch; [|done]. cbn in E. injection E as <-. exact Hi. }
  apply flushPush_ne in E as (pt & s & _ & Er & ->); [|by intros ->].
  pose proof Hi as [H1 H2 H3 H4 H5 H6 H7 H8 H9 H10 H11].
  assert (forall r t, r ∈ batch -> rqTimestamp r = Some t -> ts_ok t) as Hts.
  { intros r t Hr Et. destruct (H9 r Hr) as (env & He & Eq & _). rewrite Eq in Et. injection Et as <-. apply holds_ok in He as [[? _] _]. done. }
  apply ReplicateWriteBatch_ok in Er as (q & -> & Hq & Hfr); [|done..].
  assert (forall k, k ∈ map rqKey batch -> converged (rs_local st) (r_db q) k) as Hbc.
  { intros k (r & -> & Hr)%list_elem_of_fmap. destruct (H9 r Hr) as (env & He & Eq & Hw & Hsl & _). by apply (batch_converged _ _ r env), Hq. }
  assert (forall k : bytes, k ∉ map rqKey batch -> same_at (r_db q) (peer_db st) k) as Hne' by exact Hfr.
  split; cbn [rs_local rs_peer r_db default]; try done.
  - intros k Hk. destruct (H7 k Hk) as (Hk0 & E1 & E2). split; [done|]. split; [done|]. unfold same_at in *. rewrite Hne'; [done|].
    intros (r & -> & Hr)%list_elem_of_fmap. destruct (H9 r Hr) as (env & _ & _ & _ & _ & Hn1 & Hn2 & _). tauto.
  - constructor.
  - intros r []%not_elem_of_nil.
  - intros k Hk. destruct (decide (k ∈ map rqKey batch)) as [Hb|Hb]; [do 3 right; by apply Hbc|].
    destruct (H10 k Hk) as [?|[?|[?|Hc]]]; [by left|by right; left|done|]. do 3 right. by eapply converged_same; [| |apply Hc]; [|apply Hne'].
  - intros k Hk. destruct (H11 k Hk) as [E1 E2]. split; [done|]. unfold same_at in *. rewrite Hne'; [done|].
    intros (r & -> & Hr)%list_elem_of_fmap. destruct (H9 r Hr) as (env & _ & _ & _ & _ & _ & _ & Hin). done.
Qed.

(** [es'] is [es] without its entry of key [k], which is the first if there is one. *)
Definition drops (k : bytes) (es es' : list Entry) : Prop :=
  (es' = es \/ exists e, es = e :: es' /\ EKey e = k) /\ k ∉ ekeys es'.

Lemma drops_in k es es' x : drops k es es' -> x ∈ es' -> x ∈ es.
Proof. intros [[->|(e & -> & _)] _] Hx; [done|by right]. Qed.
Lemma drops_key k es es' u : drops k es es' -> u ∈ ekeys es' -> u ∈ ekeys es /\ u <> k.
Proof. intros [[->|(e & -> & <-)] Hk] Hu; (split; [|by intros ->]); [done|by right]. Qed.
Lemma drops_rest k es es' u : drops k es es' -> u ∈ ekeys es -> u <> k -> u ∈ ekeys es'.
Proof. intros [[->|(e & -> & <-)] Hk] Hu Hne; [done|]. by apply elem_of_cons in Hu as [?|]. Qed.
Lemma drops_sorted k es es' : drops k es es' -> StronglySorted blt (ekeys es) -> StronglySorted blt (ekeys es').
Proof. intros [[->|(e & -> & _)] _] Hs; [done|]. by apply StronglySorted_inv in Hs as []. Qed.
Lemma drops_head e es : StronglySorted blt (ekeys (e :: es)) -> drops (EKey e) (e :: es) es.
Proof.
  intros [_ Hf]%StronglySorted_inv. split; [right; by exists e|]. intros Hin. rewrite Forall_forall in Hf. by apply (blt_irrefl (EKey e)), Hf.
Qed.
Lemma drops_below k es : StronglySorted blt (ekeys es) -> (forall e, head es = Some e -> blt k (EKey e)) -> drops k es es.
Proof.
  intros Hs Hh. split; [by left|]. destruct es as [|e es]; [apply not_elem_of_nil|]. specialize (Hh e eq_refl). cbn in Hs |- *.
  apply StronglySorted_inv in Hs as [_ Hf]. rewrite Forall_forall in Hf. intros [->|Hin]%elem_of_cons; [by apply (blt_irrefl (EKey e))|].
  apply (blt_irrefl k). eapply blt_trans; [exact Hh|by apply Hf].
Qed.

Section step.
Context (locals locals' peers peers' : list Entry) (batch : list ReplicateWriteRequest) (st : rstate S) (k : bytes).
Hypothesis (Hi : merge_inv locals peers batch st) (Dl : drops k locals locals') (Dp : drops k peers peers').
Hypothesis (Hk : k ∈ ekeys locals \/ k ∈ ekeys peers).

Lemma step_fresh : k ∉ map rqKey batch.
Proof using Hi Hk.
  intros (r & E & Hr)%list_elem_of_fmap. destruct (mi_batch _ _ _ _ Hi r Hr) as (env & _ & _ & _ & _ & H1 & H2 & _). rewrite <-E in H1, H2. by destruct Hk.
Qed.

(** The key is settled and nothing else has changed. *)
Lemma step_settled st' :
  (forall u, u <> k -> same_at (rs_local st') (rs_local st) u) -> (forall u, u <> k -> same_at (peer_db st') (peer_db st) u) ->
  converged (rs_local st') (peer_db st') k -> merge_inv locals' peers' batch st'.
Proof using Hi Dl Dp Hk.
  intros Sl Sp Hc. pose proof step_fresh as Hfr. destruct Hi as [H1 H2 H3 H4 H5 H6 H7 H8 H9 H10 H11].
  assert (forall u, u <> k -> same_at (rs_local st) l0 u -> same_at (rs_local st') l0 u) as Tl.
  { intros u Hu E. unfold same_at in *. by rewrite Sl. }
  assert (forall u, u <> k -> same_at (peer_db st) p0 u -> same_at (peer_db st') p0 u) as Tp.
  { intros u Hu E. unfold same_at in *. by rewrite Sp. }
  split; try done.
  - by eapply drops_sorted.
  - by eapply drops_sorted.
  - intros e He. by apply H3, (drops_in _ _ _ _ Dl).
  - intros e He. by apply H4, (drops_in _ _ _ _ Dp).
  - intros u env Hu Hh. apply (drops_key _ _ _ _ Dl) in Hu as [Hu Hne]. apply (drops_rest _ _ _ _ Dp); [by eapply H5|done].
  - intros u env Hu Hh. apply (drops_key _ _ _ _ Dp) in Hu as [Hu Hne]. apply (drops_rest _ _ _ _ Dl); [by eapply H6|done].
  - intros u Hu. assert ((u ∈ ekeys locals \/ u ∈ ekeys peers) /\ u <> k) as [Hu' Hne].
    { destruct Hu as [Hu|Hu]; [apply (drops_key _ _ _ _ Dl) in Hu|apply (drops_key _ _ _ _ Dp) in Hu]; tauto. }
    destruct (H7 u Hu') as (? & ? & ?). auto.
  - intros r Hr. destruct (H9 r Hr) as (env & He & Eq & Hw & Hs & N1 & N2 & Hin). exists env. assert (rqKey r <> k) as Hne.
    { intros <-. apply Hfr. by apply list_elem_of_fmap_2. }
    split_and!; auto; intros Hu; [apply N1; by apply (drops_key _ _ _ _ Dl) in Hu as []|apply N2; by apply (drops_key _ _ _ _ Dp) in Hu as []].
  - intros u Hu. destruct (decide (u = k)) as [->|Hne]; [by do 3 right|].
    destruct (H10 u Hu) as [?|[?|[?|Hcu]]]; [left; by eapply drops_rest|right; left; by eapply drops_rest|by right; right; left|].
    do 3 right. apply (converged_same (rs_local st) (peer_db st)); auto.
  - intros u Hu. assert (u <> k) as Hne by (intros ->; apply Hu, (H7 k Hk)). destruct (H11 u Hu). auto.
Qed.

(** The key waits in the batch. *)
Lemma step_queued env :
  holds_env l0 k env -> wins env k p0 -> merge_inv locals' peers' (batch ++ [mkReq k (EVal env) (Some (ETs env)) (EDeleted env)]) st.
Proof using Hi Dl Dp Hk.
  intros He Hw. pose proof step_fresh as Hfr. pose proof Hi as [H1 H2 H3 H4 H5 H6 H7 H8 H9 H10 H11].
  destruct (H7 k Hk) as (Hk0 & Ekl & Ekp).
  split; try done.
  - by eapply drops_sorted.
  - by eapply drops_sorted.
  - intros e Hin. by apply H3, (drops_in _ _ _ _ Dl).
  - intros e Hin. by apply H4, (drops_in _ _ _ _ Dp).
  - intros u e Hu Hh. apply (drops_key _ _ _ _ Dl) in Hu as [Hu Hne]. apply (drops_rest _ _ _ _ Dp); [by eapply H5|done].
  - intros u e Hu Hh. apply (drops_key _ _ _ _ Dp) in Hu as [Hu Hne]. apply (drops_rest _ _ _ _ Dl); [by eapply H6|done].
  - intros u Hu. apply H7. destruct Hu as [Hu|Hu]; [left; by apply (drops_key _ _ _ _ Dl) in Hu as []|right; by apply (drops_key _ _ _ _ Dp) in Hu as []].
  - rewrite map_app. apply NoDup_app. split; [done|]. split; [|apply NoDup_singleton]. intros u Hu E%list_elem_of_singleton. by subst u.
  - intros r [Hr|Hr]%elem_of_app; [|apply list_elem_of_singleton in Hr as ->].
    + destruct (H9 r Hr) as (e & He' & Eq & Hw' & Hs & N1 & N2 & Hin). exists e.
      split_and!; auto; intros Hu; [apply N1; by apply (drops_key _ _ _ _ Dl) in Hu as []|apply N2; by apply (drops_key _ _ _ _ Dp) in Hu as []].
    + exists env. cbn. split_and!; [done..|by destruct Dl|by destruct Dp|done].
  - intros u Hu. rewrite map_app, elem_of_app. destruct (decide (u = k)) as [->|Hne]; [do 2 right; left; right; left|].
    destruct (H10 u Hu) as [?|[?|[?|Hcu]]]; [left; by eapply drops_rest|right; left; by eapply drops_rest|do 2 right; left; by left|by do 3 right].
Qed.

Lemma step_push env n st' batch' n' :
  holds_env l0 k env -> wins env k p0 -> pushLocal net k batch n st = (st', Ok (batch', n')) -> merge_inv locals' peers' batch' st'.
Proof using Hi Dl Dp Hk.
  intros He Hw. destruct (mi_todo _ _ _ _ Hi k Hk) as (_ & Ekl & _). pose proof (step_queued env He Hw) as Hq.
  destruct (holds_ok _ _ _ He) as (_ & _ & Hok). destruct (holds_same _ _ _ _ (eq_sym Ekl) He) as (v & Hv & Hd).
  unfold pushLocal. rewrite law_get, Hv, Hd by done. destruct (_ <=? _); [|by intros [= <- <- <-]].
  destruct (flushPush net _ st) as [st2 [[]| |]] eqn:Ef; [|done..]. intros [= <- <- <-]. by eapply flushPush_inv.
Qed.

Lemma step_pull env n st' n' :
  holds_env p0 k env -> wins env k l0 -> pullFromPeer net k n st = (st', Ok n') -> merge_inv locals' peers' batch st'.
Proof using Hi Dl Dp Hk.
  intros He Hw. destruct (mi_todo _ _ _ _ Hi k Hk) as (_ & Ekl & Ekp). destruct (holds_ok _ _ _ He) as ([Hts Hlen] & Hnorm & Hok).
  pose proof (holds_same _ _ _ _ (eq_sym Ekp) He) as Hp. unfold pullFromPeer, rpc. destruct (net (rs_calls st)) as [|pt|pt]; [done..|].
  unfold ReplicateRead. destruct (len k =? 0); [done|]. pose proof (readResponse_spec (peer_db st) k Hok) as Hr.
  destruct (readResponse (peer_db st) k) as [resp| |]; [|by exfalso; eapply Hr..].
  destruct Hr as [[_ Hn]|(e & Hh & ->)]; [destruct Hp as (v & Hv & _); congruence|].
  assert (e = env) as -> by (by eapply holds_env_fun). cbn [rsFound negb rsTimestamp rsDeleted rsValue]. change (protoToHLC (Some (ETs env))) with (protoToHLCTimestamp (ETs env)). rewrite protoToHLC_id.
  replace (mkEnvelope (ETs env) (EDeleted env) (EVal env)) with env by (by destruct env). cbn [rs_local rs_peer rs_calls].
  destruct (EncodeEnvelope env) as [b| |] eqn:Ee; [|done..]. destruct (db_Put k b (rs_local st)) as [db|] eqn:Ed; [|done].
  intros [= <- <-]. destruct (put_holds _ _ _ _ _ Hts Ee Ed) as [Hl Hfr]. rewrite Hnorm in Hl. apply step_settled; [exact Hfr|done|].
  exists env, env. cbn. split_and!; [done..|by right|by right|].
  intros e [Hl'|Hp']; [by apply Less_ts_le, Hw|]. rewrite (holds_env_fun _ _ _ _ Hp' He). apply ts_le_refl.
Qed.

Lemma step_equal el ep :
  holds_env l0 k el -> holds_env p0 k ep -> ETs el = ETs ep -> merge_inv locals' peers' batch st.
Proof using Hi Dl Dp Hk.
  intros Hl Hp E. destruct (mi_todo _ _ _ _ Hi k Hk) as (_ & Ekl & Ekp). apply step_settled; [done..|].
  exists el, ep. split_and!; [by eapply holds_same..|done|by left|by right|].
  intros e [H|H]; [rewrite (holds_env_fun _ _ _ _ H Hl)|rewrite (holds_env_fun _ _ _ _ H Hp), E]; apply ts_le_refl.
Qed.
End step.

Lemma merge_bucket_inv fuel budget locals peers perr batch n st st' batch' n' :
  merge_inv locals peers batch st -> mergeBuckets net fuel budget locals peers perr batch n st = (st', Ok (batch', n')) -> n' < budget ->
  merge_inv [] [] batch' st'.
Proof.
  revert locals peers batch n st. induction fuel as [|fuel IH]; intros locals peers batch n st Hi E Hb; cbn [mergeBuckets] in E.
  { destruct (Z.ltb_spec n budget); cbn in E; [done|]. injection E as <- <- <-. lia. }
  destruct (Z.ltb_spec n budget); cbn [negb] in E; [|injection E as <- <- <-; lia].
  pose proof (mi_sortl _ _ _ _ Hi) as Sl. pose proof (mi_sortp _ _ _ _ Hi) as Sp.
  assert (forall l ls, locals = l :: ls -> exists env, holds_env l0 (EKey l) env /\ ETs env = ETimestamp l) as Hl.
  { intros l ls ->. apply (mi_l _ _ _ _ Hi). left. }
  assert (forall p ps, peers = p :: ps -> exists env, holds_env p0 (EKey p) env /\ ETs env = ETimestamp p) as Hp.
  { intros p ps ->. apply (mi_p _ _ _ _ Hi). left. }
  (* an entry only one side lists wins against the other side *)
  assert (forall l ls env, locals = l :: ls -> drops (EKey l) peers peers -> wins env (EKey l) p0) as Wl.
  { intros l ls env -> [_ Hd] e He. exfalso. apply Hd. by apply (mi_cross_l _ _ _ _ Hi _ e); [left|]. }
  assert (forall p ps env, peers = p :: ps -> drops (EKey p) locals locals -> wins env (EKey p) l0) as Wp.
  { intros p ps env -> [_ Hd] e He. exfalso. apply Hd. by apply (mi_cross_p _ _ _ _ Hi _ e); [left|]. }
  destruct locals as [|l locals], peers as [|p peers].
  - destruct perr; [done|]. by injection E as <- <- <-.
  - destruct (pullFromPeer net (EKey p) n st) as [st2 [n2| |]] eqn:Ep; [|done..]. destruct (Hp p peers eq_refl) as (env & He & _).
    assert (drops (EKey p) [] []) as D by (by apply drops_below).
    eapply IH; [eapply (step_pull [] [] (p :: peers) peers); eauto using drops_head; right; left|exact E|done].
  - destruct perr; [done|]. destruct (pushLocal net (EKey l) batch n st) as [st2 [[b2 n2]| |]] eqn:Ep; [|done..]. destruct (Hl l locals eq_refl) as (env & He & _).
    assert (drops (EKey l) [] []) as D by (by apply drops_below).
    eapply IH; [eapply (step_push (l :: locals) locals [] []); eauto using drops_head; left; left|exact E|done].
  - destruct (Hl l locals eq_refl) as (el & Hel & Eel). destruct (Hp p peers eq_refl) as (ep & Hep & Eep).
    destruct (bytes_Compare (EKey l) (EKey p)) eqn:Ec.
    + apply bytes_Compare_eq in Ec. assert (drops (EKey p) (l :: locals) locals) as Dl by (rewrite <-Ec; by apply drops_head).
      pose proof (drops_head _ _ Sp) as Dp. assert (EKey p ∈ ekeys (l :: locals) \/ EKey p ∈ ekeys (p :: peers)) as Hin by (right; left).
      rewrite Ec in Hel. destruct (Less (ETimestamp l) (ETimestamp p)) eqn:L1; [|destruct (Less (ETimestamp p) (ETimestamp l)) eqn:L2].
      * destruct (pullFromPeer net (EKey p) n st) as [st2 [n2| |]] eqn:Ep; [|done..].
        eapply IH; [eapply (step_pull _ _ _ _ _ _ _ Hi Dl Dp Hin ep); eauto|exact E|done].
        intros e He. rewrite (holds_env_fun _ _ _ _ He Hel). congruence.
      * rewrite Ec in E. destruct (pushLocal net (EKey p) batch n st) as [st2 [[b2 n2]| |]] eqn:Ep; [|done..].
        eapply IH; [eapply (step_push _ _ _ _ _ _ _ Hi Dl Dp Hin el); eauto|exact E|done].
        intros e He. rewrite (holds_env_fun _ _ _ _ He Hep). congruence.
      * eapply IH; [eapply (step_equal _ _ _ _ _ _ _ Hi Dl Dp Hin el ep); eauto|exact E|done].
        rewrite Eel, Eep. destruct (Less_total (ETimestamp l) (ETimestamp p)) as [?|[?|?]]; congruence.
    + change (blt (EKey l) (EKey p)) in Ec. destruct (pushLocal net (EKey l) batch n st) as [st2 [[b2 n2]| |]] eqn:Ep; [|done..].
      assert (drops (EKey l) (p :: peers) (p :: peers)) as D by (apply drops_below; [done|by intros ? [= <-]]).
      eapply IH; [eapply (step_push (l :: locals) locals (p :: peers) (p :: peers)); eauto using drops_head; left; left|exact E|done].
    + apply bytes_Compare_Gt in Ec. destruct (pullFromPeer net (EKey p) n st) as [st2 [n2| |]] eqn:Ep; [|done..].
      assert (drops (EKey p) (l :: locals) (l :: locals)) as D by (apply drops_below; [done|by intros ? [= <-]]).
      eapply IH; [eapply (step_pull (l :: locals) (l :: locals) (p :: peers) peers); eauto using drops_head; right; left|exact E|done].
Qed.
End bucket.
