(* ===== verification/Round.v ===== *)
(** * A round of anti-entropy (src/cluster/antientropy/reconcile.go)

    The sources of both sides consider the same keys; a bucket that is reconciled
    within its budget leaves both replicas with the newer envelope of each of its
    keys; a whole round repairs every bucket in which the trees differ and changes
    nothing else.  The last theorem shows what the grace period breaks: an older
    value is pushed over a newer one that is still within it. *)

From Stdlib Require Import ZArith Lia List Sorted.
From stdpp Require Import base list option gmap sorting.
From S2P Require Import Prelude GoBytes KV Entries HLC Envelope KVStore Replica HashRing Coordinator MerkleTree Reconcile ReconcileProof.
Open Scope Z_scope.

(** ** The two sides consider the same keys *)
Lemma sawBoth_iff owners a b sa sb :
  a <> b -> (sawBoth owners a b sa sb = true <->
  (sa = true \/ exists o, o ∈ owners /\ HashRing.NodeID o = a) /\ (sb = true \/ exists o, o ∈ owners /\ HashRing.NodeID o = b)).
Proof.
  intros Hne. revert sa sb; induction owners as [|o owners IH]; intros sa sb; cbn [sawBoth].
  - rewrite andb_true_iff. set_solver.
  - unfold bytes_Equal. case_bool_decide as E1; [|case_bool_decide as E2]; rewrite IH; setoid_rewrite elem_of_cons; naive_solver.
Qed.

Lemma ShouldReconcile_sym Sum64 ring key a b n :
  a <> b -> ShouldReconcile Sum64 ring key a b n = ShouldReconcile Sum64 ring key b a n.
Proof.
  intros Hne. unfold ShouldReconcile. destruct ring as [r|]; [|done]. destruct (GetNodes _ _ _ _) as [owners|]; cbn; [|done]. f_equal.
  apply eq_iff_eq_true. rewrite !sawBoth_iff by done. tauto.
Qed.

Lemma sorted_filter_keys (P : Entry -> Prop) `{!forall e, Decision (P e)} es :
  StronglySorted blt (map EKey es) -> StronglySorted blt (map EKey (filter P es)).
Proof.
  induction es as [|e es IH]; intros Hs; [constructor|]. cbn in Hs. apply StronglySorted_inv in Hs as [Hs Hf].
  rewrite filter_cons. destruct (decide (P e)); [|auto]. cbn. constructor; [auto|]. rewrite Forall_forall in Hf |- *.
  intros u (x & -> & [_ Hx]%list_elem_of_filter)%list_elem_of_fmap. apply Hf. by apply list_elem_of_fmap_2.
Qed.

Section source.
Context {S : Type} `{!KVStore S, !KVLaws S} (Sum64 : bytes -> Z).

(** [e] describes the envelope [db] holds under its key. *)
Definition entry_of (db : S) (e : Entry) : Prop := exists env, holds_env db (EKey e) env /\ ETs env = ETimestamp e.

(** Drained without an error, a source lists the keys of the pair in key order,
    each with the timestamp of its envelope.  [P] are the keys whose values were
    all written as envelopes. *)
Lemma sourceLoop_spec ring a b n kvs es :
  StronglySorted key_lt kvs -> sourceLoop Sum64 ring a b n kvs = (es, false) ->
  StronglySorted blt (map EKey es) /\
  (forall e, e ∈ es -> ShouldReconcile Sum64 ring (EKey e) a b n = Some true /\
     exists val env, (EKey e, val) ∈ kvs /\ len (sl val) <> 0 /\ DecodeEnvelope (sl val) = Ok env /\ ETs env = ETimestamp e) /\
  (forall k val env, (k, val) ∈ kvs -> ShouldReconcile Sum64 ring k a b n = Some true -> DecodeEnvelope (sl val) = Ok env ->
     exists e, e ∈ es /\ EKey e = k /\ ETimestamp e = ETs env).
Proof.
  revert es; induction kvs as [|[k val] kvs IH]; intros es Hs; cbn [sourceLoop].
  { intros [= <-]. split; [constructor|]. split; [intros e []%not_elem_of_nil|intros ??? []%not_elem_of_nil]. }
  apply StronglySorted_inv in Hs as [Hs Hf]. rewrite Forall_forall in Hf.
  destruct (ShouldReconcile Sum64 ring k a b n) as [[]|] eqn:Er; [|..|done].
  2:{ intros E. destruct (IH es Hs E) as (H1 & H2 & H3). split; [done|]. split.
      - intros e He. destruct (H2 e He) as (? & v & env & ? & ?). split; [done|]. exists v, env. split; [by right|done].
      - intros k' v' env [[= -> ->]|Hin]%elem_of_cons Hk Hd; [congruence|by eapply H3]. }
  destruct (Z.eqb_spec (len (sl val)) 0) as [Hz|Hz].
  { intros E. destruct (IH es Hs E) as (H1 & H2 & H3). split; [done|]. split.
    - intros e He. destruct (H2 e He) as (? & v & env & ? & ?). split; [done|]. exists v, env. split; [by right|done].
    - intros k' v' env [[= -> ->]|Hin]%elem_of_cons Hk Hd; [|by eapply H3]. by rewrite (len_zero_nil _ Hz) in Hd. }
  destruct (DecodeEnvelope (sl val)) as [env| |] eqn:Ed; [|done..].
  destruct (sourceLoop _ _ _ _ _ kvs) as [es' err] eqn:E. intros [= <- ->]. destruct (IH es' Hs eq_refl) as (H1 & H2 & H3). split; [|split].
  - cbn. constructor; [done|]. apply Forall_forall. intros u (e & -> & He)%list_elem_of_fmap. destruct (H2 e He) as (_ & v & ? & Hin & _).
    apply (Hf _ Hin).
  - intros e [->|He]%elem_of_cons; [split; [done|]; exists val, env; split; [left|done]|].
    destruct (H2 e He) as (? & v & env' & ? & ?). split; [done|]. exists v, env'. split; [by right|done].
  - intros k' v' env' [[= -> ->]|Hin]%elem_of_cons Hk Hd.
    + assert (env' = env) as -> by congruence. eexists. split; [left|done].
    + destruct (H3 k' v' env' Hin Hk Hd) as (e & ? & ?). exists e. split; [by right|done].
Qed.

(** No LSM tombstone under the keys of [P]: the cluster writes envelopes only. *)
Definition puts_only (db : S) (P : bytes -> Prop) : Prop := forall (k : bytes) w, P k -> contents db !! k = Some w -> Tombstone w = false.

Lemma scan_holds db P k env :
  puts_only db P -> P k -> holds_env db k env <-> exists val, (k, val) ∈ db_Scan db /\ DecodeEnvelope (sl val) = Ok env.
Proof.
  intros Hp Hk. destruct (law_scan db) as [_ Hin]. split.
  - intros (w & Hw & Hd). exists (Data w). split; [|done]. apply Hin. split; [done|]. exists w. split; [done|]. unfold iter_value.
    by rewrite (Hp k w Hk Hw).
  - intros (val & (_ & w & Hw & ->)%Hin & Hd). exists w. split; [done|]. unfold iter_value in Hd. by rewrite (Hp k w Hk Hw) in Hd.
Qed.

(** The keys both nodes own that fall into [bucket]. *)
Definition pair_bucket (ring : option Ring) (a b : bytes) (n : Z) (t : Tree) (bucket : Z) (k : bytes) : Prop :=
  ShouldReconcile Sum64 ring k a b n = Some true /\ BucketFor Sum64 t k = bucket.

(** The entries of one bucket that are older than [cutoff]. *)
Lemma bucket_entries db ring a b n f d bucket cutoff es t :
  NewTree f d = Ok t -> BucketSource Sum64 db ring a b n f d bucket = Ok (es, false) ->
  puts_only db (pair_bucket ring a b n t bucket) ->
  let es' := filter (fun e => WallTime (ETimestamp e) < cutoff) es in
  StronglySorted blt (map EKey es') /\
  (forall e, e ∈ es' -> pair_bucket ring a b n t bucket (EKey e) /\ entry_of db e) /\
  (forall k env, pair_bucket ring a b n t bucket k -> holds_env db k env -> WallTime (ETs env) < cutoff -> k ∈ map EKey es').
Proof.
  intros Et. unfold BucketSource. rewrite Et. cbn [mbind outcome_bind]. destruct (_ || _); [done|].
  destruct (DBSource _ _ _ _ _ _) as [all err] eqn:Es. intros [= <- ->]. cbn zeta. intros Hp.
  destruct (sourceLoop_spec _ _ _ _ _ _ (proj1 (law_scan db)) Es) as (H1 & H2 & H3). split_and!.
  - by apply sorted_filter_keys, sorted_filter_keys.
  - intros e (_ & (Hb & He)%list_elem_of_filter)%list_elem_of_filter. destruct (H2 e He) as (Hr & val & env & Hin & _ & Hd & Ht).
    assert (pair_bucket ring a b n t bucket (EKey e)) as HP by done. split; [done|]. exists env. split; [|done]. apply (scan_holds db (pair_bucket ring a b n t bucket)); [done..|]. eauto.
  - intros k env HP Hh Hw. destruct (proj1 (scan_holds db _ k env Hp HP) Hh) as (val & Hin & Hd).
    destruct (H3 k val env Hin (proj1 HP) Hd) as (e & He & <- & Ht). apply list_elem_of_fmap_2. apply list_elem_of_filter. rewrite Ht. split; [done|].
    apply list_elem_of_filter. split; [apply HP|done].
Qed.
End source.

(** ** One bucket *)
(** The peer knows the ring and its version, and the parameters fit the wire format. *)
Record pair_ok (rc : reconciler) : Prop := {
  po_ring : rc_peerRing rc = rc_ring rc;
  po_ver : rc_peerVer rc = None \/ rc_peerVer rc = Some (rc_ringVersion rc);
  po_ne : rc_self rc <> rc_peer rc;
  po_named : rc_self rc <> [] /\ rc_peer rc <> [];
  po_rf : 0 < rc_RF rc < 2^31;
  po_tree : 2 <= AEFanout (rc_cfg rc) < 2^32 /\ 1 <= AEDepth (rc_cfg rc) <= 8
}.

Section round.
Context {S : Type} `{!KVStore S, !KVLaws S} (Sum64 : bytes -> Z).
Context (rc : reconciler) (net : nat -> fate) (cut : nat -> option nat) (now : nat -> Z) (Hrc : pair_ok rc).
Context (t : Tree) (Ht : NewTree (AEFanout (rc_cfg rc)) (AEDepth (rc_cfg rc)) = Ok t).

Abbreviation peer_db st := (r_db (rs_peer st)).

Lemma pair_digest (st : rstate S) : validateDigest (service rc st) (Some (digest rc now)) = Ok (digest rc now, rc_self rc, false).
Proof using Hrc.
  destruct Hrc as [H1 H2 H3 [H4 H4'] H5 [H6 H7]]. unfold validateDigest, digest, OtherFrom, service. cbn. rewrite !u32_small by lia.
  assert (i32 (rc_RF rc) = rc_RF rc) as -> by (unfold i32; rewrite Z.mod_small; lia).
  unfold bytes_Equal. rewrite (bool_decide_eq_false_2 _ H4), (bool_decide_eq_false_2 _ H4').
  rewrite (proj2 (Z.ltb_ge _ _)), (proj2 (Z.ltb_ge _ 1)), (proj2 (Z.leb_gt _ _)) by lia. cbn.
  rewrite (bool_decide_eq_false_2 (rc_peer rc = rc_self rc)), (bool_decide_eq_true_2 (rc_peer rc = rc_peer rc)) by congruence.
  rewrite (bool_decide_eq_false_2 _ H4).
  destruct H2 as [->| ->]; [done|]. by rewrite Z.eqb_refl.
Qed.

Definition in_bucket : Z -> bytes -> Prop := pair_bucket Sum64 (rc_ring rc) (rc_self rc) (rc_peer rc) (rc_RF rc) t.
Definition held (L P : S) (k : bytes) : Prop := exists env, holds_env L k env \/ holds_env P k env.
(** All envelopes of the bucket are older than both cutoffs. *)
Definition settled (L P : S) (b cutoff : Z) : Prop :=
  forall k env, in_bucket b k -> holds_env L k env \/ holds_env P k env -> WallTime (ETs env) < cutoff /\ WallTime (ETs env) < dCutoff (digest rc now).

Lemma in_bucket_sym b k :
  in_bucket b k <-> pair_bucket Sum64 (rc_peerRing rc) (rc_peer rc) (rc_self rc) (dRF (digest rc now)) t b k.
Proof using Hrc.
  destruct Hrc as [H1 H2 H3 H4 H5 _]. unfold in_bucket, pair_bucket. rewrite H1, ShouldReconcile_sym by done. unfold digest. cbn.
  assert (i32 (rc_RF rc) = rc_RF rc) as -> by (unfold i32; rewrite Z.mod_small; lia). done.
Qed.

(** The calls of the merge, whatever they return. *)
Section calls.
Context (Q : rstate S -> rstate S -> Prop).
Hypothesis (Qrefl : forall st, Q st st) (Qtrans : forall st st' st'', Q st st' -> Q st' st'' -> Q st st'').
Hypothesis (Qflush : forall batch st, Q st (flushPush net batch st).1).
Hypothesis (Qpull : forall k n st, Q st (pullFromPeer net k n st).1).

Lemma pushLocal_calls k batch n st : Q st (pushLocal net k batch n st).1.
Proof using Qrefl Qflush.
  unfold pushLocal. destruct (db_Get _ _) as [v|]; [|apply Qrefl]. destruct (DecodeEnvelope _) as [env| |]; [|apply Qrefl..].
  destruct (_ <=? _); [|apply Qrefl]. match goal with |- context [flushPush net ?b st] => specialize (Qflush b st); by destruct (flushPush net b st) end.
Qed.

Lemma mergeBuckets_calls fuel budget locals peers perr batch n st :
  Q st (mergeBuckets net fuel budget locals peers perr batch n st).1.
Proof using Qrefl Qtrans Qflush Qpull.
  revert locals peers batch n st; induction fuel as [|fuel IH]; intros locals peers batch n st; cbn [mergeBuckets];
    (destruct (negb _); [apply Qrefl|]); [apply Qrefl|].
  assert (forall k n st (K : rstate S -> Z -> rstate S * outcome RecErr (list ReplicateWriteRequest * Z)),
    (forall st' n', Q st' (K st' n').1) ->
    Q st (let '(st, r) := pullFromPeer net k n st in match r with Ok n => K st n | Err e => (st, Err e) | Panic => (st, Panic) end).1) as Hpull.
  { intros k n0 st0 K HK. specialize (Qpull k n0 st0). destruct (pullFromPeer net k n0 st0) as [st1 [n1| |]]; cbn in *; eauto. }
  assert (forall k b n st (K : rstate S -> list ReplicateWriteRequest -> Z -> rstate S * outcome RecErr (list ReplicateWriteRequest * Z)),
    (forall st' b' n', Q st' (K st' b' n').1) ->
    Q st (let '(st, r) := pushLocal net k b n st in match r with Ok (b, n) => K st b n | Err e => (st, Err e) | Panic => (st, Panic) end).1) as Hpush.
  { intros k b n0 st0 K HK. pose proof (pushLocal_calls k b n0 st0) as Hp. destruct (pushLocal net k b n0 st0) as [st1 [[b1 n1]| |]]; cbn in *; eauto. }
  destruct peers as [|p peers].
  { destruct perr; [by destruct locals|]. destruct locals as [|l locals]; [apply Qrefl|]. apply (Hpush _ _ _ _ (fun st b n => mergeBuckets net fuel budget locals [] false b n st)). auto. }
  destruct locals as [|l locals]; [apply (Hpull _ _ _ (fun st n => mergeBuckets net fuel budget [] peers perr batch n st)); auto|].
  destruct (bytes_Compare _ _); [destruct (Less _ _); [|destruct (Less _ _)]|..].
  - apply (Hpull _ _ _ (fun st n => mergeBuckets net fuel budget locals peers perr batch n st)); auto.
  - apply (Hpush _ _ _ _ (fun st b n => mergeBuckets net fuel budget locals peers perr b n st)); auto.
  - apply IH.
  - apply (Hpush _ _ _ _ (fun st b n => mergeBuckets net fuel budget locals (p :: peers) perr b n st)); auto.
  - apply (Hpull _ _ _ (fun st n => mergeBuckets net fuel budget (l :: locals) peers perr batch n st)); auto.
Qed.
End calls.

Lemma flushPush_res batch (st : rstate S) : (flushPush net batch st).2 <> Panic.
Proof. destruct batch as [|r batch]; [done|]. unfold flushPush. destruct (rpc net _ st) as [? [[]|]]; done. Qed.

Lemma pushLocal_res k batch n (st : rstate S) :
  match (pushLocal net k batch n st).2 with Ok (_, n') => n <= n' | Err _ => True | Panic => False end.
Proof.
  unfold pushLocal. destruct (db_Get _ _) as [v|]; [|cbn; lia]. destruct (DecodeEnvelope _) as [env| |]; [|done..].
  destruct (_ <=? _); [|cbn; lia].
  match goal with |- context [flushPush net ?b st] => pose proof (flushPush_res b st) as Hf; destruct (flushPush net b st) as [? [[]| |]] end; cbn in *; [lia|done..].
Qed.

Lemma pullFromPeer_res k n (st : rstate S) :
  match (pullFromPeer net k n st).2 with Ok n' => n <= n' | Err _ => True | Panic => False end.
Proof.
  unfold pullFromPeer. destruct (rpc net _ st) as [st' [[resp| |]|]]; [|done..]. destruct (negb _); [cbn; lia|].
  destruct (EncodeEnvelope _); [|done..]. destruct (db_Put _ _ _); [cbn; lia|done].
Qed.

(** The merge always ends; it counts up, and within the budget only when it saw
    the whole stream. *)
Lemma mergeBuckets_res fuel budget locals peers perr batch n (st : rstate S) :
  (length locals + length peers < fuel)%nat ->
  match (mergeBuckets net fuel budget locals peers perr batch n st).2 with
  | Ok (_, n') => n <= n' /\ (n' < budget -> perr = false) | Err _ => True | Panic => False end.
Proof.
  revert locals peers batch n st; induction fuel as [|fuel IH]; intros locals peers batch n st Hfuel; [lia|]. cbn [mergeBuckets].
  destruct (Z.ltb_spec n budget); cbn [negb]; [|cbn; lia].
  assert (forall locals peers k n st, (length locals + length peers < fuel)%nat ->
    match (let '(st, r) := pullFromPeer net k n st in match r with Ok n => mergeBuckets net fuel budget locals peers perr batch n st | Err e => (st, Err e) | Panic => (st, Panic) end).2 with
    | Ok (_, n') => n <= n' /\ (n' < budget -> perr = false) | Err _ => True | Panic => False end) as Hpull.
  { intros ls ps k n0 st0 Hf. pose proof (pullFromPeer_res k n0 st0) as Hr. destruct (pullFromPeer net k n0 st0) as [st1 [n1| |]]; cbn in Hr; [|done..].
    specialize (IH ls ps batch n1 st1 Hf). destruct (mergeBuckets _ _ _ _ _ _ _ _ _) as [? [[b2 n2]| |]]; cbn in *; [|done..]. split; [lia|tauto]. }
  assert (forall locals peers k n st, (length locals + length peers < fuel)%nat ->
    match (let '(st, r) := pushLocal net k batch n st in match r with Ok (batch, n) => mergeBuckets net fuel budget locals peers perr batch n st | Err e => (st, Err e) | Panic => (st, Panic) end).2 with
    | Ok (_, n') => n <= n' /\ (n' < budget -> perr = false) | Err _ => True | Panic => False end) as Hpush.
  { intros ls ps k n0 st0 Hf. pose proof (pushLocal_res k batch n0 st0) as Hr. destruct (pushLocal net k batch n0 st0) as [st1 [[b1 n1]| |]]; cbn in Hr; [|done..].
    specialize (IH ls ps b1 n1 st1 Hf). destruct (mergeBuckets _ _ _ _ _ _ _ _ _) as [? [[b2 n2]| |]]; cbn in *; [|done..]. split; [lia|tauto]. }
  destruct locals as [|l locals], peers as [|p peers]; cbn [length] in Hfuel.
  - destruct perr; cbn; [done|lia].
  - apply Hpull; cbn; lia.
  - destruct perr; [done|]. apply Hpush; cbn; lia.
  - destruct (bytes_Compare _ _); [destruct (Less _ _); [|destruct (Less _ _)]|..];
      [apply Hpull; lia|apply Hpush; lia|apply IH; lia|apply Hpush; cbn; lia|apply Hpull; cbn; lia].
Qed.

(** Repairs write envelopes only. *)
Definition puts_keep (Q : bytes -> Prop) (st st' : rstate S) : Prop :=
  (puts_only (rs_local st) Q -> puts_only (rs_local st') Q) /\ (puts_only (peer_db st) Q -> puts_only (peer_db st') Q).

Lemma puts_all (Q : bytes -> Prop) (kvs : list (bytes * bytes)) (m : gmap bytes Value) :
  (forall (k : bytes) w, Q k -> m !! k = Some w -> Tombstone w = false) -> forall (k : bytes) w, Q k -> put_all kvs m !! k = Some w -> Tombstone w = false.
Proof.
  revert m; induction kvs as [|kv kvs IH]; intros m Hm; [done|]. apply IH. intros k w Hk.
  destruct (decide (k = kv.1)) as [->|Hne]; [rewrite lookup_insert_eq; by intros [= <-]|rewrite lookup_insert_ne by done; by apply Hm].
Qed.

Lemma puts_rpc {A} Q (f : Z -> Replica S -> Replica S * A) st :
  (forall pt, puts_only (peer_db st) Q -> puts_only (r_db (f pt (rs_peer st)).1) Q) -> puts_keep Q st (rpc net f st).1.
Proof.
  intros Hf. unfold rpc, puts_keep, next_call. destruct (net (rs_calls st)) as [|pt|pt]; cbn; [done|by split; [|apply Hf]|].
  specialize (Hf pt). destruct (f pt (rs_peer st)); by split.
Qed.

Lemma puts_flush Q batch st : puts_keep Q st (flushPush net batch st).1.
Proof.
  destruct batch as [|r batch]; [done|]. unfold flushPush.
  match goal with |- context [rpc net ?f st] => pose proof (puts_rpc Q f st) as Hr; destruct (rpc net f st) as [st' x] end.
  apply Hr. intros pt. unfold ReplicateWriteBatch. destruct (maxTimestamp _ _); [|done..]. destruct (Update _ _ _) as [clock []]; [done|].
  destruct (encodeEntries _) as [kvs| |]; [|done..]. destruct (db_Batch kvs _) as [db|] eqn:Eb; [|done]. cbn. apply law_batch in Eb.
  unfold puts_only. rewrite Eb. apply puts_all.
Qed.

Lemma puts_pull Q k n st : puts_keep Q st (pullFromPeer net k n st).1.
Proof.
  unfold pullFromPeer.
  match goal with |- context [rpc net ?f st] => pose proof (puts_rpc Q f st ltac:(done)) as Hr; destruct (rpc net f st) as [st' x] end.
  cbn in Hr. destruct x as [[resp| |]|]; [|exact Hr..]. destruct (negb _); [exact Hr|]. destruct (EncodeEnvelope _) as [b| |]; [|exact Hr..].
  destruct (db_Put k b _) as [db|] eqn:Ed; [|exact Hr]. cbn. destruct Hr as [H1 H2]. split; [|exact H2]. cbn. intros Hp. specialize (H1 Hp).
  apply law_put in Ed. intros u w Hu. rewrite Ed. destruct (decide (u = k)) as [->|Hne]; [rewrite lookup_insert_eq; by intros [= <-]|].
  rewrite lookup_insert_ne by done. by apply H1.
Qed.

Lemma puts_merge Q fuel budget locals peers perr batch n st : puts_keep Q st (mergeBuckets net fuel budget locals peers perr batch n st).1.
Proof.
  apply (mergeBuckets_calls (puts_keep Q)); [done| |by apply puts_flush|by apply puts_pull].
  intros ??? [] []. split; auto.
Qed.

Lemma drain_entries (st : rstate S) b cutoff es :
  puts_only (rs_local st) (in_bucket b) -> drainLocalBucket Sum64 rc cutoff b st = Ok es ->
  StronglySorted blt (map EKey es) /\ (forall e, e ∈ es -> in_bucket b (EKey e) /\ entry_of (rs_local st) e) /\
  (forall k env, in_bucket b k -> holds_env (rs_local st) k env -> WallTime (ETs env) < cutoff -> k ∈ map EKey es).
Proof using Ht.
  intros Hp. unfold drainLocalBucket. destruct (BucketSource _ _ _ _ _ _ _ _ _) as [[all []]| |] eqn:E; [done| |done..]. intros [= <-].
  exact (bucket_entries Sum64 _ _ _ _ _ _ _ _ cutoff _ t Ht E Hp).
Qed.

Lemma leaf_entries (st : rstate S) b es :
  0 <= b < 2^32 -> puts_only (peer_db st) (in_bucket b) -> GetAELeafKeys Sum64 (service rc st) (Some (digest rc now)) (u32 b) = (es, false) ->
  StronglySorted blt (map EKey es) /\ (forall e, e ∈ es -> in_bucket b (EKey e) /\ entry_of (peer_db st) e) /\
  (forall k env, in_bucket b k -> holds_env (peer_db st) k env -> WallTime (ETs env) < dCutoff (digest rc now) -> k ∈ map EKey es).
Proof using Hrc Ht.
  intros Hb Hp. unfold GetAELeafKeys. rewrite pair_digest, u32_small by done. destruct (po_tree rc Hrc).
  change (dFanout (digest rc now)) with (u32 (AEFanout (rc_cfg rc))). change (dDepth (digest rc now)) with (u32 (AEDepth (rc_cfg rc))). rewrite !u32_small by lia.
  destruct (BucketSource _ _ _ _ _ _ _ _ _) as [[all err]| |] eqn:E; [|done..]. intros [= <- ->].
  destruct (bucket_entries Sum64 _ _ _ _ _ _ _ _ (dCutoff (digest rc now)) _ t Ht E) as (H1 & H2 & H3).
  { intros k w Hk. apply Hp. by apply in_bucket_sym. }
  split; [done|]. split; [intros e He; rewrite in_bucket_sym; by apply H2|]. intros k env Hk. apply H3. by apply in_bucket_sym.
Qed.

(** What has become of a key: unchanged on both sides, or converged. *)
Definition unchanged (L0 P0 L P : S) (k : bytes) : Prop := same_at L L0 k /\ same_at P P0 k.
Definition tracks (L0 P0 L P : S) (k : bytes) : Prop := unchanged L0 P0 L P k \/ converged L0 P0 L P k.

Lemma holds_unchanged L0 P0 L P k env :
  unchanged L0 P0 L P k -> (holds_env L k env <-> holds_env L0 k env) /\ (holds_env P k env <-> holds_env P0 k env).
Proof. intros [E1 E2]. split; split; apply holds_same; done. Qed.

Lemma tracks_source L0 P0 L P k env :
  tracks L0 P0 L P k -> holds_env L k env \/ holds_env P k env -> holds_env L0 k env \/ holds_env P0 k env.
Proof.
  intros [Hu|(el & ep & Hl & Hp & _ & Sl & Sp & _)].
  - by destruct (holds_unchanged _ _ _ _ _ env Hu) as [-> ->].
  - intros [H|H]; [by rewrite (holds_env_fun _ _ _ _ H Hl)|by rewrite (holds_env_fun _ _ _ _ H Hp)].
Qed.

Lemma tracks_held L0 P0 L P k : tracks L0 P0 L P k -> held L0 P0 k -> held L P k.
Proof.
  intros [Hu|(el & ep & Hl & _)] [env He]; [|exists el; by left]. exists env. by destruct (holds_unchanged _ _ _ _ _ env Hu) as [-> ->].
Qed.

Lemma converged_trans L0 P0 L P L' P' k : tracks L0 P0 L P k -> converged L P L' P' k -> converged L0 P0 L' P' k.
Proof.
  intros Htr (el & ep & Hl & Hp & E & Sl & Sp & Hmax). exists el, ep.
  split_and!; [done..|by eapply tracks_source|by eapply tracks_source|].
  intros e He. destruct Htr as [Hu|(el0 & ep0 & Hl0 & _ & _ & _ & _ & Hm0)].
  - apply Hmax. by destruct (holds_unchanged _ _ _ _ _ e Hu) as [-> ->].
  - eapply ts_le_trans; [by apply Hm0|]. apply Hmax. by left.
Qed.

Lemma unchanged_trans L0 P0 L P L' P' k : unchanged L0 P0 L P k -> unchanged L P L' P' k -> unchanged L0 P0 L' P' k.
Proof. unfold unchanged, same_at. intros [-> ->]. done. Qed.
Lemma converged_unchanged L0 P0 L P L' P' k : converged L0 P0 L P k -> unchanged L P L' P' k -> converged L0 P0 L' P' k.
Proof. intros Hc [E1 E2]. by eapply converged_same. Qed.

Lemma merge_start (st st' : rstate S) b cutoff locals peers :
  rs_local st' = rs_local st -> rs_peer st' = rs_peer st -> settled (rs_local st) (peer_db st) b cutoff ->
  StronglySorted blt (map EKey locals) /\ (forall e, e ∈ locals -> in_bucket b (EKey e) /\ entry_of (rs_local st) e) /\
    (forall k env, in_bucket b k -> holds_env (rs_local st) k env -> WallTime (ETs env) < cutoff -> k ∈ map EKey locals) ->
  StronglySorted blt (map EKey peers) /\ (forall e, e ∈ peers -> in_bucket b (EKey e) /\ entry_of (peer_db st) e) /\
    (forall k env, in_bucket b k -> holds_env (peer_db st) k env -> WallTime (ETs env) < dCutoff (digest rc now) -> k ∈ map EKey peers) ->
  merge_inv (rs_local st) (peer_db st) (map EKey locals ++ map EKey peers) locals peers [] st'.
Proof.
  intros El Ep Hset (L1 & L2 & L3) (P1 & P2 & P3). split; try done.
  - intros e He. by apply L2.
  - intros e He. by apply P2.
  - intros k env (e & -> & He)%list_elem_of_fmap Hh. destruct (L2 e He) as [Hb _]. apply (P3 _ env); [done..|]. apply (Hset (EKey e) env); auto.
  - intros k env (e & -> & He)%list_elem_of_fmap Hh. destruct (P2 e He) as [Hb _]. apply (L3 _ env); [done..|]. apply (Hset (EKey e) env); auto.
  - intros k Hk. rewrite elem_of_app, El, Ep. done.
  - constructor.
  - intros r []%not_elem_of_nil.
  - intros k [?|?]%elem_of_app; auto.
  - intros k _. by rewrite El, Ep.
Qed.

(** A bucket reconciled within its budget: its keys converge, no other changes. *)
Lemma reconcileBucket_spec b budget cutoff (st st' : rstate S) n :
  0 <= b < 2^32 -> puts_only (rs_local st) (in_bucket b) -> puts_only (peer_db st) (in_bucket b) -> settled (rs_local st) (peer_db st) b cutoff ->
  reconcileBucket Sum64 rc net cut now b budget cutoff st = (st', Ok n) -> n < budget ->
  forall k, (in_bucket b k -> held (rs_local st) (peer_db st) k -> converged (rs_local st) (peer_db st) (rs_local st') (peer_db st') k) /\
    (~ (in_bucket b k /\ held (rs_local st) (peer_db st) k) -> unchanged (rs_local st) (peer_db st) (rs_local st') (peer_db st') k).
Proof using Hrc Ht.
  intros Hb HpL HpP Hset E Hn. unfold reconcileBucket in E. destruct (Z.leb_spec budget 0); [injection E as <- <-; lia|].
  destruct (drainLocalBucket Sum64 rc cutoff b st) as [locals| |] eqn:Ed; [|done..]. apply (drain_entries st b) in Ed; [|done].
  unfold rpc in E. destruct (net (rs_calls st)) as [|pt|pt]; [done..|]. cbn -[GetAELeafKeys mergeBuckets service] in E.
  destruct (GetAELeafKeys _ _ _ _) as [es err] eqn:Eg.
  set (es' := match cut (rs_calls st) with Some m => (take m es, true) | None => (es, err) end) in E.
  destruct es' as [peers perr] eqn:Ee. unfold es' in Ee.
  match type of E with context [mergeBuckets net ?fu budget locals peers perr ?ba ?n0 ?s1] =>
    pose proof (mergeBuckets_res fu budget locals peers perr ba n0 s1 ltac:(lia)) as Hres;
    destruct (mergeBuckets net fu budget locals peers perr ba n0 s1) as [st2 [[batch n2]| |]] eqn:Em; [|done..] end.
  destruct (flushPush net batch st2) as [st3 [[]| |]] eqn:Ef; [|done..]. injection E as <- <-. cbn in Hres. destruct Hres as [_ Hperr]. specialize (Hperr Hn). subst perr.
  destruct (cut (rs_calls st)); [done|]. injection Ee as -> ->. apply (leaf_entries st b) in Eg; [|done..].
  eapply (merge_bucket_inv net (rs_local st) (peer_db st)) in Em; [|by eapply merge_start|done]. eapply flushPush_inv in Ef; [|exact Em].
  pose proof (mi_all _ _ _ _ _ _ _ Ef) as Hall. pose proof (mi_frame _ _ _ _ _ _ _ Ef) as Hfr.
  intros k. split.
  - intros Hk [env He]. destruct (Hset k env Hk He) as [Hc1 Hc2]. destruct (Hall k) as [[]%not_elem_of_nil|[[]%not_elem_of_nil|[[]%not_elem_of_nil|Hc]]]; [|done].
    apply elem_of_app. destruct He as [He|He]; [left; by apply (proj2 (proj2 Ed) k env)|right; by apply (proj2 (proj2 Eg) k env)].
  - intros Hk. apply Hfr. intros [(e & -> & He)%list_elem_of_fmap|(e & -> & He)%list_elem_of_fmap]%elem_of_app; apply Hk.
    + destruct (proj1 (proj2 Ed) e He) as [? (env & ? & _)]. split; [done|]. exists env. by left.
    + destruct (proj1 (proj2 Eg) e He) as [? (env & ? & _)]. split; [done|]. exists env. by right.
Qed.

Lemma reconcileBucket_res b budget cutoff (st : rstate S) :
  match (reconcileBucket Sum64 rc net cut now b budget cutoff st).2 with Ok n => 0 <= n | Err _ => True | Panic => False end.
Proof.
  unfold reconcileBucket. destruct (_ <=? _); [done|]. destruct (drainLocalBucket _ _ _ _ _) as [locals| |] eqn:Ed; [|done|].
  2:{ unfold drainLocalBucket in Ed. by destruct (BucketSource _ _ _ _ _ _ _ _ _) as [[? []]| |]. }
  destruct (rpc net _ st) as [st1 [[es err]|]]; [|done].
  destruct (match cut (rs_calls st) with Some m => (take m es, true) | None => (es, err) end) as [peers perr].
  match goal with |- context [mergeBuckets net ?fu budget locals peers perr ?ba ?n0 ?s1] =>
    pose proof (mergeBuckets_res fu budget locals peers perr ba n0 s1 ltac:(lia)) as Hres;
    destruct (mergeBuckets net fu budget locals peers perr ba n0 s1) as [st2 [[batch n2]| |]]; [|done..] end.
  pose proof (flushPush_res batch st2). destruct (flushPush net batch st2) as [st3 [[]| |]]; cbn in *; [lia|done..].
Qed.

Lemma puts_bucket Q b budget cutoff (st : rstate S) : puts_keep Q st (reconcileBucket Sum64 rc net cut now b budget cutoff st).1.
Proof.
  unfold reconcileBucket. destruct (_ <=? _); [done|]. destruct (drainLocalBucket _ _ _ _ _) as [locals| |]; [|done..].
  match goal with |- context [rpc net ?f st] => pose proof (puts_rpc Q f st ltac:(done)) as H0; destruct (rpc net f st) as [st1 [[es err]|]] end; [|done].
  destruct (match cut (rs_calls st) with Some m => (take m es, true) | None => (es, err) end) as [peers perr].
  match goal with |- context [mergeBuckets net ?fu budget locals peers perr ?ba ?n0 ?s1] =>
    pose proof (puts_merge Q fu budget locals peers perr ba n0 s1) as H1; destruct (mergeBuckets net fu budget locals peers perr ba n0 s1) as [st2 [[batch n2]| |]] end.
  2,3: cbn in *; destruct H0, H1; split; auto.
  pose proof (puts_flush Q batch st2) as H2. destruct (flushPush net batch st2) as [st3 ?]. cbn in *. destruct H0, H1, H2; split; auto.
Qed.

(** ** The buckets of a round *)
Definition owned (k : bytes) : Prop := ShouldReconcile Sum64 (rc_ring rc) k (rc_self rc) (rc_peer rc) (rc_RF rc) = Some true.
(** Every envelope of the pair is older than the grace period whenever the round looks. *)
Definition quiet (L P : S) : Prop :=
  forall k env j, owned k -> holds_env L k env \/ holds_env P k env -> WallTime (ETs env) < now j - GracePeriod (rc_cfg rc).

Lemma reconcileAll_res buckets j n (st : rstate S) :
  match (reconcileAll Sum64 rc net cut now buckets j n st).2 with Ok n' => n <= n' | Err _ => True | Panic => False end.
Proof.
  revert j n st; induction buckets as [|b buckets IH]; intros j n st; cbn [reconcileAll]; [cbn; lia|]. destruct (_ <=? _); [cbn; lia|].
  match goal with |- context [reconcileBucket _ _ _ _ _ ?b ?bu ?c st] => pose proof (reconcileBucket_res b bu c st) as Hr;
    destruct (reconcileBucket _ _ _ _ _ b bu c st) as [st1 [m| |]] end; cbn in Hr; [|done..].
  specialize (IH (Datatypes.S j) (n + m) st1). destruct (reconcileAll _ _ _ _ _ _ _ _ _) as [? [n'| |]]; cbn in *; [lia|done..].
Qed.

Lemma reconcileAll_spec (L0 P0 : S) buckets j n (st st' : rstate S) n' :
  Forall (fun b => 0 <= b < 2^32) buckets -> quiet L0 P0 ->
  puts_only (rs_local st) owned -> puts_only (peer_db st) owned -> (forall k, tracks L0 P0 (rs_local st) (peer_db st) k) ->
  reconcileAll Sum64 rc net cut now buckets j n st = (st', Ok n') -> n' < MaxRepairPerRound (rc_cfg rc) ->
  forall k, (owned k -> held L0 P0 k -> BucketFor Sum64 t k ∈ buckets -> converged L0 P0 (rs_local st') (peer_db st') k) /\
    (converged L0 P0 (rs_local st) (peer_db st) k -> converged L0 P0 (rs_local st') (peer_db st') k) /\
    (~ (owned k /\ BucketFor Sum64 t k ∈ buckets) -> unchanged (rs_local st) (peer_db st) (rs_local st') (peer_db st') k).
Proof using Hrc Ht.
  revert j n st; induction buckets as [|b buckets IH]; intros j n st Hbs Hq HpL HpP Htr E Hn k; cbn [reconcileAll] in E.
  { injection E as <- <-. split; [by intros _ _ []%not_elem_of_nil|]. split; [done|]. by split. }
  destruct (Z.leb_spec (MaxRepairPerRound (rc_cfg rc)) n); [injection E as <- <-; lia|].
  pose proof (puts_bucket owned b (MaxRepairPerRound (rc_cfg rc) - n) (now j - GracePeriod (rc_cfg rc)) st) as Hpk.
  destruct (reconcileBucket _ _ _ _ _ b _ _ st) as [st1 [m| |]] eqn:Eb; [|done..]. cbn in Hpk.
  pose proof (reconcileAll_res buckets (Datatypes.S j) (n + m) st1) as Hres. rewrite E in Hres. cbn in Hres.
  apply Forall_cons in Hbs as [Hb Hbs].
  assert (settled (rs_local st) (peer_db st) b (now j - GracePeriod (rc_cfg rc))) as Hset.
  { intros u env [Hu _] He. apply (tracks_source _ _ _ _ _ _ (Htr u)) in He. split; by apply (Hq u env). }
  pose proof (reconcileBucket_spec b _ _ st st1 m Hb ltac:(by intros u w [Hu _]; apply HpL) ltac:(by intros u w [Hu _]; apply HpP) Hset Eb ltac:(lia)) as Hspec.
  clear Eb.
  assert (forall u, tracks (rs_local st) (peer_db st) (rs_local st1) (peer_db st1) u) as Hone.
  { intros u. destruct (Hspec u) as [H1 H2]. destruct (decide (BucketFor Sum64 t u = b)) as [Eb|Eb]; [|left; apply H2; by intros [[_ ?] _]].
    destruct (decide (ShouldReconcile Sum64 (rc_ring rc) u (rc_self rc) (rc_peer rc) (rc_RF rc) = Some true)) as [Eo|Eo]; [|left; apply H2; by intros [[? _] _]].
    destruct (contents (rs_local st) !! u) as [w|] eqn:Ew; [destruct (DecodeEnvelope (sl (Data w))) as [env| |] eqn:Ed|].
    { right. apply H1; [done|]. exists env. left. by exists w. }
    all: destruct (contents (peer_db st) !! u) as [w'|] eqn:Ew'; [destruct (DecodeEnvelope (sl (Data w'))) as [env'| |] eqn:Ed'|].
    all: try (right; apply H1; [done|]; exists env'; right; by exists w').
    all: left; apply H2; intros [_ [env0 [(x & Hx & Hd)|(x & Hx & Hd)]]]; congruence. }
  assert (forall u, tracks L0 P0 (rs_local st1) (peer_db st1) u) as Htr1.
  { intros u. destruct (Hone u) as [Hu|Hc]; [|right; by eapply converged_trans].
    destruct (Htr u) as [Hu0|Hc0]; [left; by eapply unchanged_trans|right; by eapply converged_unchanged]. }
  destruct (IH (Datatypes.S j) (n + m) st1 Hbs Hq (proj1 Hpk HpL) (proj2 Hpk HpP) Htr1 E Hn k) as (I1 & I2 & I3).
  destruct (Hspec k) as [S1 S2].
  split_and!.
  - intros Ho Hh [Eb|Hin]%elem_of_cons; [|auto]. apply I2. eapply converged_trans; [apply Htr|]. apply S1; [by split|]. by eapply tracks_held.
  - intros Hc. apply I2. destruct (Hone k) as [Hu|Hc1]; [by eapply converged_unchanged|by eapply converged_trans].
  - intros Hk. eapply unchanged_trans; [apply S2|apply I3]; intros Hx; apply Hk.
    + destruct Hx as [[Hx1 Hx2] _]. split; [done|]. rewrite Hx2. left.
    + destruct Hx. split; [done|by right].
Qed.
End round.

(** ** A whole round *)
Section run.
Context {S : Type} `{!KVStore S, !KVLaws S} (Sum64 : bytes -> Z).
Context (rc : reconciler) (net : nat -> fate) (cut : nat -> option nat) (now : nat -> Z).
Abbreviation peer_db st := (r_db (rs_peer st)).

(** The trees the two sides build at the start of the round. *)
Definition local_tree (st : rstate S) : outcome TreeErr Tree :=
  BuildTree Sum64 (source_outcome (DBSource Sum64 (rs_local st) (rc_ring rc) (rc_self rc) (rc_peer rc) (rc_RF rc)))
    (dCutoff (digest rc now)) (AEFanout (rc_cfg rc)) (AEDepth (rc_cfg rc)).
Definition peer_tree (st : rstate S) : outcome TreeErr Tree :=
  buildTreeFor Sum64 (service rc st) (digest rc now) (rc_self rc).

(** The leaves of the bucket of [k] differ. *)
Definition diverged (T1 T2 : Tree) (k : bytes) : Prop :=
  leaves T1 !! Z.to_nat (BucketFor Sum64 T1 k) <> leaves T2 !! Z.to_nat (BucketFor Sum64 T1 k).

Lemma Root_node T h : Root T = Ok h -> level T 0 !! 0%nat = Some h.
Proof. unfold Root, index. destruct (_ && _); [|done]. change (Z.to_nat 0) with 0%nat. by destruct (level T 0 !! 0%nat); [intros [= <-]|]. Qed.

Lemma query_reads {A} (q : rstate S -> outcome AECode A) st st' r :
  query net q st = (st', r) -> rs_local st' = rs_local st /\ rs_peer st' = rs_peer st /\ forall a, r = Ok a -> q st = Ok a.
Proof.
  unfold query, rpc. destruct (net (rs_calls st)); intros [= <- <-]; cbn; (split; [done|]; split; [done|]); try done.
  intros a. by destruct (q st) as [?| |]; intros [= <-].
Qed.

(** The children to visit next are valid paths, at most [fanout] of them. *)
Lemma compareChildren_next T path ls ps div next :
  digits_ok (fanout T) path -> len path < depth T -> len ls = fanout T -> length ls = length ps ->
  compareChildren T path 0 ls ps = (div, next) ->
  queue_ok T next /\ (measure T next <= Z.to_nat (fanout T) * subtreeNodes (Z.to_nat (depth T - len path) - 1) (Z.to_nat (fanout T)))%nat.
Proof.
  intros Hd Hl El Hlen E. apply compareChildren_spec in E as (_ & Hn & Hle); [|done].
  assert (forall q, q ∈ next -> exists k, (k < length ls)%nat /\ q = path ++ [Z.of_nat k] /\ len path + 1 <> depth T) as Hq.
  { intros q (Hne & k & l & p & Hk & _ & _ & ->)%Hn. exists k. by apply lookup_lt_Some in Hk. }
  split.
  - apply Forall_forall. intros q (k & Hk & -> & Hne)%Hq. rewrite len_app. change (len [Z.of_nat k]) with 1. unfold len in *.
    split; [|lia]. apply Forall_app. split; [done|]. repeat constructor; lia.
  - unfold measure. etrans; [|apply Nat.mul_le_mono_r; rewrite <-El; unfold len; rewrite Nat2Z.id; exact Hle]. clear Hn Hle. induction next as [|q next IH]; cbn; [lia|].
    destruct (Hq q ltac:(left)) as (k & _ & -> & _). rewrite len_app. change (len [Z.of_nat k]) with 1.
    replace (Z.to_nat (depth T - (len path + 1))) with (Z.to_nat (depth T - len path) - 1)%nat by lia. apply Nat.add_le_mono_l, IH. intros q' Hq'. apply Hq. by right.
Qed.

Lemma findLoop_total T fuel queue div (st : rstate S) :
  tree_ok T -> queue_ok T queue -> (measure T queue <= fuel)%nat -> (findLoop Sum64 rc net now fuel T queue div st).2 <> Panic.
Proof.
  intros HT. revert queue div st; induction fuel as [|fuel IH]; intros [|path queue] div st Hq Hm; cbn [findLoop]; [done| |done|].
  all: apply Forall_cons in Hq as [[Hd Hl] Hq]; unfold measure in Hm; cbn [sum_list_with] in Hm;
    (destruct (Z.to_nat (depth T - len path)) as [|m] eqn:Em; [lia|]); cbn [subtreeNodes] in Hm.
  { lia. }
  destruct (ChildrenAt_ok T path HT Hd Hl) as [-> Lc]. destruct (query net _ st) as [st1 r] eqn:Eq.
  assert (r <> Panic) as Hr by (unfold query in Eq; destruct (rpc net _ st) as [? [[]|]]; by injection Eq as <- <-).
  destruct r as [[ps|]| |]; [|done..]. destruct (Z.eqb_spec (len ps) (len (children T (length path) (pidx (fanout T) path)))) as [Ep|Ep]; cbn [negb]; [|done].
  destruct (compareChildren _ _ _ _ _) as [dv next] eqn:Ec. apply compareChildren_next in Ec as [Hok Hmn]; [|done..|unfold len in Ep; lia].
  rewrite Em in Hmn. cbn in Hmn. rewrite Nat.sub_0_r in Hmn. apply IH; [by apply Forall_app|]. unfold measure in *. rewrite sum_list_with_app. lia.
Qed.

(** C23: A round always ends: whatever calls fail and whatever the peer answers, the
    descent visits at most the nodes of the tree and each turn of a merge consumes
    an entry. *)
Theorem round_terminates st : AEFanout (rc_cfg rc) < 2^32 -> (Run Sum64 rc net cut now st).2 <> Panic.
Proof.
  intros Hf. unfold Run. fold (local_tree st). destruct (local_tree st) as [T| |] eqn:ET; [|done..].
  destruct (BuildTree_inv Sum64 _ _ (AEFanout (rc_cfg rc)) _ T ltac:(lia) ET) as (t & es & _ & _ & _ & _ & F1 & D1 & K1 & _).
  destruct (query net _ st) as [st1 r] eqn:Eq.
  assert (r <> Panic) as Hr by (unfold query in Eq; destruct (rpc net _ st) as [? [[]|]]; by injection Eq as <- <-).
  destruct r as [[h|]| |]; [|done..].
  assert (exists h, Root T = Ok h) as [h' ->].
  { pose proof (tk_level _ K1 0 ltac:(lia)) as H0. destruct (level T 0) as [|x l] eqn:El; [done|]. exists x. unfold Root. by rewrite El. }
  destruct (h =? h'); [done|]. destruct (findDivergentBuckets Sum64 rc net now T st1) as [st2 r2] eqn:Efd.
  assert (r2 <> Panic) as Hr2.
  { pose proof (findLoop_total T (subtreeNodes (Z.to_nat (depth T)) (Z.to_nat (fanout T))) [[]] [] st1 K1) as Ht.
    unfold findDivergentBuckets in Efd. rewrite Efd in Ht. apply Ht.
    - repeat constructor. pose proof (tk_depth _ K1). change (len (@nil Z)) with 0. lia.
    - unfold measure. cbn [sum_list_with]. change (len (@nil Z)) with 0. rewrite Z.sub_0_r. lia. }
  destruct r2 as [buckets| |]; [|done..]. pose proof (reconcileAll_res Sum64 rc net cut now buckets 1 0 st2).
  by destruct (reconcileAll _ _ _ _ _ _ _ _ _) as [? []].
Qed.

(** C6: A round repairs what it sees.  Suppose that both sides have the same ring and
    tree parameters that fit the messages, that no envelope on either side is
    younger than the grace period, that the hash gives no two different lists of
    children of the two trees one value, and that both sides only hold envelopes put
    there by the cluster.  When the round ends within its budget, every key of a
    bucket in which the two trees differ has converged to the newer envelope on both
    sides, and every other key is as it was.  With younger envelopes a round can do
    the opposite, see [grace_push_loses_newer]; and it does not see what the trees
    do not tell apart, see [tree_misses_swapped_versions]. *)
Theorem round_repairs st st' n T1 T2 :
  pair_ok rc -> NumLeaves T1 <= 2^32 ->
  local_tree st = Ok T1 -> peer_tree st = Ok T2 -> no_collision Sum64 T1 T2 ->
  quiet Sum64 rc now (rs_local st) (peer_db st) ->
  puts_only (rs_local st) (owned Sum64 rc) -> puts_only (peer_db st) (owned Sum64 rc) ->
  Run Sum64 rc net cut now st = (st', Ok n) -> n < MaxRepairPerRound (rc_cfg rc) ->
  forall k,
    (owned Sum64 rc k -> held (rs_local st) (peer_db st) k -> diverged T1 T2 k ->
       converged (rs_local st) (peer_db st) (rs_local st') (peer_db st') k) /\
    (~ (owned Sum64 rc k /\ diverged T1 T2 k) -> unchanged (rs_local st) (peer_db st) (rs_local st') (peer_db st') k).
Proof.
  intros Hrc HN E1 E2 Hcol Hq HpL HpP ER Hn k. unfold Run in ER. fold (local_tree st) in ER. rewrite E1 in ER.
  destruct (po_tree rc Hrc) as [Hf Hd]. pose proof (pair_digest rc now Hrc st) as Hv.
  destruct (BuildTree_inv Sum64 _ _ (AEFanout (rc_cfg rc)) _ T1 ltac:(lia) E1) as (t & es & _ & Ht & Hk0 & _ & F1 & D1 & K1 & Z1 & _ & Hlen).
  pose proof E2 as E2'. unfold peer_tree, buildTreeFor in E2'.
  change (dFanout (digest rc now)) with (u32 (AEFanout (rc_cfg rc))) in E2'. change (dDepth (digest rc now)) with (u32 (AEDepth (rc_cfg rc))) in E2'.
  rewrite !u32_small in E2' by lia. destruct (BuildTree_inv Sum64 _ _ (AEFanout (rc_cfg rc)) _ T2 ltac:(lia) E2') as (t2 & es2 & _ & _ & _ & _ & F2 & D2 & K2 & Z2 & _).
  assert (forall u, BucketFor Sum64 T1 u = BucketFor Sum64 t u) as EB by (intros u; by apply BucketFor_leaves).
  pose proof (BucketFor_range Sum64 T1 k K1) as Hrange.
  destruct (query net _ st) as [st1 r1] eqn:Eq. apply query_reads in Eq as (L1 & P1 & Hr1).
  destruct r1 as [[h|]| |]; [|done..]. specialize (Hr1 _ eq_refl). unfold ComputeAERoot in Hr1. rewrite Hv in Hr1. cbn -[buildTreeFor service digest Root] in Hr1.
  fold (peer_tree st) in Hr1. rewrite E2 in Hr1. destruct (Root T2) as [h2| |] eqn:R2; [|done..]. injection Hr1 as <-.
  destruct (Root T1) as [h1| |] eqn:R1; [|done..]. apply Root_node in R1. apply Root_node in R2.
  destruct (Z.eqb_spec h2 h1) as [Eh|Eh].
  - injection ER as <- <-. assert (unchanged (rs_local st) (peer_db st) (rs_local st1) (peer_db st1) k) as Hu by (unfold unchanged, same_at; by rewrite L1, P1).
    split; [|done]. intros _ _ Hdv. exfalso. apply (root_differs Sum64 T1 T2 K1 K2 Z1 Z2 ltac:(congruence) ltac:(congruence) _ Hcol Hrange Hdv).
    congruence.
  - destruct (findDivergentBuckets Sum64 rc net now T1 st1) as [st2 [buckets| |]] eqn:Efd; [|done..].
    assert (service rc st1 = service rc st) as Es by (unfold service; by rewrite P1).
    pose proof (descent_exact Sum64 rc net now _ st1 T1 T2 (digest rc now) (rc_self rc) ltac:(lia) E1) as HD. cbn zeta in HD.
    rewrite Es, Efd in HD. specialize (HD Hv E2 Hcol). destruct HD as (L2 & P2 & Hin).
    assert (Forall (fun b => 0 <= b < 2^32) buckets) as Hbs by (apply Forall_forall; intros b [? _]%Hin; lia).
    destruct (reconcileAll_spec Sum64 rc net cut now Hrc t Ht (rs_local st) (peer_db st) buckets 1 0 st2 st' n Hbs Hq) with (k := k) as (A1 & _ & A3);
      [by rewrite L2, L1|by rewrite P2, P1|intros u; left; unfold unchanged, same_at; by rewrite L2, L1, P2, P1|done|done|].
    rewrite L2, L1, P2, P1 in A3. rewrite <-EB in A1, A3. split.
    + intros Ho Hh Hdv. apply A1; [done..|]. apply Hin. split; [done|exact Hdv].
    + intros Hk. apply A3. intros [Ho Hb]. apply Hk. split; [done|]. by apply Hin in Hb as [_ Hb].
Qed.
End run.

(** ** Examples: two replicas [a] and [b] of every key *)
Definition ae_ring : Ring := ReplaceMembers demo_Sum64 (HashRing.New 2) [demo_node Byte.x61; demo_node Byte.x62].
Definition ae_rc : reconciler :=
  mkRec [Byte.x61] [Byte.x62] (Some ae_ring) (Some ae_ring) (Some 3) (mkAE 1 2 100 10) 3 2 2.
Definition ae_env (t : Z) (v : Byte.byte) : bytes := env_bytes (mkEnvelope (mkTs t 0 [Byte.x61]) false (Some [v])).
Definition ae_state (l p : list (bytes * bytes)) : rstate (gmap bytes Value) :=
  mkRS (put_all l ∅) (mkReplica (NewClock [Byte.x62]) (put_all p ∅)) 0.
Definition ae_net (k : nat) : fate := Delivered 1000.
Definition ae_now (j : nat) : Z := 1000.
Definition ae_uncut (k : nat) : option nat := None.

Lemma put_all_inv (kvs : list (bytes * bytes)) (m : gmap bytes Value) (k : bytes) w :
  put_all kvs m !! k = Some w -> m !! k = Some w \/ exists b, (k, b) ∈ kvs /\ w = NewValue (Some b).
Proof.
  revert m; induction kvs as [|kv kvs IH]; intros m E; [by left|]. destruct (IH _ E) as [H|(b & Hb & ->)]; [|right; exists b; split; [by right|done]].
  destruct (decide (k = kv.1)) as [->|Hne]; [|left; by rewrite lookup_insert_ne in H]. rewrite lookup_insert_eq in H. injection H as <-.
  right. exists kv.2. split; [|done]. destruct kv. left.
Qed.

Definition ae_locals : list (bytes * bytes) := [([Byte.x6b], ae_env 5 Byte.x01); ([Byte.x6d], ae_env 9 Byte.x02)].
Definition ae_peers : list (bytes * bytes) := [([Byte.x6b], ae_env 7 Byte.x03)].

Lemma ae_quiet : quiet demo_Sum64 ae_rc ae_now (put_all ae_locals ∅ : gmap bytes Value) (put_all ae_peers ∅).
Proof.
  assert (forall kvs k env, Forall (fun kv => match DecodeEnvelope kv.2 with Ok e => WallTime (ETs e) < 900 | _ => True end) kvs ->
    holds_env (put_all kvs ∅ : gmap bytes Value) k env -> WallTime (ETs env) < 900) as H.
  { intros kvs k env Hf (w & Hw & Hd). destruct (put_all_inv _ _ _ _ Hw) as [|(b & Hb & ->)]; [done|]. rewrite Forall_forall in Hf. specialize (Hf _ Hb). cbn in *. by rewrite Hd in Hf. }
  intros k env j _ [Hh|Hh]; cbn; refine (H _ _ _ _ Hh); by repeat constructor; vm_compute.
Qed.

Lemma ae_pair : pair_ok ae_rc.
Proof. split; [reflexivity|right; reflexivity|by intros [=]|by split; intros [=]|..]; unfold ae_rc; cbn [rc_RF rc_cfg AEFanout AEDepth]; lia. Qed.

Lemma ae_puts kvs Q : puts_only (put_all kvs ∅ : gmap bytes Value) Q.
Proof. intros k w Hk E. by destruct (put_all_inv _ _ _ _ E) as [|(b & _ & ->)]. Qed.

Lemma round_repairs_witness :
  let st := ae_state ae_locals ae_peers in
  let st' := (Run demo_Sum64 ae_rc ae_net ae_uncut ae_now st).1 in
  converged (rs_local st) (r_db (rs_peer st)) (rs_local st') (r_db (rs_peer st')) [Byte.x6b] /\
  converged (rs_local st) (r_db (rs_peer st)) (rs_local st') (r_db (rs_peer st')) [Byte.x6d].
Proof.
  intros st st'.
  destruct (local_tree demo_Sum64 ae_rc ae_now st) as [T1| |] eqn:E1; [|by vm_compute in E1..].
  destruct (peer_tree demo_Sum64 ae_rc ae_now st) as [T2| |] eqn:E2; [|by vm_compute in E2..].
  assert (Run demo_Sum64 ae_rc ae_net ae_uncut ae_now st = (st', Ok 2)) as ER.
  { apply injective_projections; [done|]. vm_compute. reflexivity. }
  pose proof E1 as E1'. pose proof E2 as E2'. vm_compute in E1', E2'. injection E1' as E1'. injection E2' as E2'.
  assert (no_collision demo_Sum64 T1 T2) as Hc.
  { rewrite <-E1', <-E2'. intros [|x path] Hd Hl; [|rewrite len_cons in Hl; cbn in Hl; pose proof (len_nonneg path); lia]. vm_compute. done. }
  assert (forall k, owned demo_Sum64 ae_rc k -> held (rs_local st) (r_db (rs_peer st)) k -> diverged demo_Sum64 T1 T2 k ->
    converged (rs_local st) (r_db (rs_peer st)) (rs_local st') (r_db (rs_peer st')) k) as H.
  { intros k. refine (proj1 (round_repairs demo_Sum64 ae_rc ae_net ae_uncut ae_now st st' 2 T1 T2 ae_pair _ E1 E2 Hc ae_quiet (ae_puts _ _) (ae_puts _ _) ER _ k)).
    - rewrite <-E1'. by vm_compute.
    - done. }
  assert (forall k b env, owned demo_Sum64 ae_rc k -> put_all ae_locals (∅ : gmap bytes Value) !! k = Some (NewValue (Some b)) -> DecodeEnvelope b = Ok env ->
    diverged demo_Sum64 T1 T2 k -> converged (rs_local st) (r_db (rs_peer st)) (rs_local st') (r_db (rs_peer st')) k) as H'.
  { intros k b env Ho Hb Hd. apply H; [exact Ho|]. exists env. left. exists (NewValue (Some b)). split; [exact Hb|exact Hd]. }
  clearbody st'. split.
  - apply (H' _ (ae_env 5 Byte.x01) (mkEnvelope (mkTs 5 0 [Byte.x61]) false (Some [Byte.x01]))); [vm_compute; reflexivity..|].
    rewrite <-E1', <-E2'. vm_compute. discriminate.
  - apply (H' _ (ae_env 9 Byte.x02) (mkEnvelope (mkTs 9 0 [Byte.x61]) false (Some [Byte.x02]))); [vm_compute; reflexivity..|].
    rewrite <-E1', <-E2'. vm_compute. discriminate.
Defined.

Lemma round_terminates_witness : (Run demo_Sum64 ae_rc (fun k => if (k <? 2)%nat then Delivered 0 else Lost) ae_uncut ae_now (ae_state ae_locals ae_peers)).2 <> Panic.
Proof. apply (round_terminates demo_Sum64 ae_rc). unfold ae_rc. cbn [rc_cfg AEFanout]. lia. Defined.

Lemma descent_exact_witness :
  let st := ae_state ae_locals ae_peers in
  exists T1 T2 st' out, local_tree demo_Sum64 ae_rc ae_now st = Ok T1 /\ peer_tree demo_Sum64 ae_rc ae_now st = Ok T2 /\
    findDivergentBuckets demo_Sum64 ae_rc ae_net ae_now T1 st = (st', Ok out) /\
    forall b, b ∈ out <-> 0 <= b < NumLeaves T1 /\ leaves T1 !! Z.to_nat b <> leaves T2 !! Z.to_nat b.
Proof.
  intros st.
  destruct (local_tree demo_Sum64 ae_rc ae_now st) as [T1| |] eqn:E1; [|by vm_compute in E1..].
  destruct (peer_tree demo_Sum64 ae_rc ae_now st) as [T2| |] eqn:E2; [|by vm_compute in E2..].
  pose proof E1 as E1'. pose proof E2 as E2'. vm_compute in E1', E2'. injection E1' as E1'. injection E2' as E2'.
  assert (no_collision demo_Sum64 T1 T2) as Hc.
  { rewrite <-E1', <-E2'. intros [|x path] Hd Hl; [|rewrite len_cons in Hl; cbn in Hl; pose proof (len_nonneg path); lia]. vm_compute. done. }
  assert (AEFanout (rc_cfg ae_rc) < 2^32) as Hf by (unfold ae_rc; cbn [rc_cfg AEFanout]; lia).
  clear E1' E2'. clearbody st. pose proof E1 as U1. pose proof E2 as U2. unfold local_tree in U1. unfold peer_tree in U2.
  pose proof (descent_exact demo_Sum64 ae_rc ae_net ae_now _ st T1 T2 _ _ Hf U1 (pair_digest ae_rc ae_now ae_pair st) U2 Hc) as H.
  destruct (findDivergentBuckets demo_Sum64 ae_rc ae_net ae_now T1 st) as [st' [out|e|]] eqn:Ef.
  - exists T1, T2, st', out. split; [reflexivity|]. split; [reflexivity|]. split; [exact Ef|]. exact (proj2 (proj2 H)).
  - exfalso. destruct H as [_ [k Hk]]. exact (Hk 1000 eq_refl).
  - destruct H.
Defined.

Lemma ae_holds (m : gmap bytes Value) k t v :
  0 <= t < 2^63 -> m !! k = Some (NewValue (Some (ae_env t v))) -> holds_env m k (mkEnvelope (mkTs t 0 [Byte.x61]) false (Some [v])).
Proof.
  intros Ht E. exists (NewValue (Some (ae_env t v))). split; [exact E|].
  apply (Decode_env_bytes (mkEnvelope (mkTs t 0 [Byte.x61]) false (Some [v]))). split; [|by vm_compute]. unfold ts_ok; cbn; lia.
Qed.

(** What the grace period breaks.  A replica hides from the round the envelopes
    that are younger than the cutoff, so an older envelope on the initiator looks
    as if the peer had none: the round pushes it, and the peer, whose handler
    compares no timestamps, overwrites its newer one. *)
Theorem grace_push_loses_newer :
  let st := ae_state [([Byte.x6b], ae_env 5 Byte.x01)] [([Byte.x6b], ae_env 950 Byte.x03)] in
  let '(st', r) := Run demo_Sum64 ae_rc ae_net ae_uncut ae_now st in
  r = Ok 1 /\
  holds_env (r_db (rs_peer st)) [Byte.x6b] (mkEnvelope (mkTs 950 0 [Byte.x61]) false (Some [Byte.x03])) /\
  holds_env (r_db (rs_peer st')) [Byte.x6b] (mkEnvelope (mkTs 5 0 [Byte.x61]) false (Some [Byte.x01])) /\
  holds_env (rs_local st') [Byte.x6b] (mkEnvelope (mkTs 5 0 [Byte.x61]) false (Some [Byte.x01])).
Proof.
  intros st. rewrite (surjective_pairing (Run _ _ _ _ _ st)).
  split; [vm_compute; reflexivity|]. split_and!; (apply ae_holds; [lia|]); vm_compute; reflexivity.
Qed.
