(* ===== verification/MemberProof.v ===== *)
(** * Membership: what gossip and SWIM keep true

    The invariant of the membership state over every interleaving of messages,
    probes, timers and ring changes; gossip as a join, so that nodes that received
    the same updates in any order and any number of times agree; the refutation
    of a false accusation; and a node suspected through gossip only, which no
    timer will ever declare dead. *)

From Stdlib Require Import ZArith Lia List.
From stdpp Require Import base list option gmap sorting.
From S2P Require Import Prelude GoBytes HLC Member.
Open Scope Z_scope.

(** Updates and descriptors as well-behaved nodes send them. *)
Definition live_ok (l : LivenessState) : Prop := 0 <= l <= 2.
Definition update_ok (u : MemberState) : Prop := live_ok (Liveness u).
Definition desc_ok (rd : RingDescriptor) : Prop := NoDup (map RMNodeID (RDMembers rd)).

Section proofs.
(** The configuration of the node. *)
Context (c : ClusterConfig).

(** The state apart from the retransmit buffer. *)
Record core_ok (m : Membership) : Prop := {
  co_cfg : cfg m = c;
  co_self : exists ms, members m !! selfID m = Some ms /\ Liveness ms = Alive;
  co_id : forall id ms, members m !! id = Some ms -> MNodeID ms = id;
  co_live : forall id ms, members m !! id = Some ms -> live_ok (Liveness ms);
  co_dead : forall id, is_Some (deadSince m !! id) <-> exists ms, members m !! id = Some ms /\ Liveness ms = Dead;
  co_timer : forall id, id ∈ suspectTimers m -> exists ms, members m !! id = Some ms /\ Liveness ms = Suspect;
  co_ring : forall id ms, members m !! id = Some ms -> MRing ms = ringStateFromDescriptor m id;
  co_desc : desc_ok (ringDesc m);
  co_probe : selfID m ∉ probeOrder m
}.
Definition max_broadcasts (m : Membership) : Z := if MaxBroadcasts (cfg m) <=? 0 then 128 else MaxBroadcasts (cfg m).
Definition mem_ok (m : Membership) : Prop := core_ok m /\ len (broadcasts m) <= max_broadcasts m.

Context (range_members : gmap bytes MemberState -> list bytes) (sort_broadcasts : list broadcast -> list broadcast) (shuffle : list bytes -> list bytes).
(** [range] visits every key, [sort.Slice] and [rand.Shuffle] permute. *)
Hypothesis (Hrange : forall ms id, id ∈ range_members ms <-> is_Some (ms !! id)).
Hypothesis (Hsort : forall bs, sort_broadcasts bs ≡ₚ bs) (Hshuffle : forall ids, shuffle ids ≡ₚ ids).

Abbreviation queue := (queueBroadcastLocked sort_broadcasts).
Abbreviation setLive := (setLivenessLocked sort_broadcasts).
Abbreviation merge := (mergeLocked sort_broadcasts).
Abbreviation mergeL := (mergeAll sort_broadcasts).

(** ** The buffer *)
Lemma queue_bound s m : len (broadcasts m) <= max_broadcasts m -> len (broadcasts (queue s m)) <= max_broadcasts (queue s m).
Proof.
  intros Hb. unfold max_broadcasts in *. unfold queueBroadcastLocked. cbn.
  assert (0 < (if MaxBroadcasts (cfg m) <=? 0 then 128 else MaxBroadcasts (cfg m))) as Hp by (destruct (Z.leb_spec (MaxBroadcasts (cfg m)) 0); lia).
  destruct (Z.ltb_spec (if MaxBroadcasts (cfg m) <=? 0 then 128 else MaxBroadcasts (cfg m)) (len (broadcasts m ++ [mkBroadcast s (retransmitLimit m)]))); [|done].
  unfold len. rewrite length_take. lia.
Qed.
Lemma queue_ok s m : mem_ok m -> mem_ok (queue s m).
Proof. intros [[] Hb]. split; [by split|by apply queue_bound]. Qed.

Lemma queue_fields s m :
  members (queue s m) = members m /\ cfg (queue s m) = cfg m /\ ringDesc (queue s m) = ringDesc m.
Proof. done. Qed.

(** What fits is taken; the rest stays, and so does what has retransmissions left. *)
Lemma piggyback_len limit n bs :
  0 <= n -> let '(res, alive) := piggyback limit n bs in
  len res <= Z.max 0 (limit - n) /\ len res <= len bs /\ len alive <= len bs.
Proof.
  revert n; induction bs as [|b bs IH]; intros n Hn; cbn [piggyback]; [unfold len; cbn; lia|].
  specialize (IH (if n <? limit then n + 1 else n) ltac:(destruct (_ <? _); lia)). destruct (piggyback limit _ bs) as [res alive].
  rewrite ?len_cons. destruct (Z.ltb_spec n limit); destruct (0 <? _); rewrite ?len_cons; lia.
Qed.

Lemma getBroadcasts_ok limit m :
  0 <= limit -> mem_ok m -> mem_ok (getBroadcastsLocked sort_broadcasts limit m).1 /\
  len (getBroadcastsLocked sort_broadcasts limit m).2 <= limit.
Proof using Hsort.
  intros Hl Hm. unfold getBroadcastsLocked. destruct (broadcasts m) as [|b bs] eqn:E; [by split|]. destruct Hm as [[] Hb].
  pose proof (piggyback_len limit 0 (sort_broadcasts (b :: bs)) ltac:(lia)) as H. destruct (piggyback _ _ _) as [res alive].
  assert (len (sort_broadcasts (b :: bs)) = len (b :: bs)) as El by (unfold len; by rewrite Hsort). rewrite El in H. rewrite E in Hb.
  split; [split; [by split|]|cbn; lia]. unfold max_broadcasts in *. cbn. lia.
Qed.

(** ** Transitions *)
(** A member whose liveness and ring state stay. *)
Lemma touch_ok id old new m :
  mem_ok m -> members m !! id = Some old -> MNodeID new = id -> Liveness new = Liveness old -> MRing new = MRing old ->
  mem_ok (set_members (<[id := new]> (members m)) m).
Proof.
  intros [[H0 H1 H2 H3 H4 H5 H6 H7 H8] Hb] E Hid Hlv Hr. split; [|done].
  assert (forall P : LivenessState -> Prop, forall u, (exists ms, <[id := new]> (members m) !! u = Some ms /\ P (Liveness ms)) <-> exists ms, members m !! u = Some ms /\ P (Liveness ms)) as Hex.
  { intros P u. destruct (decide (u = id)) as [->|Hne]; [|by rewrite lookup_insert_ne]. rewrite lookup_insert_eq, E. split.
    - intros (ms & [= <-] & HP). exists old. by rewrite <-Hlv.
    - intros (ms & [= <-] & HP). exists new. by rewrite Hlv. }
  split; cbn; try done.
  - by apply (Hex (fun l => l = Alive)).
  - intros u ms. destruct (decide (u = id)) as [->|Hne]; [rewrite lookup_insert_eq; by intros [= <-]|rewrite lookup_insert_ne by done; apply H2].
  - intros u ms. destruct (decide (u = id)) as [->|Hne]; [rewrite lookup_insert_eq; intros [= <-]; rewrite Hlv; by eapply H3|rewrite lookup_insert_ne by done; apply H3].
  - intros u. rewrite H4. symmetry. by apply (Hex (fun l => l = Dead)).
  - intros u Hu. apply (Hex (fun l => l = Suspect)). by apply H5.
  - intros u ms. destruct (decide (u = id)) as [->|Hne]; [rewrite lookup_insert_eq; intros [= <-]; rewrite Hr; by apply H6|rewrite lookup_insert_ne by done; apply H6].
Qed.

Lemma bump_ok m : mem_ok m -> mem_ok (bump_gen m).
Proof. intros [[] Hb]. split; [by split|done]. Qed.

Lemma setLive_ok now id to m :
  mem_ok m -> live_ok to -> id <> selfID m \/ to = Alive -> mem_ok (setLive now id to m).1.
Proof.
  intros Hm Hto Hid. unfold setLivenessLocked. destruct (members m !! id) as [old|] eqn:E; [|done].
  destruct (Z.eqb_spec (Liveness old) to) as [|Hne]; [done|]. cbn [fst]. apply queue_ok. destruct Hm as [[H0 H1 H2 H3 H4 H5 H6 H7 H8] Hb].
  assert (id <> selfID m) as Hns by (destruct Hid as [?| ->]; [done|]; intros ->; destruct H1 as (ms & E' & ?); congruence).
  split; [|by destruct (Z.eqb_spec (Liveness old) Suspect)].
  split; destruct (Z.eqb_spec (Liveness old) Suspect) as [Es|Es]; cbn; try done.
  1,2: rewrite lookup_insert_ne by done; exact H1.
  1,2: intros u ms; destruct (decide (u = id)) as [->|Hu]; [rewrite lookup_insert_eq; intros [= <-]; cbn; by apply H2|rewrite lookup_insert_ne by done; apply H2].
  1,2: intros u ms; destruct (decide (u = id)) as [->|Hu]; [rewrite lookup_insert_eq; by intros [= <-]|rewrite lookup_insert_ne by done; apply H3].
  1,2: intros u; destruct (Z.eqb_spec to Dead) as [Ed|Ed]; cbn; (destruct (decide (u = id)) as [->|Hu];
    [rewrite lookup_insert_eq, ?lookup_insert_eq, ?lookup_delete_eq|rewrite ?lookup_insert_ne, ?lookup_delete_ne by done; apply H4]).
  1,3: split; [intros _; by eexists|by eexists].
  1,2: split; [by intros []|intros (ms & [= <-] & ?); done].
  - intros u [Hu Hn]%elem_of_difference. rewrite lookup_insert_ne by set_solver. by apply H5.
  - intros u Hu. destruct (decide (u = id)) as [->|Hn]; [|rewrite lookup_insert_ne by done; by apply H5]. destruct (H5 id Hu) as (ms & ? & ?). congruence.
  - intros u ms. destruct (decide (u = id)) as [->|Hu]; [rewrite lookup_insert_eq; intros [= <-]; cbn; by apply H6|rewrite lookup_insert_ne by done; apply H6].
  - intros u ms. destruct (decide (u = id)) as [->|Hu]; [rewrite lookup_insert_eq; intros [= <-]; cbn; by apply H6|rewrite lookup_insert_ne by done; apply H6].
Qed.

Lemma merge_ok now u m : mem_ok m -> update_ok u -> mem_ok (merge now u m).1.
Proof.
  intros Hm Hu. unfold mergeLocked. destruct (members m !! MNodeID u) as [local|] eqn:E.
  2:{ (* a node not seen before *)
    destruct Hm as [[H0 H1 H2 H3 H4 H5 H6 H7 H8] Hb].
    assert (MNodeID u <> selfID m) as Hns by (intros Hx; destruct H1 as (ms & E' & _); congruence).
    assert (forall v, is_Some (deadSince m !! v) -> v <> MNodeID u) as Hd by (intros v Hv ->; apply H4 in Hv as (ms & ? & _); congruence).
    assert (deadSince m !! MNodeID u = None) as Hdn by (apply eq_None_not_Some; intros Hx; by apply Hd in Hx).
    split; [|by destruct (_ =? Dead)].
    split; destruct (Z.eqb_spec (Liveness (set_ring (ringStateFromDescriptor m (MNodeID u)) u)) Dead) as [Ed|Ed]; cbn in Ed |- *; try done.
    1,2: rewrite lookup_insert_ne by done; exact H1.
    1,2: intros v ms; destruct (decide (v = MNodeID u)) as [->|Hv]; [rewrite lookup_insert_eq; by intros [= <-]|rewrite lookup_insert_ne by done; apply H2].
    1,2: intros v ms; destruct (decide (v = MNodeID u)) as [->|Hv]; [rewrite lookup_insert_eq; by intros [= <-]|rewrite lookup_insert_ne by done; apply H3].
    - intros v. destruct (decide (v = MNodeID u)) as [->|Hv]; [rewrite !lookup_insert_eq; split; [intros _|]; by eexists|rewrite !lookup_insert_ne by done; apply H4].
    - intros v. destruct (decide (v = MNodeID u)) as [->|Hv]; [|rewrite lookup_insert_ne by done; apply H4]. rewrite lookup_insert_eq, Hdn.
      split; [by intros []|]. by intros (ms & [= <-] & ?).
    - intros v Hv. destruct (H5 v Hv) as (ms & ? & ?). rewrite lookup_insert_ne by congruence. eauto.
    - intros v Hv. destruct (H5 v Hv) as (ms & ? & ?). rewrite lookup_insert_ne by congruence. eauto.
    - intros v ms. destruct (decide (v = MNodeID u)) as [->|Hv]; [rewrite lookup_insert_eq; by intros [= <-]|rewrite lookup_insert_ne by done; apply H6].
    - intros v ms. destruct (decide (v = MNodeID u)) as [->|Hv]; [rewrite lookup_insert_eq; by intros [= <-]|rewrite lookup_insert_ne by done; apply H6]. }
  pose proof Hm as [[_ H1 H2 H3 _ _ _ _ _] _]. unfold bytes_Equal.
  destruct (bool_decide (MNodeID u = selfID m) && (Alive <? Liveness u)) eqn:Es.
  - apply andb_true_iff in Es as [Es _]. apply bool_decide_eq_true in Es. destruct (_ <=? _); [|done]. cbn [fst]. apply queue_ok.
    destruct H1 as (ms & E' & Ha). rewrite Es in E. assert (local = ms) as -> by congruence.
    rewrite Es. eapply touch_ok; [done|exact E|exact (H2 _ _ E)|by rewrite Ha|done].
  - assert (MNodeID u <> selfID m \/ Liveness u = Alive) as Hid.
    { apply andb_false_iff in Es as [Es|Es]; [left; by apply bool_decide_eq_false in Es|]. right. apply Z.ltb_ge in Es. unfold update_ok, live_ok, Alive in *. lia. }
    clear Es. destruct (Incarnation local <? Incarnation u).
    + set (m1 := bump_gen _). assert (mem_ok m1) as Hm1 by (apply bump_ok; eapply touch_ok; [exact Hm|exact E|done..]). destruct (negb _); [by apply setLive_ok|by apply queue_ok].
    + destruct (_ && _); [by apply setLive_ok|done].
Qed.

Lemma mergeAll_ok now us m : mem_ok m -> Forall update_ok us -> mem_ok (mergeL now us m).1.
Proof.
  revert m; induction us as [|u us IH]; intros m Hm Hu; [done|]. apply Forall_cons in Hu as [Hu Hus]. cbn [mergeAll].
  pose proof (merge_ok now u m Hm Hu) as H1. destruct (merge now u m) as [m1 ev]. specialize (IH m1 H1 Hus). by destruct (mergeL now us m1).
Qed.

(** ** Ring descriptors *)
Lemma ringMap_state rms id : NoDup (map RMNodeID rms) -> default RingNone (ringMap rms !! id) = ring_state_in rms id.
Proof.
  intros Hnd. unfold ringMap. assert (forall acc : gmap bytes RingState,
    default RingNone (fold_left (fun r rm => <[RMNodeID rm := RMState rm]> r) rms acc !! id) =
    if decide (id ∈ map RMNodeID rms) then ring_state_in rms id else default RingNone (acc !! id)) as H.
  { induction rms as [|rm rms IH]; intros acc; cbn [fold_left ring_state_in map].
    - destruct (decide _) as [[]%not_elem_of_nil|]; done.
    - apply NoDup_cons in Hnd as [Hn Hnd]. rewrite IH by done. unfold bytes_Equal. case_bool_decide as E.
      + subst id. rewrite (decide_False (P := RMNodeID rm ∈ map RMNodeID rms)) by done. rewrite lookup_insert_eq, decide_True by left. done.
      + rewrite lookup_insert_ne by done. destruct (decide (id ∈ map RMNodeID rms)); [by rewrite decide_True by (by right)|].
        rewrite decide_False; [done|]. by intros [->|?]%elem_of_cons. }
  rewrite H. destruct (decide _) as [|Hn]; [done|]. rewrite lookup_empty. cbn. clear H Hnd. induction rms as [|rm rms IH]; [done|].
  cbn in Hn |- *. apply not_elem_of_cons in Hn as [Hn1 Hn2]. unfold bytes_Equal. rewrite bool_decide_eq_false_2 by congruence. auto.
Qed.

Lemma ring_fold rms ids m :
  len (broadcasts m) <= max_broadcasts m ->
  let m' := fold_left (applyRingOne sort_broadcasts rms) ids m in
  (forall id, members m' !! id = (if decide (id ∈ ids) then set_ring (default RingNone (rms !! id)) else fun ms => ms) <$> members m !! id) /\
  cfg m' = cfg m /\ deadSince m' = deadSince m /\ suspectTimers m' = suspectTimers m /\ probeOrder m' = probeOrder m /\ len (broadcasts m') <= max_broadcasts m'.
Proof.
  revert m; induction ids as [|u ids IH]; intros m Hb; cbn [fold_left].
  { split; [|done]. intros id. destruct (decide _) as [[]%not_elem_of_nil|]; by destruct (members m !! id). }
  assert (forall id, members (applyRingOne sort_broadcasts rms m u) !! id = (if decide (id = u) then set_ring (default RingNone (rms !! id)) else fun ms => ms) <$> members m !! id) as H1.
  { intros id. unfold applyRingOne. destruct (members m !! u) as [ms|] eqn:E.
    - destruct (Z.eqb_spec (MRing ms) (default RingNone (rms !! u))) as [Er|Er]; cbn [negb].
      + destruct (decide (id = u)) as [->|]; [|by destruct (members m !! id)]. rewrite E. cbn. f_equal. rewrite <-Er. by destruct ms.
      + cbn. destruct (decide (id = u)) as [->|Hn]; [by rewrite lookup_insert_eq, E|]. rewrite lookup_insert_ne by done. by destruct (members m !! id).
    - destruct (decide (id = u)) as [->|]; [by rewrite E|]. by destruct (members m !! id). }
  assert (cfg (applyRingOne sort_broadcasts rms m u) = cfg m /\ deadSince (applyRingOne sort_broadcasts rms m u) = deadSince m /\
    suspectTimers (applyRingOne sort_broadcasts rms m u) = suspectTimers m /\ probeOrder (applyRingOne sort_broadcasts rms m u) = probeOrder m /\
    len (broadcasts (applyRingOne sort_broadcasts rms m u)) <= max_broadcasts (applyRingOne sort_broadcasts rms m u)) as (F1 & F2 & F3 & F4 & F5).
  { unfold applyRingOne. destruct (members m !! u) as [ms|]; [|done]. destruct (negb _); [|done]. split_and!; try done.
    apply (queue_bound (set_ring _ ms) (set_members _ m)). exact Hb. }
  destruct (IH (applyRingOne sort_broadcasts rms m u) F5) as (G1 & G2 & G3 & G4 & G5 & G6). split_and!; try (congruence || exact G6).
  intros id. rewrite G1, H1. destruct (members m !! id) as [ms|]; [|done]. cbn. f_equal.
  destruct (decide (id ∈ ids)) as [Hi|Hi], (decide (id = u)) as [->|Hn].
  - by rewrite decide_True by left.
  - by rewrite decide_True by (by right).
  - by rewrite decide_True by left.
  - rewrite decide_False; [done|]. by intros [?|?]%elem_of_cons.
Qed.

Lemma applyRing_ok rd m : mem_ok m -> desc_ok rd -> mem_ok (applyRingDescLocked range_members sort_broadcasts rd m).
Proof using Hrange.
  intros [[H0 H1 H2 H3 H4 H5 H6 H7 H8] Hb] Hrd. unfold applyRingDescLocked.
  destruct (ring_fold (ringMap (RDMembers rd)) (range_members (members m)) m Hb) as (G1 & G2 & G3 & G4 & G5 & G6).
  set (m' := fold_left _ _ m) in *.
  assert (forall id, members m' !! id = set_ring (ring_state_in (RDMembers rd) id) <$> members m !! id) as G.
  { intros id. rewrite G1. destruct (members m !! id) as [ms|] eqn:E; [|done]. rewrite decide_True by (apply Hrange; by eexists).
    by rewrite ringMap_state. }
  assert (forall id (P : MemberState -> Prop), (forall r ms, P (set_ring r ms) <-> P ms) ->
    (exists ms, members m' !! id = Some ms /\ P ms) <-> exists ms, members m !! id = Some ms /\ P ms) as Hex.
  { intros id P HP. rewrite G. destruct (members m !! id) as [ms|]; cbn; [|naive_solver]. split.
    - intros (? & [= <-] & Hp). exists ms. split; [done|]. by apply HP in Hp.
    - intros (? & [= <-] & Hp). eexists. split; [done|]. by apply HP. }
  split; [|exact G6]. split; cbn; unfold selfID; cbn; rewrite ?G2, ?G3, ?G4, ?G5; try done.
  - by apply (Hex _ (fun ms => Liveness ms = Alive)).
  - intros id ms. rewrite G. destruct (members m !! id) as [ms'|] eqn:E; [|done]. intros [= <-]. exact (H2 id ms' E).
  - intros id ms. rewrite G. destruct (members m !! id) as [ms'|] eqn:E; [|done]. intros [= <-]. exact (H3 id ms' E).
  - intros id. rewrite H4. symmetry. by apply (Hex _ (fun ms => Liveness ms = Dead)).
  - intros id Hid. apply (Hex _ (fun ms => Liveness ms = Suspect)); [done|]. by apply H5.
  - intros id ms. rewrite G. destruct (members m !! id) as [ms'|]; [|done]. by intros [= <-].
Qed.

Lemma applyNewer_ok rd m :
  mem_ok m -> (forall d, rd = Some d -> desc_ok d) -> mem_ok (applyNewer range_members sort_broadcasts rd m).1.
Proof using Hrange. intros Hm Hrd. unfold applyNewer. destruct rd as [d|]; [|done]. destruct (_ <? _); [|done]. by apply applyRing_ok, Hrd. Qed.

(** ** Probes, timers, reaping *)
Lemma set_probe_ok order i gen m : mem_ok m -> selfID m ∉ order -> mem_ok (set_probe order i gen m).
Proof. intros [[] Hb] Hn. split; [by split|done]. Qed.

Lemma nextProbe_loop_ok rest m :
  mem_ok m -> selfID m ∉ rest -> mem_ok (nextProbe_loop rest m).1 /\ forall t, (nextProbe_loop rest m).2 = Some t -> MNodeID t <> selfID m.
Proof.
  revert m; induction rest as [|id rest IH]; intros m Hm Hn; cbn [nextProbe_loop]; [done|]. apply not_elem_of_cons in Hn as [Hn1 Hn2].
  set (m1 := set_probe _ _ _ m). assert (mem_ok m1) as Hm1 by (apply set_probe_ok; [done|apply Hm]). change (selfID m) with (selfID m1) in *.
  destruct (members m1 !! id) as [ms|] eqn:E; [|by apply IH]. destruct (negb _); [|by apply IH]. split; [done|].
  intros t [= <-]. rewrite (co_id _ (proj1 Hm1) _ _ E). congruence.
Qed.

Lemma nextProbeTarget_ok m :
  mem_ok m -> mem_ok (nextProbeTarget range_members shuffle m).1 /\
  forall t, (nextProbeTarget range_members shuffle m).2 = Some t -> MNodeID t <> selfID m.
Proof using Hshuffle.
  intros Hm. unfold nextProbeTarget.
  assert (forall m1, mem_ok m1 -> selfID m1 = selfID m -> let r := nextProbe_loop (drop (probeIdx m1) (probeOrder m1)) m1 in
    mem_ok r.1 /\ forall t, r.2 = Some t -> MNodeID t <> selfID m) as H.
  { intros m1 Hm1 <-. apply nextProbe_loop_ok; [done|]. intros Hin. apply (co_probe _ (proj1 Hm1)). rewrite <-(take_drop (probeIdx m1) (probeOrder m1)). apply elem_of_app. by right. }
  destruct (_ || _); [|by apply H]. apply H; [|done]. apply set_probe_ok; [done|]. rewrite Hshuffle. intros [[Hx _] _]%list_elem_of_filter. by apply Hx.
Qed.

Lemma probe_refute_ok now t m : mem_ok m -> mem_ok (probe_refute sort_broadcasts now t m).1.
Proof.
  intros Hm. unfold probe_refute. destruct (members m !! t); [|done]. destruct (_ =? _); [|done]. apply setLive_ok; [done|unfold live_ok, Alive; lia|by right].
Qed.

Lemma setLive_lookup now id to m ms :
  members m !! id = Some ms -> exists ms', members (setLive now id to m).1 !! id = Some ms' /\ Liveness ms' = to.
Proof using Type. clear Hrange Hsort Hshuffle.
  intros E. unfold setLivenessLocked. rewrite E. destruct (Z.eqb_spec (Liveness ms) to) as [El|El]; [by exists ms|].
  exists (set_liveness to ms). cbn. destruct (_ =? Suspect); cbn; by rewrite lookup_insert_eq.
Qed.

Lemma probe_fail_ok now t m : mem_ok m -> t <> selfID m -> mem_ok (probe_fail sort_broadcasts now t m).1.
Proof.
  intros Hm Ht. unfold probe_fail. destruct (members m !! t) as [ms|] eqn:E; [|done]. destruct (_ =? _); [|done].
  pose proof (setLive_ok now t Suspect m Hm ltac:(unfold live_ok, Suspect; lia) (or_introl Ht)) as H1.
  destruct (setLive_lookup now t Suspect m ms E) as (ms' & E' & El). destruct (setLive now t Suspect m) as [m1 ev]. cbn in H1, E' |- *.
  destruct H1 as [[] Hb]. split; [|done]. split; try done. cbn. intros id [Hid|Hid]%elem_of_union; [by apply co_timer0|]. apply elem_of_singleton in Hid as ->. eauto.
Qed.

Lemma suspectTimeout_ok now id m : mem_ok m -> mem_ok (suspectTimeout sort_broadcasts now id m).1.
Proof.
  intros Hm. unfold suspectTimeout. destruct (members m !! id) as [ms|] eqn:E; [|done]. destruct (Z.eqb_spec (Liveness ms) Suspect) as [El|]; [|done].
  apply setLive_ok; [done|unfold live_ok, Dead; lia|]. left. intros ->. destruct (co_self _ (proj1 Hm)) as (ms' & E' & Ha). rewrite E in E'.
  injection E' as <-. rewrite El in Ha. done.
Qed.

Lemma reap_ok now timeout id m : mem_ok m -> mem_ok (reapOne now timeout m id).
Proof.
  intros Hm. unfold reapOne. destruct (deadSince m !! id) as [at0|] eqn:Ed; [|done]. destruct (_ <? _); [done|].
  destruct (members m !! id) as [ms|] eqn:E.
  2:{ exfalso. destruct (proj1 (co_dead _ (proj1 Hm) id) (ex_intro _ _ Ed)) as (ms & ? & _). congruence. }
  destruct (Z.eqb_spec (Liveness ms) Dead) as [El|]; [|done]. destruct (_ =? RingNone); [|done]. cbn [andb].
  destruct Hm as [[H0 H1 H2 H3 H4 H5 H6 H7 H8] Hb]. split; [|done].
  assert (id <> selfID m) as Hns by (intros ->; destruct H1 as (? & ? & Ha); rewrite E in *; simplify_eq; rewrite El in Ha; done).
  split; cbn; try done.
  - by rewrite lookup_delete_ne.
  - intros u x. rewrite lookup_delete_Some. intros [_ ?]. by apply H2.
  - intros u x. rewrite lookup_delete_Some. intros [_ ?]. by apply (H3 u).
  - intros u. destruct (decide (u = id)) as [->|Hu]; [rewrite !lookup_delete_eq; split; [by intros []|by intros (? & ? & _)]|rewrite !lookup_delete_ne by done; apply H4].
  - intros u Hu. destruct (H5 u Hu) as (x & Ex & Hx). exists x. split; [|done]. rewrite lookup_delete_ne; [done|]. intros ->. rewrite E in Ex. simplify_eq. by rewrite El in Hx.
  - intros u x. rewrite lookup_delete_Some. intros [_ ?]. by apply H6.
Qed.

Lemma reapDead_ok now ids m : mem_ok m -> mem_ok (reapDeadNodes now ids m).
Proof.
  intros Hm. unfold reapDeadNodes. destruct (_ <=? _); [done|]. revert Hm. generalize (DeadNodeReapTimeout (cfg m)) as timeout. intros timeout.
  revert m; induction ids as [|id ids IH]; intros m Hm; [done|]. cbn. by apply IH, reap_ok.
Qed.

(** ** The state machine.  [probe] works on one target at a time: the second
    component is the target whose answer it waits for. *)
Inductive mstep : Membership * option bytes -> Membership * option bytes -> Prop :=
| st_ping now msg m t : Forall update_ok (Updates msg) -> (forall d, RingDesc msg = Some d -> desc_ok d) ->
    mstep (m, t) ((HandlePing range_members sort_broadcasts now msg m).1.1, t)
| st_pingreq now resp m t : (forall r, resp = Some r -> Forall update_ok (Updates r)) ->
    mstep (m, t) ((HandlePingReq sort_broadcasts now resp m).1.1, t)
| st_sync now remote rd m t : Forall update_ok remote -> (forall d, rd = Some d -> desc_ok d) ->
    mstep (m, t) ((HandleGossipSync range_members sort_broadcasts now remote rd m).1.1, t)
| st_discover now remote rd m t : Forall update_ok remote -> (forall d, rd = Some d -> desc_ok d) ->
    mstep (m, t) ((syncWithPeer range_members sort_broadcasts now (Some (remote, rd)) m).1, t)
| st_ring rd m t : desc_ok rd -> mstep (m, t) ((ApplyRingDescriptor range_members sort_broadcasts rd m).1, t)
| st_reap now ids m : mstep (m, None) (reapDeadNodes now ids m, None)
| st_pick m : mstep (m, None) ((nextProbeTarget range_members shuffle m).1, MNodeID <$> (nextProbeTarget range_members shuffle m).2)
| st_send m t : mstep (m, Some t) ((probe_send sort_broadcasts m).1, Some t)
| st_ack now resp m t : Forall update_ok (Updates resp) -> (forall d, RingDesc resp = Some d -> desc_ok d) ->
    mstep (m, Some t) ((probe_ack range_members sort_broadcasts now t resp m).1, None)
| st_indirect now m t : mstep (m, Some t) ((probe_refute sort_broadcasts now t m).1, None)
| st_fail now m t : mstep (m, Some t) ((probe_fail sort_broadcasts now t m).1, None)
| st_timer now id m t : mstep (m, t) ((suspectTimeout sort_broadcasts now id m).1, t)
| st_stop m t : mstep (m, t) (StopMembership m, t).

Definition probing_ok (s : Membership * option bytes) : Prop := mem_ok s.1 /\ s.2 <> Some (CNodeID c).

Lemma maxPiggyback_pos m : 0 <= maxPiggyback m.
Proof. unfold maxPiggyback, defaultMaxPiggyback. destruct (Z.ltb_spec 0 (MaxPiggyback (cfg m))); lia. Qed.

Lemma mem_self m : mem_ok m -> selfID m = CNodeID c.
Proof. intros [[E] _]. unfold selfID. by rewrite E. Qed.

Lemma mstep_ok s s' : probing_ok s -> mstep s s' -> probing_ok s'.
Proof using Hrange Hsort Hshuffle.
  intros [Hm Ht] Hs. destruct Hs as [now msg m t Hu Hd|now resp m t Hu|now remote rd m t Hu Hd|now remote rd m t Hu Hd|rd m t Hd|now ids m|m|m t|now resp m t Hu Hd|now m t|now m t|now id m t|m t]; (split; [|try done]); cbn in Hm, Ht |- *.
  - unfold HandlePing. pose proof (mergeAll_ok now _ m Hm Hu) as H1. destruct (mergeL now (Updates msg) m) as [m1 evs].
    pose proof (applyNewer_ok _ m1 H1 Hd) as H2. destruct (applyNewer _ _ (RingDesc msg) m1) as [m2 cb].
    pose proof (getBroadcasts_ok (maxPiggyback m2) m2 (maxPiggyback_pos m2) H2) as [H3 _]. by destruct (getBroadcastsLocked _ _ m2).
  - unfold HandlePingReq. destruct resp as [r|]; [|done]. pose proof (mergeAll_ok now _ m Hm (Hu r eq_refl)) as H1. by destruct (mergeL now (Updates r) m).
  - unfold HandleGossipSync. pose proof (mergeAll_ok now _ m Hm Hu) as H1. destruct (mergeL now remote m) as [m1 evs].
    pose proof (applyNewer_ok _ m1 H1 Hd) as H2. by destruct (applyNewer _ _ rd m1).
  - unfold syncWithPeer. pose proof (mergeAll_ok now _ m Hm Hu) as H1. destruct (mergeL now remote m) as [m1 evs].
    pose proof (applyNewer_ok _ m1 H1 Hd) as H2. by destruct (applyNewer _ _ rd m1).
  - unfold ApplyRingDescriptor. destruct (_ <=? _); [done|]. by apply applyRing_ok.
  - by apply reapDead_ok.
  - by apply nextProbeTarget_ok.
  - destruct (nextProbeTarget_ok m Hm) as [_ Hn]. destruct (nextProbeTarget _ _ m) as [m1 [ms|]]; [|done]. cbn. specialize (Hn ms eq_refl).
    rewrite (mem_self m Hm) in Hn. congruence.
  - unfold probe_send. pose proof (getBroadcasts_ok (maxPiggyback m) m (maxPiggyback_pos m) Hm) as [H3 _]. by destruct (getBroadcastsLocked _ _ m).
  - unfold probe_ack. pose proof (mergeAll_ok now _ m Hm Hu) as H1. destruct (mergeL now (Updates resp) m) as [m1 evs].
    pose proof (applyNewer_ok _ m1 H1 Hd) as H2. destruct (applyNewer _ _ (RingDesc resp) m1) as [m2 cb].
    pose proof (probe_refute_ok now t m2 H2) as H3. by destruct (probe_refute _ now t m2).
  - by apply probe_refute_ok.
  - apply probe_fail_ok; [done|]. rewrite (mem_self m Hm). congruence.
  - by apply suspectTimeout_ok.
  - destruct Hm as [[] Hb]. split; [|done]. split; try done.
Qed.

Lemma NewMembership_ok : probing_ok (NewMembership c, None).
Proof.
  split; [|done]. split; [|unfold max_broadcasts; cbn; change (len (@nil broadcast)) with 0; destruct (Z.leb_spec (MaxBroadcasts c) 0); lia].
  split; cbn; try done.
  - eexists. unfold selfID. cbn. by rewrite lookup_singleton_eq.
  - intros id ms. rewrite lookup_singleton_Some. by intros [<- <-].
  - intros id ms. rewrite lookup_singleton_Some. intros [<- <-]. unfold live_ok, Alive. cbn. lia.
  - intros id. rewrite lookup_empty. split; [by intros []|]. intros (ms & E & Hd). apply lookup_singleton_Some in E as [<- <-]. done.
  - intros id ms. rewrite lookup_singleton_Some. by intros [<- <-].
  - constructor.
  - apply not_elem_of_nil.
Qed.

(** ** Ring versions only grow *)
Lemma setLive_desc now id to m : ringDesc (setLive now id to m).1 = ringDesc m.
Proof. unfold setLivenessLocked. destruct (members m !! id); [|done]. destruct (_ =? _); [done|]. cbn. by destruct (_ =? Suspect). Qed.
Lemma merge_desc now u m : ringDesc (merge now u m).1 = ringDesc m.
Proof.
  unfold mergeLocked. destruct (members m !! MNodeID u) as [local|]; [|by destruct (_ =? Dead)].
  destruct (_ && _); [by destruct (_ <=? _)|]. destruct (_ <? _); [destruct (negb _); [by rewrite setLive_desc|done]|].
  destruct (_ && _); [by rewrite setLive_desc|done].
Qed.
Lemma mergeAll_desc now us m : ringDesc (mergeL now us m).1 = ringDesc m.
Proof.
  revert m; induction us as [|u us IH]; intros m; [done|]. cbn [mergeAll]. pose proof (merge_desc now u m) as H1.
  destruct (merge now u m) as [m1 ev]. specialize (IH m1). destruct (mergeL now us m1). cbn in *. congruence.
Qed.
Definition desc_le (a b : RingDescriptor) : Prop := a = b \/ Version a < Version b.
Lemma applyNewer_desc rd m : desc_le (ringDesc m) (ringDesc (applyNewer range_members sort_broadcasts rd m).1).
Proof. unfold applyNewer. destruct rd as [d|]; [|by left]. destruct (Z.ltb_spec (Version (ringDesc m)) (Version d)); [by right|by left]. Qed.
Lemma reap_desc now timeout ids m : ringDesc (fold_left (reapOne now timeout) ids m) = ringDesc m.
Proof.
  revert m; induction ids as [|id ids IH]; intros m; [done|]. cbn. rewrite IH. unfold reapOne. destruct (deadSince m !! id); [|done].
  destruct (_ <? _); [done|]. destruct (members m !! id); [|done]. by destruct (_ && _).
Qed.
Lemma nextProbe_desc rest m : ringDesc (nextProbe_loop rest m).1 = ringDesc m.
Proof.
  revert m; induction rest as [|id rest IH]; intros m; cbn [nextProbe_loop]; [done|].
  destruct (members _ !! id) as [ms|]; [|by rewrite IH]. destruct (negb _); [done|by rewrite IH].
Qed.
Lemma getBroadcasts_desc limit m : ringDesc (getBroadcastsLocked sort_broadcasts limit m).1 = ringDesc m.
Proof. unfold getBroadcastsLocked. destruct (broadcasts m); [done|]. by destruct (piggyback _ _ _). Qed.

Lemma mstep_desc s s' : mstep s s' -> desc_le (ringDesc s.1) (ringDesc s'.1).
Proof.
  intros Hs. destruct Hs as [now msg m t _ _|now resp m t _|now remote rd m t _ _|now remote rd m t _ _|rd m t _|now ids m|m|m t|now resp m t _ _|now m t|now m t|now id m t|m t]; cbn.
  - unfold HandlePing. pose proof (mergeAll_desc now (Updates msg) m) as H1. destruct (mergeL now (Updates msg) m) as [m1 evs]. cbn in H1. rewrite <-H1.
    pose proof (applyNewer_desc (RingDesc msg) m1) as H2. destruct (applyNewer _ _ (RingDesc msg) m1) as [m2 cb].
    pose proof (getBroadcasts_desc (maxPiggyback m2) m2) as H3. destruct (getBroadcastsLocked _ _ m2). cbn in *. by rewrite H3.
  - unfold HandlePingReq. destruct resp as [r|]; [|by left]. pose proof (mergeAll_desc now (Updates r) m) as H1. destruct (mergeL now (Updates r) m). by left.
  - unfold HandleGossipSync. pose proof (mergeAll_desc now remote m) as H1. destruct (mergeL now remote m) as [m1 evs]. cbn in H1. rewrite <-H1.
    pose proof (applyNewer_desc rd m1) as H2. by destruct (applyNewer _ _ rd m1).
  - unfold syncWithPeer. pose proof (mergeAll_desc now remote m) as H1. destruct (mergeL now remote m) as [m1 evs]. cbn in H1. rewrite <-H1.
    pose proof (applyNewer_desc rd m1) as H2. by destruct (applyNewer _ _ rd m1).
  - unfold ApplyRingDescriptor. destruct (Z.leb_spec (Version rd) (Version (ringDesc m))); [by left|by right].
  - unfold reapDeadNodes. destruct (_ <=? _); [by left|]. rewrite reap_desc. by left.
  - unfold nextProbeTarget. destruct (_ || _); rewrite nextProbe_desc; by left.
  - unfold probe_send. pose proof (getBroadcasts_desc (maxPiggyback m) m) as H3. destruct (getBroadcastsLocked _ _ m). cbn in *. rewrite H3. by left.
  - unfold probe_ack. pose proof (mergeAll_desc now (Updates resp) m) as H1. destruct (mergeL now (Updates resp) m) as [m1 evs]. cbn in H1. rewrite <-H1.
    pose proof (applyNewer_desc (RingDesc resp) m1) as H2. destruct (applyNewer _ _ (RingDesc resp) m1) as [m2 cb]. cbn in H2.
    assert (ringDesc (probe_refute sort_broadcasts now t m2).1 = ringDesc m2) as H3.
    { unfold probe_refute. destruct (members m2 !! t); [|done]. destruct (_ =? _); [apply setLive_desc|done]. }
    destruct (probe_refute _ now t m2). cbn in *. by rewrite H3.
  - unfold probe_refute. destruct (members m !! t); [|by left]. destruct (_ =? _); [rewrite setLive_desc|]; by left.
  - unfold probe_fail. destruct (members m !! t); [|by left]. destruct (_ =? _); [|by left]. pose proof (setLive_desc now t Suspect m). destruct (setLive now t Suspect m). by left.
  - unfold suspectTimeout. destruct (members m !! id); [|by left]. destruct (negb _); [by left|]. rewrite setLive_desc. by left.
  - by left.
Qed.

(** C19: The membership state is consistent.  Over every interleaving of messages from
    well-behaved nodes, probes, timers, ring changes and reaping: the node holds
    itself alive, exactly the dead members carry a time of death, only suspected
    members have a timer, every member has the ring state of the descriptor, the
    retransmit buffer is bounded, the node never probes itself, and the descriptor
    only moves to higher versions. *)
Theorem membership_invariant s s' :
  rtc mstep (NewMembership c, None) s -> rtc mstep s s' -> probing_ok s' /\ desc_le (ringDesc s.1) (ringDesc s'.1).
Proof using Hrange Hsort Hshuffle.
  intros H1 H2. assert (forall a b, probing_ok a -> rtc mstep a b -> probing_ok b) as Hok.
  { intros a b Ha Hab. induction Hab as [|a b d Hab _ IH]; [done|]. by eapply IH, mstep_ok. }
  split; [eapply Hok; [|exact H2]; eapply Hok; [apply NewMembership_ok|exact H1]|].
  clear H1. induction H2 as [|a b d Hab _ IH]; [by left|]. apply mstep_desc in Hab. unfold desc_le in *. destruct Hab as [->|], IH as [<-|]; auto; right; lia.
Qed.

(** ** Gossip is a join *)
Definition rank (m : Membership) (id : bytes) : option (Z * Z) := (fun ms => (Incarnation ms, Liveness ms)) <$> members m !! id.
Definition rank_of (u : MemberState) : option (Z * Z) := Some (Incarnation u, Liveness u).
Definition rle (a b : option (Z * Z)) : Prop :=
  match a, b with
  | None, _ => True
  | Some _, None => False
  | Some a, Some b => a.1 < b.1 \/ (a.1 = b.1 /\ a.2 <= b.2)
  end.
Lemma rle_refl a : rle a a.
Proof. destruct a as [[]|]; cbn; [right; lia|done]. Qed.
Lemma rle_trans a b d : rle a b -> rle b d -> rle a d.
Proof. destruct a as [[]|], b as [[]|], d as [[]|]; cbn; try done; lia. Qed.
Lemma rle_antisym a b : rle a b -> rle b a -> a = b.
Proof. destruct a as [[]|], b as [[]|]; cbn; try done. intros ??. do 2 f_equal; lia. Qed.

Lemma setLive_rank now id to m v :
  rank (setLive now id to m).1 v = if decide (v = id) then (fun ms => (Incarnation ms, to)) <$> members m !! id else rank m v.
Proof.
  unfold rank, setLivenessLocked. destruct (members m !! id) as [ms|] eqn:E.
  2:{ cbn [fst]. destruct (decide (v = id)) as [->|]; [by rewrite E|done]. }
  destruct (Z.eqb_spec (Liveness ms) to) as [El|El]; cbn [fst].
  { destruct (decide (v = id)) as [->|]; [rewrite E; cbn; by rewrite El|done]. }
  assert (forall m', members m' = <[id := set_liveness to ms]> (members m) -> (fun x => (Incarnation x, Liveness x)) <$> members (queue (set_liveness to ms) m') !! v =
    if decide (v = id) then Some (Incarnation ms, to) else (fun x => (Incarnation x, Liveness x)) <$> members m !! v) as H.
  { intros m' Em. cbn. rewrite Em. destruct (decide (v = id)) as [->|Hn]; [by rewrite lookup_insert_eq|by rewrite lookup_insert_ne]. }
  cbn [fmap option_fmap option_map] in *. apply H. by destruct (_ =? Suspect).
Qed.

(** A merge takes the greater of what is known and what is told. *)
Lemma merge_rank now u m v :
  v <> selfID m -> let r := rank (merge now u m).1 v in
  (r = rank m v \/ (v = MNodeID u /\ r = rank_of u)) /\ rle (rank m v) r /\ (v = MNodeID u -> rle (rank_of u) r).
Proof.
  intros Hv. cbn zeta. unfold mergeLocked. destruct (decide (v = MNodeID u)) as [->|Hn].
  2:{ assert (rank (merge now u m).1 v = rank m v) as E; [|unfold mergeLocked in E; rewrite E; split; [by left|]; split; [apply rle_refl|done]].
      unfold mergeLocked, rank. destruct (members m !! MNodeID u) as [local|]; [|destruct (_ =? Dead); cbn; by rewrite lookup_insert_ne].
      destruct (_ && _); [destruct (_ <=? _); [cbn; by rewrite lookup_insert_ne|done]|].
      destruct (_ <? _); [destruct (negb _); [|cbn; by rewrite lookup_insert_ne]|destruct (_ && _); [|done]].
      all: match goal with |- context [(setLive ?n0 ?i ?to ?m1).1] => pose proof (setLive_rank n0 i to m1 v) as Hr end; unfold rank in Hr; rewrite Hr, decide_False by done; clear Hr.
      { cbn. by rewrite lookup_insert_ne. }
      done. }
  unfold rank at 2 4. destruct (members m !! MNodeID u) as [local|] eqn:E; cbn [fmap option_fmap option_map].
  2:{ assert (forall m1 x, members m1 = <[MNodeID u := set_ring x u]> (members m) ->
        (rank m1 (MNodeID u) = None \/ MNodeID u = MNodeID u /\ rank m1 (MNodeID u) = rank_of u) /\
        rle None (rank m1 (MNodeID u)) /\ (MNodeID u = MNodeID u -> rle (rank_of u) (rank m1 (MNodeID u)))) as H.
      { intros m1 x Em. assert (rank m1 (MNodeID u) = rank_of u) as -> by (unfold rank; by rewrite Em, lookup_insert_eq).
        split; [by right|]. split; [done|]. intros _. apply rle_refl. }
      destruct (_ =? Dead); by eapply H. }
  unfold bytes_Equal. rewrite bool_decide_eq_false_2 by done. cbn [andb].
  assert (forall new m1, members m1 = <[MNodeID u := new]> (members m) -> members m1 !! MNodeID u = Some new) as Hl by (intros new m1 ->; apply lookup_insert_eq).
  destruct (Z.ltb_spec (Incarnation local) (Incarnation u)) as [Hi|Hi].
  - assert (forall m2, rank m2 (MNodeID u) = rank_of u ->
      (rank m2 (MNodeID u) = Some (Incarnation local, Liveness local) \/ MNodeID u = MNodeID u /\ rank m2 (MNodeID u) = rank_of u) /\
      rle (Some (Incarnation local, Liveness local)) (rank m2 (MNodeID u)) /\ (MNodeID u = MNodeID u -> rle (rank_of u) (rank m2 (MNodeID u)))) as Hfin.
    { intros m2 ->. split; [by right|]. split; [left; done|]. intros _. apply rle_refl. }
    apply Hfin. destruct (Z.eqb_spec (Liveness u) (Liveness local)) as [El|El]; cbn [negb].
    + unfold rank. cbn. rewrite lookup_insert_eq. cbn. unfold rank_of. by rewrite El.
    + rewrite setLive_rank, decide_True by done. cbn. by rewrite lookup_insert_eq.
  - destruct (Z.eqb_spec (Incarnation u) (Incarnation local)) as [Ei|Ei], (Z.ltb_spec (Liveness local) (Liveness u)) as [Hlv|Hlv]; cbn [andb fst].
    + rewrite setLive_rank, decide_True by done. rewrite E. cbn. unfold rank_of. rewrite Ei. split; [by right|]. split; [right; cbn; lia|]. intros _. right. cbn. lia.
    + unfold rank. rewrite E. cbn. split; [by left|]. split; [right; lia|]. intros _. right. cbn. lia.
    + unfold rank. rewrite E. cbn. split; [by left|]. split; [right; lia|]. intros _. left. cbn. lia.
    + unfold rank. rewrite E. cbn. split; [by left|]. split; [right; lia|]. intros _. left. cbn. lia.
Qed.

Lemma setLive_cfg now id to m : cfg (setLive now id to m).1 = cfg m.
Proof. unfold setLivenessLocked. destruct (members m !! id); [|done]. destruct (_ =? _); [done|]. cbn. by destruct (_ =? Suspect). Qed.
Lemma merge_cfg now u m : cfg (merge now u m).1 = cfg m.
Proof.
  unfold mergeLocked. destruct (members m !! MNodeID u) as [local|]; [|by destruct (_ =? Dead)].
  destruct (_ && _); [by destruct (_ <=? _)|]. destruct (_ <? _); [destruct (negb _); [by rewrite setLive_cfg|done]|].
  destruct (_ && _); [by rewrite setLive_cfg|done].
Qed.

(** After the updates [us] the rank is the greatest of those told and the one known before. *)
Lemma mergeAll_rank now us m v :
  v <> selfID m -> let r := rank (mergeL now us m).1 v in
  (r = rank m v \/ exists u, u ∈ us /\ v = MNodeID u /\ r = rank_of u) /\ rle (rank m v) r /\ forall u, u ∈ us -> v = MNodeID u -> rle (rank_of u) r.
Proof.
  revert m; induction us as [|u us IH]; intros m Hv; cbn zeta; cbn [mergeAll].
  { split; [by left|]. split; [apply rle_refl|]. intros u []%not_elem_of_nil. }
  destruct (merge_rank now u m v Hv) as (A1 & A2 & A3). pose proof (merge_cfg now u m) as Ec. destruct (merge now u m) as [m1 ev]. cbn [fst] in *.
  assert (v <> selfID m1) as Hv1 by (unfold selfID in *; by rewrite Ec). destruct (IH m1 Hv1) as (B1 & B2 & B3). destruct (mergeL now us m1) as [m2 evs]. cbn [fst] in *.
  split_and!.
  - destruct B1 as [->|(w & Hw & Hid & ->)]; [destruct A1 as [->|[? ->]]; [by left|right; exists u; split; [left|done]]|right; exists w; split; [by right|done]].
  - by eapply rle_trans.
  - intros w [->|Hw]%elem_of_cons Hid; [eapply rle_trans; [by apply A3|done]|by apply B3].
Qed.

(** What the node knows of a member, its address included. *)
Definition known (m : Membership) (id : bytes) : option (Z * Z * bytes) := (fun ms => (Incarnation ms, Liveness ms, MAddr ms)) <$> members m !! id.
Lemma known_rank m1 m2 v : known m1 v = known m2 v -> rank m1 v = rank m2 v.
Proof. unfold known, rank. destruct (members m1 !! v), (members m2 !! v); cbn; congruence. Qed.
(** In its incarnation [i] the member [v] has the address [A i]: so the node knows it. *)
Definition addressed (A : Z -> bytes) (v : bytes) (m : Membership) : Prop := forall ms, members m !! v = Some ms -> MAddr ms = A (Incarnation ms).

Lemma setLive_addressed A now id to m v : addressed A v m -> addressed A v (setLive now id to m).1.
Proof.
  intros HA ms. unfold setLivenessLocked. destruct (members m !! id) as [x|] eqn:E; [|by apply HA]. destruct (_ =? to); [by apply HA|].
  cbn [fst]. assert (forall m', members m' = <[id := set_liveness to x]> (members m) -> members m' !! v = Some ms -> MAddr ms = A (Incarnation ms)) as H.
  { intros m' E'. rewrite E', lookup_insert_Some. intros [[<- <-]|[_ Hv]]; [exact (HA x E)|by apply HA]. }
  destruct (_ =? Suspect); by apply H.
Qed.
Lemma merge_addressed A now u m v :
  v <> selfID m -> (MNodeID u = v -> MAddr u = A (Incarnation u)) -> addressed A v m -> addressed A v (merge now u m).1.
Proof.
  intros Hv Hu HA. unfold mergeLocked.
  assert (forall m' x, members m' = <[MNodeID u := x]> (members m) -> (MNodeID u = v -> MAddr x = A (Incarnation x)) -> addressed A v m') as Hins.
  { intros m' x E Hx ms. rewrite E, lookup_insert_Some. intros [[Ev <-]|[_ Hm]]; [by apply Hx|by apply HA]. }
  destruct (members m !! MNodeID u) as [local|] eqn:E.
  - unfold bytes_Equal. case_bool_decide as Hs; cbn [andb].
    { destruct (Alive <? Liveness u).
      - destruct (_ <=? _); [|done]. eapply Hins; [done|]. intros Ev. congruence.
      - destruct (_ <? _); [|destruct (_ && _); [by apply setLive_addressed|done]].
        destruct (negb _); [apply setLive_addressed|]; (eapply Hins; [done|exact Hu]). }
    destruct (_ <? _); [|destruct (_ && _); [by apply setLive_addressed|done]].
    destruct (negb _); [apply setLive_addressed|]; (eapply Hins; [done|exact Hu]).
  - destruct (_ =? Dead); (eapply Hins; [done|exact Hu]).
Qed.
Lemma mergeAll_addressed A now us m v :
  v <> selfID m -> (forall u, u ∈ us -> MNodeID u = v -> MAddr u = A (Incarnation u)) -> addressed A v m -> addressed A v (mergeL now us m).1.
Proof.
  revert m; induction us as [|u us IH]; intros m Hv Hu HA; cbn [mergeAll]; [done|].
  pose proof (merge_addressed A now u m v Hv (Hu u ltac:(left)) HA) as H1. pose proof (merge_cfg now u m) as Ec.
  destruct (merge now u m) as [m1 ev]. cbn [fst] in *. assert (v <> selfID m1) as Hv1 by (unfold selfID in *; by rewrite Ec).
  specialize (IH m1 Hv1 (fun w Hw => Hu w ltac:(by right)) H1). by destruct (mergeL now us m1).
Qed.

(** C20: Gossip converges.  Two nodes that knew the same about a third one and then
    received the same updates, in any order, at any times and any number of times
    each, agree on its incarnation and liveness; and on its address too, if no two
    updates, and no update and what was known before, give one incarnation two
    addresses.  The code does not ensure that, since a node that restarts begins
    again at incarnation 1: [gossip_address_diverges]. *)
Theorem gossip_converges now1 now2 us1 us2 m1 m2 v :
  v <> selfID m1 -> v <> selfID m2 -> known m1 v = known m2 v -> (forall u, u ∈ us1 <-> u ∈ us2) ->
  let m1' := (mergeL now1 us1 m1).1 in let m2' := (mergeL now2 us2 m2).1 in
  rank m1' v = rank m2' v /\
  ((exists A : Z -> bytes, addressed A v m1 /\ forall u, u ∈ us1 -> MNodeID u = v -> MAddr u = A (Incarnation u)) -> known m1' v = known m2' v).
Proof.
  intros H1 H2 E Hu m1' m2'. assert (rank m1' v = rank m2' v) as Hr.
  { subst m1' m2'. apply known_rank in E. destruct (mergeAll_rank now1 us1 m1 v H1) as (A1 & A2 & A3). destruct (mergeAll_rank now2 us2 m2 v H2) as (B1 & B2 & B3).
    apply rle_antisym.
    - destruct A1 as [->|(u & Hin & Hv & ->)]; [by rewrite E|]. by apply B3; [apply Hu|].
    - destruct B1 as [->|(u & Hin & Hv & ->)]; [by rewrite <-E|]. by apply A3; [apply Hu|]. }
  split; [done|]. intros (A & HA & HuA). pose proof (mergeAll_addressed A now1 us1 m1 v H1 HuA HA) as F1. fold m1' in F1.
  assert (addressed A v m2') as F2.
  { apply mergeAll_addressed; [done|by intros u Hin; apply HuA, Hu|]. intros ms Hms. unfold known in E. rewrite Hms in E.
    destruct (members m1 !! v) as [ms1|] eqn:E1; [|done]. injection E as <- _ <-. by apply HA. }
  unfold rank, known in *. destruct (members m1' !! v) as [x|] eqn:X1, (members m2' !! v) as [y|] eqn:X2; cbn in *; try done.
  injection Hr as Ei El. by rewrite (F1 x X1), (F2 y X2), Ei, El.
Qed.

(** A live node clears itself.  A node that is told it is suspected or dead, at its
    own incarnation or a later one, answers with a higher incarnation and stays
    alive; any other node that has heard nothing newer than the accusation takes
    that answer and holds it alive again. *)
Theorem refutation_wins now u m now2 other :
  core_ok m -> MNodeID u = selfID m -> Alive < Liveness u -> 0 <= Incarnation u < 2^64 - 1 ->
  (forall ms, members m !! selfID m = Some ms -> Incarnation ms <= Incarnation u) ->
  selfID other <> selfID m -> rle (rank other (selfID m)) (Some (Incarnation u, Dead)) ->
  exists me, members (merge now u m).1 !! selfID m = Some me /\ MNodeID me = selfID m /\ Liveness me = Alive /\ Incarnation me = Incarnation u + 1 /\
    rank (merge now2 me other).1 (selfID m) = Some (Incarnation u + 1, Alive).
Proof.
  intros Hm Hid Hl Hi Hinc Hne Hle. destruct (co_self m Hm) as (ms & E & Ha). specialize (Hinc ms E). pose proof (co_id m Hm _ _ E) as Hn.
  exists (set_liveness Alive (set_incarnation (u64 (Incarnation u + 1)) ms)). assert (u64 (Incarnation u + 1) = Incarnation u + 1) as Eu by (unfold u64; apply Z.mod_small; lia).
  assert (members (merge now u m).1 !! selfID m = Some (set_liveness Alive (set_incarnation (u64 (Incarnation u + 1)) ms))) as El.
  { unfold mergeLocked. rewrite Hid, E. unfold bytes_Equal. rewrite bool_decide_eq_true_2, (proj2 (Z.ltb_lt _ _)), (proj2 (Z.leb_le _ _)) by done. cbn. apply lookup_insert_eq. }
  split_and!; try done. rewrite Eu. set (me := set_liveness _ _).
  destruct (merge_rank now2 me other (selfID m)) as (A1 & A2 & A3); [congruence|]. specialize (A3 (eq_sym Hn)).
  destruct A1 as [E1|[_ ->]]; [|done]. exfalso. rewrite E1 in A3. pose proof (rle_trans _ _ _ A3 Hle) as Hx. unfold rank_of in Hx. cbn in Hx. lia.
Qed.

(** ** Suspicion learned by gossip *)
(** What the node does on its own: failed probes, its timers, reaping, the choice
    of targets, outgoing pings. *)
Inductive local_step : Membership -> Membership -> Prop :=
| ls_fail now t m : local_step m (probe_fail sort_broadcasts now t m).1
| ls_timer now id m : id ∈ suspectTimers m -> local_step m (suspectTimeout sort_broadcasts now id m).1
| ls_reap now ids m : local_step m (reapDeadNodes now ids m)
| ls_pick m : local_step m (nextProbeTarget range_members shuffle m).1
| ls_send m : local_step m (probe_send sort_broadcasts m).1.

Definition stuck_suspect (id : bytes) (m : Membership) : Prop :=
  (exists ms, members m !! id = Some ms /\ Liveness ms = Suspect) /\ id ∉ suspectTimers m.

Lemma setLive_other now id to m v : v <> id ->
  members (setLive now id to m).1 !! v = members m !! v /\ (v ∉ suspectTimers m -> v ∉ suspectTimers (setLive now id to m).1).
Proof using Type. clear Hrange Hsort Hshuffle.
  intros Hv. unfold setLivenessLocked. destruct (members m !! id); [|done]. destruct (_ =? _); [done|]. cbn.
  split; [destruct (_ =? Suspect); cbn; by rewrite lookup_insert_ne|]. destruct (_ =? Suspect); cbn; set_solver.
Qed.

Lemma nextProbe_members rest m : members (nextProbe_loop rest m).1 = members m /\ suspectTimers (nextProbe_loop rest m).1 = suspectTimers m.
Proof using Type. clear Hrange Hsort Hshuffle.
  revert m; induction rest as [|id rest IH]; intros m; cbn [nextProbe_loop]; [done|].
  destruct (members _ !! id) as [ms|]; [|by destruct (IH (set_probe (probeOrder m) (S (probeIdx m)) (probeOrderGen m) m)) as [-> ->]].
  destruct (negb _); [done|by destruct (IH (set_probe (probeOrder m) (S (probeIdx m)) (probeOrderGen m) m)) as [-> ->]].
Qed.

Lemma stuck_step id m m' : stuck_suspect id m -> local_step m m' -> stuck_suspect id m'.
Proof using Type. clear Hrange Hsort Hshuffle.
  intros [(ms & E & Hs) Ht] Hl. destruct Hl as [now t m|now t m Hin|now ids m|m|m].
  - unfold probe_fail. destruct (members m !! t) as [mt|] eqn:Et; [|by split; eauto]. destruct (Z.eqb_spec (Liveness mt) Alive) as [Ea|]; [|by split; eauto].
    assert (id <> t) as Hne by (intros ->; rewrite E in Et; simplify_eq; rewrite Hs in Ea; done).
    destruct (setLive_other now t Suspect m id Hne) as [H1 H2]. destruct (setLive now t Suspect m) as [m1 ev]. cbn in *.
    split; cbn; [rewrite H1; eauto|]. specialize (H2 Ht). set_solver.
  - assert (id <> t) as Hne by congruence. unfold suspectTimeout. destruct (members m !! t); [|by split; eauto]. destruct (negb _); [by split; eauto|].
    destruct (setLive_other now t Dead m id Hne) as [H1 H2]. split; [rewrite H1; eauto|by apply H2].
  - unfold reapDeadNodes. destruct (_ <=? _); [by split; eauto|]. generalize (DeadNodeReapTimeout (cfg m)) as timeout. intros timeout. revert m E Ht.
    induction ids as [|u ids IH]; intros m E Ht; [by split; eauto|]. cbn. unfold reapOne at 2.
    destruct (deadSince m !! u); [|by apply IH]. destruct (_ <? _); [by apply IH|]. destruct (members m !! u) as [mu|] eqn:Eu; [|by apply IH].
    destruct (Z.eqb_spec (Liveness mu) Dead) as [Ed|]; [|by apply IH]. destruct (_ =? RingNone); [|by apply IH]. apply IH; [|done]. cbn.
    rewrite lookup_delete_ne; [done|]. intros ->. rewrite E in Eu. simplify_eq. by rewrite Hs in Ed.
  - unfold nextProbeTarget. destruct (_ || _).
    + destruct (nextProbe_members (drop (probeIdx (rebuildProbeOrderLocked range_members shuffle m)) (probeOrder (rebuildProbeOrderLocked range_members shuffle m))) (rebuildProbeOrderLocked range_members shuffle m)) as [H1 H2].
      split; [rewrite H1; eauto|by rewrite H2].
    + destruct (nextProbe_members (drop (probeIdx m) (probeOrder m)) m) as [H1 H2]. split; [rewrite H1; eauto|by rewrite H2].
  - unfold probe_send, getBroadcastsLocked. destruct (broadcasts m); [by split; eauto|]. destruct (piggyback _ _ _). by split; eauto.
Qed.

(** A suspicion learned by gossip never times out here.  The merge sets no timer
    and failed probes only act on members held alive: whatever the node does by
    itself afterwards, however often its probes fail, the member stays suspected
    and routable, until another message about it arrives. *)
Theorem gossip_suspect_sticks now u m ms m' :
  core_ok m -> MNodeID u <> selfID m -> members m !! MNodeID u = Some ms -> Liveness ms = Alive ->
  Incarnation ms <= Incarnation u -> Liveness u = Suspect ->
  rtc local_step (merge now u m).1 m' ->
  IsRoutable m' (MNodeID u) = true /\ IsAlive m' (MNodeID u) = false.
Proof using Type. clear Hrange Hsort Hshuffle.
  intros Hm Hns E Ha Hi Hs Hrun.
  assert (stuck_suspect (MNodeID u) (merge now u m).1) as H0.
  { assert (MNodeID u ∉ suspectTimers m) as Ht by (intros Hin; destruct (co_timer m Hm _ Hin) as (x & Ex & Hx); rewrite E in Ex; simplify_eq; rewrite Ha in Hx; done).
    unfold mergeLocked. rewrite E. unfold bytes_Equal. rewrite bool_decide_eq_false_2 by done. cbn [andb]. rewrite Hs, Ha. unfold Alive, Suspect.
    destruct (Z.ltb_spec (Incarnation ms) (Incarnation u)).
    - cbn [negb Z.eqb]. split.
      + eapply setLive_lookup. cbn. apply lookup_insert_eq.
      + unfold setLivenessLocked. cbn. rewrite lookup_insert_eq. cbn. done.
    - rewrite (proj2 (Z.eqb_eq _ _)) by lia. cbn [andb Z.ltb Z.compare]. split; [by eapply setLive_lookup|].
      unfold setLivenessLocked. rewrite E, Ha. cbn. done. }
  assert (stuck_suspect (MNodeID u) m') as [(x & Ex & Hx) _].
  { induction Hrun as [|a b d Hab _ IH]; [done|]. by eapply IH, stuck_step. }
  unfold IsRoutable, IsAlive. by rewrite Ex, Hx.
Qed.
End proofs.

(** ** Examples *)
Definition range_keys (ms : gmap bytes MemberState) : list bytes := (map_to_list ms).*1.
Definition by_retransmits (a b : broadcast) : Prop := retransmits b <= retransmits a.
#[global] Instance by_retransmits_dec a b : Decision (by_retransmits a b).
Proof. unfold by_retransmits. apply _. Defined.
Definition sort_desc : list broadcast -> list broadcast := merge_sort by_retransmits.
Definition shuffle_none (ids : list bytes) : list bytes := ids.

Lemma range_keys_spec ms id : id ∈ range_keys ms <-> is_Some (ms !! id).
Proof.
  unfold range_keys. rewrite list_elem_of_fmap. split.
  - intros ([k x] & -> & H%elem_of_map_to_list). by eexists.
  - intros [x Hx]. exists (id, x). split; [done|]. by apply elem_of_map_to_list.
Qed.
Lemma sort_desc_perm bs : sort_desc bs ≡ₚ bs.
Proof. apply merge_sort_Permutation. Qed.

Definition g_a : bytes := [Byte.x61].
Definition g_b : bytes := [Byte.x62].
Definition g_cfg (id : bytes) : ClusterConfig := DefaultClusterConfig id id.
Definition g_upd (id : bytes) (l inc : Z) : MemberState := mkMember id id l RingNone inc.
Definition g_msg (us : list MemberState) : PingMessage := mkPing g_b g_b us (Some (mkRD 1 [mkRM g_b g_b RingActive])).
(** Node [a] hears of [b] and of a suspicion of itself. *)
Definition g_state : Membership := (HandlePing range_keys sort_desc 5 (g_msg [g_upd g_b Alive 1; g_upd g_a Suspect 1]) (NewMembership (g_cfg g_a))).1.1.

Lemma g_reached : rtc (mstep range_keys sort_desc shuffle_none) (NewMembership (g_cfg g_a), None) (g_state, None).
Proof.
  apply rtc_once. apply st_ping.
  - repeat constructor; vm_compute; discriminate.
  - intros d [= <-]. apply NoDup_singleton.
Qed.

Lemma g_ok : probing_ok (g_cfg g_a) (g_state, None).
Proof.
  eapply (mstep_ok (g_cfg g_a) range_keys sort_desc shuffle_none range_keys_spec sort_desc_perm (fun ids => Permutation_refl ids));
    [apply NewMembership_ok|apply st_ping].
  - repeat constructor; vm_compute; discriminate.
  - intros d [= <-]. apply NoDup_singleton.
Qed.

Lemma membership_invariant_witness :
  probing_ok (g_cfg g_a) ((nextProbeTarget range_keys shuffle_none g_state).1, MNodeID <$> (nextProbeTarget range_keys shuffle_none g_state).2).
Proof.
  refine (proj1 (membership_invariant (g_cfg g_a) range_keys sort_desc shuffle_none range_keys_spec sort_desc_perm (fun ids => Permutation_refl ids)
    (g_state, None) _ g_reached _)).
  apply rtc_once, st_pick.
Defined.

Lemma gossip_converges_witness :
  known (mergeAll sort_desc 1 [g_upd g_b Suspect 1; g_upd g_b Alive 2] (NewMembership (g_cfg g_a))).1 g_b =
  known (mergeAll sort_desc 9 [g_upd g_b Alive 2; g_upd g_b Suspect 1; g_upd g_b Alive 2] (NewMembership (g_cfg [Byte.x63]))).1 g_b.
Proof.
  apply (gossip_converges sort_desc); [discriminate|discriminate|vm_compute; reflexivity|intros u; rewrite !elem_of_cons; tauto|].
  exists (fun _ => g_b). split; [intros ms Hms; vm_compute in Hms; discriminate Hms|].
  intros u [->|[->|Hu%not_elem_of_nil]%elem_of_cons]%elem_of_cons _; [reflexivity|reflexivity|destruct Hu].
Defined.

(** A flaw: addresses diverge.  A node restarts at another address, again with
    incarnation 1.  Whoever hears of the old address first keeps it, and whoever
    hears of the new one first keeps that: gossip does not bring the two together. *)
Theorem gossip_address_diverges :
  let old := mkMember g_b [Byte.x31] Alive RingNone 1 in let new := mkMember g_b [Byte.x32] Alive RingNone 1 in
  let told us := known (mergeAll sort_desc 1 us (NewMembership (g_cfg g_a))).1 g_b in
  told [old; new; old; new] = Some (1, Alive, [Byte.x31]) /\ told [new; old; new; old] = Some (1, Alive, [Byte.x32]).
Proof. vm_compute. done. Qed.

Lemma g_core id : core_ok (g_cfg id) (NewMembership (g_cfg id)).
Proof. exact (proj1 (proj1 (NewMembership_ok (g_cfg id)))). Qed.

Lemma refutation_wins_witness :
  exists me, members (mergeLocked sort_desc 5 (g_upd g_a Dead 7) (NewMembership (g_cfg g_a))).1 !! g_a = Some me /\
    rank (mergeLocked sort_desc 6 me (NewMembership (g_cfg g_b))).1 g_a = Some (8, Alive).
Proof.
  destruct (refutation_wins (g_cfg g_a) sort_desc 5 (g_upd g_a Dead 7) (NewMembership (g_cfg g_a)) 6 (NewMembership (g_cfg g_b)) (g_core g_a)) as (me & E & _ & _ & _ & Hr);
    [reflexivity|reflexivity|cbn; lia|intros ms Hms; vm_compute in Hms; injection Hms as <-; cbn; lia|discriminate|exact I|].
  exists me. split; [exact E|exact Hr].
Defined.

Lemma g_known : members g_state !! g_b = Some (mkMember g_b g_b Alive RingActive 1).
Proof. vm_compute. reflexivity. Qed.
Lemma g_self : selfID g_state = g_a.
Proof. vm_compute. reflexivity. Qed.

Lemma probing_mem c m t : probing_ok c (m, t) -> mem_ok c m.
Proof. by intros [H _]. Qed.

Lemma gossip_suspect_sticks_witness :
  let u := g_upd g_b Suspect 1 in
  let m := (probe_fail sort_desc 9 g_b (mergeLocked sort_desc 5 u g_state).1).1 in
  IsRoutable m (MNodeID u) = true /\ IsAlive m (MNodeID u) = false.
Proof.
  intros u m. apply (gossip_suspect_sticks (g_cfg g_a) range_keys sort_desc shuffle_none 5 u g_state (mkMember g_b g_b Alive RingActive 1)).
  - exact (proj1 (probing_mem _ _ _ g_ok)).
  - rewrite g_self. discriminate.
  - exact g_known.
  - reflexivity.
  - reflexivity.
  - reflexivity.
  - apply rtc_once, ls_fail.
Defined.
