(* ===== verification/Admin.v ===== *)
(** * Ring administration (src/cluster/admin.go)

    The commands that change the ring: a node discovered by gossip joins, becomes
    active, and is removed.  Each command reads the descriptor, checks it against
    the version the client expects and the state of the node ([*_plan]), and hands
    the next descriptor to the membership.  The two halves take the membership
    lock separately, so that other changes can come between them. *)

From Stdlib Require Import ZArith Lia List.
From stdpp Require Import base list option gmap.
From S2P Require Import Prelude GoBytes HLC Member MemberProof.
Open Scope Z_scope.

Inductive AdminCode := AInvalidArgument | AFailedPrecondition | AAlreadyExists | ANotFound.

Section admin.
Context (range_members : gmap bytes MemberState -> list bytes) (sort_broadcasts : list broadcast -> list broadcast).
Abbreviation apply_desc := (ApplyRingDescriptor range_members sort_broadcasts).

(** ** Queries *)
Definition GetNodeInfo (self addr : bytes) (m : Membership) : bytes * bytes * LivenessState * RingState :=
  (self, addr, livenessOf m self, RingStateOf m self).
Definition GetClusterStatus (m : Membership) : list MemberState * RingDescriptor := (GetMembers range_members m, GetRingDescriptor m).

(** ** Commands *)
Definition in_ring (rd : RingDescriptor) (id : bytes) : bool := existsb (fun rm => bytes_Equal (RMNodeID rm) id) (RDMembers rd).

Definition JoinRing_plan (node addr : bytes) (expected : Z) (m : Membership) : outcome AdminCode RingDescriptor :=
  if bytes_Equal node [] then Err AInvalidArgument else
  if bytes_Equal addr [] then Err AInvalidArgument else
  if bytes_Equal (AddrOf m node) [] then Err AFailedPrecondition else
  let rd := GetRingDescriptor m in
  if negb (expected =? Version rd) then Err AFailedPrecondition else
  if in_ring rd node then Err AAlreadyExists else
  Ok (mkRD (u64 (Version rd + 1)) (RDMembers rd ++ [mkRM node addr RingJoining])).

(** The first member named [node], with its position. *)
Fixpoint findMember (i : nat) (rms : list RingMember) (node : bytes) : option (nat * RingMember) :=
  match rms with
  | [] => None
  | rm :: rms => if bytes_Equal (RMNodeID rm) node then Some (i, rm) else findMember (S i) rms node
  end.
Definition ActivateNode_plan (node : bytes) (expected : Z) (m : Membership) : outcome AdminCode RingDescriptor :=
  if bytes_Equal node [] then Err AInvalidArgument else
  let rd := GetRingDescriptor m in
  if negb (expected =? Version rd) then Err AFailedPrecondition else
  match findMember 0 (RDMembers rd) node with
  | None => Err ANotFound
  | Some (idx, rm) =>
      if negb (RMState rm =? RingJoining) then Err AFailedPrecondition else
      Ok (mkRD (u64 (Version rd + 1)) (<[idx := mkRM (RMNodeID rm) (RMAddr rm) RingActive]> (RDMembers rd)))
  end.

Definition RemoveNode_plan (node : bytes) (expected : Z) (m : Membership) : outcome AdminCode RingDescriptor :=
  if bytes_Equal node [] then Err AInvalidArgument else
  let rd := GetRingDescriptor m in
  if negb (expected =? Version rd) then Err AFailedPrecondition else
  if negb (in_ring rd node) then Err ANotFound else
  Ok (mkRD (u64 (Version rd + 1)) (filter (fun rm => RMNodeID rm <> node) (RDMembers rd))).

Inductive admin_cmd := AJoin (node addr : bytes) (expected : Z) | AActivate (node : bytes) (expected : Z) | ARemove (node : bytes) (expected : Z).
Definition plan (a : admin_cmd) (m : Membership) : outcome AdminCode RingDescriptor :=
  match a with
  | AJoin node addr v => JoinRing_plan node addr v m
  | AActivate node v => ActivateNode_plan node v m
  | ARemove node v => RemoveNode_plan node v m
  end.

(** The second half: the descriptor is applied, and the answer does not depend on
    whether it was. *)
Definition commit (p : outcome AdminCode RingDescriptor) (m : Membership) : Membership * option AdminCode :=
  match p with
  | Ok rd => ((apply_desc rd m).1, None)
  | Err e => (m, Some e)
  | Panic => (m, None)
  end.
Definition command (a : admin_cmd) (m : Membership) : Membership * option AdminCode := commit (plan a m) m.
Definition JoinRing (node addr : bytes) (expected : Z) := command (AJoin node addr expected).
Definition ActivateNode (node : bytes) (expected : Z) := command (AActivate node expected).
Definition RemoveNode (node : bytes) (expected : Z) := command (ARemove node expected).

(** ** The plans *)
Definition cmd_node (a : admin_cmd) : bytes := match a with AJoin n _ _ | AActivate n _ | ARemove n _ => n end.
Definition cmd_expected (a : admin_cmd) : Z := match a with AJoin _ _ v | AActivate _ v | ARemove _ v => v end.
(** When a command is accepted: its node is named, the client knows the version, and
    a node that joins is known by gossip and not in the ring, one that becomes active
    is joining, and one that is removed is in the ring, joining or active. *)
Definition cmd_ready (a : admin_cmd) (m : Membership) : Prop :=
  cmd_node a <> [] /\ cmd_expected a = Version (ringDesc m) /\
  match a with
  | AJoin node addr _ => addr <> [] /\ AddrOf m node <> [] /\ node ∉ map RMNodeID (RDMembers (ringDesc m))
  | AActivate node _ => node ∈ map RMNodeID (RDMembers (ringDesc m)) /\ ringStateFromDescriptor m node = RingJoining
  | ARemove node _ => node ∈ map RMNodeID (RDMembers (ringDesc m))
  end.
(** The state a command takes its node to. *)
Definition cmd_to (a : admin_cmd) : RingState := match a with AJoin _ _ _ => RingJoining | AActivate _ _ => RingActive | ARemove _ _ => RingNone end.

Lemma in_ring_spec rd id : in_ring rd id = true <-> id ∈ map RMNodeID (RDMembers rd).
Proof.
  unfold in_ring. rewrite existsb_exists. unfold bytes_Equal. setoid_rewrite bool_decide_eq_true. split.
  - intros (rm & Hin & <-). apply list_elem_of_fmap_2. by apply list_elem_of_In.
  - intros (rm & -> & Hin)%list_elem_of_fmap. exists rm. split; [by apply list_elem_of_In|done].
Qed.

Lemma state_absent rms id : id ∉ map RMNodeID rms -> ring_state_in rms id = RingNone.
Proof.
  induction rms as [|rm rms IH]; [done|]. cbn. intros [Hn1 Hn2]%not_elem_of_cons. unfold bytes_Equal. rewrite bool_decide_eq_false_2 by congruence. auto.
Qed.

Lemma state_app rms rm id :
  RMNodeID rm ∉ map RMNodeID rms -> ring_state_in (rms ++ [rm]) id = if decide (id = RMNodeID rm) then RMState rm else ring_state_in rms id.
Proof.
  induction rms as [|x rms IH]; cbn; unfold bytes_Equal.
  - intros _. destruct (decide (id = RMNodeID rm)) as [->|Hn]; [by rewrite bool_decide_eq_true_2|by rewrite bool_decide_eq_false_2 by congruence].
  - intros [Hn1 Hn2]%not_elem_of_cons. case_bool_decide as E; [|by apply IH]. rewrite decide_False; congruence.
Qed.

Lemma findMember_spec k rms node idx rm :
  findMember k rms node = Some (idx, rm) ->
  exists j, idx = (k + j)%nat /\ rms !! j = Some rm /\ RMNodeID rm = node /\ ring_state_in rms node = RMState rm.
Proof.
  revert k; induction rms as [|x rms IH]; intros k; cbn; [done|]. unfold bytes_Equal. case_bool_decide as E.
  - intros [= <- <-]. exists 0%nat. split_and!; [lia|done..].
  - intros H. destruct (IH (S k) H) as (j & -> & ?). exists (S j). split; [lia|done].
Qed.

Lemma state_insert rms j rm rm' id :
  NoDup (map RMNodeID rms) -> rms !! j = Some rm -> RMNodeID rm' = RMNodeID rm ->
  ring_state_in (<[j := rm']> rms) id = if decide (id = RMNodeID rm) then RMState rm' else ring_state_in rms id.
Proof.
  revert j; induction rms as [|x rms IH]; intros [|j] Hnd Hj Hid; cbn in *; try done; unfold bytes_Equal.
  - injection Hj as ->. rewrite Hid. destruct (decide (id = RMNodeID rm)) as [->|Hn]; [by rewrite bool_decide_eq_true_2|by rewrite !bool_decide_eq_false_2 by congruence].
  - apply NoDup_cons in Hnd as [Hx Hnd]. case_bool_decide as E.
    + rewrite decide_False; [done|]. intros ->. apply Hx. rewrite E. by eapply (list_elem_of_fmap_2 RMNodeID), list_elem_of_lookup_2.
    + by apply IH.
Qed.

Lemma state_filter rms node id :
  ring_state_in (filter (fun rm => RMNodeID rm <> node) rms) id = if decide (id = node) then RingNone else ring_state_in rms id.
Proof.
  induction rms as [|x rms IH]; [by destruct (decide _)|]. rewrite filter_cons. destruct (decide (RMNodeID x <> node)) as [Hx|Hx]; cbn [ring_state_in]; unfold bytes_Equal.
  - case_bool_decide as E; [|done]. rewrite decide_False; [done|congruence].
  - apply dec_stable in Hx. rewrite IH. destruct (decide (id = node)); [done|]. by rewrite bool_decide_eq_false_2 by congruence.
Qed.

Lemma map_insert_same rms j rm rm' : rms !! j = Some rm -> RMNodeID rm' = RMNodeID rm -> map RMNodeID (<[j := rm']> rms) = map RMNodeID rms.
Proof.
  intros Hj Hid. change (map RMNodeID) with (fmap (M := list) RMNodeID). rewrite list_fmap_insert, Hid. apply list_insert_id. by rewrite list_lookup_fmap, Hj.
Qed.

(** A plan is the descriptor of the next version in which only the state of its
    node has changed, as the command says. *)
Lemma plan_ok a m rd :
  desc_ok (ringDesc m) -> plan a m = Ok rd ->
  Version rd = u64 (Version (ringDesc m) + 1) /\ desc_ok rd /\
  forall id, ring_state_in (RDMembers rd) id = if decide (id = cmd_node a) then cmd_to a else ringStateFromDescriptor m id.
Proof.
  intros Hd. unfold ringStateFromDescriptor. destruct a as [node addr v|node v|node v]; cbn [plan cmd_node cmd_to].
  - unfold JoinRing_plan, bytes_Equal, GetRingDescriptor. case_bool_decide; [done|]. case_bool_decide; [done|]. case_bool_decide; [done|].
    destruct (Z.eqb_spec v (Version (ringDesc m))); [|done]. destruct (in_ring (ringDesc m) node) eqn:Ei; [done|]. intros [= <-].
    assert (node ∉ map RMNodeID (RDMembers (ringDesc m))) as Hn by (rewrite <-in_ring_spec; congruence). cbn [Version RDMembers]. split_and!; try done.
    + unfold desc_ok. cbn. rewrite map_app. apply NoDup_app. split; [done|]. split; [|apply NoDup_singleton]. intros x Hx E%list_elem_of_singleton. by subst x.
    + intros id. by rewrite state_app.
  - unfold ActivateNode_plan, bytes_Equal, GetRingDescriptor. case_bool_decide; [done|]. destruct (Z.eqb_spec v (Version (ringDesc m))); [|done].
    cbn [negb]. destruct (findMember _ _ _) as [[idx rm]|] eqn:Ef; [|done]. destruct (Z.eqb_spec (RMState rm) RingJoining) as [Es|]; [|done]. intros [= <-].
    apply findMember_spec in Ef as (j & -> & Hj & Hid & Hst). cbn [Nat.add Version RDMembers]. split_and!; try done.
    + unfold desc_ok. cbn. by rewrite (map_insert_same _ _ rm).
    + intros id. rewrite (state_insert _ _ rm) by done. by rewrite Hid.
  - unfold RemoveNode_plan, bytes_Equal, GetRingDescriptor. case_bool_decide; [done|]. destruct (Z.eqb_spec v (Version (ringDesc m))); [|done].
    cbn [negb]. destruct (in_ring (ringDesc m) node); [|done]. intros [= <-]. cbn [Version RDMembers]. split_and!; try done.
    + unfold desc_ok in *. cbn. eapply sublist_NoDup; [exact Hd|]. apply (fmap_sublist RMNodeID), sublist_filter.
    + intros id. apply state_filter.
Qed.

Lemma findMember_in i rms node : is_Some (findMember i rms node) <-> node ∈ map RMNodeID rms.
Proof.
  revert i; induction rms as [|rm rms IH]; intros i; cbn; [split; [by intros []|by intros ?%not_elem_of_nil]|].
  rewrite elem_of_cons. unfold bytes_Equal. case_bool_decide as E; [split; [by left|by eexists]|]. rewrite IH. split; [by right|]. intros [->|?]; done.
Qed.
Lemma plan_ready a m : match plan a m with Ok _ => cmd_ready a m | Err _ => ~ cmd_ready a m | Panic => False end.
Proof.
  destruct a as [node addr v|node v|node v]; cbn [plan]; unfold JoinRing_plan, ActivateNode_plan, RemoveNode_plan, bytes_Equal, GetRingDescriptor, cmd_ready; cbn [cmd_node cmd_expected];
    case_bool_decide; try tauto.
  - case_bool_decide; [tauto|]. case_bool_decide; [tauto|]. destruct (Z.eqb_spec v (Version (ringDesc m))); cbn [negb]; [|tauto].
    destruct (in_ring (ringDesc m) node) eqn:Ei; [apply in_ring_spec in Ei; tauto|]. rewrite <-in_ring_spec, Ei. split_and!; done.
  - destruct (Z.eqb_spec v (Version (ringDesc m))); cbn [negb]; [|tauto]. pose proof (findMember_in 0 (RDMembers (ringDesc m)) node) as Hin.
    destruct (findMember _ _ _) as [[idx rm]|] eqn:Ef.
    + apply findMember_spec in Ef as (j & _ & _ & _ & Hst). unfold ringStateFromDescriptor. rewrite Hst. destruct (Z.eqb_spec (RMState rm) RingJoining); cbn [negb]; [|tauto].
      split_and!; try done. apply Hin. by eexists.
    + intros (_ & _ & [? Hx]%Hin & _). done.
  - destruct (Z.eqb_spec v (Version (ringDesc m))); cbn [negb]; [|tauto]. pose proof (in_ring_spec (ringDesc m) node) as Hi. destruct (in_ring _ _); cbn [negb]; [by split_and!; [..|apply Hi]|intros (_ & _ & Hx%Hi); done].
Qed.

Section commands.
Context (c : ClusterConfig).
Hypothesis (Hrange : forall ms id, id ∈ range_members ms <-> is_Some (ms !! id)).

Lemma apply_newer rd m : Version (ringDesc m) < Version rd -> (apply_desc rd m).1 = applyRingDescLocked range_members sort_broadcasts rd m.
Proof using Type. intros H. unfold ApplyRingDescriptor. by rewrite (proj2 (Z.leb_gt _ _)). Qed.
Lemma apply_stale rd m : Version rd <= Version (ringDesc m) -> (apply_desc rd m).1 = m.
Proof using Type. intros H. unfold ApplyRingDescriptor. by rewrite (proj2 (Z.leb_le _ _)). Qed.

Lemma applied_desc rd m : ringDesc (applyRingDescLocked range_members sort_broadcasts rd m) = rd.
Proof using Type. done. Qed.

(** C21: What an admin command does, whatever comes between its two halves.  It is
    planned on the membership [m] and applied on [m1], the membership some other
    changes later.  It is accepted exactly when it is ready on [m] ([cmd_ready]);
    refused, it changes nothing.  Accepted, if the descriptor is still the one it was
    planned on, it raises the version by one and moves its node from none to joining,
    from joining to active, or out of the ring, and the state of no other member; if
    a later descriptor came in between, it changes nothing at all, though the client
    is told that it succeeded. *)
Theorem admin_command a m m1 m2 r :
  desc_ok (ringDesc m) -> mem_ok c m1 -> desc_le (ringDesc m) (ringDesc m1) -> 0 <= Version (ringDesc m) < 2^64 - 1 ->
  commit (plan a m) m1 = (m2, r) ->
  (r = None <-> cmd_ready a m) /\ (r <> None -> m2 = m1) /\
  (r = None -> ringDesc m1 <> ringDesc m -> m2 = m1) /\
  (r = None -> ringDesc m1 = ringDesc m ->
     mem_ok c m2 /\ Version (ringDesc m2) = Version (ringDesc m) + 1 /\
     (forall id, ring_state_in (RDMembers (ringDesc m2)) id = if decide (id = cmd_node a) then cmd_to a else ring_state_in (RDMembers (ringDesc m)) id) /\
     forall id, is_Some (members m2 !! id) -> RingStateOf m2 id = if decide (id = cmd_node a) then cmd_to a else RingStateOf m1 id).
Proof using Hrange.
  intros Hdm Hm Hle Hv. pose proof (plan_ready a m) as Hready. destruct (plan a m) as [rd|e|] eqn:Ep; cbn [commit]; [|by intros [= <- <-]|done].
  intros [= <- <-]. destruct (plan_ok a m rd Hdm Ep) as (Hver & Hd & Hst).
  assert (Version rd = Version (ringDesc m) + 1) as Ev by (rewrite Hver; unfold u64; apply Z.mod_small; lia).
  split; [done|]. split; [done|]. split.
  { intros _ Hne. destruct Hle as [Hle|Hlt]; [by destruct (Hne (eq_sym Hle))|]. apply apply_stale. lia. }
  intros _ Ed. rewrite apply_newer by (rewrite Ed; lia). pose proof (applyRing_ok c range_members sort_broadcasts Hrange rd m1 Hm Hd) as Hm'.
  split; [done|]. split; [exact Ev|]. split; [exact Hst|]. intros id [ms Hms]. unfold RingStateOf at 1. rewrite Hms.
  rewrite (co_ring _ _ (proj1 Hm') _ _ Hms). unfold ringStateFromDescriptor at 1. rewrite applied_desc, Hst.
  destruct (decide (id = cmd_node a)); [done|]. unfold RingStateOf.
  destruct (ring_fold sort_broadcasts (ringMap (RDMembers rd)) (range_members (members m1)) m1 (proj2 Hm)) as (G & _). cbn in Hms. rewrite G in Hms.
  destruct (members m1 !! id) as [ms0|] eqn:E0; [|done]. symmetry. unfold ringStateFromDescriptor. rewrite <-Ed. exact (co_ring _ _ (proj1 Hm) _ _ E0).
Qed.

(** Two commands sent to one node at the same time can both be confirmed while
    one of them is dropped: the version is checked before the lock is taken, and
    [ApplyRingDescriptor] ignores a stale descriptor without an error. *)
Theorem concurrent_command_lost a1 a2 m rd1 rd2 :
  desc_ok (ringDesc m) -> 0 <= Version (ringDesc m) < 2^64 - 1 -> plan a1 m = Ok rd1 -> plan a2 m = Ok rd2 ->
  let '(m1, r1) := commit (plan a1 m) m in
  let '(m2, r2) := commit (plan a2 m) m1 in
  r1 = None /\ r2 = None /\ m2 = m1 /\ ringDesc m2 = rd1.
Proof using Type.
  intros Hd Hv P1 P2. destruct (plan_ok a1 m rd1 Hd P1) as (V1 & _). destruct (plan_ok a2 m rd2 Hd P2) as (V2 & _).
  assert (u64 (Version (ringDesc m) + 1) = Version (ringDesc m) + 1) as Eu by (unfold u64; apply Z.mod_small; lia). rewrite Eu in V1, V2.
  rewrite P1, P2. cbn [commit]. rewrite (apply_newer rd1 m) by lia. rewrite (apply_stale rd2) by (rewrite applied_desc; lia). done.
Qed.

(** Commands sent to two nodes at the same time split the ring: both get the same
    version, and gossip in either direction, which takes only higher versions,
    leaves the two descriptors apart. *)
Theorem ring_split a1 a2 m1 m2 rd1 rd2 :
  desc_ok (ringDesc m1) -> desc_ok (ringDesc m2) -> Version (ringDesc m1) = Version (ringDesc m2) -> 0 <= Version (ringDesc m1) < 2^64 - 1 ->
  plan a1 m1 = Ok rd1 -> plan a2 m2 = Ok rd2 ->
  let n1 := (command a1 m1).1 in let n2 := (command a2 m2).1 in
  ringDesc n1 = rd1 /\ ringDesc n2 = rd2 /\
  (applyNewer range_members sort_broadcasts (Some (ringDesc n2)) n1).1 = n1 /\ (applyNewer range_members sort_broadcasts (Some (ringDesc n1)) n2).1 = n2.
Proof using Type.
  intros D1 D2 Ev Hv P1 P2. destruct (plan_ok a1 m1 rd1 D1 P1) as (V1 & _). destruct (plan_ok a2 m2 rd2 D2 P2) as (V2 & _).
  assert (u64 (Version (ringDesc m1) + 1) = Version (ringDesc m1) + 1) as Eu by (unfold u64; apply Z.mod_small; lia). rewrite <-Ev in V2. rewrite Eu in V1, V2.
  unfold command. rewrite P1, P2. cbn [commit fst]. rewrite !apply_newer by lia. cbn zeta.
  split; [done|]. split; [done|]. unfold applyNewer. rewrite !applied_desc, V1, V2, Z.ltb_irrefl. done.
Qed.
End commands.
End admin.

(** ** Examples *)
Definition adm (a : admin_cmd) (m : Membership) := command range_keys sort_desc a m.

Lemma admin_command_witness :
  let m' := (adm (AJoin g_a g_a 1) g_state).1 in
  Version (ringDesc m') = Version (ringDesc g_state) + 1 /\ RingStateOf m' g_a = RingJoining /\ RingStateOf m' g_b = RingStateOf g_state g_b.
Proof.
  intros m'. assert (plan (AJoin g_a g_a 1) g_state = Ok (mkRD 2 [mkRM g_b g_b RingActive; mkRM g_a g_a RingJoining])) as Ep by (vm_compute; reflexivity).
  assert (adm (AJoin g_a g_a 1) g_state = (m', None)) as E by (unfold m', adm, command; rewrite Ep; reflexivity).
  assert (Version (ringDesc g_state) = 1) as Ev by (vm_compute; reflexivity).
  assert (match members m' !! g_a with Some _ => true | None => false end = true) as Ha by (vm_compute; reflexivity).
  assert (match members m' !! g_b with Some _ => true | None => false end = true) as Hb by (vm_compute; reflexivity).
  clearbody m'.
  destruct (admin_command range_keys sort_desc (g_cfg g_a) range_keys_spec (AJoin g_a g_a 1) g_state g_state m' None (co_desc _ _ (proj1 (probing_mem _ _ _ g_ok))) (probing_mem _ _ _ g_ok)
    (or_introl eq_refl) ltac:(rewrite Ev; lia) E) as (_ & _ & _ & H). destruct (H eq_refl eq_refl) as (_ & H1 & _ & H2). clear H.
  split; [exact H1|]. split.
  - refine (H2 g_a _). destruct (members m' !! g_a); [eexists; reflexivity|discriminate Ha].
  - refine (H2 g_b _). destruct (members m' !! g_b); [eexists; reflexivity|discriminate Hb].
Defined.

Lemma concurrent_command_lost_witness :
  let p1 := plan (AJoin g_a g_a 1) g_state in let p2 := plan (ARemove g_b 1) g_state in
  let '(m1, r1) := commit range_keys sort_desc p1 g_state in
  let '(m2, r2) := commit range_keys sort_desc p2 m1 in
  r1 = None /\ r2 = None /\ m2 = m1 /\ ringDesc m2 = mkRD 2 [mkRM g_b g_b RingActive; mkRM g_a g_a RingJoining].
Proof.
  assert (ringDesc g_state = mkRD 1 [mkRM g_b g_b RingActive]) as Ed by (vm_compute; reflexivity).
  apply (concurrent_command_lost range_keys sort_desc (AJoin g_a g_a 1) (ARemove g_b 1) g_state _ (mkRD 2 [])).
  - rewrite Ed. apply NoDup_singleton.
  - rewrite Ed. cbn. lia.
  - vm_compute. reflexivity.
  - vm_compute. reflexivity.
Defined.

Lemma ring_split_witness :
  let n1 := (adm (AJoin g_a g_a 1) g_state).1 in let n2 := (adm (ARemove g_b 1) g_state).1 in
  ringDesc n1 <> ringDesc n2 /\ (applyNewer range_keys sort_desc (Some (ringDesc n2)) n1).1 = n1.
Proof.
  assert (ringDesc g_state = mkRD 1 [mkRM g_b g_b RingActive]) as Ed by (vm_compute; reflexivity).
  destruct (ring_split range_keys sort_desc (AJoin g_a g_a 1) (ARemove g_b 1) g_state g_state
    (mkRD 2 [mkRM g_b g_b RingActive; mkRM g_a g_a RingJoining]) (mkRD 2 [])) as (H1 & H2 & H3 & _).
  - rewrite Ed. apply NoDup_singleton.
  - rewrite Ed. apply NoDup_singleton.
  - reflexivity.
  - rewrite Ed. cbn. lia.
  - vm_compute. reflexivity.
  - vm_compute. reflexivity.
  - intros n1 n2. unfold n1, n2, adm in *. rewrite H1 in *. rewrite H2 in *. split; [discriminate|exact H3].
Defined.
