(* ===== verification/Drain.v ===== *)
(** * Replay of hints (src/cluster/hintedhandoff/drain.go)

    When an unreachable replica is alive again, its hints are collected in
    batches, replayed to it and removed.  The state of a drain is the hint store,
    the replica of the target and its vector store (an abstract [V]); [net] gives
    the fate of each call by its number, [stopped] whether the drainer is being
    stopped at that point, [deadline] after how many vector hints the context of
    a batch expires, and the vector replays are the injected callbacks. *)

From Stdlib Require Import ZArith Lia List Sorted.
From stdpp Require Import base list option gmap sorting.
From S2P Require Import Prelude GoBytes KV Entries HLC Envelope KVStore Replica HashRing Coordinator HintStore ReconcileProof.
Open Scope Z_scope.

Definition DefaultMaxBatchBytes : Z := 512 * 1024.
Definition DefaultMaxBatchItems : Z := 500.
Definition DefaultSweepInterval : Z := 60 * 1000000000.
Definition DefaultMaxRetries : Z := 3.
Definition DefaultRetryDelay : Z := 30 * 1000000000.

Record DrainerConfig := mkDrainer {
  MaxBatchBytes : Z; MaxBatchItems : Z; SweepInterval : Z; MaxRetries : Z; RetryDelay : Z }.
Definition DrainerConfig_defaults (c : DrainerConfig) : DrainerConfig :=
  mkDrainer (if MaxBatchBytes c <=? 0 then DefaultMaxBatchBytes else MaxBatchBytes c)
    (if MaxBatchItems c <=? 0 then DefaultMaxBatchItems else MaxBatchItems c)
    (if SweepInterval c <=? 0 then DefaultSweepInterval else SweepInterval c)
    (if MaxRetries c <=? 0 then DefaultMaxRetries else MaxRetries c)
    (if RetryDelay c <=? 0 then DefaultRetryDelay else RetryDelay c).

Record hintEntry := mkHint {
  he_hintKey : bytes; he_userKey : bytes; he_value : option bytes; he_envSize : Z; he_ts : Timestamp; he_deleted : bool; he_type : Byte.byte }.
Definition is_vector (ht : Byte.byte) : bool := bool_decide (ht = HintVectorWrite) || bool_decide (ht = HintVectorDelete).

(** How a drain ends. *)
Inductive drain_end := Drained | GaveUp | Stopped | NoAddr | Unfinished.

Section drain.
Context {S V : Type} `{!KVStore S}.
Context (dcfg : DrainerConfig).
Context (VectorWriteReplay VectorDeleteReplay : option (bytes -> V -> V * bool)).
Context (net : nat -> fate) (stopped : nat -> bool) (deadline : nat -> option nat) (now : nat -> Z).

Record dstate := mkDS { ds_hints : Store S; ds_peer : Replica S; ds_vec : V; ds_calls : nat }.
Definition set_hints_of (h : Store S) (st : dstate) : dstate := mkDS h (ds_peer st) (ds_vec st) (ds_calls st).

(** ** Collecting a batch *)
Definition expired (t ttl : Z) (hintKey : bytes) : bool := ttl <? t - WallTime (ExtractTimestamp hintKey).

(** The entry a stored hint stands for; [None]: its envelope is corrupt. *)
Definition entryOf (hintKey envData : bytes) : option hintEntry :=
  let '(ht, payload) := ParseHintType envData in
  let userKey := default [] (ExtractUserKey hintKey) in
  if is_vector ht then Some (mkHint hintKey userKey (Some payload) (len envData) (ExtractTimestamp hintKey) false ht)
  else match DecodeEnvelope envData with
       | Ok e => Some (mkHint hintKey userKey (EVal e) (len envData) (ETs e) (EDeleted e) HintKV)
       | _ => None
       end.

(** Phase 1: the batch, and the expired or corrupt hints with their sizes. *)
Fixpoint collectLoop (t ttl batchBytes items : Z) (hints : list (bytes * bytes)) : list hintEntry * list (bytes * Z) :=
  match hints with
  | [] => ([], [])
  | (hintKey, envData) :: hints =>
      if (batchBytes <? MaxBatchBytes dcfg) && (items <? MaxBatchItems dcfg) then
        if expired t ttl hintKey then
          let '(batch, exp) := collectLoop t ttl batchBytes items hints in (batch, (hintKey, len envData) :: exp)
        else match entryOf hintKey envData with
             | Some e => let '(batch, exp) := collectLoop t ttl (batchBytes + len envData) (items + 1) hints in (e :: batch, exp)
             | None => let '(batch, exp) := collectLoop t ttl batchBytes items hints in (batch, (hintKey, len envData) :: exp)
             end
      else ([], [])
  end.

(** [Store.Remove] of each; an error is logged. *)
Definition removeAll (ks : list (bytes * Z)) (h : Store S) : Store S := fold_left (fun h kn => (Remove kn.1 kn.2 h).1) ks h.

Definition collectBatch (nodeID : bytes) (t : Z) (h : Store S) : Store S * list hintEntry :=
  let '(batch, exp) := collectLoop t (HintTTL (h_cfg h)) 0 0 (Iterate nodeID h) in (removeAll exp h, batch).

Definition purgeExpired (nodeID : bytes) (t : Z) (h : Store S) : Store S :=
  removeAll (map (fun kv => (kv.1, len kv.2)) (filter (fun kv => expired t (HintTTL (h_cfg h)) kv.1 = true) (Iterate nodeID h))) h.

(** ** Replaying *)
Definition requestOf (e : hintEntry) : ReplicateWriteRequest := mkReq (he_userKey e) (he_value e) (Some (he_ts e)) (he_deleted e).
Definition kvEntries (batch : list hintEntry) : list ReplicateWriteRequest := map requestOf (filter (fun e => is_vector (he_type e) = false) batch).
Definition vectorHints (batch : list hintEntry) : list hintEntry := filter (fun e => is_vector (he_type e) = true) batch.

(** [left] hints may still be replayed before the context is done. *)
Fixpoint replayVectorHints (left : option nat) (hints : list hintEntry) (v : V) : V * bool :=
  match hints with
  | [] => (v, true)
  | h :: hints =>
      match left with
      | Some O => (v, false)
      | _ =>
          let left := match left with Some (Datatypes.S n) => Some n | _ => None end in
          match (if bool_decide (he_type h = HintVectorWrite) then VectorWriteReplay else VectorDeleteReplay) with
          | None => replayVectorHints left hints v
          | Some replayFn =>
              let '(v, ok) := replayFn (default [] (he_value h)) v in
              if ok : bool then replayVectorHints left hints v else (v, false)
          end
      end
  end.

(** The two goroutines of [replayBatch] work on different stores, so that their
    order does not matter. *)
Definition replayBatch (batch : list hintEntry) (st : dstate) : dstate * bool :=
  let kvs := kvEntries batch in
  let k := ds_calls st in
  let '(p, kvOk) :=
    match kvs with
    | [] => (ds_peer st, true)
    | _ =>
        match net k with
        | Lost => (ds_peer st, false)
        | ReplyLost pt => (default (ds_peer st) (ReplicateWriteBatch pt kvs (Some (ds_peer st))).1, false)
        | Delivered pt =>
            let '(s, err) := ReplicateWriteBatch pt kvs (Some (ds_peer st)) in (default (ds_peer st) s, bool_decide (err = None))
        end
    end in
  let '(v, vOk) := replayVectorHints (deadline k) (vectorHints batch) (ds_vec st) in
  (mkDS (ds_hints st) p v (Datatypes.S k), kvOk && vOk).

Fixpoint retryReplay (attempts : nat) (batch : list hintEntry) (st : dstate) : dstate * bool :=
  match attempts with
  | O => (st, false)
  | Datatypes.S attempts =>
      if stopped (ds_calls st) then (st, false) else
      let '(st, ok) := replayBatch batch st in
      if ok : bool then (st, true) else retryReplay attempts batch st
  end.

(** ** Draining a target *)
Definition sizes (batch : list hintEntry) : list (bytes * Z) := map (fun e => (he_hintKey e, he_envSize e)) batch.

Fixpoint drainLoop (fuel : nat) (nodeID : bytes) (st : dstate) : dstate * drain_end :=
  match fuel with
  | O => (st, Unfinished)
  | Datatypes.S fuel =>
      if stopped (ds_calls st) then (st, Stopped) else
      let '(h, batch) := collectBatch nodeID (now (ds_calls st)) (ds_hints st) in
      let st := set_hints_of h st in
      match batch with
      | [] => (set_hints_of (RemoveTarget nodeID h) st, Drained)
      | _ =>
          let '(st, ok) := replayBatch batch st in
          let '(st, ok) := if ok : bool then (st, true) else retryReplay (Z.to_nat (MaxRetries dcfg)) batch st in
          if ok : bool then drainLoop fuel nodeID (set_hints_of (removeAll (sizes batch) (ds_hints st)) st)
          else (st, GaveUp)
      end
  end.

(** [GetMemberInfos] as a list of ids and addresses. *)
Fixpoint resolveAddr (infos : list (bytes * bytes)) (nodeID : bytes) : bytes :=
  match infos with
  | [] => []
  | (id, addr) :: infos => if bytes_Equal id nodeID then addr else resolveAddr infos nodeID
  end.
(** The fuel is a bound on the batches: each removes a hint. *)
Definition drainTarget (infos : list (bytes * bytes)) (nodeID : bytes) (st : dstate) : dstate * drain_end :=
  if bytes_Equal (resolveAddr infos nodeID) [] then (st, NoAddr)
  else drainLoop (Datatypes.S (length (Iterate nodeID (ds_hints st)))) nodeID st.

(** ** Triggers and the sweep *)
(** The targets being drained; whether the call starts a drain. *)
Definition TriggerDrain (nodeID : bytes) (draining : gset bytes) : gset bytes * bool :=
  if decide (nodeID ∈ draining) then (draining, false) else (draining ∪ {[nodeID]}, true).
Definition drainDone (nodeID : bytes) (draining : gset bytes) : gset bytes := draining ∖ {[nodeID]}.

(** One sweep over the targets in the order given: the purged store and the drains it starts. *)
Fixpoint sweep (isAlive : bytes -> bool) (t : Z) (targets : list bytes) (h : Store S) (draining : gset bytes)
  : Store S * gset bytes * list bytes :=
  match targets with
  | [] => (h, draining, [])
  | nodeID :: targets =>
      let h := purgeExpired nodeID t h in
      let '(draining, started) := if isAlive nodeID then TriggerDrain nodeID draining else (draining, false) in
      let '(h, draining, starts) := sweep isAlive t targets h draining in
      (h, draining, if started : bool then nodeID :: starts else starts)
  end.
End drain.
Arguments dstate : clear implicits.
Arguments mkDS {S V} _ _ _ _.
