(* ===== verification/DrainProof.v ===== *)
(** * Hints reach their target

    A drain that ends as [Drained] has delivered every hint of its target in the
    order of their timestamps and removed them all; it always ends, as long as
    removals from the hint store succeed.  Two flaws: a hint older than what the
    target holds overwrites it, and a hint added while a drain finishes can be
    forgotten by the sweep. *)

From Stdlib Require Import ZArith Lia List Sorted.
From stdpp Require Import base list option gmap sorting.
From S2P Require Import Prelude GoBytes KV Entries HLC Envelope KVStore Replica HashRing Coordinator HintStore ReconcileProof Drain.
Open Scope Z_scope.

(** ** Lists of hints *)
Lemma ssorted_filter {A} (R : A -> A -> Prop) (P : A -> Prop) `{!forall x, Decision (P x)} l : StronglySorted R l -> StronglySorted R (filter P l).
Proof.
  induction 1 as [|x l Hs IH Hf]; [constructor|]. rewrite filter_cons. destruct (decide (P x)); [|done]. constructor; [done|].
  rewrite Forall_forall in Hf |- *. intros y [_ Hy]%list_elem_of_filter. auto.
Qed.

Lemma ssorted_sublist {A} (R : A -> A -> Prop) (l l' : list A) : l `sublist_of` l' -> StronglySorted R l' -> StronglySorted R l.
Proof.
  induction 1 as [|x l l' Hl IH|x l l' Hl IH]; intros Hs; [done|..]; apply StronglySorted_inv in Hs as [Hs Hf]; [|by apply IH].
  constructor; [by apply IH|]. rewrite Forall_forall in Hf |- *. intros y Hy. apply Hf. eapply elem_of_submseteq; [done|]. by apply sublist_submseteq.
Qed.

Section collect.
Context {S : Type} `{!KVStore S, !KVLaws S} (dcfg : DrainerConfig).

Definition deliver (t ttl : Z) (kv : bytes * bytes) : option hintEntry := if expired t ttl kv.1 then None else entryOf kv.1 kv.2.
Definition sized (kv : bytes * bytes) : bytes * Z := (kv.1, len kv.2).

(** The batch and the expired hints are what the scanned hints stand for; nothing
    is left unscanned when the batch is empty. *)
Lemma collectLoop_spec t ttl bb it hints batch exp :
  collectLoop dcfg t ttl bb it hints = (batch, exp) ->
  exists pre rest, hints = pre ++ rest /\ batch = omap (deliver t ttl) pre /\
    exp = map sized (filter (fun kv => deliver t ttl kv = None) pre) /\
    (batch = [] -> bb < MaxBatchBytes dcfg -> it < MaxBatchItems dcfg -> rest = []).
Proof.
  revert bb it batch exp; induction hints as [|[hk v] hints IH]; intros bb it batch exp; cbn [collectLoop].
  { intros [= <- <-]. by exists [], []. }
  destruct (Z.ltb_spec bb (MaxBatchBytes dcfg)), (Z.ltb_spec it (MaxBatchItems dcfg)); cbn [andb];
    [|intros [= <- <-]; exists [], ((hk, v) :: hints); (split_and!; [done..|]; intros; lia)..].
  assert (forall d bb' it' batch' exp', deliver t ttl (hk, v) = d -> collectLoop dcfg t ttl bb' it' hints = (batch', exp') ->
    (d = None -> bb' = bb /\ it' = it) ->
    exists pre rest, (hk, v) :: hints = pre ++ rest /\ option_list d ++ batch' = omap (deliver t ttl) pre /\
      match d with Some _ => [] | None => [sized (hk, v)] end ++ exp' = map sized (filter (fun kv => deliver t ttl kv = None) pre) /\
      (option_list d ++ batch' = [] -> bb < MaxBatchBytes dcfg -> it < MaxBatchItems dcfg -> rest = [])) as Hstep.
  { intros d bb' it' batch' exp' Hd E Hkeep. destruct (IH _ _ _ _ E) as (pre & rest & -> & -> & -> & Hr). exists ((hk, v) :: pre), rest.
    split; [done|]. cbn [omap list_omap]. rewrite filter_cons, Hd. destruct d as [e|]; cbn.
    - split; [done|]. split; [by rewrite decide_False|done].
    - destruct (Hkeep eq_refl) as [-> ->]. rewrite decide_True by done. done. }
  destruct (expired t ttl hk) eqn:Ee; [|destruct (entryOf hk v) as [e|] eqn:En].
  - destruct (collectLoop dcfg t ttl bb it hints) as [batch' exp'] eqn:E. intros [= <- <-]. apply (Hstep None bb it batch' exp'); [|done|done].
    unfold deliver. cbn. by rewrite Ee.
  - destruct (collectLoop dcfg t ttl (bb + len v) (it + 1) hints) as [batch' exp'] eqn:E. intros [= <- <-].
    apply (Hstep (Some e) (bb + len v) (it + 1) batch' exp'); [|done|done]. unfold deliver. cbn. by rewrite Ee.
  - destruct (collectLoop dcfg t ttl bb it hints) as [batch' exp'] eqn:E. intros [= <- <-]. apply (Hstep None bb it batch' exp'); [|done|done].
    unfold deliver. cbn. by rewrite Ee.
Qed.

Lemma entryOf_sized hk v e : entryOf hk v = Some e -> (he_hintKey e, he_envSize e) = sized (hk, v).
Proof. unfold entryOf. destruct (ParseHintType v) as [ht payload]. destruct (is_vector ht); [by intros [= <-]|]. destruct (DecodeEnvelope v); [|done..]. by intros [= <-]. Qed.

Lemma sizes_batch t ttl pre : sizes (omap (deliver t ttl) pre) = map sized (filter (fun kv => deliver t ttl kv <> None) pre).
Proof.
  induction pre as [|[hk v] pre IH]; [done|]. cbn [omap list_omap]. rewrite filter_cons. destruct (deliver t ttl (hk, v)) as [e|] eqn:E.
  - rewrite decide_True by done. cbn. unfold sizes in IH. rewrite IH. f_equal. unfold deliver in E. cbn in E. destruct (expired t ttl hk); [done|]. by apply entryOf_sized.
  - rewrite decide_False by (intros H; by apply H). exact IH.
Qed.

(** ** Removing hints *)
Hypothesis (Hdel : forall k (s : S), db_Delete k s <> None).
Context (n : bytes) (Hn : id_ok n).

Lemma Remove_Iterate h hk sz :
  hint_inv h -> hint_allowed h (HRemove hk sz) -> Iterate n (Remove hk sz h).1 = filter (fun kv => kv.1 <> hk) (Iterate n h).
Proof using Hdel Hn.
  intros Hi Ha. pose proof (Remove_inv h hk sz Hi Ha) as Hi'. destruct (Iterate_spec _ n Hi Hn) as [Hs Hin]. destruct (Iterate_spec _ n Hi' Hn) as [Hs' Hin'].
  apply scan_unique; [done|by apply ssorted_filter|]. intros [u v]. rewrite Hin', list_elem_of_filter, Hin. cbn [fst].
  unfold Remove. destruct (db_Delete hk (h_db h)) as [db|] eqn:E; [|by apply Hdel in E]. cbn. apply law_delete in E. unfold live. rewrite E.
  destruct (decide (u = hk)) as [->|Hne]; [rewrite lookup_insert_eq; cbn; naive_solver|rewrite lookup_insert_ne by done; tauto].
Qed.

Lemma removeAll_Iterate ks h :
  hint_inv h -> NoDup ks.*1 -> (forall k sz, (k, sz) ∈ ks -> exists v, (k, v) ∈ Iterate n h /\ sz = len v) ->
  hint_inv (removeAll ks h) /\ h_cfg (removeAll ks h) = h_cfg h /\ Iterate n (removeAll ks h) = filter (fun kv => kv.1 ∉ ks.*1) (Iterate n h).
Proof using Hdel Hn.
  revert h; induction ks as [|[k sz] ks IH]; intros h Hi Hnd Hks.
  { split; [done|]. split; [done|]. cbn. symmetry. apply filter_True', Forall_forall. intros kv _. apply not_elem_of_nil. }
  cbn in Hnd. apply NoDup_cons in Hnd as [Hk Hnd]. destruct (Hks k sz ltac:(left)) as (v & Hv & ->).
  assert (hint_allowed h (HRemove k (len v))) as Ha by (exists v; split; [by apply (proj2 (Iterate_spec _ n Hi Hn))|done]).
  pose proof (Remove_inv h k (len v) Hi Ha) as Hi1. pose proof (Remove_Iterate h k (len v) Hi Ha) as E1.
  destruct (IH (Remove k (len v) h).1 Hi1 Hnd) as (H1 & H2 & H3).
  { intros k' sz' Hin. destruct (Hks k' sz' ltac:(by right)) as (v' & Hv' & ->). exists v'. split; [|done]. rewrite E1. apply list_elem_of_filter. split; [|done].
    cbn. intros ->. apply Hk. by apply (list_elem_of_fmap_2 fst _ (k, len v')). }
  change (removeAll ((k, len v) :: ks) h) with (removeAll ks (Remove k (len v) h).1). split; [done|]. split.
  - rewrite H2. unfold Remove. by destruct (db_Delete k (h_db h)).
  - rewrite H3, E1, list_filter_filter. apply list_filter_iff. intros kv. cbn. rewrite not_elem_of_cons. tauto.
Qed.

Lemma sorted_keys_nodup (l : list (bytes * bytes)) : StronglySorted key_lt l -> NoDup l.*1.
Proof.
  induction 1 as [|x l Hs IH Hf]; cbn; constructor; [|done]. intros (y & E & Hy)%list_elem_of_fmap. rewrite Forall_forall in Hf.
  specialize (Hf y Hy). unfold key_lt in Hf. rewrite E in Hf. by apply blt_irrefl in Hf.
Qed.

Lemma filter_prefix_keys (pre rest : list (bytes * bytes)) :
  NoDup (pre ++ rest).*1 -> filter (fun kv => kv.1 ∉ pre.*1) (pre ++ rest) = rest.
Proof.
  intros Hnd. rewrite fmap_app in Hnd. apply NoDup_app in Hnd as (_ & Hd & _). rewrite filter_app. rewrite filter_False', filter_True'; [done|..]; apply Forall_forall.
  - intros kv Hkv Hin. apply (Hd kv.1 Hin). by apply list_elem_of_fmap_2.
  - intros kv Hkv H. apply H. by apply list_elem_of_fmap_2.
Qed.
End collect.

(** ** Replaying a batch *)
Section replay.
Context {S V : Type} `{!KVStore S, !KVLaws S} (dcfg : DrainerConfig).
Context (VW VD : option (bytes -> V -> V * bool)).
Context (net : nat -> fate) (stopped : nat -> bool) (deadline : nat -> option nat) (now : nat -> Z).

(** What the target stores for the key-value hints of a batch. *)
Definition stored_as (e : hintEntry) : bytes * bytes := (he_userKey e, env_bytes (mkEnvelope (he_ts e) (he_deleted e) (he_value e))).
Definition kv_bytes (batch : list hintEntry) : list (bytes * bytes) := map stored_as (filter (fun e => is_vector (he_type e) = false) batch).
Abbreviation peer_of st := (contents (r_db (ds_peer st))).

Lemma encodeEntries_hints es kvs : encodeEntries (map requestOf es) = Ok kvs -> kvs = map stored_as es.
Proof.
  revert kvs; induction es as [|e es IH]; intros kvs; cbn [map encodeEntries]; [by intros [= <-]|]. cbn [requestOf rqTimestamp rqDeleted rqValue rqKey]. rewrite protoToHLC_id.
  destruct (EncodeEnvelope _) as [b| |] eqn:Ee; [|done..]. apply EncodeEnvelope_inv in Ee as [-> _].
  destruct (encodeEntries (map requestOf es)) as [rest| |]; [|done..]. intros [= <-]. by rewrite (IH rest eq_refl).
Qed.

Lemma WriteBatch_hints pt es (p : Replica S) :
  exists p', default p (ReplicateWriteBatch pt (map requestOf es) (Some p)).1 = p' /\
    (contents (r_db p') = contents (r_db p) \/ contents (r_db p') = put_all (map stored_as es) (contents (r_db p))) /\
    ((ReplicateWriteBatch pt (map requestOf es) (Some p)).2 = None -> contents (r_db p') = put_all (map stored_as es) (contents (r_db p))).
Proof.
  eexists. split; [done|]. unfold ReplicateWriteBatch. destruct (maxTimestamp _ _) as [mx| |]; cbn; [|split; [by left|done]..].
  destruct (Update _ _ _) as [clock [e|]]; cbn; [split; [by left|done]|].
  destruct (encodeEntries _) as [kvs| |] eqn:Ee; cbn; [|split; [by left|done]..]. apply encodeEntries_hints in Ee as ->.
  destruct (db_Batch _ _) as [db|] eqn:Eb; cbn; [|split; [by left|done]]. apply law_batch in Eb. split; [by right|done].
Qed.

(** The callback of a vector hint, and runs of callbacks: which hints they were
    called for, in order, and whether they succeeded. *)
Definition callback (e : hintEntry) : option (bytes -> V -> V * bool) := if bool_decide (he_type e = HintVectorWrite) then VW else VD.
Inductive called (v : V) : list (hintEntry * bool) -> V -> Prop :=
| called_nil : called v [] v
| called_snoc log v1 e f v2 ok :
    called v log v1 -> callback e = Some f -> f (default [] (he_value e)) v1 = (v2, ok) -> called v (log ++ [(e, ok)]) v2.
Lemma called_app v v1 v2 log log' : called v log v1 -> called v1 log' v2 -> called v (log ++ log') v2.
Proof. intros H1 H2. induction H2; [by rewrite app_nil_r|]. rewrite app_assoc. by econstructor. Qed.
(** Every vector hint of a batch for which there is a callback was replayed with success. *)
Definition replayed (batch : list hintEntry) (log : list (hintEntry * bool)) : Prop :=
  forall e, e ∈ batch -> is_vector (he_type e) = true -> callback e <> None -> (e, true) ∈ log.

Lemma replayVector_spec left hints v v' ok :
  replayVectorHints VW VD left hints v = (v', ok) ->
  exists log, called v log v' /\ (ok = true -> forall e, e ∈ hints -> callback e <> None -> (e, true) ∈ log).
Proof.
  revert left v; induction hints as [|e hints IH]; intros left v; cbn [replayVectorHints].
  { intros [= <- <-]. exists []. split; [constructor|]. intros _ e []%not_elem_of_nil. }
  assert (forall left1, (match callback e with
      | None => replayVectorHints VW VD left1 hints v
      | Some replayFn => let '(v, ok) := replayFn (default [] (he_value e)) v in if ok : bool then replayVectorHints VW VD left1 hints v else (v, false)
      end) = (v', ok) ->
    exists log, called v log v' /\ (ok = true -> forall e', e' ∈ e :: hints -> callback e' <> None -> (e', true) ∈ log)) as H.
  { intros left1. destruct (callback e) as [f|] eqn:Ef.
    - destruct (f _ v) as [v1 ok1] eqn:E1. assert (called v [(e, ok1)] v1) as Hc by (by eapply (called_snoc v []); [constructor|..]). destruct ok1.
      + intros (log & H1 & H2)%IH. exists ([(e, true)] ++ log). split; [by eapply called_app|]. intros Hok e' [->|Hin]%elem_of_cons Hne; [left|right; by apply H2].
      + intros [= <- <-]. by exists [(e, false)].
    - intros (log & H1 & H2)%IH. exists log. split; [done|]. intros Hok e' [->|Hin]%elem_of_cons Hne; [done|by apply H2]. }
  destruct left as [[|n']|]; [|exact (H _)..]. intros [= <- <-]. exists []. split; [constructor|done].
Qed.

(** What a replay of a batch does, if it succeeds and if it fails. *)
Definition sent (batch : list hintEntry) (st st' : dstate S V) (ok : bool) : Prop :=
  ds_hints st' = ds_hints st /\ (peer_of st' = peer_of st \/ peer_of st' = put_all (kv_bytes batch) (peer_of st)) /\
  (ok = true -> peer_of st' = put_all (kv_bytes batch) (peer_of st)) /\
  exists log, called (ds_vec st) log (ds_vec st') /\ (ok = true -> replayed batch log).
Lemma sent_nothing batch st : sent batch st st false.
Proof. split; [done|]. split; [by left|]. split; [done|]. exists []. split; [constructor|done]. Qed.
Lemma replay_spec batch (st st' : dstate S V) ok :
  replayBatch VW VD net deadline batch st = (st', ok) -> sent batch st st' ok.
Proof.
  unfold replayBatch, sent, kvEntries, kv_bytes. generalize (filter (fun e => is_vector (he_type e) = false) batch) as es. intros es.
  destruct (replayVectorHints _ _ _ _ _) as [v vok] eqn:Ev. apply replayVector_spec in Ev as (log & Hc & Hlog).
  assert (forall p kvok, (contents (r_db p) = peer_of st \/ contents (r_db p) = put_all (map stored_as es) (peer_of st)) ->
    (kvok = true -> contents (r_db p) = put_all (map stored_as es) (peer_of st)) ->
    (mkDS (ds_hints st) p v (Datatypes.S (ds_calls st)), kvok && vok) = (st', ok) ->
    ds_hints st' = ds_hints st /\ (peer_of st' = peer_of st \/ peer_of st' = put_all (map stored_as es) (peer_of st)) /\
    (ok = true -> peer_of st' = put_all (map stored_as es) (peer_of st)) /\
    exists log, called (ds_vec st) log (ds_vec st') /\ (ok = true -> replayed batch log)) as H.
  { intros p kvok H1 H2 [= <- <-]. split; [done|]. split; [done|]. split; [intros [? _]%andb_true_iff; auto|]. exists log. split; [done|].
    intros [_ Hv]%andb_true_iff e He Hvec Hne. apply (Hlog Hv); [|done]. apply list_elem_of_filter. done. }
  destruct es as [|e es]; [by apply H; [left|]|]. set (es0 := e :: es) in *. change (map requestOf es0) with (requestOf e :: map requestOf es).
  cbn iota. change (requestOf e :: map requestOf es) with (map requestOf es0).
  destruct (net (ds_calls st)) as [|pt|pt]; [by apply H; [left|]|..]; destruct (WriteBatch_hints pt es0 (ds_peer st)) as (p' & Ep & H1 & H2).
  - rewrite Ep. by apply H.
  - destruct (ReplicateWriteBatch pt (map requestOf es0) (Some (ds_peer st))) as [s err]. cbn in Ep, H2. rewrite Ep.
    apply H; [done|]. intros Hok%bool_decide_eq_true. auto.
Qed.

Lemma put_all_app (a b : list (bytes * bytes)) (m : gmap bytes Value) : put_all (a ++ b) m = put_all b (put_all a m).
Proof. unfold put_all. apply fold_left_app. Qed.

Lemma put_all_agree (kvs : list (bytes * bytes)) (m m' : gmap bytes Value) (k : bytes) :
  k ∈ kvs.*1 -> put_all kvs m !! k = put_all kvs m' !! k.
Proof.
  revert m m'; induction kvs as [|[u v] kvs IH] using rev_ind; intros m m'; [by intros []%not_elem_of_nil|].
  rewrite !put_all_app. cbn. rewrite fmap_app, elem_of_app. cbn. rewrite list_elem_of_singleton. intros H.
  destruct (decide (k = u)) as [->|Hne]; [by rewrite !lookup_insert_eq|]. rewrite !lookup_insert_ne by done. apply IH. by destruct H.
Qed.

Lemma put_all_idem (kvs : list (bytes * bytes)) (m : gmap bytes Value) : put_all kvs (put_all kvs m) = put_all kvs m.
Proof.
  apply map_eq. intros k. destruct (decide (k ∈ kvs.*1)) as [Hk|Hk]; [by apply put_all_agree|]. by rewrite !put_all_lookup.
Qed.

(** A failed replay and what follows it. *)
Lemma sent_trans batch st st1 st2 ok : sent batch st st1 false -> sent batch st1 st2 ok -> sent batch st st2 ok.
Proof.
  intros (H1 & H2 & _ & log & Hc & _) (H4 & H5 & H6 & log' & Hc' & Hr). split; [congruence|].
  assert (exists l, called (ds_vec st) l (ds_vec st2) /\ (ok = true -> replayed batch l)) as Hl.
  { exists (log ++ log'). split; [by eapply called_app|]. intros Hok e He Hv Hne. apply elem_of_app. right. by apply Hr. }
  destruct H2 as [H2|H2]; rewrite !H2 in *; rewrite ?put_all_idem in *; [by auto|]. split; [right; by destruct H5|done].
Qed.

Lemma retry_spec attempts batch (st st' : dstate S V) ok :
  retryReplay VW VD net stopped deadline attempts batch st = (st', ok) -> sent batch st st' ok.
Proof.
  revert st; induction attempts as [|a IH]; intros st; cbn [retryReplay]; [intros [= <- <-]; apply sent_nothing|].
  destruct (stopped _); [intros [= <- <-]; apply sent_nothing|].
  destruct (replayBatch VW VD net deadline batch st) as [st1 ok1] eqn:E. apply replay_spec in E.
  destruct ok1; [by intros [= <- <-]|]. intros H%IH. by eapply sent_trans.
Qed.

(** A batch is replayed once, and again a number of times while it fails. *)
Lemma replay_retry_spec attempts batch (st st1 st' : dstate S V) ok1 ok :
  replayBatch VW VD net deadline batch st = (st1, ok1) ->
  (if ok1 : bool then (st1, true) else retryReplay VW VD net stopped deadline attempts batch st1) = (st', ok) -> sent batch st st' ok.
Proof. intros H%replay_spec. destruct ok1; [by intros [= <- <-]|]. intros H'%retry_spec. by eapply sent_trans. Qed.

(** ** Draining *)
Definition delivered (hints : list (bytes * bytes)) : list (bytes * bytes) := kv_bytes (omap (fun kv => entryOf kv.1 kv.2) hints).

Lemma kv_bytes_app a b : kv_bytes (a ++ b) = kv_bytes a ++ kv_bytes b.
Proof. unfold kv_bytes. by rewrite filter_app, map_app. Qed.

Hypothesis (Hdel : forall k (s : S), db_Delete k s <> None).
Hypothesis (Hbytes : 0 < MaxBatchBytes dcfg) (Hitems : 0 < MaxBatchItems dcfg).
Context (n : bytes) (Hn : id_ok n).

(** One batch: a prefix of the hints is taken, delivered and removed. *)
Lemma collect_remove t h h1 batch :
  hint_inv h -> collectBatch dcfg n t h = (h1, batch) ->
  exists pre rest, Iterate n h = pre ++ rest /\ batch = omap (deliver t (HintTTL (h_cfg h))) pre /\ (batch = [] -> rest = []) /\
    hint_inv h1 /\ h_cfg h1 = h_cfg h /\ Iterate n h1 = filter (fun kv => deliver t (HintTTL (h_cfg h)) kv <> None) pre ++ rest /\
    hint_inv (removeAll (sizes batch) h1) /\ h_cfg (removeAll (sizes batch) h1) = h_cfg h /\ Iterate n (removeAll (sizes batch) h1) = rest.
Proof using Hdel Hbytes Hitems Hn.
  intros Hi. unfold collectBatch. destruct (collectLoop _ _ _ _ _ _) as [b exp] eqn:E. intros [= <- <-].
  apply collectLoop_spec in E as (pre & rest & EH & -> & -> & Hr). set (ttl := HintTTL (h_cfg h)) in *.
  pose proof (sorted_keys_nodup _ (proj1 (Iterate_spec h n Hi Hn))) as Hnd. rewrite EH in Hnd.
  assert (NoDup pre.*1) as Hndp by (rewrite fmap_app in Hnd; by apply NoDup_app in Hnd as [? _]).
  assert (forall P `{!forall kv, Decision (P kv)}, (map sized (filter P pre)).*1 = (filter P pre).*1) as Hfst.
  { intros P ?. induction (filter P pre) as [|? ? IH]; [done|]. cbn. f_equal. exact IH. }
  assert (forall P `{!forall kv, Decision (P kv)}, NoDup (map sized (filter P pre)).*1) as Hndf.
  { intros P ?. rewrite Hfst. eapply sublist_NoDup; [exact Hndp|]. apply fmap_sublist, sublist_filter. }
  assert (forall kv, kv ∈ pre -> (kv.1 ∈ (filter (fun kv => deliver t ttl kv = None) pre).*1 <-> deliver t ttl kv = None)) as Hkey.
  { intros kv Hkv. split.
    - intros (kv' & E1 & [Hd Hkv']%list_elem_of_filter)%list_elem_of_fmap. assert (kv = kv') as ->; [|done].
      apply list_elem_of_lookup in Hkv as [i Hi1]. apply list_elem_of_lookup in Hkv' as [j Hj1].
      assert (i = j) as ->; [|congruence]. eapply NoDup_lookup; [exact Hndp|..]; rewrite list_lookup_fmap; [by rewrite Hi1|by rewrite Hj1, E1].
    - intros Hd. apply list_elem_of_fmap_2, list_elem_of_filter. done. }
  destruct (removeAll_Iterate Hdel n Hn (map sized (filter (fun kv => deliver t ttl kv = None) pre)) h Hi (Hndf _ _)) as (I1 & C1 & E1).
  { intros k sz ([k' v'] & [= -> ->] & [_ Hin]%list_elem_of_filter)%list_elem_of_fmap. exists v'. split; [|done]. rewrite EH. apply elem_of_app. by left. }
  set (h1 := removeAll _ h) in *.
  assert (Iterate n h1 = filter (fun kv => deliver t ttl kv <> None) pre ++ rest) as E1'.
  { rewrite E1, EH, filter_app, Hfst. f_equal.
    - apply filter_ext_in. intros kv Hkv. by rewrite (Hkey kv Hkv).
    - apply filter_True', Forall_forall. intros kv Hkv Hin. rewrite fmap_app in Hnd. apply NoDup_app in Hnd as (_ & Hd & _).
      apply (Hd kv.1); [|by apply list_elem_of_fmap_2]. apply list_elem_of_fmap in Hin as (kv' & -> & [_ Hin]%list_elem_of_filter). by apply list_elem_of_fmap_2. }
  destruct (removeAll_Iterate Hdel n Hn (sizes (omap (deliver t ttl) pre)) h1 I1) as (I2 & C2 & E2).
  { rewrite sizes_batch. apply Hndf. }
  { rewrite sizes_batch. intros k sz ([k' v'] & [= -> ->] & Hin)%list_elem_of_fmap. exists v'. split; [|done]. rewrite E1'. apply elem_of_app. by left. }
  exists pre, rest. split_and!; try done; [auto|congruence|].
  rewrite E2, E1', sizes_batch, Hfst. apply filter_prefix_keys. rewrite fmap_app. rewrite fmap_app in Hnd. apply NoDup_app in Hnd as (_ & Hd & Hr').
    apply NoDup_app. split; [eapply sublist_NoDup; [exact Hndp|]; apply fmap_sublist, sublist_filter|]. split; [|done].
    intros k (kv' & -> & [_ Hin]%list_elem_of_filter)%list_elem_of_fmap. apply Hd. by apply list_elem_of_fmap_2.
Qed.

(** A hint that the drain may drop: it expires by a time at which the drain looks,
    or its envelope is corrupt. *)
Definition droppable (ttl : Z) (kv : bytes * bytes) : Prop := entryOf kv.1 kv.2 = None \/ exists j, expired (now j) ttl kv.1 = true.
(** What a drain leaves behind.  Of the hints [H], in their order, [out] were handed
    over; a last batch [more], whose replay failed, may have arrived as well; every
    other hint is still stored or was dropped. *)
Definition drain_left (ttl : Z) (H : list (bytes * bytes)) (st st' : dstate S V) (r : drain_end) (out : list (bytes * bytes)) : Prop :=
  exists more log,
    (out ++ more) `sublist_of` H /\ peer_of st' = put_all (delivered (out ++ more)) (peer_of st) /\
    called (ds_vec st) log (ds_vec st') /\ replayed (omap (fun kv => entryOf kv.1 kv.2) out) log /\
    (forall kv, kv ∈ H -> kv ∈ out \/ kv ∈ Iterate n (ds_hints st') \/ droppable ttl kv) /\
    (r = Drained -> more = [] /\ Iterate n (ds_hints st') = [] /\ n ∉ h_targets (ds_hints st')).

Lemma delivered_app a b : delivered (a ++ b) = delivered a ++ delivered b.
Proof. unfold delivered. by rewrite omap_app, kv_bytes_app. Qed.

(** The hints of a batch among those it was collected from. *)
Lemma omap_deliver t ttl (pre : list (bytes * bytes)) :
  omap (deliver t ttl) pre = omap (fun kv => entryOf kv.1 kv.2) (filter (fun kv => deliver t ttl kv <> None) pre).
Proof.
  induction pre as [|kv pre IH]; [done|]. rewrite filter_cons. cbn [omap list_omap]. destruct (deliver t ttl kv) as [e|] eqn:E.
  - rewrite decide_True by done. cbn [omap list_omap]. rewrite <-IH. unfold deliver in E. destruct (expired _ _ _); [done|]. by rewrite E.
  - rewrite decide_False by (intros H; by apply H). exact IH.
Qed.
Lemma not_delivered j ttl kv : deliver (now j) ttl kv = None -> droppable ttl kv.
Proof. unfold deliver. destruct (expired _ _ _) eqn:E; [intros _; right; by exists j|by left]. Qed.

Lemma drainLoop_spec fuel st st' r :
  hint_inv (ds_hints st) -> (length (Iterate n (ds_hints st)) < fuel)%nat ->
  drainLoop dcfg VW VD net stopped deadline now fuel n st = (st', r) ->
  (r = Drained \/ r = GaveUp \/ r = Stopped) /\ exists out, drain_left (HintTTL (h_cfg (ds_hints st))) (Iterate n (ds_hints st)) st st' r out.
Proof using Hdel Hbytes Hitems Hn.
  revert st; induction fuel as [|fuel IH]; intros st Hi Hlen; [lia|]. cbn [drainLoop]. set (H := Iterate n (ds_hints st)) in *. set (ttl := HintTTL _).
  assert (forall st1 r1 out more log, r1 <> Drained -> (out ++ more) `sublist_of` H -> peer_of st1 = put_all (delivered (out ++ more)) (peer_of st) ->
    called (ds_vec st) log (ds_vec st1) -> replayed (omap (fun kv => entryOf kv.1 kv.2) out) log ->
    (forall kv, kv ∈ H -> kv ∈ out \/ kv ∈ Iterate n (ds_hints st1) \/ droppable ttl kv) -> drain_left ttl H st st1 r1 out) as Hleft.
  { intros st1 r1 out more log Hr H1 H2 H3 H4 H5. exists more, log. split_and!; done. }
  destruct (stopped _).
  { intros [= <- <-]. split; [by auto|]. exists []. apply (Hleft _ _ [] [] []); [done|apply sublist_nil_l|done|constructor|by intros e []%not_elem_of_nil|]. by auto. }
  destruct (collectBatch _ _ _ _) as [h1 batch] eqn:Ec. apply collect_remove in Ec as (pre & rest & EH & Eb & Hr & I1 & C1 & E1 & I2 & C2 & E2); [|done].
  fold H in EH. fold ttl in Eb, E1, C1, C2. set (t := now _) in *. set (live := filter (fun kv => deliver t ttl kv <> None) pre) in *.
  assert (forall kv, kv ∈ pre -> kv ∈ live \/ droppable ttl kv) as Hpre.
  { intros kv Hkv. destruct (deliver t ttl kv) as [e|] eqn:E; [left; apply list_elem_of_filter; by rewrite E|right; by eapply not_delivered]. }
  rewrite omap_deliver in Eb. fold live in Eb. assert (live `sublist_of` pre) as Hsub by apply sublist_filter.
  destruct batch as [|e batch'].
  { intros [= <- <-]. split; [by auto|]. exists []. assert (live = []) as Elive.
    { destruct live as [|kv l] eqn:El; [done|]. assert (kv ∈ live) as Hkv by (rewrite El; left). apply list_elem_of_filter in Hkv as [Hd _].
      exfalso. cbn in Eb. unfold deliver in Hd. destruct (expired _ _ _); [done|]. by destruct (entryOf kv.1 kv.2). }
    exists [], []. split; [apply sublist_nil_l|]. split; [done|]. split; [constructor|]. split; [by intros ? []%not_elem_of_nil|].
    rewrite EH, Hr, app_nil_r by done. split.
    - intros kv Hkv. destruct (Hpre kv Hkv) as [Hl|]; [rewrite Elive in Hl; by apply not_elem_of_nil in Hl|by auto].
    - intros _. split; [done|]. split; [|set_solver]. transitivity (Iterate n h1); [done|]. by rewrite E1, Hr, Elive. }
  set (batch := e :: batch') in *. cbv zeta.
  destruct (replayBatch VW VD net deadline batch (set_hints_of h1 st)) as [st0 ok0] eqn:Er0.
  destruct (if ok0 : bool then (st0, true) else _) as [st1 ok] eqn:Er. destruct (replay_retry_spec _ _ _ _ _ _ _ Er0 Er) as (R1 & R2 & R3 & log & Hc & Hlog). cbn [set_hints_of ds_hints ds_peer ds_vec] in R1, R2, R3, Hc.
  assert (kv_bytes batch = delivered live) as Ed by (unfold delivered; by rewrite <-Eb). rewrite Ed in R2, R3.
  destruct ok.
  - specialize (R3 eq_refl). specialize (Hlog eq_refl). intros E. apply IH in E as [Hu (out & more & log' & F1 & F2 & F3 & F4 & F5 & F6)]; cbn [set_hints_of ds_hints]; rewrite ?R1; [|done|].
    2: { rewrite E2. assert (pre <> []) by (intros ->; subst batch; by cbn in Eb). rewrite EH, length_app in Hlen. destruct pre; [done|]. cbn in Hlen. lia. }
    split; [done|]. cbn [set_hints_of ds_hints ds_peer ds_vec] in F1, F2, F3, F5. rewrite ?R1, ?E2 in F1, F5. setoid_rewrite C2 in F5. fold ttl in F5. exists (live ++ out), more, (log ++ log').
    rewrite <-app_assoc. split; [rewrite EH; by apply sublist_app|]. split; [by rewrite F2, R3, (delivered_app live), put_all_app|]. split; [by eapply called_app|]. split.
    { rewrite omap_app. intros x [Hx|Hx]%elem_of_app Hv Hne; apply elem_of_app; [left|right; by apply F4]. apply Hlog; [|done..]. by rewrite Eb. }
    split; [|done]. intros kv Hkv. rewrite EH in Hkv. apply elem_of_app in Hkv as [Hkv|Hkv].
    + destruct (Hpre kv Hkv); [left; apply elem_of_app; by left|by auto].
    + destruct (F5 kv Hkv) as [?|?]; [left; apply elem_of_app; by right|by auto].
  - intros [= <- <-]. split; [by auto|]. exists [].
    assert (exists more, more `sublist_of` H /\ peer_of st1 = put_all (delivered more) (peer_of st)) as (more & Hm & Ep).
    { destruct R2 as [R2|R2]; [exists []; split; [apply sublist_nil_l|done]|exists live]. split; [|done]. rewrite EH. by apply sublist_inserts_r. }
    apply (Hleft _ _ [] more log); [done..|by intros ? []%not_elem_of_nil|]. intros kv Hkv. right. rewrite R1, E1. rewrite EH in Hkv.
    apply elem_of_app in Hkv as [Hkv|Hkv]; [|left; apply elem_of_app; by right]. destruct (Hpre kv Hkv); [left; apply elem_of_app; by left|by right].
Qed.

(** ** The newest hint of a key is delivered last *)
(** [kv] is a key-value hint for the user key [k] that stands for [e]. *)
Definition hint_for (k : bytes) (kv : bytes * bytes) (e : hintEntry) : Prop :=
  entryOf kv.1 kv.2 = Some e /\ is_vector (he_type e) = false /\ he_userKey e = k.

Lemma delivered_one kv : delivered [kv] = match entryOf kv.1 kv.2 with Some e => if is_vector (he_type e) then [] else [stored_as e] | None => [] end.
Proof.
  unfold delivered, kv_bytes. cbn [omap list_omap]. destruct (entryOf kv.1 kv.2) as [e|]; [|done]. rewrite filter_cons. by destruct (is_vector (he_type e)).
Qed.

Lemma delivered_last (k : bytes) (H : list (bytes * bytes)) (m : gmap bytes Value) :
  StronglySorted key_lt H ->
  (put_all (delivered H) m !! k = m !! k /\ forall kv e, kv ∈ H -> ~ hint_for k kv e) \/
  exists kv e, kv ∈ H /\ hint_for k kv e /\ put_all (delivered H) m !! k = Some (NewValue (Some (stored_as e).2)) /\
    forall kv' e', kv' ∈ H -> hint_for k kv' e' -> kv' = kv \/ key_lt kv' kv.
Proof.
  induction H as [|kv H IH] using rev_ind; intros Hs; [left; split; [done|]; intros ?? []%not_elem_of_nil|].
  apply StronglySorted_app in Hs as (Hlast & Hs & _). rewrite delivered_app, put_all_app, delivered_one.
  assert ((exists e, hint_for k kv e) \/ forall e, ~ hint_for k kv e) as [[e He]|Hno].
  { destruct (entryOf kv.1 kv.2) as [e|] eqn:E; [|right; intros e [E' _]; congruence]. destruct (decide (is_vector (he_type e) = false /\ he_userKey e = k)) as [[? ?]|Hn']; [left; by exists e|].
    right. intros e' [E' H']. rewrite E in E'. injection E' as <-. by apply Hn'. }
  - right. exists kv, e. split; [apply elem_of_app; right; left|]. split; [done|]. pose proof He as (-> & -> & Ek). cbn. rewrite Ek. split; [by rewrite lookup_insert_eq|].
    intros kv' e' [Hkv|Hkv%list_elem_of_singleton]%elem_of_app _; [right|by left]. apply Hlast; [done|left].
  - assert (put_all (match entryOf kv.1 kv.2 with Some e => if is_vector (he_type e) then [] else [stored_as e] | None => [] end) (put_all (delivered H) m) !! k =
      put_all (delivered H) m !! k) as ->.
    { destruct (entryOf kv.1 kv.2) as [e|] eqn:E; [|done]. destruct (is_vector (he_type e)) eqn:Ev; [done|]. cbn. apply lookup_insert_ne.
      intros Ek. by apply (Hno e). }
    destruct (IH Hs) as [[E Hn']|(kv0 & e0 & Hin & H0 & E & Hmax)]; [left|right; exists kv0, e0].
    + split; [done|]. intros kv' e' [Hkv| ->%list_elem_of_singleton]%elem_of_app; [by apply Hn'|apply Hno].
    + split; [apply elem_of_app; by left|]. split; [done|]. split; [done|].
      intros kv' e' [Hkv| ->%list_elem_of_singleton]%elem_of_app H'; [by eapply Hmax|by apply Hno in H'].
Qed.

Lemma be_lt w x y : (w <= 8)%nat -> 0 <= x < y -> y < 256 ^ Z.of_nat w -> blt (put_be w x) (put_be w y).
Proof.
  intros Hw Hxy Hy. unfold blt. rewrite bytes_Compare_be by by rewrite !length_put_be. rewrite !get_be_put_be, !Z.mod_small by lia. apply Z.compare_lt_iff. lia.
Qed.

(** Hint keys of one target are in the order of their timestamps. *)
Lemma hint_key_order ts ts' k k' :
  ts_ok ts -> ts_ok ts' -> 0 <= WallTime ts -> 0 <= WallTime ts' -> blt (encodeHintKey n ts k) (encodeHintKey n ts' k') ->
  Less (mkTs (WallTime ts') (Logical ts') []) (mkTs (WallTime ts) (Logical ts) []) = false.
Proof.
  intros [Hw Hl] [Hw' Hl'] H0 H0' Hlt. apply not_true_iff_false. intros HL%Less_spec. cbn in HL. revert Hlt. apply blt_asym.
  rewrite !encodeHintKey_prefix. unfold blt. rewrite bytes_Compare_app, !u64_small by lia. fold (blt (put_be 8 (WallTime ts') ++ put_be 4 (Logical ts') ++ k') (put_be 8 (WallTime ts) ++ put_be 4 (Logical ts) ++ k)).
  destruct HL as [HL|[EW [HL|[_ HL]]]]; [| |by apply blt_irrefl in HL].
  - apply blt_app_same_length; [by rewrite !length_put_be|]. apply be_lt; [lia..|]. change (256 ^ Z.of_nat 8) with (2^64). lia.
  - rewrite EW. unfold blt. rewrite bytes_Compare_app. apply blt_app_same_length; [by rewrite !length_put_be|]. apply be_lt; [lia..|]. change (256 ^ Z.of_nat 4) with (2^32). lia.
Qed.

Lemma Iterate_order h a b :
  hint_inv h -> (forall kv, kv ∈ Iterate n h -> 0 <= WallTime (ExtractTimestamp kv.1)) -> a ∈ Iterate n h -> b ∈ Iterate n h -> a = b \/ key_lt a b ->
  Less (ExtractTimestamp b.1) (ExtractTimestamp a.1) = false.
Proof using Hn.
  intros Hi H0 Ha Hb [->|Hlt].
  { unfold Less. rewrite !Z.eqb_refl. cbn. apply bltb_false, blt_irrefl. }
  destruct (Iterate_spec h n Hi Hn) as [_ Hin].
  assert (forall kv, kv ∈ Iterate n h -> exists ts k, ts_ok ts /\ kv.1 = encodeHintKey n ts k /\ ExtractTimestamp kv.1 = mkTs (WallTime ts) (Logical ts) []) as Hk.
  { intros [hk v] [Hl Hp]%Hin. unfold live in Hl. destruct (contents (h_db h) !! hk) as [w|] eqn:E; [|done].
    destruct (hi_keys h Hi hk w E) as (n' & ts & k & Hn' & Ht & ->). apply targetPrefix_hint in Hp as <-; [|done..]. exists ts, k.
    split; [done|]. split; [done|]. by apply hint_key_parts. }
  destruct (Hk a Ha) as (ta & ka & Hta & Ea & Ea'), (Hk b Hb) as (tb & kb & Htb & Eb & Eb').
  pose proof (H0 a Ha) as Ha0. pose proof (H0 b Hb) as Hb0. unfold key_lt in Hlt. rewrite Ea, Eb in Hlt. rewrite Ea' in *. rewrite Eb' in *.
  by eapply hint_key_order.
Qed.

(** C18: Hinted handoff delivers.  Let the target's address be known, removals from
    the hint store succeed (if they fail, the code replays the same batch for ever),
    and no hint for the target be added meanwhile (see [drain_race_orphans_hint]).
    Then a drain ends: drained, given up or stopped.  Whatever happens to its calls,
    every hint is handed over, or still stored, or expired or corrupt and dropped;
    and a vector hint handed over was replayed with success by its callback, if the
    node has one.  When it ends as [Drained], no hint of the target is left, the
    target is forgotten, and every user key holds at the target the write of its
    newest hint handed over, or what it held if there was none. *)
Theorem drain_delivers infos st st' r :
  hint_inv (ds_hints st) -> let H := Iterate n (ds_hints st) in
  (forall kv, kv ∈ H -> 0 <= WallTime (ExtractTimestamp kv.1)) ->
  resolveAddr infos n <> [] ->
  drainTarget dcfg VW VD net stopped deadline now infos n st = (st', r) ->
  (r = Drained \/ r = GaveUp \/ r = Stopped) /\
  exists out, drain_left (HintTTL (h_cfg (ds_hints st))) H st st' r out /\
  (r = Drained -> forall k : bytes,
    (peer_of st' !! k = peer_of st !! k /\ forall kv e, kv ∈ out -> ~ hint_for k kv e) \/
    exists kv e, kv ∈ out /\ hint_for k kv e /\ peer_of st' !! k = Some (NewValue (Some (stored_as e).2)) /\
      forall kv' e', kv' ∈ out -> hint_for k kv' e' -> Less (ExtractTimestamp kv.1) (ExtractTimestamp kv'.1) = false).
Proof using Hdel Hbytes Hitems Hn.
  intros Hi H H0 Haddr. unfold drainTarget. unfold bytes_Equal. rewrite bool_decide_false by done. intros E.
  apply drainLoop_spec in E as [Hu [out Hleft]]; [|done|lia]. split; [done|]. exists out. split; [done|]. intros Hr k.
  destruct Hleft as (more & log & Hsub & Ep & _ & _ & _ & Hd). destruct (Hd Hr) as [-> _]. rewrite app_nil_r in Hsub, Ep. fold H in Hsub.
  assert (forall kv, kv ∈ out -> kv ∈ H) as Hin by (intros kv Hkv; eapply elem_of_submseteq; [exact Hkv|by apply sublist_submseteq]).
  assert (StronglySorted key_lt out) as Hs by (eapply ssorted_sublist; [exact Hsub|]; by apply (Iterate_spec _ n Hi Hn)).
  rewrite Ep. destruct (delivered_last k out (peer_of st) Hs) as [Hl|(kv & e & Hkv & He & E & Hmax)]; [by left|right].
  exists kv, e. split; [done|]. split; [done|]. split; [done|]. intros kv' e' Hkv' H'. eapply (Iterate_order (ds_hints st)); [done|exact H0|by apply Hin..|]. by eapply Hmax.
Qed.
End replay.

(** ** Concrete drains *)
Definition d_node : bytes := [Byte.x62].
Definition d_key : bytes := [Byte.x6b].
Definition d_ts (w : Z) : Timestamp := mkTs w 0 [Byte.x61].
Definition d_env (w : Z) (v : Byte.byte) : bytes := env_bytes (mkEnvelope (d_ts w) false (Some [v])).
Definition d_ops : list hint_op := [HAdd d_node d_key (d_env 7 Byte.x02) (d_ts 7); HAdd d_node d_key (d_env 5 Byte.x01) (d_ts 5)].
Definition d_hints : Store (gmap bytes Value) := fold_left hint_step d_ops (NewStore (mkStoreConfig 0 0) ∅).
Definition d_peer (m : gmap bytes Value) : Replica (gmap bytes Value) := mkReplica (mkClock d_node zeroTs DefaultMaxDrift) m.
Definition d_cfg : DrainerConfig := DrainerConfig_defaults (mkDrainer 0 0 0 0 0).
Definition d_drain (h : Store (gmap bytes Value)) (m : gmap bytes Value) : dstate (gmap bytes Value) unit * drain_end :=
  drainTarget d_cfg None None (fun _ => Delivered 10) (fun _ => false) (fun _ => None) (fun _ => 10) [(d_node, [Byte.x31])] d_node (mkDS h (d_peer m) tt 0%nat).

Lemma d_deletes (k : bytes) (m : gmap bytes Value) : db_Delete k m <> None.
Proof. discriminate. Qed.

Lemma d_hints_inv : hint_inv d_hints.
Proof.
  apply (hint_run_inv (NewStore (mkStoreConfig 0 0) ∅) d_ops).
  - unfold d_hints, d_ops. repeat first [apply hint_run_nil | apply hint_run_cons]; (split; [by vm_compute|]; split; by vm_compute).
  - apply NewStore_inv; [|by vm_compute]. intros hk w. cbn. by rewrite lookup_empty.
Qed.

Lemma drain_delivers_witness :
  let '(st', r) := d_drain d_hints ∅ in
  r = Drained /\ contents (r_db (ds_peer st')) !! d_key = Some (NewValue (Some (d_env 7 Byte.x02))) /\
  exists kv e, kv ∈ Iterate d_node d_hints /\ hint_for d_key kv e /\ contents (r_db (ds_peer st')) !! d_key = Some (NewValue (Some (stored_as e).2)).
Proof.
  destruct (d_drain d_hints ∅) as [st' r] eqn:E.
  assert (r = Drained) as Hr by (transitivity (d_drain d_hints ∅).2; [by rewrite E|by vm_compute]).
  assert (contents (r_db (ds_peer st')) !! d_key = Some (NewValue (Some (d_env 7 Byte.x02)))) as Hv
    by (transitivity (contents (r_db (ds_peer (d_drain d_hints ∅).1)) !! d_key); [by rewrite E|by vm_compute]).
  split; [done|]. split; [done|].
  assert (forall kv, kv ∈ Iterate d_node d_hints -> WallTime (ExtractTimestamp kv.1) = 7 \/ WallTime (ExtractTimestamp kv.1) = 5) as Hw.
  { intros kv Hkv. assert (Iterate d_node d_hints = [(encodeHintKey d_node (d_ts 5) d_key, d_env 5 Byte.x01); (encodeHintKey d_node (d_ts 7) d_key, d_env 7 Byte.x02)]) as EI by (by vm_compute).
    rewrite EI in Hkv. apply elem_of_cons in Hkv as [-> | ->%list_elem_of_singleton]; [right|left]; by vm_compute. }
  unfold d_drain in E. eapply (drain_delivers (V := unit) d_cfg None None (fun _ => Delivered 10) (fun _ => false) (fun _ => None) (fun _ => 10)) in E as (_ & out & Hl & H);
    [|exact d_deletes|reflexivity|reflexivity|exact (conj eq_refl eq_refl)|exact d_hints_inv|..].
  1: destruct (H Hr d_key) as [[E0 _]|(kv & e & Hkv & He & Ee & _)]; [exfalso; rewrite Hv in E0; discriminate E0|].
  1: { exists kv, e. split; [|by split]. destruct Hl as (more & log & Hsub & _). eapply elem_of_submseteq; [|apply sublist_submseteq, Hsub].
       apply elem_of_app. left. exact Hkv. }
  - intros kv Hkv. destruct (Hw kv Hkv) as [-> | ->]; discriminate.
  - discriminate.
Defined.

(** A replayed hint is stored without comparing timestamps: a hint of time 5
    overwrites the value of time 9 that the target received after it came back,
    although the drain reports success and the hint is gone. *)
Theorem drain_overwrites_newer :
  let h := hint_step (NewStore (mkStoreConfig 0 0) ∅) (HAdd d_node d_key (d_env 5 Byte.x01) (d_ts 5)) in
  let '(st', r) := d_drain h {[d_key := NewValue (Some (d_env 9 Byte.x03))]} in
  r = Drained /\ Iterate d_node (ds_hints st') = [] /\ Less (d_ts 5) (d_ts 9) = true /\
  contents (r_db (ds_peer st')) !! d_key = Some (NewValue (Some (d_env 5 Byte.x01))).
Proof. vm_compute. done. Qed.

Definition d_orphan : Store (gmap bytes Value) * option HintErr :=
  let '(h1, _) := collectBatch d_cfg d_node 10 (NewStore (mkStoreConfig 0 0) ∅) in
  let '(h2, err) := Add d_node d_key (d_env 5 Byte.x01) (d_ts 5) h1 in (RemoveTarget d_node h2, err).

(** A hint added after the last collection of a drain found nothing and before
    the target is forgotten stays in the store, while no sweep looks at its
    target again. *)
Theorem drain_race_orphans_hint :
  (collectBatch d_cfg d_node 10 (NewStore (mkStoreConfig 0 0) (∅ : gmap bytes Value))).2 = [] /\
  d_orphan.2 = None /\ length (Iterate d_node d_orphan.1) = 1%nat /\ (d_node ∉ h_targets d_orphan.1) /\
  (forall isAlive t, sweep isAlive t (Targets elements d_orphan.1) d_orphan.1 ∅ = (d_orphan.1, ∅, [])).
Proof.
  assert (length (Iterate d_node d_orphan.1) = 1%nat) as H1 by (vm_compute; reflexivity).
  assert (d_orphan.2 = None) as H2 by (vm_compute; reflexivity).
  assert (elements (h_targets d_orphan.1) = []) as H3 by (vm_compute; reflexivity).
  split; [vm_compute; reflexivity|]. generalize dependent d_orphan. intros [h e] H1 H2 H3. cbn [fst snd] in *. split; [exact H2|]. split; [exact H1|].
  unfold Targets. rewrite H3. split; [rewrite <-elem_of_elements, H3; apply not_elem_of_nil|reflexivity].
Qed.
