(* ===== verification/HNSW.v ===== *)
(** * The vector index (src/vector/hnsw: graph.go, search.go, cleanup.go)

    A hierarchical navigable small-world graph: nodes with neighbour lists per
    layer, greedy descent through the upper layers, beam search with two heaps,
    insertion with the diversity heuristic, soft deletion and cleanup.  A call
    holds the graph mutex throughout, so it is one step.

    A [float32] is an abstract [F], a distance an abstract [D] with its [<]
    ([dlt]); the distance function is a field of the options in the source and an
    argument here.  [sort] is [slices.SortFunc] by ascending distance, [range_nodes]
    the order in which Go ranges over the map of nodes, and the random level of a
    new node is an argument of [Insert].  A dereferenced nil pointer and an index
    out of range are [Panic]; so is a loop that has used up its fuel, and
    HNSWProof.v shows that neither happens. *)

From Stdlib Require Import ZArith Lia List.
From stdpp Require Import base list option gmap.
From S2P Require Import Prelude GoBytes Heap.
Open Scope Z_scope.

Inductive HnswErr := ErrMemoryLimitExceeded | ErrDimensionMismatch | ErrEmptyGraph | ErrDuplicateID | ErrOptions.

Record HnswOptions := mkHnswOptions {
  M : Z; EfConstruct : Z; EfSearch : Z; Dim : Z; MaxMemoryBytes : Z }.
Definition HnswDefaultOptions (dim : Z) : HnswOptions := mkHnswOptions 16 200 50 dim 0.

Section hnsw.
Context {F D : Type}.

Record Node := mkNode { ID : Z; ExternalID : bytes; Vector : list F; Level : nat; Neighbors : list (list Z) }.
Record Stats := mkStats { TotalNodes : Z; Tombstoned : Z; StMaxLevel : nat; StMemoryBytes : Z }.
Record Graph := mkGraph {
  nodes : gmap Z Node; entryPoint : Z; maxLevel : nat; opts : HnswOptions; tombstones : gset Z; memoryBytes : Z }.
Record heapItem := mkItem { hid : Z; hdist : D }.
Record SearchResult := mkResult { rID : Z; rExternalID : bytes; rDistance : D }.

Definition set_nodes (ns : gmap Z Node) (g : Graph) : Graph :=
  mkGraph ns (entryPoint g) (maxLevel g) (opts g) (tombstones g) (memoryBytes g).
Definition set_entry (ep : Z) (lv : nat) (g : Graph) : Graph :=
  mkGraph (nodes g) ep lv (opts g) (tombstones g) (memoryBytes g).
Definition set_neighbors (l : nat) (nbs : list Z) (n : Node) : Node :=
  mkNode (ID n) (ExternalID n) (Vector n) (Level n) (<[l := nbs]> (Neighbors n)).

(** [g.nodes[id]] used as a pointer, and [n.Neighbors[layer]]. *)
Definition deref (g : Graph) (id : Z) : outcome HnswErr Node := match nodes g !! id with Some n => Ok n | None => Panic end.
Definition layerOf (n : Node) (l : nat) : outcome HnswErr (list Z) := match Neighbors n !! l with Some nbs => Ok nbs | None => Panic end.

(** ** Construction *)
Definition New (o : HnswOptions) : outcome HnswErr Graph :=
  if Dim o <? 1 then Err ErrOptions else
  if M o <? 2 then Err ErrOptions else
  if EfConstruct o <? 1 then Err ErrOptions else
  if EfSearch o <? 1 then Err ErrOptions else
  Ok (mkGraph ∅ 0 0 o ∅ 0).
Definition maxM (g : Graph) : Z := M (opts g).
Definition maxM0 (g : Graph) : Z := 2 * M (opts g).
Definition neighborCap (g : Graph) (layer : nat) : Z := if (layer =? 0)%nat then maxM0 g else maxM g.
(** The loop over the layers, from [level] down to 0. *)
Fixpoint neighborBytes (g : Graph) (level : nat) : Z :=
  neighborCap g level * 8 + match level with O => 0 | S l => neighborBytes g l end.
Definition estimateNodeMemory (g : Graph) (level : nat) : Z := Dim (opts g) * 4 + neighborBytes g level + 64.

(** ** Heaps of candidates ([distHeap]) *)
Context (dlt : D -> D -> bool).
Definition heap_less (max : bool) (a b : heapItem) : bool := if max then dlt (hdist b) (hdist a) else dlt (hdist a) (hdist b).
Definition push (max : bool) (h : list heapItem) (x : heapItem) : list heapItem := Heap.Push (heap_less max) h x.
Definition pop (max : bool) (h : list heapItem) : outcome HnswErr (heapItem * list heapItem) :=
  match Heap.Pop (heap_less max) h with Some r => Ok r | None => Panic end.
Definition peek (h : list heapItem) : outcome HnswErr heapItem := match h with x :: _ => Ok x | [] => Panic end.

(** ** Greedy descent *)
Context (dist : list F -> list F -> D).
(** One pass over the neighbours of the best node so far. *)
Fixpoint greedyScan (g : Graph) (query : list F) (nids : list Z) (best : Z) (bestDist : D) (improved : bool) : Z * D * bool :=
  match nids with
  | [] => (best, bestDist, improved)
  | nid :: nids =>
      match nodes g !! nid with
      | Some n =>
          let d := dist query (Vector n) in
          if dlt d bestDist then greedyScan g query nids nid d true else greedyScan g query nids best bestDist improved
      | None => greedyScan g query nids best bestDist improved
      end
  end.
Fixpoint greedyLoop (fuel : nat) (g : Graph) (query : list F) (layer : nat) (best : Z) (bestDist : D) : outcome HnswErr Z :=
  match fuel with
  | O => Panic
  | S fuel =>
      n ← deref g best;
      nids ← layerOf n layer;
      let '(best, bestDist, improved) := greedyScan g query nids best bestDist false in
      if improved : bool then greedyLoop fuel g query layer best bestDist else Ok best
  end.
Definition greedyClosest (g : Graph) (query : list F) (ep : Z) (layer : nat) : outcome HnswErr Z :=
  n ← deref g ep;
  greedyLoop (S (size (nodes g))) g query layer ep (dist query (Vector n)).

(** [for l := l; l > stop; l-- { ep = greedyClosest(query, ep, l) }] *)
Fixpoint descend (g : Graph) (query : list F) (stop l : nat) (ep : Z) : outcome HnswErr Z :=
  match l with
  | O => Ok ep
  | S l' => if (stop <? l)%nat then ep ← greedyClosest g query ep l; descend g query stop l' ep else Ok ep
  end.

(** ** Beam search *)
Record beam := mkBeam { visited : gset Z; cands : list heapItem; results : list heapItem }.

Fixpoint seed (g : Graph) (query : list F) (entryIDs : list Z) (b : beam) : outcome HnswErr beam :=
  match entryIDs with
  | [] => Ok b
  | ep :: entryIDs =>
      if decide (ep ∈ visited b) then seed g query entryIDs b else
      n ← deref g ep;
      let x := mkItem ep (dist query (Vector n)) in
      seed g query entryIDs (mkBeam (visited b ∪ {[ep]}) (push false (cands b) x)
        (if decide (ep ∈ tombstones g) then results b else push true (results b) x))
  end.

Definition shouldAdd (ef : Z) (b : beam) (d : D) : outcome HnswErr bool :=
  if len (results b) <? ef then Ok true else top ← peek (results b); Ok (dlt d (hdist top)).
(** A neighbour worth keeping goes to the candidates and, if live, to the results,
    from which the farthest falls out. *)
Definition admitItem (g : Graph) (ef : Z) (x : heapItem) (b : beam) : outcome HnswErr beam :=
  let cands := push false (cands b) x in
  if decide (hid x ∈ tombstones g) then Ok (mkBeam (visited b) cands (results b)) else
  let res := push true (results b) x in
  if ef <? len res then '(_, res) ← pop true res; Ok (mkBeam (visited b) cands res)
  else Ok (mkBeam (visited b) cands res).
Fixpoint expand (g : Graph) (query : list F) (ef : Z) (nids : list Z) (b : beam) : outcome HnswErr beam :=
  match nids with
  | [] => Ok b
  | nid :: nids =>
      if decide (nid ∈ visited b) then expand g query ef nids b else
      let b := mkBeam (visited b ∪ {[nid]}) (cands b) (results b) in
      match nodes g !! nid with
      | None => expand g query ef nids b
      | Some n =>
          let d := dist query (Vector n) in
          add ← shouldAdd ef b d;
          b ← (if add : bool then admitItem g ef (mkItem nid d) b else Ok b);
          expand g query ef nids b
      end
  end.
(** Whether the closest candidate is farther than every one of enough results. *)
Definition done_ (ef : Z) (c : heapItem) (res : list heapItem) : outcome HnswErr bool :=
  if ef <=? len res then top ← peek res; Ok (dlt (hdist top) (hdist c)) else Ok false.
Fixpoint beamLoop (fuel : nat) (g : Graph) (query : list F) (ef : Z) (layer : nat) (b : beam) : outcome HnswErr beam :=
  match cands b with
  | [] => Ok b
  | _ =>
      match fuel with
      | O => Panic
      | S fuel =>
          '(c, cands) ← pop false (cands b);
          let b := mkBeam (visited b) cands (results b) in
          stop ← done_ ef c (results b);
          if stop : bool then Ok b else
          n ← deref g (hid c);
          match Neighbors n !! layer with
          | None => beamLoop fuel g query ef layer b
          | Some nids => b ← expand g query ef nids b; beamLoop fuel g query ef layer b
          end
      end
  end.
Definition searchLayer (g : Graph) (query : list F) (entryIDs : list Z) (ef : Z) (layer : nat) : outcome HnswErr (list heapItem) :=
  b ← seed g query entryIDs (mkBeam ∅ [] []);
  b ← beamLoop (size (nodes g)) g query ef layer b;
  Ok (results b).

(** ** Queries *)
Context (sort : list heapItem -> list heapItem).
(** [l[:n]] when [len(l) > n]. *)
Definition truncate {A} (l : list A) (n : Z) : outcome HnswErr (list A) := if n <? len l then slice l 0 n else Ok l.
Fixpoint toResults (g : Graph) (cs : list heapItem) : outcome HnswErr (list SearchResult) :=
  match cs with
  | [] => Ok []
  | c :: cs => n ← deref g (hid c); rs ← toResults g cs; Ok (mkResult (hid c) (ExternalID n) (hdist c) :: rs)
  end.
(** [sopts.EfSearch], 0 for a nil [sopts]. *)
Definition Search (g : Graph) (query : list F) (k : Z) (sopts : Z) : outcome HnswErr (list SearchResult) :=
  if negb (len query =? Dim (opts g)) then Err ErrDimensionMismatch else
  if (size (nodes g) =? 0)%nat then Err ErrEmptyGraph else
  let ef := if 0 <? sopts then sopts else EfSearch (opts g) in
  let ef := if ef <? k then k else ef in
  ep ← descend g query 0 (maxLevel g) (entryPoint g);
  candidates ← searchLayer g query [ep] ef 0;
  candidates ← truncate (sort candidates) k;
  toResults g candidates.
Definition selectClosest (candidates : list heapItem) (maxN : Z) : outcome HnswErr (list heapItem) := truncate (sort candidates) maxN.

(** ** Choosing neighbours *)
(** Whether no selected neighbour is closer to [c] than the query. *)
Fixpoint diverse (g : Graph) (cVec : list F) (d : D) (selected : list heapItem) : outcome HnswErr bool :=
  match selected with
  | [] => Ok true
  | s :: selected => sNode ← deref g (hid s); if dlt (dist cVec (Vector sNode)) d then Ok false else diverse g cVec d selected
  end.
Fixpoint heuristicLoop (g : Graph) (maxN : Z) (cs selected : list heapItem) : outcome HnswErr (list heapItem) :=
  match cs with
  | [] => Ok selected
  | c :: cs =>
      if maxN <=? len selected then Ok selected else
      cNode ← deref g (hid c);
      good ← diverse g (Vector cNode) (hdist c) selected;
      heuristicLoop g maxN cs (if good : bool then selected ++ [c] else selected)
  end.
Fixpoint fillLoop (maxN : Z) (chosen : gset Z) (cs selected : list heapItem) : list heapItem :=
  match cs with
  | [] => selected
  | c :: cs =>
      if maxN <=? len selected then selected else
      fillLoop maxN chosen cs (if decide (hid c ∈ chosen) then selected else selected ++ [c])
  end.
(** The selected neighbours, and the candidates, which the call sorts in place. *)
Definition selectNeighborsHeuristic (g : Graph) (candidates : list heapItem) (maxN : Z) : outcome HnswErr (list heapItem * list heapItem) :=
  let candidates := sort candidates in
  selected ← heuristicLoop g maxN candidates [];
  Ok (if len selected <? maxN then fillLoop maxN (list_to_set (map hid selected)) candidates selected else selected, candidates).

Definition rankAll (g : Graph) (vec : list F) (nbs : list Z) : list heapItem :=
  omap (fun nid => n ← nodes g !! nid; Some (mkItem nid (dist vec (Vector n)))) nbs.
Definition shrinkNeighbors (g : Graph) (node : Node) (layer : nat) (maxN : Z) : outcome HnswErr Node :=
  nbs ← layerOf node layer;
  ranked ← truncate (sort (rankAll g (Vector node) nbs)) maxN;
  Ok (set_neighbors layer (map hid ranked) node).

(** ** Insertion *)
(** The reverse edges from the selected neighbours to [id]. *)
Fixpoint reverseEdges (id : Z) (l : nat) (ns : list heapItem) (g : Graph) : outcome HnswErr Graph :=
  match ns with
  | [] => Ok g
  | n :: ns =>
      neighbor ← deref g (hid n);
      nbs ← layerOf neighbor l;
      let neighbor := set_neighbors l (nbs ++ [id]) neighbor in
      let g := set_nodes (<[hid n := neighbor]> (nodes g)) g in
      let capacity := neighborCap g l in
      neighbor ← (if capacity <? len (nbs ++ [id]) then shrinkNeighbors g neighbor l capacity else Ok neighbor);
      reverseEdges id l ns (set_nodes (<[hid n := neighbor]> (nodes g)) g)
  end.
Definition connectLayer (id : Z) (vec : list F) (l : nat) (entryIDs : list Z) (g : Graph) : outcome HnswErr (Graph * list Z) :=
  candidates ← searchLayer g vec entryIDs (EfConstruct (opts g)) l;
  '(neighbors, candidates) ← selectNeighborsHeuristic g candidates (neighborCap g l);
  node ← deref g id;
  _ ← layerOf node l;
  let g := set_nodes (<[id := set_neighbors l (map hid neighbors) node]> (nodes g)) g in
  g ← reverseEdges id l neighbors g;
  Ok (g, map hid candidates).
(** [for l := l; l >= 0; l--] *)
Fixpoint connect (id : Z) (vec : list F) (l : nat) (entryIDs : list Z) (g : Graph) : outcome HnswErr Graph :=
  '(g, entryIDs) ← connectLayer id vec l entryIDs g;
  match l with O => Ok g | S l => connect id vec l entryIDs g end.

Definition Insert (id : Z) (externalID : bytes) (vec : list F) (level : nat) (g : Graph) : outcome HnswErr Graph :=
  if negb (len vec =? Dim (opts g)) then Err ErrDimensionMismatch else
  if decide (is_Some (nodes g !! id)) then Err ErrDuplicateID else
  let mem := estimateNodeMemory g level in
  if (0 <? MaxMemoryBytes (opts g)) && (MaxMemoryBytes (opts g) <? memoryBytes g + mem) then Err ErrMemoryLimitExceeded else
  let node := mkNode id externalID vec level (replicate (S level) []) in
  let g := mkGraph (<[id := node]> (nodes g)) (entryPoint g) (maxLevel g) (opts g) (tombstones g) (memoryBytes g + mem) in
  if (size (nodes g) =? 1)%nat then Ok (set_entry id level g) else
  ep ← descend g vec level (maxLevel g) (entryPoint g);
  g ← connect id vec (Nat.min level (maxLevel g)) [ep] g;
  Ok (if (maxLevel g <? level)%nat then set_entry id level g else g).

(** ** Deletion *)
Definition MarkDeleted (id : Z) (g : Graph) : Graph :=
  if decide (is_Some (nodes g !! id))
  then mkGraph (nodes g) (entryPoint g) (maxLevel g) (opts g) (tombstones g ∪ {[id]}) (memoryBytes g)
  else g.
Definition GraphLen (g : Graph) : Z := Z.of_nat (size (nodes g)) - Z.of_nat (size (tombstones g)).
Definition graphStats (g : Graph) : Stats :=
  mkStats (Z.of_nat (size (nodes g))) (Z.of_nat (size (tombstones g))) (maxLevel g) (memoryBytes g).

Context (range_nodes : gmap Z Node -> list Z) (range_ids : gset Z -> list Z).
Fixpoint removeNodes (ids : list Z) (g : Graph) : outcome HnswErr Graph :=
  match ids with
  | [] => Ok g
  | id :: ids =>
      node ← deref g id;
      removeNodes ids (mkGraph (delete id (nodes g)) (entryPoint g) (maxLevel g) (opts g) (tombstones g)
        (memoryBytes g - estimateNodeMemory g (Level node)))
  end.
Definition scrub (removed : gset Z) (n : Node) : Node :=
  mkNode (ID n) (ExternalID n) (Vector n) (Level n) (map (filter (fun nid => nid ∉ removed)) (Neighbors n)).
(** The first node met of the highest level, with that level. *)
Definition betterEntry (g : Graph) (id : Z) (best : option (Z * nat)) : option (Z * nat) :=
  match nodes g !! id, best with
  | Some n, None => Some (id, Level n)
  | Some n, Some (_, bl) => if (bl <? Level n)%nat then Some (id, Level n) else best
  | None, _ => best
  end.
Fixpoint bestEntry (g : Graph) (ids : list Z) (best : option (Z * nat)) : option (Z * nat) :=
  match ids with
  | [] => best
  | id :: ids => bestEntry g ids (betterEntry g id best)
  end.
Definition Cleanup (g : Graph) : outcome HnswErr (Graph * Z) :=
  if (size (tombstones g) =? 0)%nat then Ok (g, 0) else
  let removed := tombstones g in
  let count := Z.of_nat (size removed) in
  g ← removeNodes (range_ids removed) g;
  let g := mkGraph (scrub removed <$> nodes g) (entryPoint g) (maxLevel g) (opts g) ∅ (memoryBytes g) in
  Ok (match bestEntry g (range_nodes (nodes g)) None with
      | None => set_entry 0 0 g
      | Some (id, lv) => set_entry id lv g
      end, count).
End hnsw.
Arguments Node : clear implicits.
Arguments Graph : clear implicits.
Arguments heapItem : clear implicits.
Arguments SearchResult : clear implicits.
Arguments beam : clear implicits.
