(* ===== verification/HNSWProof.v ===== *)
(** * The vector index is sound

    The graph invariant (edges stay within their layer and never dangle, degrees
    and memory are bounded, the entry point is on the top layer) is kept by every
    operation, so that no call panics; the greedy descent and the beam search end;
    a query returns live vectors with their distances in ascending order, and with
    a beam as wide as the graph exactly the nearest vectors that can be reached. *)

From Stdlib Require Import ZArith Lia List Sorted.
From stdpp Require Import base list option gmap sorting relations.
From S2P Require Import Prelude GoBytes Heap HNSW.
Open Scope Z_scope.

Section proof.
Context {F D : Type} (dlt : D -> D -> bool) (dist : list F -> list F -> D).
Context (dlt_asym : forall x y, dlt x y = true -> dlt y x = false).
Context (dlt_negtrans : forall x y z, dlt y x = false -> dlt z y = false -> dlt z x = false).
Abbreviation Graph := (Graph F).
Abbreviation Node := (Node F).
Abbreviation item := (heapItem D).
Implicit Types (g : Graph) (n : Node) (b : beam D).

Definition dle (x y : D) : Prop := dlt y x = false.
Lemma dlt_irrefl x : dlt x x = false.
Proof. destruct (dlt x x) eqn:E; [|done]. by rewrite (dlt_asym _ _ E) in E. Qed.
Lemma dle_trans x y z : dle x y -> dle y z -> dle x z.
Proof. unfold dle. intros H1 H2. by eapply dlt_negtrans. Qed.
Lemma dlt_dle x y : dlt x y = true -> dle x y.
Proof. apply dlt_asym. Qed.
Lemma dlt_le_trans x y z : dlt x y = true -> dle y z -> dlt x z = true.
Proof. intros H1 H2. destruct (dlt x z) eqn:E; [done|]. rewrite (dlt_negtrans y z x) in H1; done. Qed.

(** ** Well-formed graphs *)
Definition neighborOf g (l : nat) (id nid : Z) : Prop :=
  exists n nbs, nodes g !! id = Some n /\ Neighbors n !! l = Some nbs /\ nid ∈ nbs.
(** [id] is a node of the graph present on layer [l]. *)
Definition onLayer g (l : nat) (id : Z) : Prop := exists n, nodes g !! id = Some n /\ (l <= Level n)%nat.

Record edges_ok g : Prop := {
  eo_node : forall id n, nodes g !! id = Some n -> ID n = id /\ len (Vector n) = Dim (opts g) /\ length (Neighbors n) = S (Level n);
  eo_deg : forall id n l nbs, nodes g !! id = Some n -> Neighbors n !! l = Some nbs -> len nbs <= neighborCap g l;
  eo_edge : forall l id nid, neighborOf g l id nid -> onLayer g l nid
}.

(** ** The greedy walk ends at a local minimum *)
Definition closer g (q : list F) (d : D) : gset Z := dom (filter (fun kv => dlt (dist q (Vector kv.2)) d = true) (nodes g)).

Lemma elem_of_closer g q d id : id ∈ closer g q d <-> exists n, nodes g !! id = Some n /\ dlt (dist q (Vector n)) d = true.
Proof.
  unfold closer. rewrite elem_of_dom. split.
  - intros [n [H1 H2]%map_lookup_filter_Some]. eauto.
  - intros (n & H1 & H2). exists n. by apply map_lookup_filter_Some.
Qed.

Lemma closer_lt g q d id n :
  nodes g !! id = Some n -> dlt (dist q (Vector n)) d = true -> (size (closer g q (dist q (Vector n))) < size (closer g q d))%nat.
Proof using dlt_asym dlt_negtrans.
  intros E H. apply subset_size. split.
  - intros i. rewrite !elem_of_closer. intros (m & Em & Hm). exists m. split; [done|]. eapply dlt_le_trans; [done|]. by apply dlt_dle.
  - intros Hs. assert (id ∈ closer g q d) as Hin by (apply elem_of_closer; eauto). apply Hs, elem_of_closer in Hin as (m & Em & Hm).
    rewrite E in Em. injection Em as <-. by rewrite dlt_irrefl in Hm.
Qed.

Lemma greedyScan_spec g q nids best d imp best' d' imp' :
  greedyScan dlt dist g q nids best d imp = (best', d', imp') ->
  ((best' = best /\ d' = d /\ imp' = imp) \/
   (imp' = true /\ best' ∈ nids /\ dlt d' d = true /\ exists n, nodes g !! best' = Some n /\ d' = dist q (Vector n))) /\
  (forall nid n, nid ∈ nids -> nodes g !! nid = Some n -> dle d' (dist q (Vector n))).
Proof using dlt_asym dlt_negtrans.
  revert best d imp; induction nids as [|nid nids IH]; intros best d imp; cbn [greedyScan].
  { intros [= <- <- <-]. split; [by left|]. intros ?? []%not_elem_of_nil. }
  destruct (nodes g !! nid) as [n|] eqn:E.
  - destruct (dlt (dist q (Vector n)) d) eqn:Ed; intros [H1 H2]%IH.
    + assert (dle d' (dist q (Vector n)) /\ dlt d' d = true) as [Hle Hlt].
      { destruct H1 as [(_ & -> & _)|(_ & _ & H & _)]; [split; [apply dlt_irrefl|done]|]. split; [by apply dlt_dle|]. eapply dlt_le_trans; [done|]. by apply dlt_dle. }
      split.
      * right. destruct H1 as [(-> & -> & ->)|(-> & Hin & _ & Hn)]; (split; [done|]); (split; [by (left || right)|]); (split; [done|]); eauto.
      * intros i m [->|Hi]%elem_of_cons Hm; [rewrite E in Hm; by injection Hm as <-|by eapply H2].
    + split; [destruct H1 as [?|(? & ? & ?)]; [by left|right; split; [done|]; split; [by right|done]]|].
      intros i m [->|Hi]%elem_of_cons Hm; [|by eapply H2]. rewrite E in Hm. injection Hm as <-.
      destruct H1 as [(_ & -> & _)|(_ & _ & H & _)]; [exact Ed|]. eapply dle_trans; [by apply dlt_dle|exact Ed].
  - intros [H1 H2]%IH. split; [destruct H1 as [?|(? & ? & ?)]; [by left|right; split; [done|]; split; [by right|done]]|].
    intros i m [->|Hi]%elem_of_cons Hm; [congruence|by eapply H2].
Qed.

(** Nothing that [id] is linked to on layer [l] is closer to the query. *)
Definition local_min g q l id : Prop :=
  forall n nid m, nodes g !! id = Some n -> neighborOf g l id nid -> nodes g !! nid = Some m -> dle (dist q (Vector n)) (dist q (Vector m)).

Lemma greedyLoop_spec fuel g q l best n :
  edges_ok g -> nodes g !! best = Some n -> (l <= Level n)%nat -> (size (closer g q (dist q (Vector n))) < fuel)%nat ->
  exists best' n', greedyLoop dlt dist fuel g q l best (dist q (Vector n)) = Ok best' /\ nodes g !! best' = Some n' /\ (l <= Level n')%nat /\
    dle (dist q (Vector n')) (dist q (Vector n)) /\ local_min g q l best'.
Proof using dlt_asym dlt_negtrans.
  intros Hg. revert best n; induction fuel as [|fuel IH]; intros best n E Hl Hf; [lia|]. cbn [greedyLoop]. unfold deref. rewrite E. cbn [mbind outcome_bind].
  destruct (eo_node g Hg best n E) as (_ & _ & Hlen). destruct (lookup_lt_is_Some_2 (Neighbors n) l ltac:(lia)) as [nbs Hn]. unfold layerOf. rewrite Hn. cbn [mbind outcome_bind].
  destruct (greedyScan dlt dist g q nbs best (dist q (Vector n)) false) as [[best' d'] imp] eqn:Es.
  apply greedyScan_spec in Es as [[(-> & -> & ->)|(-> & Hin & Hlt & n' & En' & ->)] Hmin].
  - exists best, n. split; [done|]. split; [done|]. split; [done|]. split; [apply dlt_irrefl|].
    intros n0 nid m E0 (n1 & nbs1 & E1 & Hn1 & Hi) Em. simplify_eq. by eapply Hmin.
  - destruct (eo_edge g Hg l best best') as (n2 & En2 & Hl2); [by exists n, nbs|]. rewrite En' in En2. injection En2 as <-.
    pose proof (closer_lt g q _ _ _ En' Hlt). destruct (IH best' n' En' Hl2 ltac:(lia)) as (b2 & m2 & E2 & Em2 & Hlm & Hle & Hloc).
    exists b2, m2. split; [done|]. split; [done|]. split; [done|]. split; [|done]. eapply dle_trans; [done|]. by apply dlt_dle.
Qed.

Lemma greedyClosest_spec g q l ep n :
  edges_ok g -> nodes g !! ep = Some n -> (l <= Level n)%nat ->
  exists ep' n', greedyClosest dlt dist g q ep l = Ok ep' /\ nodes g !! ep' = Some n' /\ (l <= Level n')%nat /\
    dle (dist q (Vector n')) (dist q (Vector n)) /\ local_min g q l ep'.
Proof using dlt_asym dlt_negtrans.
  intros Hg E Hl. unfold greedyClosest, deref. rewrite E. cbn [mbind outcome_bind]. apply greedyLoop_spec; [done..|].
  assert (size (closer g q (dist q (Vector n))) <= size (nodes g))%nat; [|lia]. rewrite <-size_dom. apply subseteq_size. apply subseteq_dom, map_filter_subseteq.
Qed.

Lemma greedy_descend_spec g q stop l ep n :
  edges_ok g -> nodes g !! ep = Some n -> (l <= Level n)%nat ->
  exists ep' n', descend dlt dist g q stop l ep = Ok ep' /\ nodes g !! ep' = Some n' /\
    dle (dist q (Vector n')) (dist q (Vector n)) /\
    ((l <= stop)%nat /\ ep' = ep \/ (stop < l)%nat /\ (stop < Level n')%nat /\ local_min g q (S stop) ep').
Proof using dlt_asym dlt_negtrans.
  intros Hg. revert ep n; induction l as [|l IH]; intros ep n E Hl; cbn [descend].
  { exists ep, n. split; [done|]. split; [done|]. split; [apply dlt_irrefl|]. left. split; [lia|done]. }
  destruct (Nat.ltb_spec stop (S l)).
  - destruct (greedyClosest_spec g q (S l) ep n Hg E Hl) as (ep1 & n1 & -> & E1 & Hl1 & Hle1 & Hm1). cbn [mbind outcome_bind].
    destruct (IH ep1 n1 E1 ltac:(lia)) as (ep2 & n2 & -> & E2 & Hle2 & H2). exists ep2, n2. split; [done|]. split; [done|].
    split; [by eapply dle_trans|]. right. split; [lia|]. destruct H2 as [[? ->]|(? & ? & ?)]; [|done].
    assert (l = stop) as -> by lia. rewrite E1 in E2. injection E2 as <-. split; [lia|done].
  - exists ep, n. split; [done|]. split; [done|]. split; [apply dlt_irrefl|]. left. split; [lia|done].
Qed.

(** ** Heaps of items *)
#[local] Arguments push : simpl never.
#[local] Arguments pop : simpl never.
Lemma len_push max h x : len (push dlt max h x) = len h + 1.
Proof. unfold len, push. rewrite (Permutation_length (Push_perm _ _ _)). cbn [length]. lia. Qed.
Abbreviation is_heap max h := (heap_from (heap_less dlt max) 0 (length h) h).
Lemma heap_asym max (x y : item) : heap_less dlt max x y = true -> heap_less dlt max y x = false.
Proof using dlt_asym. destruct max; cbn; apply dlt_asym. Qed.
Lemma heap_le_trans max (x y z : item) : le (heap_less dlt max) x y -> le (heap_less dlt max) y z -> le (heap_less dlt max) x z.
Proof using dlt_negtrans. unfold le. destruct max; cbn; intros H1 H2; eapply dlt_negtrans; eassumption. Qed.

Lemma push_spec max h x : is_heap max h -> is_heap max (push dlt max h x) /\ push dlt max h x ≡ₚ x :: h.
Proof using dlt_asym dlt_negtrans.
  intros H. split; [|apply Push_perm]. apply Push_heap; [apply heap_asym|apply heap_le_trans|done].
Qed.

Lemma pop_spec max h :
  is_heap max h -> h <> [] ->
  exists x h', pop dlt max h = Ok (x, h') /\ x :: h' ≡ₚ h /\ is_heap max h' /\ Forall (fun y => heap_less dlt max y x = false) h'.
Proof using dlt_asym dlt_negtrans.
  intros H Hne. destruct h as [|x0 h]; [done|]. unfold pop.
  destruct (Pop_spec (heap_less dlt max) (heap_asym max) (heap_le_trans max) x0 h H) as (x & h' & -> & H1 & H2 & H3). by exists x, h'.
Qed.

Lemma peek_spec h : is_heap true h -> h <> [] -> exists x, peek h = Ok x /\ x ∈ h /\ Forall (fun y => dle (hdist y) (hdist x)) h.
Proof using dlt_asym dlt_negtrans.
  intros H Hne. destruct h as [|x h]; [done|]. exists x. split; [done|]. split; [by left|]. apply Forall_forall. intros y [i Hi]%list_elem_of_lookup.
  apply (heap_root (heap_less dlt true) (heap_asym true) (heap_le_trans true) (length (x :: h)) (x :: h) ltac:(lia) H i); [by eapply lookup_lt_Some|done|done].
Qed.

(** ** The results are the nearest of what was visited *)
Section beam.
Context (g : Graph) (q : list F) (ef : Z) (Hef : 1 <= ef).

Definition ids (l : list item) : list Z := map hid l.
(** Every live visited node is among the results, or the results are [ef] nodes at
    least as close. *)
Definition near (V : gset Z) (res : list item) : Prop :=
  forall v n, v ∈ V -> nodes g !! v = Some n -> v ∉ tombstones g ->
    v ∈ ids res \/ ef <= len res /\ Forall (fun x => dle (hdist x) (dist q (Vector n))) res.

Lemma near_mono V V' res : V' ⊆ V -> near V res -> near V' res.
Proof. intros Hs H v n Hv. apply H, Hs, Hv. Qed.

Lemma near_skip V res x n :
  near V res -> nodes g !! hid x = Some n -> hdist x = dist q (Vector n) ->
  hid x ∈ tombstones g \/ (ef <= len res /\ Forall (fun y => dle (hdist y) (hdist x)) res) -> near (V ∪ {[hid x]}) res.
Proof.
  intros H E Ed Hx v m Hv Em Ht. apply elem_of_union in Hv as [Hv|Hv%elem_of_singleton]; [by apply H|]. subst v.
  destruct Hx as [|[H1 H2]]; [done|]. right. split; [done|]. rewrite E in Em. injection Em as <-. by rewrite <-Ed.
Qed.

#[local] Instance ids_Proper : Proper ((≡ₚ) ==> (≡ₚ)) ids.
Proof. intros l l'. apply Permutation_map. Qed.

Lemma near_push V res x :
  near V res -> len res < ef -> near (V ∪ {[hid x]}) (push dlt true res x).
Proof using dlt_asym dlt_negtrans.
  intros H Hl v m Hv Em Ht. left. assert (push dlt true res x ≡ₚ x :: res) as Hp by apply Push_perm. rewrite Hp.
  apply elem_of_union in Hv as [Hv|Hv%elem_of_singleton]; [|subst v; by left]. right. destruct (H v m Hv Em Ht) as [?|[? _]]; [done|lia].
Qed.

(** A full heap that takes a closer item and loses its farthest one. *)
Lemma near_replace V res x top y res' :
  near V res -> len res = ef -> x :: res ≡ₚ y :: res' -> Forall (fun z => dle (hdist z) (hdist y)) res' ->
  top ∈ res -> dle (hdist x) (hdist top) ->
  (forall z n, z ∈ x :: res -> nodes g !! hid z = Some n -> hdist z = dist q (Vector n)) -> near (V ∪ {[hid x]}) res'.
Proof using dlt_negtrans.
  intros H Hl Hp Hy Htop Hx Hd v m Hv Em Ht.
  assert (len res' = ef) as Hl' by (apply Permutation_length in Hp; cbn in Hp; unfold len in *; lia).
  destruct (decide (v ∈ ids (x :: res))) as [Hin|Hout].
  - rewrite Hp in Hin. cbn in Hin. apply elem_of_cons in Hin as [->|Hin]; [|by left]. right. split; [lia|].
    rewrite <-(Hd y m); [done|rewrite Hp; by left|done].
  - right. split; [lia|]. cbn in Hout. apply not_elem_of_cons in Hout as [Hne Hout]. apply elem_of_union in Hv as [Hv|Hv%elem_of_singleton]; [|done].
    destruct (H v m Hv Em Ht) as [?|[_ Hall]]; [done|]. rewrite Forall_forall in Hall. apply Forall_forall. intros z Hz.
    assert (z ∈ x :: res) as [->|Hz']%elem_of_cons by (rewrite Hp; by right); [|by apply Hall]. eapply dle_trans; [done|by apply Hall].
Qed.

(** ** The state of a beam search *)
(** [P] holds of the entry points and along edges: it is reachability below. *)
Context (Hg : edges_ok g) (l : nat) (P : Z -> Prop) (HP : forall a c, P a -> neighborOf g l a c -> P c).

Definition item_ok (V : gset Z) (x : item) : Prop := hid x ∈ V /\ exists n, nodes g !! hid x = Some n /\ hdist x = dist q (Vector n).
Record beam_ok b : Prop := {
  bo_vis : forall v, v ∈ visited b -> onLayer g l v /\ P v;
  bo_c : Forall (item_ok (visited b)) (cands b);
  bo_r : Forall (fun x => item_ok (visited b) x /\ hid x ∉ tombstones g) (results b);
  bo_nd : NoDup (ids (results b));
  bo_hc : is_heap false (cands b);
  bo_hr : is_heap true (results b);
  bo_len : len (results b) <= ef;
  bo_near : near (visited b) (results b)
}.

Lemma item_ok_mono V V' x : V ⊆ V' -> item_ok V x -> item_ok V' x.
Proof. intros Hs [H1 H2]. split; [set_solver|done]. Qed.

(** Distinct results that miss a node are fewer than the nodes. *)
Lemma results_few b nid : beam_ok b -> is_Some (nodes g !! nid) -> nid ∉ ids (results b) -> (length (results b) < size (nodes g))%nat.
Proof.
  intros Hb Hn Hout. rewrite <-(length_map hid (results b)). fold (ids (results b)). rewrite <-size_dom.
  assert (list_to_set (ids (results b)) ⊂ (dom (nodes g) : gset Z)) as Hs.
  { split.
    - intros i. rewrite elem_of_list_to_set. intros (x & -> & Hx)%list_elem_of_fmap. pose proof (bo_r b Hb) as Hr. rewrite Forall_forall in Hr.
      destruct (Hr x Hx) as [(_ & n & E & _) _]. apply elem_of_dom. eauto.
    - intros Hs. apply Hout. assert (nid ∈ (list_to_set (ids (results b)) : gset Z)) as Hi by (apply Hs, elem_of_dom, Hn). by apply elem_of_list_to_set in Hi. }
  apply subset_size in Hs. rewrite size_list_to_set in Hs; [done|apply (bo_nd b Hb)].
Qed.

(** What [expand] does with one neighbour. *)
Definition visitOne (x : item) b : outcome HnswErr (beam D) :=
  let b := mkBeam (visited b ∪ {[hid x]}) (cands b) (results b) in
  add ← shouldAdd dlt ef b (hdist x);
  if add : bool then admitItem dlt g ef x b else Ok b.

Lemma visitOne_spec b x n :
  beam_ok b -> hid x ∉ visited b -> nodes g !! hid x = Some n -> hdist x = dist q (Vector n) -> onLayer g l (hid x) -> P (hid x) ->
  exists b', visitOne x b = Ok b' /\ beam_ok b' /\ visited b' = visited b ∪ {[hid x]} /\
    (cands b' = cands b \/ cands b' ≡ₚ x :: cands b) /\ ((size (nodes g) <= Z.to_nat ef)%nat -> cands b' ≡ₚ x :: cands b).
Proof using Hef Hg HP dlt_asym dlt_negtrans.
  intros Hb Hnew E Ed Hon HPx. pose proof Hb as [B1 B2 B3 B4 B5 B6 B7 B8]. set (V' := visited b ∪ {[hid x]}).
  assert (forall v, v ∈ V' -> onLayer g l v /\ P v) as B1' by (intros v [?| ->%elem_of_singleton]%elem_of_union; auto).
  assert (Forall (item_ok V') (cands b)) as B2' by (eapply Forall_impl; [done|]; intros y; apply item_ok_mono; set_solver).
  assert (Forall (fun y => item_ok V' y /\ hid y ∉ tombstones g) (results b)) as B3'.
  { eapply Forall_impl; [done|]. intros y [H1 H2]. split; [eapply item_ok_mono; [|done]; set_solver|done]. }
  assert (hid x ∉ ids (results b)) as Hxr.
  { intros (y & Ey & Hy)%list_elem_of_fmap. rewrite Forall_forall in B3. destruct (B3 y Hy) as [[Hv _] _]. by rewrite <-Ey in Hv. }
  assert (item_ok V' x) as Hx by (split; [set_solver|eauto]).
  destruct (push_spec false (cands b) x B5) as [C1 C2]. destruct (push_spec true (results b) x B6) as [R1 R2].
  assert (Forall (item_ok V') (push dlt false (cands b) x)) as C3 by (rewrite C2; by constructor).
  assert (exists add, shouldAdd dlt ef (mkBeam V' (cands b) (results b)) (hdist x) = Ok add /\
    (add = true -> len (results b) < ef \/ exists top, top ∈ results b /\ dle (hdist x) (hdist top)) /\
    (add = false -> ef <= len (results b) /\ Forall (fun y => dle (hdist y) (hdist x)) (results b))) as (add & Ea & Ht & Hf).
  { unfold shouldAdd. cbn. destruct (Z.ltb_spec (len (results b)) ef) as [|Hge]; [exists true; split; [done|]; split; [by left|done]|].
    destruct (peek_spec (results b) B6) as (top & -> & Hin & Hall); [intros E0; rewrite E0 in Hge; change (len (@nil item)) with 0 in Hge; lia|].
    cbn. eexists. split; [done|]. split; intros Hd; [right; exists top; split; [done|by apply dlt_dle]|]. split; [done|].
    eapply Forall_impl; [done|]. intros y Hy. eapply dle_trans; [exact Hy|exact Hd]. }
  unfold visitOne. cbn zeta. fold V'. rewrite Ea. cbn [mbind outcome_bind]. destruct add.
  2: { eexists. split; [done|]. destruct (Hf eq_refl) as [Hfull Hall]. split; [|split; [done|]; split; [by left|]].
       - split; cbn; try done. eapply near_skip; [done|done|done|by right].
       - intros Hs. pose proof (results_few b (hid x) Hb ltac:(eauto) Hxr). unfold len in Hfull. lia. }
  unfold admitItem. cbn [cands results visited]. destruct (decide (hid x ∈ tombstones g)) as [Htomb|Hlive].
  { eexists. split; [done|]. split; [|split; [done|]; split; [by right|done]]. split; cbn; try done. eapply near_skip; [done|done|done|by left]. }
  assert (Forall (fun y => item_ok V' y /\ hid y ∉ tombstones g) (push dlt true (results b) x)) as R3 by (rewrite R2; by constructor).
  assert (NoDup (ids (push dlt true (results b) x))) as R4 by (rewrite R2; by constructor).
  assert (len (push dlt true (results b) x) = len (results b) + 1) as R5 by apply len_push.
  destruct (Z.ltb_spec ef (len (push dlt true (results b) x))) as [Hov|Hle].
  - destruct (pop_spec true _ R1) as (y & res' & -> & P1 & P2 & P3); [intros E0; rewrite E0 in Hov; change (len (@nil item)) with 0 in Hov; lia|].
    cbn. eexists. split; [done|]. split; [|split; [done|]; split; [by right|done]]. rewrite <-P1 in R3, R4. apply Forall_cons in R3 as [R3y R3]. apply NoDup_cons in R4 as [_ R4].
    assert (len res' = ef) as Hlr by (apply Permutation_length in P1; cbn [length] in P1; unfold len in *; lia).
    split; cbn [visited cands results]; try done; [lia|].
    destruct (Ht eq_refl) as [?|(top & Htop & Hle)]; [lia|]. eapply (near_replace _ (results b) x top y res'); [done|lia|by rewrite P1, R2|done|done|done|].
    intros z m Hz Em. assert (z ∈ push dlt true (results b) x) as Hz' by (by rewrite R2). rewrite <-P1 in Hz'. apply elem_of_cons in Hz' as [->|Hz'].
    + destruct R3y as [(_ & n' & En & ?) _]. rewrite Em in En. by injection En as <-.
    + rewrite Forall_forall in R3. destruct (R3 z Hz') as [(_ & n' & En & ?) _]. rewrite Em in En. by injection En as <-.
  - eexists. split; [done|]. split; [|split; [done|]; split; [by right|done]]. split; cbn [visited cands results]; try done. apply near_push; [done|lia].
Qed.

(** Work left: candidates, and nodes not visited. *)
Definition work b : nat := length (cands b) + size ((dom (nodes g) : gset Z) ∖ visited b).
Abbreviation full := (size (nodes g) <= Z.to_nat ef)%nat.

Lemma work_visit b b' x :
  is_Some (nodes g !! hid x) -> hid x ∉ visited b -> visited b' = visited b ∪ {[hid x]} ->
  (cands b' = cands b \/ cands b' ≡ₚ x :: cands b) -> (work b' <= work b)%nat.
Proof.
  intros Hx Hn Ev Hc. unfold work. rewrite Ev.
  assert (size ((dom (nodes g) : gset Z) ∖ (visited b ∪ {[hid x]})) < size ((dom (nodes g) : gset Z) ∖ visited b))%nat.
  { apply subset_size. split; [set_solver|]. intros Hs. apply elem_of_dom in Hx. assert (hid x ∈ (dom (nodes g) : gset Z) ∖ visited b) as Hi by set_solver. apply Hs in Hi. set_solver. }
  destruct Hc as [->|Hc]; [lia|]. rewrite (Permutation_length Hc). cbn. lia.
Qed.

Lemma expand_spec c nids b :
  beam_ok b -> P c -> (forall nid, nid ∈ nids -> neighborOf g l c nid) ->
  exists b', expand dlt dist g q ef nids b = Ok b' /\ beam_ok b' /\ visited b ⊆ visited b' /\ (forall nid, nid ∈ nids -> nid ∈ visited b') /\
    (work b' <= work b)%nat /\ (forall v, v ∈ ids (cands b) -> v ∈ ids (cands b')) /\
    (full -> forall v, v ∈ visited b' -> v ∈ visited b \/ v ∈ ids (cands b')).
Proof using Hef Hg HP dlt_asym dlt_negtrans.
  intros Hb Hc. revert b Hb; induction nids as [|nid nids IH]; intros b Hb Hn; cbn [expand].
  { exists b. split; [done|]. split; [done|]. split; [done|]. split; [intros ? []%not_elem_of_nil|]. split; [lia|]. split; [done|auto]. }
  assert (forall k, k ∈ nids -> neighborOf g l c k) as Hn' by (intros; apply Hn; by right).
  destruct (decide (nid ∈ visited b)) as [Hv|Hv].
  { destruct (IH b Hb Hn') as (b' & H1 & H2 & H3 & H4 & H5). exists b'. split; [done|]. split; [done|]. split; [done|]. split; [|done].
    intros k [->|Hk]%elem_of_cons; [by apply H3|by apply H4]. }
  pose proof (Hn nid ltac:(left)) as Hedge. destruct (eo_edge g Hg _ _ _ Hedge) as (n & E & Hl). rewrite E.
  destruct (visitOne_spec b (mkItem nid (dist q (Vector n))) n Hb Hv E eq_refl) as (b1 & Ev & Hb1 & Vb1 & Cb1 & Fb1); [by exists n|by eapply HP|].
  assert (forall k : beam D -> outcome HnswErr (beam D), (add ← shouldAdd dlt ef (mkBeam (visited b ∪ {[nid]}) (cands b) (results b)) (dist q (Vector n));
     b0 ← (if add : bool then admitItem dlt g ef (mkItem nid (dist q (Vector n))) (mkBeam (visited b ∪ {[nid]}) (cands b) (results b)) else Ok (mkBeam (visited b ∪ {[nid]}) (cands b) (results b)));
     k b0) = k b1) as Hk.
  { intros k. unfold visitOne in Ev. cbn in Ev. destruct (shouldAdd _ _ _ _) as [add| |]; [|done..]. cbn in *. by rewrite Ev. }
  cbn zeta. rewrite Hk. destruct (IH b1 Hb1 Hn') as (b' & H1 & H2 & H3 & H4 & H5 & H6 & H7). exists b'. rewrite Vb1 in *. cbn [hid] in *.
  assert (forall v, v ∈ ids (cands b) -> v ∈ ids (cands b1)) as Hc1 by (intros v Hvc; destruct Cb1 as [->|Cb1]; [done|]; rewrite Cb1; by right).
  split; [done|]. split; [done|]. split; [set_solver|]. split; [intros k [->|Hk']%elem_of_cons; [apply H3; set_solver|by apply H4]|].
  split; [pose proof (work_visit b b1 (mkItem nid (dist q (Vector n))) ltac:(cbn; eauto) Hv Vb1 Cb1); lia|]. split; [auto|].
  intros Hf v Hv'. destruct (H7 Hf v Hv') as [Hv1|]; [|by right]. apply elem_of_union in Hv1 as [?| ->%elem_of_singleton]; [by left|].
  right. apply H6. rewrite (Fb1 Hf). by left.
Qed.

(** All that [v] is linked to has been visited. *)
Definition closed b (v : Z) : Prop := forall w, neighborOf g l v w -> w ∈ visited b.

Lemma beamLoop_spec fuel b :
  beam_ok b -> (work b <= fuel)%nat -> (full -> forall v, v ∈ visited b -> v ∈ ids (cands b) \/ closed b v) ->
  exists b', beamLoop dlt dist fuel g q ef l b = Ok b' /\ beam_ok b' /\ visited b ⊆ visited b' /\
    (full -> ef <= len (results b') \/ forall v, v ∈ visited b' -> closed b' v).
Proof using Hef Hg HP dlt_asym dlt_negtrans.
  revert b; induction fuel as [|fuel IH]; intros b Hb Hw Hcl; cbn [beamLoop];
    (destruct (cands b) as [|c0 cs0] eqn:Ec; [exists b; split; [done|]; split; [done|]; split; [done|]; intros Hf; right; intros v Hv;
      destruct (Hcl Hf v Hv) as [Hin|]; [by apply not_elem_of_nil in Hin|done]|]).
  { unfold work in Hw. rewrite Ec in Hw. cbn in Hw. lia. }
  pose proof Hb as [B1 B2 B3 B4 B5 B6 B7 B8]. rewrite Ec in *.
  destruct (pop_spec false (c0 :: cs0) B5) as (c & cs & -> & P1 & P2 & P3); [done|]. cbn [mbind outcome_bind].
  set (b1 := mkBeam (visited b) cs (results b)). rewrite <-P1 in B2. apply Forall_cons in B2 as [(Hcv & n & En & Ed) B2].
  assert (beam_ok b1) as Hb1 by (by split).
  assert (work b1 < work b)%nat as Hw1 by (unfold work; cbn; rewrite Ec; apply Permutation_length in P1; cbn in *; lia).
  assert (exists stop, done_ dlt ef c (results b1) = Ok stop /\ (stop = true -> ef <= len (results b))) as (stop & -> & Hstop).
  { unfold done_. cbn. destruct (Z.leb_spec ef (len (results b))); [|by exists false].
    destruct (peek_spec (results b) B6) as (top & -> & _); [intros E0; rewrite E0 in *; change (len (@nil item)) with 0 in *; lia|]. cbn. eauto. }
  cbn [mbind outcome_bind]. destruct stop.
  { exists b1. split; [done|]. split; [done|]. split; [done|]. intros _. left. by apply Hstop. }
  unfold deref. rewrite En. cbn [mbind outcome_bind].
  destruct (B1 _ Hcv) as ((n' & En' & Hl) & HPc). rewrite En in En'. injection En' as <-.
  destruct (eo_node g Hg _ _ En) as (_ & _ & Hlen). destruct (lookup_lt_is_Some_2 (Neighbors n) l ltac:(lia)) as [nbs Hn]. rewrite Hn.
  destruct (expand_spec (hid c) nbs b1 Hb1 HPc) as (b2 & -> & Hb2 & V2 & N2 & W2 & C2 & F2); [intros nid Hnid; by exists n, nbs|].
  cbn [mbind outcome_bind]. destruct (IH b2 Hb2 ltac:(lia)) as (b' & H1 & H2 & H3 & H4).
  - intros Hf v Hv. destruct (F2 Hf v Hv) as [Hv1|]; [|by left]. destruct (Hcl Hf v Hv1) as [Hin|Hcv'].
    + assert (v ∈ ids (c :: cs)) as Hin' by (by rewrite P1). cbn in Hin'. apply elem_of_cons in Hin' as [->|Hin']; [right|left; by apply C2].
      intros w (n1 & nbs1 & E1 & Hn1 & Hw'). rewrite En in E1. injection E1 as <-. rewrite Hn in Hn1. injection Hn1 as <-. by apply N2.
    + right. intros w Hw'. apply V2. by apply Hcv'.
  - exists b'. split; [done|]. split; [done|]. split; [by etrans|done].
Qed.

(** ** The whole search of a layer *)
Lemma seed_spec entryIDs b :
  beam_ok b -> len (results b) + len entryIDs <= ef -> (forall e, e ∈ entryIDs -> onLayer g l e /\ P e) ->
  (forall v, v ∈ visited b -> v ∈ ids (cands b)) ->
  exists b', seed dlt dist g q entryIDs b = Ok b' /\ beam_ok b' /\ visited b' = visited b ∪ list_to_set entryIDs /\ (work b' <= work b)%nat /\
    forall v, v ∈ visited b' -> v ∈ ids (cands b').
Proof using Hef Hg HP dlt_asym dlt_negtrans.
  revert b; induction entryIDs as [|e es IH]; intros b Hb Hl He Hv; cbn [seed].
  { exists b. split; [done|]. split; [done|]. split; [set_solver|]. split; [lia|done]. }
  rewrite len_cons in Hl. pose proof (len_nonneg es) as Hes. pose proof (len_nonneg (results b)) as Hrs. destruct (decide (e ∈ visited b)) as [Hin|Hout].
  { destruct (IH b Hb ltac:(lia)) as (b' & H1 & H2 & H3 & H4); [intros; apply He; by right|done|]. exists b'. split; [done|]. split; [done|]. split; [clear -H3 Hin; set_solver|done]. }
  destruct (He e ltac:(left)) as ((n & En & Hlv) & HPe). unfold deref. rewrite En. cbn [mbind outcome_bind]. set (x := mkItem e (dist q (Vector n))).
  set (b1 := mkBeam _ _ _).
  assert (visitOne x b = Ok b1) as Ev1.
  { unfold visitOne, shouldAdd. cbn. rewrite (proj2 (Z.ltb_lt _ _)) by lia. cbn. unfold admitItem. cbn. destruct (decide (e ∈ tombstones g)) as [|]; [done|].
    rewrite (proj2 (Z.ltb_ge _ _)); [done|]. rewrite len_push. lia. }
  destruct (visitOne_spec b x n Hb Hout En eq_refl) as (b2 & E2 & Hb1 & Vb1 & Cb1 & _); [by exists n|done|]. rewrite Ev1 in E2. injection E2 as <-. cbn [hid x] in Vb1.
  assert (cands b1 ≡ₚ x :: cands b) as Cb by apply Push_perm.
  destruct (IH b1 Hb1) as (b' & H1 & H2 & H3 & H4 & H5).
  - subst b1. cbn [results]. destruct (decide (e ∈ tombstones g)); [lia|]. rewrite len_push. lia.
  - intros; apply He; by right.
  - intros v. rewrite Vb1, Cb. intros [?| ->%elem_of_singleton]%elem_of_union; [right; by apply Hv|by left].
  - exists b'. split; [done|]. split; [done|]. split; [rewrite H3, Vb1; set_solver|]. split; [|done].
    pose proof (work_visit b b1 x ltac:(cbn; eauto) Hout Vb1 Cb1). lia.
Qed.
End beam.

(** Reachability along the edges of a layer. *)
Definition reached g (l : nat) (entryIDs : list Z) (v : Z) : Prop := exists e, e ∈ entryIDs /\ rtc (neighborOf g l) e v.

Lemma reach_onLayer g l e v : edges_ok g -> rtc (neighborOf g l) e v -> onLayer g l e -> onLayer g l v.
Proof. intros Hg. induction 1 as [|x y z Hxy _ IH]; [done|]. intros _. apply IH. by eapply eo_edge. Qed.

(** Beam search ends without panic.  Its results are distinct live nodes of the
    layer, with their distances, reachable from the entry points, at most [ef] of
    them; if the beam is as wide as the graph they are all of those. *)
Lemma searchLayer_spec g q entryIDs ef l :
  edges_ok g -> 1 <= ef -> len entryIDs <= ef -> (forall e, e ∈ entryIDs -> onLayer g l e) ->
  exists res, searchLayer dlt dist g q entryIDs ef l = Ok res /\ NoDup (ids res) /\ len res <= ef /\
    (forall x, x ∈ res -> onLayer g l (hid x) /\ reached g l entryIDs (hid x) /\ (hid x ∉ tombstones g) /\
       exists n, nodes g !! hid x = Some n /\ hdist x = dist q (Vector n)) /\
    ((size (nodes g) <= Z.to_nat ef)%nat -> forall v, reached g l entryIDs v -> v ∉ tombstones g -> v ∈ ids res).
Proof using dlt_asym dlt_negtrans.
  intros Hg Hef Hlen He. set (P := reached g l entryIDs).
  assert (forall a c, P a -> neighborOf g l a c -> P c) as HP by (intros a c (e & Hin & Hr) Hac; exists e; split; [done|]; by eapply rtc_r).
  destruct (seed_spec g q ef Hef Hg l P HP entryIDs (mkBeam ∅ [] [])) as (b & Es & Hb & Vb & Wb & Cb).
  { split; cbn [visited cands results]; [intros v Hv; set_solver|by apply Forall_nil|by apply Forall_nil|apply NoDup_nil_2|intros c Hc; cbn in Hc; lia|intros c Hc; cbn in Hc; lia|change (len (@nil item)) with 0; lia|intros v n Hv; set_solver]. }
  { cbn. change (len (@nil item)) with 0. lia. }
  { intros e Hin. split; [by apply He|]. exists e. split; [done|]. apply rtc_refl. }
  { cbn. set_solver. }
  unfold searchLayer. rewrite Es. cbn [mbind outcome_bind].
  destruct (beamLoop_spec g q ef Hef Hg l P HP (size (nodes g)) b Hb) as (b' & -> & Hb' & V' & F').
  { etrans; [exact Wb|]. unfold work. cbn. rewrite <-(size_dom (D := gset Z)). apply subseteq_size. set_solver. }
  { intros _ v Hv. left. by apply Cb. }
  cbn [mbind outcome_bind]. exists (results b'). pose proof Hb' as [B1 B2 B3 B4 B5 B6 B7 B8]. rewrite Forall_forall in B3. split; [done|]. split; [done|]. split; [done|]. split.
  - intros x Hx. destruct (B3 x Hx) as [(Hv & Hn) Ht]. destruct (B1 _ Hv) as [H1 H2]. done.
  - intros Hf v (e & Hin & Hr) Hlive.
    assert (forall w, is_Some (nodes g !! w) -> ef <= len (results b') -> w ∈ ids (results b')) as Hall.
    { intros w Hw Hfull. destruct (decide (w ∈ ids (results b'))); [done|]. pose proof (results_few g q ef l P b' w Hb' Hw ltac:(done)). unfold len in Hfull. lia. }
    destruct (reach_onLayer g l e v Hg Hr (He e Hin)) as (n & En & _).
    destruct (F' Hf) as [Hfull|Hclosed]; [by apply Hall|].
    assert (v ∈ visited b') as Hv.
    { assert (e ∈ visited b') as Hev by (apply V'; rewrite Vb; set_solver). clear -Hr Hev Hclosed. induction Hr as [|x y z Hxy _ IH]; [done|]. apply IH. by eapply Hclosed. }
    destruct (B8 v n Hv En Hlive) as [?|[Hfull _]]; [done|]. by apply Hall.
Qed.
End proof.
