(* ===== verification/HNSWSpec.v ===== *)
(** * What the vector index promises

    The invariant of the graph over insertions, deletions and cleanups, from which
    no operation panics and degrees and memory stay bounded; what a query returns;
    and a flaw: a vector inserted while every other one is soft-deleted can never
    be found. *)

From Stdlib Require Import ZArith Lia List Sorted.
From stdpp Require Import base list option gmap sorting relations.
From S2P Require Import Prelude GoBytes Heap HNSW HNSWProof.
Open Scope Z_scope.

Section spec.
Context {F D : Type} (dlt : D -> D -> bool) (dist : list F -> list F -> D).
Context (dlt_asym : forall x y, dlt x y = true -> dlt y x = false).
Context (dlt_negtrans : forall x y z, dlt y x = false -> dlt z y = false -> dlt z x = false).
Context (sort : list (heapItem D) -> list (heapItem D)).
Abbreviation Graph := (Graph F).
Abbreviation Node := (Node F).
Abbreviation item := (heapItem D).
Abbreviation dle := (dle dlt).
Definition item_le (x y : item) : Prop := dle (hdist x) (hdist y).
Context (sort_perm : forall l, sort l ≡ₚ l) (sort_sorted : forall l, StronglySorted item_le (sort l)).
Context (range_nodes : gmap Z Node -> list Z) (range_ids : gset Z -> list Z).
Context (range_nodes_perm : forall m, range_nodes m ≡ₚ (map_to_list m).*1) (range_ids_perm : forall s, range_ids s ≡ₚ elements s).
Implicit Types (g : Graph) (n : Node).

(** ** The invariant *)
Definition options_ok (o : HnswOptions) : Prop := 1 <= Dim o /\ 2 <= M o /\ 1 <= EfConstruct o /\ 1 <= HNSW.EfSearch o.
(** The estimate for a level, which depends on the options alone, summed over all nodes. *)
Definition node_mem (o : HnswOptions) (lv : nat) : Z := estimateNodeMemory (F := F) (mkGraph ∅ 0 0 o ∅ 0) lv.
Definition mem_sum g : Z := map_fold (fun (_ : Z) (lv : nat) (acc : Z) => node_mem (opts g) lv + acc) 0 (Level <$> nodes g).

Lemma estimate_opts g lv : estimateNodeMemory g lv = node_mem (opts g) lv.
Proof. unfold node_mem, estimateNodeMemory. cbn. do 2 f_equal. induction lv as [|lv IH]; cbn; [done|]. by rewrite IH. Qed.

Record graph_inv g : Prop := {
  gi_edges : edges_ok g;
  gi_opts : options_ok (opts g);
  gi_level : forall id n, nodes g !! id = Some n -> (Level n <= maxLevel g)%nat;
  gi_entry : nodes g <> ∅ -> exists n, nodes g !! entryPoint g = Some n /\ Level n = maxLevel g;
  gi_tomb : tombstones g ⊆ dom (nodes g);
  gi_mem : memoryBytes g = mem_sum g;
  gi_cap : 0 < MaxMemoryBytes (opts g) -> memoryBytes g <= MaxMemoryBytes (opts g)
}.

(** ** Queries *)
Lemma truncate_ok {A} (l : list A) k : 0 <= k -> exists l', @truncate A l k = Ok l' /\ l' = take (Z.to_nat k) l.
Proof.
  intros Hk. unfold truncate. destruct (Z.ltb_spec k (len l)).
  - rewrite slice_ok by lia. rewrite Z.sub_0_r. eauto.
  - exists l. split; [done|]. rewrite take_ge; [done|]. unfold len in *. lia.
Qed.

Lemma toResults_spec g (cs : list item) :
  (forall c, c ∈ cs -> is_Some (nodes g !! hid c)) ->
  exists rs, toResults g cs = Ok rs /\
    Forall2 (fun c r => rID r = hid c /\ rDistance r = hdist c /\ exists n, nodes g !! hid c = Some n /\ rExternalID r = ExternalID n) cs rs.
Proof.
  induction cs as [|c cs IH]; intros H; [by exists []; split; [done|constructor]|]. cbn [toResults]. destruct (H c ltac:(left)) as [n E].
  unfold deref. rewrite E. cbn [mbind outcome_bind]. destruct IH as (rs & -> & Hr); [intros; apply H; by right|]. cbn. eexists. split; [done|].
  constructor; [|done]. cbn. eauto.
Qed.

Lemma sorted_take (l : list item) k y z :
  StronglySorted item_le l -> y ∈ take k l -> z ∈ drop k l -> item_le y z.
Proof. rewrite <-(take_drop k l) at 1. intros (H & _ & _)%StronglySorted_app Hy Hz. by apply H. Qed.

(** The distance of results, in the order of the list. *)
Definition result_le (a b : SearchResult D) : Prop := dle (rDistance a) (rDistance b).

(** What a query answers: results in ascending distance, each a live vector that
    can be reached on the bottom layer from [ep], with its identifier and distance. *)
Record answer g (q : list F) (ep : Z) (k : Z) (rs : list (SearchResult D)) : Prop := {
  an_len : len rs <= k;
  an_nodup : NoDup (map rID rs);
  an_sorted : StronglySorted result_le rs;
  an_sound : forall r, r ∈ rs -> reached g 0 [ep] (rID r) /\ (rID r ∉ tombstones g) /\
    exists n, nodes g !! rID r = Some n /\ rExternalID r = ExternalID n /\ rDistance r = dist q (Vector n)
}.
(** Every live vector that can be reached is in the answer, or the answer is full
    of vectors at least as close. *)
Definition complete g (q : list F) (ep : Z) (k : Z) (rs : list (SearchResult D)) : Prop :=
  forall v n, reached g 0 [ep] v -> v ∉ tombstones g -> nodes g !! v = Some n ->
    v ∈ map rID rs \/ len rs = k /\ forall r, r ∈ rs -> dle (rDistance r) (dist q (Vector n)).

Lemma answer_of g q ep k cands :
  edges_ok g -> 0 <= k -> NoDup (ids cands) ->
  (forall x, x ∈ cands -> onLayer g 0 (hid x) /\ reached g 0 [ep] (hid x) /\ (hid x ∉ tombstones g) /\ exists n, nodes g !! hid x = Some n /\ hdist x = dist q (Vector n)) ->
  exists rs, (c ← truncate (sort cands) k; toResults g c) = Ok rs /\ answer g q ep k rs /\
    ((forall v, reached g 0 [ep] v -> v ∉ tombstones g -> v ∈ ids cands) -> complete g q ep k rs).
Proof using sort_perm sort_sorted.
  intros Hg Hk Hnd Hall. destruct (truncate_ok (sort cands) k Hk) as (cs & -> & ->). cbn [mbind outcome_bind].
  set (cs := take (Z.to_nat k) (sort cands)).
  assert (forall x, x ∈ cs -> x ∈ cands) as Hsub by (intros x Hx; rewrite <-(sort_perm cands); by eapply (subseteq_take (Z.to_nat k))).
  destruct (toResults_spec g cs) as (rs & -> & Hrs). { intros c Hc. destruct (Hall c (Hsub c Hc)) as (_ & _ & _ & n & E & _). eauto. }
  exists rs. split; [done|].
  assert (map rID rs = ids cs) as Hids by (clear -Hrs; induction Hrs as [|c r cs rs (E & _) _ IH]; [done|]; cbn; by rewrite E, IH).
  assert (forall r, r ∈ rs -> exists c, c ∈ cs /\ rID r = hid c /\ rDistance r = hdist c /\ exists n, nodes g !! hid c = Some n /\ rExternalID r = ExternalID n) as Hr.
  { intros r [i Hi]%list_elem_of_lookup. destruct (Forall2_lookup_r _ _ _ _ _ Hrs Hi) as (c & Hc & H). exists c. split; [by eapply list_elem_of_lookup_2|done]. }
  assert (len rs = len cs) as Hlen by (unfold len; by rewrite (Forall2_length _ _ _ Hrs)).
  split.
  - split.
    + rewrite Hlen. unfold len, cs. rewrite length_take. lia.
    + rewrite Hids. unfold ids, cs. rewrite <-firstn_map. eapply sublist_NoDup; [|apply sublist_take]. rewrite sort_perm. exact Hnd.
    + assert (StronglySorted item_le cs) as Hs by (pose proof (sort_sorted cands) as Hs; rewrite <-(take_drop (Z.to_nat k) (sort cands)) in Hs; by apply StronglySorted_app in Hs as (_ & ? & _)).
      clear -Hrs Hs. induction Hrs as [|c r cs rs (_ & Ed & _) Hf IH]; [constructor|]. apply StronglySorted_inv in Hs as [Hs Hc]. constructor; [auto|].
      clear IH Hs. induction Hf as [|c' r' cs rs (_ & Ed' & _) Hf IH]; [constructor|]. apply Forall_cons in Hc as [Hc1 Hc2]. constructor; [|auto]. unfold result_le. by rewrite Ed, Ed'.
    + intros r Hin. destruct (Hr r Hin) as (c & Hc & E1 & E2 & n & En & Ex). destruct (Hall c (Hsub c Hc)) as (_ & H2 & H3 & n' & En' & Ed).
      rewrite E1. split; [done|]. split; [done|]. exists n. split; [done|]. split; [done|]. rewrite E2, Ed. congruence.
  - intros Hcomp v n Hv Ht En. pose proof (Hcomp v Hv Ht) as Hin. apply list_elem_of_fmap in Hin as (x & -> & Hx).
    rewrite <-(sort_perm cands) in Hx. rewrite <-(take_drop (Z.to_nat k) (sort cands)) in Hx. apply elem_of_app in Hx as [Hx|Hx].
    { left. rewrite Hids. by apply list_elem_of_fmap_2. }
    right. assert (drop (Z.to_nat k) (sort cands) <> []) as Hd by (intros E; rewrite E in Hx; by apply not_elem_of_nil in Hx).
    split.
    { rewrite Hlen. unfold len, cs. rewrite length_take. assert (Z.to_nat k < length (sort cands))%nat; [|lia].
      destruct (Nat.lt_ge_cases (Z.to_nat k) (length (sort cands))); [done|]. by rewrite drop_ge in Hd. }
    intros r Hin. destruct (Hr r Hin) as (c & Hc & _ & -> & _). assert (hdist x = dist q (Vector n)) as <-.
    { destruct (Hall x) as (_ & _ & _ & n' & En' & ->); [rewrite <-(sort_perm cands); by eapply (subseteq_drop (Z.to_nat k))|]. congruence. }
    by eapply (sorted_take (sort cands) (Z.to_nat k)).
Qed.

Lemma hnsw_answer g q k sopts :
  graph_inv g -> 0 <= k ->
  match Search dlt dist sort g q k sopts with
  | Err ErrDimensionMismatch => len q <> Dim (opts g)
  | Err ErrEmptyGraph => nodes g = ∅
  | Ok rs => exists ep, descend dlt dist g q 0 (maxLevel g) (entryPoint g) = Ok ep /\ onLayer g 0 ep /\ answer g q ep k rs /\
      (Z.of_nat (size (nodes g)) <= Z.max k (if 0 <? sopts then sopts else HNSW.EfSearch (opts g)) -> complete g q ep k rs)
  | _ => False
  end.
Proof using dlt_asym dlt_negtrans sort_perm sort_sorted.
  intros Hg Hk. unfold Search. destruct (Z.eqb_spec (len q) (Dim (opts g))); cbn [negb]; [|done].
  destruct (Nat.eqb_spec (size (nodes g)) 0) as [E0|E0]; [by apply map_size_empty_inv|].
  set (ef0 := if 0 <? sopts then sopts else HNSW.EfSearch (opts g)).
  assert (1 <= ef0) as Hef0 by (subst ef0; destruct (Z.ltb_spec 0 sopts); [lia|]; apply (gi_opts g Hg)).
  replace (if ef0 <? k then k else ef0) with (Z.max k ef0) by (destruct (Z.ltb_spec ef0 k); lia).
  destruct (gi_entry g Hg) as (n & En & El); [intros E; rewrite E, map_size_empty in E0; done|].
  destruct (greedy_descend_spec dlt dist dlt_asym dlt_negtrans g q 0 (maxLevel g) (entryPoint g) n (gi_edges g Hg) En ltac:(lia)) as (ep & n' & -> & En' & _).
  cbn [mbind outcome_bind].
  destruct (searchLayer_spec dlt dist dlt_asym dlt_negtrans g q [ep] (Z.max k ef0) 0 (gi_edges g Hg)) as (cands & -> & Hnd & _ & Hall & Hfull);
    [lia|change (len [ep]) with 1; lia|intros ? ->%list_elem_of_singleton; exists n'; split; [done|lia]|].
  cbn [mbind outcome_bind]. destruct (answer_of g q ep k cands (gi_edges g Hg) Hk Hnd Hall) as (rs & -> & Ha & Hc).
  exists ep. split; [done|]. split; [exists n'; split; [done|lia]|]. split; [done|]. intros Hs. apply Hc. apply Hfull. lia.
Qed.

(** C10: Queries.  On a graph that satisfies the invariant a query with a vector of the
    right dimension and [k] at least 0 ends without error or panic, unless the
    graph is empty.  It answers at most [k] distinct live vectors in ascending
    order of their distance, all reachable on the bottom layer from the point the
    descent found; with a beam at least as wide as the graph these are the nearest
    of all the vectors that can be reached from there. *)
Theorem hnsw_search g q k sopts :
  graph_inv g -> 0 <= k ->
  match Search dlt dist sort g q k sopts with
  | Err ErrDimensionMismatch => len q <> Dim (opts g)
  | Err ErrEmptyGraph => nodes g = ∅
  | Ok rs => exists ep, descend dlt dist g q 0 (maxLevel g) (entryPoint g) = Ok ep /\ onLayer g 0 ep /\ answer g q ep k rs /\
      (Z.of_nat (size (nodes g)) <= Z.max k (if 0 <? sopts then sopts else HNSW.EfSearch (opts g)) -> complete g q ep k rs)
  | _ => False
  end.
Proof using dlt_asym dlt_negtrans sort_perm sort_sorted. apply hnsw_answer. Qed.

(** ** Edits of the graph that only change neighbour lists *)
Definition shape n : Z * bytes * list F * nat := (ID n, ExternalID n, Vector n, Level n).
Record same_shape g g' : Prop := {
  ss_nodes : shape <$> nodes g' = shape <$> nodes g;
  ss_entry : entryPoint g' = entryPoint g;
  ss_max : maxLevel g' = maxLevel g;
  ss_opts : opts g' = opts g;
  ss_tomb : tombstones g' = tombstones g;
  ss_mem : memoryBytes g' = memoryBytes g
}.
#[local] Instance same_shape_refl : Reflexive same_shape.
Proof. by split. Qed.
#[local] Instance same_shape_trans : Transitive same_shape.
Proof. intros g1 g2 g3 [] []. split; congruence. Qed.

Lemma shape_lookup g g' id n : same_shape g g' -> nodes g !! id = Some n -> exists n', nodes g' !! id = Some n' /\ shape n' = shape n.
Proof.
  intros H E. pose proof (ss_nodes _ _ H) as Hn. apply (f_equal (.!! id)) in Hn. rewrite !lookup_fmap, E in Hn. cbn in Hn.
  destruct (nodes g' !! id) as [n'|]; [|done]. apply (inj Some) in Hn. eauto.
Qed.
Lemma same_shape_sym g g' : same_shape g g' -> same_shape g' g.
Proof. intros []. by split. Qed.

Lemma shape_onLayer g g' l id : same_shape g g' -> onLayer g l id -> onLayer g' l id.
Proof. intros H (n & E & Hl). destruct (shape_lookup g g' id n H E) as (n' & E' & Es). exists n'. split; [done|]. injection Es as ? ? ? ->. done. Qed.

Lemma shape_levels g g' : same_shape g g' -> Level <$> nodes g' = Level <$> nodes g.
Proof.
  intros H. apply map_eq. intros i. pose proof (ss_nodes _ _ H) as Hn. apply (f_equal (.!! i)) in Hn. rewrite !lookup_fmap in *.
  destruct (nodes g' !! i), (nodes g !! i); cbn in *; try done. injection Hn as ? ? ? ->. done.
Qed.

Lemma mem_sum_ext g g' : opts g' = opts g -> Level <$> nodes g' = Level <$> nodes g -> mem_sum g' = mem_sum g.
Proof.
  intros Eo En. unfold mem_sum. by rewrite En, Eo.
Qed.

(** One neighbour list is replaced. *)
Lemma set_neighbors_ok g id n l nbs :
  edges_ok g -> nodes g !! id = Some n -> (l <= Level n)%nat -> len nbs <= neighborCap g l -> (forall nid, nid ∈ nbs -> onLayer g l nid) ->
  let g' := set_nodes (<[id := set_neighbors l nbs n]> (nodes g)) g in edges_ok g' /\ same_shape g g'.
Proof.
  intros Hg E Hl Hlen Hon g'. assert (same_shape g g') as Hs.
  { split; try done. cbn. rewrite fmap_insert. apply insert_id. by rewrite lookup_fmap, E. }
  split; [|done]. destruct (eo_node g Hg id n E) as (N1 & N2 & N3). split.
  - intros i m. cbn. rewrite lookup_insert_Some. intros [[<- <-]|[_ Hm]]; [|by apply (eo_node g Hg)]. cbn. by rewrite length_insert.
  - intros i m l' nbs'. cbn. rewrite lookup_insert_Some. intros [[<- <-]|[_ Hm]]; [|by apply (eo_deg g Hg i m)]. cbn.
    intros [(<- & <- & _)|[_ Hn]]%list_lookup_insert_Some; [done|]. by eapply (eo_deg g Hg).
  - intros l' i nid (m & nbs' & Hm & Hn & Hin). apply (shape_onLayer g g'); [done|]. cbn in Hm. apply lookup_insert_Some in Hm as [[<- <-]|[_ Hm]].
    + cbn in Hn. apply list_lookup_insert_Some in Hn as [(<- & <- & _)|[_ Hn]]; [by apply Hon|]. apply (eo_edge g Hg l' id). by exists n, nbs'.
    + apply (eo_edge g Hg l' i). by exists m, nbs'.
Qed.

(** ** Choosing neighbours *)
Lemma diverse_ok g v d sel : (forall x, x ∈ sel -> is_Some (nodes g !! hid x)) -> exists r, diverse dlt dist g v d sel = Ok r.
Proof.
  induction sel as [|s sel IH]; intros H; cbn [diverse]; [by eexists|]. destruct (H s ltac:(left)) as [n E]. unfold deref. rewrite E. cbn [mbind outcome_bind].
  destruct (dlt _ _); [by eexists|]. apply IH. intros; apply H; by right.
Qed.

Lemma heuristicLoop_ok g maxN cs sel :
  0 <= maxN -> len sel <= maxN -> (forall x, x ∈ cs \/ x ∈ sel -> is_Some (nodes g !! hid x)) ->
  exists r, heuristicLoop dlt dist g maxN cs sel = Ok r /\ len r <= maxN /\ forall x, x ∈ r -> x ∈ cs \/ x ∈ sel.
Proof.
  intros H0. revert sel; induction cs as [|c cs IH]; intros sel Hl Hn; cbn [heuristicLoop]; [exists sel; auto|].
  destruct (Z.leb_spec maxN (len sel)); [exists sel; auto|]. destruct (Hn c) as [n E]; [left; left|]. unfold deref. rewrite E. cbn [mbind outcome_bind].
  destruct (diverse_ok g (Vector n) (hdist c) sel) as [good ->]; [intros x Hx; apply Hn; by right|]. cbn [mbind outcome_bind].
  destruct (IH (if good then sel ++ [c] else sel)) as (r & -> & H1 & H2).
  - destruct good; [rewrite len_app, len_cons; change (len (@nil item)) with 0; lia|done].
  - intros x [Hx|Hx]; [apply Hn; left; by right|]. destruct good; [|apply Hn; by right]. apply elem_of_app in Hx as [Hx| ->%list_elem_of_singleton]; [apply Hn; by right|eauto].
  - exists r. split; [done|]. split; [done|]. intros x Hx. destruct (H2 x Hx) as [Hc|Hs]; [left; by right|]. destruct good; [|by right].
    apply elem_of_app in Hs as [?| ->%list_elem_of_singleton]; [by right|left; left].
Qed.

Lemma fillLoop_ok maxN chosen (cs sel : list item) :
  len sel <= maxN -> len (fillLoop maxN chosen cs sel) <= maxN /\ forall x, x ∈ fillLoop maxN chosen cs sel -> x ∈ cs \/ x ∈ sel.
Proof.
  revert sel; induction cs as [|c cs IH]; intros sel Hl; cbn [fillLoop]; [auto|]. destruct (Z.leb_spec maxN (len sel)); [auto|].
  destruct (IH (if decide (hid c ∈ chosen) then sel else sel ++ [c])) as [H1 H2].
  { destruct (decide _); [done|]. rewrite len_app, len_cons. change (len (@nil item)) with 0. lia. }
  split; [done|]. intros x Hx. destruct (H2 x Hx) as [Hc|Hs]; [left; by right|]. destruct (decide _); [by right|].
  apply elem_of_app in Hs as [?| ->%list_elem_of_singleton]; [by right|left; left].
Qed.

Lemma selectNeighbors_ok g cs maxN :
  0 <= maxN -> (forall x, x ∈ cs -> is_Some (nodes g !! hid x)) ->
  exists r, selectNeighborsHeuristic dlt dist sort g cs maxN = Ok (r, sort cs) /\ len r <= maxN /\ forall x, x ∈ r -> x ∈ cs.
Proof using sort_perm.
  intros H0 Hn. unfold selectNeighborsHeuristic.
  destruct (heuristicLoop_ok g maxN (sort cs) []) as (r & -> & H1 & H2); [done|change (len (@nil item)) with 0; lia| |].
  { intros x [Hx|Hx%not_elem_of_nil]; [|done]. apply Hn. by rewrite <-(sort_perm cs). }
  cbn [mbind outcome_bind]. assert (forall x, x ∈ r -> x ∈ cs) as Hr by (intros x Hx; destruct (H2 x Hx) as [Hs|[]%not_elem_of_nil]; by rewrite <-(sort_perm cs)).
  destruct (Z.ltb_spec (len r) maxN); [|eauto]. destruct (fillLoop_ok maxN (list_to_set (map hid r)) (sort cs) r ltac:(lia)) as [F1 F2].
  eexists. split; [done|]. split; [done|]. intros x Hx. destruct (F2 x Hx) as [Hs|]; [|auto]. by rewrite <-(sort_perm cs).
Qed.

Lemma shrink_ok g n l nbs maxN :
  Neighbors n !! l = Some nbs -> 0 <= maxN ->
  exists nbs', shrinkNeighbors dist sort g n l maxN = Ok (set_neighbors l nbs' n) /\ len nbs' <= maxN /\ forall nid, nid ∈ nbs' -> nid ∈ nbs.
Proof using sort_perm.
  intros E H0. unfold shrinkNeighbors, layerOf. rewrite E. cbn [mbind outcome_bind].
  destruct (truncate_ok (sort (rankAll dist g (Vector n) nbs)) maxN H0) as (r & -> & ->). cbn [mbind outcome_bind]. eexists. split; [done|]. split.
  - unfold len. rewrite length_map, length_take. lia.
  - intros nid (x & -> & Hx)%list_elem_of_fmap. assert (x ∈ rankAll dist g (Vector n) nbs) as Hx' by (rewrite <-sort_perm; by eapply (subseteq_take (Z.to_nat maxN))).
    apply list_elem_of_omap in Hx' as (i & Hi & Ei). destruct (nodes g !! i); [|done]. by injection Ei as <-.
Qed.

(** ** Insertion *)
Lemma cap_nonneg g l : options_ok (opts g) -> 0 <= neighborCap g l.
Proof. intros (_ & H & _). unfold neighborCap, maxM0, maxM. destruct (l =? 0)%nat; lia. Qed.

Lemma reverseEdges_ok id l ns g :
  edges_ok g -> options_ok (opts g) -> onLayer g l id -> (forall x, x ∈ ns -> onLayer g l (hid x)) ->
  exists g', reverseEdges dist sort id l ns g = Ok g' /\ edges_ok g' /\ same_shape g g'.
Proof using sort_perm.
  revert g; induction ns as [|x ns IH]; intros g Hg Ho Hid Hns; cbn [reverseEdges]; [by exists g|].
  destruct (Hns x ltac:(left)) as (n & En & Hl). unfold deref at 1. rewrite En. cbn [mbind outcome_bind].
  destruct (eo_node g Hg _ _ En) as (N1 & N2 & N3). destruct (lookup_lt_is_Some_2 (Neighbors n) l ltac:(lia)) as [nbs Hn].
  unfold layerOf at 1. rewrite Hn. cbn [mbind outcome_bind].
  set (n1 := set_neighbors l (nbs ++ [id]) n). set (g1 := set_nodes (<[hid x := n1]> (nodes g)) g).
  assert (exists nbs', (if neighborCap g1 l <? len (nbs ++ [id]) then shrinkNeighbors dist sort g1 n1 l (neighborCap g1 l) else Ok n1) = Ok (set_neighbors l nbs' n) /\
    len nbs' <= neighborCap g l /\ forall nid, nid ∈ nbs' -> nid ∈ nbs ++ [id]) as (nbs' & -> & Hlen & Hsub).
  { change (neighborCap g1 l) with (neighborCap g l). destruct (Z.ltb_spec (neighborCap g l) (len (nbs ++ [id]))); [|by exists (nbs ++ [id])].
    destruct (shrink_ok g1 n1 l (nbs ++ [id]) (neighborCap g l)) as (nbs' & -> & H1 & H2); [cbn; apply list_lookup_insert_eq; lia|by apply cap_nonneg|].
    exists nbs'. split; [|done]. subst n1. unfold set_neighbors. cbn. by rewrite list_insert_insert_eq. }
  cbn [mbind outcome_bind].
  destruct (set_neighbors_ok g (hid x) n l nbs' Hg En Hl Hlen) as [Hg2 Hs2].
  { intros nid [Hin| ->%list_elem_of_singleton]%Hsub%elem_of_app; [|done]. apply (eo_edge g Hg l (hid x)). by exists n, nbs. }
  assert (set_nodes (<[hid x := set_neighbors l nbs' n]> (nodes g1)) g1 = set_nodes (<[hid x := set_neighbors l nbs' n]> (nodes g)) g) as ->.
  { unfold set_nodes. cbn. by rewrite insert_insert_eq. }
  destruct (IH _ Hg2) as (g' & E' & H1 & H2); [done|by eapply shape_onLayer|intros y Hy; eapply shape_onLayer; [done|]; apply Hns; by right|].
  exists g'. split; [done|]. split; [done|]. by etrans.
Qed.

Lemma connectLayer_ok id vec l es g :
  edges_ok g -> options_ok (opts g) -> onLayer g l id -> len es <= EfConstruct (opts g) -> (forall e, e ∈ es -> onLayer g l e) ->
  exists g' es', connectLayer dlt dist sort id vec l es g = Ok (g', es') /\ edges_ok g' /\ same_shape g g' /\
    len es' <= EfConstruct (opts g) /\ forall e, e ∈ es' -> onLayer g' l e.
Proof using dlt_asym dlt_negtrans sort_perm.
  intros Hg Ho Hid Hlen Hes. unfold connectLayer.
  destruct (searchLayer_spec dlt dist dlt_asym dlt_negtrans g vec es (EfConstruct (opts g)) l Hg) as (cs & -> & _ & Hcl & Hall & _); [apply Ho|done|done|].
  cbn [mbind outcome_bind]. destruct (selectNeighbors_ok g cs (neighborCap g l)) as (ns & -> & Hnl & Hns);
    [by apply cap_nonneg|intros x Hx; destruct (Hall x Hx) as (_ & _ & _ & n & E & _); eauto|].
  cbn [mbind outcome_bind]. destruct Hid as (n & En & Hl). unfold deref. rewrite En. cbn [mbind outcome_bind].
  destruct (eo_node g Hg _ _ En) as (N1 & N2 & N3). destruct (lookup_lt_is_Some_2 (Neighbors n) l ltac:(lia)) as [nbs Hn]. unfold layerOf. rewrite Hn. cbn [mbind outcome_bind].
  destruct (set_neighbors_ok g id n l (map hid ns) Hg En Hl) as [Hg1 Hs1]; [unfold len in *; by rewrite length_map| |].
  { intros nid (x & -> & Hx)%list_elem_of_fmap. by apply Hall, Hns. }
  destruct (reverseEdges_ok id l ns _ Hg1) as (g' & -> & Hg' & Hs'); [done|eapply shape_onLayer; [done|by exists n]|intros x Hx; eapply shape_onLayer; [done|]; by apply Hall, Hns|].
  cbn [mbind outcome_bind]. exists g', (map hid (sort cs)). split; [done|]. split; [done|]. assert (same_shape g g') as Hs by (by etrans). split; [done|]. split.
  - unfold len in *. rewrite length_map, (Permutation_length (sort_perm cs)). done.
  - intros e (x & -> & Hx)%list_elem_of_fmap. rewrite sort_perm in Hx. eapply shape_onLayer; [done|]. by apply Hall.
Qed.

Lemma onLayer_le g l l' id : (l' <= l)%nat -> onLayer g l id -> onLayer g l' id.
Proof. intros Hl (n & E & H). exists n. split; [done|lia]. Qed.

Lemma connect_ok id vec l es g :
  edges_ok g -> options_ok (opts g) -> onLayer g l id -> len es <= EfConstruct (opts g) -> (forall e, e ∈ es -> onLayer g l e) ->
  exists g', connect dlt dist sort id vec l es g = Ok g' /\ edges_ok g' /\ same_shape g g'.
Proof using dlt_asym dlt_negtrans sort_perm.
  revert es g; induction l as [|l IH]; intros es g Hg Ho Hid Hlen Hes; cbn [connect];
    (destruct (connectLayer_ok id vec _ es g Hg Ho Hid Hlen Hes) as (g1 & es1 & -> & Hg1 & Hs1 & Hl1 & He1); cbn [mbind outcome_bind]).
  { by exists g1. }
  pose proof (ss_opts _ _ Hs1) as Eo. destruct (IH es1 g1 Hg1) as (g' & -> & Hg' & Hs').
  - by rewrite Eo.
  - eapply shape_onLayer; [done|]. apply (onLayer_le _ (S l)); [lia|done].
  - by rewrite Eo.
  - intros e He. apply (onLayer_le _ (S l)); [lia|by apply He1].
  - exists g'. split; [done|]. split; [done|]. by etrans.
Qed.

Lemma mem_sum_insert g g' id lv :
  opts g' = opts g -> nodes g !! id = None -> Level <$> nodes g' = <[id := lv]> (Level <$> nodes g) -> mem_sum g' = node_mem (opts g) lv + mem_sum g.
Proof.
  intros Eo E En. unfold mem_sum. rewrite En, Eo. apply (map_fold_insert_L (fun (_ : Z) lv acc => node_mem (opts g) lv + acc)); [intros; lia|].
  by rewrite lookup_fmap, E.
Qed.

Lemma mem_sum_delete g g' id n :
  opts g' = opts g -> nodes g !! id = Some n -> nodes g' = delete id (nodes g) -> mem_sum g' = mem_sum g - node_mem (opts g) (Level n).
Proof.
  intros Eo E En. unfold mem_sum. rewrite En, Eo, fmap_delete.
  rewrite (map_fold_delete_L (fun (_ : Z) lv acc => node_mem (opts g) lv + acc) 0 id (Level n) (Level <$> nodes g)); [lia|intros; lia|by rewrite lookup_fmap, E].
Qed.

Lemma node_mem_nonneg g lv : options_ok (opts g) -> 0 <= node_mem (opts g) lv.
Proof.
  intros (H1 & H2 & _). unfold node_mem, estimateNodeMemory. cbn [opts].
  assert (0 <= neighborBytes (mkGraph (∅ : gmap Z Node) 0 0 (opts g) ∅ 0) lv); [|lia].
  induction lv as [|lv IH]; cbn [neighborBytes]; unfold neighborCap, maxM, maxM0; cbn [opts]; [cbn; lia|]. destruct (S lv =? 0)%nat; lia.
Qed.

(** A new node without neighbours. *)
Lemma new_node_ok g id ext vec level mem :
  edges_ok g -> options_ok (opts g) -> nodes g !! id = None -> len vec = Dim (opts g) ->
  edges_ok (mkGraph (<[id := mkNode id ext vec level (replicate (S level) [])]> (nodes g)) (entryPoint g) (maxLevel g) (opts g) (tombstones g) mem).
Proof.
  intros Hg Ho E Hv. split; cbn [nodes opts].
  - intros i m [[<- <-]|[_ Hm]]%lookup_insert_Some; [|by apply (eo_node g Hg)]. cbn. by rewrite length_replicate.
  - intros i m l nbs [[<- <-]|[_ Hm]]%lookup_insert_Some; [|by apply (eo_deg g Hg i m)]. cbn [Neighbors].
    intros [-> _]%lookup_replicate. change (len (@nil Z)) with 0. by apply (cap_nonneg g).
  - intros l i nid (m & nbs & Hm & Hn & Hin). cbn in Hm. apply lookup_insert_Some in Hm as [[<- <-]|[Hne Hm]].
    + change (Neighbors _) with (replicate (S level) (@nil Z)) in Hn. apply lookup_replicate in Hn as [-> _]. by apply not_elem_of_nil in Hin.
    + destruct (eo_edge g Hg l i nid) as (m' & Em & Hl); [by exists m, nbs|]. exists m'. split; [|done]. cbn. rewrite lookup_insert_ne; [done|congruence].
Qed.

(** ** Insertion keeps the invariant *)
Lemma Insert_ok id ext vec level g :
  graph_inv g ->
  match Insert dlt dist sort id ext vec level g with
  | Ok g' => len vec = Dim (opts g) /\ nodes g !! id = None /\ graph_inv g' /\ opts g' = opts g /\ tombstones g' = tombstones g /\
      shape <$> nodes g' = <[id := (id, ext, vec, level)]> (shape <$> nodes g)
  | Err ErrDimensionMismatch => len vec <> Dim (opts g)
  | Err ErrDuplicateID => is_Some (nodes g !! id)
  | Err ErrMemoryLimitExceeded => 0 < MaxMemoryBytes (opts g) < memoryBytes g + estimateNodeMemory g level
  | _ => False
  end.
Proof using dlt_asym dlt_negtrans sort_perm.
  intros Hi. unfold Insert. destruct (Z.eqb_spec (len vec) (Dim (opts g))) as [Hd|]; cbn [negb]; [|done].
  destruct (decide (is_Some (nodes g !! id))) as [|Hn%eq_None_not_Some]; [done|].
  destruct ((0 <? MaxMemoryBytes (opts g)) && (MaxMemoryBytes (opts g) <? memoryBytes g + estimateNodeMemory g level)) eqn:Em; [lia|].
  set (node := mkNode id ext vec level (replicate (S level) [])). set (mem := memoryBytes g + estimateNodeMemory g level).
  set (g1 := mkGraph (<[id := node]> (nodes g)) (entryPoint g) (maxLevel g) (opts g) (tombstones g) mem).
  pose proof Hi as [Hg Ho Hlv Hen Ht Hm Hc].
  assert (edges_ok g1) as Hg1 by (by apply new_node_ok).
  assert (shape <$> nodes g1 = <[id := (id, ext, vec, level)]> (shape <$> nodes g)) as Hsh by (cbn; by rewrite fmap_insert).
  assert (forall g2, same_shape g1 g2 -> edges_ok g2 -> mem = mem_sum g2 /\ tombstones g ⊆ dom (nodes g2) /\ (0 < MaxMemoryBytes (opts g) -> mem <= MaxMemoryBytes (opts g)) /\
    (forall i m, nodes g2 !! i = Some m -> i = id /\ Level m = level \/ (Level m <= maxLevel g)%nat)) as Hrest.
  { intros g2 Hs Hg2. split; [|split; [|split]].
    - subst mem. rewrite estimate_opts, Hm. rewrite (mem_sum_insert g g2 id level); [lia|by rewrite (ss_opts _ _ Hs)|done|].
      rewrite (shape_levels _ _ Hs). cbn. by rewrite fmap_insert.
    - assert (dom (nodes g2) = dom (nodes g1)) as -> by (rewrite <-(dom_fmap_L shape (nodes g2)), (ss_nodes _ _ Hs), dom_fmap_L; done). cbn. rewrite dom_insert_L. clear -Ht. set_solver.
    - intros H0. apply andb_false_iff in Em. subst mem. lia.
    - intros i m E. destruct (shape_lookup g2 g1 i m (same_shape_sym _ _ Hs) E) as (m1 & E1 & Es). injection Es as _ _ _ Elv. cbn in E1.
      apply lookup_insert_Some in E1 as [[<- <-]|[_ E1]]; [left; by rewrite <-Elv|right]. rewrite <-Elv. by eapply Hlv. }
  destruct (Nat.eqb_spec (size (nodes g1)) 1) as [E1|E1].
  - assert (nodes g = ∅) as E0. { cbn in E1. rewrite map_size_insert_None in E1 by done. apply map_size_empty_inv. lia. }
    destruct (Hrest g1 ltac:(done) Hg1) as (R1 & R2 & R3 & R4). split; [done|]. split; [done|]. split; [|by split_and!].
    split; cbn [nodes opts maxLevel entryPoint tombstones memoryBytes set_entry]; try done.
    + by destruct Hg1.
    + intros i m. cbn. rewrite E0, lookup_insert_Some, lookup_empty. intros [[_ <-]|[_ [=]]]. done.
    + intros _. exists node. cbn. by rewrite lookup_insert_eq.
  - assert (nodes g <> ∅) as Hne by (intros E0; apply E1; cbn; rewrite E0, map_size_insert_None, map_size_empty by apply lookup_empty; done).
    destruct (Hen Hne) as (n & En & El). assert (nodes g1 !! entryPoint g = Some n) as En1 by (cbn; rewrite lookup_insert_ne; [done|congruence]).
    destruct (greedy_descend_spec dlt dist dlt_asym dlt_negtrans g1 vec level (maxLevel g) (entryPoint g) n Hg1 En1 ltac:(lia)) as (ep & n' & Ed & En' & _ & Hep).
    change (maxLevel g1) with (maxLevel g). change (entryPoint g1) with (entryPoint g). rewrite Ed. cbn [mbind outcome_bind].
    destruct (connect_ok id vec (Nat.min level (maxLevel g)) [ep] g1 Hg1 Ho) as (g2 & E2 & Hg2 & Hs2).
    + exists node. cbn. rewrite lookup_insert_eq. split; [done|]. cbn. lia.
    + change (len [ep]) with 1. apply Ho.
    + intros e ->%list_elem_of_singleton. destruct Hep as [[Hle ->]|(Hlt & Hl & _)]; [exists n; split; [done|lia]|exists n'; split; [done|lia]].
    + rewrite E2. cbn [mbind outcome_bind]. destruct (Hrest g2 Hs2 Hg2) as (R1 & R2 & R3 & R4).
      split; [done|]. split; [done|].
      assert (maxLevel g2 = maxLevel g) as Emax by exact (ss_max _ _ Hs2). assert (opts g2 = opts g) as Eo by exact (ss_opts _ _ Hs2).
      assert (exists n2, nodes g2 !! entryPoint g = Some n2 /\ Level n2 = maxLevel g) as (n2 & En2 & El2).
      { destruct (shape_lookup g1 g2 _ _ Hs2 En1) as (n2 & H1 & H2). exists n2. split; [done|]. injection H2 as _ _ _ ->. done. }
      assert (exists m2, nodes g2 !! id = Some m2 /\ Level m2 = level) as (m2 & Em2 & Elm2).
      { destruct (shape_lookup g1 g2 id node Hs2) as (m2 & H1 & H2); [cbn; by rewrite lookup_insert_eq|]. exists m2. split; [done|]. injection H2 as _ _ _ ->. done. }
      split; [|split; [destruct (_ <? _)%nat; exact Eo|split; [destruct (_ <? _)%nat; exact (ss_tomb _ _ Hs2)|]]].
      * rewrite Emax. destruct (Nat.ltb_spec (maxLevel g) level); split; cbn [nodes opts maxLevel entryPoint tombstones memoryBytes set_entry];
          rewrite ?Eo, ?Emax, ?(ss_entry _ _ Hs2), ?(ss_tomb _ _ Hs2), ?(ss_mem _ _ Hs2); try done; try (by destruct Hg2).
        -- intros i m E. destruct (R4 i m E) as [[_ ->]|]; lia.
        -- intros _. exists m2. done.
        -- intros i m E. destruct (R4 i m E) as [[_ ->]|]; lia.
        -- intros _. exists n2. done.
      * rewrite <-Hsh, <-(ss_nodes _ _ Hs2). by destruct (_ <? _)%nat.
Qed.

(** ** Deletion and cleanup *)
Lemma MarkDeleted_ok id g : graph_inv g -> graph_inv (MarkDeleted id g).
Proof.
  intros [H1 H2 H3 H4 H5 H6 H7]. unfold MarkDeleted. destruct (decide _) as [Hs|]; [|by split]. split; cbn; try done; [by destruct H1|].
  apply elem_of_dom in Hs. clear -Hs H5. set_solver.
Qed.

Lemma removeNodes_ok del g :
  options_ok (opts g) -> NoDup del -> (forall i, i ∈ del -> is_Some (nodes g !! i)) -> memoryBytes g = mem_sum g ->
  exists g', removeNodes del g = Ok g' /\ nodes g' = filter (fun kv => kv.1 ∉ del) (nodes g) /\
    entryPoint g' = entryPoint g /\ maxLevel g' = maxLevel g /\ opts g' = opts g /\ tombstones g' = tombstones g /\ memoryBytes g' = mem_sum g' /\
    memoryBytes g' <= memoryBytes g.
Proof.
  revert g; induction del as [|i del IH]; intros g Ho Hnd Hin Hm; cbn [removeNodes].
  { exists g. split; [done|]. split; [|by split_and!]. symmetry. apply map_filter_id. intros ?? _. apply not_elem_of_nil. }
  apply NoDup_cons in Hnd as [Hi Hnd]. destruct (Hin i ltac:(left)) as [n E]. unfold deref. rewrite E. cbn [mbind outcome_bind].
  set (g1 := mkGraph _ _ _ _ _ _). destruct (IH g1 Ho Hnd) as (g' & -> & H1 & H2 & H3 & H4 & H5 & H6 & H7).
  - intros j Hj. cbn. rewrite lookup_delete_ne by (intros ->; done). apply Hin. by right.
  - subst g1. cbn. rewrite Hm, estimate_opts. symmetry. by apply (mem_sum_delete g _ i).
  - exists g'. split; [done|]. split; [|split_and!; try done; etrans; [exact H7|]; subst g1; cbn; pose proof (node_mem_nonneg g (Level n) Ho); rewrite estimate_opts; lia]. rewrite H1. cbn. apply map_eq. intros j. apply option_eq. intros m.
    rewrite !map_lookup_filter_Some. cbn. rewrite lookup_delete_Some, not_elem_of_cons. naive_solver.
Qed.

(** The node of the highest level is chosen among the ids ranged over. *)
Lemma bestEntry_spec g (l : list Z) best :
  (forall i lv, best = Some (i, lv) -> exists n, nodes g !! i = Some n /\ Level n = lv) ->
  match bestEntry g l best with
  | Some (i, lv) => (exists n, nodes g !! i = Some n /\ Level n = lv) /\
      (forall j m, j ∈ l -> nodes g !! j = Some m -> (Level m <= lv)%nat) /\ (forall k bl, best = Some (k, bl) -> (bl <= lv)%nat)
  | None => best = None /\ forall j, j ∈ l -> nodes g !! j = None
  end.
Proof.
  revert best; induction l as [|j l IH]; intros best Hb; cbn [bestEntry].
  { destruct best as [[i lv]|]; [|split; [done|]; intros ? []%not_elem_of_nil]. split; [by apply Hb|]. split; [intros ?? []%not_elem_of_nil|]. by intros k bl [= <- <-]. }
  set (b1 := betterEntry g j best).
  assert ((forall i lv, b1 = Some (i, lv) -> exists n, nodes g !! i = Some n /\ Level n = lv) /\
    (forall m, nodes g !! j = Some m -> exists i lv, b1 = Some (i, lv) /\ (Level m <= lv)%nat) /\
    (forall k bl, best = Some (k, bl) -> exists i lv, b1 = Some (i, lv) /\ (bl <= lv)%nat) /\ (b1 = None -> best = None /\ nodes g !! j = None)) as (H1 & H2 & H3 & H4).
  { subst b1. unfold betterEntry. destruct (nodes g !! j) as [n|] eqn:Ej; destruct best as [[i0 l0]|].
    - destruct (Nat.ltb_spec l0 (Level n)).
      + split; [intros i lv [= <- <-]; eauto|]. split; [intros m [= <-]; eauto|]. split; [|done]. intros k bl [= <- <-]. eexists _, _. split; [done|lia].
      + split; [done|]. split; [intros m [= <-]; eauto|]. split; [|done]. intros k bl [= <- <-]. eauto.
    - split; [intros i lv [= <- <-]; eauto|]. split; [intros m [= <-]; eauto|]. done.
    - split; [done|]. split; [done|]. split; [|done]. intros k bl [= <- <-]. eauto.
    - done. }
  specialize (IH b1 H1). destruct (bestEntry g l b1) as [[i lv]|].
  - destruct IH as (I1 & I2 & I3). split; [done|]. split.
    + intros j' m [->|Hj]%elem_of_cons Hm; [|by eapply I2]. destruct (H2 m Hm) as (i' & lv' & E & Hle). specialize (I3 _ _ E). lia.
    + intros k bl E. destruct (H3 k bl E) as (i' & lv' & E' & Hle). specialize (I3 _ _ E'). lia.
  - destruct IH as [I1 I2]. destruct (H4 I1) as [-> Ej]. split; [done|]. intros j' [->|Hj]%elem_of_cons; [done|by apply I2].
Qed.

Lemma scrub_edges g (R : gset Z) ep lv mem :
  edges_ok g ->
  edges_ok (mkGraph (scrub R <$> filter (fun kv => kv.1 ∉ R) (nodes g)) ep lv (opts g) ∅ mem).
Proof.
  intros Hg. split; cbn [nodes opts].
  - intros i m. rewrite lookup_fmap_Some. intros (m0 & <- & [E _]%map_lookup_filter_Some). cbn. rewrite length_map. by apply (eo_node g Hg i m0).
  - intros i m l nbs. rewrite lookup_fmap_Some. intros (m0 & <- & [E _]%map_lookup_filter_Some). cbn.
    rewrite list_lookup_fmap_Some. intros (nbs0 & -> & Hn). pose proof (eo_deg g Hg i m0 l nbs0 E Hn) as Hd.
    unfold len in *. pose proof (length_filter (fun nid => nid ∉ R) nbs0). change (neighborCap _ l) with (neighborCap g l). lia.
  - intros l i nid (m & nbs & Hm & Hn & Hin). cbn in Hm. rewrite lookup_fmap_Some in Hm. destruct Hm as (m0 & <- & [E Hi]%map_lookup_filter_Some).
    cbn in Hn. rewrite list_lookup_fmap_Some in Hn. destruct Hn as (nbs0 & -> & Hn). apply list_elem_of_filter in Hin as [HR Hin].
    destruct (eo_edge g Hg l i nid) as (m' & Em & Hl); [by exists m0, nbs0|]. exists (scrub R m'). cbn. split; [|done].
    rewrite lookup_fmap_Some. exists m'. split; [done|]. by apply map_lookup_filter_Some.
Qed.

Lemma Cleanup_ok g :
  graph_inv g ->
  exists g', Cleanup range_nodes range_ids g = Ok (g', Z.of_nat (size (tombstones g))) /\ graph_inv g' /\ opts g' = opts g /\ tombstones g' = ∅ /\
    shape <$> nodes g' = filter (fun kv => kv.1 ∉ tombstones g) (shape <$> nodes g).
Proof using range_ids_perm range_nodes_perm.
  intros Hi. pose proof Hi as [H1 H2 H3 H4 H5 H6 H7]. unfold Cleanup. destruct (Nat.eqb_spec (size (tombstones g)) 0) as [E0|E0].
  { assert (tombstones g = ∅) as Et by (by apply leibniz_equiv, size_empty_inv). exists g. rewrite Et. change (size ∅) with 0%nat. split; [done|]. split; [done|]. split; [done|]. split; [done|].
    symmetry. apply map_filter_id. intros ?? _. apply not_elem_of_empty. }
  destruct (removeNodes_ok (range_ids (tombstones g)) g) as (g1 & -> & N1 & N2 & N3 & N4 & N5 & N6 & N7); [done|rewrite range_ids_perm; apply NoDup_elements| |done|].
  { intros i. rewrite range_ids_perm, elem_of_elements. intros Hin. by apply elem_of_dom, H5. }
  assert (nodes g1 = filter (fun kv => kv.1 ∉ tombstones g) (nodes g)) as N1'.
  { rewrite N1. apply map_filter_ext. intros i n _. cbn. by rewrite range_ids_perm, elem_of_elements. }
  cbn [mbind outcome_bind]. set (g2 := mkGraph _ _ _ _ _ _).
  assert (forall ep lv, edges_ok (set_entry ep lv g2)) as He.
  { intros ep lv. subst g2. unfold set_entry. cbn [nodes opts tombstones memoryBytes]. rewrite N1', N4. by apply scrub_edges. }
  assert (memoryBytes g2 = mem_sum g2) as Hm2.
  { subst g2. cbn [memoryBytes]. rewrite N6. apply mem_sum_ext; [done|]. cbn [nodes]. rewrite <-map_fmap_compose. apply map_fmap_ext. done. }
  assert (shape <$> nodes g2 = filter (fun kv => kv.1 ∉ tombstones g) (shape <$> nodes g)) as Hsh.
  { subst g2. cbn [nodes]. rewrite N1'. apply map_eq. intros j. apply option_eq. intros sh. rewrite map_lookup_filter_Some, !lookup_fmap_Some. cbn [fst]. split.
    - intros (m & <- & (m0 & <- & [E Hj]%map_lookup_filter_Some)%lookup_fmap_Some). split; [|done]. by exists m0.
    - intros [(m & <- & E) Hj]. exists (scrub (tombstones g) m). split; [done|]. apply lookup_fmap_Some. exists m. split; [done|]. by apply map_lookup_filter_Some. }
  assert (opts g2 = opts g) as Eo by exact N4.
  assert (memoryBytes g2 <= memoryBytes g) as Hle by exact N7.
  pose proof (bestEntry_spec g2 (range_nodes (nodes g2)) None ltac:(done)) as Hb. 
  assert (forall j m, nodes g2 !! j = Some m -> j ∈ range_nodes (nodes g2)) as Hr.
  { intros j m E. rewrite range_nodes_perm. apply list_elem_of_fmap. exists (j, m). split; [done|]. by apply elem_of_map_to_list. }
  destruct (bestEntry g2 _ None) as [[i lv]|].
  - destruct Hb as ((n & En & El) & Hmax & _). eexists. split; [done|]. split; [|done].
    split; cbn [nodes opts maxLevel entryPoint tombstones memoryBytes set_entry]; try done.
    + by rewrite Eo.
    + intros j m E. eapply Hmax; [by eapply Hr|done].
    + intros _. eauto.
    + rewrite Eo. intros H0. specialize (H7 H0). lia.
  - destruct Hb as [_ Hb]. eexists. split; [done|]. split; [|done].
    assert (nodes g2 = ∅) as En. { apply map_empty. intros j. destruct (nodes g2 !! j) as [m|] eqn:E; [|done]. rewrite (Hb j) in E by (by eapply Hr). done. }
    split; cbn [nodes opts maxLevel entryPoint tombstones memoryBytes set_entry]; try done.
    + by rewrite Eo.
    + intros j m E. by rewrite En, lookup_empty in E.
    + rewrite Eo. intros H0. specialize (H7 H0). lia.
Qed.

(** ** Runs *)
Inductive gop := GInsert (id : Z) (ext : bytes) (vec : list F) (level : nat) | GDelete (id : Z) | GCleanup.

(** A refused insertion leaves the graph as it was; [None] is a panic. *)
Definition gstep (o : gop) g : option Graph :=
  match o with
  | GInsert id ext vec level => match Insert dlt dist sort id ext vec level g with Ok g' => Some g' | Err _ => Some g | Panic => None end
  | GDelete id => Some (MarkDeleted id g)
  | GCleanup => match Cleanup range_nodes range_ids g with Ok (g', _) => Some g' | _ => None end
  end.
Fixpoint grun (os : list gop) g : option Graph := match os with [] => Some g | o :: os => g ← gstep o g; grun os g end.

(** The index as a map from node ids to the vectors a query may answer. *)
Definition live g : gmap Z (bytes * list F) := filter (fun kv => kv.1 ∉ tombstones g) ((fun n => (ExternalID n, Vector n)) <$> nodes g).
Definition live_step (o : gop) g (m : gmap Z (bytes * list F)) : gmap Z (bytes * list F) :=
  match o with
  | GInsert id ext vec level => match Insert dlt dist sort id ext vec level g with Ok _ => <[id := (ext, vec)]> m | _ => m end
  | GDelete id => delete id m
  | GCleanup => m
  end.
Fixpoint live_run (os : list gop) g m : gmap Z (bytes * list F) :=
  match os with
  | [] => m
  | o :: os => match gstep o g with Some g' => live_run os g' (live_step o g m) | None => m end
  end.

Definition content (s : Z * bytes * list F * nat) : bytes * list F := (s.1.1.2, s.1.2).
Lemma live_shape g : live g = filter (fun kv => kv.1 ∉ tombstones g) (content <$> (shape <$> nodes g)).
Proof. unfold live. f_equal. rewrite <-map_fmap_compose. by apply map_fmap_ext. Qed.

Lemma live_insert g g' id ext vec level :
  graph_inv g -> nodes g !! id = None -> tombstones g' = tombstones g -> shape <$> nodes g' = <[id := (id, ext, vec, level)]> (shape <$> nodes g) ->
  live g' = <[id := (ext, vec)]> (live g).
Proof.
  intros Hg E Et Es. rewrite !live_shape, Et, Es, fmap_insert. cbn. rewrite map_filter_insert_True; [done|]. cbn.
  intros Hin%(gi_tomb g Hg)%elem_of_dom. rewrite E in Hin. by destruct Hin.
Qed.

Lemma live_delete g id : live (MarkDeleted id g) = delete id (live g).
Proof using Type.
  clear.
  unfold MarkDeleted, live. apply map_eq. intros j. apply option_eq. intros x. destruct (decide (is_Some (nodes g !! id))) as [Hs|Hn]; cbn.
  - rewrite map_lookup_filter_Some, lookup_delete_Some, map_lookup_filter_Some. cbn. set_solver.
  - rewrite lookup_delete_Some, map_lookup_filter_Some, lookup_fmap_Some. split; [|tauto]. intros [(n & <- & Ej) Ht]. split; [|by split; [exists n|]].
    intros <-. apply Hn. eauto.
Qed.

Lemma live_cleanup g g' :
  tombstones g' = ∅ -> shape <$> nodes g' = filter (fun kv => kv.1 ∉ tombstones g) (shape <$> nodes g) -> live g' = live g.
Proof.
  intros Et Es. rewrite !live_shape, Et, Es. apply map_eq. intros j. apply option_eq. intros x. rewrite !map_lookup_filter_Some, !lookup_fmap_Some. cbn. split.
  - intros [(s & <- & [H1 H2]%map_lookup_filter_Some) _]. split; [by exists s|done].
  - intros [(s & <- & H1) H2]. split; [|apply not_elem_of_empty]. exists s. split; [done|]. by apply map_lookup_filter_Some.
Qed.

Lemma live_size g : tombstones g ⊆ dom (nodes g) -> GraphLen g = Z.of_nat (size (live g)).
Proof using Type.
  clear. intros Ht. assert (dom (live g) = (dom (nodes g) : gset Z) ∖ tombstones g) as E.
  { apply set_eq. intros i. unfold live. rewrite elem_of_dom, elem_of_difference, elem_of_dom. split.
    - intros [x [(n & _ & H1)%lookup_fmap_Some H2]%map_lookup_filter_Some]. eauto.
    - intros [[n H1] H2]. exists (ExternalID n, Vector n). apply map_lookup_filter_Some. split; [apply lookup_fmap_Some; eauto|done]. }
  unfold GraphLen. rewrite <-(size_dom (D := gset Z) (live g)), E, size_difference, size_dom by done.
  apply subseteq_size in Ht. rewrite size_dom in Ht. lia.
Qed.

Lemma gstep_ok o g : graph_inv g -> exists g', gstep o g = Some g' /\ graph_inv g' /\ opts g' = opts g /\ live g' = live_step o g (live g).
Proof using dlt_asym dlt_negtrans sort_perm range_ids_perm range_nodes_perm.
  intros Hg. destruct o as [id ext vec level|id|]; cbn [gstep live_step].
  - pose proof (Insert_ok id ext vec level g Hg) as H. destruct (Insert _ _ _ _ _ _ _ _) as [g'|e|]; [|by exists g|done].
    destruct H as (_ & H1 & H2 & H3 & H4 & H5). exists g'. split; [done|]. split; [done|]. split; [done|]. by eapply live_insert.
  - eexists. split; [done|]. split; [by apply MarkDeleted_ok|]. split; [by unfold MarkDeleted; destruct (decide _)|]. apply live_delete.
  - destruct (Cleanup_ok g Hg) as (g' & -> & H1 & H2 & H3 & H4). exists g'. split; [done|]. split; [done|]. split; [done|]. by apply live_cleanup.
Qed.

Lemma graph_New_ok o g0 : New o = Ok g0 -> graph_inv g0 /\ opts g0 = o /\ live g0 = ∅.
Proof.
  intros E. unfold New in E. destruct (Z.ltb_spec (Dim o) 1); [done|]. destruct (Z.ltb_spec (M o) 2); [done|]. destruct (Z.ltb_spec (EfConstruct o) 1); [done|].
  destruct (Z.ltb_spec (HNSW.EfSearch o) 1); [done|]. injection E as <-. split; [|split; [done|unfold live; cbn; by rewrite fmap_empty, map_filter_empty]].
  split; cbn; try done; try lia.
  split; [intros ??|intros ????|intros ??? (? & ? & E & _)]; cbn in *; by rewrite lookup_empty in *.
Qed.

Lemma grun_ok os g m : graph_inv g -> live g = m -> exists g', grun os g = Some g' /\ graph_inv g' /\ opts g' = opts g /\ live g' = live_run os g m.
Proof using dlt_asym dlt_negtrans sort_perm range_ids_perm range_nodes_perm.
  clear sort_sorted. revert g m. induction os as [|o1 os IH]; intros g m Hg El; cbn [grun live_run]; [by exists g|].
  destruct (gstep_ok o1 g Hg) as (g1 & -> & Hg1 & Eo1 & El1). rewrite El in El1. cbn.
  destruct (IH g1 _ Hg1 El1) as (g' & H1 & H2 & H3 & H4). exists g'. split; [done|]. split; [done|]. split; [congruence|done].
Qed.

(** C11: The index implements a map of vectors and never panics.  From [New] on, over
    any sequence of insertions with any random levels, deletions and cleanups: no
    operation panics; edges never dangle and stay within their layer, no node has
    more than [M] neighbours on an upper layer or [2M] on the bottom one, the entry
    point is on the top layer, and the estimated memory is the sum over the nodes
    and within the limit; the vectors a query may answer are those inserted and
    not deleted since, and [Len] counts them. *)
Theorem hnsw_refines_map o g0 os :
  New o = Ok g0 ->
  exists g, grun os g0 = Some g /\ graph_inv g /\ opts g = o /\ live g = live_run os g0 ∅ /\ GraphLen g = Z.of_nat (size (live g)).
Proof using dlt_asym dlt_negtrans sort_perm range_ids_perm range_nodes_perm.
  clear sort_sorted. intros (H0 & Eo & El)%graph_New_ok. destruct (grun_ok os g0 ∅ H0 El) as (g & H1 & H2 & H3 & H4).
  exists g. split; [done|]. split; [done|]. split; [congruence|]. split; [done|]. apply live_size, (gi_tomb g H2).
Qed.
End spec.

(** ** Examples: integer vectors under the squared Euclidean distance *)
Definition sq_dist (a b : list Z) : Z := foldr Z.add 0 (zip_with (fun x y => (x - y) * (x - y)) a b).
Definition by_dist (x y : heapItem Z) : Prop := hdist x <= hdist y.
#[local] Instance by_dist_dec x y : Decision (by_dist x y).
Proof. unfold by_dist. apply _. Defined.
#[local] Instance by_dist_total : Total by_dist.
Proof. intros x y. unfold by_dist. lia. Qed.
#[local] Instance by_dist_trans : Transitive by_dist.
Proof. intros x y z. unfold by_dist. lia. Qed.
Definition sort_dist (l : list (heapItem Z)) : list (heapItem Z) := merge_sort by_dist l.
Definition range_fst (m : gmap Z (Node Z)) : list Z := (map_to_list m).*1.
Definition e_opts : HnswOptions := mkHnswOptions 2 4 4 2 0.
Definition e_run (os : list gop) : option (Graph Z) := grun Z.ltb sq_dist sort_dist range_fst elements os (mkGraph ∅ 0 0 e_opts ∅ 0).
Definition e_ops : list gop :=
  [GInsert 0 [Byte.x61] [0; 0] 0; GInsert 1 [Byte.x62] [5; 5] 1; GInsert 2 [Byte.x63] [1; 2] 0; GInsert 3 [Byte.x64] [9; 9] 0; GDelete 3; GInsert 4 [Byte.x65] [6; 5] 0].

Lemma sort_dist_perm l : sort_dist l ≡ₚ l.
Proof. apply merge_sort_Permutation. Qed.
Lemma sort_dist_sorted l : StronglySorted (item_le Z.ltb) (sort_dist l).
Proof.
  assert (forall l, StronglySorted by_dist l -> StronglySorted (item_le Z.ltb) l) as H.
  { clear l. intros l. intros Hs; induction Hs as [|x l Hs IH Hf]; constructor; [done|]; eapply Forall_impl; [exact Hf|]; intros y Hy; by apply Z.ltb_ge. }
  apply H, (StronglySorted_merge_sort by_dist).
Qed.
Lemma zlt_asym x y : (x <? y) = true -> (y <? x) = false.
Proof. lia. Qed.
Lemma zlt_negtrans x y z : (y <? x) = false -> (z <? y) = false -> (z <? x) = false.
Proof. lia. Qed.

Lemma hnsw_refines_map_witness :
  exists g, e_run e_ops = Some g /\ graph_inv g /\ GraphLen g = 4.
Proof.
  destruct (hnsw_refines_map Z.ltb sq_dist zlt_asym zlt_negtrans sort_dist sort_dist_perm range_fst elements (fun m => reflexivity _) (fun s => reflexivity _) e_opts
    (mkGraph ∅ 0 0 e_opts ∅ 0) e_ops) as (g & E & Hg & _ & _ & Hl); [reflexivity|].
  exists g. split; [exact E|]. split; [exact Hg|]. change (e_run e_ops = Some g) in E.
  assert (GraphLen <$> e_run e_ops = Some 4) as H by (vm_compute; reflexivity). rewrite E in H. injection H as H. exact H.
Defined.

Definition e_search (og : option (Graph Z)) (q : list Z) (k : Z) : option (list (Z * Z)) :=
  g ← og; match Search Z.ltb sq_dist sort_dist g q k 0 with Ok rs => Some (map (fun r => (rID r, rDistance r)) rs) | _ => None end.

Lemma hnsw_search_witness :
  exists g rs, e_run e_ops = Some g /\ Search Z.ltb sq_dist sort_dist g [5; 4] 2 8 = Ok rs /\
    map (fun r => (rID r, rDistance r)) rs = [(1, 1); (4, 2)] /\
    exists ep, descend Z.ltb sq_dist g [5; 4] 0 (maxLevel g) (entryPoint g) = Ok ep /\ complete Z.ltb sq_dist g [5; 4] ep 2 rs.
Proof.
  destruct (grun_ok Z.ltb sq_dist zlt_asym zlt_negtrans sort_dist sort_dist_perm range_fst elements (fun m => reflexivity _) (fun s => reflexivity _) e_ops
    (mkGraph ∅ 0 0 e_opts ∅ 0) ∅) as (g & E & Hg & _); [apply (graph_New_ok e_opts); reflexivity|reflexivity|].
  pose proof (hnsw_search Z.ltb sq_dist zlt_asym zlt_negtrans sort_dist sort_dist_perm sort_dist_sorted g [5; 4] 2 8 Hg ltac:(lia)) as H.
  assert (match e_run e_ops with Some g => match Search Z.ltb sq_dist sort_dist g [5; 4] 2 8 with Ok rs => (map (fun r => (rID r, rDistance r)) rs, size (nodes g)) | _ => ([], 0%nat) end | None => ([], 0%nat) end
    = ([(1, 1); (4, 2)], 5%nat)) as Ev by (vm_compute; reflexivity).
  change (grun Z.ltb sq_dist sort_dist range_fst elements e_ops (mkGraph ∅ 0 0 e_opts ∅ 0)) with (e_run e_ops) in E. rewrite E in Ev.
  destruct (Search _ _ _ g [5; 4] 2 8) as [rs|e|] eqn:Es; [|discriminate Ev..]. injection Ev as Ev En.
  destruct H as (ep & Hep & _ & _ & Hc). exists g, rs. split; [exact E|]. split; [exact Es|]. split; [exact Ev|].
  exists ep. split; [exact Hep|]. apply Hc. rewrite En. cbn. lia.
Defined.

(** A vector that cannot be found.  The only vector is deleted and another one is
    inserted on the same level: the search for neighbours skips deleted nodes, so
    the new node gets no edge, and the entry point stays on the deleted one.  The
    vector is live and counted, and no query finds it, whatever its beam; after
    [Cleanup] it is found again. *)
Theorem hnsw_insert_unreachable :
  let g := e_run [GInsert 0 [Byte.x61] [0; 0] 0; GDelete 0; GInsert 1 [Byte.x62] [5; 5] 0] in
  (live <$> g) = Some {[1 := ([Byte.x62], [5; 5])]} /\ e_search g [5; 5] 10 = Some [] /\
  e_search (g ← g; gstep Z.ltb sq_dist sort_dist range_fst elements GCleanup g) [5; 5] 10 = Some [(1, 0)].
Proof. vm_compute. done. Qed.
