(* ===== verification/HNSWSnapshot.v ===== *)
(** * Snapshots of the vector index (src/vector/hnsw: snapshot.go, snapshot_format.go)

    The file format, writing and reading it, and restoring a graph.  A [float32] is
    its 32-bit pattern; a file is its bytes, and reading at an offset is reading
    the bytes that remain.  I/O errors are not modelled; nor is the panic of [make]
    when [ReadSnapshot] reserves room for the number of nodes that the header of a
    file with a matching checksum claims, if that number is absurd. *)

From Stdlib Require Import ZArith Lia List Sorted.
From stdpp Require Import base list option gmap sorting.
From S2P Require Import Prelude GoBytes Heap HNSW HNSWProof HNSWSpec.
Open Scope Z_scope.

Definition snapshotVersion : Byte.byte := Byte.x01.
Definition snapshotMagic : Z := 0x484E5357.
Definition footerSize : Z := 33.
Definition headerFixedSize : Z := 30.

Inductive SnapErr := ErrCorruptSnapshot | ErrInvalidSnapshot | ErrSnapshotVersion | ErrSnapshotEmpty | ErrSnapshotOptions.

Record snapshotHeader := mkHeader {
  numNodes : Z; h_entryPoint : Z; h_maxLevel : Z; h_m : Z; h_dim : Z; h_metric : Z; h_seq : Z }.
Definition header_encode (h : snapshotHeader) : bytes :=
  put_le 8 (numNodes h) ++ put_le 8 (h_entryPoint h) ++ [Zb (h_maxLevel h)] ++ put_le 2 (h_m h) ++ put_le 2 (h_dim h) ++ [Zb (h_metric h)] ++ put_le 8 (h_seq h).
Definition decodeSnapshotHeader (buf : bytes) : outcome SnapErr snapshotHeader :=
  t ← slice_from buf 0; n ← le_Uint64 t;
  t ← slice_from buf 8; ep ← le_Uint64 t;
  ml ← index buf 16;
  t ← slice_from buf 17; m ← le_Uint16 t;
  t ← slice_from buf 19; dim ← le_Uint16 t;
  metric ← index buf 21;
  t ← slice_from buf 22; seq ← le_Uint64 t;
  Ok (mkHeader n ep (bZ ml) m dim (bZ metric) seq).

Record snapshotFooter := mkSFooter { headerOffset : Z; headerLen : Z; f_version : Byte.byte; crc32Val : Z; magic : Z }.
Definition footer_encode (f : snapshotFooter) : bytes :=
  put_le 8 (headerOffset f) ++ put_le 4 (headerLen f) ++ replicate 12 Byte.x00 ++ [f_version f] ++ put_le 4 (crc32Val f) ++ put_le 4 (magic f).
Definition decodeSnapshotFooter (buf : bytes) : outcome SnapErr snapshotFooter :=
  t ← slice_from buf 0; off ← le_Uint64 t;
  t ← slice_from buf 8; hl ← le_Uint32 t;
  v ← index buf 24;
  t ← slice_from buf 25; c ← le_Uint32 t;
  t ← slice_from buf 29; m ← le_Uint32 t;
  Ok (mkSFooter off hl v c m).

Abbreviation Node := (Node Z).
Abbreviation Graph := (Graph Z).

Record SnapshotData := mkData {
  sd_Nodes : list Node; sd_EntryPoint : Z; sd_MaxLevel : nat; sd_M : Z; sd_Dim : Z; sd_Metric : Z; sd_Seq : Z }.

(** ** Writing *)
Fixpoint writeLayers (n : Node) (ls : list nat) : outcome SnapErr bytes :=
  match ls with
  | [] => Ok []
  | l :: ls =>
      match Neighbors n !! l with
      | None => Panic
      | Some nbs => rest ← writeLayers n ls; Ok (put_le 2 (len nbs) ++ concat (map (put_le 8) nbs) ++ rest)
      end
  end.
Definition writeNode (n : Node) (dim : Z) : outcome SnapErr bytes :=
  layers ← writeLayers n (seq 0 (S (Level n)));
  Ok (put_le 8 (ID n) ++ ExternalID n ++ [Zb (Z.of_nat (Level n))] ++ put_le 2 dim ++ concat (map (put_le 4) (Vector n)) ++ layers).
Fixpoint layersByteSize (n : Node) (ls : list nat) : Z :=
  match ls with [] => 0 | l :: ls => 2 + match Neighbors n !! l with Some nbs => len nbs * 8 | None => 0 end + layersByteSize n ls end.
Definition nodeByteSize (dim : Z) (n : Node) : Z := 8 + 16 + 1 + 2 + dim * 4 + layersByteSize n (seq 0 (S (Level n))).

Definition sortedIDs (g : Graph) : list Z := merge_sort Z.le (map_to_list (nodes g)).*1.
Fixpoint writeNodes (g : Graph) (ids : list Z) : outcome SnapErr bytes :=
  match ids with
  | [] => Ok []
  | id :: ids =>
      match nodes g !! id with
      | None => Panic
      | Some n => b ← writeNode n (Dim (opts g)); rest ← writeNodes g ids; Ok (b ++ rest)
      end
  end.
Definition sizeOfNodes (g : Graph) (ids : list Z) : Z :=
  foldr Z.add 0 (map (fun id => match nodes g !! id with Some n => nodeByteSize (Dim (opts g)) n | None => 0 end) ids).
Definition WriteSnapshot (g : Graph) (seqn metric : Z) : outcome SnapErr bytes :=
  if (size (nodes g) =? 0)%nat then Err ErrSnapshotEmpty else
  ns ← writeNodes g (sortedIDs g);
  let hdr := header_encode (mkHeader (Z.of_nat (size (nodes g))) (entryPoint g) (Z.of_nat (maxLevel g)) (M (opts g)) (Dim (opts g)) metric seqn) in
  let offset := sizeOfNodes g (sortedIDs g) in
  Ok (ns ++ hdr ++ footer_encode (mkSFooter offset headerFixedSize snapshotVersion (crc32 (ns ++ hdr)) snapshotMagic)).

(** ** Reading *)
(** [count] integers of [w] bytes. *)
Fixpoint readInts (w count : nat) (buf : bytes) : outcome SnapErr (list Z * bytes) :=
  match count with
  | O => Ok ([], buf)
  | S count =>
      x ← get_fixed get_le w buf; rest ← slice_from buf (Z.of_nat w);
      '(xs, rest) ← readInts w count rest; Ok (x :: xs, rest)
  end.
Fixpoint readLayers (layers : nat) (buf : bytes) : outcome SnapErr (list (list Z) * bytes) :=
  match layers with
  | O => Ok ([], buf)
  | S layers =>
      if len buf <? 2 then Err ErrInvalidSnapshot else
      count ← le_Uint16 buf; buf ← slice_from buf 2;
      if len buf <? count * 8 then Err ErrInvalidSnapshot else
      '(nbs, buf) ← readInts 8 (Z.to_nat count) buf;
      '(rest, buf) ← readLayers layers buf;
      Ok (nbs :: rest, buf)
  end.
(** The node and the bytes after it. *)
Definition readNode (buf : bytes) (dim : Z) : outcome SnapErr (Node * bytes) :=
  if len buf <? 8 + 16 + 1 + 2 + dim * 4 then Err ErrInvalidSnapshot else
  id ← le_Uint64 buf;
  externalID ← slice buf 8 24;
  level ← index buf 24;
  t ← slice_from buf 25; nodeDim ← le_Uint16 t;
  if negb (nodeDim =? dim) then Err ErrInvalidSnapshot else
  t ← slice_from buf 27;
  '(vec, t) ← readInts 4 (Z.to_nat dim) t;
  '(neighbors, t) ← readLayers (S (Z.to_nat (bZ level))) t;
  Ok (mkNode id externalID vec (Z.to_nat (bZ level)) neighbors, t).
Fixpoint readNodes (n : nat) (buf : bytes) (dim : Z) : outcome SnapErr (list Node * bytes) :=
  match n with
  | O => Ok ([], buf)
  | S n => '(node, buf) ← readNode buf dim; '(rest, buf) ← readNodes n buf dim; Ok (node :: rest, buf)
  end.

Definition ReadSnapshot (r : bytes) : outcome SnapErr SnapshotData :=
  let size := len r in
  if size <? footerSize then Err ErrInvalidSnapshot else
  ftrBuf ← slice_from r (size - footerSize);
  ftr ← decodeSnapshotFooter ftrBuf;
  if negb (magic ftr =? snapshotMagic) then Err ErrInvalidSnapshot else
  if negb (bool_decide (f_version ftr = snapshotVersion)) then Err ErrSnapshotVersion else
  if negb (i64 (i64 (headerOffset ftr) + headerLen ftr + footerSize) =? size) then Err ErrInvalidSnapshot else
  data ← slice r 0 (i64 (i64 (headerOffset ftr) + headerLen ftr));
  if negb (crc32 data =? crc32Val ftr) then Err ErrCorruptSnapshot else
  if headerLen ftr <? headerFixedSize then Err ErrInvalidSnapshot else
  h ← slice_from data (headerOffset ftr);
  hdr ← decodeSnapshotHeader h;
  nodeData ← slice data 0 (headerOffset ftr);
  '(ns, rest) ← readNodes (Z.to_nat (numNodes hdr)) nodeData (h_dim hdr);
  if negb (len rest =? 0) then Err ErrInvalidSnapshot else
  Ok (mkData ns (h_entryPoint hdr) (Z.to_nat (h_maxLevel hdr)) (h_m hdr) (h_dim hdr) (h_metric hdr) (h_seq hdr)).

(** ** Restoring *)
Fixpoint restoreNodes (ns : list Node) (g : Graph) : Graph :=
  match ns with
  | [] => g
  | n :: ns =>
      restoreNodes ns (mkGraph (<[ID n := n]> (nodes g)) (entryPoint g) (maxLevel g) (opts g) (tombstones g) (memoryBytes g + estimateNodeMemory g (Level n)))
  end.
Definition RestoreFromSnapshot (data : SnapshotData) (g : Graph) : outcome SnapErr Graph :=
  if negb (sd_Dim data =? Dim (opts g)) then Err ErrSnapshotOptions else
  if negb (sd_M data =? M (opts g)) then Err ErrSnapshotOptions else
  let g := restoreNodes (sd_Nodes data) (mkGraph ∅ (entryPoint g) (maxLevel g) (opts g) (tombstones g) 0) in
  Ok (mkGraph (nodes g) (sd_EntryPoint data) (sd_MaxLevel data) (opts g) ∅ (memoryBytes g)).

(** ** Round trip *)
Definition u64_ok (z : Z) : Prop := 0 <= z < 2^64.
Record node_ok (dim : Z) (n : Node) : Prop := {
  no_id : u64_ok (ID n);
  no_ext : len (ExternalID n) = 16;
  no_vec : len (Vector n) = dim /\ Forall (fun x => 0 <= x < 2^32) (Vector n);
  no_level : (Level n < 256)%nat;
  no_layers : length (Neighbors n) = S (Level n) /\ Forall (fun nbs => len nbs < 2^16 /\ Forall u64_ok nbs) (Neighbors n)
}.

Lemma len_ints w (xs : list Z) : len (concat (map (put_le w) xs)) = len xs * Z.of_nat w.
Proof. induction xs as [|x xs IH]; cbn [map concat]; [done|]. rewrite len_app, len_cons, IH, len_put_le. lia. Qed.

Lemma readInts_put w (xs : list Z) l :
  Forall (fun x => 0 <= x < 256 ^ Z.of_nat w) xs -> readInts w (length xs) (concat (map (put_le w) xs) ++ l) = Ok (xs, l).
Proof.
  induction 1 as [|x xs Hx Hxs IH]; cbn [map concat length readInts]; [done|]. rewrite <-app_assoc.
  rewrite get_fixed_app by apply length_put_le. cbn [mbind outcome_bind]. rewrite (slice_from_app (put_le w x)) by by rewrite len_put_le.
  cbn [mbind outcome_bind]. rewrite IH. cbn. by rewrite get_le_put_le, Z.mod_small.
Qed.

Definition layer_bytes (nbs : list Z) : bytes := put_le 2 (len nbs) ++ concat (map (put_le 8) nbs).
Lemma writeLayers_seq n k m :
  length (Neighbors n) = (k + m)%nat ->
  writeLayers n (seq k m) = Ok (concat (map layer_bytes (drop k (Neighbors n)))) /\
  layersByteSize n (seq k m) = len (concat (map layer_bytes (drop k (Neighbors n)))).
Proof.
  revert k; induction m as [|m IH]; intros k Hl; cbn [seq writeLayers layersByteSize].
  { rewrite drop_ge by lia. done. }
  destruct (lookup_lt_is_Some_2 (Neighbors n) k ltac:(lia)) as [nbs Hn]. rewrite Hn. destruct (IH (S k) ltac:(lia)) as [-> ->]. cbn [mbind outcome_bind].
  rewrite (drop_S _ _ _ Hn). cbn [map concat]. change (layer_bytes nbs) with (put_le 2 (len nbs) ++ concat (map (put_le 8) nbs)). rewrite <-app_assoc. split; [done|]. rewrite !len_app, len_ints, len_put_le. lia.
Qed.

Lemma readLayers_bytes nbss l :
  Forall (fun nbs => len nbs < 2^16 /\ Forall u64_ok nbs) nbss -> readLayers (length nbss) (concat (map layer_bytes nbss) ++ l) = Ok (nbss, l).
Proof.
  induction 1 as [|nbs nbss [H1 H2] Hr IH]; cbn [map concat length readLayers]; [done|]. change (layer_bytes nbs) with (put_le 2 (len nbs) ++ concat (map (put_le 8) nbs)). rewrite <-!app_assoc.
  pose proof (len_nonneg nbs). rewrite (proj2 (Z.ltb_ge _ _)) by len_lia. rewrite le_Uint16_put, u16_small by lia. cbn [mbind outcome_bind].
  rewrite (slice_from_app (put_le 2 (len nbs))) by by rewrite len_put_le. cbn [mbind outcome_bind].
  rewrite (proj2 (Z.ltb_ge _ _)) by (rewrite len_app, len_ints; len_lia). unfold len at 1. rewrite Nat2Z.id, readInts_put.
  - cbn [mbind outcome_bind]. rewrite IH. done.
  - eapply Forall_impl; [done|]. intros x Hx. exact Hx.
Qed.

Definition node_bytes (n : Node) (dim : Z) : bytes :=
  put_le 8 (ID n) ++ ExternalID n ++ [Zb (Z.of_nat (Level n))] ++ put_le 2 dim ++ concat (map (put_le 4) (Vector n)) ++ concat (map layer_bytes (Neighbors n)).

Lemma writeNode_bytes n dim : node_ok dim n -> writeNode n dim = Ok (node_bytes n dim) /\ nodeByteSize dim n = len (node_bytes n dim).
Proof.
  intros [H1 H2 [H3 H3'] H4 [H5 H6]]. unfold writeNode, nodeByteSize. destruct (writeLayers_seq n 0 (S (Level n)) H5) as [-> ->]. rewrite drop_0. cbn [mbind outcome_bind].
  split; [done|]. unfold node_bytes. rewrite !len_app, len_ints, !len_put_le, H2, H3, len_cons. change (len (@nil Byte.byte)) with 0. lia.
Qed.

Lemma readNode_bytes n dim l : node_ok dim n -> 0 <= dim < 2^16 -> readNode (node_bytes n dim ++ l) dim = Ok (n, l).
Proof.
  intros Hn Hd. pose proof Hn as [H1 H2 [H3 H3'] H4 [H5 H6]]. unfold readNode.
  assert (8 + 16 + 1 + 2 + dim * 4 <= len (node_bytes n dim ++ l)) as Hlen.
  { unfold node_bytes. rewrite !len_app, len_ints, !len_put_le, H2, H3, len_cons. len_lia. }
  rewrite (proj2 (Z.ltb_ge _ _)) by lia. clear Hlen. unfold node_bytes.
  set (V := concat (map (put_le 4) (Vector n))). set (L := concat (map layer_bytes (Neighbors n))). rewrite <-!app_assoc.
  rewrite le_Uint64_put, u64_small by exact H1. cbn [mbind outcome_bind].
  rewrite (slice_app3 (put_le 8 (ID n)) (ExternalID n)) by (rewrite ?len_put_le, ?H2; lia). cbn [mbind outcome_bind].
  rewrite (index_eq _ (put_le 8 (ID n) ++ ExternalID n) (Zb (Z.of_nat (Level n))) (put_le 2 dim ++ V ++ L ++ l)) by (rewrite ?len_app, ?len_put_le, ?H2; first [lia|app_eq]).
  cbn [mbind outcome_bind]. rewrite bZ_Zb, Z.mod_small, Nat2Z.id by lia.
  rewrite (slice_from_eq _ (put_le 8 (ID n) ++ ExternalID n ++ [Zb (Z.of_nat (Level n))]) (put_le 2 dim ++ V ++ L ++ l) 25)
    by (rewrite ?len_app, ?len_put_le, ?H2; first [reflexivity|app_eq]). cbn [mbind outcome_bind].
  rewrite le_Uint16_put, u16_small by lia. cbn [mbind outcome_bind]. rewrite Z.eqb_refl. cbn [negb].
  rewrite (slice_from_eq _ (put_le 8 (ID n) ++ ExternalID n ++ [Zb (Z.of_nat (Level n))] ++ put_le 2 dim) (V ++ L ++ l) 27)
    by (rewrite ?len_app, ?len_put_le, ?H2; first [reflexivity|app_eq]). cbn [mbind outcome_bind].
  replace (Z.to_nat dim) with (length (Vector n)) by (unfold len in H3; lia). subst V. rewrite readInts_put by exact H3'. cbn [mbind outcome_bind].
  rewrite <-H5. subst L. rewrite readLayers_bytes by done. cbn. by destruct n.
Qed.

Lemma writeNodes_bytes g ids :
  (forall id, id ∈ ids -> exists n, nodes g !! id = Some n /\ node_ok (Dim (opts g)) n) ->
  exists ns, Forall2 (fun id n => nodes g !! id = Some n) ids ns /\ Forall (node_ok (Dim (opts g))) ns /\
    writeNodes g ids = Ok (concat (map (fun n => node_bytes n (Dim (opts g))) ns)) /\
    sizeOfNodes g ids = len (concat (map (fun n => node_bytes n (Dim (opts g))) ns)).
Proof.
  induction ids as [|id ids IH]; intros H; [by exists []|]. destruct (H id ltac:(left)) as (n & E & Hn). destruct IH as (ns & I1 & I2 & I3 & I4); [intros; apply H; by right|].
  exists (n :: ns). split; [by constructor|]. split; [by constructor|]. destruct (writeNode_bytes n _ Hn) as [W1 W2].
  unfold sizeOfNodes in *. cbn [writeNodes map foldr concat]. rewrite E, W1. cbn [mbind outcome_bind]. rewrite I3. cbn [mbind outcome_bind]. split; [done|]. rewrite len_app, I4. lia.
Qed.

Lemma readNodes_bytes dim ns l :
  Forall (node_ok dim) ns -> 0 <= dim < 2^16 -> readNodes (length ns) (concat (map (fun n => node_bytes n dim) ns) ++ l) dim = Ok (ns, l).
Proof.
  intros H Hd. induction H as [|n ns Hn Hns IH]; cbn [map concat length readNodes]; [done|].
  rewrite <-app_assoc, readNode_bytes by done. cbn [mbind outcome_bind]. rewrite IH. done.
Qed.

Definition header_ok (h : snapshotHeader) : Prop :=
  u64_ok (numNodes h) /\ u64_ok (h_entryPoint h) /\ 0 <= h_maxLevel h < 256 /\ 0 <= h_m h < 2^16 /\ 0 <= h_dim h < 2^16 /\ 0 <= h_metric h < 256 /\ u64_ok (h_seq h).
Lemma len_header h : len (header_encode h) = 30.
Proof. unfold header_encode. rewrite !len_app, !len_put_le. done. Qed.
Lemma decode_header h : header_ok h -> decodeSnapshotHeader (header_encode h) = Ok h.
Proof.
  intros (H1 & H2 & H3 & H4 & H5 & H6 & H7). unfold decodeSnapshotHeader, header_encode, u64_ok in *.
  rewrite (slice_from_eq _ [] (put_le 8 (numNodes h) ++ _) 0) by reflexivity. cbn [mbind outcome_bind]. rewrite le_Uint64_put, u64_small by lia. cbn [mbind outcome_bind].
  rewrite (slice_from_app (put_le 8 (numNodes h)) _ 8) by by rewrite len_put_le. cbn [mbind outcome_bind]. rewrite le_Uint64_put, u64_small by lia. cbn [mbind outcome_bind].
  rewrite (index_eq _ (put_le 8 (numNodes h) ++ put_le 8 (h_entryPoint h)) (Zb (h_maxLevel h)) (put_le 2 (h_m h) ++ put_le 2 (h_dim h) ++ [Zb (h_metric h)] ++ put_le 8 (h_seq h)) 16)
    by (rewrite ?len_app, ?len_put_le; first [reflexivity|app_eq]). cbn [mbind outcome_bind].
  rewrite (slice_from_eq _ (put_le 8 (numNodes h) ++ put_le 8 (h_entryPoint h) ++ [Zb (h_maxLevel h)]) (put_le 2 (h_m h) ++ put_le 2 (h_dim h) ++ [Zb (h_metric h)] ++ put_le 8 (h_seq h)) 17)
    by (rewrite ?len_app, ?len_put_le; first [reflexivity|app_eq]). cbn [mbind outcome_bind]. rewrite le_Uint16_put, u16_small by lia. cbn [mbind outcome_bind].
  rewrite (slice_from_eq _ (put_le 8 (numNodes h) ++ put_le 8 (h_entryPoint h) ++ [Zb (h_maxLevel h)] ++ put_le 2 (h_m h)) (put_le 2 (h_dim h) ++ [Zb (h_metric h)] ++ put_le 8 (h_seq h)) 19)
    by (rewrite ?len_app, ?len_put_le; first [reflexivity|app_eq]). cbn [mbind outcome_bind]. rewrite le_Uint16_put, u16_small by lia. cbn [mbind outcome_bind].
  rewrite (index_eq _ (put_le 8 (numNodes h) ++ put_le 8 (h_entryPoint h) ++ [Zb (h_maxLevel h)] ++ put_le 2 (h_m h) ++ put_le 2 (h_dim h)) (Zb (h_metric h)) (put_le 8 (h_seq h)) 21)
    by (rewrite ?len_app, ?len_put_le; first [reflexivity|app_eq]). cbn [mbind outcome_bind].
  rewrite (slice_from_eq _ (put_le 8 (numNodes h) ++ put_le 8 (h_entryPoint h) ++ [Zb (h_maxLevel h)] ++ put_le 2 (h_m h) ++ put_le 2 (h_dim h) ++ [Zb (h_metric h)]) (put_le 8 (h_seq h) ++ []) 22)
    by (rewrite ?len_app, ?len_put_le, ?app_nil_r; first [reflexivity|app_eq]). cbn [mbind outcome_bind]. rewrite le_Uint64_put, u64_small by lia. cbn [mbind outcome_bind].
  rewrite !bZ_Zb, !Z.mod_small by lia. by destruct h.
Qed.

Lemma len_footer f : len (footer_encode f) = 33.
Proof. unfold footer_encode. rewrite !len_app, !len_put_le. done. Qed.
Lemma decode_footer f :
  u64_ok (headerOffset f) -> 0 <= headerLen f < 2^32 -> 0 <= crc32Val f < 2^32 -> 0 <= magic f < 2^32 -> decodeSnapshotFooter (footer_encode f) = Ok f.
Proof.
  intros H1 H2 H3 H4. unfold decodeSnapshotFooter, footer_encode, u64_ok in *.
  rewrite (slice_from_eq _ [] (put_le 8 (headerOffset f) ++ _) 0) by reflexivity. cbn [mbind outcome_bind]. rewrite le_Uint64_put, u64_small by lia. cbn [mbind outcome_bind].
  rewrite (slice_from_app (put_le 8 (headerOffset f)) _ 8) by by rewrite len_put_le. cbn [mbind outcome_bind]. rewrite le_Uint32_put, u32_small by lia. cbn [mbind outcome_bind].
  set (z := replicate 12 Byte.x00). assert (len z = 12) as Hz by done.
  rewrite (index_eq _ (put_le 8 (headerOffset f) ++ put_le 4 (headerLen f) ++ z) (f_version f) (put_le 4 (crc32Val f) ++ put_le 4 (magic f)) 24)
    by (rewrite ?len_app, ?len_put_le, ?Hz; first [reflexivity|app_eq]). cbn [mbind outcome_bind].
  rewrite (slice_from_eq _ (put_le 8 (headerOffset f) ++ put_le 4 (headerLen f) ++ z ++ [f_version f]) (put_le 4 (crc32Val f) ++ put_le 4 (magic f)) 25)
    by (rewrite ?len_app, ?len_put_le, ?Hz; first [reflexivity|app_eq]). cbn [mbind outcome_bind]. rewrite le_Uint32_put, u32_small by lia. cbn [mbind outcome_bind].
  rewrite (slice_from_eq _ (put_le 8 (headerOffset f) ++ put_le 4 (headerLen f) ++ z ++ [f_version f] ++ put_le 4 (crc32Val f)) (put_le 4 (magic f) ++ []) 29)
    by (rewrite ?len_app, ?len_put_le, ?Hz, ?app_nil_r; first [reflexivity|app_eq]). cbn [mbind outcome_bind]. rewrite le_Uint32_put, u32_small by lia. by destruct f.
Qed.

Lemma restoreNodes_spec ns g :
  NoDup (map ID ns) -> (forall n, n ∈ ns -> nodes g !! ID n = None) -> memoryBytes g = mem_sum g ->
  let g' := restoreNodes ns g in
  opts g' = opts g /\ memoryBytes g' = mem_sum g' /\ forall i n, nodes g' !! i = Some n <-> (n ∈ ns /\ ID n = i) \/ nodes g !! i = Some n.
Proof.
  revert g; induction ns as [|n ns IH]; intros g Hnd Hnew Hm; cbn [restoreNodes].
  { split; [done|]. split; [done|]. intros i n. rewrite elem_of_nil. tauto. }
  cbn [map] in Hnd. apply NoDup_cons in Hnd as [Hn Hnd]. set (g1 := mkGraph _ _ _ _ _ _).
  destruct (IH g1 Hnd) as (H1 & H2 & H3).
  - intros m Hin. cbn. rewrite lookup_insert_ne; [apply Hnew; by right|]. intros E. apply Hn. rewrite E. by apply list_elem_of_fmap_2.
  - subst g1. cbn. rewrite Hm, estimate_opts. symmetry. rewrite (mem_sum_insert g _ (ID n) (Level n)); [lia|done|apply Hnew; left|]. cbn. by rewrite fmap_insert.
  - split; [done|]. split; [done|]. intros i m. rewrite H3. cbn. rewrite lookup_insert_Some, elem_of_cons. split.
    + intros [[]|[[<- <-]|[]]]; eauto.
    + intros [[[->|Hin] <-]|E]; [right; by left|by left; split|]. right. right. split; [|done]. intros <-. rewrite Hnew in E by left. done.
Qed.

(** What the format can hold. *)
Definition snapshot_fits (g : Graph) : Prop :=
  (forall id n, nodes g !! id = Some n -> node_ok (Dim (opts g)) n) /\ Dim (opts g) < 2^16 /\ M (opts g) < 2^16 /\
  Z.of_nat (size (nodes g)) < 2^64 /\ sizeOfNodes g (sortedIDs g) < 2^62.

Lemma sortedIDs_perm g : sortedIDs g ≡ₚ (map_to_list (nodes g)).*1.
Proof. apply merge_sort_Permutation. Qed.

Lemma sortedIDs_spec g id : id ∈ sortedIDs g <-> is_Some (nodes g !! id).
Proof.
  rewrite sortedIDs_perm, list_elem_of_fmap. split.
  - intros ([i n] & -> & H%elem_of_map_to_list). by exists n.
  - intros [n H]. exists (id, n). split; [done|]. by apply elem_of_map_to_list.
Qed.

(** The bytes of the file and what is read from them. *)
Lemma read_file ns hdr dim crc :
  Forall (node_ok dim) ns -> 0 <= dim < 2^16 -> header_ok hdr -> h_dim hdr = dim -> numNodes hdr = len ns ->
  let body := concat (map (fun n => node_bytes n dim) ns) in
  len body < 2^62 -> crc = crc32 (body ++ header_encode hdr) ->
  ReadSnapshot (body ++ header_encode hdr ++ footer_encode (mkSFooter (len body) headerFixedSize snapshotVersion crc snapshotMagic)) =
  Ok (mkData ns (h_entryPoint hdr) (Z.to_nat (h_maxLevel hdr)) (h_m hdr) dim (h_metric hdr) (h_seq hdr)).
Proof.
  intros Hns Hd Hh Ed En body Hb Ec. set (H := header_encode hdr) in *. set (T := footer_encode _).
  assert (len H = 30) as HH by apply len_header. assert (len T = 33) as HT by apply len_footer. pose proof (len_nonneg body) as Hb0.
  unfold ReadSnapshot. rewrite (proj2 (Z.ltb_ge _ _)) by (unfold footerSize; len_lia).
  rewrite (slice_from_app2 body H T) by (unfold footerSize; len_lia). cbn [mbind outcome_bind].
  subst T. rewrite decode_footer; cbn [headerOffset headerLen crc32Val magic f_version]; [|unfold u64_ok; lia|unfold headerFixedSize; lia|rewrite Ec; apply crc32_range|unfold snapshotMagic; lia].
  cbn [mbind outcome_bind magic f_version headerOffset headerLen crc32Val]. rewrite Z.eqb_refl. cbn [negb]. rewrite bool_decide_true by done. cbn [negb].
  set (T := footer_encode _) in *. rewrite !len_app, HH, HT. rewrite (i64_small (len body)) by lia. rewrite !i64_small by (unfold headerFixedSize, footerSize; lia).
  rewrite (proj2 (Z.eqb_eq _ _)) by (unfold headerFixedSize, footerSize; lia). cbn [negb].
  rewrite (slice_eq _ [] (body ++ H) T) by (first [app_eq|unfold headerFixedSize; len_lia]). cbn [mbind outcome_bind].
  rewrite <-Ec, Z.eqb_refl. cbn [negb]. change (headerFixedSize <? headerFixedSize) with false. cbn iota.
  rewrite (slice_from_app body H) by done. cbn [mbind outcome_bind]. subst H. rewrite decode_header by done. cbn [mbind outcome_bind].
  rewrite (slice_to_app body) by done. cbn [mbind outcome_bind]. rewrite En, Ed, len_to_nat.
  subst body. pose proof (readNodes_bytes dim ns [] Hns Hd) as Hr. rewrite app_nil_r in Hr. rewrite Hr. done.
Qed.

(** C35: Snapshots.  A graph whose numbers fit the format is written without error;
    reading the file back and restoring it into a new graph with the same options
    gives the graph again, with its nodes, edges, entry point and memory estimate,
    and the sequence number and metric given; only the set of soft-deleted nodes
    is not in the file, and is empty afterwards. *)
Theorem snapshot_roundtrip (g g0 : Graph) seqn metric :
  graph_inv g -> nodes g <> ∅ -> snapshot_fits g -> u64_ok seqn -> 0 <= metric < 256 -> New (opts g) = Ok g0 ->
  exists file data, WriteSnapshot g seqn metric = Ok file /\ ReadSnapshot file = Ok data /\ sd_Seq data = seqn /\ sd_Metric data = metric /\
    RestoreFromSnapshot data g0 = Ok (mkGraph (nodes g) (entryPoint g) (maxLevel g) (opts g) ∅ (memoryBytes g)).
Proof.
  intros Hg Hne (Hn & Hd & HM & Hsz & Hsize) Hseq Hmet Hnew. destruct (gi_opts g Hg) as (D1 & M1 & _).
  destruct (writeNodes_bytes g (sortedIDs g)) as (ns & F2 & Hok & Ew & Es). { intros id [n E]%sortedIDs_spec. exists n. split; [done|]. by eapply Hn. }
  destruct (gi_entry g Hg Hne) as (ne & Ee & El). pose proof (Hn _ _ Ee) as Hnoe. destruct (eo_node g (gi_edges g Hg) _ _ Ee) as (Eid & _).
  set (hdr := mkHeader (Z.of_nat (size (nodes g))) (entryPoint g) (Z.of_nat (maxLevel g)) (M (opts g)) (Dim (opts g)) metric seqn).
  assert (header_ok hdr) as Hh.
  { unfold header_ok, u64_ok in *. cbn. pose proof (no_id _ _ Hnoe) as Hi. pose proof (no_level _ _ Hnoe). unfold u64_ok in Hi. rewrite Eid in Hi. lia. }
  assert (len ns = Z.of_nat (size (nodes g))) as Hlen.
  { unfold len. f_equal. rewrite <-(Forall2_length _ _ _ F2), (Permutation_length (sortedIDs_perm g)), length_fmap, length_map_to_list. done. }
  unfold WriteSnapshot. rewrite (proj2 (Nat.eqb_neq _ _)) by (intros E; apply Hne, map_size_empty_inv, E). rewrite Ew. cbn [mbind outcome_bind]. rewrite Es. fold hdr.
  eexists _, _. split; [done|]. split; [apply read_file; [done|lia|done|done|done|by rewrite <-Es|done]|]. cbn [sd_Seq sd_Metric]. split; [done|]. split; [done|].
  destruct (graph_New_ok (F := Z) (opts g) g0 Hnew) as (_ & Eo & _). unfold RestoreFromSnapshot. cbn [sd_Dim sd_M sd_Nodes]. rewrite Eo, !Z.eqb_refl. cbn [negb].
  assert (forall i n, (n ∈ ns /\ ID n = i) <-> nodes g !! i = Some n) as Hin.
  { intros i n. split.
    - intros [[k Hk]%list_elem_of_lookup <-]. destruct (Forall2_lookup_r _ _ _ _ _ F2 Hk) as (id & _ & E). by rewrite (proj1 (eo_node g (gi_edges g Hg) _ _ E)).
    - intros E. split; [|by apply (eo_node g (gi_edges g Hg))]. assert (i ∈ sortedIDs g) as [k Hk]%list_elem_of_lookup by (apply sortedIDs_spec; eauto).
      destruct (Forall2_lookup_l _ _ _ _ _ F2 Hk) as (n' & Hk' & E'). rewrite E in E'. injection E' as <-. by eapply list_elem_of_lookup_2. }
  assert (map ID ns = sortedIDs g) as Eids.
  { clear -F2 Hg. induction F2 as [|i n js ns E _ IH]; [done|]. cbn. by rewrite (proj1 (eo_node g (gi_edges g Hg) _ _ E)), IH. }
  destruct (restoreNodes_spec ns (mkGraph ∅ (entryPoint g0) (maxLevel g0) (opts g) (tombstones g0) 0)) as (R1 & R2 & R3).
  - rewrite Eids, sortedIDs_perm. apply NoDup_fst_map_to_list.
  - intros n _. apply lookup_empty.
  - done.
  - set (g1 := restoreNodes ns _) in *. assert (nodes g1 = nodes g) as En.
    { apply map_eq. intros i. apply option_eq. intros n. rewrite R3, Hin. cbn [nodes]. rewrite lookup_empty. naive_solver. }
    f_equal. cbn [sd_EntryPoint sd_MaxLevel h_entryPoint h_maxLevel hdr opts] in *. rewrite Nat2Z.id, En, R1, R2. f_equal.
    rewrite (gi_mem g Hg). apply mem_sum_ext; [done|by rewrite En].
Qed.

(** ** Examples *)
Definition s_ext (b : Byte.byte) : bytes := replicate 16 b.
Definition s_ops : list gop := [GInsert 0 (s_ext Byte.x61) [0; 0] 0; GInsert 1 (s_ext Byte.x61) [5; 5] 1; GDelete 0].
Definition s_start : Graph := mkGraph ∅ 0 0 e_opts ∅ 0.

Lemma snapshot_roundtrip_witness :
  exists g file data, e_run s_ops = Some g /\ WriteSnapshot g 7 1 = Ok file /\ ReadSnapshot file = Ok data /\
    RestoreFromSnapshot data s_start = Ok (mkGraph (nodes g) (entryPoint g) (maxLevel g) (opts g) ∅ (memoryBytes g)) /\ tombstones g = {[0]}.
Proof.
  destruct (grun_ok Z.ltb sq_dist zlt_asym zlt_negtrans sort_dist sort_dist_perm range_fst elements (fun m => reflexivity _) (fun s => reflexivity _) s_ops
    s_start ∅) as (g & E & Hg & Eo & _); [apply (graph_New_ok e_opts); reflexivity|reflexivity|].
  change (e_run s_ops = Some g) in E.
  assert (map_to_list <$> (nodes <$> e_run s_ops) = Some [(1, mkNode 1 (s_ext Byte.x61) [5; 5] 1 [[0]; []]); (0, mkNode 0 (s_ext Byte.x61) [0; 0] 0 [[1]])]) as En by (vm_compute; reflexivity).
  assert (tombstones <$> e_run s_ops = Some {[0]}) as Et by (vm_compute; reflexivity).
  assert (match e_run s_ops with Some g => sizeOfNodes g (sortedIDs g) <? 2^62 | None => false end = true) as Esz by (vm_compute; reflexivity).
  rewrite E in En, Et, Esz. injection En as En. injection Et as Et. apply Z.ltb_lt in Esz.
  assert (size (nodes g) = 2%nat) as Es by (rewrite <-length_map_to_list, En; reflexivity).
  destruct (snapshot_roundtrip g s_start 7 1 Hg) as (file & data & H1 & H2 & _ & _ & H3); [intros E0; rewrite E0 in Es; discriminate Es| |split; [discriminate|reflexivity]|split; [discriminate|reflexivity]|rewrite Eo; reflexivity|].
  - unfold snapshot_fits. rewrite Eo. split; [|split; [reflexivity|split; [reflexivity|split; [rewrite Es; reflexivity|exact Esz]]]].
    intros id n Hn. apply elem_of_map_to_list in Hn. rewrite En in Hn. apply elem_of_cons in Hn as [[= -> ->]|Hn]; [|apply list_elem_of_singleton in Hn as [= -> ->]];
      (split; [split; [discriminate|reflexivity]|reflexivity|split; [reflexivity|repeat constructor; discriminate]|cbn; lia|split; [reflexivity|repeat constructor; try discriminate]]).
  - exists g, file, data. split; [exact E|]. split; [exact H1|]. split; [exact H2|]. split; [exact H3|exact Et].
Defined.

(** Deletions are lost.  Node 0 is the old version of a vector that was updated
    and so soft-deleted; after a snapshot and a restore, a query answers the same
    external identifier twice, once with the distance of the old version. *)
Theorem snapshot_revives_deleted :
  let g' := g ← e_run s_ops;
            match (file ← WriteSnapshot g 7 1; data ← ReadSnapshot file; RestoreFromSnapshot data s_start) with Ok g' => Some g' | _ => None end in
  e_search (e_run s_ops) [1; 0] 10 = Some [(1, 41)] /\ e_search g' [1; 0] 10 = Some [(0, 1); (1, 41)].
Proof. vm_compute. done. Qed.
