(* ===== verification/VecCodec.v ===== *)
(** * Encodings of the vector store (src/vector: encoding.go, collection.go)

    Vectors with version and metadata, collection configurations, and the keys
    under which both are kept in the key-value store.  A [float32] and a [float64]
    are their bit patterns; a Go string is its bytes; reading at an offset is
    reading the bytes that remain. *)

From Stdlib Require Import ZArith Lia List Sorted.
From stdpp Require Import base list option gmap sorting.
From S2P Require Import Prelude GoBytes.
Open Scope Z_scope.

(** ** Versions *)
Record VectorVersion := mkVer { vWallTime : Z; vLogical : Z }.
Definition zeroVer : VectorVersion := mkVer 0 0.
Definition After (v other : VectorVersion) : bool :=
  (vWallTime other <? vWallTime v) || ((vWallTime v =? vWallTime other) && (vLogical other <? vLogical v)).
Definition ver_IsZero (v : VectorVersion) : bool := (vWallTime v =? 0) && (vLogical v =? 0).

(** ** Metadata; [MOther] is a value of a type the encoding does not support. *)
Inductive MetaValue := MString (b : bytes) | MInt64 (z : Z) | MFloat64 (bits : Z) | MBool (b : bool) | MBytes (b : bytes) | MOther.
Abbreviation Metadata := (gmap bytes MetaValue).

Definition encodingVersionV1 : Byte.byte := Byte.x01.
Definition encodingVersionV2 : Byte.byte := Byte.x02.
Definition versionSize : Z := 8 + 4.
Definition metaTypeString : Byte.byte := Byte.x01.
Definition metaTypeInt64 : Byte.byte := Byte.x02.
Definition metaTypeFloat64 : Byte.byte := Byte.x03.
Definition metaTypeBool : Byte.byte := Byte.x04.
Definition metaTypeBytes : Byte.byte := Byte.x05.

Inductive VecErr := ErrUnsupportedType | ErrVecCorrupt | ErrVecVersion | ErrUnknownMetric.

(** [slices.Sort] of the keys of the map. *)
Definition key_le (a b : bytes * MetaValue) : Prop := ble a.1 b.1.
#[global] Instance key_le_dec a b : Decision (key_le a b).
Proof. unfold key_le, ble. apply _. Defined.
Definition sortedFields (m : Metadata) : list (bytes * MetaValue) := merge_sort key_le (map_to_list m).

(** The type tag and the bytes of a value. *)
Definition encodeValue (v : MetaValue) : outcome VecErr (Byte.byte * bytes) :=
  match v with
  | MString b => Ok (metaTypeString, b)
  | MInt64 z => Ok (metaTypeInt64, put_le 8 (u64 z))
  | MFloat64 z => Ok (metaTypeFloat64, put_le 8 z)
  | MBool b => Ok (metaTypeBool, [if b then Byte.x01 else Byte.x00])
  | MBytes b => Ok (metaTypeBytes, b)
  | MOther => Err ErrUnsupportedType
  end.
Fixpoint encodeFields (fs : list (bytes * MetaValue)) : outcome VecErr bytes :=
  match fs with
  | [] => Ok []
  | (k, v) :: fs =>
      '(tag, val) ← encodeValue v;
      rest ← encodeFields fs;
      Ok (put_le 2 (len k) ++ k ++ [tag] ++ put_le 2 (len val) ++ val ++ rest)
  end.
Definition EncodeVector (vec : list Z) (metadata : Metadata) (ver : VectorVersion) : outcome VecErr bytes :=
  let fields := sortedFields metadata in
  fs ← encodeFields fields;
  Ok ([encodingVersionV2] ++ put_be 8 (u64 (vWallTime ver)) ++ put_be 4 (vLogical ver) ++ put_le 2 (len vec) ++ concat (map (put_le 4) vec) ++
      put_le 2 (len fields) ++ fs).

(** ** Decoding *)
Fixpoint decodeFloats (n : nat) (data : bytes) : outcome VecErr (list Z * bytes) :=
  match n with
  | O => Ok ([], data)
  | S n => x ← le_Uint32 data; rest ← slice_from data 4; '(xs, rest) ← decodeFloats n rest; Ok (x :: xs, rest)
  end.
Definition decodeValue (tag : Byte.byte) (val : bytes) : outcome VecErr MetaValue :=
  if bool_decide (tag = metaTypeString) then Ok (MString val) else
  if bool_decide (tag = metaTypeInt64) then
    (if negb (len val =? 8) then Err ErrVecCorrupt else z ← le_Uint64 val; Ok (MInt64 (i64 z))) else
  if bool_decide (tag = metaTypeFloat64) then
    (if negb (len val =? 8) then Err ErrVecCorrupt else z ← le_Uint64 val; Ok (MFloat64 z)) else
  if bool_decide (tag = metaTypeBool) then
    (if negb (len val =? 1) then Err ErrVecCorrupt else b ← index val 0; Ok (MBool (negb (bool_decide (b = Byte.x00))))) else
  if bool_decide (tag = metaTypeBytes) then Ok (MBytes val) else Err ErrVecCorrupt.
Fixpoint decodeFields (n : nat) (data : bytes) (meta : Metadata) : outcome VecErr Metadata :=
  match n with
  | O => Ok meta
  | S n =>
      if len data <? 2 then Err ErrVecCorrupt else
      nameLen ← le_Uint16 data; data ← slice_from data 2;
      if len data <? nameLen then Err ErrVecCorrupt else
      name ← slice data 0 nameLen; data ← slice_from data nameLen;
      if len data <? 1 then Err ErrVecCorrupt else
      tag ← index data 0; data ← slice_from data 1;
      if len data <? 2 then Err ErrVecCorrupt else
      valLen ← le_Uint16 data; data ← slice_from data 2;
      if len data <? valLen then Err ErrVecCorrupt else
      valBytes ← slice data 0 valLen; data ← slice_from data valLen;
      v ← decodeValue tag valBytes;
      decodeFields n data (<[name := v]> meta)
  end.
Definition decodeHeader (data : bytes) : outcome VecErr (VectorVersion * bytes) :=
  encVer ← index data 0;
  if bool_decide (encVer = encodingVersionV1) then rest ← slice_from data 1; Ok (zeroVer, rest) else
  if bool_decide (encVer = encodingVersionV2) then
    (if len data <? 1 + versionSize + 2 then Err ErrVecCorrupt else
     t ← slice data 1 9; w ← be_Uint64 t; t ← slice data 9 13; lg ← be_Uint32 t;
     rest ← slice_from data (1 + versionSize); Ok (mkVer (i64 w) lg, rest)) else
  Err ErrVecVersion.
Definition DecodeVector (data : bytes) : outcome VecErr (list Z * Metadata * VectorVersion) :=
  if len data <? 3 then Err ErrVecCorrupt else
  '(ver, data) ← decodeHeader data;
  if len data <? 2 then Err ErrVecCorrupt else
  dim ← le_Uint16 data; data ← slice_from data 2;
  if len data <? dim * 4 then Err ErrVecCorrupt else
  '(vec, data) ← decodeFloats (Z.to_nat dim) data;
  if len data <? 2 then Err ErrVecCorrupt else
  numFields ← le_Uint16 data; data ← slice_from data 2;
  meta ← decodeFields (Z.to_nat numFields) data ∅;
  Ok (vec, meta, ver).
Definition DecodeVectorVersion (data : bytes) : outcome VecErr VectorVersion :=
  if len data <? 1 then Err ErrVecCorrupt else
  encVer ← index data 0;
  if bool_decide (encVer = encodingVersionV1) then Ok zeroVer else
  if bool_decide (encVer = encodingVersionV2) then
    (if len data <? 1 + versionSize then Err ErrVecCorrupt else
     t ← slice data 1 9; w ← be_Uint64 t; t ← slice data 9 13; lg ← be_Uint32 t; Ok (mkVer (i64 w) lg)) else
  Err ErrVecVersion.

(** ** Collections *)
Definition keyPrefixVector : Byte.byte := Byte.x02.
Definition kindConfig : Byte.byte := Byte.x00.
Definition kindVector : Byte.byte := Byte.x01.
Definition collectionConfigVersion : Byte.byte := Byte.x01.
Definition MetricL2 : Z := 1.
Definition MetricCosine : Z := 2.
Definition MetricInnerProduct : Z := 3.
Record CollectionConfig := mkCollection { cDim : Z; cMetric : Z; cM : Z; cEfConstruct : Z; cEfSearch : Z; MaxVectors : Z }.
Definition collectionConfigSize : Z := 1 + 2 + 1 + 2 + 2 + 2 + 8.

Definition encodeCollectionConfig (c : CollectionConfig) : bytes :=
  [collectionConfigVersion] ++ put_le 2 (cDim c) ++ [Zb (cMetric c)] ++ put_le 2 (cM c) ++ put_le 2 (cEfConstruct c) ++ put_le 2 (cEfSearch c) ++ put_le 8 (u64 (MaxVectors c)).
Definition decodeCollectionConfig (data : bytes) : outcome VecErr CollectionConfig :=
  if len data <? collectionConfigSize then Err ErrVecCorrupt else
  v ← index data 0;
  if negb (bool_decide (v = collectionConfigVersion)) then Err ErrVecVersion else
  t ← slice data 1 3; dim ← le_Uint16 t;
  metric ← index data 3;
  t ← slice data 4 6; m ← le_Uint16 t;
  t ← slice data 6 8; efc ← le_Uint16 t;
  t ← slice data 8 10; efs ← le_Uint16 t;
  t ← slice data 10 18; mv ← le_Uint64 t;
  Ok (mkCollection dim (bZ metric) m efc efs (i64 mv)).

(** [keyPrefixVector], the name with its length, and a kind. *)
Definition collectionKey (collection : bytes) (kind : Byte.byte) : bytes := [keyPrefixVector] ++ put_le 2 (len collection) ++ collection ++ [kind].
Definition makeCollectionConfigKey (collection : bytes) : bytes := collectionKey collection kindConfig.
Definition makeVectorKey (collection id : bytes) : bytes := collectionKey collection kindVector ++ id.
Definition makeVectorKeyPrefix (collection : bytes) : bytes := collectionKey collection kindVector.
Definition makeVectorKeyPrefixEnd (collection : bytes) : bytes := collectionKey collection Byte.x02.
(** The name, the identifier (empty for a configuration) and the kind. *)
Definition parseVectorKey (userKey : bytes) : outcome VecErr (bytes * bytes * Byte.byte) :=
  if len userKey <? 4 then Err ErrVecCorrupt else
  p ← index userKey 0;
  if negb (bool_decide (p = keyPrefixVector)) then Err ErrVecCorrupt else
  t ← slice userKey 1 3; nameLen ← le_Uint16 t;
  if len userKey <? 3 + nameLen + 1 then Err ErrVecCorrupt else
  collection ← slice userKey 3 (3 + nameLen);
  kind ← index userKey (3 + nameLen);
  if bool_decide (kind = kindConfig) then Ok (collection, [], kind) else
  if bool_decide (kind = kindVector) then
    (if len userKey <? 3 + nameLen + 1 + 16 then Err ErrVecCorrupt else
     id ← slice userKey (3 + nameLen + 1) (3 + nameLen + 1 + 16); Ok (collection, id, kind)) else
  Err ErrVecCorrupt.

Definition MetricToDistanceFunc (metric : Z) : outcome VecErr Z :=
  if metric =? MetricL2 then Ok MetricL2 else
  if metric =? MetricCosine then Ok MetricCosine else
  if metric =? MetricInnerProduct then Ok MetricInnerProduct else Err ErrUnknownMetric.

(** [fnv.New64a] over the bytes. *)
Definition fnv64a (l : bytes) : Z := fold_left (fun h b => u64 (Z.lxor h (bZ b) * 0x100000001b3)) l 0xcbf29ce484222325.
Definition ConfigDigest (c : CollectionConfig) : Z :=
  fnv64a (put_le 4 (u32 (cDim c)) ++ [Zb (cMetric c)] ++ put_le 4 (u32 (cM c)) ++ put_le 4 (u32 (cEfConstruct c))).

(** ** Round trip of vectors *)
Definition value_fits (v : MetaValue) : Prop :=
  match v with
  | MString b | MBytes b => len b < 2^16
  | MInt64 z => -2^63 <= z < 2^63
  | MFloat64 z => 0 <= z < 2^64
  | MBool _ => True
  | MOther => False
  end.
Definition ver_ok (v : VectorVersion) : Prop := -2^63 <= vWallTime v < 2^63 /\ 0 <= vLogical v < 2^32.
(** What the encoding can hold. *)
Definition vector_fits (vec : list Z) (metadata : Metadata) (ver : VectorVersion) : Prop :=
  len vec < 2^16 /\ Forall (fun x => 0 <= x < 2^32) vec /\ Z.of_nat (size metadata) < 2^16 /\
  map_Forall (fun k v => len k < 2^16 /\ value_fits v) metadata /\ ver_ok ver.

Lemma decodeFloats_put (vec : list Z) l :
  Forall (fun x => 0 <= x < 2^32) vec -> decodeFloats (length vec) (concat (map (put_le 4) vec) ++ l) = Ok (vec, l).
Proof.
  induction 1 as [|x xs Hx _ IH]; cbn [map concat length decodeFloats]; [done|]. rewrite <-app_assoc, le_Uint32_put, u32_small by lia. cbn [mbind outcome_bind].
  rewrite (slice_from_app (put_le 4 x)) by by rewrite len_put_le. cbn [mbind outcome_bind]. rewrite IH. done.
Qed.

Lemma decodeValue_encode v : value_fits v -> exists tag b, encodeValue v = Ok (tag, b) /\ len b < 2^16 /\ decodeValue tag b = Ok v.
Proof.
  destruct v as [b|z|z|[]|b|]; cbn [value_fits]; intros H; [..|done]; eexists _, _; (split; [done|]);
    try (split; [first [exact H|by rewrite len_put_le|done]|]); try done.
  - change (decodeValue metaTypeInt64 (put_le 8 (u64 z))) with (z ← le_Uint64 (E := VecErr) (put_le 8 (u64 z)); Ok (E := VecErr) (MInt64 (i64 z))).
    rewrite <-(app_nil_r (put_le 8 _)), le_Uint64_put, (u64_small (u64 z)) by apply u64_range. cbn. by rewrite i64_u64.
  - change (decodeValue metaTypeFloat64 (put_le 8 z)) with (z ← le_Uint64 (E := VecErr) (put_le 8 z); Ok (E := VecErr) (MFloat64 z)).
    rewrite <-(app_nil_r (put_le 8 _)), le_Uint64_put, u64_small by lia. done.
Qed.

Definition insert_field (m : Metadata) (kv : bytes * MetaValue) : Metadata := <[kv.1 := kv.2]> m.
Lemma decodeFields_encode fs :
  Forall (fun kv => len kv.1 < 2^16 /\ value_fits kv.2) fs ->
  exists b, encodeFields fs = Ok b /\ forall l meta, decodeFields (length fs) (b ++ l) meta = Ok (fold_left insert_field fs meta).
Proof.
  induction 1 as [|[k v] fs [Hk Hv] _ (b & Eb & IH)]; [by exists []|]. cbn [fst snd] in *. destruct (decodeValue_encode v Hv) as (tag & val & Ev & Hl & Ed).
  cbn [encodeFields]. rewrite Ev. cbn [mbind outcome_bind]. rewrite Eb. cbn [mbind outcome_bind]. eexists. split; [done|]. intros l meta. rewrite <-!app_assoc.
  cbn [length decodeFields]. pose proof (len_nonneg k). pose proof (len_nonneg val).
  rewrite (proj2 (Z.ltb_ge _ 2)) by len_lia. rewrite le_Uint16_put, u16_small by lia. cbn [mbind outcome_bind].
  rewrite (slice_from_app (put_le 2 (len k))) by by rewrite len_put_le. cbn [mbind outcome_bind]. rewrite (proj2 (Z.ltb_ge _ _)) by len_lia.
  rewrite (slice_to_app k) by done. cbn [mbind outcome_bind]. rewrite (slice_from_app k) by done. cbn [mbind outcome_bind].
  rewrite (proj2 (Z.ltb_ge _ 1)) by len_lia. rewrite (index_eq ([tag] ++ _) [] tag _ 0 eq_refl) by done. cbn [mbind outcome_bind].
  rewrite (slice_from_app [tag]) by done. cbn [mbind outcome_bind]. rewrite (proj2 (Z.ltb_ge _ 2)) by len_lia.
  rewrite le_Uint16_put, u16_small by lia. cbn [mbind outcome_bind]. rewrite (slice_from_app (put_le 2 (len val))) by by rewrite len_put_le. cbn [mbind outcome_bind].
  rewrite (proj2 (Z.ltb_ge _ _)) by len_lia. rewrite (slice_to_app val) by done. cbn [mbind outcome_bind]. rewrite (slice_from_app val) by done. cbn [mbind outcome_bind].
  rewrite Ed. cbn [mbind outcome_bind]. rewrite IH. done.
Qed.

Lemma sortedFields_perm m : sortedFields m ≡ₚ map_to_list m.
Proof. apply merge_sort_Permutation. Qed.

Lemma sortedFields_map m : fold_left insert_field (sortedFields m) ∅ = m.
Proof.
  rewrite <-fold_left_rev_right. transitivity (list_to_map (M := Metadata) (rev (sortedFields m))).
  - induction (rev (sortedFields m)) as [|[k v] l IH]; [done|]. cbn. by rewrite <-IH.
  - assert (rev (sortedFields m) ≡ₚ map_to_list m) as Hp by (rewrite <-Permutation_rev; apply sortedFields_perm).
    transitivity (list_to_map (M := Metadata) (map_to_list m)); [|apply list_to_map_to_list].
    apply list_to_map_proper; [|done]. rewrite Hp. apply NoDup_fst_map_to_list.
Qed.

Lemma version_bytes ver rest :
  ver_ok ver -> let data := [encodingVersionV2] ++ put_be 8 (u64 (vWallTime ver)) ++ put_be 4 (vLogical ver) ++ rest in
  DecodeVectorVersion data = Ok ver /\ (2 <= len rest -> decodeHeader data = Ok (ver, rest)).
Proof.
  intros [Hw Hl] data. pose proof (len_nonneg rest).
  assert (len data = 13 + len rest) as Hlen by (subst data; rewrite !len_app, !len_put_be; change (len [_]) with 1; lia).
  assert (@index VecErr _ data 0 = Ok encodingVersionV2) as E0 by (by apply (index_eq _ [] encodingVersionV2 (put_be 8 (u64 (vWallTime ver)) ++ put_be 4 (vLogical ver) ++ rest))).
  assert (@slice VecErr _ data 1 9 = Ok (put_be 8 (u64 (vWallTime ver)))) as E1 by (apply (slice_app3 [encodingVersionV2]); rewrite ?len_put_be; done).
  assert (@slice VecErr _ data 9 13 = Ok (put_be 4 (vLogical ver))) as E2.
  { apply (slice_eq _ ([encodingVersionV2] ++ put_be 8 (u64 (vWallTime ver))) _ rest); [subst data; app_eq|rewrite ?len_app, ?len_put_be; done..]. }
  assert (@slice_from VecErr _ data (1 + versionSize) = Ok rest) as E3.
  { apply (slice_from_eq _ ([encodingVersionV2] ++ put_be 8 (u64 (vWallTime ver)) ++ put_be 4 (vLogical ver))); [subst data; app_eq|rewrite ?len_app, ?len_put_be; done]. }
  assert (@be_Uint64 VecErr (put_be 8 (u64 (vWallTime ver))) = Ok (u64 (vWallTime ver))) as E4.
  { rewrite <-(app_nil_r (put_be 8 _)), be_Uint64_put, u64_small; [done|apply u64_range]. }
  assert (@be_Uint32 VecErr (put_be 4 (vLogical ver)) = Ok (vLogical ver)) as E5 by (rewrite <-(app_nil_r (put_be 4 _)), be_Uint32_put, u32_small; [done|lia]).
  split.
  - unfold DecodeVectorVersion. rewrite (proj2 (Z.ltb_ge _ 1)), E0 by lia. cbn [mbind outcome_bind]. rewrite bool_decide_false, bool_decide_true by done.
    rewrite (proj2 (Z.ltb_ge _ _)) by (unfold versionSize; lia). rewrite E1. cbn [mbind outcome_bind]. rewrite E4. cbn [mbind outcome_bind]. rewrite E2. cbn [mbind outcome_bind].
    rewrite E5. cbn. rewrite i64_u64 by done. by destruct ver.
  - intros Hr. unfold decodeHeader. rewrite E0. cbn [mbind outcome_bind]. rewrite bool_decide_false, bool_decide_true by done.
    rewrite (proj2 (Z.ltb_ge _ _)) by (unfold versionSize; lia). rewrite E1. cbn [mbind outcome_bind]. rewrite E4. cbn [mbind outcome_bind]. rewrite E2. cbn [mbind outcome_bind].
    rewrite E5. cbn [mbind outcome_bind]. rewrite E3. cbn. rewrite i64_u64 by done. by destruct ver.
Qed.

(** Decoding ignores what follows the last field. *)
Lemma decode_encode vec metadata ver :
  vector_fits vec metadata ver ->
  exists b, EncodeVector vec metadata ver = Ok b /\ forall l, DecodeVector (b ++ l) = Ok (vec, metadata, ver) /\ DecodeVectorVersion (b ++ l) = Ok ver.
Proof.
  intros (H1 & H2 & H3 & H4 & H5). unfold EncodeVector.
  assert (len (sortedFields metadata) = Z.of_nat (size metadata)) as Hsz by (unfold len; by rewrite (Permutation_length (sortedFields_perm metadata)), length_map_to_list).
  destruct (decodeFields_encode (sortedFields metadata)) as (fs & -> & Hfs).
  { rewrite sortedFields_perm. apply Forall_forall. intros [k v] Hin%elem_of_map_to_list. exact (H4 k v Hin). }
  cbn [mbind outcome_bind]. eexists. split; [done|]. intros l. rewrite <-!app_assoc.
  set (rest := put_le 2 (len vec) ++ concat (map (put_le 4) vec) ++ put_le 2 (len (sortedFields metadata)) ++ fs ++ l).
  destruct (version_bytes ver rest H5) as [Ev Eh]. split; [|exact Ev]. pose proof (len_nonneg vec). pose proof (len_nonneg fs). pose proof (len_nonneg l).
  assert (forall xs : list Z, len (concat (map (put_le 4) xs)) = len xs * 4) as Hints.
  { intros xs. induction xs as [|x xs IH]; cbn [map concat]; [done|]. rewrite len_app, len_cons, IH, len_put_le. lia. }
  assert (2 <= len rest) as Hr by (subst rest; rewrite !len_app, Hints, !len_put_le; lia).
  unfold DecodeVector. rewrite (proj2 (Z.ltb_ge _ 3)) by (rewrite !len_app, !len_put_be; change (len [encodingVersionV2]) with 1; lia).
  rewrite (Eh Hr). cbn [mbind outcome_bind]. rewrite (proj2 (Z.ltb_ge _ 2)) by lia. subst rest.
  rewrite le_Uint16_put, u16_small by lia. cbn [mbind outcome_bind]. rewrite (slice_from_app (put_le 2 (len vec))) by by rewrite len_put_le. cbn [mbind outcome_bind].
  rewrite (proj2 (Z.ltb_ge _ _)) by (rewrite !len_app, Hints, len_put_le; lia). rewrite len_to_nat, decodeFloats_put by done. cbn [mbind outcome_bind].
  rewrite (proj2 (Z.ltb_ge _ 2)) by (rewrite !len_app, len_put_le; lia). rewrite le_Uint16_put, u16_small by lia. cbn [mbind outcome_bind].
  rewrite (slice_from_app (put_le 2 _)) by by rewrite len_put_le. cbn [mbind outcome_bind]. rewrite len_to_nat, Hfs. cbn [mbind outcome_bind].
  by rewrite sortedFields_map.
Qed.

(** C36: Vectors survive their encoding.  A vector of less than 65536 components with
    metadata of supported types whose names and values are shorter than 65536 bytes
    is encoded without error, and decoding gives the vector, the metadata and the
    version back; the version alone can be read from the encoding too. *)
Theorem vector_roundtrip vec metadata ver :
  vector_fits vec metadata ver ->
  exists b, EncodeVector vec metadata ver = Ok b /\ DecodeVector b = Ok (vec, metadata, ver) /\ DecodeVectorVersion b = Ok ver.
Proof. intros (b & E & H)%decode_encode. destruct (H []) as [H1 H2]. rewrite app_nil_r in H1, H2. eauto. Qed.

Definition ex_meta : Metadata := {[ [Byte.x61] := MString [Byte.x62; Byte.x63]; [Byte.x62] := MInt64 (-5); [Byte.x63] := MBool true ]}.
Lemma ex_meta_fits : map_Forall (fun k v => len k < 2^16 /\ value_fits v) ex_meta.
Proof.
  intros k v. unfold ex_meta. rewrite !lookup_insert_Some, lookup_singleton_Some. cbn. intros [[<- <-]|[_ [[<- <-]|[_ [<- <-]]]]]; (split; [reflexivity|]); repeat split; discriminate.
Qed.
Lemma vector_roundtrip_witness :
  exists b, EncodeVector [0; 1065353216] ex_meta (mkVer 5 1) = Ok b /\ DecodeVector b = Ok ([0; 1065353216], ex_meta, mkVer 5 1).
Proof.
  destruct (vector_roundtrip [0; 1065353216] ex_meta (mkVer 5 1)) as (b & H1 & H2 & _); [|exists b; split; [exact H1|exact H2]].
  split; [reflexivity|]. split; [repeat constructor; discriminate|]. split; [reflexivity|]. split; [apply ex_meta_fits|repeat split; discriminate].
Defined.

(** A string of 65536 bytes is encoded without an error and decoded as the empty
    string: its length is written modulo 65536 and the bytes that follow the last
    field are not looked at. *)
Lemma long_metadata_lost (b : bytes) :
  len b = 2^16 ->
  match EncodeVector [] {[ [Byte.x61] := MString b ]} zeroVer with Ok e => DecodeVector e | _ => Panic end = Ok ([], {[ [Byte.x61] := MString [] ]}, zeroVer).
Proof.
  intros Hb. destruct (decode_encode [] {[ [Byte.x61] := MString [] ]} zeroVer) as (e & Ee & He).
  { split; [done|]. split; [constructor|]. split; [done|]. split; [by apply map_Forall_singleton|done]. }
  assert (EncodeVector [] {[ [Byte.x61] := MString b ]} zeroVer = Ok (e ++ b)) as ->; [|apply He].
  unfold EncodeVector, sortedFields in *. rewrite map_to_list_singleton in *. cbn [merge_sort] in *.
  change (merge_sort key_le [([Byte.x61], MString [])]) with [([Byte.x61], MString [])] in Ee. change (merge_sort key_le [([Byte.x61], MString b)]) with [([Byte.x61], MString b)].
  cbn [encodeFields encodeValue mbind outcome_bind] in *. injection Ee as <-. rewrite Hb. change (put_le 2 (2^16)) with (put_le 2 (len (@nil Byte.byte))). f_equal. rewrite !app_nil_r. app_eq.
Qed.

(** ** Keys *)
Lemma len_collectionKey c k : len (collectionKey c k) = 4 + len c.
Proof. unfold collectionKey. rewrite !len_app, len_put_le. change (len [keyPrefixVector]) with 1. change (len [k]) with 1. lia. Qed.

Lemma parse_key c kind t :
  len c < 2^16 -> kind = kindConfig \/ kind = kindVector /\ len t = 16 ->
  parseVectorKey (collectionKey c kind ++ t) = Ok (c, if decide (kind = kindVector) then t else [], kind).
Proof.
  intros Hc Hk. unfold parseVectorKey. set (key := collectionKey c kind ++ t). pose proof (len_nonneg c). pose proof (len_nonneg t).
  assert (len key = 4 + len c + len t) as Hlen by (subst key; rewrite len_app, len_collectionKey; lia).
  assert (key = [keyPrefixVector] ++ put_le 2 (len c) ++ c ++ kind :: t) as Ek by (subst key; unfold collectionKey; app_eq).
  rewrite (proj2 (Z.ltb_ge _ 4)) by lia. rewrite (index_eq key [] keyPrefixVector (put_le 2 (len c) ++ c ++ kind :: t) 0 Ek) by done. cbn [mbind outcome_bind].
  rewrite bool_decide_true by done. cbn [negb]. rewrite (slice_eq key [keyPrefixVector] (put_le 2 (len c)) (c ++ kind :: t) 1 3) by first [exact Ek|by rewrite ?len_put_le]. cbn [mbind outcome_bind].
  rewrite <-(app_nil_r (put_le 2 (len c))), le_Uint16_put, u16_small by lia. cbn [mbind outcome_bind]. rewrite (proj2 (Z.ltb_ge _ _)) by lia.
  rewrite (slice_eq key ([keyPrefixVector] ++ put_le 2 (len c)) c (kind :: t) 3 (3 + len c)) by first [by rewrite Ek, <-app_assoc|rewrite len_app, len_put_le; change (len [keyPrefixVector]) with 1; lia]. cbn [mbind outcome_bind].
  rewrite (index_eq key ([keyPrefixVector] ++ put_le 2 (len c) ++ c) kind t (3 + len c)) by first [rewrite Ek; app_eq|rewrite !len_app, len_put_le; change (len [keyPrefixVector]) with 1; lia]. cbn [mbind outcome_bind].
  destruct Hk as [->|[-> Ht]]; [done|]. rewrite bool_decide_false, bool_decide_true by done. rewrite (proj2 (Z.ltb_ge _ _)) by lia.
  rewrite (slice_eq key (collectionKey c kindVector) t []) by first [by rewrite app_nil_r|rewrite len_collectionKey; lia]. done.
Qed.

Lemma collectionKey_inj c c' k k' t t' :
  len c < 2^16 -> len c' < 2^16 -> collectionKey c k ++ t = collectionKey c' k' ++ t' -> c = c' /\ k = k' /\ t = t'.
Proof.
  intros Hc Hc' E. unfold collectionKey in E. rewrite <-!app_assoc in E. apply app_inj_1 in E as [_ E]; [|done]. pose proof (len_nonneg c). pose proof (len_nonneg c').
  apply app_inj_1 in E as [E1 E2]; [|by rewrite !length_put_le]. apply (f_equal get_le) in E1. rewrite !get_le_put_le in E1. change (256 ^ Z.of_nat 2) with (2^16) in E1.
  rewrite !Z.mod_small in E1 by lia. apply app_inj_1 in E2 as [-> E3]; [|unfold len in E1; lia]. injection E3 as -> ->. done.
Qed.

(** What lies between [p ++ [a]] and [p ++ [a+1]] starts with [p ++ [a]]. *)
Lemma range_prefix p a b x : bZ b = bZ a + 1 -> ble (p ++ [a]) x -> blt x (p ++ [b]) -> (p ++ [a]) `prefix_of` x.
Proof.
  intros Hb. unfold ble, blt. revert x; induction p as [|y p IH]; intros [|c x]; cbn; try done.
  - destruct (Z.compare_spec (bZ a) (bZ c)) as [E|E|E]; [apply bZ_inj in E as ->; intros _ _; by exists x| |done].
    intros _. destruct (Z.compare_spec (bZ c) (bZ b)); [by destruct x|lia|done].
  - destruct (Z.compare_spec (bZ y) (bZ c)) as [E|E|E]; [|destruct (Z.compare_spec (bZ c) (bZ y)); [lia|lia|done]|done].
    apply bZ_inj in E as ->. rewrite Z.compare_refl. intros H1 H2. apply prefix_cons. by apply IH.
Qed.

Lemma collection_prefix c x :
  ble (collectionKey c kindVector) x /\ blt x (collectionKey c Byte.x02) -> exists z, x = collectionKey c kindVector ++ z.
Proof.
  assert (forall k, collectionKey c k = ([keyPrefixVector] ++ put_le 2 (len c) ++ c) ++ [k]) as E by (intros; unfold collectionKey; app_eq).
  rewrite !E. intros [H1 H2]. exact (range_prefix _ kindVector Byte.x02 x eq_refl H1 H2).
Qed.

Lemma collection_keys_lemma c c' id :
  len c < 2^16 -> len c' < 2^16 -> len id = 16 ->
  parseVectorKey (makeVectorKey c id) = Ok (c, id, kindVector) /\ parseVectorKey (makeCollectionConfigKey c) = Ok (c, [], kindConfig) /\
  (ble (makeVectorKeyPrefix c) (makeVectorKey c' id) /\ blt (makeVectorKey c' id) (makeVectorKeyPrefixEnd c) <-> c = c') /\
  ~ (ble (makeVectorKeyPrefix c) (makeCollectionConfigKey c') /\ blt (makeCollectionConfigKey c') (makeVectorKeyPrefixEnd c)).
Proof.
  intros Hc Hc' Hid. split; [|split; [|split]].
  - unfold makeVectorKey. rewrite parse_key by auto. done.
  - unfold makeCollectionConfigKey. rewrite <-(app_nil_r (collectionKey _ _)), parse_key by auto. done.
  - unfold makeVectorKey, makeVectorKeyPrefix, makeVectorKeyPrefixEnd. split.
    + intros [z E]%collection_prefix. symmetry in E. by apply (collectionKey_inj c c' kindVector kindVector z id).
    + intros <-. unfold collectionKey, ble, blt. rewrite <-!app_assoc, !bytes_Compare_app. cbn. by destruct id.
  - unfold makeCollectionConfigKey, makeVectorKeyPrefix, makeVectorKeyPrefixEnd. rewrite <-(app_nil_r (collectionKey c' kindConfig)).
    intros [z E]%collection_prefix. symmetry in E. by destruct (collectionKey_inj c c' kindVector kindConfig z []) as (_ & ? & _).
Qed.

(** The keys of collections.  A key is parsed back to its collection, identifier
    and kind; the scan range of a collection holds exactly the keys of its vectors:
    neither its configuration nor a key of another collection. *)
Theorem collection_keys c c' id :
  len c < 2^16 -> len c' < 2^16 -> len id = 16 ->
  parseVectorKey (makeVectorKey c id) = Ok (c, id, kindVector) /\ parseVectorKey (makeCollectionConfigKey c) = Ok (c, [], kindConfig) /\
  (ble (makeVectorKeyPrefix c) (makeVectorKey c' id) /\ blt (makeVectorKey c' id) (makeVectorKeyPrefixEnd c) <-> c = c') /\
  ~ (ble (makeVectorKeyPrefix c) (makeCollectionConfigKey c') /\ blt (makeCollectionConfigKey c') (makeVectorKeyPrefixEnd c)).
Proof. apply collection_keys_lemma. Qed.

Definition config_fits (c : CollectionConfig) : Prop :=
  0 <= cDim c < 2^16 /\ 0 <= cMetric c < 256 /\ 0 <= cM c < 2^16 /\ 0 <= cEfConstruct c < 2^16 /\ 0 <= cEfSearch c < 2^16 /\ -2^63 <= MaxVectors c < 2^63.
Lemma config_roundtrip c : config_fits c -> decodeCollectionConfig (encodeCollectionConfig c) = Ok c.
Proof.
  intros (H1 & H2 & H3 & H4 & H5 & H6). unfold decodeCollectionConfig. set (data := encodeCollectionConfig c).
  assert (len data = 18) as Hl by (subst data; unfold encodeCollectionConfig; rewrite !len_app, !len_put_le; done).
  rewrite (proj2 (Z.ltb_ge _ _)) by (unfold collectionConfigSize; lia).
  set (a := put_le 2 (cDim c)). set (b := put_le 2 (cM c)). set (d := put_le 2 (cEfConstruct c)). set (e := put_le 2 (cEfSearch c)). set (f := put_le 8 (u64 (MaxVectors c))).
  assert (data = [collectionConfigVersion] ++ a ++ [Zb (cMetric c)] ++ b ++ d ++ e ++ f) as E by done.
  assert (len a = 2 /\ len b = 2 /\ len d = 2 /\ len e = 2 /\ len f = 8) as (La & Lb & Ld & Le & Lf) by (subst a b d e f; by rewrite !len_put_le).
  rewrite (index_eq data [] collectionConfigVersion (a ++ [Zb (cMetric c)] ++ b ++ d ++ e ++ f) 0 E) by done. cbn [mbind outcome_bind]. rewrite bool_decide_true by done. cbn [negb].
  rewrite (slice_eq data [collectionConfigVersion] a ([Zb (cMetric c)] ++ b ++ d ++ e ++ f) 1 3) by first [done|by rewrite La]. cbn [mbind outcome_bind].
  rewrite (index_eq data ([collectionConfigVersion] ++ a) (Zb (cMetric c)) (b ++ d ++ e ++ f) 3) by first [rewrite E; app_eq|by rewrite len_app, La].
  rewrite (slice_eq data ([collectionConfigVersion] ++ a ++ [Zb (cMetric c)]) b (d ++ e ++ f) 4 6) by first [rewrite E; app_eq|by rewrite !len_app, ?La, ?Lb].
  rewrite (slice_eq data ([collectionConfigVersion] ++ a ++ [Zb (cMetric c)] ++ b) d (e ++ f) 6 8) by first [rewrite E; app_eq|by rewrite !len_app, ?La, ?Lb, ?Ld].
  rewrite (slice_eq data ([collectionConfigVersion] ++ a ++ [Zb (cMetric c)] ++ b ++ d) e f 8 10) by first [rewrite E; app_eq|by rewrite !len_app, ?La, ?Lb, ?Ld, ?Le].
  rewrite (slice_eq data ([collectionConfigVersion] ++ a ++ [Zb (cMetric c)] ++ b ++ d ++ e) f [] 10 18) by first [rewrite E, app_nil_r; app_eq|by rewrite !len_app, ?La, ?Lb, ?Ld, ?Le, ?Lf].
  subst a b d e f. cbn [mbind outcome_bind].
  rewrite <-(app_nil_r (put_le 2 (cDim c))), le_Uint16_put, u16_small by lia. cbn [mbind outcome_bind].
  rewrite <-(app_nil_r (put_le 2 (cM c))), le_Uint16_put, u16_small by lia. cbn [mbind outcome_bind].
  rewrite <-(app_nil_r (put_le 2 (cEfConstruct c))), le_Uint16_put, u16_small by lia. cbn [mbind outcome_bind].
  rewrite <-(app_nil_r (put_le 2 (cEfSearch c))), le_Uint16_put, u16_small by lia. cbn [mbind outcome_bind].
  rewrite <-(app_nil_r (put_le 8 _)), le_Uint64_put, u64_small by apply u64_range. cbn [mbind outcome_bind].
  rewrite i64_u64, bZ_Zb, Z.mod_small by lia. by destruct c.
Qed.

Lemma collection_keys_witness :
  let id := replicate 16 Byte.x07 in
  parseVectorKey (makeVectorKey [Byte.x61] id) = Ok ([Byte.x61], id, kindVector) /\
  (ble (makeVectorKeyPrefix [Byte.x61]) (makeVectorKey [Byte.x61] id) /\ blt (makeVectorKey [Byte.x61] id) (makeVectorKeyPrefixEnd [Byte.x61])).
Proof.
  intros id. destruct (collection_keys [Byte.x61] [Byte.x61] id) as (H1 & _ & H2 & _); [reflexivity|reflexivity|reflexivity|].
  split; [exact H1|]. apply H2. reflexivity.
Defined.
