(* ===== verification/VectorStore.v ===== *)
(** * The vector store (src/vector/vector.go)

    Collections of vectors: each vector is an entry of the key-value store, which
    is the source of truth, and a node of the collection's index; [ids] maps the
    identifier of a vector to its node.  Writes of a collection are serialized by
    its mutex, so each operation is one step.

    [dist] gives the distance of each metric, [level_of] the random level the index
    draws for a new node (by the node's number), [range_cols] the order in which Go
    ranges over the map of collections, [range_uuids] over the unseen identifiers.
    The directory is a map from file names to bytes. *)

From Stdlib Require Import ZArith Lia List Sorted.
From stdpp Require Import base list option gmap sorting.
From S2P Require Import Prelude GoBytes KV Entries KVStore Heap HNSW HNSWProof HNSWSpec HNSWSnapshot VecCodec.
Open Scope Z_scope.

(** What the vector store uses of the database beyond [KVStore]: range scans with
    the sequence number of each entry, and the current sequence number. *)
Class KVSeq (S : Type) `{!KVStore S} := {
  db_ScanRange : bytes -> bytes -> S -> list (bytes * Z * option bytes);
  db_CurrentSeq : S -> Z
}.

Inductive VErr :=
| ErrCollectionNotFound | ErrCollectionExists | ErrIndexingFailed (e : HnswErr) | ErrVecDim | ErrCodec (e : VecErr) | ErrGraph (e : HnswErr)
| ErrMaxVectors | ErrKV | ErrSnapshot | VPanic.

Record collectionState := mkCol { c_graph : Graph; c_config : CollectionConfig; c_ids : gmap bytes Z; c_nextID : Z }.
Record SnapshotInfo := mkSnap { si_Collection : bytes; si_Seq : Z; si_Filename : bytes }.
Record LatestEntry := mkLatest { le_Version : VectorVersion; le_Vector : list Z; le_Found : bool; le_Deleted : bool }.

Section vector.
Context {S : Type} `{!KVStore S, !KVSeq S} {D : Type}.
Context (dlt : D -> D -> bool) (dist : Z -> list Z -> list Z -> D) (sort : list (heapItem D) -> list (heapItem D)).
Context (level_of : Z -> nat).

Record Result := mkRes { res_ID : bytes; res_Vector : list Z; res_Metadata : Metadata; res_Distance : D; res_Version : VectorVersion }.
Record VectorStore := mkVS { vs_db : S; vs_cols : gmap bytes collectionState; vs_snapshots : gmap bytes SnapshotInfo }.
Definition set_db (db : S) (vs : VectorStore) : VectorStore := mkVS db (vs_cols vs) (vs_snapshots vs).
Definition set_col (name : bytes) (c : collectionState) (vs : VectorStore) : VectorStore := mkVS (vs_db vs) (<[name := c]> (vs_cols vs)) (vs_snapshots vs).

Definition graphOptions (cfg : CollectionConfig) : HnswOptions := mkHnswOptions (cM cfg) (cEfConstruct cfg) (cEfSearch cfg) (cDim cfg) 0.

(** ** Collections *)
Definition CreateCollection (name : bytes) (cfg : CollectionConfig) (vs : VectorStore) : VectorStore * option VErr :=
  match MetricToDistanceFunc (cMetric cfg) with
  | Ok _ =>
      match vs_cols vs !! name with
      | Some _ => (vs, Some ErrCollectionExists)
      | None =>
          match HNSW.New (graphOptions cfg) with
          | Ok graph =>
              match db_Put (makeCollectionConfigKey name) (encodeCollectionConfig cfg) (vs_db vs) with
              | None => (vs, Some ErrKV)
              | Some db => (set_col name (mkCol graph cfg ∅ 0) (set_db db vs), None)
              end
          | Err e => (vs, Some (ErrGraph e))
          | Panic => (vs, Some VPanic)
          end
      end
  | Err e => (vs, Some (ErrCodec e))
  | Panic => (vs, Some VPanic)
  end.

(** ** Writes *)
(** Whether the stored entry makes a write of version [ver] stale. *)
Definition stale (db : S) (vectorKey : bytes) (ver : VectorVersion) : bool :=
  if ver_IsZero ver then false else
  match db_Get db vectorKey with
  | Some existing =>
      if Tombstone existing then false else
      match DecodeVectorVersion (sl (Data existing)) with Ok existingVer => negb (After ver existingVer) | _ => false end
  | None => false
  end.

Definition Put (collection id : bytes) (vec : list Z) (meta : Metadata) (ver : VectorVersion) (vs : VectorStore) : VectorStore * option VErr :=
  match vs_cols vs !! collection with
  | None => (vs, Some ErrCollectionNotFound)
  | Some col =>
      if negb (len vec =? cDim (c_config col)) then (vs, Some ErrVecDim) else
      match EncodeVector vec meta ver with
      | Ok encoded =>
          let vectorKey := makeVectorKey collection id in
          if stale (vs_db vs) vectorKey ver then (vs, None) else
          let isUpdate := c_ids col !! id in
          if bool_decide (isUpdate = None) && (0 <? MaxVectors (c_config col)) && (MaxVectors (c_config col) <=? Z.of_nat (size (c_ids col)))
          then (vs, Some ErrMaxVectors) else
          match db_Put vectorKey encoded (vs_db vs) with
          | None => (vs, Some ErrKV)
          | Some db =>
              let vs := set_db db vs in
              let newID := c_nextID col in
              let col := mkCol (c_graph col) (c_config col) (c_ids col) (u64 (newID + 1)) in
              match HNSW.Insert dlt (dist (cMetric (c_config col))) sort newID id vec (level_of newID) (c_graph col) with
              | Ok graph =>
                  let graph := match isUpdate with Some old => MarkDeleted old graph | None => graph end in
                  (set_col collection (mkCol graph (c_config col) (<[id := newID]> (c_ids col)) (c_nextID col)) vs, None)
              | Err e => (set_col collection col vs, Some (ErrIndexingFailed e))
              | Panic => (vs, Some VPanic)
              end
          end
      | Err e => (vs, Some (ErrCodec e))
      | Panic => (vs, Some VPanic)
      end
  end.

Definition Delete (collection id : bytes) (ver : VectorVersion) (vs : VectorStore) : VectorStore * option VErr :=
  match vs_cols vs !! collection with
  | None => (vs, Some ErrCollectionNotFound)
  | Some col =>
      let vectorKey := makeVectorKey collection id in
      if stale (vs_db vs) vectorKey ver then (vs, None) else
      match c_ids col !! id with
      | None => (vs, None)
      | Some hnswID =>
          match db_Delete vectorKey (vs_db vs) with
          | None => (vs, Some ErrKV)
          | Some db => (set_col collection (mkCol (MarkDeleted hnswID (c_graph col)) (c_config col) (delete id (c_ids col)) (c_nextID col)) (set_db db vs), None)
          end
      end
  end.

(** ** Queries *)
(** The candidates that the store confirms, up to [k] of them. *)
Fixpoint verify (db : S) (collection : bytes) (k : Z) (cands : list (SearchResult D)) (results : list Result) : list Result :=
  match cands with
  | [] => results
  | c :: cands =>
      match db_Get db (makeVectorKey collection (rExternalID c)) with
      | Some val =>
          if Tombstone val then verify db collection k cands results else
          match DecodeVector (sl (Data val)) with
          | Ok (vec, meta, ver) =>
              let results := results ++ [mkRes (rExternalID c) vec meta (rDistance c) ver] in
              if len results =? k then results else verify db collection k cands results
          | _ => verify db collection k cands results
          end
      | None => verify db collection k cands results
      end
  end.
(** [efSearch] is [opts.EfSearch], 0 for nil options. *)
Definition Search (collection : bytes) (query : list Z) (k efSearch : Z) (vs : VectorStore) : outcome VErr (list Result) :=
  match vs_cols vs !! collection with
  | None => Err ErrCollectionNotFound
  | Some col =>
      let ef := if 0 <? efSearch then efSearch else k * 2 in
      match HNSW.Search dlt (dist (cMetric (c_config col))) sort (c_graph col) query ef ef with
      | Ok cands => if k <? 0 then Panic else Ok (verify (vs_db vs) collection k cands [])
      | Err e => Err (ErrGraph e)
      | Panic => Panic
      end
  end.

Definition GetLatest (collection id : bytes) (vs : VectorStore) : outcome VErr LatestEntry :=
  match vs_cols vs !! collection with
  | None => Err ErrCollectionNotFound
  | Some _ =>
      match db_Get (vs_db vs) (makeVectorKey collection id) with
      | None => Ok (mkLatest zeroVer [] false false)
      | Some val =>
          if Tombstone val then Ok (mkLatest zeroVer [] true true) else
          match DecodeVector (sl (Data val)) with
          | Ok (vec, _, ver) => Ok (mkLatest ver vec true false)
          | Err e => Err (ErrCodec e)
          | Panic => Panic
          end
      end
  end.
Definition GetCollectionConfig (name : bytes) (vs : VectorStore) : outcome VErr CollectionConfig :=
  match vs_cols vs !! name with Some col => Ok (c_config col) | None => Err ErrCollectionNotFound end.
Definition CollectionReady (name : bytes) (vs : VectorStore) : bool := match vs_cols vs !! name with Some _ => true | None => false end.
Definition CloseVectorStore (vs : VectorStore) : VectorStore := mkVS (vs_db vs) ∅ (vs_snapshots vs).

(** ** Recovery *)
Fixpoint loadConfigs (entries : list (bytes * Z * option bytes)) (cols : gmap bytes collectionState) : outcome VErr (gmap bytes collectionState) :=
  match entries with
  | [] => Ok cols
  | (userKey, _, value) :: entries =>
      match value with
      | None => loadConfigs entries cols
      | Some value =>
          match parseVectorKey userKey with
          | Ok (colName, _, kind) =>
              if bool_decide (kind = kindConfig) then
                match decodeCollectionConfig value with
                | Ok cfg =>
                    match MetricToDistanceFunc (cMetric cfg) with
                    | Ok _ =>
                        match HNSW.New (graphOptions cfg) with
                        | Ok graph => loadConfigs entries (<[colName := mkCol graph cfg ∅ 0]> cols)
                        | Err e => Err (ErrGraph e)
                        | Panic => Panic
                        end
                    | Err _ => loadConfigs entries cols
                    | Panic => Panic
                    end
                | Err _ => loadConfigs entries cols
                | Panic => Panic
                end
              else loadConfigs entries cols
          | Err _ => loadConfigs entries cols
          | Panic => Panic
          end
      end
  end.
Definition loadCollectionConfigs (db : S) : outcome VErr (gmap bytes collectionState) :=
  loadConfigs (db_ScanRange [keyPrefixVector] [Byte.x03] db) ∅.

(** Index one vector under the next node number; a refused insertion is logged. *)
Definition indexVector (uuid : bytes) (vec : list Z) (col : collectionState) : outcome VErr collectionState :=
  let id := c_nextID col in
  let col := mkCol (c_graph col) (c_config col) (c_ids col) (u64 (id + 1)) in
  match HNSW.Insert dlt (dist (cMetric (c_config col))) sort id uuid vec (level_of id) (c_graph col) with
  | Ok graph => Ok (mkCol graph (c_config col) (<[uuid := id]> (c_ids col)) (c_nextID col))
  | Err _ => Ok col
  | Panic => Panic
  end.
Fixpoint rebuildLoop (entries : list (bytes * Z * option bytes)) (col : collectionState) : outcome VErr collectionState :=
  match entries with
  | [] => Ok col
  | (userKey, _, value) :: entries =>
      match value with
      | None => rebuildLoop entries col
      | Some value =>
          match parseVectorKey userKey with
          | Ok (_, uuid, _) =>
              match DecodeVector value with
              | Ok (vec, _, _) => col ← indexVector uuid vec col; rebuildLoop entries col
              | Err _ => rebuildLoop entries col
              | Panic => Panic
              end
          | Err _ => rebuildLoop entries col
          | Panic => Panic
          end
      end
  end.
Definition collectionScan (name : bytes) (db : S) : list (bytes * Z * option bytes) :=
  db_ScanRange (makeVectorKeyPrefix name) (makeVectorKeyPrefixEnd name) db.
Definition fullRebuild (name : bytes) (db : S) (col : collectionState) : outcome VErr collectionState :=
  rebuildLoop (collectionScan name db) col.

(** The identifiers of the restored nodes. *)
Fixpoint restoreIDs (ns : list Node) (col : collectionState) : collectionState :=
  match ns with
  | [] => col
  | n :: ns =>
      restoreIDs ns (mkCol (c_graph col) (c_config col) (<[ExternalID n := ID n]> (c_ids col)) (if c_nextID col <=? ID n then u64 (ID n + 1) else c_nextID col))
  end.
Definition forget (uuid : bytes) (col : collectionState) : collectionState :=
  match c_ids col !! uuid with
  | Some oldID => mkCol (MarkDeleted oldID (c_graph col)) (c_config col) (delete uuid (c_ids col)) (c_nextID col)
  | None => col
  end.
(** An update marks the old node before it inserts the new one. *)
Definition markOld (uuid : bytes) (col : collectionState) : collectionState :=
  match c_ids col !! uuid with
  | Some oldID => mkCol (MarkDeleted oldID (c_graph col)) (c_config col) (c_ids col) (c_nextID col)
  | None => col
  end.
Fixpoint reconcileLoop (snapSeq : Z) (entries : list (bytes * Z * option bytes)) (unseen : gset bytes) (col : collectionState) : outcome VErr (gset bytes * collectionState) :=
  match entries with
  | [] => Ok (unseen, col)
  | (userKey, seqn, value) :: entries =>
      match parseVectorKey userKey with
      | Ok (_, uuid, _) =>
          let unseen := unseen ∖ {[uuid]} in
          match value with
          | None => reconcileLoop snapSeq entries unseen (forget uuid col)
          | Some value =>
              if seqn <=? snapSeq then reconcileLoop snapSeq entries unseen col else
              match DecodeVector value with
              | Ok (vec, _, _) => col ← indexVector uuid vec (markOld uuid col); reconcileLoop snapSeq entries unseen col
              | Err _ => reconcileLoop snapSeq entries unseen col
              | Panic => Panic
              end
          end
      | Err _ => reconcileLoop snapSeq entries unseen col
      | Panic => Panic
      end
  end.
Context (range_uuids : gset bytes -> list bytes) (range_cols : gmap bytes collectionState -> list bytes).
Definition loadFromSnapshot (dir : gmap bytes bytes) (name : bytes) (snap : SnapshotInfo) (db : S) (col : collectionState) : outcome VErr collectionState :=
  match dir !! si_Filename snap with
  | None => Err ErrSnapshot
  | Some file =>
      match ReadSnapshot file with
      | Ok data =>
          match RestoreFromSnapshot data (c_graph col) with
          | Ok graph =>
              let col := restoreIDs (sd_Nodes data) (mkCol graph (c_config col) (c_ids col) (c_nextID col)) in
              '(unseen, col) ← reconcileLoop (si_Seq snap) (collectionScan name db) (dom (c_ids col)) col;
              Ok (fold_left (fun col uuid => forget uuid col) (range_uuids unseen) col)
          | Err _ => Err ErrSnapshot
          | Panic => Panic
          end
      | Err _ => Err ErrSnapshot
      | Panic => Panic
      end
  end.
Definition loadCollection (dir : gmap bytes bytes) (snap : option SnapshotInfo) (name : bytes) (db : S) (col : collectionState) : outcome VErr collectionState :=
  match snap with
  | None => fullRebuild name db col
  | Some snap =>
      match loadFromSnapshot dir name snap db col with
      | Err _ =>
          match HNSW.New (graphOptions (c_config col)) with
          | Ok graph => fullRebuild name db (mkCol graph (c_config col) ∅ 0)
          | Err e => Err (ErrGraph e)
          | Panic => Panic
          end
      | r => r
      end
  end.
Fixpoint loadAll (dir : gmap bytes bytes) (snapshots : gmap bytes SnapshotInfo) (db : S) (names : list bytes) (cols : gmap bytes collectionState) : outcome VErr (gmap bytes collectionState) :=
  match names with
  | [] => Ok cols
  | name :: names =>
      match cols !! name with
      | None => loadAll dir snapshots db names cols
      | Some col => col ← loadCollection dir (snapshots !! name) name db col; loadAll dir snapshots db names (<[name := col]> cols)
      end
  end.
Definition NewVectorStore (dir : gmap bytes bytes) (snapshots : gmap bytes SnapshotInfo) (db : S) : outcome VErr VectorStore :=
  cols ← loadCollectionConfigs db;
  cols ← loadAll dir snapshots db (range_cols cols) cols;
  Ok (mkVS db cols snapshots).

(** ** Snapshots *)
Context (snapshotName : bytes -> Z -> bytes).
Definition snapshotCollection (name : bytes) (col : collectionState) (db : S) (dir : gmap bytes bytes) : gmap bytes bytes * outcome VErr SnapshotInfo :=
  let seqn := db_CurrentSeq db in
  let filename := snapshotName name seqn in
  match WriteSnapshot (c_graph col) seqn (cMetric (c_config col)) with
  | Ok file => (<[filename := file]> dir, Ok (mkSnap name seqn filename))
  | Err _ => (dir, Err ErrSnapshot)
  | Panic => (dir, Panic)
  end.
Fixpoint SnapshotAll (names : list bytes) (vs : VectorStore) (dir : gmap bytes bytes) : gmap bytes bytes * list SnapshotInfo :=
  match names with
  | [] => (dir, [])
  | name :: names =>
      match vs_cols vs !! name with
      | None => SnapshotAll names vs dir
      | Some col =>
          if GraphLen (c_graph col) =? 0 then SnapshotAll names vs dir else
          let '(dir, r) := snapshotCollection name col (vs_db vs) dir in
          let '(dir', infos) := SnapshotAll names vs dir in
          (dir', match r with Ok info => info :: infos | _ => infos end)
      end
  end.
End vector.
Arguments VectorStore : clear implicits.
Arguments mkVS {S} _ _ _.
Arguments Result : clear implicits.
