(* ===== verification/VectorProof.v ===== *)
(** * The index agrees with the store

    Over any run of collection creations, writes and deletions, the vectors that a
    query of a collection may answer are those the key-value store holds for it,
    and the indexing step never fails; a query answers stored vectors with their
    metadata, version and distance; the write with the greatest version wins.  A
    flaw: a deletion leaves no version behind, so an older write brings a deleted
    vector back. *)

From Stdlib Require Import ZArith Lia List Sorted.
From stdpp Require Import base list option gmap sorting relations.
From S2P Require Import Prelude GoBytes KV Entries KVStore Heap HNSW HNSWProof HNSWSpec HNSWSnapshot VecCodec VectorStore.
Open Scope Z_scope.

Section proof.
Context {S : Type} `{!KVStore S, !KVLaws S} {D : Type}.
Context (dlt : D -> D -> bool) (dist : Z -> list Z -> list Z -> D) (sort : list (heapItem D) -> list (heapItem D)).
Context (dlt_asym : forall x y, dlt x y = true -> dlt y x = false).
Context (dlt_negtrans : forall x y z, dlt y x = false -> dlt z y = false -> dlt z x = false).
Context (sort_perm : forall l, sort l ≡ₚ l) (sort_sorted : forall l, StronglySorted (item_le dlt) (sort l)).
Context (level_of : Z -> nat).
(** Keys of vectors are among the keys the store serves. *)
Context (Hkey : forall c id, len id = 16 -> key_ok (makeVectorKey c id)).
Abbreviation Put := (VectorStore.Put dlt dist sort level_of).
Abbreviation live := (live (F := Z)).
Implicit Types (vs : VectorStore S).

(** ** What the store holds *)
Definition stored_value (o : option Value) : option (list Z * Metadata * VectorVersion) :=
  match o with
  | Some val => if Tombstone val then None else match DecodeVector (sl (Data val)) with Ok r => Some r | _ => None end
  | None => None
  end.
Definition stored (db : S) (c u : bytes) := stored_value (contents db !! makeVectorKey c u).

Lemma makeVectorKey_inj c c' u u' : len c < 2^16 -> len c' < 2^16 -> makeVectorKey c u = makeVectorKey c' u' -> c = c' /\ u = u'.
Proof. intros Hc Hc' E. destruct (collectionKey_inj c c' kindVector kindVector u u' Hc Hc' E) as (? & _ & ?). done. Qed.
Lemma configKey_not_vector c c' u : len c < 2^16 -> len c' < 2^16 -> makeCollectionConfigKey c <> makeVectorKey c' u.
Proof. intros Hc Hc' E. unfold makeCollectionConfigKey in E. rewrite <-(app_nil_r (collectionKey _ _)) in E. by apply collectionKey_inj in E as (_ & ? & _). Qed.

Lemma stored_put db db' c u b vec meta ver c' u' :
  len c < 2^16 -> len c' < 2^16 -> db_Put (makeVectorKey c u) b db = Some db' -> DecodeVector b = Ok (vec, meta, ver) ->
  stored db' c' u' = if decide (c' = c /\ u' = u) then Some (vec, meta, ver) else stored db c' u'.
Proof.
  intros Hc Hc' E%law_put Hd. unfold stored. rewrite E. destruct (decide (c' = c /\ u' = u)) as [[-> ->]|Hne].
  - rewrite lookup_insert_eq. cbn. by rewrite Hd.
  - rewrite lookup_insert_ne; [done|]. intros [-> ->]%makeVectorKey_inj; [|done..]. by apply Hne.
Qed.
Lemma stored_delete db db' c u c' u' :
  len c < 2^16 -> len c' < 2^16 -> db_Delete (makeVectorKey c u) db = Some db' ->
  stored db' c' u' = if decide (c' = c /\ u' = u) then None else stored db c' u'.
Proof.
  intros Hc Hc' E%law_delete. unfold stored. rewrite E. destruct (decide (c' = c /\ u' = u)) as [[-> ->]|Hne].
  - by rewrite lookup_insert_eq.
  - rewrite lookup_insert_ne; [done|]. intros [-> ->]%makeVectorKey_inj; [|done..]. by apply Hne.
Qed.
Lemma stored_config db db' c b c' u' :
  len c < 2^16 -> len c' < 2^16 -> db_Put (makeCollectionConfigKey c) b db = Some db' -> stored db' c' u' = stored db c' u'.
Proof. intros Hc Hc' E%law_put. unfold stored. rewrite E, lookup_insert_ne; [done|by apply configKey_not_vector]. Qed.

(** ** The invariant *)
(** Between the nodes of the index that are not tombstones, the map of identifiers
    and the store; [n] bounds the node numbers used so far. *)
Record col_inv (n : Z) (st : bytes -> option (list Z * Metadata * VectorVersion)) (name : bytes) (col : collectionState) : Prop := {
  ci_name : len name < 2^16;
  ci_graph : graph_inv (c_graph col);
  ci_opts : opts (c_graph col) = graphOptions (c_config col);
  ci_ids : forall u i, c_ids col !! u = Some i -> len u = 16 /\ exists v meta ver, live (c_graph col) !! i = Some (u, v) /\ st u = Some (v, meta, ver);
  ci_live : forall i u v, live (c_graph col) !! i = Some (u, v) -> c_ids col !! u = Some i;
  ci_kv : forall u x, len u = 16 -> st u = Some x -> is_Some (c_ids col !! u);
  ci_next : 0 <= c_nextID col <= n;
  ci_fresh : forall i, c_nextID col <= i -> nodes (c_graph col) !! i = None
}.
Record vs_inv (n : Z) vs : Prop := {
  vi_cols : forall name col, vs_cols vs !! name = Some col -> col_inv n (stored (vs_db vs) name) name col;
  vi_kv : forall name u x, len name < 2^16 -> len u = 16 -> stored (vs_db vs) name u = Some x -> is_Some (vs_cols vs !! name)
}.

(** A collection does not depend on what the store holds for others. *)
Lemma col_inv_db n n' st st' name col : n <= n' -> (forall u, st' u = st u) -> col_inv n st name col -> col_inv n' st' name col.
Proof. intros Hn E [H1 H2 H3 H4 H5 H6 H7 H8]. split; try done; [intros u i; rewrite E; apply H4|intros u x Hu; rewrite E; by apply H6|lia]. Qed.

Lemma vs_inv_le n n' vs : n <= n' -> vs_inv n vs -> vs_inv n' vs.
Proof. intros Hn [V1 V2]. split; [|done]. intros name col E. eapply col_inv_db; [done|done|by apply V1]. Qed.

Lemma vs_inv_update n n' vs db' name col :
  n <= n' -> vs_inv n vs -> len name < 2^16 -> col_inv n' (stored db' name) name col ->
  (forall c u, c <> name -> len c < 2^16 -> stored db' c u = stored (vs_db vs) c u) -> vs_inv n' (set_col name col (set_db db' vs)).
Proof.
  intros Hnn [V1 V2] Hn Hc Hs. split; cbn.
  - intros name' col'. rewrite lookup_insert_Some. intros [[<- <-]|[Hne E]]; [done|]. specialize (V1 name' col' E). eapply col_inv_db; [done| |done].
    intros u. apply Hs; [congruence|apply V1].
  - intros c u x Hc' Hu. destruct (decide (c = name)) as [->|Hne]; [rewrite lookup_insert_eq; eauto|]. rewrite lookup_insert_ne, Hs by done. by apply V2.
Qed.

(** ** Creating a collection *)
Lemma New_empty o (g : Graph) : HNSW.New o = Ok g -> nodes g = ∅.
Proof. unfold HNSW.New. repeat case_match; naive_solver. Qed.

Lemma fresh_col n st name cfg g :
  HNSW.New (graphOptions cfg) = Ok g -> 0 <= n -> len name < 2^16 -> (forall u, len u = 16 -> st u = None) -> col_inv n st name (mkCol g cfg ∅ 0).
Proof.
  intros Eg Hn Hname Hs. pose proof (New_empty _ _ Eg) as E0. apply (graph_New_ok (F := Z)) in Eg as (H1 & H2 & H3).
  split; cbn; try done.
  - intros i u v. by rewrite H3, lookup_empty.
  - intros u x Hu. by rewrite Hs.
  - intros i _. by rewrite E0.
Qed.

Lemma Create_ok n name cfg vs : 0 <= n -> vs_inv n vs -> len name < 2^16 -> vs_inv n (CreateCollection name cfg vs).1.
Proof.
  intros Hn0 Hv Hn. unfold CreateCollection. destruct (MetricToDistanceFunc _); [|done..]. destruct (vs_cols vs !! name) as [|] eqn:E; [done|].
  destruct (HNSW.New (graphOptions cfg)) as [g| |] eqn:Eg; [|done..]. destruct (db_Put _ _ _) as [db|] eqn:Ep; [|done]. cbn.
  assert (forall c u, len c < 2^16 -> stored db c u = stored (vs_db vs) c u) as Hs by (intros c u Hc; exact (stored_config _ _ _ _ c u Hn Hc Ep)).
  apply (vs_inv_update n n); [lia|done|done| |intros; by apply Hs].
  apply fresh_col; [done..|]. intros u Hu. rewrite Hs by done. destruct (stored (vs_db vs) name u) as [x|] eqn:Ex; [|done].
  destruct (vi_kv n vs Hv name u x Hn Hu Ex) as [? Ec]. congruence.
Qed.

(** ** Writes *)
Definition internal (e : option VErr) : Prop := match e with Some (ErrIndexingFailed _) | Some VPanic | Some (ErrCodec _) => True | _ => False end.

(** The new node in the index of a collection, beside the entry in the store. *)
Lemma col_insert n st st' c col u vec meta ver g' :
  col_inv n st c col -> n < 2^64 - 1 -> len u = 16 ->
  HNSW.Insert dlt (dist (cMetric (c_config col))) sort (c_nextID col) u vec (level_of (c_nextID col)) (c_graph col) = Ok g' ->
  (forall u', st' u' = if decide (u' = u) then Some (vec, meta, ver) else st u') ->
  col_inv (n + 1) st' c (mkCol (match c_ids col !! u with Some old => MarkDeleted old g' | None => g' end) (c_config col) (<[u := c_nextID col]> (c_ids col)) (u64 (c_nextID col + 1))).
Proof using dlt_asym dlt_negtrans sort_perm.
  intros Hc Hn Hu Ei Hs. pose proof (Insert_ok dlt (dist (cMetric (c_config col))) dlt_asym dlt_negtrans sort sort_perm (c_nextID col) u vec (level_of (c_nextID col)) (c_graph col) (ci_graph _ _ _ _ Hc)) as HI.
  rewrite Ei in HI. destruct HI as (_ & Hfresh & Hg' & Eo & Et & Esh). pose proof (live_insert _ _ _ _ _ _ (ci_graph _ _ _ _ Hc) Hfresh Et Esh) as El.
  set (i := c_nextID col) in *. set (g2 := match c_ids col !! u with Some old => MarkDeleted old g' | None => g' end).
  assert (live g2 = <[i := (u, vec)]> (match c_ids col !! u with Some old => delete old (live (c_graph col)) | None => live (c_graph col) end)) as El2.
  { unfold g2. destruct (c_ids col !! u) as [old|] eqn:Eold; [|done]. rewrite live_delete, El. apply delete_insert_ne. intros ->.
    destruct (ci_ids _ _ _ _ Hc u i Eold) as (_ & v & ? & ? & Hv & _). unfold live in Hv. apply map_lookup_filter_Some in Hv as [Hv _].
    rewrite lookup_fmap, Hfresh in Hv. done. }
  assert (nodes g2 = nodes g' /\ opts g2 = opts g') as [En2 Eo2] by (unfold g2, MarkDeleted; repeat case_match; done).
  pose proof (ci_next _ _ _ _ Hc) as Hnx. fold i in Hnx. rewrite u64_small by lia.
  split; cbn.
  - apply Hc.
  - unfold g2. case_match; [by apply MarkDeleted_ok|done].
  - rewrite Eo2, Eo. apply Hc.
  - intros u' i'. rewrite lookup_insert_Some. intros [[<- <-]|[Hne E]].
    + split; [done|]. exists vec, meta, ver. rewrite El2, lookup_insert_eq. split; [done|]. by rewrite Hs, decide_True.
    + destruct (ci_ids _ _ _ _ Hc u' i' E) as (Hu' & v & m & w & Hl & Hst). split; [done|]. exists v, m, w. split.
      * rewrite El2, lookup_insert_ne; [|intros <-; unfold live in Hl; apply map_lookup_filter_Some in Hl as [Hl _]; by rewrite lookup_fmap, Hfresh in Hl].
        destruct (c_ids col !! u) as [old|] eqn:Eold; [|done]. rewrite lookup_delete_ne; [done|]. intros ->.
        destruct (ci_ids _ _ _ _ Hc u i' Eold) as (_ & ? & ? & ? & Hl' & _). congruence.
      * by rewrite Hs, decide_False by naive_solver.
  - intros i' u' v. rewrite El2, lookup_insert_Some. intros [[<- [= <- <-]]|[Hne E]]; [by rewrite lookup_insert_eq|].
    destruct (c_ids col !! u) as [old|] eqn:Eold.
    + apply lookup_delete_Some in E as [Hold E]. apply (ci_live _ _ _ _ Hc) in E. rewrite lookup_insert_ne; [done|]. intros <-. congruence.
    + apply (ci_live _ _ _ _ Hc) in E. rewrite lookup_insert_ne; [done|]. intros <-. congruence.
  - intros u' x Hu' Hx. destruct (decide (u' = u)) as [->|Hne]; [by rewrite lookup_insert_eq|]. rewrite lookup_insert_ne by done.
    rewrite Hs, decide_False in Hx by naive_solver. by apply (ci_kv _ _ _ _ Hc u' x).
  - lia.
  - intros j Hj. rewrite En2. assert (shape <$> (nodes g' !! j) = None) as Hj'.
    { rewrite <-lookup_fmap, Esh, lookup_insert_ne by lia. rewrite lookup_fmap, (ci_fresh _ _ _ _ Hc) by (fold i; lia). done. }
    by apply fmap_None in Hj'.
Qed.

(** With the checked dimension, a fresh number and no memory limit the index accepts every vector. *)
Lemma col_insert_succeeds n st c col u vec :
  col_inv n st c col -> len vec = cDim (c_config col) ->
  exists g', HNSW.Insert dlt (dist (cMetric (c_config col))) sort (c_nextID col) u vec (level_of (c_nextID col)) (c_graph col) = Ok g'.
Proof using dlt_asym dlt_negtrans sort_perm.
  intros Hc Hd. pose proof (Insert_ok dlt (dist (cMetric (c_config col))) dlt_asym dlt_negtrans sort sort_perm (c_nextID col) u vec (level_of (c_nextID col)) (c_graph col) (ci_graph _ _ _ _ Hc)) as HI.
  destruct (HNSW.Insert _ _ _ _ _ _ _ _) as [g'|e|]; [by exists g'| |done]. exfalso. rewrite (ci_opts _ _ _ _ Hc) in HI. destruct e; try done; cbn in HI; try lia.
  rewrite (ci_fresh _ _ _ _ Hc) in HI by lia. by destruct HI.
Qed.

(** What a write does to the stored vector, and that it never fails inside. *)
Lemma Put_ok n c u vec meta ver vs :
  vs_inv n vs -> 0 <= n < 2^64 - 1 -> len u = 16 -> vector_fits vec meta ver ->
  vs_inv (n + 1) (Put c u vec meta ver vs).1 /\ ~ internal (Put c u vec meta ver vs).2 /\
  (forall c' u', len c' < 2^16 -> stored (vs_db (Put c u vec meta ver vs).1) c' u' =
    if decide ((c' = c /\ u' = u) /\ (Put c u vec meta ver vs).2 = None /\ stale (vs_db vs) (makeVectorKey c u) ver = false) then Some (vec, meta, ver) else stored (vs_db vs) c' u').
Proof using dlt_asym dlt_negtrans sort_perm.
  intros Hv Hn Hu Hfit. assert (vs_inv (n + 1) vs) as Hv1 by (eapply vs_inv_le; [|done]; lia).
  unfold VectorStore.Put. destruct (vs_cols vs !! c) as [col|] eqn:Ec; [|split_and!; [done|tauto|intros; by rewrite decide_False by naive_solver]].
  pose proof (vi_cols _ _ Hv c col Ec) as Hc.
  destruct (Z.eqb_spec (len vec) (cDim (c_config col))) as [Hd|]; cbn [negb]; [|split_and!; [done|tauto|intros; by rewrite decide_False by naive_solver]].
  destruct (decode_encode vec meta ver Hfit) as (b & -> & Hdec). destruct (Hdec []) as [Hdec1 _]. rewrite app_nil_r in Hdec1.
  destruct (stale _ _ _) eqn:Est; [split_and!; [done|tauto|intros; by rewrite decide_False by naive_solver]|].
  destruct (_ && _ && _); [split_and!; [done|tauto|intros; by rewrite decide_False by naive_solver]|].
  destruct (db_Put _ _ _) as [db|] eqn:Ep; [|split_and!; [done|tauto|intros; by rewrite decide_False by naive_solver]].
  assert (forall c' u', len c' < 2^16 -> stored db c' u' = if decide (c' = c /\ u' = u) then Some (vec, meta, ver) else stored (vs_db vs) c' u') as Hs.
  { intros c' u' Hc'. eapply stored_put; [apply Hc|done..]. }
  cbn [c_graph c_config c_ids c_nextID].
  destruct (col_insert_succeeds n (stored (vs_db vs) c) c col u vec Hc Hd) as (g' & Ei). rewrite Ei.
  split_and!; [|tauto|].
  - cbn [fst]. eapply (vs_inv_update n); [lia|done|apply Hc|eapply (col_insert n (stored (vs_db vs) c)); [done|lia|done|done|]; intros u'; rewrite Hs by apply Hc; destruct (decide (u' = u)) as [->|]; [by rewrite decide_True|by rewrite decide_False by naive_solver]|]. intros c' u' Hne Hc'. rewrite Hs, decide_False by naive_solver. done.
  - intros c' u' Hc'. cbn. rewrite Hs by done. destruct (decide (c' = c /\ u' = u)) as [He|He]; [rewrite decide_True by done|rewrite decide_False by naive_solver]; done.
Qed.

(** ** Deletions *)
Lemma col_delete n st st' c col u i :
  col_inv n st c col -> c_ids col !! u = Some i ->
  (forall u', st' u' = if decide (u' = u) then None else st u') ->
  col_inv n st' c (mkCol (MarkDeleted i (c_graph col)) (c_config col) (delete u (c_ids col)) (c_nextID col)).
Proof.
  intros Hc Ei Hs. destruct (ci_ids _ _ _ _ Hc u i Ei) as (Hu & v & m & w & Hl & Hst).
  assert (nodes (MarkDeleted i (c_graph col)) = nodes (c_graph col) /\ opts (MarkDeleted i (c_graph col)) = opts (c_graph col)) as [En Eo] by (unfold MarkDeleted; by case_match).
  split; cbn; rewrite ?En, ?Eo, ?live_delete; try apply Hc.
  - apply MarkDeleted_ok, Hc.
  - intros u' i' [Hne E]%lookup_delete_Some. destruct (ci_ids _ _ _ _ Hc u' i' E) as (Hu' & v' & m' & w' & Hl' & Hst').
    split; [done|]. exists v', m', w'. split.
    + rewrite lookup_delete_ne; [done|]. intros ->. congruence.
    + by rewrite Hs, decide_False by naive_solver.
  - intros i' u' v' [Hne E]%lookup_delete_Some. apply (ci_live _ _ _ _ Hc) in E. rewrite lookup_delete_ne; [done|]. intros <-. congruence.
  - intros u' x Hu' Hx. destruct (decide (u' = u)) as [->|Hne]; [by rewrite Hs, decide_True in Hx|].
    rewrite lookup_delete_ne by done. rewrite Hs, decide_False in Hx by naive_solver. by apply (ci_kv _ _ _ _ Hc u' x).
Qed.

Lemma Delete_ok n c u ver vs :
  vs_inv n vs -> len u = 16 ->
  vs_inv n (Delete c u ver vs).1 /\ ~ internal (Delete c u ver vs).2 /\
  (forall c' u', len c' < 2^16 -> len u' = 16 -> stored (vs_db (Delete c u ver vs).1) c' u' =
    if decide ((c' = c /\ u' = u) /\ (Delete c u ver vs).2 = None /\ stale (vs_db vs) (makeVectorKey c u) ver = false) then None else stored (vs_db vs) c' u').
Proof.
  intros Hv Hu. unfold Delete. destruct (vs_cols vs !! c) as [col|] eqn:Ec; [|split_and!; [done|tauto|intros; by rewrite decide_False by naive_solver]].
  pose proof (vi_cols _ _ Hv c col Ec) as Hc.
  destruct (stale _ _ _) eqn:Est; [split_and!; [done|tauto|intros; by rewrite decide_False by naive_solver]|].
  destruct (c_ids col !! u) as [i|] eqn:Ei.
  2:{ split_and!; [done|tauto|]. intros c' u' Hc' Hu'. cbn. destruct (decide _) as [[[-> ->] _]|]; [|done]. destruct (stored (vs_db vs) c u) as [x|] eqn:Ex; [|done].
      destruct (ci_kv _ _ _ _ Hc u x Hu Ex). congruence. }
  destruct (db_Delete _ _) as [db|] eqn:Ep; [|split_and!; [done|tauto|intros; by rewrite decide_False by naive_solver]].
  assert (forall c' u', len c' < 2^16 -> stored db c' u' = if decide (c' = c /\ u' = u) then None else stored (vs_db vs) c' u') as Hs.
  { intros c' u' Hc'. apply (stored_delete (vs_db vs) db c u); [apply Hc|done..]. }
  split_and!; [|tauto|].
  - cbn [fst]. eapply (vs_inv_update n); [lia|done|apply Hc|eapply (col_delete n (stored (vs_db vs) c)); [done..|]; intros u'; rewrite Hs by apply Hc; destruct (decide (u' = u)) as [->|]; [by rewrite decide_True|by rewrite decide_False by naive_solver]|]. intros c' u' Hne Hc'. rewrite Hs, decide_False by naive_solver. done.
  - intros c' u' Hc' _. cbn. rewrite Hs by done. destruct (decide (c' = c /\ u' = u)) as [He|He]; [rewrite decide_True by done|rewrite decide_False by naive_solver]; done.
Qed.

(** ** Runs *)
Inductive vop :=
| VCreate (name : bytes) (cfg : CollectionConfig)
| VPut (c id : bytes) (vec : list Z) (meta : Metadata) (ver : VectorVersion)
| VDelete (c id : bytes) (ver : VectorVersion).
(** Identifiers are 16 bytes; names, vectors and metadata fit their encoding. *)
Definition vop_ok (o : vop) : Prop :=
  match o with
  | VCreate name _ => len name < 2^16
  | VPut c id vec meta ver => len id = 16 /\ vector_fits vec meta ver
  | VDelete c id _ => len id = 16
  end.
Definition vstep (o : vop) vs : VectorStore S * option VErr :=
  match o with
  | VCreate name cfg => CreateCollection name cfg vs
  | VPut c id vec meta ver => Put c id vec meta ver vs
  | VDelete c id ver => Delete c id ver vs
  end.
(** The final state and the errors of the operations, in order. *)
Fixpoint vrun (os : list vop) vs : VectorStore S * list (option VErr) :=
  match os with
  | [] => (vs, [])
  | o :: os => let '(vs, e) := vstep o vs in let '(vs, es) := vrun os vs in (vs, e :: es)
  end.

Lemma vstep_ok n o vs :
  vs_inv n vs -> 0 <= n < 2^64 - 1 -> vop_ok o -> vs_inv (n + 1) (vstep o vs).1 /\ (match o with VCreate _ _ => True | _ => ~ internal (vstep o vs).2 end).
Proof using dlt_asym dlt_negtrans sort_perm.
  intros Hv Hn Ho. destruct o as [name cfg|c id vec meta ver|c id ver]; cbn [vstep].
  - split; [|done]. eapply vs_inv_le; [|apply Create_ok; [apply Hn|done..]]. lia.
  - destruct Ho as [Hid Hf]. destruct (Put_ok n c id vec meta ver vs) as (? & ? & _); done.
  - destruct (Delete_ok n c id ver vs) as (? & ? & _); [done..|]. split; [|done]. eapply vs_inv_le; [|done]. lia.
Qed.

Lemma vrun_ok n os vs :
  vs_inv n vs -> 0 <= n -> n + len os < 2^64 -> Forall vop_ok os ->
  vs_inv (n + len os) (vrun os vs).1 /\ Forall2 (fun o e => match o with VCreate _ _ => True | _ => ~ internal e end) os (vrun os vs).2.
Proof using dlt_asym dlt_negtrans sort_perm.
  revert n vs. induction os as [|o os IH]; intros n vs Hv Hn Hlen Hok.
  - split; [|constructor]. change (len (@nil vop)) with 0. by rewrite Z.add_0_r.
  - apply Forall_cons in Hok as [Ho Hok]. rewrite len_cons in *. pose proof (len_nonneg os). destruct (vstep_ok n o vs Hv ltac:(lia) Ho) as [H1 H2].
    cbn [vrun]. destruct (vstep o vs) as [vs1 e]. destruct (IH (n + 1) vs1 H1 ltac:(lia) ltac:(lia) Hok) as [H3 H4]. destruct (vrun os vs1) as [vs2 es]. cbn in *.
    split; [|by constructor]. replace (n + (1 + len os)) with (n + 1 + len os) by lia. done.
Qed.

(** The vectors of an index that a query may answer are those stored, once each. *)
Definition index_matches (st : bytes -> option (list Z * Metadata * VectorVersion)) (g : Graph) : Prop :=
  graph_inv g /\
  (forall u v, len u = 16 -> (exists i, live g !! i = Some (u, v)) <-> exists meta ver, st u = Some (v, meta, ver)) /\
  (forall i j u v w, live g !! i = Some (u, v) -> live g !! j = Some (u, w) -> i = j).
Lemma col_inv_matches n st c col : col_inv n st c col -> index_matches st (c_graph col).
Proof.
  intros Hc. split; [apply Hc|]. split.
  - intros u v Hu. split.
    + intros (i & El). destruct (ci_ids _ _ _ _ Hc u i (ci_live _ _ _ _ Hc _ _ _ El)) as (_ & v' & m & w & El' & Hs). rewrite El in El'. injection El' as <-. eauto.
    + intros (m & w & Hs). destruct (ci_kv _ _ _ _ Hc u _ Hu Hs) as [i Ei]. destruct (ci_ids _ _ _ _ Hc u i Ei) as (_ & v' & m' & w' & El & Hs').
      exists i. rewrite Hs in Hs'. by injection Hs' as <- _ _.
  - intros i j u v w H1%(ci_live _ _ _ _ Hc) H2%(ci_live _ _ _ _ Hc). congruence.
Qed.

(** A store with no vector and no collection. *)
Lemma vs_inv_empty vs : vs_cols vs = ∅ -> (forall c u, len c < 2^16 -> len u = 16 -> stored (vs_db vs) c u = None) -> vs_inv 0 vs.
Proof. intros E H. split; [intros ??; by rewrite E, lookup_empty|]. intros c u x Hc Hu Hx. by rewrite H in Hx. Qed.

(** C4: The index agrees with the store.  From an empty database, over any run of less
    than 2^64 creations of collections, writes and deletions, whatever levels the
    index draws and whichever accesses to the database fail: no write or deletion
    ends in a panic or in the error of an entry that is stored but not indexed; and
    the vectors of a collection that a query may answer are those the database
    holds for it, each with the components stored and once only. *)
Theorem vector_index_consistent vs os :
  vs_cols vs = ∅ -> (forall c u, len c < 2^16 -> len u = 16 -> stored (vs_db vs) c u = None) -> Forall vop_ok os -> len os < 2^64 ->
  Forall2 (fun o e => match o with VCreate _ _ => True | _ => ~ internal e end) os (vrun os vs).2 /\
  (forall c col, vs_cols (vrun os vs).1 !! c = Some col -> index_matches (stored (vs_db (vrun os vs).1) c) (c_graph col)) /\
  (forall c u x, len c < 2^16 -> len u = 16 -> stored (vs_db (vrun os vs).1) c u = Some x -> is_Some (vs_cols (vrun os vs).1 !! c)).
Proof using dlt_asym dlt_negtrans sort_perm.
  intros Hc0 Hdb Hok Hlen. destruct (vrun_ok 0 os vs (vs_inv_empty vs Hc0 Hdb) ltac:(lia) Hlen Hok) as [Hv He].
  split; [done|]. split; [|by intros; eapply Hv]. intros c col Ec. eapply col_inv_matches. by apply (vi_cols _ _ Hv).
Qed.

(** ** Queries *)
Definition res_le (a b : Result D) : Prop := dle dlt (res_Distance a) (res_Distance b).
(** The result the store gives for a candidate. *)
Definition result_of (db : S) (c : bytes) (r : SearchResult D) : option (Result D) :=
  '(v, m, w) ← stored db c (rExternalID r); Some (mkRes (rExternalID r) v m (rDistance r) w).

Lemma verify_spec db c k cands acc :
  (forall r, r ∈ cands -> len (rExternalID r) = 16 /\ is_Some (stored db c (rExternalID r))) -> len acc < k ->
  verify db c k cands acc = acc ++ omap (result_of db c) (take (Z.to_nat (k - len acc)) cands).
Proof using Hkey.
  revert acc. induction cands as [|r cands IH]; intros acc Hin Hacc; [cbn; rewrite take_nil; cbn; by rewrite app_nil_r|].
  destruct (Hin r ltac:(left)) as [Hr [[[v m] w] Hs]].
  replace (Z.to_nat (k - len acc)) with (Datatypes.S (Z.to_nat (k - len acc - 1))) by lia. cbn [verify take omap list_omap].
  unfold result_of at 1. rewrite Hs. cbn. unfold stored, stored_value in Hs. rewrite law_get by by apply Hkey.
  destruct (contents db !! _) as [val|]; [|done]. destruct (Tombstone val); [done|]. destruct (DecodeVector (sl (Data val))) as [[[v' m'] w']| |]; [|done..].
  injection Hs as -> -> ->. destruct (Z.eqb_spec (len (acc ++ [mkRes (rExternalID r) v m (rDistance r) w])) k) as [El|El]; rewrite len_app, len_cons in El; change (len (@nil (Result D))) with 0 in El.
  - replace (Z.to_nat (k - len acc - 1)) with 0%nat by lia. done.
  - rewrite IH; [|intros; apply Hin; by right|rewrite len_app, len_cons; change (len (@nil (Result D))) with 0; lia].
    rewrite <-app_assoc. cbn. do 4 f_equal. rewrite len_app, len_cons. change (len (@nil (Result D))) with 0. lia.
Qed.

Lemma omap_Forall2 {A B} (f : A -> option B) l : Forall (fun x => is_Some (f x)) l -> Forall2 (fun x y => f x = Some y) l (omap f l).
Proof. induction 1 as [|x l [y E] _ IH]; cbn; [constructor|]. rewrite E. by constructor. Qed.

Lemma results_ids db c cs rs : Forall2 (fun x y => result_of db c x = Some y) cs rs -> map res_ID rs = map rExternalID cs.
Proof.
  induction 1 as [|x y cs rs E _ IH]; [done|]. cbn. rewrite IH. f_equal. unfold result_of in E. destruct (stored _ _ _) as [[[v m] w]|]; [|done]. by injection E as <-.
Qed.
Lemma result_distance db c x y : result_of db c x = Some y -> res_Distance y = rDistance x.
Proof. unfold result_of. destruct (stored _ _ _) as [[[v m] w]|]; [|done]. by intros [= <-]. Qed.
Lemma results_sorted db c cs rs :
  StronglySorted (result_le dlt) cs -> Forall2 (fun x y => result_of db c x = Some y) cs rs -> StronglySorted res_le rs.
Proof.
  intros Hs HF. induction HF as [|x y cs rs E HF IH]; [constructor|]. apply StronglySorted_inv in Hs as [Hs Hx]. constructor; [auto|]. clear IH Hs.
  induction HF as [|x' y' cs rs E' HF IH]; [constructor|]. apply Forall_cons in Hx as [H1 H2]. constructor; [|auto].
  unfold res_le. by rewrite (result_distance _ _ _ _ E), (result_distance _ _ _ _ E').
Qed.
Lemma StronglySorted_take {A} (R : A -> A -> Prop) l k : StronglySorted R l -> StronglySorted R (take k l).
Proof. rewrite <-(take_drop k l) at 1. by intros (_ & ? & _)%StronglySorted_app. Qed.
Lemma NoDup_map_by {A B C} (f : A -> B) (g : A -> C) l : (forall x y, x ∈ l -> y ∈ l -> f x = f y -> g x = g y) -> NoDup (map g l) -> NoDup (map f l).
Proof.
  induction l as [|x l IH]; intros H Hnd; [constructor|]. cbn in *. apply NoDup_cons in Hnd as [Hx Hnd]. constructor.
  - intros (y & E & Hy)%list_elem_of_fmap. apply Hx. rewrite (H x y); [by apply list_elem_of_fmap_2|left|by right|done].
  - apply IH; [|done]. intros a b Ha Hb. apply H; by right.
Qed.

(** C22: Queries.  On a consistent store a query of an existing collection with [k] at
    least 1 fails only for a vector of another dimension, or on an index that never
    held a vector, when nothing is stored.  It answers the first [k] candidates of
    the index, none of which the store refutes: at most [k] distinct stored vectors
    with their components, metadata and version and the distance from the query,
    in ascending order of distance. *)
Theorem vector_search n c col q k efSearch vs :
  vs_inv n vs -> vs_cols vs !! c = Some col -> 1 <= k ->
  match Search dlt dist sort c q k efSearch vs with
  | Ok rs =>
      len rs <= k /\ NoDup (map res_ID rs) /\ StronglySorted res_le rs /\
      (forall r, r ∈ rs -> stored (vs_db vs) c (res_ID r) = Some (res_Vector r, res_Metadata r, res_Version r) /\ res_Distance r = dist (cMetric (c_config col)) q (res_Vector r)) /\
      exists cands, HNSW.Search dlt (dist (cMetric (c_config col))) sort (c_graph col) q (if 0 <? efSearch then efSearch else k * 2) (if 0 <? efSearch then efSearch else k * 2) = Ok cands /\
        map res_ID rs = take (Z.to_nat k) (map rExternalID cands)
  | Err (ErrGraph ErrDimensionMismatch) => len q <> cDim (c_config col)
  | Err (ErrGraph ErrEmptyGraph) => forall u, len u = 16 -> stored (vs_db vs) c u = None
  | _ => False
  end.
Proof using Hkey dlt_asym dlt_negtrans sort_perm sort_sorted.
  intros Hv Ec Hk. unfold VectorStore.Search. rewrite Ec. set (ef := if 0 <? efSearch then efSearch else k * 2).
  assert (0 <= ef) as Hef by (subst ef; destruct (Z.ltb_spec 0 efSearch); lia). pose proof (vi_cols _ _ Hv c col Ec) as Hc.
  pose proof (hnsw_answer dlt (dist (cMetric (c_config col))) dlt_asym dlt_negtrans sort sort_perm sort_sorted (c_graph col) q ef ef (ci_graph _ _ _ _ Hc) Hef) as Hans.
  rewrite (ci_opts _ _ _ _ Hc) in Hans. destruct (HNSW.Search _ _ _ _ _ _ _) as [cands|e|]; [|destruct e; try done|done].
  - rewrite (proj2 (Z.ltb_ge k 0)) by lia. destruct Hans as (ep & _ & _ & [A1 A2 A3 A4] & _).
    assert (forall r, r ∈ cands -> c_ids col !! rExternalID r = Some (rID r) /\ exists v, live (c_graph col) !! rID r = Some (rExternalID r, v) /\ rDistance r = dist (cMetric (c_config col)) q v) as Hcand.
    { intros r (_ & Ht & m & En & Ex & Ed)%A4. assert (live (c_graph col) !! rID r = Some (rExternalID r, Vector m)) as El.
      { unfold HNSWSpec.live. apply map_lookup_filter_Some. split; [|done]. rewrite lookup_fmap, En, Ex. done. }
      split; [by eapply ci_live|]. eauto. }
    set (cs := take (Z.to_nat k) cands). assert (forall r, r ∈ cs -> r ∈ cands) as Hsub by (intros r; apply subseteq_take).
    assert (verify (vs_db vs) c k cands [] = omap (result_of (vs_db vs) c) cs) as ->.
    { rewrite verify_spec; [cbn; by rewrite Z.sub_0_r| |change (len (@nil (Result D))) with 0; lia]. intros r [E _]%Hcand. destruct (ci_ids _ _ _ _ Hc _ _ E) as (? & v & m & w & _ & ->). eauto. }
    assert (Forall2 (fun x y => result_of (vs_db vs) c x = Some y) cs (omap (result_of (vs_db vs) c) cs)) as HF.
    { apply omap_Forall2, Forall_forall. intros r [E _]%Hsub%Hcand. destruct (ci_ids _ _ _ _ Hc _ _ E) as (_ & v & m & w & _ & Es). unfold result_of. rewrite Es. eauto. }
    set (rs := omap _ cs) in *.
    assert (map res_ID rs = map rExternalID cs) as Hids by (by apply (results_ids (vs_db vs) c)).
    split; [unfold len; rewrite <-(Forall2_length _ _ _ HF); unfold cs; rewrite length_take; lia|].
    split; [rewrite Hids; apply NoDup_map_by with (g := rID); [|unfold cs; rewrite <-firstn_map; by eapply sublist_NoDup; [|apply sublist_take]]|].
    { intros x y Hx Hy E. destruct (Hcand x (Hsub x Hx)) as [Ex _], (Hcand y (Hsub y Hy)) as [Ey _]. congruence. }
    split; [by eapply results_sorted; [|exact HF]; apply StronglySorted_take|].
    split; [|exists cands; split; [done|]; rewrite Hids; apply map_firstn || (unfold cs; by rewrite firstn_map)].
    intros r [i Hi]%list_elem_of_lookup. destruct (Forall2_lookup_r _ _ _ _ _ HF Hi) as (x & Hx & Er). apply list_elem_of_lookup_2, Hsub, Hcand in Hx as (E & v & El & Ed).
    destruct (ci_ids _ _ _ _ Hc _ _ E) as (_ & v' & m & w & El' & Es). rewrite El in El'. injection El' as <-. unfold result_of in Er. rewrite Es in Er. cbn in Er. injection Er as <-. done.
  - intros u Hu. destruct (stored (vs_db vs) c u) as [x|] eqn:Ex; [|done]. destruct (ci_kv _ _ _ _ Hc u x Hu Ex) as [i Ei].
    destruct (ci_ids _ _ _ _ Hc u i Ei) as (_ & v & _ & _ & El & _). unfold HNSWSpec.live in El. by rewrite Hans, fmap_empty, map_filter_empty, lookup_empty in El.
Qed.

(** ** The last writer wins *)
Lemma After_irrefl v : After v v = false.
Proof. unfold After. rewrite Z.eqb_refl. cbn. lia. Qed.
Lemma After_trans a b c : After a b = true -> After c b = false -> After c a = false.
Proof. unfold After. repeat case_match; lia. Qed.

(** The acknowledged writes of one vector in a run. *)
Fixpoint acked (c u : bytes) (os : list vop) (es : list (option VErr)) : list (list Z * Metadata * VectorVersion) :=
  match os, es with
  | VPut c' u' vec meta ver :: os, None :: es => if decide (c' = c /\ u' = u) then (vec, meta, ver) :: acked c u os es else acked c u os es
  | _ :: os, _ :: es => acked c u os es
  | _, _ => []
  end.
(** Only versioned writes. *)
Definition versioned (o : vop) : Prop := match o with VPut _ _ _ _ ver => ver_IsZero ver = false | _ => False end.

(** The entry of a key whose greatest write, of those in [ps], is stored. *)
Definition greatest (e : option Value) (ps : list (list Z * Metadata * VectorVersion)) : Prop :=
  match e with
  | None => ps = []
  | Some val => Tombstone val = false /\ exists x, DecodeVector (sl (Data val)) = Ok x /\ DecodeVectorVersion (sl (Data val)) = Ok x.2 /\ x ∈ ps /\ forall y, y ∈ ps -> After y.2 x.2 = false
  end.

(** A write that is acknowledged is stale or stored. *)
Lemma Put_effect n c u vec meta ver vs :
  vs_inv n vs -> 0 <= n < 2^64 - 1 -> len u = 16 -> vector_fits vec meta ver ->
  let r := Put c u vec meta ver vs in
  vs_db r.1 = vs_db vs /\ (r.2 = None -> stale (vs_db vs) (makeVectorKey c u) ver = true) \/
  stale (vs_db vs) (makeVectorKey c u) ver = false /\ r.2 = None /\ len c < 2^16 /\ (exists col, vs_cols vs !! c = Some col /\ len vec = cDim (c_config col)) /\
    exists b, DecodeVector b = Ok (vec, meta, ver) /\ DecodeVectorVersion b = Ok ver /\ contents (vs_db r.1) = <[makeVectorKey c u := NewValue (Some b)]> (contents (vs_db vs)).
Proof using dlt_asym dlt_negtrans sort_perm.
  intros Hv Hn Hu Hfit. destruct (Put_ok n c u vec meta ver vs Hv Hn Hu Hfit) as (_ & Hint & _). revert Hint. unfold VectorStore.Put.
  destruct (vs_cols vs !! c) as [col|] eqn:Ec; [|by left]. pose proof (vi_cols _ _ Hv c col Ec) as Hc. destruct (Z.eqb_spec (len vec) (cDim (c_config col))) as [Hd|]; cbn [negb]; [|by left].
  destruct (decode_encode vec meta ver Hfit) as (b & -> & Hdec). destruct (Hdec []) as [Hdec1 Hdec2]. rewrite app_nil_r in Hdec1, Hdec2.
  destruct (stale _ _ _) eqn:Est; [by left|]. destruct (_ && _ && _); [by left|]. destruct (db_Put _ _ _) as [db|] eqn:Ep; [|by left]. apply law_put in Ep.
  cbn [c_graph c_config c_ids c_nextID]. destruct (HNSW.Insert _ _ _ _ _ _ _ _) as [g'|e|]; cbn; [|tauto..]. intros _. right. split_and!; [done..|apply Hc|by exists col|]. by exists b.
Qed.

Lemma greatest_step n c u o vs ps :
  vs_inv n vs -> 0 <= n < 2^64 - 1 -> vop_ok o -> versioned o -> len c < 2^16 -> len u = 16 -> greatest (contents (vs_db vs) !! makeVectorKey c u) ps ->
  greatest (contents (vs_db (vstep o vs).1) !! makeVectorKey c u) (ps ++ acked c u [o] [(vstep o vs).2]).
Proof using Hkey dlt_asym dlt_negtrans sort_perm.
  intros Hv Hn Ho Hver Hc Hu Hg. destruct o as [|c' u' vec meta ver|]; [done| |done]. destruct Ho as [Hu' Hfit]. cbn [vstep versioned] in *.
  assert (acked c u [VPut c' u' vec meta ver] [(Put c' u' vec meta ver vs).2] = if decide ((c' = c /\ u' = u) /\ (Put c' u' vec meta ver vs).2 = None) then [(vec, meta, ver)] else []) as ->.
  { cbn. destruct (Put c' u' vec meta ver vs).2; [by rewrite decide_False by naive_solver|]. destruct (decide (c' = c /\ u' = u)); [by rewrite decide_True|by rewrite decide_False by naive_solver]. }
  destruct (Put_effect n c' u' vec meta ver vs Hv Hn Hu' Hfit) as [[-> Hst]|(Hst & -> & Hc' & _ & b & D1 & D2 & ->)].
  - destruct (decide _) as [[[-> ->] E]|]; [|by rewrite app_nil_r]. specialize (Hst E). unfold stale in Hst. rewrite Hver, law_get in Hst by by apply Hkey.
    destruct (contents (vs_db vs) !! _) as [val|]; [|done]. destruct Hg as [Ht (x & Hx1 & Hx2 & Hx3 & Hx4)]. rewrite Ht, Hx2 in Hst. apply negb_true_iff in Hst.
    split; [done|]. exists x. split_and!; [done..|by apply elem_of_app; left|]. intros y [Hy| ->%list_elem_of_singleton]%elem_of_app; [by apply Hx4|done].
  - destruct (decide (c' = c /\ u' = u)) as [[-> ->]|Hne].
    + rewrite decide_True, lookup_insert_eq by done. split; [done|]. exists (vec, meta, ver). split_and!; [done..|apply elem_of_app; right; left|].
      intros y [Hy| ->%list_elem_of_singleton]%elem_of_app; [|apply After_irrefl]. unfold stale in Hst. rewrite Hver, law_get in Hst by by apply Hkey.
      destruct (contents (vs_db vs) !! _) as [val|]; [|by rewrite Hg in Hy; apply not_elem_of_nil in Hy]. destruct Hg as [Ht (x & Hx1 & Hx2 & Hx3 & Hx4)].
      rewrite Ht, Hx2 in Hst. apply negb_false_iff in Hst. eapply After_trans; [exact Hst|]. by apply Hx4.
    + rewrite decide_False, app_nil_r by naive_solver. rewrite lookup_insert_ne; [done|]. intros [-> ->]%makeVectorKey_inj; [|done..]. by apply Hne.
Qed.

(** C7: The greatest version wins.  Over any run of versioned writes, in any order, of
    any vectors: once a write of a vector that was never stored before has been
    acknowledged, the store holds an acknowledged write of it, whole, and no
    acknowledged write of it has a greater version. *)
Theorem vector_lww n c u vs os :
  vs_inv n vs -> 0 <= n -> n + len os < 2^64 -> Forall vop_ok os -> Forall versioned os -> len c < 2^16 -> len u = 16 ->
  contents (vs_db vs) !! makeVectorKey c u = None ->
  let ps := acked c u os (vrun os vs).2 in
  match stored (vs_db (vrun os vs).1) c u with
  | None => ps = []
  | Some x => x ∈ ps /\ forall y, y ∈ ps -> After y.2 x.2 = false
  end.
Proof using Hkey dlt_asym dlt_negtrans sort_perm.
  intros Hv Hn Hlen Hok Hver Hc Hu E0. assert (greatest (contents (vs_db vs) !! makeVectorKey c u) []) as Hg by by rewrite E0.
  enough (greatest (contents (vs_db (vrun os vs).1) !! makeVectorKey c u) ([] ++ acked c u os (vrun os vs).2)) as H.
  { cbn in H |- *. unfold stored, stored_value. destruct (contents (vs_db (vrun os vs).1) !! _) as [val|]; [|done]. destruct H as (-> & x & -> & _ & H). done. }
  clear E0. revert n vs Hv Hn Hlen Hg. generalize (@nil (list Z * Metadata * VectorVersion)) as ps. induction os as [|o os IH]; intros ps n vs Hv Hn Hlen Hg; [by rewrite app_nil_r|].
  apply Forall_cons in Hok as [Ho Hok]. apply Forall_cons in Hver as [Hov Hver]. rewrite len_cons in *. pose proof (len_nonneg os).
  pose proof (greatest_step n c u o vs ps Hv ltac:(lia) Ho Hov Hc Hu Hg) as Hg1. destruct (vstep_ok n o vs Hv ltac:(lia) Ho) as [Hv1 _].
  cbn [vrun]. destruct (vstep o vs) as [vs1 e]. specialize (IH Hok Hver _ (n + 1) vs1 Hv1 ltac:(lia) ltac:(lia) Hg1). destruct (vrun os vs1) as [vs2 es]. cbn [fst snd] in *.
  rewrite <-app_assoc in IH. replace (acked c u (o :: os) (e :: es)) with (acked c u [o] [e] ++ acked c u os es); [done|]. cbn. destruct o as [|c' u' vec meta ver|]; [done| |done]. destruct e; [done|]. by case_decide.
Qed.
End proof.

(** ** A run *)
Definition x_vs : VectorStore (gmap bytes Value) := mkVS ∅ ∅ ∅.
Definition x_cfg : CollectionConfig := mkCollection 2 MetricL2 2 4 4 0.
Definition x_id (b : Byte.byte) : bytes := replicate 16 b.
Definition x_col : bytes := [Byte.x63].
Definition x_ops : list vop :=
  [VCreate x_col x_cfg; VPut x_col (x_id Byte.x01) [1; 1] ∅ (mkVer 10 0); VPut x_col (x_id Byte.x02) [5; 5] ex_meta (mkVer 20 0);
   VPut x_col (x_id Byte.x01) [2; 2] ∅ (mkVer 30 0); VPut x_col (x_id Byte.x02) [9; 9] ∅ (mkVer 15 0); VDelete x_col (x_id Byte.x01) (mkVer 40 0)].
Definition x_run := vrun Z.ltb (fun _ => sq_dist) sort_dist (fun _ => 0%nat).

Lemma x_fits vec meta w :
  len vec < 2^16 -> Forall (fun x => 0 <= x < 2^32) vec -> meta = ∅ \/ meta = ex_meta -> 0 <= w < 2^63 -> vector_fits vec meta (mkVer w 0).
Proof.
  intros H1 H2 Hm Hw. split_and!; [done|done|by destruct Hm as [-> | ->]|destruct Hm as [-> | ->]; [apply map_Forall_empty|apply ex_meta_fits]|split; cbn; lia].
Qed.
Lemma x_ok : Forall vop_ok x_ops.
Proof.
  unfold x_ops. repeat (apply Forall_cons; split); [reflexivity| | | | |reflexivity|apply Forall_nil_2];
    (split; [reflexivity|apply x_fits; [reflexivity|repeat (apply Forall_cons; split; [lia|]); apply Forall_nil_2|tauto|lia]]).
Qed.
Lemma x_empty c u : stored (vs_db x_vs) c u = None.
Proof. reflexivity. Qed.

(** The components and the version of a stored vector. *)
Definition vec_ver (x : list Z * Metadata * VectorVersion) : list Z * VectorVersion := (x.1.1, x.2).

Lemma vector_index_consistent_witness :
  (x_run x_ops x_vs).2 = [None; None; None; None; None; None] /\
  vec_ver <$> stored (vs_db (x_run x_ops x_vs).1) x_col (x_id Byte.x02) = Some ([5; 5], mkVer 20 0) /\
  exists col i, vs_cols (x_run x_ops x_vs).1 !! x_col = Some col /\ live (c_graph col) !! i = Some (x_id Byte.x02, [5; 5]).
Proof.
  split; [vm_compute; reflexivity|]. assert (vec_ver <$> stored (vs_db (x_run x_ops x_vs).1) x_col (x_id Byte.x02) = Some ([5; 5], mkVer 20 0)) as E by (vm_compute; reflexivity).
  split; [exact E|]. destruct (stored _ _ _) as [[[v m] w]|] eqn:Es; [|discriminate E]. injection E as -> ->.
  destruct (vector_index_consistent Z.ltb (fun _ => sq_dist) sort_dist zlt_asym zlt_negtrans sort_dist_perm (fun _ => 0%nat) x_vs x_ops) as (_ & H1 & H2);
    [reflexivity|intros; apply x_empty|apply x_ok|reflexivity|].
  destruct (H2 x_col (x_id Byte.x02) _ ltac:(reflexivity) ltac:(reflexivity) Es) as [col Ec]. destruct (H1 x_col col Ec) as (_ & H3 & _).
  destruct (proj2 (H3 (x_id Byte.x02) [5; 5] ltac:(reflexivity))) as [i Ei]; [exists m, (mkVer 20 0); exact Es|].
  exists col, i. split; [exact Ec|exact Ei].
Defined.

Lemma x_inv os : Forall vop_ok os -> len os < 2^64 -> vs_inv (len os) (x_run os x_vs).1.
Proof.
  intros Hok Hlen. apply (vrun_ok Z.ltb (fun _ => sq_dist) sort_dist zlt_asym zlt_negtrans sort_dist_perm (fun _ => 0%nat) 0 os x_vs); [|lia|lia|done].
  apply vs_inv_empty; [reflexivity|intros; apply x_empty].
Qed.

Lemma vector_search_witness :
  exists rs, Search Z.ltb (fun _ => sq_dist) sort_dist x_col [4; 5] 1 0 (x_run (take 5 x_ops) x_vs).1 = Ok rs /\
    map (fun r => (res_ID r, res_Vector r, res_Version r, res_Distance r)) rs = [(x_id Byte.x02, [5; 5], mkVer 20 0, 1)] /\ NoDup (map res_ID rs).
Proof.
  set (vs := (x_run (take 5 x_ops) x_vs).1).
  assert (match vs_cols vs !! x_col with Some _ => true | None => false end = true) as Hc by (vm_compute; reflexivity).
  destruct (vs_cols vs !! x_col) as [col|] eqn:Ec; [|discriminate Hc].
  pose proof (vector_search Z.ltb (fun _ => sq_dist) sort_dist zlt_asym zlt_negtrans sort_dist_perm sort_dist_sorted (fun _ _ _ => I) 5 x_col col [4; 5] 1 0 vs
    (x_inv (take 5 x_ops) (Forall_take _ _ _ x_ok) ltac:(reflexivity)) Ec ltac:(lia)) as H.
  assert (match Search Z.ltb (fun _ => sq_dist) sort_dist x_col [4; 5] 1 0 vs with Ok rs => map (fun r => (res_ID r, res_Vector r, res_Version r, res_Distance r)) rs | _ => [] end
    = [(x_id Byte.x02, [5; 5], mkVer 20 0, 1)]) as Ev by (vm_compute; reflexivity).
  destruct (Search _ _ _ _ _ _ _ _) as [rs|e|]; [|discriminate Ev..]. destruct H as (_ & Hnd & _). exists rs. split; [reflexivity|]. split; [exact Ev|exact Hnd].
Defined.

Lemma vector_lww_witness :
  let vs := (x_run (take 1 x_ops) x_vs).1 in let os := take 4 (drop 1 x_ops) in
  map vec_ver (acked x_col (x_id Byte.x02) os (x_run os vs).2) = [([5; 5], mkVer 20 0); ([9; 9], mkVer 15 0)] /\
  exists x, stored (vs_db (x_run os vs).1) x_col (x_id Byte.x02) = Some x /\ vec_ver x = ([5; 5], mkVer 20 0) /\ x ∈ acked x_col (x_id Byte.x02) os (x_run os vs).2.
Proof.
  intros vs os. split; [vm_compute; reflexivity|].
  assert (vec_ver <$> stored (vs_db (x_run os vs).1) x_col (x_id Byte.x02) = Some ([5; 5], mkVer 20 0)) as E by (vm_compute; reflexivity).
  pose proof (vector_lww Z.ltb (fun _ => sq_dist) sort_dist zlt_asym zlt_negtrans sort_dist_perm (fun _ => 0%nat) (fun _ _ _ => I) 1 x_col (x_id Byte.x02) vs os
    (x_inv (take 1 x_ops) (Forall_take _ _ _ x_ok) ltac:(reflexivity)) ltac:(lia) ltac:(reflexivity) (Forall_take _ _ _ (Forall_drop _ _ _ x_ok))
    ltac:(repeat (apply Forall_cons; split; [reflexivity|]); apply Forall_nil_2) ltac:(reflexivity) ltac:(reflexivity) ltac:(vm_compute; reflexivity)) as H.
  change (vrun Z.ltb (fun _ => sq_dist) sort_dist (fun _ => 0%nat)) with x_run in H. cbv zeta in H. destruct (stored _ _ _) as [x|]; [|discriminate E].
  exists x. split; [reflexivity|]. split; [by injection E as E1 E2; unfold vec_ver; rewrite E1, E2|exact (proj1 H)].
Defined.

(** A flaw: the version of a deletion is not kept, so a write with a smaller version
    than the deletion's that arrives after it brings the vector back, whereas in the
    other order the vector stays deleted. *)
Theorem vector_delete_resurrected :
  let put := VPut x_col (x_id Byte.x01) [1; 1] ∅ in let del := VDelete x_col (x_id Byte.x01) (mkVer 40 0) in
  let run os := x_run (VCreate x_col x_cfg :: put (mkVer 10 0) :: os) x_vs in
  (run [del; put (mkVer 20 0)]).2 = [None; None; None; None] /\ (run [put (mkVer 20 0); del]).2 = [None; None; None; None] /\
  vec_ver <$> stored (vs_db (run [del; put (mkVer 20 0)]).1) x_col (x_id Byte.x01) = Some ([1; 1], mkVer 20 0) /\
  stored (vs_db (run [put (mkVer 20 0); del]).1) x_col (x_id Byte.x01) = None.
Proof. vm_compute. repeat split. Qed.
