(* ===== verification/VectorRebuild.v ===== *)
(** * Restart of the vector store (src/vector/vector.go, recovery)

    Opened again without snapshots, as the node does, the vector store reads the
    configurations of its collections back from the key-value store and rebuilds
    each index: the index it gets matches the store, as the one it lost did. *)

From Stdlib Require Import ZArith Lia List Sorted.
From stdpp Require Import base list option gmap sorting relations.
From S2P Require Import Prelude GoBytes KV Entries KVStore Heap HNSW HNSWProof HNSWSpec HNSWSnapshot VecCodec VectorStore VectorProof.
Open Scope Z_scope.

(** No stored key is a proper prefix of the bound. *)
Definition bound_clear (m : gmap bytes Value) (p : bytes) : Prop := forall u w, m !! u = Some w -> u `prefix_of` p -> u = p.
(** Range scans between such bounds list what the store holds, in key order. *)
Class KVSeqLaws (S : Type) `{!KVStore S, !KVLaws S, !KVSeq S} := {
  law_range s lo hi : bound_clear (contents s) lo -> bound_clear (contents s) hi -> lists (contents s) (fun u => ble lo u /\ blt u hi) (map (fun e => (e.1.1, e.2)) (db_ScanRange lo hi s))
}.

Section rebuild.
Context {S : Type} `{!KVStore S, !KVLaws S, !KVSeq S, !KVSeqLaws S} {D : Type}.
Context (dlt : D -> D -> bool) (dist : Z -> list Z -> list Z -> D) (sort : list (heapItem D) -> list (heapItem D)).
Context (dlt_asym : forall x y, dlt x y = true -> dlt y x = false).
Context (dlt_negtrans : forall x y z, dlt y x = false -> dlt z y = false -> dlt z x = false).
Context (sort_perm : forall l, sort l ≡ₚ l).
Context (level_of : Z -> nat).
Implicit Types (vs : VectorStore S).
Abbreviation fullRebuild := (VectorStore.fullRebuild dlt dist sort level_of).
Abbreviation rebuildLoop := (VectorStore.rebuildLoop dlt dist sort level_of).
Abbreviation vrun := (vrun dlt dist sort level_of).
Abbreviation vstep := (vstep dlt dist sort level_of).

(** What the writes of a collection leave under its keys: identifiers of 16 bytes,
    and tombstones or encodings of vectors of the collection's dimension. *)
Definition well_stored (db : S) (c : bytes) (dim : Z) : Prop :=
  forall z val, contents db !! makeVectorKey c z = Some val -> len z = 16 /\
    (Tombstone val = false -> exists b vec meta ver, Data val = Some b /\ DecodeVector b = Ok (vec, meta, ver) /\ len vec = dim).

(** ** One collection *)
(** What is stored under the keys already met. *)
Definition met (db : S) (c : bytes) (ks : list bytes) (u : bytes) : option (list Z * Metadata * VectorVersion) :=
  if decide (makeVectorKey c u ∈ ks) then stored db c u else None.

Lemma rebuildLoop_ok db c cfg ks entries col :
  len c < 2^16 -> well_stored db c (cDim cfg) -> c_config col = cfg -> len ks + len entries < 2^64 ->
  NoDup (ks ++ map (fun e => e.1.1) entries) ->
  (forall k sq v, (k, sq, v) ∈ entries -> (exists z, k = makeVectorKey c z) /\ exists w, contents db !! k = Some w /\ v = iter_value w) ->
  col_inv (len ks) (met db c ks) c col ->
  exists col', rebuildLoop entries col = Ok col' /\ c_config col' = cfg /\ col_inv (len ks + len entries) (met db c (ks ++ map (fun e => e.1.1) entries)) c col'.
Proof using dlt_asym dlt_negtrans sort_perm.
  intros Hc Hwell. revert ks col. induction entries as [|[[k sq] v] entries IH]; intros ks col Hcfg Hlen Hnd Hin Hinv.
  { exists col. split; [done|]. split; [done|]. cbn [map]. rewrite app_nil_r. change (len (@nil (bytes * Z * option bytes))) with 0. by rewrite Z.add_0_r. }
  rewrite len_cons in Hlen. pose proof (len_nonneg entries). pose proof (len_nonneg ks). cbn [map fst] in *. destruct (Hin k sq v ltac:(left)) as [[z ->] (w & Hw & ->)].
  set (k := makeVectorKey c z) in *. destruct (Hwell z w Hw) as [Hz Hdec].
  assert (k ∉ ks) as Hk by (apply NoDup_app in Hnd as (_ & Hd & _); intros Hk; apply (Hd k Hk); left).
  assert (len (ks ++ [k]) = len ks + 1) as Elen by (rewrite len_app; done).
  (** the rest, from a collection that accounts for [k] *)
  assert (forall col', c_config col' = cfg -> col_inv (len ks + 1) (met db c (ks ++ [k])) c col' ->
    exists col2, rebuildLoop entries col' = Ok col2 /\ c_config col2 = cfg /\ col_inv (len ks + len ((k, sq, iter_value w) :: entries)) (met db c (ks ++ k :: map (fun e => e.1.1) entries)) c col2) as Hrest.
  { intros col' Hcfg' Hinv'. destruct (IH (ks ++ [k]) col') as (col2 & H1 & H2 & H3); [done|lia|by rewrite <-app_assoc| |by rewrite Elen|].
    - intros k' sq' v' Hk'. apply (Hin k' sq' v'). by right.
    - exists col2. split; [done|]. split; [done|]. rewrite len_cons. rewrite Elen, <-app_assoc in H3. by replace (len ks + (1 + len entries)) with (len ks + 1 + len entries) by lia. }
  assert (forall u, met db c (ks ++ [k]) u = if decide (u = z) then stored db c z else met db c ks u) as Hmet.
  { intros u. unfold met. destruct (decide (u = z)) as [->|Hne]; [rewrite decide_True; [done|apply elem_of_app; right; left]|].
    assert (makeVectorKey c u ∈ ks ++ [k] <-> makeVectorKey c u ∈ ks) as Hiff.
    { rewrite elem_of_app, list_elem_of_singleton. split; [|by left]. intros [|E]; [done|]. by apply makeVectorKey_inj in E as [_ ?]. }
    destruct (decide (makeVectorKey c u ∈ ks)); [by rewrite decide_True by by apply Hiff|rewrite decide_False; [done|by rewrite Hiff]]. }
  assert (met db c ks z = None) as Hold by (unfold met; by rewrite decide_False).
  cbn [VectorStore.rebuildLoop]. unfold iter_value in *. destruct (Tombstone w) eqn:Et.
  { apply Hrest; [done|]. eapply col_inv_db; [|intros u; rewrite Hmet|exact Hinv]; [lia|]. case_decide; [subst u|done]. rewrite Hold. unfold stored. fold k. rewrite Hw. cbn. by rewrite Et. }
  destruct (Hdec eq_refl) as (b & vec & meta & ver & Eb & Ed & Hd). rewrite Eb.
  assert (parseVectorKey k = Ok (c, z, kindVector)) as -> by (unfold k, makeVectorKey; rewrite parse_key by auto; done). rewrite Ed. cbn.
  unfold indexVector. cbn [c_graph c_config c_nextID c_ids].
  destruct (col_insert_succeeds dlt dist sort dlt_asym dlt_negtrans sort_perm level_of (len ks) (met db c ks) c col z vec Hinv ltac:(congruence)) as (g' & Ei). rewrite Ei.
  cbn. apply Hrest; [done|].
  assert (c_ids col !! z = None) as Hids. { destruct (c_ids col !! z) as [i|] eqn:E; [|done]. destruct (ci_ids _ _ _ _ Hinv z i E) as (_ & ? & ? & ? & _ & Hs). congruence. }
  pose proof (col_insert dlt dist sort dlt_asym dlt_negtrans sort_perm level_of (len ks) (met db c ks) (met db c (ks ++ [k])) c col z vec meta ver g' Hinv ltac:(lia) Hz Ei) as HI.
  rewrite Hids in HI. apply HI. intros u. rewrite Hmet. destruct (decide (u = z)) as [->|]; [|done]. unfold stored. fold k. rewrite Hw. unfold stored_value. rewrite Et, Eb. change (sl (Some b)) with b. by rewrite Ed.
Qed.

Lemma met_all db c ks u : (forall v, contents db !! makeVectorKey c u = Some v -> makeVectorKey c u ∈ ks) -> met db c ks u = stored db c u.
Proof.
  intros H. unfold met. case_decide as Hd; [done|]. unfold stored. destruct (contents db !! _) as [v|] eqn:E; [|done]. by destruct (Hd (H v eq_refl)).
Qed.

Lemma fullRebuild_ok db c cfg g :
  len c < 2^16 -> HNSW.New (graphOptions cfg) = Ok g -> well_stored db c (cDim cfg) -> len (collectionScan c db) < 2^64 ->
  (forall k, k <> kindConfig -> bound_clear (contents db) (collectionKey c k)) ->
  exists col, fullRebuild c db (mkCol g cfg ∅ 0) = Ok col /\ c_config col = cfg /\ col_inv (len (collectionScan c db)) (stored db c) c col.
Proof using KVSeqLaws0 dlt_asym dlt_negtrans sort_perm.
  intros Hc Eg Hwell Hlen Hclear. unfold VectorStore.fullRebuild. destruct (law_range db (makeVectorKeyPrefix c) (makeVectorKeyPrefixEnd c)) as [Hsort Hlist]; [by apply Hclear..|].
  fold (collectionScan c db) in Hsort, Hlist. set (es := collectionScan c db) in *.
  assert (NoDup (map (fun e => e.1.1) es)) as Hnd.
  { assert (map (fun e : bytes * Z * option bytes => e.1.1) es = (map (fun e => (e.1.1, e.2)) es).*1) as -> by (rewrite map_map; done).
    clear -Hsort. set (l := map (fun e => (e.1.1, e.2)) es) in *. clearbody l. induction Hsort as [|x l _ IH Hx]; cbn; constructor; [|done].
    intros (y & E & Hy)%list_elem_of_fmap. rewrite Forall_forall in Hx. specialize (Hx y Hy). unfold key_lt in Hx. rewrite E in Hx. by apply blt_irrefl in Hx. }
  destruct (rebuildLoop_ok db c cfg [] es (mkCol g cfg ∅ 0)) as (col & H1 & H2 & H3); [done|done|done|done|done| | |].
  - intros k sq v Hin. assert ((k, v) ∈ map (fun e => (e.1.1, e.2)) es) as Hkv by (apply list_elem_of_fmap; by exists (k, sq, v)).
    apply Hlist in Hkv as [Hr Hw]. split; [|done]. destruct (collection_prefix c k Hr) as [z ->]. by exists z.
  - apply fresh_col; [done..|]. intros u _. unfold met. rewrite decide_False; [done|apply not_elem_of_nil].
  - exists col. split; [done|]. split; [done|]. eapply col_inv_db; [|intros u; symmetry; apply met_all|exact H3]; [change (len (@nil bytes)) with 0; lia|].
    intros v Hv. destruct (Hwell u v Hv) as [Hu _]. cbn [app].
    assert ((makeVectorKey c u, iter_value v) ∈ map (fun e => (e.1.1, e.2)) es) as ([[k sq] x] & [= -> _] & He)%list_elem_of_fmap.
    { apply Hlist. split; [|by exists v]. by apply (proj1 (proj2 (proj2 (collection_keys_lemma c c u Hc Hc Hu)))). }
    apply list_elem_of_fmap. by exists (k, sq, x).
Qed.

(** ** What runs leave in the store *)
Definition runs_well vs : Prop :=
  forall c z val, len c < 2^16 -> contents (vs_db vs) !! makeVectorKey c z = Some val -> len z = 16 /\ exists col, vs_cols vs !! c = Some col /\
    (Tombstone val = false -> exists b vec meta ver, Data val = Some b /\ DecodeVector b = Ok (vec, meta, ver) /\ len vec = cDim (c_config col)).

(** Operations keep the configuration of every collection, and create it with options the index accepts. *)
Definition same_configs vs vs' : Prop := forall c col, vs_cols vs !! c = Some col -> exists col', vs_cols vs' !! c = Some col' /\ c_config col' = c_config col.
Definition configs_ok vs : Prop := forall c col, vs_cols vs !! c = Some col -> exists g : Graph, HNSW.New (graphOptions (c_config col)) = Ok g.

Lemma set_col_configs vs db c col col' :
  vs_cols vs !! c = Some col -> c_config col' = c_config col -> same_configs vs (set_col c col' (set_db db vs)) /\ (configs_ok vs -> configs_ok (set_col c col' (set_db db vs))).
Proof.
  intros E Ec. split.
  - intros c1 col1 E1. cbn. destruct (decide (c1 = c)) as [->|Hne]; [rewrite lookup_insert_eq; exists col'; split; [done|congruence]|].
    rewrite lookup_insert_ne by done. eauto.
  - intros H c1 col1. cbn. rewrite lookup_insert_Some. intros [[<- <-]|[_ E1]]; [rewrite Ec; by eapply H|by eapply H].
Qed.

Lemma vstep_configs o vs : same_configs vs (vstep o vs).1 /\ (configs_ok vs -> configs_ok (vstep o vs).1).
Proof.
  assert (same_configs vs vs /\ (configs_ok vs -> configs_ok vs)) as Hid by (split; [intros c col E; eauto|done]).
  destruct o as [name cfg|c u vec meta ver|c u ver]; cbn [VectorProof.vstep].
  - unfold CreateCollection. destruct (MetricToDistanceFunc _); [|exact Hid..]. destruct (vs_cols vs !! name) eqn:E; [exact Hid|].
    destruct (HNSW.New (graphOptions cfg)) as [g| |] eqn:Eg; [|exact Hid..]. destruct (db_Put _ _ _); [|exact Hid]. split.
    + intros c col Ec. cbn. rewrite lookup_insert_ne by congruence. eauto.
    + intros H c col. cbn. rewrite lookup_insert_Some. intros [[<- <-]|[_ Ec]]; [by exists g|by eapply H].
  - unfold VectorStore.Put. destruct (vs_cols vs !! c) as [col|] eqn:Ec; [|exact Hid]. destruct (negb _); [exact Hid|]. destruct (EncodeVector _ _ _); [|exact Hid..].
    destruct (stale _ _ _); [exact Hid|]. destruct (_ && _ && _); [exact Hid|]. destruct (db_Put _ _ _); [|exact Hid].
    destruct (HNSW.Insert _ _ _ _ _ _ _ _); [by eapply set_col_configs|by eapply set_col_configs|exact Hid].
  - unfold Delete. destruct (vs_cols vs !! c) as [col|] eqn:Ec; [|exact Hid]. destruct (stale _ _ _); [exact Hid|].
    destruct (c_ids col !! u); [|exact Hid]. destruct (db_Delete _ _); [|exact Hid]. by eapply set_col_configs.
Qed.

Lemma contents_insert_well vs vs' c u w :
  runs_well vs -> same_configs vs vs' -> len c < 2^16 -> len u = 16 ->
  contents (vs_db vs') = <[makeVectorKey c u := w]> (contents (vs_db vs)) ->
  (exists col, vs_cols vs !! c = Some col /\ (Tombstone w = false -> exists b vec meta ver, Data w = Some b /\ DecodeVector b = Ok (vec, meta, ver) /\ len vec = cDim (c_config col))) ->
  runs_well vs'.
Proof.
  intros Hw Hs Hc Hu E Hnew c' z val Hc'. rewrite E, lookup_insert_Some. intros [[Ek <-]|[_ Ev]].
  - apply makeVectorKey_inj in Ek as [<- <-]; [|done..]. split; [done|]. destruct Hnew as (col & E1 & H1). destruct (Hs c col E1) as (col' & E2 & Ec). exists col'. by rewrite Ec.
  - destruct (Hw c' z val Hc' Ev) as (Hz & col & E1 & H1). split; [done|]. destruct (Hs c' col E1) as (col' & E2 & Ec). exists col'. by rewrite Ec.
Qed.

Lemma same_contents_well vs vs' : runs_well vs -> same_configs vs vs' -> (forall c z, len c < 2^16 -> contents (vs_db vs') !! makeVectorKey c z = contents (vs_db vs) !! makeVectorKey c z) -> runs_well vs'.
Proof.
  intros Hw Hs E c z val Hc. rewrite E by done. intros Ev. destruct (Hw c z val Hc Ev) as (Hz & col & E1 & H1). split; [done|].
  destruct (Hs c col E1) as (col' & E2 & Ec). exists col'. by rewrite Ec.
Qed.

Lemma vstep_well n o vs : vs_inv n vs -> 0 <= n < 2^64 - 1 -> vop_ok o -> runs_well vs -> runs_well (vstep o vs).1.
Proof using dlt_asym dlt_negtrans sort_perm.
  intros Hv Hn Ho Hw. destruct (vstep_configs o vs) as [Hs _]. revert Hs. destruct o as [name cfg|c u vec meta ver|c u ver]; cbn [VectorProof.vstep]; intros Hs.
  - eapply same_contents_well; [done|done|]. revert Ho. clear. cbn. intros Ho c z Hc. unfold CreateCollection. repeat case_match; try done. cbn.
    match goal with H : db_Put _ _ _ = Some _ |- _ => rewrite (law_put _ _ _ _ H) end. rewrite lookup_insert_ne; [done|by apply configKey_not_vector].
  - destruct Ho as [Hu Hf]. destruct (Put_effect dlt dist sort dlt_asym dlt_negtrans sort_perm level_of n c u vec meta ver vs Hv Hn Hu Hf) as [[E _]|(_ & _ & Hc & (col & Ec & Hd) & b & HD & _ & E)].
    + eapply same_contents_well; [done|done|]. intros. by rewrite E.
    + eapply contents_insert_well; [done|done|done|done|exact E|]. exists col. split; [done|]. intros _. exists b, vec, meta, ver. done.
  - unfold Delete in *. destruct (vs_cols vs !! c) as [col|] eqn:Ec; [|done]. destruct (stale _ _ _); [done|]. destruct (c_ids col !! u); [|done].
    destruct (db_Delete _ _) as [db|] eqn:Ed; [|done]. apply law_delete in Ed. eapply contents_insert_well; [done|done|by apply (vi_cols _ _ Hv c col Ec)|done|exact Ed|].
    exists col. split; [done|]. done.
Qed.

Lemma vrun_well n os vs :
  vs_inv n vs -> 0 <= n -> n + len os < 2^64 -> Forall vop_ok os -> runs_well vs -> configs_ok vs -> runs_well (vrun os vs).1 /\ configs_ok (vrun os vs).1.
Proof using dlt_asym dlt_negtrans sort_perm.
  revert n vs. induction os as [|o os IH]; intros n vs Hv Hn Hlen Hok Hw Hcfg; [done|].
  apply Forall_cons in Hok as [Ho Hok]. rewrite len_cons in *. pose proof (len_nonneg os).
  destruct (vstep_ok dlt dist sort dlt_asym dlt_negtrans sort_perm level_of n o vs Hv ltac:(lia) Ho) as [Hv1 _].
  pose proof (vstep_well n o vs Hv ltac:(lia) Ho Hw) as Hw1. pose proof (proj2 (vstep_configs o vs) Hcfg) as Hcfg1.
  cbn [VectorProof.vrun]. destruct (vstep o vs) as [vs1 e]. destruct (IH (n + 1) vs1 Hv1 ltac:(lia) ltac:(lia) Hok Hw1 Hcfg1) as [H1 H2]. by destruct (vrun os vs1).
Qed.

(** ** The configurations *)
(** The range [loadCollectionConfigs] scans. *)
Definition under_prefix (u : bytes) : Prop := ble [keyPrefixVector] u /\ blt u [Byte.x03].
(** What the store holds there: the configuration of every collection, and vectors. *)
Record layout vs : Prop := {
  ly_config : forall c col, vs_cols vs !! c = Some col ->
    contents (vs_db vs) !! makeCollectionConfigKey c = Some (NewValue (Some (encodeCollectionConfig (c_config col)))) /\
    config_fits (c_config col) /\ exists f, MetricToDistanceFunc (cMetric (c_config col)) = Ok f;
  ly_keys : forall u w, contents (vs_db vs) !! u = Some w -> under_prefix u ->
    (exists c, is_Some (vs_cols vs !! c) /\ u = makeCollectionConfigKey c) \/ (exists c z, len c < 2^16 /\ len z = 16 /\ u = makeVectorKey c z);
  ly_empty : contents (vs_db vs) !! [] = None
}.
Definition creates_fit (o : vop) : Prop := match o with VCreate _ cfg => config_fits cfg | _ => True end.

Lemma layout_vector vs vs' c u w :
  layout vs -> same_configs vs vs' -> (forall c, is_Some (vs_cols vs' !! c) -> is_Some (vs_cols vs !! c)) -> (forall c, is_Some (vs_cols vs !! c) -> len c < 2^16) ->
  len c < 2^16 -> len u = 16 -> contents (vs_db vs') = <[makeVectorKey c u := w]> (contents (vs_db vs)) -> layout vs'.
Proof.
  intros [L1 L2 L3] Hs Hback Hname Hc Hu E. split.
  - intros c1 col1 E1. destruct (Hback c1 (ex_intro _ _ E1)) as [col0 E0]. destruct (Hs c1 col0 E0) as (col2 & E2 & Ecfg). rewrite E1 in E2. injection E2 as <-. rewrite Ecfg, E.
    rewrite lookup_insert_ne; [by apply L1|]. apply not_eq_sym, configKey_not_vector; [by apply Hname|done].
  - intros v x. rewrite E, lookup_insert_Some. intros [[<- _]|[_ Hx]] Hr; [right; by exists c, u|]. destruct (L2 v x Hx Hr) as [(c1 & [col1 E1] & ->)|]; [|by right].
    left. exists c1. split; [|done]. destruct (Hs c1 col1 E1) as (? & ? & _). eauto.
  - by rewrite E, lookup_insert_ne.
Qed.
Lemma layout_same vs vs' : layout vs -> vs_db vs' = vs_db vs -> same_configs vs vs' -> (forall c, is_Some (vs_cols vs' !! c) -> is_Some (vs_cols vs !! c)) -> layout vs'.
Proof.
  intros [L1 L2 L3] E Hs Hback. split; [| |by rewrite E].
  - intros c1 col1 E1. destruct (Hback c1 (ex_intro _ _ E1)) as [col0 E0]. destruct (Hs c1 col0 E0) as (col2 & E2 & Ecfg). rewrite E1 in E2. injection E2 as <-. rewrite Ecfg, E. by apply L1.
  - intros v x. rewrite E. intros Hx Hr. destruct (L2 v x Hx Hr) as [(c1 & [col1 E1] & ->)|]; [|by right].
    left. exists c1. split; [|done]. destruct (Hs c1 col1 E1) as (? & ? & _). eauto.
Qed.

Lemma configKey_inj c c' : len c < 2^16 -> len c' < 2^16 -> makeCollectionConfigKey c = makeCollectionConfigKey c' -> c = c'.
Proof. intros Hc Hc' E. unfold makeCollectionConfigKey in E. rewrite <-(app_nil_r (collectionKey c _)), <-(app_nil_r (collectionKey c' _)) in E. by apply collectionKey_inj in E as (? & _ & _). Qed.
Lemma set_col_back vs db c col col' c' : vs_cols vs !! c = Some col -> is_Some (vs_cols (set_col c col' (set_db db vs)) !! c') -> is_Some (vs_cols vs !! c').
Proof. intros E. cbn. destruct (decide (c' = c)) as [->|Hne]; [by eexists|by rewrite lookup_insert_ne]. Qed.
Lemma vstep_back o vs c : match o with VCreate _ _ => False | _ => True end -> is_Some (vs_cols (vstep o vs).1 !! c) -> is_Some (vs_cols vs !! c).
Proof.
  destruct o as [name cfg|c1 u vec meta ver|c1 u ver]; [done| |]; intros _; cbn [VectorProof.vstep].
  - unfold VectorStore.Put. destruct (vs_cols vs !! c1) as [col|] eqn:Ec; [|done]. destruct (negb _); [done|]. destruct (EncodeVector _ _ _); [|done..].
    destruct (stale _ _ _); [done|]. destruct (_ && _ && _); [done|]. destruct (db_Put _ _ _); [|done]. destruct (HNSW.Insert _ _ _ _ _ _ _ _); [by eapply set_col_back..|done].
  - unfold Delete. destruct (vs_cols vs !! c1) as [col|] eqn:Ec; [|done]. destruct (stale _ _ _); [done|]. destruct (c_ids col !! u); [|done]. destruct (db_Delete _ _); [by eapply set_col_back|done].
Qed.

Lemma Create_layout n name cfg vs : vs_inv n vs -> len name < 2^16 -> config_fits cfg -> layout vs -> layout (CreateCollection name cfg vs).1.
Proof.
  intros Hv Hn Hf [L1 L2 L3]. unfold CreateCollection. destruct (MetricToDistanceFunc _) as [f| |] eqn:Ef; [|done..]. destruct (vs_cols vs !! name) eqn:E; [done|].
  destruct (HNSW.New _); [|done..]. destruct (db_Put _ _ _) as [db|] eqn:Ep; [|done]. apply law_put in Ep. cbn. split; cbn.
  - intros c col. rewrite Ep. destruct (decide (c = name)) as [->|Hne].
    + rewrite !lookup_insert_eq. intros [= <-]. cbn. eauto.
    + rewrite lookup_insert_ne by done. intros Ec. rewrite lookup_insert_ne; [by apply L1|]. intros Ek%configKey_inj; [done|done|apply (vi_cols _ _ Hv c col Ec)].
  - intros u w. rewrite Ep, lookup_insert_Some. intros [[<- _]|[_ Hu]] Hr; [left; exists name; rewrite lookup_insert_eq; eauto|].
    destruct (L2 u w Hu Hr) as [(c & Hc & ->)|]; [left; exists c; split; [|done]|by right]. destruct (decide (c = name)) as [->|]; [by rewrite lookup_insert_eq|by rewrite lookup_insert_ne].
  - by rewrite Ep, lookup_insert_ne.
Qed.
Lemma vstep_layout n o vs : vs_inv n vs -> 0 <= n < 2^64 - 1 -> vop_ok o -> creates_fit o -> layout vs -> layout (vstep o vs).1.
Proof using dlt_asym dlt_negtrans sort_perm.
  intros Hv Hn Ho Hf Hl. destruct (vstep_configs o vs) as [Hs _]. assert (forall c, is_Some (vs_cols vs !! c) -> len c < 2^16) as Hname by (intros c [col E]; apply (vi_cols _ _ Hv c col E)).
  destruct o as [name cfg|c u vec meta ver|c u ver]; [by eapply Create_layout| |].
  - pose proof (fun c' => vstep_back (VPut c u vec meta ver) vs c' I) as Hb. destruct Ho as [Hu Hf']. destruct (Put_effect dlt dist sort dlt_asym dlt_negtrans sort_perm level_of n c u vec meta ver vs Hv Hn Hu Hf') as [[E _]|(_ & _ & Hc & _ & b & _ & _ & E)].
    + by eapply layout_same.
    + by eapply layout_vector.
  - pose proof (fun c' => vstep_back (VDelete c u ver) vs c' I) as Hb. cbn [VectorProof.vstep] in *. unfold Delete in *.
    destruct (vs_cols vs !! c) as [col|] eqn:Ec; [|done]. destruct (stale _ _ _); [done|]. destruct (c_ids col !! u); [|done].
    destruct (db_Delete _ _) as [db|] eqn:Ed; [|done]. apply law_delete in Ed. eapply layout_vector; [done|done|done|done|apply Hname; by eexists|done|exact Ed].
Qed.
Lemma vrun_layout n os vs :
  vs_inv n vs -> 0 <= n -> n + len os < 2^64 -> Forall vop_ok os -> Forall creates_fit os -> layout vs -> layout (vrun os vs).1.
Proof using dlt_asym dlt_negtrans sort_perm.
  revert n vs. induction os as [|o os IH]; intros n vs Hv Hn Hlen Hok Hfit Hl; [done|].
  apply Forall_cons in Hok as [Ho Hok]. apply Forall_cons in Hfit as [Hf Hfit]. rewrite len_cons in *. pose proof (len_nonneg os).
  destruct (vstep_ok dlt dist sort dlt_asym dlt_negtrans sort_perm level_of n o vs Hv ltac:(lia) Ho) as [Hv1 _].
  pose proof (vstep_layout n o vs Hv ltac:(lia) Ho Hf Hl) as Hl1. cbn [VectorProof.vrun]. destruct (vstep o vs) as [vs1 e].
  pose proof (IH (n + 1) vs1 Hv1 ltac:(lia) ltac:(lia) Hok Hfit Hl1) as H1. by destruct (vrun os vs1).
Qed.

(** ** The restart *)
(** A collection as [loadCollectionConfigs] makes it, and as [fullRebuild] leaves it. *)
Definition fresh_for (col col' : collectionState) : Prop := exists g : Graph, HNSW.New (graphOptions (c_config col)) = Ok g /\ col' = mkCol g (c_config col) ∅ 0.
Definition rebuilt_for (db : S) (c : bytes) (col col' : collectionState) : Prop := c_config col' = c_config col /\ exists n, col_inv n (stored db c) c col'.
(** What the scan of the configurations meets. *)
Definition config_entry vs (e : bytes * Z * option bytes) : Prop :=
  (exists c col, vs_cols vs !! c = Some col /\ e.1.1 = makeCollectionConfigKey c /\ e.2 = Some (encodeCollectionConfig (c_config col))) \/
  (exists c z, len c < 2^16 /\ len z = 16 /\ e.1.1 = makeVectorKey c z).

Lemma loadConfigs_ok vs es cols :
  layout vs -> configs_ok vs -> (forall c, is_Some (vs_cols vs !! c) -> len c < 2^16) -> Forall (config_entry vs) es ->
  (forall c col', cols !! c = Some col' -> exists col, vs_cols vs !! c = Some col /\ fresh_for col col') ->
  exists cols', loadConfigs es cols = Ok cols' /\ (forall c col', cols' !! c = Some col' -> exists col, vs_cols vs !! c = Some col /\ fresh_for col col') /\
    (forall c, is_Some (cols !! c) \/ (is_Some (vs_cols vs !! c) /\ exists sq v, (makeCollectionConfigKey c, sq, v) ∈ es) -> is_Some (cols' !! c)).
Proof.
  intros [L1 _ _] Hcfg Hname Hes. revert cols; induction Hes as [|[[k sq] v] es He _ IH]; intros cols Hcols.
  { exists cols. split; [done|]. split; [done|]. intros c [?|(_ & ? & ? & []%not_elem_of_nil)]; done. }
  destruct He as [(c & col & Ec & Ek & Ev)|(c & z & Hc & Hz & Ek)]; cbn [fst snd] in *; subst; cbn [loadConfigs].
  - assert (len c < 2^16) as Hc by (apply Hname; by eexists). destruct (L1 c col Ec) as (_ & Hf & f & Em). destruct (Hcfg c col Ec) as [g Eg].
    unfold makeCollectionConfigKey at 1. rewrite <-(app_nil_r (collectionKey c kindConfig)), parse_key by auto. rewrite bool_decide_true, config_roundtrip, Em, Eg by done.
    destruct (IH (<[c := mkCol g (c_config col) ∅ 0]> cols)) as (cols' & H1 & H2 & H3).
    + intros c1 col1. rewrite lookup_insert_Some. intros [[<- <-]|[_ E1]]; [|by apply Hcols]. exists col. split; [done|]. by exists g.
    + exists cols'. split; [done|]. split; [done|]. intros c1 H. apply H3. destruct (decide (c1 = c)) as [->|Hne]; [left; by rewrite lookup_insert_eq|].
      rewrite lookup_insert_ne by done. destruct H as [H|(Hv & sq1 & v1 & [Ek%(f_equal (fun e => e.1.1))|Hin]%elem_of_cons)]; [by left| |right; eauto].
      apply configKey_inj in Ek; [done|by apply Hname|done].
  - destruct (IH cols Hcols) as (cols' & H1 & H2 & H3). exists cols'. split; [|split; [done|]].
    + destruct v as [v|]; [|done]. unfold makeVectorKey. rewrite parse_key by auto. by rewrite bool_decide_false.
    + intros c1 H. apply H3. destruct H as [H|(Hv & sq1 & v1 & [Ek%(f_equal (fun e => e.1.1))|Hin]%elem_of_cons)]; [by left| |right; eauto].
      by apply configKey_not_vector in Ek; [|by apply Hname|].
Qed.

Context (range_uuids : gset bytes -> list bytes).
Abbreviation loadAll := (loadAll dlt dist sort level_of range_uuids).

Lemma vector_range c z : len c < 2^16 -> under_prefix (makeVectorKey c z).
Proof. intros _. unfold under_prefix, makeVectorKey, collectionKey, ble, blt. cbn. by rewrite ?Z.compare_refl. Qed.
Lemma config_range c : len c < 2^16 -> under_prefix (makeCollectionConfigKey c).
Proof. intros _. unfold under_prefix, makeCollectionConfigKey, collectionKey, ble, blt. cbn. by rewrite ?Z.compare_refl. Qed.

(** The bounds of the scans are clear. *)
Lemma layout_clear vs p : layout vs -> (forall c, is_Some (vs_cols vs !! c) -> len c < 2^16) ->
  p = [Byte.x03] \/ p = [keyPrefixVector] \/ (exists c k, len c < 2^16 /\ k <> kindConfig /\ p = collectionKey c k) -> bound_clear (contents (vs_db vs)) p.
Proof.
  intros Hl Hname Hp u w Hu [t Et]. destruct u as [|b u]; [by rewrite (ly_empty _ Hl) in Hu|].
  destruct Hp as [->|[->|(c & k & Hc & Hk & ->)]]; [injection Et as -> E; by apply eq_sym, app_eq_nil in E as [-> _]..|].
  assert (b = keyPrefixVector) as -> by (unfold collectionKey in Et; by injection Et).
  assert (under_prefix (keyPrefixVector :: u)) as Hr by (unfold under_prefix, ble, blt; cbn; by destruct u).
  rewrite <-(app_nil_r (collectionKey c k)) in Et. exfalso. destruct (ly_keys _ Hl _ w Hu Hr) as [(c' & Hc' & E)|(c' & z & Hc' & Hz & E)]; rewrite E in Et.
  - apply collectionKey_inj in Et as (_ & ? & _); [done|done|by apply Hname].
  - unfold makeVectorKey in Et. rewrite <-app_assoc in Et. apply collectionKey_inj in Et as (_ & _ & E'); [|done..]. by apply eq_sym, app_eq_nil in E' as [-> _].
Qed.

Lemma loadCollectionConfigs_ok vs :
  layout vs -> configs_ok vs -> (forall c, is_Some (vs_cols vs !! c) -> len c < 2^16) ->
  exists cols, loadCollectionConfigs (vs_db vs) = Ok cols /\ (forall c, is_Some (cols !! c) <-> is_Some (vs_cols vs !! c)) /\
    (forall c col', cols !! c = Some col' -> exists col, vs_cols vs !! c = Some col /\ fresh_for col col').
Proof using KVSeqLaws0.
  intros Hl Hcfg Hname. unfold loadCollectionConfigs. destruct (law_range (vs_db vs) [keyPrefixVector] [Byte.x03]) as [_ Hin]; [apply layout_clear; auto..|]. set (es := db_ScanRange _ _ _) in *.
  assert (forall u x, (exists sq, (u, sq, x) ∈ es) <-> (u, x) ∈ map (fun e : bytes * Z * option bytes => (e.1.1, e.2)) es) as Hes.
  { intros u x. rewrite list_elem_of_fmap. split; [intros [sq H]; by exists (u, sq, x)|intros ([[k sq] y] & [= -> ->] & H); by exists sq]. }
  destruct (loadConfigs_ok vs es ∅ Hl Hcfg Hname) as (cols & H1 & H2 & H3).
  - apply Forall_forall. intros [[u sq] x] He. destruct (proj1 (Hin u x)) as [Hr (w & Hw & ->)]; [apply Hes; by exists sq|].
    destruct (ly_keys _ Hl u w Hw Hr) as [(c & [col Ec] & ->)|H]; [left|by right]. exists c, col. split; [done|]. split; [done|].
    destruct (ly_config _ Hl c col Ec) as [E _]. rewrite E in Hw. by injection Hw as <-.
  - intros c col'. by rewrite lookup_empty.
  - exists cols. split; [done|]. split; [|done]. intros c. split; [intros [col' E]; destruct (H2 c col' E) as (col & ? & _); by eexists|].
    intros [col Ec]. apply H3. right. split; [by eexists|]. destruct (ly_config _ Hl c col Ec) as [E _]. assert (len c < 2^16) as Hc by (apply Hname; by eexists).
    destruct (proj2 (Hes (makeCollectionConfigKey c) (Some (encodeCollectionConfig (c_config col))))) as [sq Hsq]; [|by exists sq, (Some (encodeCollectionConfig (c_config col)))].
    apply Hin. split; [by apply config_range|]. by eexists.
Qed.

Lemma loadAll_ok dir vs names cols :
  (forall c col, vs_cols vs !! c = Some col -> len c < 2^16 /\ well_stored (vs_db vs) c (cDim (c_config col)) /\ len (collectionScan c (vs_db vs)) < 2^64 /\
     (forall k, k <> kindConfig -> bound_clear (contents (vs_db vs)) (collectionKey c k))) ->
  NoDup names ->
  (forall c col', cols !! c = Some col' -> exists col, vs_cols vs !! c = Some col /\ if decide (c ∈ names) then fresh_for col col' else rebuilt_for (vs_db vs) c col col') ->
  exists cols', loadAll dir ∅ (vs_db vs) names cols = Ok cols' /\ (forall c, is_Some (cols' !! c) <-> is_Some (cols !! c)) /\
    (forall c col', cols' !! c = Some col' -> exists col, vs_cols vs !! c = Some col /\ rebuilt_for (vs_db vs) c col col').
Proof using KVSeqLaws0 dlt_asym dlt_negtrans sort_perm.
  intros Hvs Hnd. revert cols; induction Hnd as [|c names Hc Hnd IH]; intros cols Hcols.
  { exists cols. split; [done|]. split; [done|]. intros c col' E. destruct (Hcols c col' E) as (col & H1 & H2). exists col. split; [done|]. by case_decide; [set_solver|]. }
  cbn [VectorStore.loadAll]. destruct (cols !! c) as [col0|] eqn:E0.
  - destruct (Hcols c col0 E0) as (col & Ec & Hf). rewrite decide_True in Hf by left. destruct Hf as (g & Eg & ->). destruct (Hvs c col Ec) as (Hlen & Hw & Hscan & Hclear).
    destruct (fullRebuild_ok (vs_db vs) c (c_config col) g Hlen Eg Hw Hscan Hclear) as (col1 & H1 & H2 & H3). rewrite lookup_empty. cbn [loadCollection]. rewrite H1. cbn [mbind outcome_bind].
    destruct (IH (<[c := col1]> cols)) as (cols' & G1 & G2 & G3).
    + intros c2 col2. rewrite lookup_insert_Some. intros [[<- <-]|[Hne E2]].
      * exists col. split; [done|]. rewrite decide_False by done. split; [done|]. by eexists.
      * destruct (Hcols c2 col2 E2) as (col3 & ? & H). exists col3. split; [done|]. revert H. destruct (decide (c2 ∈ names)) as [Hin|Hout]; [by rewrite decide_True by by right|].
        by rewrite decide_False by (intros [->|]%elem_of_cons; done).
    + exists cols'. split; [done|]. split; [|done]. intros c2. rewrite G2. destruct (decide (c2 = c)) as [->|]; [rewrite lookup_insert_eq, E0; split; by eexists|by rewrite lookup_insert_ne].
  - apply IH. intros c2 col2 E2. destruct (Hcols c2 col2 E2) as (col3 & ? & H). exists col3. split; [done|]. assert (c2 <> c) as Hne by congruence. revert H.
    destruct (decide (c2 ∈ names)) as [Hin|Hout]; [by rewrite decide_True by by right|]. by rewrite decide_False by (intros [->|]%elem_of_cons; done).
Qed.

Context (range_cols : gmap bytes collectionState -> list bytes).
Context (range_cols_ok : forall m, NoDup (range_cols m) /\ forall c, c ∈ range_cols m <-> is_Some (m !! c)).
Abbreviation NewVectorStore := (NewVectorStore dlt dist sort level_of range_uuids range_cols).

(** C17: A restart loses no vector.  After any run of creations, writes and deletions
    from a database with no empty key and nothing under the vector prefix, with any
    failures of the database, in which the configurations created fit the 16-bit fields they are
    stored in: [NewVectorStore], which knows only the database, succeeds, whatever
    levels it draws and in whatever order it visits the collections.  It finds the
    same collections, decodes the configuration each was created with, and builds for
    each an index that matches the store: the vectors it may answer are those stored,
    once each, as for the index the process lost.  The field widths are a hypothesis
    the code does not check: [config_truncated_restart_fails]. *)
Theorem vector_restart dir vs os :
  vs_cols vs = ∅ -> (forall u, u = [] \/ under_prefix u -> contents (vs_db vs) !! u = None) -> Forall vop_ok os -> Forall creates_fit os -> len os < 2^64 ->
  let vs1 := (vrun os vs).1 in
  (forall c, len (collectionScan c (vs_db vs1)) < 2^64) ->
  exists vs2, NewVectorStore dir ∅ (vs_db vs1) = Ok vs2 /\ vs_db vs2 = vs_db vs1 /\
    (forall c, is_Some (vs_cols vs2 !! c) <-> is_Some (vs_cols vs1 !! c)) /\
    forall c col, vs_cols vs1 !! c = Some col -> exists col', vs_cols vs2 !! c = Some col' /\ c_config col' = c_config col /\
      index_matches (stored (vs_db vs1) c) (c_graph col') /\ index_matches (stored (vs_db vs1) c) (c_graph col).
Proof using KVSeqLaws0 dlt_asym dlt_negtrans sort_perm range_cols_ok.
  intros Hc0 Hdb Hok Hfit Hlen vs1 Hscan.
  assert (forall c z, len c < 2^16 -> contents (vs_db vs) !! makeVectorKey c z = None) as Hdb' by (intros; by apply Hdb; right; apply vector_range).
  assert (vs_inv 0 vs) as Hv0 by (apply vs_inv_empty; [done|intros c' u Hc' _; unfold stored; by rewrite Hdb']).
  destruct (vrun_ok dlt dist sort dlt_asym dlt_negtrans sort_perm level_of 0 os vs Hv0 ltac:(lia) Hlen Hok) as [Hv _].
  destruct (vrun_well 0 os vs Hv0 ltac:(lia) Hlen Hok) as [Hw Hcfg]; [intros c' z val Hc'; by rewrite Hdb'|intros c' col'; by rewrite Hc0, lookup_empty|].
  assert (layout vs1) as Hl.
  { apply (vrun_layout 0); [done|lia|lia|done|done|]. split; [intros c col; by rewrite Hc0, lookup_empty| |apply Hdb; by left]. intros u w Hu Hr. by rewrite Hdb in Hu by by right. }
  fold vs1 in Hv, Hw, Hcfg. assert (forall c, is_Some (vs_cols vs1 !! c) -> len c < 2^16) as Hname by (intros c [col E]; apply (vi_cols _ _ Hv c col E)).
  destruct (loadCollectionConfigs_ok vs1 Hl Hcfg Hname) as (cols & E1 & Hdom & Hfresh). destruct (range_cols_ok cols) as [Hnd Hin].
  destruct (loadAll_ok dir vs1 (range_cols cols) cols) as (cols' & E2 & Hdom' & Hre).
  - intros c col Ec. split; [by apply Hname; eexists|]. split; [|split; [done|intros k Hk; apply layout_clear; [done..|right; right; exists c, k; split; [by apply Hname; eexists|done]]]]. intros z val Ev. destruct (Hw c z val ltac:(apply Hname; by eexists) Ev) as (Hz & col1 & Ec1 & H1).
    rewrite Ec in Ec1. injection Ec1 as <-. done.
  - done.
  - intros c col' E. destruct (Hfresh c col' E) as (col & ? & ?). exists col. split; [done|]. by rewrite decide_True by (apply Hin; by eexists).
  - unfold VectorStore.NewVectorStore. rewrite E1. cbn [mbind outcome_bind]. rewrite E2. cbn [mbind outcome_bind]. eexists. split; [done|]. cbn [vs_db vs_cols].
    split; [done|]. split; [intros c; by rewrite Hdom', Hdom|]. intros c col Ec. destruct (proj2 (Hdom' c)) as [col' E']; [apply Hdom; by eexists|].
    destruct (Hre c col' E') as (col1 & Ec1 & Ecfg & n & Hinv). rewrite Ec in Ec1. injection Ec1 as <-. exists col'.
    split_and!; [done|done|by eapply col_inv_matches|by eapply col_inv_matches, (vi_cols _ _ Hv c col Ec)].
Qed.
End rebuild.

(** ** The map as a store with ranges *)
#[global] Instance map_seq : KVSeq (gmap bytes Value) := {
  db_ScanRange lo hi m := map (fun e => (e.1, 0, e.2)) (map_scan (fun u => bool_decide (ble lo u /\ blt u hi)) m);
  db_CurrentSeq _ := 0
}.
#[global] Instance map_seq_laws : KVSeqLaws (gmap bytes Value).
Proof.
  split. intros s lo hi _ _. cbn. rewrite map_map. cbn. destruct (map_scan_lists (fun u => bool_decide (ble lo u /\ blt u hi)) s) as [H1 H2].
  rewrite (map_ext _ (fun e => e)), map_id by by intros []. split; [done|]. intros u v. by rewrite H2, bool_decide_eq_true.
Qed.

Definition x_cols (m : gmap bytes collectionState) : list bytes := map fst (map_to_list m).
Lemma x_cols_ok m : NoDup (x_cols m) /\ forall c, c ∈ x_cols m <-> is_Some (m !! c).
Proof.
  split; [apply NoDup_fst_map_to_list|]. intros c. unfold x_cols. rewrite list_elem_of_fmap. split.
  - intros ([c' col] & -> & E%elem_of_map_to_list). by exists col.
  - intros [col E]. exists (c, col). split; [done|]. by apply elem_of_map_to_list.
Qed.
Definition x_restart (db : gmap bytes Value) : outcome VErr (VectorStore (gmap bytes Value)) :=
  NewVectorStore Z.ltb (fun _ => sq_dist) sort_dist (fun _ => 0%nat) elements x_cols ∅ ∅ db.
Definition x_answers (r : outcome VErr (VectorStore (gmap bytes Value))) : list (bytes * CollectionConfig * list (Z * (bytes * list Z))) :=
  match r with Ok vs => map (fun e => (e.1, c_config e.2, map_to_list (live (c_graph e.2)))) (map_to_list (vs_cols vs)) | _ => [] end.

(** A flaw: the configuration is stored in 16-bit fields and not checked.  A
    collection with an [EfConstruct] of 65536 is created and takes vectors; the
    database stores 0, the graph refuses it, and the node's vector store cannot be
    opened again: no collection of it. *)
Lemma config_truncated_restart_fails :
  let vs := x_run [VCreate x_col (mkCollection 2 MetricL2 2 65536 4 0); VPut x_col (x_id Byte.x01) [1; 1] ∅ (mkVer 10 0)] x_vs in
  vs.2 = [None; None] /\ x_restart (vs_db vs.1) = Err (ErrGraph ErrOptions).
Proof. vm_compute. done. Qed.

Lemma x_scan c : len (collectionScan c (vs_db (x_run x_ops x_vs).1)) <= 3.
Proof.
  transitivity (Z.of_nat (size (vs_db (x_run x_ops x_vs).1))); [|vm_compute; discriminate].
  unfold collectionScan, db_ScanRange, map_seq, map_scan. unfold len. rewrite length_map, (Permutation_length (merge_sort_Permutation _ _)), length_fmap.
  apply Nat2Z.inj_le. rewrite <-length_map_to_list. apply sublist_length, sublist_filter.
Qed.
Lemma vector_restart_witness :
  let db := vs_db (x_run x_ops x_vs).1 in
  exists vs2 col, x_restart db = Ok vs2 /\ vs_cols vs2 !! x_col = Some col /\ c_config col = x_cfg /\ index_matches (stored db x_col) (c_graph col) /\
    x_answers (Ok vs2) = [(x_col, x_cfg, [(0, (x_id Byte.x02, [5; 5]))])].
Proof.
  intros db. assert ((fun col => c_config col) <$> vs_cols (x_run x_ops x_vs).1 !! x_col = Some x_cfg) as Hc by (vm_compute; reflexivity).
  destruct (vs_cols (x_run x_ops x_vs).1 !! x_col) as [col|] eqn:Ec; [|discriminate Hc]. injection Hc as Hc.
  destruct (vector_restart Z.ltb (fun _ => sq_dist) sort_dist zlt_asym zlt_negtrans sort_dist_perm (fun _ => 0%nat) elements x_cols x_cols_ok ∅ x_vs x_ops) as (vs2 & E & _ & _ & H);
    [reflexivity|reflexivity|apply x_ok|unfold x_ops; repeat (apply Forall_cons; split; [first [exact I|repeat split; discriminate]|]); apply Forall_nil_2|reflexivity| |].
  { intros c. eapply Z.le_lt_trans; [apply x_scan|reflexivity]. }
  destruct (H x_col col Ec) as (col' & Ec' & Ecfg & Hm & _). exists vs2, col'. split; [exact E|]. split; [exact Ec'|]. split; [congruence|]. split; [exact Hm|].
  assert (x_answers (x_restart db) = [(x_col, x_cfg, [(0, (x_id Byte.x02, [5; 5]))])]) as Ev by (vm_compute; reflexivity).
  unfold x_restart in Ev. change (vs_db (VectorProof.vrun Z.ltb (fun _ => sq_dist) sort_dist (fun _ => 0%nat) x_ops x_vs).1) with db in E. rewrite E in Ev. exact Ev.
Defined.
