(* ===== verification/EngineSeq.v ===== *)
(** * The storage engine as the store of the vectors (src/db/read.go behind the class of VectorStore.v)

    The vector store recovers by range scans that also give the sequence number of
    each entry.  The engine has them: this file discharges [KVSeqLaws] for the type
    [engine] of EngineStore.v, and shows that the keys the vector store writes, of
    configurations and of vectors, are among those the engine serves: none of them
    is a proper prefix of another. *)

From Stdlib Require Import ZArith Lia List Sorted.
From stdpp Require Import base list option gmap sorting.
From S2P Require Import Prelude GoBytes KV Entries WAL Iter SkipList Memtable Iterators Block SSTable SSTIter.
From S2P Require Import Manifest Compaction Refcount Registry DB DBProof DBSpec DBScan KVStore EngineStore VecCodec VectorStore VectorRebuild.
Open Scope Z_scope.

Section engine_seq.
Context (opts : Options) (coins : Z -> nat -> bool).
Context (range_tables : gmap Z SSTableInfo -> list SSTableInfo).
Context (range_hnsw : gmap bytes HNSWSnapshotInfo -> list HNSWSnapshotInfo).
Context (K : bytes -> bool).
Context (Hopts : opts_ok opts) `{!KeyCode K}.

(** The entries of [ScanRange], drained, as [loadCollectionConfigs] and
    [fullRebuild] read them: user key, sequence number, value. *)
Definition sys_scan_range (lo hi : bytes) (s : sys) : list (bytes * Z * option bytes) :=
  match ScanRange (Some lo) (Some hi) (sdb s) with
  | Some (_, it) =>
      let fuel := total_entries (sdb s) in
      match drain (Iterator0 := snapshot_iterator (E := SstErr) fuel) fuel it with
      | Some (l, None) => map (fun kv => (UserKey kv.1, SeqNum kv.1, kv.2)) l
      | _ => []
      end
  | None => []
  end.

Abbreviation est_ok := (est_ok opts coins range_tables range_hnsw K).

(** A stored key that is a prefix of a bound is that bound. *)
Lemma clear_bound x p : est_ok x -> bound_clear (store_run (e_ops x)) p -> bound_compat p (e_hist x).
Proof using Hopts.
  intros Hx Hp. destruct (est_inv opts coins range_tables range_hnsw K Hopts x Hx) as [v Hv]. apply Forall_forall. intros e He Hpre.
  pose proof (abs_best_spec (e_hist x) (UserKey e.1) (nextSeq (sdb (e_sys x)))) as Hb. pose proof (inv_seqs _ _ _ _ (si_db _ _ _ _ Hv)) as Hs. rewrite Forall_forall in Hs.
  destruct (abs_best _ _ _) as [b|] eqn:Eb; [|exfalso; eapply Hb; [exact He|]; by split; [|apply Hs]].
  apply (Hp _ b.2); [|done]. rewrite (est_read opts coins range_tables range_hnsw K Hopts) by done. unfold abs_read. by rewrite Eb.
Qed.

Lemma sys_scan_range_spec x lo hi : est_ok x ->
  bound_clear (store_run (e_ops x)) lo -> bound_clear (store_run (e_ops x)) hi ->
  lists (store_run (e_ops x)) (fun u => ble lo u /\ blt u hi) (map (fun e => (e.1.1, e.2)) (sys_scan_range lo hi (e_sys x))).
Proof using Hopts KeyCode0.
  intros Hx Hlo Hhi. destruct (est_inv opts coins range_tables range_hnsw K Hopts x Hx) as [v Hv].
  destruct (scanRangeAt_ok _ _ _ _ (si_db _ _ _ _ Hv) (Some lo) (Some hi) (CurrentSeq (sdb (e_sys x))) (est_nonempty opts coins range_tables range_hnsw K x Hx)) as (db' & it & out & E & Hy & Hs & Hout).
  - intros u [[= <-]|[= <-]]; by apply clear_bound.
  - pose proof (si_levels _ _ _ _ Hv) as Hl. destruct Hopts as [_ Hlev]. intros E. rewrite E in Hl. cbn in Hl. lia.
  - unfold sys_scan_range, ScanRange. rewrite E.
    erewrite (yields_drain (E := SstErr)); [|exact Hy|by eapply (out_fuel opts coins range_tables range_hnsw K Hopts x out (fun e => in_range (Some lo) (Some hi) (UserKey e.1)))].
    rewrite map_map. cbn [fst snd]. by apply (scan_lists opts coins range_tables range_hnsw K Hopts).
Qed.

#[local] Instance engine_kv : KVStore (engine opts coins range_tables range_hnsw K) := engine_store opts coins range_tables range_hnsw K Hopts.
#[local] Instance engine_kv_laws : KVLaws (engine opts coins range_tables range_hnsw K) := engine_laws opts coins range_tables range_hnsw K Hopts.
Definition engine_seq : KVSeq (engine opts coins range_tables range_hnsw K) := {|
  db_ScanRange lo hi e := sys_scan_range lo hi (e_sys (proj1_sig e));
  db_CurrentSeq e := CurrentSeq (sdb (e_sys (proj1_sig e)))
|}.
Definition engine_seq_laws : @KVSeqLaws _ _ _ engine_seq.
Proof using KeyCode0.
  refine (@Build_KVSeqLaws _ _ _ engine_seq _). intros e lo hi Hlo Hhi. apply sys_scan_range_spec; [apply (proj2_sig e)|done..].
Defined.

(** A new database, where the vector store of a node starts. *)
Definition new_engine : engine opts coins range_tables range_hnsw K := exist _ (est_init opts coins range_hnsw) (est_init_ok opts coins range_tables range_hnsw K).
Lemma new_engine_empty : contents new_engine = ∅.
Proof. reflexivity. Qed.
End engine_seq.

(** ** The keys of the vector store *)
(** A key the vector store writes: it is parsed back to what it was made of. *)
Definition vector_key (u : bytes) : bool :=
  match parseVectorKey u with
  | Ok (c, id, kind) => (len c <? 2^16) && bool_decide (u = collectionKey c kind ++ id) && bool_decide (kind = kindConfig /\ id = [] \/ kind = kindVector /\ len id = 16)
  | _ => false
  end.
Lemma vector_key_spec u :
  vector_key u = true <-> exists c, len c < 2^16 /\ (u = makeCollectionConfigKey c \/ exists id, len id = 16 /\ u = makeVectorKey c id).
Proof.
  unfold vector_key. split.
  - destruct (parseVectorKey u) as [[[c id] kind]| |]; [|done..]. intros [[Hc%Z.ltb_lt Hu%bool_decide_eq_true]%andb_prop Hk%bool_decide_eq_true]%andb_prop.
    exists c. split; [done|]. destruct Hk as [[-> ->]|[-> Hid]]; [left; by rewrite Hu, app_nil_r|right; by exists id].
  - intros (c & Hc & [->|(id & Hid & ->)]); destruct (collection_keys_lemma c c id) as (E1 & E2 & _) || destruct (collection_keys_lemma c c (replicate 16 Byte.x00)) as (E1 & E2 & _); try done.
    + rewrite E2. rewrite (proj2 (Z.ltb_lt _ _) Hc), !bool_decide_true by (rewrite ?app_nil_r; auto). done.
    + rewrite E1. rewrite (proj2 (Z.ltb_lt _ _) Hc), !bool_decide_true by auto. done.
Qed.
#[global] Instance vector_key_code : KeyCode vector_key.
Proof.
  split; [done|]. intros u v (c & Hc & Hu)%vector_key_spec (c' & Hc' & Hv)%vector_key_spec [t E].
  destruct Hu as [->|(id & Hid & ->)], Hv as [->|(id' & Hid' & ->)]; unfold makeCollectionConfigKey, makeVectorKey in *.
  - rewrite <-(app_nil_r (collectionKey c' _)) in E. by apply collectionKey_inj in E as (-> & _).
  - by apply collectionKey_inj in E as (_ & ? & _).
  - rewrite <-(app_nil_r (collectionKey c' _)), <-app_assoc in E. by apply collectionKey_inj in E as (_ & ? & _).
  - rewrite <-app_assoc in E. apply collectionKey_inj in E as (-> & _ & ->); [|done..]. rewrite len_app in Hid'. destruct t; [by rewrite app_nil_r|]. rewrite len_cons in Hid'. pose proof (len_nonneg t). lia.
Qed.
