(* ===== verification/VectorServer.v ===== *)
(** * Vector RPCs of a node (src/server/internal_handlers.go, vector_adapter.go)

    The handlers a node serves to other nodes for vectors, over its clock and its
    vector store, and the adapter by which the coordinator uses the store of its
    own node.  A panic of the store would end the process; it is kept apart. *)

From Stdlib Require Import ZArith Lia List Sorted.
From stdpp Require Import base list option gmap.
From S2P Require Import Prelude GoBytes KV Entries HLC KVStore Heap HNSW HNSWSnapshot VecCodec VectorStore Replica Reconcile.
Open Scope Z_scope.

Inductive vcode := VUnavailable | VInvalidArgument | VNotFound | VFailedPrecondition | VInternal.

(** ** Messages *)
Record ReplicateVectorWriteRequest := mkVWrite {
  vwCollection : bytes; vwId : bytes; vwVector : list Z; vwMetadata : gmap bytes bytes; vwTimestamp : option Timestamp; vwDigest : Z }.
Record ReplicateVectorDeleteRequest := mkVDelete { vdCollection : bytes; vdId : bytes; vdTimestamp : option Timestamp; vdDigest : Z }.
Record ReplicateVectorSearchRequest := mkVSearch { vsCollection : bytes; vsQuery : list Z; vsK : Z; vsEfSearch : Z; vsDigest : Z }.
(** [cluster.VectorSearchResult], and the wire form of a result without metadata. *)
Record VectorSearchResult (D : Type) := mkVRes { vrID : bytes; vrVector : list Z; vrDistance : D; vrVersion : VectorVersion }.
Arguments mkVRes {D} _ _ _ _.
Arguments vrID {D} _.
Arguments vrVector {D} _.
Arguments vrDistance {D} _.
Arguments vrVersion {D} _.

(** [copy(id[:], b)] into a zeroed array of 16 bytes. *)
Definition copyID (b : bytes) : bytes := take 16 b ++ replicate (16 - length b) Byte.x00.

(** Metadata on the wire has raw bytes for values. *)
Definition protoMetadataToVectorMeta (m : gmap bytes bytes) : Metadata := MBytes <$> m.
Definition tsVersion (ts : Timestamp) : VectorVersion := mkVer (WallTime ts) (Logical ts).

Section server.
Context {S : Type} `{!KVStore S} {D : Type}.
Context (dlt : D -> D -> bool) (dist : Z -> list Z -> list Z -> D) (sort : list (heapItem D) -> list (heapItem D)).
Context (level_of : Z -> nat).

(** The clock is nil on a standalone node. *)
Record vserver := mkVServer { sv_clock : option Clock; sv_store : option (VectorStore S) }.

(** ** internal_handlers.go *)
(** The checks of a write or a deletion, before the clock is updated. *)
Definition checkDigest (collection : bytes) (digest : Z) (vs : VectorStore S) : option vcode :=
  match GetCollectionConfig collection vs with
  | Ok cfg => if negb (digest =? 0) && negb (digest =? ConfigDigest cfg) then Some VFailedPrecondition else None
  | _ => Some VNotFound
  end.
Definition updateClock (pt : Z) (ts : Timestamp) (c : option Clock) : option Clock * bool :=
  match c with
  | None => (None, true)
  | Some c => let '(c, err) := Update c pt ts in (Some c, bool_decide (err = None))
  end.
Definition status_of (e : option VErr) : outcome vcode unit :=
  match e with None => Ok tt | Some VPanic => Panic | Some _ => Err VInternal end.

Definition ReplicateVectorWrite (pt : Z) (req : ReplicateVectorWriteRequest) (s : vserver) : vserver * outcome vcode unit :=
  match sv_store s with
  | None => (s, Err VUnavailable)
  | Some vs =>
      match vwTimestamp req with
      | None => (s, Err VInvalidArgument)
      | Some p =>
          if negb (len (vwId req) =? 16) then (s, Err VInvalidArgument) else
          match checkDigest (vwCollection req) (vwDigest req) vs with
          | Some c => (s, Err c)
          | None =>
              let ts := protoToHLCTimestamp p in
              let '(clock, ok) := updateClock pt ts (sv_clock s) in
              if negb ok then (mkVServer clock (sv_store s), Err VInternal) else
              let '(vs, err) := VectorStore.Put dlt dist sort level_of (vwCollection req) (copyID (vwId req)) (vwVector req) (protoMetadataToVectorMeta (vwMetadata req)) (tsVersion ts) vs in
              (mkVServer clock (Some vs), status_of err)
          end
      end
  end.

Definition ReplicateVectorDelete (pt : Z) (req : ReplicateVectorDeleteRequest) (s : vserver) : vserver * outcome vcode unit :=
  match sv_store s with
  | None => (s, Err VUnavailable)
  | Some vs =>
      match vdTimestamp req with
      | None => (s, Err VInvalidArgument)
      | Some p =>
          if negb (len (vdId req) =? 16) then (s, Err VInvalidArgument) else
          match checkDigest (vdCollection req) (vdDigest req) vs with
          | Some c => (s, Err c)
          | None =>
              let ts := protoToHLCTimestamp p in
              let '(clock, ok) := updateClock pt ts (sv_clock s) in
              if negb ok then (mkVServer clock (sv_store s), Err VInternal) else
              let '(vs, err) := VectorStore.Delete (vdCollection req) (copyID (vdId req)) (tsVersion ts) vs in
              (mkVServer clock (Some vs), status_of err)
          end
      end
  end.

Definition resultToProto (r : Result D) : VectorSearchResult D := mkVRes (res_ID r) (res_Vector r) (res_Distance r) (res_Version r).
Definition ReplicateVectorSearch (req : ReplicateVectorSearchRequest) (s : vserver) : outcome vcode (list (VectorSearchResult D)) :=
  match sv_store s with
  | None => Err VUnavailable
  | Some vs =>
      match checkDigest (vsCollection req) (vsDigest req) vs with
      | Some c => Err c
      | None =>
          if negb (CollectionReady (vsCollection req) vs) then Err VUnavailable else
          match VectorStore.Search dlt dist sort (vsCollection req) (vsQuery req) (vsK req) (vsEfSearch req) vs with
          | Ok results => Ok (map resultToProto results)
          | Err _ => Err VInternal
          | Panic => Panic
          end
      end
  end.

(** ** vector_adapter.go: the store as the coordinator of its node sees it *)
Definition adapter_Put (collection id : bytes) (vec : list Z) (meta : Metadata) (ver : VectorVersion) (vs : VectorStore S) : VectorStore S * option VErr :=
  VectorStore.Put dlt dist sort level_of collection id vec meta ver vs.
Definition adapter_Delete (collection id : bytes) (ver : VectorVersion) (vs : VectorStore S) : VectorStore S * option VErr :=
  VectorStore.Delete collection id ver vs.
Definition adapter_Search (collection : bytes) (query : list Z) (k efSearch : Z) (vs : VectorStore S) : outcome VErr (list (VectorSearchResult D)) :=
  match VectorStore.Search dlt dist sort collection query k efSearch vs with
  | Ok results => Ok (map resultToProto results)
  | Err e => Err e
  | Panic => Panic
  end.
Definition adapter_DistanceFunc (collection : bytes) (vs : VectorStore S) : outcome VErr (list Z -> list Z -> D) :=
  match GetCollectionConfig collection vs with
  | Ok cfg => match MetricToDistanceFunc (cMetric cfg) with Ok m => Ok (dist m) | Err e => Err (ErrCodec e) | Panic => Panic end
  | Err e => Err e
  | Panic => Panic
  end.
Definition adapter_ConfigDigest (collection : bytes) (vs : VectorStore S) : outcome VErr Z :=
  match GetCollectionConfig collection vs with Ok cfg => Ok (ConfigDigest cfg) | Err e => Err e | Panic => Panic end.
Definition adapter_GetLatest (collection id : bytes) (vs : VectorStore S) : outcome VErr LatestEntry :=
  VectorStore.GetLatest collection id vs.
End server.
Arguments vserver : clear implicits.
Arguments mkVServer {S} _ _.

(** ** vector_handlers.go: versions of a standalone node *)
Record localVersionGen := mkGen { lastW : Z; lastL : Z }.
(** [now] is the reading of [time.Now().UnixNano()]. *)
Definition Next (now : Z) (g : localVersionGen) : localVersionGen * VectorVersion :=
  let g := if lastW g <? now then mkGen now 0 else mkGen (lastW g) (u32 (lastL g + 1)) in
  (g, mkVer (lastW g) (lastL g)).

(** The versions issued for successive readings. *)
Fixpoint issue (nows : list Z) (g : localVersionGen) : list VectorVersion :=
  match nows with [] => [] | now :: nows => let '(g, v) := Next now g in v :: issue nows g end.

Lemma issue_after nows g w l :
  0 <= lastL g -> lastL g + len nows < 2^32 -> w < lastW g \/ w = lastW g /\ l <= lastL g -> Forall (fun v => After v (mkVer w l) = true) (issue nows g).
Proof.
  revert g. induction nows as [|now nows IH]; intros g H0 Hl Hg; [constructor|]. rewrite len_cons in Hl. pose proof (len_nonneg nows). cbn [issue]. unfold Next.
  destruct (Z.ltb_spec (lastW g) now); cbn; (constructor; [|apply IH; cbn; unfold u32; rewrite ?Z.mod_small by lia; lia]); unfold After; cbn; unfold u32; rewrite ?Z.mod_small by lia; lia.
Qed.
(** Fewer than 2^32 versions from a standalone node strictly increase, whatever its
    clock does, even when it is set back. *)
Lemma versions_increase nows g : 0 <= lastL g -> lastL g + len nows < 2^32 -> StronglySorted (fun a b => After b a = true) (issue nows g).
Proof.
  revert g. induction nows as [|now nows IH]; intros g H0 Hl; [constructor|]. rewrite len_cons in Hl. pose proof (len_nonneg nows). cbn [issue]. unfold Next.
  destruct (Z.ltb_spec (lastW g) now); cbn; (constructor; [apply IH|apply issue_after]); cbn; unfold u32; rewrite ?Z.mod_small by lia; lia.
Qed.
