(* ===== verification/VectorCoord.v ===== *)
(** * Vector operations of the cluster (src/cluster/coordinator_vector.go, src/server/vector_handlers.go)

    All the vectors of a collection live on the N replicas of its name.  A write or
    a deletion is sent to them and waits for W acknowledgements; a query is answered
    by the readable replicas, R of which must answer, and the coordinator merges,
    reranks and validates what they return and repairs stale replicas.  As in
    Coordinator.v a goroutine is a task that runs at any time with any fate of its
    remote call.

    [Sprint] is the formatting of a metadata value with fmt.Sprintf and
    [marshalWrite], [marshalDelete] are proto.Marshal; [sort_results] is the sort by
    distance. *)

From Stdlib Require Import ZArith Lia List Sorted.
From stdpp Require Import base list option gmap.
From S2P Require Import Prelude GoBytes KV Entries HLC KVStore Heap HNSW HNSWSnapshot VecCodec VectorStore Replica Reconcile Member HintStore HashRing Coordinator VectorServer.
Open Scope Z_scope.

Inductive VCoordErr := ErrNoVectorStore | ErrVectorSearchFailed | ErrVConfigDigest | ErrVNotEnoughReplicas | ErrVWriteQuorumNotMet | ErrGetDistance.

Definition hlcToVersion (ts : Timestamp) : VectorVersion := mkVer (WallTime ts) (Logical ts).
Definition defaultOversample : Z := 4.

Section vcoord.
Context {S : Type} `{!KVStore S} {D : Type}.
Context (dlt : D -> D -> bool) (dist : Z -> list Z -> list Z -> D) (sort : list (heapItem D) -> list (heapItem D)).
Context (level_of : Z -> nat).
Context (sort_results : list (VectorSearchResult D) -> list (VectorSearchResult D)).
Context (Sum64 : bytes -> Z) (cfg : CoordinatorConfig) (resolve : bytes -> bytes).
Context (Sprint : MetaValue -> bytes).
Context (marshalWrite : ReplicateVectorWriteRequest -> option bytes) (marshalDelete : ReplicateVectorDeleteRequest -> option bytes).
Abbreviation VSR := (VectorSearchResult D).

Record vpeer := mkVPeer { vp_srv : vserver S; vp_mem : Membership; vp_ring : Ring; vp_hints : option (Store S) }.
Abbreviation vcluster := (gmap bytes vpeer).
Definition set_srv (p : vpeer) (s : vserver S) : vpeer := mkVPeer s (vp_mem p) (vp_ring p) (vp_hints p).
Definition set_vhints (p : vpeer) (h : option (Store S)) : vpeer := mkVPeer (vp_srv p) (vp_mem p) (vp_ring p) h.

(** ** Writes and deletions *)
Inductive vecop := OpWrite (vec : list Z) (meta : Metadata) | OpDelete.
Record vplan := mkVPlan {
  vw_collection : bytes; vw_id : bytes; vw_op : vecop; vw_ts : Timestamp; vw_digest : Z; vw_voters : list Node; vw_learners : list Node }.

Definition metadataToProto (meta : Metadata) : gmap bytes bytes :=
  (fun v => match v with MString b => b | MBytes b => b | v => Sprint v end) <$> meta.
Definition writeRequest (w : vplan) (vec : list Z) (meta : Metadata) : ReplicateVectorWriteRequest :=
  mkVWrite (vw_collection w) (vw_id w) vec (metadataToProto meta) (Some (vw_ts w)) (vw_digest w).
Definition deleteRequest (w : vplan) : ReplicateVectorDeleteRequest := mkVDelete (vw_collection w) (vw_id w) (Some (vw_ts w)) (vw_digest w).

(** [VectorWrite] and [VectorDelete] up to the start of their goroutines. *)
Definition vectorBegin (self : bytes) (pt : Z) (collection id : bytes) (op : vecop) (c : vcluster) : vcluster * outcome VCoordErr vplan :=
  match c !! self with
  | None => (c, Panic)
  | Some p =>
      match sv_store (vp_srv p), sv_clock (vp_srv p) with
      | None, _ => (c, Err ErrNoVectorStore)
      | _, None => (c, Panic)
      | Some vs, Some clock =>
          let '(clock, ts) := Now clock pt in
          let c := <[self := set_srv p (mkVServer (Some clock) (Some vs))]> c in
          match adapter_ConfigDigest collection vs with
          | Ok digest =>
              match GetNodes Sum64 (vp_ring p) collection (ReplicationFactor cfg) with
              | None => (c, Panic)
              | Some replicas =>
                  let '(voters, learners) := splitReplicas (vp_mem p) replicas in
                  if len voters <? WriteQuorum cfg then (c, Err ErrVNotEnoughReplicas)
                  else (c, Ok (mkVPlan collection id op ts digest voters learners))
              end
          | Err _ => (c, Err ErrVConfigDigest)
          | Panic => (c, Panic)
          end
      end
  end.

(** The request reaches the node at [addr]; a node that panics does not answer. *)
Definition deliverVector (pt : Z) (addr : bytes) (w : vplan) (c : vcluster) : vcluster * bool :=
  match c !! resolve addr with
  | None => (c, false)
  | Some p =>
      let '(s, r) := match vw_op w with
        | OpWrite vec meta => ReplicateVectorWrite dlt dist sort level_of pt (writeRequest w vec meta) (vp_srv p)
        | OpDelete => ReplicateVectorDelete pt (deleteRequest w) (vp_srv p)
        end in
      (<[resolve addr := set_srv p s]> c, match r with Ok _ => true | _ => false end)
  end.
(** [remoteVectorWrite] and [remoteVectorDelete]. *)
Definition remoteVector (f : fate) (addr : bytes) (w : vplan) (c : vcluster) : vcluster * bool :=
  match f with
  | Lost => (c, false)
  | ReplyLost pt => ((deliverVector pt addr w c).1, false)
  | Delivered pt => deliverVector pt addr w c
  end.

(** The operation on the node's own store; whether it has no error.  That it does not panic is [vector_index_consistent]. *)
Definition localVector (self : bytes) (w : vplan) (c : vcluster) : vcluster * bool :=
  match c !! self with
  | None => (c, false)
  | Some p =>
      match sv_store (vp_srv p) with
      | None => (c, false)
      | Some vs =>
          let '(vs, err) := match vw_op w with
            | OpWrite vec meta => adapter_Put dlt dist sort level_of (vw_collection w) (vw_id w) vec meta (hlcToVersion (vw_ts w)) vs
            | OpDelete => adapter_Delete (vw_collection w) (vw_id w) (hlcToVersion (vw_ts w)) vs
            end in
          (<[self := set_srv p (mkVServer (sv_clock (vp_srv p)) (Some vs))]> c, match err with None => true | Some _ => false end)
      end
  end.

(** [storeVectorWriteHint] and [storeVectorDeleteHint]. *)
Definition hintPayload (w : vplan) : option bytes :=
  match vw_op w with
  | OpWrite vec meta => payload ← marshalWrite (writeRequest w vec meta); Some (HintVectorWrite :: payload)
  | OpDelete => payload ← marshalDelete (deleteRequest w); Some (HintVectorDelete :: payload)
  end.
Definition storeVectorHint (target : bytes) (w : vplan) (hs : Store S) : Store S :=
  match hintPayload w with
  | None => hs
  | Some hintValue => (Add target (vw_collection w) hintValue (vw_ts w) hs).1
  end.

Definition vectorLearnerTask (self : bytes) (w : vplan) (node : Node) (f : fate) (c : vcluster) : vcluster :=
  match c !! self with
  | None => c
  | Some p => if negb (IsRoutable (vp_mem p) (HashRing.NodeID node)) then c else (remoteVector f (Addr node) w c).1
  end.
Definition vectorVoterTask (self : bytes) (w : vplan) (node : Node) (f : fate) (c : vcluster) : vcluster * bool :=
  match c !! self with
  | None => (c, false)
  | Some p =>
      if bytes_Equal (HashRing.NodeID node) self then localVector self w c
      else if IsRoutable (vp_mem p) (HashRing.NodeID node) then remoteVector f (Addr node) w c
      else match vp_hints p with
           | None => (c, false)
           | Some hs => (<[self := set_vhints p (Some (storeVectorHint (HashRing.NodeID node) w hs))]> c, false)
           end
  end.
Fixpoint runVectorTasks (self : bytes) (w : vplan) (sched : list (nat * fate)) (c : vcluster) : vcluster * list (nat * bool) :=
  match sched with
  | [] => (c, [])
  | (i, f) :: sched =>
      match vw_voters w !! i with
      | Some node =>
          let '(c, ok) := vectorVoterTask self w node f c in
          let '(c, acks) := runVectorTasks self w sched c in (c, (i, ok) :: acks)
      | None =>
          match vw_learners w !! (i - length (vw_voters w))%nat with
          | Some node => runVectorTasks self w sched (vectorLearnerTask self w node f c)
          | None => runVectorTasks self w sched c
          end
      end
  end.
(** As [writeInternal]: [None] when the client still waits. *)
Definition vectorInternal (self : bytes) (pt : Z) (collection id : bytes) (op : vecop) (sched : list (nat * fate)) (arrival : list nat) (c : vcluster)
  : vcluster * option (outcome VCoordErr unit) :=
  match vectorBegin self pt collection id op c with
  | (c, Ok w) =>
      let '(c, acks) := runVectorTasks self w sched c in
      let maxFailures := len (vw_voters w) - WriteQuorum cfg + 1 in
      (c, (fun ok : bool => if ok then Ok tt else Err ErrVWriteQuorumNotMet) <$>
          collectAcks (WriteQuorum cfg) maxFailures 0 0 (omap (fun i => snd <$> acks !! i) arrival))
  | (c, Err e) => (c, Some (Err e))
  | (c, Panic) => (c, Some Panic)
  end.
Definition VectorWrite (self : bytes) (pt : Z) (collection id : bytes) (vec : list Z) (meta : Metadata) :=
  vectorInternal self pt collection id (OpWrite vec meta).
Definition VectorDelete (self : bytes) (pt : Z) (collection id : bytes) := vectorInternal self pt collection id OpDelete.

(** ** Queries *)
(** A replica's answer. *)
Definition replicaResult : Type := bytes * outcome VErr (list VSR).

(** The query up to the start of its goroutines: the replicas, what each is asked for, and the digest. *)
Definition searchBegin (self collection : bytes) (k oversample : Z) (c : vcluster) : outcome VCoordErr (list Node * Z * Z) :=
  match c !! self with
  | None => Panic
  | Some p =>
      match sv_store (vp_srv p) with
      | None => Err ErrNoVectorStore
      | Some vs =>
          let perReplicaK := k * (if oversample <=? 0 then defaultOversample else oversample) in
          match GetNodes Sum64 (vp_ring p) collection (ReplicationFactor cfg) with
          | None => Panic
          | Some replicas =>
              let ns := readable (vp_mem p) replicas in
              if len ns <? ReadQuorum cfg then Err ErrVectorSearchFailed else
              let digest := match adapter_ConfigDigest collection vs with Ok d => d | _ => 0 end in
              if len ns * perReplicaK <? 0 then Panic else Ok (ns, perReplicaK, digest)
          end
      end
  end.

Definition remoteVectorSearch (f : fate) (addr collection : bytes) (query : list Z) (k efSearch digest : Z) (c : vcluster) : outcome VErr (list VSR) :=
  match f, c !! resolve addr with
  | Delivered _, Some p =>
      match ReplicateVectorSearch dlt dist sort (mkVSearch collection query (i32 k) (i32 efSearch) digest) (vp_srv p) with
      | Ok rs => Ok (map (fun r => mkVRes (copyID (vrID r)) (vrVector r) (vrDistance r) (vrVersion r)) rs)
      | _ => Err ErrKV
      end
  | _, _ => Err ErrKV
  end.
Definition searchTask (self collection : bytes) (query : list Z) (k efSearch digest : Z) (node : Node) (f : fate) (c : vcluster) : replicaResult :=
  (HashRing.NodeID node,
   if bytes_Equal (HashRing.NodeID node) self then
     match p ← c !! self; sv_store (vp_srv p) with Some vs => adapter_Search dlt dist sort collection query k efSearch vs | None => Panic end
   else remoteVectorSearch f (Addr node) collection query k efSearch digest c).

(** The results of one answer with the node they come from. *)
Definition tagged (r : replicaResult) : list (VSR * bytes) :=
  match r.2 with Ok rs => map (fun x => (x, r.1)) rs | _ => [] end.
(** Phase 1: wait for the quorum; [None]: it waits for another answer. *)
Fixpoint collectSearch (R maxFailures successes failures : Z) (all : list (VSR * bytes)) (arrivals : list replicaResult)
  : option (outcome VCoordErr (list (VSR * bytes) * Z * Z * list replicaResult)) :=
  if (successes <? R) && (failures <? maxFailures) then
    match arrivals with
    | [] => None
    | r :: arrivals =>
        match r.2 with
        | Ok _ => collectSearch R maxFailures (successes + 1) failures (all ++ tagged r) arrivals
        | Err _ => collectSearch R maxFailures successes (failures + 1) all arrivals
        | Panic => Some Panic
        end
    end
  else Some (Ok (all, successes, failures, arrivals)).
(** Phase 2: the answers that are ready by then, [late] of them, at most one per replica that is still out. *)
Definition drainLate (remaining : Z) (late : nat) (arrivals : list replicaResult) : list (VSR * bytes) :=
  concat (map tagged (take (Z.to_nat (Z.min (Z.of_nat late) remaining)) arrivals)).

(** Merging: the greatest version of each identifier, at its first place, and which nodes answered which version. *)
Record dedup := mkDedup { dd_seen : gmap bytes (nat * VectorVersion); dd_list : list VSR; dd_prov : gmap bytes (list (bytes * VectorVersion)) }.
Definition dedupStep (st : dedup) (tr : VSR * bytes) : dedup :=
  let '(r, node) := tr in
  let prov := <[vrID r := default [] (dd_prov st !! vrID r) ++ [(node, vrVersion r)]]> (dd_prov st) in
  match dd_seen st !! vrID r with
  | Some (idx, ver) =>
      if After (vrVersion r) ver
      then mkDedup (<[vrID r := (idx, vrVersion r)]> (dd_seen st)) (<[idx := r]> (dd_list st)) prov
      else mkDedup (dd_seen st) (dd_list st) prov
  | None => mkDedup (<[vrID r := (length (dd_list st), vrVersion r)]> (dd_seen st)) (dd_list st ++ [r]) prov
  end.
Definition dedupAll (all : list (VSR * bytes)) : dedup := fold_left dedupStep all (mkDedup ∅ [] ∅).

Definition rerank (distFn : list Z -> list Z -> D) (query : list Z) (l : list VSR) : list VSR :=
  map (fun r => mkVRes (vrID r) (vrVector r) (distFn query (vrVector r)) (vrVersion r)) l.

Record repairTarget := mkRepair { rt_node : bytes; rt_id : bytes; rt_vec : list Z; rt_meta : Metadata; rt_version : VectorVersion; rt_deleted : bool }.
Definition deleteRepairs (self : bytes) (prov : list (bytes * VectorVersion)) (id : bytes) (ver : VectorVersion) : list repairTarget :=
  omap (fun pe => if bytes_Equal pe.1 self then None else Some (mkRepair pe.1 id [] ∅ ver true)) prov.
Definition writeRepairs (self : bytes) (prov : list (bytes * VectorVersion)) (r : VSR) : list repairTarget :=
  omap (fun pe => if negb (bytes_Equal pe.1 self) && After (vrVersion r) pe.2 then Some (mkRepair pe.1 (vrID r) (vrVector r) ∅ (vrVersion r) false) else None) prov.
(** What the own store says of a candidate: the result to keep, if any, and repairs. *)
Definition validate (self collection : bytes) (distFn : list Z -> list Z -> D) (query : list Z) (vs : VectorStore S)
  (prov : gmap bytes (list (bytes * VectorVersion))) (r : VSR) : outcome VCoordErr (option VSR * list repairTarget) :=
  let pes := default [] (prov !! vrID r) in
  match adapter_GetLatest collection (vrID r) vs with
  | Panic => Panic
  | Err _ => Ok (Some r, [])
  | Ok latest =>
      if negb (le_Found latest) then Ok (Some r, []) else
      if After (le_Version latest) (vrVersion r) then
        if le_Deleted latest then Ok (None, deleteRepairs self pes (vrID r) (le_Version latest))
        else let r := mkVRes (vrID r) (le_Vector latest) (distFn query (le_Vector latest)) (le_Version latest) in Ok (Some r, writeRepairs self pes r)
      else Ok (Some r, writeRepairs self pes r)
  end.
Fixpoint validateAll (self collection : bytes) (distFn : list Z -> list Z -> D) (query : list Z) (vs : VectorStore S)
  (prov : gmap bytes (list (bytes * VectorVersion))) (l : list VSR) : outcome VCoordErr (list VSR * list repairTarget) :=
  match l with
  | [] => Ok ([], [])
  | r :: l =>
      '(o, reps) ← validate self collection distFn query vs prov r;
      '(rs, reps') ← validateAll self collection distFn query vs prov l;
      Ok (match o with Some r => r :: rs | None => rs end, reps ++ reps')
  end.
(** The query from the answers in their order of arrival: what the client gets, and the repairs started. *)
Definition searchFinish (self collection : bytes) (query : list Z) (k : Z) (ns : list Node) (vs : VectorStore S) (late : nat) (arrivals : list replicaResult)
  : option (outcome VCoordErr (list VSR * list repairTarget)) :=
  r ← collectSearch (ReadQuorum cfg) (len ns - ReadQuorum cfg + 1) 0 0 [] arrivals;
  Some ('(all, successes, failures, rest) ← r;
    if successes <? ReadQuorum cfg then Err ErrVectorSearchFailed else
    let all := all ++ drainLate (len ns - successes - failures) late rest in
    let st := dedupAll all in
    match adapter_DistanceFunc dist collection vs with
    | Ok distFn =>
        '(validated, repairs) ← validateAll self collection distFn query vs (dd_prov st) (rerank distFn query (dd_list st));
        let validated := sort_results validated in
        if k <? len validated then (if k <? 0 then Panic else Ok (take (Z.to_nat k) validated, repairs)) else Ok (validated, repairs)
    | Err _ => Err ErrGetDistance
    | Panic => Panic
    end).
Definition VectorSearch (self collection : bytes) (query : list Z) (k oversample : Z) (late : nat) (arrivals : list replicaResult) (c : vcluster)
  : option (outcome VCoordErr (list VSR * list repairTarget)) :=
  match searchBegin self collection k oversample c with
  | Ok (ns, _, _) =>
      match p ← c !! self; sv_store (vp_srv p) with
      | Some vs => searchFinish self collection query k ns vs late arrivals
      | None => Some Panic
      end
  | Err e => Some (Err e)
  | Panic => Some Panic
  end.

(** ** Repairs *)
(** One repair for each node and vector, to the node's address. *)
Fixpoint repairsToSend (seen : gset (bytes * bytes)) (addrs : gmap bytes bytes) (repairs : list repairTarget) : list (repairTarget * bytes) :=
  match repairs with
  | [] => []
  | r :: repairs =>
      if decide ((rt_node r, rt_id r) ∈ seen) then repairsToSend seen addrs repairs else
      let rest := repairsToSend (seen ∪ {[(rt_node r, rt_id r)]}) addrs repairs in
      match addrs !! rt_node r with Some addr => (r, addr) :: rest | None => rest end
  end.
Definition nodeAddrs (ns : list Node) : gmap bytes bytes := fold_left (fun m n => <[HashRing.NodeID n := Addr n]> m) ns ∅.
Definition repairTask (collection : bytes) (digest : Z) (rt : repairTarget) (addr : bytes) (f : fate) (c : vcluster) : vcluster :=
  let ts := mkTs (vWallTime (rt_version rt)) (vLogical (rt_version rt)) [] in
  let op := if rt_deleted rt then OpDelete else OpWrite (rt_vec rt) (rt_meta rt) in
  (remoteVector f addr (mkVPlan collection (rt_id rt) op ts digest [] []) c).1.
Definition vectorReadRepair (collection : bytes) (digest : Z) (ns : list Node) (repairs : list repairTarget) (fates : list fate) (c : vcluster) : vcluster :=
  fold_left (fun c (xf : repairTarget * bytes * fate) => repairTask collection digest xf.1.1 xf.1.2 xf.2 c) (zip (repairsToSend ∅ (nodeAddrs ns) repairs) fates) c.
End vcoord.
