(* ===== verification/VectorCoordProof.v ===== *)
(** * Vector operations of the cluster: theorems

    What a query of the cluster answers and repairs, that an acknowledged write is
    at a quorum of replicas, and two flaws: a deletion the coordinator knows of
    does not keep the vector out of its answers, and a read repair drops the
    metadata of the vector. *)

From Stdlib Require Import ZArith Lia List Sorted.
From stdpp Require Import base list option gmap sorting.
From S2P Require Import Prelude GoBytes KV Entries HLC KVStore Heap HNSW HNSWProof HNSWSpec HNSWSnapshot VecCodec VectorStore VectorProof.
From S2P Require Import Replica Reconcile Member HintStore HashRing Coordinator CoordSpec VectorServer VectorCoord.
Open Scope Z_scope.

Section merge.
Context {S : Type} `{!KVStore S} {D : Type}.
Context (dlt : D -> D -> bool) (dist : Z -> list Z -> list Z -> D).
Abbreviation VSR := (VectorSearchResult D).
Definition vr_le (a b : VSR) : Prop := dle dlt (vrDistance a) (vrDistance b).
Context (sort_results : list VSR -> list VSR) (sort_results_perm : forall l, sort_results l ≡ₚ l) (sort_results_sorted : forall l, StronglySorted vr_le (sort_results l)).
Context (cfg : CoordinatorConfig).

Lemma After_le_trans a b c : After a b = false -> After b c = false -> After a c = false.
Proof. unfold After. repeat case_match; lia. Qed.
Lemma After_lt_trans a b c : After a b = true -> After c b = false -> After a c = true.
Proof. unfold After. repeat case_match; lia. Qed.
Lemma NoDup_map_inj {A B} (f : A -> B) (l : list A) x y : NoDup (map f l) -> x ∈ l -> y ∈ l -> f x = f y -> x = y.
Proof.
  intros Hnd [i Hi]%list_elem_of_lookup [j Hj]%list_elem_of_lookup E. assert (i = j) as ->; [|congruence].
  apply (NoDup_lookup _ i j (f x) Hnd); rewrite list_lookup_fmap; [by rewrite Hi|rewrite Hj; cbn; by rewrite E].
Qed.

(** ** Collecting answers *)
Definition isOk (r : replicaResult (D := D)) : bool := match r.2 with Ok _ => true | _ => false end.
Definition answered (l : list (replicaResult (D := D))) : Z := len (filter (fun r => isOk r = true) l).
Lemma answered_cons r l : answered (r :: l) = (if isOk r then 1 else 0) + answered l.
Proof. unfold answered. destruct (isOk r) eqn:E; [rewrite filter_cons_True, len_cons by done|rewrite filter_cons_False by congruence]; done. Qed.
Lemma collectSearch_spec R maxF s f all arr all' s' f' rest :
  collectSearch R maxF s f all arr = Some (Ok (all', s', f', rest)) ->
  exists used, arr = used ++ rest /\ all' = all ++ concat (map tagged used) /\ s' = s + answered used.
Proof.
  revert s f all. induction arr as [|r arr IH]; intros s f all; cbn [collectSearch].
  - destruct (_ && _); [done|]. intros [= <- <- <- <-]. exists []. cbn. rewrite app_nil_r. change (answered []) with 0. split_and!; [done..|lia].
  - destruct (_ && _).
    + destruct (r.2) as [rs|e|] eqn:E; [| |done]; intros (used & -> & -> & ->)%IH; exists (r :: used); rewrite answered_cons; unfold isOk; rewrite E; cbn; rewrite <-?app_assoc; split_and!; try done; try lia.
      unfold tagged at 2. by rewrite E.
    + intros [= <- <- <- <-]. exists []. cbn. rewrite app_nil_r. change (answered []) with 0. split_and!; [done..|lia].
Qed.

(** ** Merging *)
Definition versions_of (id : bytes) (all : list (VSR * bytes)) : list (bytes * VectorVersion) :=
  map (fun tr => (tr.2, vrVersion tr.1)) (filter (fun tr => vrID tr.1 = id) all).
Record merged (all : list (VSR * bytes)) (st : dedup (D := D)) : Prop := {
  mg_seen : forall id idx ver, dd_seen st !! id = Some (idx, ver) -> exists r, dd_list st !! idx = Some r /\ vrID r = id /\ vrVersion r = ver;
  mg_list : forall idx r, dd_list st !! idx = Some r -> dd_seen st !! vrID r = Some (idx, vrVersion r);
  mg_from : forall r, r ∈ dd_list st -> r ∈ all.*1;
  mg_max : forall a, a ∈ all.*1 -> exists r, r ∈ dd_list st /\ vrID r = vrID a /\ After (vrVersion a) (vrVersion r) = false;
  mg_prov : forall id, default [] (dd_prov st !! id) = versions_of id all
}.
Lemma merged_step all st tr : merged all st -> merged (all ++ [tr]) (dedupStep st tr).
Proof.
  destruct tr as [r node]. intros [H1 H2 H3 H4 H5].
  set (prov := <[vrID r := default [] (dd_prov st !! vrID r) ++ [(node, vrVersion r)]]> (dd_prov st)).
  assert (forall id, default [] (prov !! id) = versions_of id (all ++ [(r, node)])) as Hp.
  { intros id. unfold prov, versions_of. rewrite filter_app, map_app. change (map _ (filter _ all)) with (versions_of id all). destruct (decide (vrID r = id)) as [<-|Hne].
    - rewrite lookup_insert_eq, filter_cons_True by done. cbn. by rewrite H5.
    - rewrite lookup_insert_ne, filter_cons_False by done. cbn. by rewrite H5, app_nil_r. }
  assert (forall a, a ∈ (all ++ [(r, node)]).*1 <-> a ∈ all.*1 \/ a = r) as Hall by (intros a; rewrite fmap_app, elem_of_app; cbn; by rewrite list_elem_of_singleton).
  unfold dedupStep. fold prov. destruct (dd_seen st !! vrID r) as [[idx ver]|] eqn:Es.
  - destruct (H1 _ _ _ Es) as (r0 & Hr0 & Hid & <-). destruct (After (vrVersion r) (vrVersion r0)) eqn:Ea; split; cbn; try done.
    + intros id i v. rewrite lookup_insert_Some. intros [[<- [= <- <-]]|[Hne E]]; [exists r; rewrite list_lookup_insert_eq; [done|by eapply lookup_lt_Some]|].
      destruct (H1 _ _ _ E) as (r1 & E1 & E2 & E3). exists r1. rewrite list_lookup_insert_ne; [done|]. intros <-. congruence.
    + intros i r1. rewrite list_lookup_insert_Some. intros [(<- & <- & _)|[Hne E]]; [by rewrite lookup_insert_eq|].
      rewrite lookup_insert_ne; [by apply H2|]. intros Hid1. apply H2 in E. rewrite <-Hid1, Es in E. by injection E as ->.
    + intros r1 [i Hi]%list_elem_of_lookup. apply Hall. apply list_lookup_insert_Some in Hi as [(_ & <- & _)|[_ Hi]]; [by right|left; apply H3; by eapply list_elem_of_lookup_2].
    + intros a [Ha| ->]%Hall.
      * destruct (H4 a Ha) as (r1 & [i Hi]%list_elem_of_lookup & E1 & E2). destruct (decide (i = idx)) as [->|Hne].
        -- assert (r1 = r0) as -> by congruence. exists r. split; [eapply list_elem_of_lookup_2, list_lookup_insert_eq; by eapply lookup_lt_Some|]. split; [congruence|by eapply After_trans].
        -- exists r1. split; [eapply list_elem_of_lookup_2; by rewrite list_lookup_insert_ne|done].
      * exists r. split; [eapply list_elem_of_lookup_2, list_lookup_insert_eq; by eapply lookup_lt_Some|]. split; [done|apply After_irrefl].
    + intros r1 Hr1. apply Hall. left. by apply H3.
    + intros a [Ha| ->]%Hall; [by apply H4|]. exists r0. split; [by eapply list_elem_of_lookup_2|done].
  - split; cbn; try done.
    + intros id i v. rewrite lookup_insert_Some. intros [[<- [= <- <-]]|[Hne E]]; [exists r; by rewrite lookup_app_r, Nat.sub_diag by done|].
      destruct (H1 _ _ _ E) as (r1 & E1 & E2). exists r1. split; [by apply lookup_app_l_Some|done].
    + intros i r1 [E|[Hge E]]%lookup_app_Some.
      * rewrite lookup_insert_ne; [by apply H2|]. intros E2. apply H2 in E. congruence.
      * destruct (i - length (dd_list st))%nat as [|j] eqn:Ej; [|done]. injection E as <-. rewrite lookup_insert_eq. do 2 f_equal. lia.
    + intros r1. rewrite elem_of_app, list_elem_of_singleton. intros [Hr1| ->]; apply Hall; [left; by apply H3|by right].
    + intros a [Ha| ->]%Hall.
      * destruct (H4 a Ha) as (r1 & Hr1 & E). exists r1. split; [apply elem_of_app; by left|done].
      * exists r. split; [apply elem_of_app; right; left|]. split; [done|apply After_irrefl].
Qed.
Lemma merged_all all : merged all (dedupAll all).
Proof.
  unfold dedupAll. assert (merged [] (mkDedup ∅ [] ∅ : dedup (D := D))) as H0.
  { split; cbn; try done; try (intros ???; by rewrite lookup_empty); intros r Hr; by apply not_elem_of_nil in Hr. }
  rewrite <-(app_nil_l all) at 1. revert H0. generalize (@nil (VSR * bytes)) as l, (mkDedup ∅ [] ∅ : dedup (D := D)) as st. induction all as [|tr all IH]; intros l st H; [by rewrite app_nil_r|].
  cbn [fold_left]. replace (l ++ tr :: all) with ((l ++ [tr]) ++ all) by by rewrite <-app_assoc. apply IH. by apply merged_step.
Qed.
Lemma merged_nodup all st : merged all st -> NoDup (map vrID (dd_list st)).
Proof.
  intros Hm. apply NoDup_alt. intros i j id Hi Hj. rewrite list_lookup_fmap in Hi, Hj. apply fmap_Some in Hi as (r & Hi & ->). apply fmap_Some in Hj as (r' & Hj & E).
  pose proof (mg_list _ _ Hm i r Hi) as H1. pose proof (mg_list _ _ Hm j r' Hj) as H2. rewrite <-E, H1 in H2. by injection H2 as ->.
Qed.

(** ** Validation *)
Section validation.
Context (self collection : bytes) (distFn : list Z -> list Z -> D) (query : list Z) (vs : VectorStore S).
Context (all : list (VSR * bytes)) (prov : gmap bytes (list (bytes * VectorVersion))) (prov_of : forall id, default [] (prov !! id) = versions_of id all).

(** What the own store knows of an identifier. *)
Definition known (id : bytes) (e : LatestEntry) : Prop := GetLatest collection id vs = Ok e /\ le_Found e = true.
(** [r'] is what a candidate [r] becomes. *)
Record validated (r r' : VSR) : Prop := {
  va_id : vrID r' = vrID r;
  va_newer : After (vrVersion r) (vrVersion r') = false;
  va_local : forall e, known (vrID r) e -> After (le_Version e) (vrVersion r') = false;
  va_dist : vrDistance r' = distFn query (vrVector r');
  va_from : vrVector r' = vrVector r /\ vrVersion r' = vrVersion r \/ exists e, known (vrID r) e /\ vrVector r' = le_Vector e /\ vrVersion r' = le_Version e
}.
(** A repair goes to another node, which answered an older version or a vector known as deleted. *)
Definition repair_ok (rt : repairTarget) : Prop :=
  rt_node rt <> self /\ exists a, (a, rt_node rt) ∈ all /\ vrID a = rt_id rt /\ (After (rt_version rt) (vrVersion a) = true \/ rt_deleted rt = true).

Lemma versions_in id pe : pe ∈ versions_of id all -> exists a, (a, pe.1) ∈ all /\ vrID a = id /\ vrVersion a = pe.2.
Proof.
  intros ([a n] & -> & [Ha Hin]%list_elem_of_filter)%list_elem_of_fmap. cbn in *. by exists a.
Qed.
Lemma writeRepairs_ok (r : VSR) rt : rt ∈ writeRepairs self (versions_of (vrID r) all) r -> repair_ok rt.
Proof.
  unfold writeRepairs. intros (pe & Hpe & E)%list_elem_of_omap. destruct (bytes_Equal pe.1 self) eqn:Es; [done|]. cbn in E.
  destruct (After (vrVersion r) pe.2) eqn:Ea; [|done]. injection E as <-. apply versions_in in Hpe as (a & Ha & Hid & Hv).
  split; [unfold bytes_Equal in Es; by apply bool_decide_eq_false in Es|]. exists a. cbn. rewrite Hv. auto.
Qed.

Lemma validate_spec (r : VSR) o reps :
  vrDistance r = distFn query (vrVector r) -> validate self collection distFn query vs prov r = Ok (o, reps) ->
  (forall rt, rt ∈ reps -> repair_ok rt) /\
  match o with
  | Some r' => validated r r'
  | None => exists e, known (vrID r) e /\ le_Deleted e = true /\ After (le_Version e) (vrVersion r) = true
  end.
Proof using prov_of.
  intros Hd. unfold validate, adapter_GetLatest. rewrite prov_of. destruct (GetLatest collection (vrID r) vs) as [e|e|] eqn:El; [| |done].
  2:{ intros [= <- <-]. split; [intros ? []%not_elem_of_nil|]. split; auto; [apply After_irrefl|]. intros e' [E _]. congruence. }
  assert (forall e', known (vrID r) e' <-> e' = e /\ le_Found e = true) as Hk by (intros e'; unfold known; rewrite El; split; [intros [[= <-] ?]; done|intros [-> ?]; done]).
  destruct (le_Found e) eqn:Ef; cbn [negb].
  2:{ intros [= <- <-]. split; [intros ? []%not_elem_of_nil|]. split; auto; [apply After_irrefl|]. intros e' [_ ?]%Hk. done. }
  destruct (After (le_Version e) (vrVersion r)) eqn:Ea; [destruct (le_Deleted e) eqn:Edel|]; intros [= <- <-].
  - split; [|exists e; split; [by apply Hk|done]]. unfold deleteRepairs. intros rt (pe & Hpe & E)%list_elem_of_omap. destruct (bytes_Equal pe.1 self) eqn:Es; [done|]. injection E as <-.
    apply versions_in in Hpe as (a & Ha & Hid & _). split; [unfold bytes_Equal in Es; by apply bool_decide_eq_false in Es|]. exists a. cbn. auto.
  - split; [intros rt; apply (writeRepairs_ok (mkVRes (vrID r) _ _ _))|]. split; cbn; try done.
    + eapply After_trans; [exact Ea|apply After_irrefl].
    + intros e' [-> _]%Hk. apply After_irrefl.
    + right. exists e. split; [by apply Hk|done].
  - split; [intros rt; apply writeRepairs_ok|]. split; auto; [apply After_irrefl|]. by intros e' [-> _]%Hk.
Qed.

(** The whole list: each candidate is kept, or known as deleted. *)
Inductive validates : list VSR -> list VSR -> Prop :=
| validates_nil : validates [] []
| validates_keep r r' l l' : validated r r' -> validates l l' -> validates (r :: l) (r' :: l')
| validates_drop r e l l' : known (vrID r) e -> le_Deleted e = true -> After (le_Version e) (vrVersion r) = true -> validates l l' -> validates (r :: l) l'.

Lemma validateAll_spec l rs reps :
  (forall r, r ∈ l -> vrDistance r = distFn query (vrVector r)) -> validateAll self collection distFn query vs prov l = Ok (rs, reps) ->
  validates l rs /\ forall rt, rt ∈ reps -> repair_ok rt.
Proof using prov_of.
  revert rs reps. induction l as [|r l IH]; intros rs reps Hd; cbn [validateAll].
  - intros [= <- <-]. split; [constructor|]. by intros ? ?%not_elem_of_nil.
  - destruct (validate _ _ _ _ _ _ r) as [[o reps1]|e|] eqn:Ev; [|done..]. apply validate_spec in Ev as [H1 H2]; [|apply Hd; left]. cbn.
    destruct (validateAll _ _ _ _ _ _ l) as [[rs2 reps2]|e|]; [|done..]. destruct (IH rs2 reps2) as [H3 H4]; [intros; apply Hd; by right|done|]. cbn. intros [= <- <-].
    split; [|intros rt [?|?]%elem_of_app; auto]. destruct o as [r'|]; [by constructor|]. destruct H2 as (e & ? & ? & ?). by econstructor.
Qed.

Lemma validates_ids l rs : validates l rs -> map vrID rs `sublist_of` map vrID l.
Proof. induction 1 as [|r r' l l' Hv _ IH|r e l l' _ _ _ _ IH]; cbn; [constructor|rewrite (va_id _ _ Hv); by constructor|by constructor]. Qed.
Lemma validates_sound l rs r' : validates l rs -> r' ∈ rs -> exists r, r ∈ l /\ validated r r'.
Proof.
  induction 1 as [|r r1 l l' Hv _ IH|r e l l' _ _ _ _ IH]; [by intros ?%not_elem_of_nil|intros [->|Hr]%elem_of_cons; [exists r; split; [left|done]|]|intros Hr];
    destruct (IH Hr) as (r0 & ? & ?); exists r0; (split; [by right|done]).
Qed.
Lemma validates_complete l rs r : validates l rs -> r ∈ l -> vrID r ∈ map vrID rs \/ exists e, known (vrID r) e /\ le_Deleted e = true /\ After (le_Version e) (vrVersion r) = true.
Proof.
  induction 1 as [|r1 r' l l' Hv _ IH|r1 e l l' ? ? ? _ IH]; [by intros ?%not_elem_of_nil|intros [->|Hr]%elem_of_cons|intros [->|Hr]%elem_of_cons].
  - left. cbn. rewrite (va_id _ _ Hv). left.
  - destruct (IH Hr) as [?|?]; [left; by right|by right].
  - right. eauto.
  - by apply IH.
Qed.
End validation.

(** C5: Queries.  A query that ends without error was answered by at least R replicas,
    and its answer is drawn from theirs and the coordinator's own store: at most [k]
    vectors, no identifier twice, in ascending order of their exact distance from
    the query; each is the newest of all the versions the replicas answered and no
    older than what the own store holds; no identifier any replica answered is left
    out, unless the answer is full or the own store knows a newer deletion.  Repairs
    go to other nodes that answered an older version, or a deleted vector. *)
Theorem vector_search_merges self collection query k ns vs late arrivals rs repairs :
  0 <= k -> searchFinish dist sort_results cfg self collection query k ns vs late arrivals = Some (Ok (rs, repairs)) ->
  exists used rest distFn, arrivals = used ++ rest /\ ReadQuorum cfg <= answered used /\ adapter_DistanceFunc dist collection vs = Ok distFn /\
  let all := concat (map tagged used) in
  len rs <= k /\ NoDup (map vrID rs) /\ StronglySorted vr_le rs /\
  (forall r, r ∈ rs -> vrDistance r = distFn query (vrVector r) /\
    (forall a, a ∈ all.*1 -> vrID a = vrID r -> After (vrVersion a) (vrVersion r) = false) /\
    (forall e, known collection vs (vrID r) e -> After (le_Version e) (vrVersion r) = false) /\
    exists a, a ∈ all.*1 /\ vrID a = vrID r /\
      (vrVector r = vrVector a /\ vrVersion r = vrVersion a \/ exists e, known collection vs (vrID r) e /\ vrVector r = le_Vector e /\ vrVersion r = le_Version e)) /\
  (forall a, a ∈ all.*1 -> vrID a ∈ map vrID rs \/ len rs = k \/ exists e, known collection vs (vrID a) e /\ le_Deleted e = true /\ After (le_Version e) (vrVersion a) = true) /\
  (forall rt, rt ∈ repairs -> repair_ok self all rt).
Proof using sort_results_perm sort_results_sorted.
  intros Hk. unfold searchFinish. destruct (collectSearch _ _ _ _ _ _) as [[[[[all0 s'] f'] rest]|e|]|] eqn:Ec; cbn; [|done..].
  apply collectSearch_spec in Ec as (used & -> & -> & ->). destruct (Z.ltb_spec (0 + answered used) (ReadQuorum cfg)); [done|]. cbn [app].
  unfold drainLate. set (l := take _ rest). rewrite <-concat_app, <-map_app. set (all := concat (map tagged (used ++ l))). pose proof (merged_all all) as Hm. set (st := dedupAll all) in *.
  destruct (adapter_DistanceFunc _ _ _) as [distFn|e|]; [|done..].
  destruct (validateAll _ _ _ _ _ _ _) as [[vals reps]|e|] eqn:Ev; cbn; [|done..].
  apply (validateAll_spec _ _ _ _ _ all) in Ev as [Hv Hreps]; [|apply Hm|by intros r (x & -> & _)%list_elem_of_fmap].
  intros Hfin. assert (rs = take (Z.to_nat k) (sort_results vals) /\ repairs = reps) as [-> ->].
  { destruct (Z.ltb_spec k (len (sort_results vals))); [rewrite (proj2 (Z.ltb_ge k 0)) in Hfin by lia; by injection Hfin as <- <-|].
    injection Hfin as <- <-. rewrite take_ge; [done|]. unfold len in *. lia. }
  assert (map vrID (rerank distFn query (dd_list st)) = map vrID (dd_list st)) as Hids by (unfold rerank; by rewrite map_map).
  assert (forall r, r ∈ take (Z.to_nat k) (sort_results vals) -> r ∈ vals) as Hin by (intros r Hr%subseteq_take; by rewrite <-(sort_results_perm vals)).
  assert (answered (used ++ l) = answered used + answered l) as Hans by (unfold answered; by rewrite filter_app, len_app).
  exists (used ++ l), (drop (Z.to_nat (Z.min (Z.of_nat late) (len ns - (0 + answered used) - f'))) rest), distFn.
  split; [by rewrite <-app_assoc; unfold l; rewrite take_drop|]. split; [rewrite Hans; unfold answered at 2; pose proof (len_nonneg (filter (fun r => isOk r = true) l)); lia|]. split; [done|].
  fold all. split; [unfold len; rewrite length_take; lia|].
  split; [eapply sublist_NoDup; [|apply fmap_sublist, sublist_take]; rewrite (fmap_Permutation vrID _ _ (sort_results_perm vals)); eapply sublist_NoDup; [exact (merged_nodup _ _ Hm)|rewrite <-Hids; by eapply validates_ids]|].
  split; [apply StronglySorted_take, sort_results_sorted|]. split; [|split; [|exact Hreps]].
  - intros r Hr%Hin. destruct (validates_sound _ _ _ _ _ _ _ Hv Hr) as (r1 & (r0 & -> & Hr0)%list_elem_of_fmap & [V1 V2 V3 V4 V5]). cbn in V1, V2, V3, V5.
    split; [done|]. rewrite V1. split; [|split; [done|]].
    + intros a Ha Hid. destruct (mg_max _ _ Hm a Ha) as (r1 & Hr1 & Hid1 & Hmax). assert (r1 = r0) as -> by (eapply (NoDup_map_inj vrID); [exact (merged_nodup _ _ Hm)|done|done|congruence]).
      by eapply After_le_trans.
    + exists r0. split; [by apply (mg_from _ _ Hm)|]. done.
  - intros a Ha. destruct (mg_max _ _ Hm a Ha) as (r0 & Hr0 & Hid & Hmax).
    destruct (validates_complete _ _ _ _ _ _ (mkVRes (vrID r0) (vrVector r0) (distFn query (vrVector r0)) (vrVersion r0)) Hv) as [Hin1|(e & He & Hdel & Ha1)].
    { unfold rerank. apply list_elem_of_fmap. by exists r0. }
    + cbn in Hin1. rewrite Hid in Hin1. apply list_elem_of_fmap in Hin1 as (r & Er & Hr). rewrite <-(sort_results_perm vals), <-(take_drop (Z.to_nat k)) in Hr. apply elem_of_app in Hr as [Hr|Hr].
      * left. rewrite Er. by apply list_elem_of_fmap_2.
      * right. left. assert (Z.to_nat k < length (sort_results vals))%nat as Hlt.
        { destruct (Nat.lt_ge_cases (Z.to_nat k) (length (sort_results vals))); [done|]. rewrite drop_ge in Hr by done. by apply not_elem_of_nil in Hr. }
        unfold len. rewrite length_take. lia.
    + right. right. cbn in He, Ha1. rewrite Hid in He. exists e. split; [done|]. split; [done|]. by eapply After_lt_trans.
Qed.
End merge.

(** ** Writes at a quorum *)
Section quorum.
Context {S : Type} `{!KVStore S, !KVLaws S} {D : Type}.
Context (dlt : D -> D -> bool) (dist : Z -> list Z -> list Z -> D) (sort : list (heapItem D) -> list (heapItem D)).
Context (dlt_asym : forall x y, dlt x y = true -> dlt y x = false).
Context (dlt_negtrans : forall x y z, dlt y x = false -> dlt z y = false -> dlt z x = false).
Context (sort_perm : forall l, sort l ≡ₚ l).
Context (level_of : Z -> nat).
Context (Hkey : forall c id, len id = 16 -> key_ok (makeVectorKey c id)).
Context (Sum64 : bytes -> Z) (cfg : CoordinatorConfig) (resolve : bytes -> bytes) (Sprint : MetaValue -> bytes).
Context (marshalWrite : ReplicateVectorWriteRequest -> option bytes) (marshalDelete : ReplicateVectorDeleteRequest -> option bytes).
Abbreviation vcluster := (gmap bytes (vpeer (S := S))).
Abbreviation voterTask := (vectorVoterTask dlt dist sort level_of resolve Sprint marshalWrite marshalDelete).
Abbreviation learnerTask := (vectorLearnerTask dlt dist sort level_of resolve Sprint).
Abbreviation runTasks := (runVectorTasks dlt dist sort level_of resolve Sprint marshalWrite marshalDelete).
Abbreviation remote := (remoteVector dlt dist sort level_of resolve Sprint).
Implicit Types (c : vcluster) (w : vplan).

(** A stored version agrees with the version read for the comparison of writes. *)
Definition versions_agree (db : S) : Prop :=
  forall coll (u : bytes) val ver, len u = 16 -> contents db !! makeVectorKey coll u = Some val -> Tombstone val = false -> DecodeVectorVersion (sl (Data val)) = Ok ver ->
  exists vec meta, DecodeVector (sl (Data val)) = Ok (vec, meta, ver).
(** A node's vector store is the result of fewer than 2^63 operations. *)
Definition node_ok (vs : VectorStore S) : Prop := exists n, 0 <= n < 2^63 /\ vs_inv n vs /\ versions_agree (vs_db vs).
Definition srv_at c (id : bytes) : option (vserver S) := vp_srv <$> c !! id.
Definition store_at c (id : bytes) : option (VectorStore S) := s ← srv_at c id; sv_store s.
(** The node [id] holds version [ver] of the vector or a newer one. *)
Definition holds_version c (id collection u : bytes) (ver : VectorVersion) : Prop :=
  exists vs vec meta v, store_at c id = Some vs /\ stored (vs_db vs) collection u = Some (vec, meta, v) /\ After ver v = false.

Lemma Put_holds collection u vec meta ver vs vs' :
  node_ok vs -> len u = 16 -> vector_fits vec meta ver -> VectorStore.Put dlt dist sort level_of collection u vec meta ver vs = (vs', None) ->
  exists vec' meta' v, stored (vs_db vs') collection u = Some (vec', meta', v) /\ After ver v = false.
Proof using Hkey dlt_asym dlt_negtrans sort_perm.
  intros (n & Hn & Hv & Hag) Hu Hf E. destruct (Put_effect dlt dist sort dlt_asym dlt_negtrans sort_perm level_of n collection u vec meta ver vs Hv ltac:(lia) Hu Hf) as [[Edb Hst]|(_ & _ & _ & _ & b & D1 & _ & Edb)]; rewrite E in *; cbn in *.
  - specialize (Hst eq_refl). unfold stale in Hst. destruct (ver_IsZero ver); [done|]. rewrite law_get in Hst by by apply Hkey. unfold stored, stored_value. rewrite Edb.
    destruct (contents (vs_db vs) !! _) as [val|] eqn:Ev; [|done]. destruct (Tombstone val) eqn:Et; [done|]. destruct (DecodeVectorVersion _) as [w|e|] eqn:Ew; [|done..].
    destruct (Hag collection u val w Hu Ev Et Ew) as (vec' & meta' & ->). exists vec', meta', w. split; [done|by apply negb_true_iff].
  - exists vec, meta, ver. unfold stored. rewrite Edb, lookup_insert_eq. cbn. rewrite D1. split; [done|apply After_irrefl].
Qed.

Lemma srv_at_insert c id p : srv_at (<[id := p]> c) id = Some (vp_srv p).
Proof. unfold srv_at. by rewrite lookup_insert_eq. Qed.
Lemma srv_at_insert_ne c id id' p : id <> id' -> srv_at (<[id := p]> c) id' = srv_at c id'.
Proof. intros. unfold srv_at. by rewrite lookup_insert_ne. Qed.

(** ** Single tasks *)
Lemma localVector_frame self w c id : id <> self -> srv_at (localVector dlt dist sort level_of self w c).1 id = srv_at c id.
Proof.
  intros Hne. unfold localVector. destruct (c !! self) as [p|]; [|done]. destruct (sv_store _); [|done]. case_match. by apply srv_at_insert_ne.
Qed.
Lemma remote_frame f addr w c id : id <> resolve addr -> srv_at (remote f addr w c).1 id = srv_at c id.
Proof.
  intros Hne. assert (forall pt, srv_at (deliverVector dlt dist sort level_of resolve Sprint pt addr w c).1 id = srv_at c id) as H.
  { intros pt. unfold deliverVector. destruct (c !! resolve addr) as [p|]; [|done]. case_match. by apply srv_at_insert_ne. }
  destruct f; cbn; [done|apply H..].
Qed.
Lemma voter_frame self w n f c id : resolve (Addr n) = HashRing.NodeID n -> id <> HashRing.NodeID n -> srv_at (voterTask self w n f c).1 id = srv_at c id.
Proof.
  intros Hr Hne. unfold vectorVoterTask. destruct (c !! self) as [p|] eqn:Ep; [|done]. unfold bytes_Equal. case_bool_decide as Hs; [apply localVector_frame; congruence|].
  destruct (IsRoutable _ _); [apply remote_frame; congruence|]. destruct (vp_hints p); [|done]. cbn. destruct (decide (id = self)) as [->|]; [|by apply srv_at_insert_ne].
  rewrite srv_at_insert. unfold srv_at. by rewrite Ep.
Qed.
Lemma learner_frame self w n f c id : resolve (Addr n) = HashRing.NodeID n -> id <> HashRing.NodeID n -> srv_at (learnerTask self w n f c) id = srv_at c id.
Proof. intros Hr Hne. unfold vectorLearnerTask. destruct (c !! self); [|done]. destruct (negb _); [done|]. apply remote_frame. congruence. Qed.

(** A write whose vector fits its encoding, with the metadata it has on the wire too. *)
Definition write_ok w : Prop :=
  len (vw_id w) = 16 /\ exists vec meta, vw_op w = OpWrite vec meta /\ vector_fits vec meta (hlcToVersion (vw_ts w)) /\
    vector_fits vec (protoMetadataToVectorMeta (metadataToProto Sprint meta)) (hlcToVersion (vw_ts w)).
Lemma copyID_id u : len u = 16 -> copyID u = u.
Proof. intros H. unfold copyID. unfold len in H. assert (length u = 16%nat) as E by lia. rewrite take_ge by lia. rewrite E. cbn. apply app_nil_r. Qed.

Lemma voter_true self w n f c c' :
  write_ok w -> resolve (Addr n) = HashRing.NodeID n -> (forall vs, store_at c (HashRing.NodeID n) = Some vs -> node_ok vs) -> voterTask self w n f c = (c', true) ->
  holds_version c' (HashRing.NodeID n) (vw_collection w) (vw_id w) (hlcToVersion (vw_ts w)).
Proof using Hkey dlt_asym dlt_negtrans sort_perm.
  intros (Hid & vec & meta & Eop & Hf1 & Hf2) Hr Hok. unfold vectorVoterTask. destruct (c !! self) as [p|] eqn:Ep; [|done]. unfold bytes_Equal. case_bool_decide as Hs.
  - unfold localVector. rewrite Ep, Eop. rewrite Hs in Hok |- *. unfold store_at, srv_at in Hok. rewrite Ep in Hok. cbn in Hok.
    destruct (sv_store (vp_srv p)) as [vs|]; [|done]. specialize (Hok vs eq_refl).
    unfold adapter_Put. destruct (VectorStore.Put _ _ _ _ _ _ _ _ _ vs) as [vs' [e|]] eqn:E; [done|]. intros [= <-]. apply Put_holds in E as (vec' & meta' & w' & E1 & E2); [|done..].
    exists vs', vec', meta', w'. split; [|done]. unfold store_at. by rewrite srv_at_insert.
  - destruct (IsRoutable _ _); [|by destruct (vp_hints p)].
    assert (forall pt, deliverVector dlt dist sort level_of resolve Sprint pt (Addr n) w c = (c', true) -> holds_version c' (HashRing.NodeID n) (vw_collection w) (vw_id w) (hlcToVersion (vw_ts w))) as H.
    { intros pt. unfold deliverVector. rewrite Hr, Eop. unfold store_at, srv_at in Hok. destruct (c !! HashRing.NodeID n) as [q|] eqn:Eq; [|done]. cbn in Hok.
      unfold ReplicateVectorWrite, writeRequest. cbn -[copyID protoToHLCTimestamp]. destruct (sv_store (vp_srv q)) as [vs|]; [|done]. specialize (Hok vs eq_refl). rewrite Hid. cbn -[copyID protoToHLCTimestamp]. destruct (checkDigest _ _ _); [done|]. destruct (updateClock _ _ _) as [clock []]; [|done]. cbn -[copyID protoToHLCTimestamp].
      rewrite copyID_id by done. rewrite protoToHLC_id. change (tsVersion (vw_ts w)) with (hlcToVersion (vw_ts w)).
      destruct (VectorStore.Put _ _ _ _ _ _ _ _ _ vs) as [vs' [e|]] eqn:E; [by destruct e|]. intros [= <-]. apply Put_holds in E as (vec' & meta' & w' & E1 & E2); [|done..].
      exists vs', vec', meta', w'. split; [|done]. unfold store_at. by rewrite srv_at_insert. }
    destruct f; cbn; [done|done|apply H].
Qed.

(** ** All the tasks of a write *)
(** The routing of the plan, as Coordinator.v has it. *)
Definition routing w : wplan := mkPlan [] None false zeroTs [] (vw_voters w) (vw_learners w).

Lemma vrunTasks_frame self w sched c i n :
  routes_ok resolve (routing w) -> w_nodes (routing w) !! i = Some n -> i ∉ map fst sched ->
  srv_at (runTasks self w sched c).1 (HashRing.NodeID n) = srv_at c (HashRing.NodeID n).
Proof.
  intros Hr Hi. revert c; induction sched as [|[j f] sched IH]; intros c Hn; [done|].
  cbn [map fst] in Hn. apply not_elem_of_cons in Hn as [Hij Hn]. cbn [runVectorTasks].
  destruct (vw_voters w !! j) as [n'|] eqn:Ej.
  - assert (w_nodes (routing w) !! j = Some n') as Hj by (apply w_nodes_lookup; by left).
    pose proof (voter_frame self w n' f c (HashRing.NodeID n) (routes_resolve _ _ j n' Hr Hj) (w_nodes_inj _ _ i j n n' Hr Hi Hj Hij)) as Hfr.
    destruct (voterTask self w n' f c) as [c1 ok]. specialize (IH c1 Hn). destruct (runTasks self w sched c1). cbn in *. congruence.
  - destruct (vw_learners w !! _) as [n'|] eqn:Ek; [|by apply IH].
    assert (w_nodes (routing w) !! j = Some n') as Hj by (apply w_nodes_lookup; by right).
    rewrite IH by done. apply learner_frame; [by eapply routes_resolve|by eapply w_nodes_inj].
Qed.

Lemma store_at_ext c c' id : srv_at c' id = srv_at c id -> store_at c' id = store_at c id.
Proof. unfold store_at. by intros ->. Qed.

Lemma vrunTasks_holds self w sched c c' acks i :
  write_ok w -> routes_ok resolve (routing w) -> NoDup (map fst sched) ->
  (forall j n vs, j ∈ map fst sched -> vw_voters w !! j = Some n -> store_at c (HashRing.NodeID n) = Some vs -> node_ok vs) ->
  runTasks self w sched c = (c', acks) -> (i, true) ∈ acks ->
  exists n, vw_voters w !! i = Some n /\ holds_version c' (HashRing.NodeID n) (vw_collection w) (vw_id w) (hlcToVersion (vw_ts w)).
Proof using Hkey dlt_asym dlt_negtrans sort_perm.
  intros Hp Hr. revert c acks; induction sched as [|[j f] sched IH]; intros c acks Hnd Hst E Hin.
  { injection E as <- <-. by apply elem_of_nil in Hin. }
  cbn [map fst] in Hnd. apply NoDup_cons in Hnd as [Hj Hnd]. cbn [runVectorTasks] in E.
  destruct (vw_voters w !! j) as [n|] eqn:Ej.
  - destruct (voterTask self w n f c) as [c1 ok] eqn:Ev. destruct (runTasks self w sched c1) as [c2 acks'] eqn:Et.
    assert (w_nodes (routing w) !! j = Some n) as Hjn by (apply w_nodes_lookup; by left).
    injection E as -> <-. apply elem_of_cons in Hin as [[= -> <-]|Hin].
    + exists n. split; [done|].
      destruct (voter_true self w n f c c1 Hp (routes_resolve _ _ j n Hr Hjn) (fun vs => Hst j n vs ltac:(left) Ej) Ev) as (vs' & vec & meta & v & Es & H). exists vs', vec, meta, v. split; [|done].
      rewrite <-Es. apply store_at_ext. pose proof (vrunTasks_frame self w sched c1 j n Hr Hjn Hj) as Hfr. by rewrite Et in Hfr.
    + eapply (IH c1); [done| |exact Et|done]. intros k m vs Hk Em Hs. apply (Hst k m vs ltac:(by right) Em). rewrite <-Hs. symmetry. apply store_at_ext.
      assert (w_nodes (routing w) !! k = Some m) as Hkm by (apply w_nodes_lookup; by left).
      pose proof (voter_frame self w n f c (HashRing.NodeID m) (routes_resolve _ _ j n Hr Hjn)) as Hfr. rewrite Ev in Hfr. apply Hfr. apply (w_nodes_inj resolve (routing w) k j m n Hr Hkm Hjn). by intros ->.
  - destruct (vw_learners w !! _) as [n|] eqn:Ek; [|eapply IH; [done| |done|done]; intros k m vs Hk; apply (Hst k m vs); by right].
    eapply (IH (learnerTask self w n f c)); [done| |exact E|done]. intros k m vs Hk Em Hs. apply (Hst k m vs ltac:(by right) Em). rewrite <-Hs. symmetry. apply store_at_ext.
    assert (w_nodes (routing w) !! j = Some n) as Hjn by (apply w_nodes_lookup; by right). assert (w_nodes (routing w) !! k = Some m) as Hkm by (apply w_nodes_lookup; by left).
    apply learner_frame; [by eapply routes_resolve|]. apply (w_nodes_inj resolve (routing w) k j m n Hr Hkm Hjn). by intros ->.
Qed.

Lemma vrunTasks_ids self w sched c : map fst (runTasks self w sched c).2 `sublist_of` map fst sched.
Proof.
  revert c; induction sched as [|[j f] sched IH]; intros c; cbn [runVectorTasks]; [done|].
  destruct (vw_voters w !! j).
  - destruct (voterTask _ _ _ _ _) as [c1 ok]. specialize (IH c1). destruct (runTasks _ _ _ _). cbn in *. by constructor.
  - destruct (vw_learners w !! _); cbn; by constructor.
Qed.

(** ** Acknowledged writes *)
(** Rings whose nodes are reachable at their addresses, and stores as operations leave them. *)
Definition vcluster_ok c : Prop :=
  forall id p, c !! id = Some p ->
    ring_ok Sum64 (vp_ring p) /\ (forall nid n, HashRing.nodes (vp_ring p) !! nid = Some n -> resolve (Addr n) = HashRing.NodeID n) /\
    forall vs, sv_store (vp_srv p) = Some vs -> node_ok vs.

Lemma vectorBegin_ok self pt collection id op c c0 w :
  vcluster_ok c -> vectorBegin Sum64 cfg self pt collection id op c = (c0, Ok w) ->
  routes_ok resolve (routing w) /\ vw_collection w = collection /\ vw_id w = id /\ vw_op w = op /\ WriteQuorum cfg <= len (vw_voters w) /\
  forall n vs, store_at c0 n = Some vs -> node_ok vs.
Proof.
  intros Hc. unfold vectorBegin. destruct (c !! self) as [p|] eqn:Ep; [|done]. destruct (Hc _ _ Ep) as (Hring & Hres & _).
  destruct (sv_store (vp_srv p)) as [vs|] eqn:Es; [|done]. destruct (sv_clock _) as [clock|]; [|done]. destruct (Now clock pt) as [clock' ts].
  destruct (adapter_ConfigDigest _ _) as [d| |]; [|done..]. destruct (GetNodes _ _ _ _) as [rs|] eqn:Eg; [|done]. cbn [splitReplicas].
  destruct (Z.ltb_spec (len (filter (fun r => RingStateOf (vp_mem p) (HashRing.NodeID r) <> RingJoining) rs)) (WriteQuorum cfg)) as [|Hw]; [done|].
  intros [= <- <-]. split; [|split_and!; [done..|]].
  - pose proof (filter_split_perm (fun r => RingStateOf (vp_mem p) (HashRing.NodeID r) = RingJoining) rs) as Hperm.
    split; unfold w_nodes; cbn [w_voters w_learners routing vw_voters vw_learners]; rewrite Hperm; [by eapply GetNodes_nodup|by eapply GetNodes_resolve].
  - intros n vs' Hs. unfold store_at, srv_at in Hs. destruct (decide (n = self)) as [->|Hne].
    + rewrite lookup_insert_eq in Hs. cbn in Hs. injection Hs as <-. by apply (Hc _ _ Ep).
    + rewrite lookup_insert_ne in Hs by done. destruct (c !! n) as [q|] eqn:Eq; [|done]. by apply (Hc _ _ Eq).
Qed.

(** C12: Acknowledged writes are at a quorum.  When a vector write returns without error,
    whatever order its goroutines ran in, whatever became of their calls, in whatever
    order their acknowledgements arrived: at least W of the voters hold the version
    it wrote, or a newer one. *)
Theorem vector_write_quorum self pt collection id vec meta sched arrival c c1 w c' :
  vcluster_ok c -> NoDup (map fst sched) -> NoDup arrival ->
  vectorBegin Sum64 cfg self pt collection id (OpWrite vec meta) c = (c1, Ok w) -> len id = 16 ->
  vector_fits vec meta (hlcToVersion (vw_ts w)) -> vector_fits vec (protoMetadataToVectorMeta (metadataToProto Sprint meta)) (hlcToVersion (vw_ts w)) ->
  VectorWrite dlt dist sort level_of Sum64 cfg resolve Sprint marshalWrite marshalDelete self pt collection id vec meta sched arrival c = (c', Some (Ok tt)) ->
  exists ids, NoDup ids /\ WriteQuorum cfg <= len ids /\
    forall n, n ∈ ids -> n ∈ map HashRing.NodeID (vw_voters w) /\ holds_version c' n collection id (hlcToVersion (vw_ts w)).
Proof using Hkey dlt_asym dlt_negtrans sort_perm.
  intros Hc Hs Ha Eb Hid Hf1 Hf2. unfold VectorWrite, vectorInternal. rewrite Eb. destruct (vectorBegin_ok _ _ _ _ _ _ _ _ Hc Eb) as (Hr & E1 & E2 & E3 & Hw & Hst).
  assert (write_ok w) as Hp by (split; [congruence|]; exists vec, meta; done).
  destruct (runTasks self w sched c1) as [c2 acks] eqn:Et. pose proof (vrunTasks_ids self w sched c1) as Hsub. rewrite Et in Hsub. cbn in Hsub.
  assert (NoDup (map fst acks)) as Hnd by exact (sublist_NoDup _ _ Hs Hsub).
  assert (forall i, (i, true) ∈ acks -> exists n, vw_voters w !! i = Some n /\ holds_version c2 (HashRing.NodeID n) collection id (hlcToVersion (vw_ts w))) as Hh.
  { intros i Hi. rewrite <-E1, <-E2. eapply vrunTasks_holds; try done. intros j n vs _ _. apply Hst. }
  intros E. apply pair_equal_spec in E as [-> E]. apply fmap_Some in E as (ok & E & Eok). destruct ok; [|done].
  pose proof (collectAcks_spec (WriteQuorum cfg) (len (vw_voters w) - WriteQuorum cfg + 1) 0 0 (omap (fun i => snd <$> acks !! i) arrival)) as Hcol.
  rewrite E in Hcol. exists (map HashRing.NodeID (acked (routing w) acks arrival)). split; [by eapply acked_nodup|]. rewrite len_map, acked_len by (intros i Hi; destruct (Hh i Hi) as (n & Hn & _); cbn; eauto).
  split; [lia|]. intros m (n & -> & (k & i & Hk & Ek & Hi)%elem_acked)%list_elem_of_fmap. cbn in Hi. destruct (Hh i) as (n' & Hn' & H); [by eapply list_elem_of_lookup_2|].
  assert (n' = n) as -> by congruence. split; [apply list_elem_of_fmap_2; by eapply list_elem_of_lookup_2|done].
Qed.
End quorum.

(** ** A cluster of three nodes *)
Definition by_vr (x y : VectorSearchResult Z) : Prop := vrDistance x <= vrDistance y.
#[local] Instance by_vr_dec x y : Decision (by_vr x y).
Proof. unfold by_vr. apply _. Defined.
#[local] Instance by_vr_total : Total by_vr.
Proof. intros x y. unfold by_vr. lia. Qed.
#[local] Instance by_vr_trans : Transitive by_vr.
Proof. intros x y z. unfold by_vr. lia. Qed.
Definition sort_vr (l : list (VectorSearchResult Z)) : list (VectorSearchResult Z) := merge_sort by_vr l.

Abbreviation ycluster := (gmap bytes (vpeer (S := gmap bytes Value))).
Abbreviation ydist := (fun (_ : Z) => sq_dist).
Abbreviation ylevel := (fun _ : Z => 0%nat).
Definition y_sprint (v : MetaValue) : bytes := [].
Definition y_write (w : ReplicateVectorWriteRequest) : option bytes := None.
Definition y_delete (w : ReplicateVectorDeleteRequest) : option bytes := None.
Definition y_store : VectorStore (gmap bytes Value) := (x_run [VCreate x_col x_cfg] x_vs).1.
Definition y_cluster : ycluster :=
  list_to_map (map (fun n => (HashRing.NodeID n, mkVPeer (mkVServer (Some (NewClock (HashRing.NodeID n))) (Some y_store)) (demo_membership (HashRing.NodeID n)) demo_hashring None)) demo_nodes).
Definition y_id : bytes := x_id Byte.x01.
(** The voters in the order of the ring, by node. *)
Definition y_order (c : ycluster) : list bytes :=
  match (vectorBegin demo_Sum64 dcfg nA 0 x_col y_id OpDelete c).2 with Ok w => map HashRing.NodeID (vw_voters w) | _ => [] end.
(** A run of the goroutines of all voters, with the given fate for each node. *)
Definition y_sched (fates : bytes -> fate) : list (nat * fate) := imap (fun i n => (i, fates n)) (y_order y_cluster).
Definition y_put (pt : Z) (vec : list Z) (meta : Metadata) (fates : bytes -> fate) (c : ycluster) :=
  VectorWrite Z.ltb ydist sort_dist ylevel demo_Sum64 dcfg demo_resolve y_sprint y_write y_delete nA pt x_col y_id vec meta (y_sched fates) [0; 1; 2]%nat c.
Definition y_del (pt : Z) (fates : bytes -> fate) (c : ycluster) :=
  VectorDelete Z.ltb ydist sort_dist ylevel demo_Sum64 dcfg demo_resolve y_sprint y_write y_delete nA pt x_col y_id (y_sched fates) [0; 1; 2]%nat c.
Definition to_all (t : Z) (n : bytes) : fate := Delivered t.
Definition not_C (t : Z) (n : bytes) : fate := if bytes_Equal n nC then Lost else Delivered t.
(** The query at A when the answers of the given nodes arrive in this order. *)
Definition y_answer (q : list Z) (k : Z) (c : ycluster) (id : bytes) : replicaResult (D := Z) :=
  match searchBegin demo_Sum64 dcfg nA x_col k 0 c with
  | Ok (ns, perK, digest) =>
      match list_find (fun n => HashRing.NodeID n = id) ns with
      | Some (_, n) => searchTask Z.ltb ydist sort_dist demo_resolve nA x_col q perK 0 digest n (Delivered 0) c
      | None => (id, Err ErrKV)
      end
  | _ => (id, Err ErrKV)
  end.
Definition y_search (q : list Z) (k : Z) (ids : list bytes) (c : ycluster) :=
  VectorSearch ydist sort_vr demo_Sum64 dcfg nA x_col q k 0 (length ids) (map (y_answer q k c) ids) c.
Definition y_stored (id : bytes) (c : ycluster) : option (list Z * Metadata * VectorVersion) :=
  p ← c !! id; vs ← sv_store (vp_srv p); stored (vs_db vs) x_col y_id.
Definition vr_view (r : VectorSearchResult Z) : bytes * list Z * Z := (vrID r, vrVector r, vrDistance r).

Definition y_c1 : ycluster := (y_put 10 [5; 5] ∅ (to_all 10) y_cluster).1.

(** A flaw: an acknowledged deletion is undone by the next query.  The deletion is
    stored at A and B and acknowledged; the query at A, which all three replicas
    answer, returns the vector of C all the same and repairs nothing: [GetLatest]
    gives a deleted vector the zero version, which is never the newer one. *)
Theorem vector_deletion_ignored :
  let r := y_del 20 (not_C 20) y_c1 in
  r.2 = Some (Ok tt) /\
  map (fun n => vec_ver <$> y_stored n r.1) [nA; nB; nC] = [None; None; Some ([5; 5], mkVer 10 0)] /\
  match y_search [5; 4] 1 [nA; nB; nC] r.1 with
  | Some (Ok (rs, repairs)) => map vr_view rs = [(y_id, [5; 5], 1)] /\ repairs = []
  | _ => False
  end.
Proof. vm_compute. repeat split. Qed.

(** A flaw: a read repair drops the metadata.  C misses an update; the query repairs
    it with the new vector and version and no metadata at all; as the versions are
    then equal, no later write of that version can restore it. *)
Definition y_meta : Metadata := {[ [Byte.x61] := MBytes [Byte.x62] ]}.
Definition y_c3 : ycluster := (y_put 20 [6; 6] y_meta (not_C 20) y_c1).1.
Definition y_repair (c : ycluster) : ycluster :=
  match searchBegin demo_Sum64 dcfg nA x_col 1 0 c, y_search [5; 4] 1 [nA; nB; nC] c with
  | Ok (ns, _, digest), Some (Ok (_, repairs)) =>
      vectorReadRepair Z.ltb ydist sort_dist ylevel demo_resolve y_sprint x_col digest ns repairs (replicate 3 (Delivered 30)) c
  | _, _ => c
  end.
Definition vec_view (x : list Z * Metadata * VectorVersion) : list Z * list (bytes * MetaValue) * VectorVersion := (x.1.1, map_to_list x.1.2, x.2).
Theorem vector_repair_drops_metadata :
  map (fun n => vec_view <$> y_stored n y_c3) [nA; nB; nC] =
    [Some ([6; 6], [([Byte.x61], MBytes [Byte.x62])], mkVer 20 0); Some ([6; 6], [([Byte.x61], MBytes [Byte.x62])], mkVer 20 0); Some ([5; 5], [], mkVer 10 0)] /\
  vec_view <$> y_stored nC (y_repair y_c3) = Some ([6; 6], [], mkVer 20 0).
Proof. vm_compute. split; reflexivity. Qed.

(** ** Witnesses *)
Lemma sort_vr_perm l : sort_vr l ≡ₚ l.
Proof. apply merge_sort_Permutation. Qed.
Lemma sort_vr_sorted l : StronglySorted (vr_le Z.ltb) (sort_vr l).
Proof.
  assert (forall l, StronglySorted by_vr l -> StronglySorted (vr_le Z.ltb) l) as H.
  { clear l. intros l Hs; induction Hs as [|x l Hs IH Hf]; constructor; [done|]; eapply Forall_impl; [exact Hf|]; intros y Hy; by apply Z.ltb_ge. }
  apply H, (StronglySorted_merge_sort by_vr).
Qed.

Lemma vector_search_merges_witness :
  exists rs repairs, y_search [5; 4] 1 [nC; nA] y_c3 = Some (Ok (rs, repairs)) /\ map vr_view rs = [(y_id, [6; 6], 5)] /\ NoDup (map vrID rs) /\ map rt_node repairs = [nC].
Proof.
  set (ns := match searchBegin demo_Sum64 dcfg nA x_col 1 0 y_c3 with Ok (ns, _, _) => ns | _ => [] end).
  set (vs := match p ← y_c3 !! nA; sv_store (vp_srv p) with Some vs => vs | None => y_store end).
  assert (y_search [5; 4] 1 [nC; nA] y_c3 = searchFinish ydist sort_vr dcfg nA x_col [5; 4] 1 ns vs 2 (map (y_answer [5; 4] 1 y_c3) [nC; nA])) as E by (vm_compute; reflexivity).
  assert (match y_search [5; 4] 1 [nC; nA] y_c3 with Some (Ok (rs, repairs)) => Some (map vr_view rs, map rt_node repairs) | _ => None end = Some ([(y_id, [6; 6], 5)], [nC])) as Ev by (vm_compute; reflexivity).
  destruct (y_search _ _ _ _) as [[[rs repairs]|e|]|]; [|discriminate Ev..]. symmetry in E.
  destruct (vector_search_merges Z.ltb ydist sort_vr sort_vr_perm sort_vr_sorted dcfg nA x_col [5; 4] 1 ns vs 2 _ rs repairs ltac:(lia) E) as (_ & _ & _ & _ & _ & _ & _ & Hnd & _).
  injection Ev as E1 E2. exists rs, repairs. split; [reflexivity|]. split; [exact E1|]. split; [exact Hnd|exact E2].
Defined.

Lemma y_store_ok : node_ok y_store.
Proof.
  exists 1. split; [lia|]. split; [apply (x_inv [VCreate x_col x_cfg]); [repeat constructor|done]|].
  intros coll u val ver Hu E. exfalso. assert ((map_to_list (contents (vs_db y_store))).*1 = [makeCollectionConfigKey x_col]) as Ec by (vm_compute; reflexivity).
  apply elem_of_map_to_list, (list_elem_of_fmap_2 fst) in E. rewrite Ec in E. apply list_elem_of_singleton, (f_equal len) in E. revert E. cbn [fst]. unfold makeVectorKey, makeCollectionConfigKey. rewrite len_app, !len_collectionKey, Hu.
  change (len x_col) with 1. pose proof (len_nonneg coll). lia.
Qed.
Lemma y_cluster_ok : vcluster_ok demo_Sum64 demo_resolve y_cluster.
Proof.
  intros id p E. apply elem_of_list_to_map_2 in E. destruct (demo_cluster_ok id (demo_peer id)) as (H1 & H2 & _).
  { unfold demo_cluster. apply elem_of_list_to_map_1; [vm_compute; repeat constructor; set_solver|]. apply list_elem_of_fmap in E as (n & [= -> _] & Hn). apply list_elem_of_fmap. by exists n. }
  apply list_elem_of_fmap in E as (n & [= -> ->] & Hn). cbn in *. split; [exact H1|]. split; [exact H2|]. intros vs [= <-]. apply y_store_ok.
Qed.

Lemma vector_write_quorum_witness :
  (y_put 20 [6; 6] ∅ (not_C 20) y_cluster).2 = Some (Ok tt) /\
  exists ids, NoDup ids /\ 2 <= len ids /\ forall n, n ∈ ids -> holds_version (y_put 20 [6; 6] ∅ (not_C 20) y_cluster).1 n x_col y_id (mkVer 20 0).
Proof.
  assert ((y_put 20 [6; 6] ∅ (not_C 20) y_cluster).2 = Some (Ok tt)) as E by (vm_compute; reflexivity). split; [exact E|].
  assert (hlcToVersion <$> match (vectorBegin demo_Sum64 dcfg nA 20 x_col y_id (OpWrite [6; 6] ∅) y_cluster).2 with Ok w => Some (vw_ts w) | _ => None end = Some (mkVer 20 0)) as Ew by (vm_compute; reflexivity).
  destruct (vectorBegin demo_Sum64 dcfg nA 20 x_col y_id (OpWrite [6; 6] ∅) y_cluster) as [c1 [w|e|]] eqn:Eb; [|discriminate Ew..]. injection Ew as Ew1 Ew2.
  assert (hlcToVersion (vw_ts w) = mkVer 20 0) as Ew by (unfold hlcToVersion; rewrite Ew1, Ew2; reflexivity).
  assert (vector_fits [6; 6] ∅ (mkVer 20 0)) as Hf by (apply x_fits; [reflexivity|repeat (apply Forall_cons; split; [lia|]); apply Forall_nil_2|left; reflexivity|lia]).
  destruct (vector_write_quorum (KVLaws0 := map_laws) Z.ltb ydist sort_dist zlt_asym zlt_negtrans sort_dist_perm ylevel (fun _ _ _ => I) demo_Sum64 dcfg demo_resolve y_sprint y_write y_delete
    nA 20 x_col y_id [6; 6] ∅ (y_sched (not_C 20)) [0; 1; 2]%nat y_cluster c1 w (y_put 20 [6; 6] ∅ (not_C 20) y_cluster).1) as (ids & H1 & H2 & H3).
  - exact y_cluster_ok.
  - apply (bool_decide_eq_true_1 _). vm_compute. reflexivity.
  - apply (bool_decide_eq_true_1 _). vm_compute. reflexivity.
  - exact Eb.
  - reflexivity.
  - rewrite Ew. exact Hf.
  - rewrite Ew. unfold protoMetadataToVectorMeta, metadataToProto. rewrite !fmap_empty. exact Hf.
  - rewrite <-E. apply surjective_pairing.
  - exists ids. split; [exact H1|]. split; [exact H2|]. intros n Hn. rewrite <-Ew. apply H3. exact Hn.
Defined.
