(* ===== verification/Manager.v ===== *)
(** * Scheduling of anti-entropy (src/cluster/antientropy/manager.go, src/cluster/admin.go)

    A node reconciles with its peers in the background: the manager holds a set of
    peers in flight and a channel of [MaxConcurrent] slots.  The reconciles that are
    running are the tasks of a system, each in a phase between two atomic steps of
    its goroutine; the rounds themselves are [Run] of Reconcile.v.  The theorems
    bound the number of rounds, show that asynchronous triggers never run two rounds
    with one peer, that synchronous ones break this, and that the periodic tick gets
    to every peer. *)

From Stdlib Require Import ZArith Lia List.
From stdpp Require Import base list option gmap relations.
From S2P Require Import Prelude GoBytes KV Entries HLC KVStore HashRing Member Replica HintStore Coordinator Reconcile.
Open Scope Z_scope.

(** ** Configuration *)
Record ManagerConfig := mkMC {
  ae_Enabled : bool; ae_Interval : Z; ae_Depth : Z; ae_Fanout : Z; ae_GracePeriod : Z; ae_MaxConcurrent : Z; ae_MaxRepairPerRound : Z; ae_ScanKeysPerTick : Z }.
Definition DefaultAntiEntropyConfig : ManagerConfig :=
  mkMC false (600 * 1000000000) 4 16 (30 * 1000000000) 2 10000 1000.
Definition or_default (v d : Z) : Z := if v <=? 0 then d else v.
(** The configuration [NewManager] works with. *)
Definition NewManager_cfg (c : ManagerConfig) : ManagerConfig :=
  let d := DefaultAntiEntropyConfig in
  mkMC (ae_Enabled c) (or_default (ae_Interval c) (ae_Interval d)) (or_default (ae_Depth c) (ae_Depth d)) (or_default (ae_Fanout c) (ae_Fanout d))
    (or_default (ae_GracePeriod c) (ae_GracePeriod d)) (or_default (ae_MaxConcurrent c) (ae_MaxConcurrent d))
    (or_default (ae_MaxRepairPerRound c) (ae_MaxRepairPerRound d)) (or_default (ae_ScanKeysPerTick c) (ae_ScanKeysPerTick d)).

(** ** The manager *)
(** [slots] is the number of values in the channel [sema]. *)
Record Manager := mkManager { inflight : gset bytes; slots : Z; tick : Z }.
Definition newManager : Manager := mkManager ∅ 0 0.

Section manager.
Context (cfg : ManagerConfig) (selfID : bytes).

Definition tryAcquire (peerID : bytes) (m : Manager) : Manager * bool :=
  if decide (peerID ∈ inflight m) then (m, false) else
  if ae_MaxConcurrent cfg <=? slots m then (m, false) else
  (mkManager (inflight m ∪ {[peerID]}) (slots m + 1) (tick m), true).
(** [release], its two steps. *)
Definition clearInflight (peerID : bytes) (m : Manager) : Manager := mkManager (inflight m ∖ {[peerID]}) (slots m) (tick m).
Definition freeSlot (m : Manager) : Manager := mkManager (inflight m) (slots m - 1) (tick m).
Definition release (peerID : bytes) (m : Manager) : Manager := freeSlot (clearInflight peerID m).

(** Whether a goroutine was started for the peer. *)
Definition triggerInternal (peerID : bytes) (m : Manager) : Manager * bool :=
  if bytes_Equal peerID [] || bytes_Equal peerID selfID then (m, false) else tryAcquire peerID m.
Fixpoint TriggerAllWith (peers : list bytes) (m : Manager) : Manager * list bytes :=
  match peers with
  | [] => (m, [])
  | p :: peers =>
      let '(m, ok) := triggerInternal p m in
      let '(m, started) := TriggerAllWith peers m in (m, if ok then p :: started else started)
  end.
(** [TriggerSync]: the slot, then the mark; [None] while it waits for a slot. *)
Definition syncSlot (m : Manager) : option Manager :=
  if ae_MaxConcurrent cfg <=? slots m then None else Some (mkManager (inflight m) (slots m + 1) (tick m)).
Definition syncMark (peerID : bytes) (m : Manager) : Manager := mkManager (inflight m ∪ {[peerID]}) (slots m) (tick m).
Definition sync_refused (peerID : bytes) : bool := bytes_Equal peerID [] || bytes_Equal peerID selfID.

(** One tick of [tickLoop] over the owned peers: the peer whose turn it is. *)
Definition tickStep (peers : list bytes) (m : Manager) : Manager * option bytes :=
  match peers !! Z.to_nat (tick m mod len peers) with
  | None => (m, None)
  | Some p =>
      let m := mkManager (inflight m) (slots m) (u64 (tick m + 1)) in
      let '(m, ok) := triggerInternal p m in (m, if ok : bool then Some p else None)
  end.
(** The peers in turn over [n] ticks from tick [t]. *)
Definition turns (peers : list bytes) (t : Z) (n : nat) : list bytes := omap (fun i => peers !! Z.to_nat (u64 (t + Z.of_nat i) mod len peers)) (seq 0 n).

(** ** Running rounds *)
Inductive trigger := Async | Sync.
(** [Waiting]: a synchronous call has its slot and is about to mark the peer;
    [Running]: the round runs; [Leaving]: the mark is cleared, the slot not yet. *)
Inductive phase := Waiting | Running | Leaving.
Record task := mkTask { t_peer : bytes; t_kind : trigger; t_phase : phase }.
Record sys := mkSys { s_mgr : Manager; s_tasks : list task }.

Inductive mstep : sys -> sys -> Prop :=
| step_trigger m ts p m' : triggerInternal p m = (m', true) -> mstep (mkSys m ts) (mkSys m' (ts ++ [mkTask p Async Running]))
| step_refused m ts p m' : triggerInternal p m = (m', false) -> mstep (mkSys m ts) (mkSys m' ts)
| step_tick m ts peers m' p : tickStep peers m = (m', Some p) -> mstep (mkSys m ts) (mkSys m' (ts ++ [mkTask p Async Running]))
| step_tick_none m ts peers m' : tickStep peers m = (m', None) -> mstep (mkSys m ts) (mkSys m' ts)
| step_slot m ts p m' : sync_refused p = false -> syncSlot m = Some m' -> mstep (mkSys m ts) (mkSys m' (ts ++ [mkTask p Sync Waiting]))
| step_mark m l1 p l2 : mstep (mkSys m (l1 ++ mkTask p Sync Waiting :: l2)) (mkSys (syncMark p m) (l1 ++ mkTask p Sync Running :: l2))
| step_clear m l1 p k l2 : mstep (mkSys m (l1 ++ mkTask p k Running :: l2)) (mkSys (clearInflight p m) (l1 ++ mkTask p k Leaving :: l2))
| step_free m l1 p k l2 : mstep (mkSys m (l1 ++ mkTask p k Leaving :: l2)) (mkSys (freeSlot m) (l1 ++ l2)).

Definition running (ts : list task) : list task := filter (fun t => match t_phase t with Running => true | _ => false end = true) ts.

(** ** The number of rounds is bounded *)
Definition slots_inv (s : sys) : Prop := slots (s_mgr s) = len (s_tasks s) /\ len (s_tasks s) <= ae_MaxConcurrent cfg.

Lemma triggerInternal_spec p m m' ok :
  triggerInternal p m = (m', ok) ->
  if ok then (p ∉ inflight m) /\ p <> selfID /\ slots m < ae_MaxConcurrent cfg /\ inflight m' = inflight m ∪ {[p]} /\ slots m' = slots m + 1 else m' = m.
Proof.
  unfold triggerInternal, tryAcquire, bytes_Equal. case_bool_decide; [by intros [= <- <-]|]. case_bool_decide; [by intros [= <- <-]|]. cbn.
  destruct (decide _); [by intros [= <- <-]|]. destruct (Z.leb_spec (ae_MaxConcurrent cfg) (slots m)); intros [= <- <-]; [done|]. cbn. split_and!; [done..|lia|done|done].
Qed.
Lemma tickStep_spec peers m m' o :
  tickStep peers m = (m', o) ->
  match o with
  | Some p => (p ∉ inflight m) /\ p <> selfID /\ slots m < ae_MaxConcurrent cfg /\ inflight m' = inflight m ∪ {[p]} /\ slots m' = slots m + 1
  | None => inflight m' = inflight m /\ slots m' = slots m
  end.
Proof.
  unfold tickStep. destruct (peers !! _) as [p|]; [|by intros [= <- <-]]. destruct (triggerInternal p _) as [m1 ok] eqn:E. apply triggerInternal_spec in E. destruct ok; intros [= <- <-]; [done|by rewrite E].
Qed.

Lemma slots_step s s' : slots_inv s -> mstep s s' -> slots_inv s'.
Proof.
  unfold slots_inv. intros [H1 H2] Hs. destruct Hs as [m ts p m' E|m ts p m' E|m ts peers m' p E|m ts peers m' E|m ts p m' _ E|m l1 p l2|m l1 p k l2|m l1 p k l2]; cbn in *.
  - apply triggerInternal_spec in E as (_ & _ & H3 & _ & ->). rewrite len_app. change (len [_]) with 1. lia.
  - apply triggerInternal_spec in E as ->. done.
  - apply tickStep_spec in E as (_ & _ & H3 & _ & ->). rewrite len_app. change (len [_]) with 1. lia.
  - apply tickStep_spec in E as [_ ->]. done.
  - unfold syncSlot in E. destruct (Z.leb_spec (ae_MaxConcurrent cfg) (slots m)); [done|]. injection E as <-. cbn. rewrite len_app. change (len [_]) with 1. lia.
  - rewrite len_app, len_cons in *. done.
  - rewrite len_app, len_cons in *. done.
  - rewrite ?len_app, ?len_cons in *. lia.
Qed.

Definition start (s : sys) : Prop := s = mkSys newManager [].

(** C29: At most [MaxConcurrent] rounds run at a time, whatever triggers, ticks and
    synchronous calls interleave, and the channel holds one value for each. *)
Theorem reconciles_bounded s s' : start s -> rtc mstep s s' -> 0 <= ae_MaxConcurrent cfg ->
  slots (s_mgr s') = len (s_tasks s') /\ len (running (s_tasks s')) <= ae_MaxConcurrent cfg.
Proof.
  intros -> Hr Hm. assert (slots_inv s') as [H1 H2].
  { assert (slots_inv (mkSys newManager [])) as H0 by (split; cbn; [done|change (len (@nil task)) with 0; lia]). revert H0. generalize (mkSys newManager []) as s, Hr. clear Hr.
    intros s Hr. induction Hr as [|s s1 s2 H _ IH]; [done|]. intros H0. apply IH. by eapply slots_step. }
  split; [done|]. etransitivity; [|exact H2]. unfold len, running. pose proof (length_filter (fun t => match t_phase t with Running => true | _ => false end = true) (s_tasks s')). lia.
Qed.

(** ** Asynchronous rounds *)
Definition async (s : sys) : Prop := Forall (fun t => t_kind t = Async) (s_tasks s).
(** Without synchronous calls the marks are exactly the peers of the running rounds. *)
Definition marks_inv (s : sys) : Prop :=
  NoDup (map t_peer (running (s_tasks s))) /\ (selfID ∉ map t_peer (running (s_tasks s))) /\ forall p, p ∈ inflight (s_mgr s) <-> p ∈ map t_peer (running (s_tasks s)).

Lemma running_app l1 l2 : running (l1 ++ l2) = running l1 ++ running l2.
Proof. apply filter_app. Qed.
Lemma running_cons t l : running (t :: l) = match t_phase t with Running => t :: running l | _ => running l end.
Proof. unfold running. destruct (t_phase t) eqn:E; [rewrite filter_cons_False by (rewrite E; done)|rewrite filter_cons_True by by rewrite E|rewrite filter_cons_False by (rewrite E; done)]; done. Qed.

Lemma marks_add s m' p :
  marks_inv s -> p ∉ inflight (s_mgr s) -> p <> selfID -> inflight m' = inflight (s_mgr s) ∪ {[p]} -> marks_inv (mkSys m' (s_tasks s ++ [mkTask p Async Running])).
Proof.
  intros (H1 & H2 & H3) Hp Hs E. unfold marks_inv. cbn. rewrite running_app, running_cons. cbn. rewrite map_app. cbn. split; [|split].
  - apply NoDup_app. split; [done|]. split; [|apply NoDup_singleton]. intros q Hq ->%list_elem_of_singleton. by apply Hp, H3.
  - rewrite elem_of_app, list_elem_of_singleton. intros [?| ->]; done.
  - intros q. rewrite E, elem_of_union, elem_of_singleton, elem_of_app, list_elem_of_singleton, H3. done.
Qed.

Lemma marks_step s s' : async s -> async s' -> marks_inv s -> mstep s s' -> marks_inv s'.
Proof.
  intros Ha Ha' Hm Hs. destruct Hs as [m ts p m' E|m ts p m' E|m ts peers m' p E|m ts peers m' E|m ts p m' _ E|m l1 p l2|m l1 p k l2|m l1 p k l2].
  - apply triggerInternal_spec in E as (H1 & H2 & _ & H3 & _). by apply (marks_add (mkSys m ts)).
  - apply triggerInternal_spec in E as ->. done.
  - apply tickStep_spec in E as (H1 & H2 & _ & H3 & _). by apply (marks_add (mkSys m ts)).
  - apply tickStep_spec in E as [E _]. destruct Hm as (H1 & H2 & H3). split; [done|]. split; [done|]. intros q. cbn. rewrite E. apply H3.
  - apply Forall_app in Ha' as [_ Ha']. by apply Forall_cons in Ha' as [? _].
  - apply Forall_app in Ha as [_ Ha]. by apply Forall_cons in Ha as [? _].
  - destruct Hm as (H1 & H2 & H3). unfold marks_inv in *. cbn in *. rewrite running_app, running_cons in *. cbn in *. rewrite map_app in *. cbn in *.
    assert (map t_peer (running l1) ++ p :: map t_peer (running l2) ≡ₚ p :: (map t_peer (running l1) ++ map t_peer (running l2))) as Hp by (symmetry; apply Permutation_middle).
    rewrite Hp in H1. apply NoDup_cons in H1 as [Hn H1]. split; [done|]. split; [rewrite Hp in H2; by apply not_elem_of_cons in H2 as [_ ?]|].
    intros q. rewrite elem_of_difference, elem_of_singleton, H3, Hp, elem_of_cons. split; [tauto|]. intros Hq. split; [by right|]. by intros ->.
  - destruct Hm as (H1 & H2 & H3). unfold marks_inv in *. cbn in *. rewrite ?running_app, ?running_cons in *. done.
Qed.

(** As long as no synchronous call is made, no two rounds run with one peer. *)
Inductive async_run : sys -> sys -> Prop :=
| arun_refl s : async_run s s
| arun_step s s1 s2 : mstep s s1 -> async s1 -> async_run s1 s2 -> async_run s s2.
Theorem async_rounds_distinct s s' : start s -> async_run s s' ->
  NoDup (map t_peer (running (s_tasks s'))) /\ (selfID ∉ map t_peer (running (s_tasks s'))).
Proof.
  intros -> Hr. assert (marks_inv s') as (H1 & H2 & _); [|done].
  assert (marks_inv (mkSys newManager [])) as H0 by (split; [constructor|]; split; [apply not_elem_of_nil|]; intros p; cbn; set_solver).
  assert (async (mkSys newManager [])) as Ha by constructor. revert H0 Ha. induction Hr as [|s s1 s2 Hs Ha1 _ IH]; [done|]. intros H0 Ha. apply IH; [|done]. by eapply marks_step.
Qed.

(** ** The periodic tick *)
Lemma turns_visit peers t p :
  p ∈ peers -> 0 <= t -> t + len peers <= 2^64 -> p ∈ turns peers t (length peers).
Proof.
  intros [j Hj]%list_elem_of_lookup Ht Hlen. pose proof (lookup_lt_Some _ _ _ Hj). unfold turns. set (n := len peers) in *. assert (n = Z.of_nat (length peers)) as En by done.
  set (i := (Z.of_nat j - t) mod n). assert (0 <= i < n) as Hi by (apply Z.mod_pos_bound; lia).
  apply list_elem_of_omap. exists (Z.to_nat i). split; [apply elem_of_seq; lia|]. rewrite u64_small by lia. rewrite Z2Nat.id by lia.
  replace ((t + i) mod n) with (Z.of_nat j); [by rewrite Nat2Z.id|]. subst i. rewrite Z.add_mod_idemp_r by lia. replace (t + (Z.of_nat j - t)) with (Z.of_nat j) by lia. symmetry. apply Z.mod_small. lia.
Qed.
End manager.

(** ** One round *)
Section round.
Context {S : Type} `{!KVStore S} (Sum64 : bytes -> Z) (range_members : gmap bytes MemberState -> list bytes).
Context (net : nat -> fate) (cut : nat -> option nat) (now : nat -> Z).
(** The address of a peer, empty when the node does not know it. *)
Definition peerAddr (ms : list MemberState) (peerID : bytes) : bytes :=
  match filter (fun s => MNodeID s = peerID) ms with [] => [] | s :: _ => MAddr s end.
Inductive RoundErr := ErrPeerNotFound | ErrPeerNotAlive | ErrRound (e : RecErr).
(** [Run] with the ring version of this moment, unless the peer is unknown or not alive. *)
Definition runOne (m : Membership) (ring peerRing : option Ring) (peerVer : option Z) (cfg : AntiEntropyConfig) (RF peerRF : Z) (self peerID : bytes) (st : rstate S)
  : rstate S * outcome RoundErr Z :=
  if bytes_Equal (peerAddr (GetMembers range_members m) peerID) [] then (st, Err ErrPeerNotFound) else
  if negb (IsAlive m peerID) then (st, Err ErrPeerNotAlive) else
  let rc := mkRec self peerID ring peerRing peerVer cfg (Version (GetRingDescriptor m)) RF peerRF in
  let '(st, r) := Run Sum64 rc net cut now st in
  (st, match r with Ok n => Ok n | Err e => Err (ErrRound e) | Panic => Panic end).
End round.

(** ** admin.go: rounds on request *)
(** The statistics of a round; [st_Err] is the text of its error. *)
Record AEStat := mkStat { st_PeerID : bytes; st_KeysScanned : Z; st_DivergentLeaves : Z; st_KeysRepaired : Z; st_DurationMillis : Z; st_Err : option bytes }.
(** [cluster.AntiEntropyTrigger]; [Err] carries the text of the error. *)
Class AETrigger (M : Type) := {
  ae_Trigger : bytes -> M -> M;
  ae_TriggerAll : M -> M;
  ae_TriggerSync : bytes -> M -> M * outcome bytes AEStat
}.
Section admin.
Context {M : Type} `{!AETrigger M}.
(** One blocking round, with its error in the statistics. *)
Definition syncStat (peerID : bytes) (m : M) : M * AEStat :=
  match ae_TriggerSync peerID m with
  | (m, Ok st) => (m, st)
  | (m, Err e) => (m, mkStat peerID 0 0 0 0 (Some e))
  | (m, Panic) => (m, mkStat peerID 0 0 0 0 None)
  end.
Fixpoint TriggerSyncAll (peers : list bytes) (m : M) : M * list AEStat :=
  match peers with
  | [] => (m, [])
  | p :: peers => let '(m, st) := syncStat p m in let '(m, sts) := TriggerSyncAll peers m in (m, st :: sts)
  end.
(** The wire form has the empty text for no error. *)
Definition statToProto (st : AEStat) : AEStat :=
  mkStat (st_PeerID st) (st_KeysScanned st) (st_DivergentLeaves st) (st_KeysRepaired st) (st_DurationMillis st) (Some (default [] (st_Err st))).
Inductive AdminErr := ErrAEUnavailable.
Definition TriggerAntiEntropy (owned : list bytes) (peerID : bytes) (blocking : bool) (ae : option M) : option M * outcome AdminErr (list AEStat) :=
  match ae with
  | None => (None, Err ErrAEUnavailable)
  | Some m =>
      if negb blocking then (Some (if bytes_Equal peerID [] then ae_TriggerAll m else ae_Trigger peerID m), Ok [])
      else let '(m, stats) := if bytes_Equal peerID [] then TriggerSyncAll owned m else let '(m, st) := syncStat peerID m in (m, [st]) in
           (Some m, Ok (map statToProto stats))
  end.

(** A blocking request answers one statistic for each peer it concerns, in order,
    whatever rounds fail. *)
Lemma trigger_reports owned peerID m :
  (forall p m st, (ae_TriggerSync p m).2 = Ok st -> st_PeerID st = p) ->
  exists m' stats, TriggerAntiEntropy owned peerID true (Some m) = (Some m', Ok stats) /\
    map st_PeerID stats = if bytes_Equal peerID [] then owned else [peerID].
Proof.
  intros Hp. assert (forall p m, st_PeerID (syncStat p m).2 = p) as H1.
  { intros p m1. unfold syncStat. specialize (Hp p m1). destruct (ae_TriggerSync p m1) as [m2 [st|e|]]; [by apply Hp|done..]. }
  unfold TriggerAntiEntropy. cbn [negb]. destruct (bytes_Equal peerID []).
  - assert (forall m, map st_PeerID (map statToProto (TriggerSyncAll owned m).2) = owned) as H2.
    { induction owned as [|p owned IH]; intros m1; [done|]. cbn [TriggerSyncAll]. specialize (H1 p m1). destruct (syncStat p m1) as [m2 st]. specialize (IH m2).
      destruct (TriggerSyncAll owned m2) as [m3 sts]. cbn in *. by rewrite H1, IH. }
    specialize (H2 m). destruct (TriggerSyncAll owned m) as [m1 sts]. eauto.
  - specialize (H1 peerID m). destruct (syncStat peerID m) as [m1 st]. eexists _, _. split; [done|]. cbn in *. by rewrite H1.
Qed.
End admin.

(** ** A flaw: a synchronous call clears the mark of another round *)
Definition z_cfg : ManagerConfig := NewManager_cfg (mkMC true 0 0 0 0 0 0 0).
Definition zA : bytes := [Byte.x61].
Definition zB : bytes := [Byte.x62].
(** Two rounds with B that both came from asynchronous triggers run at once: the
    synchronous call that ran beside the first removed its mark when it ended. *)
Theorem sync_round_breaks_dedup :
  exists s, rtc (mstep z_cfg zA) (mkSys newManager []) s /\ running (s_tasks s) = [mkTask zB Async Running; mkTask zB Async Running].
Proof.
  eexists. split.
  - eapply rtc_l; [by eapply (step_trigger _ _ _ _ zB)|]. eapply rtc_l; [by eapply (step_slot _ _ _ _ zB)|].
    eapply rtc_l; [eapply (step_mark _ _ _ [mkTask zB Async Running] zB [])|]. eapply rtc_l; [eapply (step_clear _ _ _ [mkTask zB Async Running] zB Sync [])|].
    eapply rtc_l; [eapply (step_free _ _ _ [mkTask zB Async Running] zB Sync [])|]. eapply rtc_l; [by eapply (step_trigger _ _ _ _ zB)|]. apply rtc_refl.
  - reflexivity.
Qed.

Lemma reconciles_bounded_witness :
  exists s, rtc (mstep z_cfg zA) (mkSys newManager []) s /\ len (s_tasks s) = 2 /\ slots (s_mgr s) = 2 /\ len (running (s_tasks s)) <= 2.
Proof.
  assert (exists s, rtc (mstep z_cfg zA) (mkSys newManager []) s /\ len (s_tasks s) = 2) as (s & Hr & Hl).
  { eexists. split; [eapply rtc_l; [by eapply (step_trigger _ _ _ _ zB)|]; eapply rtc_l; [by eapply (step_slot _ _ _ _ zB)|]; apply rtc_refl|reflexivity]. }
  destruct (reconciles_bounded z_cfg zA (mkSys newManager []) s) as [H1 H2]; [reflexivity|exact Hr|discriminate|].
  exists s. split; [exact Hr|]. split; [exact Hl|]. split; [rewrite H1; exact Hl|exact H2].
Defined.

Lemma async_rounds_distinct_witness :
  exists s, async_run z_cfg zA (mkSys newManager []) s /\ map t_peer (running (s_tasks s)) = [zB; [Byte.x63]] /\ NoDup (map t_peer (running (s_tasks s))).
Proof.
  assert (exists s, async_run z_cfg zA (mkSys newManager []) s /\ map t_peer (running (s_tasks s)) = [zB; [Byte.x63]]) as (s & Hr & Hl).
  { eexists. split; [eapply arun_step; [by eapply (step_trigger _ _ _ _ zB)|repeat constructor|]; eapply arun_step; [by eapply (step_refused _ _ _ _ zB)|repeat constructor|];
      eapply arun_step; [by eapply (step_trigger _ _ _ _ [Byte.x63])|repeat constructor|]; apply arun_refl|reflexivity]. }
  destruct (async_rounds_distinct z_cfg zA (mkSys newManager []) s) as [H _]; [reflexivity|exact Hr|].
  exists s. split; [exact Hr|]. split; [exact Hl|exact H].
Defined.
