(* ===== verification/Handlers.v ===== *)
(** * Client RPCs of a node (src/server/handlers.go, vector_handlers.go)

    What a client calls.  A node is standalone, and its handlers use its own store,
    or part of a cluster, and they go through the coordinator, which is an interface
    here; [local_db] is the store of the node itself, which [Scan] reads in both
    modes.  The theorems: a client reads what was written; a standalone batch is
    atomic and a cluster batch is not; and [Scan] in a cluster streams the stored
    envelopes, deleted keys included. *)

From Stdlib Require Import ZArith Lia List Sorted.
From stdpp Require Import base list option gmap.
From S2P Require Import Prelude GoBytes KV Entries HLC Envelope KVStore Heap HNSW HNSWSpec HNSWSnapshot VecCodec VectorStore VectorProof Replica Reconcile Member HintStore HashRing Coordinator CoordSpec VectorServer.
Open Scope Z_scope.

(** Status codes a client sees; the index of an entry where the message has it. *)
Inductive scode := SInvalidArgument (i : option nat) | SInternal (i : option nat) | SUnavailable.

(** An empty field of a message is not sent, and is nil at the receiver. *)
Definition proto_bytes (v : bytes) : option bytes := if len v =? 0 then None else Some v.

(** The writes of clients: the value of a put may be nil, and a batch has puts and
    deletions. *)
Inductive client_write := WPut (key : bytes) (value : option bytes) | WDelete (key : bytes).
Class KVBatch (S : Type) `{!KVStore S} := {
  db_PutAny : bytes -> option bytes -> S -> option S;
  db_Commit : list client_write -> S -> option S
}.
Definition apply_write (m : gmap bytes Value) (w : client_write) : gmap bytes Value :=
  match w with WPut k v => <[k := NewValue v]> m | WDelete k => <[k := NewTombstone]> m end.
Definition commit_all (ops : list client_write) (m : gmap bytes Value) : gmap bytes Value := fold_left apply_write ops m.
Class KVBatchLaws (S : Type) `{!KVStore S, !KVLaws S, !KVBatch S} := {
  law_put_any k v s s' : db_PutAny k v s = Some s' -> contents s' = <[k := NewValue v]> (contents s);
  law_commit ops s s' : db_Commit ops s = Some s' -> contents s' = commit_all ops (contents s)
}.

(** The coordinator as the handlers use it: [true] for no error. *)
Class CoordAPI (C : Type) := {
  co_Write : bytes -> bytes -> C -> C * bool;
  co_Delete : bytes -> C -> C * bool;
  co_Read : bytes -> C -> C * option ReadResult
}.
Class VectorAPI (C D : Type) := {
  co_VectorWrite : bytes -> bytes -> list Z -> Metadata -> C -> C * bool;
  co_VectorDelete : bytes -> bytes -> C -> C * bool;
  co_VectorSearch : bytes -> list Z -> Z -> Z -> Z -> C -> C * option (list (VectorSearchResult D))
}.

Record BatchEntry := mkEntry { be_Key : bytes; be_Value : bytes; be_IsDelete : bool }.

Section handlers.
Context {S C : Type} `{!KVStore S, !KVBatch S, !CoordAPI C} (local_db : C -> S).

Inductive Server := Standalone (db : S) | Cluster (c : C).

(** ** handlers.go *)
Definition Put (key value : bytes) (s : Server) : Server * outcome scode unit :=
  if len key =? 0 then (s, Err (SInvalidArgument None)) else
  match s with
  | Cluster c => let '(c, ok) := co_Write key value c in (Cluster c, if ok : bool then Ok tt else Err (SInternal None))
  | Standalone db => match db_PutAny key (proto_bytes value) db with Some db => (Standalone db, Ok tt) | None => (s, Err (SInternal None)) end
  end.
(** [None]: not found. *)
Definition Get (key : bytes) (s : Server) : Server * outcome scode (option (option bytes)) :=
  if len key =? 0 then (s, Err (SInvalidArgument None)) else
  match s with
  | Cluster c =>
      match co_Read key c with
      | (c, None) => (Cluster c, Err (SInternal None))
      | (c, Some r) => (Cluster c, if negb (res_found r) || res_deleted r then Ok None else Ok (Some (res_value r)))
      end
  | Standalone db =>
      match db_Get db key with
      | None => (s, Ok None)
      | Some val => (s, if Tombstone val then Ok None else Ok (Some (Data val)))
      end
  end.
Definition Delete (key : bytes) (s : Server) : Server * outcome scode unit :=
  if len key =? 0 then (s, Err (SInvalidArgument None)) else
  match s with
  | Cluster c => let '(c, ok) := co_Delete key c in (Cluster c, if ok : bool then Ok tt else Err (SInternal None))
  | Standalone db => match db_Delete key db with Some db => (Standalone db, Ok tt) | None => (s, Err (SInternal None)) end
  end.
(** A tombstone is not streamed. *)
Definition live_pair (kv : bytes * option bytes) : option (bytes * bytes) := match kv.2 with Some v => Some (kv.1, v) | None => None end.
(** What is streamed to a client that stays connected. *)
Definition Scan (s : Server) : list (bytes * bytes) :=
  omap live_pair (db_Scan (match s with Standalone db => db | Cluster c => local_db c end)).

Fixpoint clusterBatch (i : nat) (entries : list BatchEntry) (c : C) : C * outcome scode unit :=
  match entries with
  | [] => (c, Ok tt)
  | e :: entries =>
      if len (be_Key e) =? 0 then (c, Err (SInvalidArgument (Some i))) else
      let '(c, ok) := if be_IsDelete e then co_Delete (be_Key e) c else co_Write (be_Key e) (be_Value e) c in
      if ok : bool then clusterBatch (Datatypes.S i) entries c else (c, Err (SInternal (Some i)))
  end.
Definition op_of (e : BatchEntry) : client_write := if be_IsDelete e then WDelete (be_Key e) else WPut (be_Key e) (proto_bytes (be_Value e)).
Fixpoint batchOps (i : nat) (entries : list BatchEntry) : outcome scode (list client_write) :=
  match entries with
  | [] => Ok []
  | e :: entries =>
      if len (be_Key e) =? 0 then Err (SInvalidArgument (Some i)) else
      ops ← batchOps (Datatypes.S i) entries; Ok (op_of e :: ops)
  end.
Definition BatchWrite (entries : list BatchEntry) (s : Server) : Server * outcome scode unit :=
  match s with
  | Cluster c => let '(c, r) := clusterBatch 0 entries c in (Cluster c, r)
  | Standalone db =>
      match batchOps 0 entries with
      | Ok ops => match db_Commit ops db with Some db => (Standalone db, Ok tt) | None => (s, Err (SInternal None)) end
      | Err e => (s, Err e)
      | Panic => (s, Panic)
      end
  end.

(** ** Batches *)
(** The entries of a batch applied to a cluster one after the other, each acknowledged or not. *)
Fixpoint applyEntries (entries : list BatchEntry) (c : C) : C * list bool :=
  match entries with
  | [] => (c, [])
  | e :: entries =>
      let '(c, ok) := if be_IsDelete e then co_Delete (be_Key e) c else co_Write (be_Key e) (be_Value e) c in
      let '(c, oks) := applyEntries entries c in (c, ok :: oks)
  end.

Lemma batchOps_spec i entries :
  match batchOps i entries with
  | Ok ops => ops = map op_of entries /\ Forall (fun e => be_Key e <> []) entries
  | Err e => exists l x r, entries = l ++ x :: r /\ be_Key x = [] /\ e = SInvalidArgument (Some (i + length l)%nat) /\ Forall (fun e => be_Key e <> []) l
  | Panic => False
  end.
Proof.
  revert i. induction entries as [|e entries IH]; intros i; cbn [batchOps]; [done|]. destruct (Z.eqb_spec (len (be_Key e)) 0) as [E|E].
  - exists [], e, entries. split; [done|]. split; [by destruct (be_Key e)|]. split; [do 2 f_equal; cbn; lia|constructor].
  - assert (be_Key e <> []) as Hne by (intros E0; by rewrite E0 in E). specialize (IH (Datatypes.S i)). destruct (batchOps _ entries) as [ops|er|]; [| |done]; cbn.
    + destruct IH as [-> H]. split; [done|]. by constructor.
    + destruct IH as (l & x & r & -> & Hx & -> & Hl). exists (e :: l), x, r. split; [done|]. split; [done|]. split; [do 2 f_equal; cbn; lia|by constructor].
Qed.

Lemma clusterBatch_spec i entries c :
  match (clusterBatch i entries c).2 with
  | Ok _ => exists oks, applyEntries entries c = ((clusterBatch i entries c).1, oks) /\ Forall (fun b => b = true) oks /\ length oks = length entries
  | Err (SInvalidArgument (Some k)) => exists l x r oks, entries = l ++ x :: r /\ k = (i + length l)%nat /\ be_Key x = [] /\ applyEntries l c = ((clusterBatch i entries c).1, oks) /\ Forall (fun b => b = true) oks
  | Err (SInternal (Some k)) => exists l x r oks, entries = l ++ x :: r /\ k = (i + length l)%nat /\ applyEntries (l ++ [x]) c = ((clusterBatch i entries c).1, oks ++ [false]) /\ Forall (fun b => b = true) oks
  | _ => False
  end.
Proof.
  revert i c. induction entries as [|e entries IH]; intros i c; cbn [clusterBatch]; [by exists []|]. destruct (Z.eqb_spec (len (be_Key e)) 0) as [E|E].
  { cbn. exists [], e, entries, []. split; [done|]. split; [by rewrite Nat.add_0_r|]. split; [|by split]. by destruct (be_Key e). }
  destruct (if be_IsDelete e then _ else _) as [c1 ok] eqn:Ec. destruct ok.
  - specialize (IH (Datatypes.S i) c1). destruct (clusterBatch (Datatypes.S i) entries c1) as [c2 r]. cbn in *.
    destruct r as [[]|[[k|]|[k|]|]|]; try done; cbn [applyEntries].
    + destruct IH as (oks & H1 & H2 & H3). exists (true :: oks). rewrite Ec, H1. split; [done|]. split; [by constructor|by cbn; rewrite H3].
    + destruct IH as (l & x & r & oks & -> & -> & H1 & H2 & H3). exists (e :: l), x, r, (true :: oks). cbn. rewrite Ec, H2. split; [done|]. split; [lia|]. split; [done|]. split; [done|by constructor].
    + destruct IH as (l & x & r & oks & -> & -> & H2 & H3). exists (e :: l), x, r, (true :: oks). cbn. rewrite Ec, H2. split; [done|]. split; [lia|]. split; [done|by constructor].
  - cbn. exists [], e, entries, []. cbn. rewrite Ec. split; [done|]. split; [by rewrite Nat.add_0_r|done].
Qed.

(** C37: Batches.  On a standalone node a batch is applied as a whole, in its order, or
    not at all.  In a cluster its entries are written one by one: an error, an
    invalid key in the middle included, names the entry it comes from, all entries
    before it have been written and acknowledged and none after it has been tried. *)
Theorem batch_write_effect `{!KVLaws S, !KVBatchLaws S} entries (s : Server) :
  match s, BatchWrite entries s with
  | Standalone db, (s', Ok _) => exists db', s' = Standalone db' /\ contents db' = commit_all (map op_of entries) (contents db) /\ Forall (fun e => be_Key e <> []) entries
  | Standalone _, (s', Err e) => s' = s /\ (e = SInternal None \/ exists l x r, entries = l ++ x :: r /\ be_Key x = [] /\ e = SInvalidArgument (Some (length l)) /\ Forall (fun e => be_Key e <> []) l)
  | Cluster c, (s', Ok _) => exists c' oks, s' = Cluster c' /\ applyEntries entries c = (c', oks) /\ Forall (fun b => b = true) oks /\ length oks = length entries
  | Cluster c, (s', Err e) => exists c' l x r oks, s' = Cluster c' /\ entries = l ++ x :: r /\ Forall (fun b => b = true) oks /\
      (e = SInvalidArgument (Some (length l)) /\ be_Key x = [] /\ applyEntries l c = (c', oks) \/
       e = SInternal (Some (length l)) /\ applyEntries (l ++ [x]) c = (c', oks ++ [false]))
  | _, (_, Panic) => False
  end.
Proof.
  destruct s as [db|c]; cbn.
  - pose proof (batchOps_spec 0 entries) as H. destruct (batchOps 0 entries) as [ops|e|]; [| |done].
    + destruct H as [-> H]. destruct (db_Commit _ _) as [db'|] eqn:E; [|by split; [|left]]. apply law_commit in E. by exists db'.
    + destruct H as (l & x & r & -> & Hx & -> & Hl). split; [done|]. right. by exists l, x, r.
  - pose proof (clusterBatch_spec 0 entries c) as H. destruct (clusterBatch 0 entries c) as [c' r]. cbn in H.
    destruct r as [[]|[[k|]|[k|]|]|]; try done.
    + destruct H as (oks & H1 & H2 & H3). by exists c', oks.
    + destruct H as (l & x & r & oks & -> & -> & Hx & H1 & H2). exists c', l, x, r, oks. auto 10.
    + destruct H as (l & x & r & oks & -> & -> & H1 & H2). exists c', l, x, r, oks. auto 10.
Qed.

(** ** Streams *)
Lemma live_in (l : list (bytes * option bytes)) k v : (k, v) ∈ omap live_pair l <-> (k, Some v) ∈ l.
Proof.
  rewrite list_elem_of_omap. split; [intros ([k' [v'|]] & Hin & E); [|done]; cbn in E; by injection E as <- <-|intros H; by exists (k, Some v)].
Qed.
Lemma live_sorted (l : list (bytes * option bytes)) : StronglySorted key_lt l -> StronglySorted key_lt (omap live_pair l).
Proof.
  induction 1 as [|[k o] l _ IH Hf]; cbn; [constructor|]. destruct o as [v|]; cbn; [|done]. constructor; [done|].
  apply Forall_forall. intros [k' v'] Hin%live_in. rewrite Forall_forall in Hf. exact (Hf _ Hin).
Qed.

(** ** Runs of a standalone node *)
Inductive clientOp := CPut (key value : bytes) | CDelete (key : bytes) | CBatch (entries : list BatchEntry).
Definition cstep (o : clientOp) (s : Server) : Server * outcome scode unit :=
  match o with CPut k v => Put k v s | CDelete k => Delete k s | CBatch es => BatchWrite es s end.
Definition cops (o : clientOp) : list client_write :=
  match o with CPut k v => [WPut k (proto_bytes v)] | CDelete k => [WDelete k] | CBatch es => map op_of es end.
(** The final state, and the puts and deletions acknowledged, in order. *)
Fixpoint crun (os : list clientOp) (s : Server) : Server * list client_write :=
  match os with
  | [] => (s, [])
  | o :: os =>
      let '(s, r) := cstep o s in
      let '(s, acked) := crun os s in (s, match r with Ok _ => cops o ++ acked | _ => acked end)
  end.

Lemma cstep_standalone `{!KVLaws S, !KVBatchLaws S} o db :
  exists db', (cstep o (Standalone db)).1 = Standalone db' /\
    contents db' = match (cstep o (Standalone db)).2 with Ok _ => commit_all (cops o) (contents db) | _ => contents db end.
Proof.
  destruct o as [k v|k|es]; cbn [cstep cops].
  - unfold Put. destruct (_ =? _); [by exists db|]. destruct (db_PutAny _ _ _) as [db'|] eqn:E; [|by exists db]. apply law_put_any in E. by exists db'.
  - unfold Delete. destruct (_ =? _); [by exists db|]. destruct (db_Delete _ _) as [db'|] eqn:E; [|by exists db]. apply law_delete in E. by exists db'.
  - cbn. pose proof (batchOps_spec 0 es) as H. destruct (batchOps 0 es) as [ops|e|]; [|by exists db|done]. destruct H as [-> _].
    destruct (db_Commit _ _) as [db'|] eqn:E; [|by exists db]. apply law_commit in E. by exists db'.
Qed.

(** What the clients of a standalone node are answered: the map its store holds. *)
Definition answers_as `{!KVLaws S} (s : Server) (m : gmap bytes Value) : Prop :=
  (forall k, k <> [] -> key_ok k -> (Get k s).2 = Ok (match m !! k with Some w => if Tombstone w then None else Some (Data w) | None => None end)) /\
  StronglySorted key_lt (Scan s) /\
  forall k v, (k, v) ∈ Scan s <-> exists w, m !! k = Some w /\ iter_value w = Some v.
Lemma standalone_answers `{!KVLaws S} db : answers_as (Standalone db) (contents db).
Proof.
  split; [|].
  - intros k Hk Hok. unfold Get. destruct (Z.eqb_spec (len k) 0); [by destruct k|]. cbn. rewrite law_get by done. by destruct (contents db !! k) as [w|]; [destruct (Tombstone w)|].
  - destruct (law_scan db) as [Hs Hl]. split; [by apply live_sorted|]. intros k v. change (Scan (Standalone db)) with (omap live_pair (db_Scan db)).
    rewrite live_in, Hl. naive_solver.
Qed.

(** A standalone node implements a map.  After any run of puts, deletions and
    batches, some of which may fail, the store is what the acknowledged ones make
    of it, in their order; a client's [Get] returns its value for a key, or that it
    is not found; and [Scan] streams exactly its live entries in key order. *)
Theorem standalone_refines_map `{!KVLaws S, !KVBatchLaws S} os db :
  exists db', (crun os (Standalone db)).1 = Standalone db' /\ answers_as (Standalone db') (commit_all (crun os (Standalone db)).2 (contents db)).
Proof.
  enough (exists db', (crun os (Standalone db)).1 = Standalone db' /\ contents db' = commit_all (crun os (Standalone db)).2 (contents db)) as (db' & E & <-).
  { exists db'. split; [done|]. apply standalone_answers. }
  revert db. induction os as [|o os IH]; intros db; cbn [crun]; [by exists db|].
  destruct (cstep_standalone o db) as (db1 & E1 & E2). destruct (cstep o (Standalone db)) as [s r]. cbn in E1, E2. subst s.
  destruct (IH db1) as (db' & H1 & H2). destruct (crun os (Standalone db1)) as [s acked]. cbn in *. exists db'. split; [done|]. rewrite H2, E2.
  destruct r; [|done..]. unfold commit_all. by rewrite fold_left_app.
Qed.
End handlers.
Arguments Server : clear implicits.
Arguments Standalone {S C} _.
Arguments Cluster {S C} _.

(** ** vector_handlers.go *)
Section vector_handlers.
Context {S C D : Type} `{!KVStore S, !VectorAPI C D}.
Context (dlt : D -> D -> bool) (dist : Z -> list Z -> list Z -> D) (sort : list (heapItem D) -> list (heapItem D)) (level_of : Z -> nat).
(** The vector store of the node itself, inside the state of a cluster. *)
Context (own_store : C -> option (VectorStore S)) (set_own : VectorStore S -> C -> C).

Inductive VecServer := VStandalone (vs : option (VectorStore S)) (gen : localVersionGen) | VCluster (c : C).
Definition store_of (s : VecServer) : option (VectorStore S) := match s with VStandalone vs _ => vs | VCluster c => own_store c end.
Definition with_store (vs : VectorStore S) (s : VecServer) : VecServer := match s with VStandalone _ gen => VStandalone (Some vs) gen | VCluster c => VCluster (set_own vs c) end.
(** What a request came to; a panic ends the process. *)
Definition vec_status (e : option VErr) : outcome scode unit := match e with None => Ok tt | Some VPanic => Panic | Some _ => Err (SInternal None) end.

Definition protoMetadataToVector (m : gmap bytes bytes) : Metadata := MBytes <$> m.
(** Values of other types than strings and bytes are left out. *)
Definition vectorMetadataToProto (m : Metadata) : gmap bytes bytes := omap (fun v => match v with MBytes b => Some b | MString b => Some b | _ => None end) m.

(** The numbers of the request are int32, its metric uint32. *)
Definition CreateCollection (name : bytes) (dim metric m efConstruct efSearch maxVectors : Z) (s : VecServer) : VecServer * outcome scode unit :=
  match store_of s with
  | None => (s, Err SUnavailable)
  | Some vs =>
      let '(vs, err) := VectorStore.CreateCollection name (mkCollection dim (u8 metric) m efConstruct efSearch maxVectors) vs in
      (with_store vs s, vec_status err)
  end.
Definition VectorPut (now : Z) (collection id : bytes) (vec : list Z) (meta : gmap bytes bytes) (s : VecServer) : VecServer * outcome scode unit :=
  match store_of s with
  | None => (s, Err SUnavailable)
  | Some vs =>
      if negb (len id =? 16) then (s, Err (SInvalidArgument None)) else
      match s with
      | VCluster c => let '(c, ok) := co_VectorWrite collection id vec (protoMetadataToVector meta) c in (VCluster c, if ok : bool then Ok tt else Err (SInternal None))
      | VStandalone _ gen =>
          let '(gen, ver) := Next now gen in
          let '(vs, err) := VectorStore.Put dlt dist sort level_of collection id vec (protoMetadataToVectorMeta meta) ver vs in
          (VStandalone (Some vs) gen, vec_status err)
      end
  end.
Definition VectorDelete (now : Z) (collection id : bytes) (s : VecServer) : VecServer * outcome scode unit :=
  match store_of s with
  | None => (s, Err SUnavailable)
  | Some vs =>
      if negb (len id =? 16) then (s, Err (SInvalidArgument None)) else
      match s with
      | VCluster c => let '(c, ok) := co_VectorDelete collection id c in (VCluster c, if ok : bool then Ok tt else Err (SInternal None))
      | VStandalone _ gen =>
          let '(gen, ver) := Next now gen in
          let '(vs, err) := VectorStore.Delete collection id ver vs in (VStandalone (Some vs) gen, vec_status err)
      end
  end.
(** A result with its metadata on the wire, which a cluster does not send. *)
Definition vectorResultsToProto (rs : list (Result D)) : list (VectorSearchResult D * gmap bytes bytes) :=
  map (fun r => (resultToProto r, vectorMetadataToProto (res_Metadata r))) rs.
Definition coordinatorResultsToProto (rs : list (VectorSearchResult D)) : list (VectorSearchResult D * gmap bytes bytes) := map (fun r => (r, ∅)) rs.
Definition VectorSearch (collection : bytes) (query : list Z) (k oversample efSearch : Z) (s : VecServer) : VecServer * outcome scode (list (VectorSearchResult D * gmap bytes bytes)) :=
  match store_of s with
  | None => (s, Err SUnavailable)
  | Some vs =>
      match s with
      | VCluster c =>
          match co_VectorSearch collection query k oversample efSearch c with
          | (c, Some rs) => (VCluster c, Ok (coordinatorResultsToProto rs))
          | (c, None) => (VCluster c, Err (SInternal None))
          end
      | VStandalone _ _ =>
          (s, match VectorStore.Search dlt dist sort collection query k efSearch vs with
              | Ok rs => Ok (vectorResultsToProto rs)
              | Err _ => Err (SInternal None)
              | Panic => Panic
              end)
      end
  end.
End vector_handlers.
Arguments VecServer : clear implicits.
Arguments VStandalone {S C} _ _.
Arguments VCluster {S C} _.

(** ** A cluster of three nodes behind the handlers of A *)
(** The cluster and the time of the next request; all calls are answered. *)
Definition w_cluster : Type := gmap bytes (peer (gmap bytes Value)) * Z.
Definition w_sched (t : Z) : list (nat * fate) := [(0%nat, Delivered t); (1%nat, Delivered t); (2%nat, Delivered t)].
Definition w_write (key : bytes) (value : option bytes) (deleted : bool) (s : w_cluster) : w_cluster * bool :=
  let '(c, t) := s in
  let '(c, r) := writeInternal demo_Sum64 dcfg demo_resolve nA t key value deleted (w_sched t) [0; 1; 2]%nat c in
  ((c, t + 1), match r with Some (Ok _) => true | _ => false end).
#[local] Instance w_api : CoordAPI w_cluster := {
  co_Write key value := w_write key (Some value) false;
  co_Delete key := w_write key None true;
  co_Read key s :=
    let '(c, t) := s in
    (s, match readBegin demo_Sum64 dcfg nA key c with
        | Ok ns => match Coordinator.Read demo_Sum64 dcfg nA key (map (fun n => readTask demo_resolve nA key n (Delivered t) c) ns) c with Some (Ok (r, _)) => Some r | _ => None end
        | _ => None
        end)
}.
#[local] Instance w_batch : KVBatch (gmap bytes Value) := { db_PutAny k v m := Some (<[k := NewValue v]> m); db_Commit ops m := Some (commit_all ops m) }.
#[local] Instance w_batch_laws : KVBatchLaws (gmap bytes Value).
Proof. split; [by intros k v s s' [= <-]|by intros ops s s' [= <-]]. Qed.
Definition w_local (s : w_cluster) : gmap bytes Value := match s.1 !! nA with Some p => r_db (p_rep p) | None => ∅ end.
Definition w_key : bytes := [Byte.x6b].

(** A flaw: in a cluster [Scan] reads the store of the node it reaches and streams
    what is in it.  After a put and a deletion, both acknowledged, [Get] answers
    that the key is not found, but [Scan] streams it, with the bytes of the envelope
    for its value; and before the deletion the value streamed is not the one put. *)
Theorem cluster_scan_streams_envelopes :
  let s0 := Cluster (S := gmap bytes Value) (demo_cluster, 10) in
  let s1 := (Put w_key [Byte.x76] s0).1 in let s2 := (Delete w_key s1).1 in
  (Put w_key [Byte.x76] s0).2 = Ok tt /\ (Get w_key s1).2 = Ok (Some (Some [Byte.x76])) /\
  (Delete w_key s1).2 = Ok tt /\ (Get w_key s2).2 = Ok None /\
  match Scan w_local s1, Scan w_local s2 with
  | [(k1, b1)], [(k2, b2)] => k1 = w_key /\ k2 = w_key /\ b1 <> [Byte.x76] /\ match DecodeEnvelope b2 with Ok e => EDeleted e = true | _ => False end
  | _, _ => False
  end.
Proof. vm_compute. repeat split. discriminate. Qed.

(** A node with no cluster. *)
#[local] Instance no_cluster {D} : VectorAPI unit D := {
  co_VectorWrite _ _ _ _ c := (c, false); co_VectorDelete _ _ c := (c, false); co_VectorSearch _ _ _ _ _ c := (c, None)
}.

(** A flaw: the number of results asked for is not checked.  A request with a
    negative one makes the search slice with a negative bound, and the process ends. *)
Theorem negative_k_panics :
  (VectorSearch (C := unit) Z.ltb (fun _ => sq_dist) sort_dist (fun _ => None) VectorProof.x_col [4; 5] (-1) 0 0
    (VStandalone (Some (VectorProof.x_run VectorProof.x_ops VectorProof.x_vs).1) (mkGen 0 0))).2 = Panic.
Proof. vm_compute. reflexivity. Qed.

Lemma standalone_refines_map_witness :
  let os := [CPut w_key [Byte.x76]; CBatch [mkEntry [Byte.x61] [Byte.x62] false; mkEntry w_key [] true]; CBatch [mkEntry [Byte.x7a] [] false; mkEntry [] [] false]] in
  (crun (C := w_cluster) os (Standalone (∅ : gmap bytes Value))).2 = [WPut w_key (Some [Byte.x76]); WPut [Byte.x61] (Some [Byte.x62]); WDelete w_key] /\
  exists db, (crun (C := w_cluster) os (Standalone (∅ : gmap bytes Value))).1 = Standalone db /\ (Get w_key (Standalone (C := w_cluster) db)).2 = Ok None.
Proof.
  intros os. split; [vm_compute; reflexivity|]. destruct (standalone_refines_map (C := w_cluster) w_local os (∅ : gmap bytes Value)) as (db & E & H & _).
  exists db. split; [exact E|]. rewrite (H w_key ltac:(discriminate) I). vm_compute. reflexivity.
Defined.

Lemma batch_write_effect_witness :
  let es := [mkEntry [Byte.x61] [Byte.x62] false; mkEntry [] [] true] in
  (BatchWrite (C := w_cluster) es (Standalone (∅ : gmap bytes Value))).2 = Err (SInvalidArgument (Some 1%nat)) /\
  match BatchWrite (C := w_cluster) es (Standalone (∅ : gmap bytes Value)) with (s', Err e) => s' = Standalone ∅ | _ => False end.
Proof.
  intros es. split; [vm_compute; reflexivity|].
  pose proof (batch_write_effect (C := w_cluster) es (Standalone (∅ : gmap bytes Value))) as H. cbn beta iota in H.
  destruct (BatchWrite es (Standalone ∅)) as [s' [[]|e|]] eqn:E; [vm_compute in E; discriminate E|exact (proj1 H)|exact H].
Defined.
