(* ===== verification/Standalone.v ===== *)
(** * A standalone node, from its clients to its storage engine (src/server over src/db)

    The handlers of Handlers.v over the operations of the engine ([sys_write] and the
    reads of EngineStore.v, which refuse nothing), with the flushes, compactions and
    snapshots of the engine in between; and a flaw of the two together, the loss of
    empty values. *)

From Stdlib Require Import ZArith Lia List Sorted.
From stdpp Require Import base list option gmap.
From S2P Require Import Prelude GoBytes KV Entries Manifest Compaction DB DBProof DBSpec KVStore EngineStore Coordinator Handlers.
Open Scope Z_scope.

(** A node without a cluster. *)
#[local] Instance no_coordinator : CoordAPI unit := {
  co_Write _ _ c := (c, false); co_Delete _ c := (c, false); co_Read _ c := (c, None)
}.

Section node.
Context (opts : Options) (coins : Z -> nat -> bool).
Context (range_tables : gmap Z SSTableInfo -> list SSTableInfo).
Context (range_hnsw : gmap bytes HNSWSnapshotInfo -> list HNSWSnapshotInfo).

(** The engine as the store of the handlers. *)
Definition write_op_of (w : client_write) : batchOp :=
  match w with WPut k v => mkOp k v false | WDelete k => mkOp k None true end.
Abbreviation write := (sys_write opts coins range_tables range_hnsw).
#[local] Instance sys_store : KVStore sys := {
  db_Put k v := write (OpPut k (Some v));
  db_Delete k := write (OpDelete k);
  db_Batch kvs := write (OpBatch (map put_op kvs));
  db_Get := sys_get;
  db_Scan := sys_scan;
  db_ScanPrefix := sys_scan_prefix
}.
(** [WriteBatch.Put] and [WriteBatch.Delete] for the entries of a batch. *)
#[local] Instance sys_batch : KVBatch sys := {
  db_PutAny k v := write (OpPut k v);
  db_Commit ws := write (OpBatch (map write_op_of ws))
}.
Lemma store_commits (ws : list client_write) (m : store) : fold_left store_write (map write_op_of ws) m = commit_all ws m.
Proof. revert m; induction ws as [|[k v|k] ws IH]; intros m; [done|..]; cbn [map fold_left]; by rewrite IH. Qed.

(** ** Runs *)
(** Requests of clients and the background work of the engine. *)
Inductive nodeOp := NClient (o : clientOp) | NFlush | NPick | NCompact | NSnapshot | NRelease (sn : Snapshot).
Abbreviation node := (Server sys unit).
Definition background (o : op) (srv : node) : node :=
  match srv with
  | Standalone s => Standalone (default s (sys_op opts coins range_tables range_hnsw o s))
  | Cluster c => Cluster c
  end.
(** The node after an operation, and the writes acknowledged. *)
Definition nstep (o : nodeOp) (srv : node) : node * list client_write :=
  match o with
  | NClient o => match cstep o srv with (srv, Ok _) => (srv, cops o) | (srv, _) => (srv, []) end
  | NFlush => (background OpFlush srv, [])
  | NPick => (background OpPick srv, [])
  | NCompact => (background OpCompact srv, [])
  | NSnapshot => (background OpSnapshot srv, [])
  | NRelease sn => (background (OpRelease sn) srv, [])
  end.
(** The final state, and the writes acknowledged, in order. *)
Fixpoint nrun (os : list nodeOp) (srv : node) : node * list client_write :=
  match os with
  | [] => (srv, [])
  | o :: os => let '(srv, ws) := nstep o srv in let '(srv, ws') := nrun os srv in (srv, ws ++ ws')
  end.
Definition node_init : node := Standalone (init_sys opts coins range_hnsw).

(** ** The limits *)
(** The request is well formed: no key is empty. *)
Definition keys_given (o : clientOp) : bool :=
  match o with
  | CPut k _ | CDelete k => negb (len k =? 0)
  | CBatch es => forallb (fun e => negb (len (be_Key e) =? 0)) es
  end.
(** What an operation asks of the engine. *)
Definition engine_op (o : nodeOp) : option op :=
  match o with
  | NClient o =>
      if keys_given o then
        Some (match o with CPut k v => OpPut k (proto_bytes v) | CDelete k => OpDelete k | CBatch es => OpBatch (map (fun e => write_op_of (op_of e)) es) end)
      else None
  | NFlush => Some OpFlush
  | NPick => Some OpPick
  | NCompact => Some OpCompact
  | NSnapshot => Some OpSnapshot
  | NRelease sn => Some (OpRelease sn)
  end.
(** Every operation of a run is within the limits of the engine when it comes: its
    keys are among [K], none of which is a proper prefix of another; its values are
    not empty and fit the table format; a compaction does not split the versions of
    a key; and all that was written fits one table.  [h] are the versions written
    so far. *)
Fixpoint within_limits (K : bytes -> bool) (os : list nodeOp) (h : list entry) (s : sys) : bool :=
  match os with
  | [] => true
  | o :: os =>
      match engine_op o with
      | None => within_limits K os h s
      | Some eo =>
          admissible_b s h eo && keys_in K eo && fits_b h &&
          within_limits K os (written s eo ++ h) (default s (write eo s))
      end
  end.

Context (K : bytes -> bool) (Hopts : opts_ok opts) `{!KeyCode K} (Hroom : 0 < MaxImmutableCount opts).
Abbreviation est_ok := (est_ok opts coins range_tables range_hnsw K).

Lemma batchOps_given i es : forallb (fun e => negb (len (be_Key e) =? 0)) es = true -> batchOps i es = Ok (map op_of es).
Proof.
  revert i; induction es as [|e es IH]; intros i; cbn [forallb batchOps map]; [done|]. intros [H1%negb_true_iff H2]%andb_prop.
  by rewrite H1, IH.
Qed.
Lemma batchOps_missing i es : forallb (fun e => negb (len (be_Key e) =? 0)) es = false -> exists e, batchOps i es = Err e.
Proof.
  revert i; induction es as [|e es IH]; intros i; cbn [forallb batchOps]; [done|]. destruct (len (be_Key e) =? 0); [by eexists|].
  intros H. destruct (IH (S i) H) as [er E]. rewrite E. by exists er.
Qed.

(** The writes a request makes if it is acknowledged. *)
Definition granted (o : nodeOp) : list client_write :=
  match o with NClient o => if keys_given o then cops o else [] | _ => [] end.

(** A request without a key is refused; a well-formed one is the write of the engine. *)
Lemma cstep_refused o s : keys_given o = false -> exists e, cstep o (Standalone (C := unit) s) = (Standalone s, Err e).
Proof.
  destruct o as [k v|k|es]; cbn [keys_given cstep]; unfold Put, Delete, BatchWrite.
  - intros ->%negb_false_iff. by eexists.
  - intros ->%negb_false_iff. by eexists.
  - intros H. destruct (batchOps_missing 0 es H) as [e ->]. by exists e.
Qed.
Lemma cstep_written o s eo s' :
  engine_op (NClient o) = Some eo -> write eo s = Some s' -> cstep o (Standalone (C := unit) s) = (Standalone s', Ok tt).
Proof.
  cbn [engine_op]. destruct (keys_given o) eqn:Hk; [|done]. intros [= <-] E. destruct o as [k v|k|es]; cbn [keys_given cstep] in *; unfold Put, Delete, BatchWrite.
  - apply negb_true_iff in Hk as ->. cbn. by rewrite E.
  - apply negb_true_iff in Hk as ->. cbn. by rewrite E.
  - rewrite (batchOps_given 0 es Hk). cbn. rewrite map_map. by rewrite E.
Qed.
Lemma client_writes o eo : engine_op (NClient o) = Some eo -> op_writes eo = map write_op_of (cops o) /\ granted (NClient o) = cops o.
Proof.
  cbn [engine_op granted]. destruct (keys_given o); [|done]. intros [= <-]. split; [|done]. destruct o as [k v|k|es]; cbn; [done..|]. by rewrite map_map.
Qed.

(** One operation within the limits: the engine follows, and its map with it. *)
Lemma nstep_within o eo x :
  est_ok x -> engine_op o = Some eo -> admissible_b (e_sys x) (e_hist x) eo = true -> keys_in K eo = true -> fits_b (e_hist x) = true ->
  exists x', est_ok x' /\ nstep o (Standalone (e_sys x)) = (Standalone (e_sys x'), granted o) /\ write eo (e_sys x) = Some (e_sys x') /\
    e_hist x' = written (e_sys x) eo ++ e_hist x /\ store_run (e_ops x') = commit_all (granted o) (store_run (e_ops x)).
Proof using Hopts Hroom.
  intros Hx Eo Ha Hk Hf.
  assert (op_writes eo = [] -> nstep o (Standalone (e_sys x)) = (background eo (Standalone (e_sys x)), granted o) -> granted o = [] ->
    exists x', est_ok x' /\ nstep o (Standalone (e_sys x)) = (Standalone (e_sys x'), granted o) /\ write eo (e_sys x) = Some (e_sys x') /\
      e_hist x' = written (e_sys x) eo ++ e_hist x /\ store_run (e_ops x') = commit_all (granted o) (store_run (e_ops x))) as Hback.
  { intros Hw En Eg. destruct (background_within _ _ _ _ _ Hopts eo x Hx Hw Ha Hk) as (x' & Hx' & E1 & E2 & E3 & E4).
    exists x'. rewrite En, Eg. unfold background. rewrite E1. cbn. by rewrite E4. }
  destruct o as [o| | | | |sn]; [|injection Eo as <-; by apply Hback..].
  destruct (write_within _ _ _ _ _ Hopts eo x Hx Hroom Ha Hk Hf) as (x' & Hx' & E1 & E2 & E3). destruct (client_writes o eo Eo) as [Hw Hg].
  exists x'. split; [done|]. cbn [nstep]. rewrite (cstep_written o (e_sys x) eo (e_sys x') Eo E1), Hg. split_and!; try done.
  rewrite E3. unfold store_step. rewrite Hw. apply store_commits.
Qed.

Lemma nrun_within os x :
  est_ok x -> within_limits K os (e_hist x) (e_sys x) = true ->
  exists x', est_ok x' /\ nrun os (Standalone (e_sys x)) = (Standalone (e_sys x'), concat (map granted os)) /\
    store_run (e_ops x') = commit_all (concat (map granted os)) (store_run (e_ops x)).
Proof using Hopts Hroom.
  revert x; induction os as [|o os IH]; intros x Hx Hl; [by exists x|]. cbn [within_limits] in Hl. cbn [nrun map concat].
  destruct (engine_op o) as [eo|] eqn:Eo.
  - apply andb_prop in Hl as [[[Ha Hk]%andb_prop Hf]%andb_prop Hl]. destruct (nstep_within o eo x Hx Eo Ha Hk Hf) as (x1 & Hx1 & E1 & E2 & E3 & E4).
    rewrite E2, <-E3 in Hl. cbn [default] in Hl. destruct (IH x1 Hx1 Hl) as (x' & Hx' & E5 & E6). exists x'. split; [done|]. rewrite E1, E5. split; [done|].
    rewrite E6, E4. unfold commit_all. by rewrite fold_left_app.
  - destruct o as [o| | | | |sn]; try done. cbn [engine_op] in Eo. destruct (keys_given o) eqn:Hk; [done|]. destruct (cstep_refused o (e_sys x) Hk) as [e E].
    destruct (IH x Hx Hl) as (x' & Hx' & E5 & E6). exists x'. split; [done|]. cbn [nstep granted]. rewrite E, E5, Hk. done.
Qed.

(** C3: From the client to the disk.  On a standalone node over the storage engine, from
    an empty database, take any run of puts, deletions and batches of clients and of
    flushes, compaction picks, compactions, snapshots and their releases, in any
    order, that keeps within the limits of the engine ([within_limits]).  Exactly the
    requests without an empty key are acknowledged, and at the end [Get] and [Scan]
    answer as the map to which the acknowledged writes were applied, in their order.
    The code does not check the
    limits, and outside them it can lose what it acknowledged: [empty_value_lost]. *)
Theorem node_end_to_end os :
  within_limits K os [] (init_sys opts coins range_hnsw) = true ->
  let m := commit_all (concat (map granted os)) ∅ in
  exists s, nrun os node_init = (Standalone s, concat (map granted os)) /\
    (forall k, K k = true -> (Handlers.Get k (Standalone (C := unit) s)).2 = Ok (match m !! k with Some w => if Tombstone w then None else Some (Data w) | None => None end)) /\
    let streamed := Handlers.Scan (fun _ : unit => s) (Standalone s) in
    StronglySorted key_lt streamed /\ forall k v, (k, v) ∈ streamed <-> exists w, m !! k = Some w /\ iter_value w = Some v.
Proof using Hopts KeyCode0 Hroom.
  intros Hl m. destruct (nrun_within os (est_init opts coins range_hnsw) (est_init_ok opts coins range_tables range_hnsw K) Hl) as (x & Hx & E & Em).
  exists (e_sys x). split; [exact E|]. change (store_run (e_ops (est_init opts coins range_hnsw))) with (∅ : gmap bytes Value) in Em. fold m in Em. split.
  - intros k Hk. assert (k <> []) as Hne by (intros ->; by rewrite kc_nonempty in Hk). unfold Handlers.Get. destruct (Z.eqb_spec (len k) 0); [by destruct k|].
    change (db_Get (e_sys x) k) with (est_get x k). rewrite (est_get_spec opts coins range_tables range_hnsw K Hopts x k Hx Hk), Em.
    by destruct (m !! k) as [w|]; [destruct (Tombstone w)|].
  - destruct (est_scan_spec opts coins range_tables range_hnsw K Hopts x Hx) as [Hs Hin]. rewrite Em in Hin.
    change (Handlers.Scan (fun _ : unit => e_sys x) (Standalone (e_sys x))) with (omap live_pair (est_scan x)). split; [by apply live_sorted|].
    intros k v. rewrite live_in, Hin. naive_solver.
Qed.
End node.

(** ** Examples *)
Definition d_init : Server sys unit := node_init demo_opts demo_coins demo_hnsw.
Definition d_run (os : list nodeOp) := nrun demo_opts demo_coins demo_range demo_hnsw os d_init.
Definition ka : bytes := [Byte.x61].
Definition kb : bytes := [Byte.x62].
(** Every put fills a memtable; the third write has to wait for the flush loop. *)
Definition d_ops : list nodeOp :=
  [NClient (CPut ka [Byte.x31]); NClient (CPut kb [Byte.x32]); NClient (CBatch [mkEntry ka [Byte.x33] false; mkEntry kb [] true]);
   NFlush; NPick; NClient (CPut [] [Byte.x34]); NCompact; NClient (CDelete ka); NClient (CPut ka [Byte.x35])].

Lemma node_end_to_end_witness :
  exists s, d_run d_ops = (Standalone s, [WPut ka (Some [Byte.x31]); WPut kb (Some [Byte.x32]); WPut ka (Some [Byte.x33]); WDelete kb; WDelete ka; WPut ka (Some [Byte.x35])]) /\
    (Handlers.Get (KVStore0 := sys_store demo_opts demo_coins demo_range demo_hnsw) ka (Standalone (C := unit) s)).2 = Ok (Some (Some [Byte.x35])) /\
    (Handlers.Get (KVStore0 := sys_store demo_opts demo_coins demo_range demo_hnsw) kb (Standalone (C := unit) s)).2 = Ok None.
Proof.
  destruct (node_end_to_end demo_opts demo_coins demo_range demo_hnsw K1 demo_opts_ok ltac:(reflexivity) d_ops) as (s & E & HG & _); [vm_compute; reflexivity|].
  exists s. split; [exact E|]. split; [apply (HG ka); reflexivity|apply (HG kb); reflexivity].
Defined.

(** ** A flaw: empty values *)
(** An empty value is lost.  It arrives as nil; the put is acknowledged and
    [Get] finds the key, though [Scan] leaves it out as if it were deleted; when its
    memtable is flushed the nil value becomes a tombstone, and [Get] no longer finds
    the key either. *)
Theorem empty_value_lost :
  let get := Handlers.Get (KVStore0 := sys_store demo_opts demo_coins demo_range demo_hnsw) (C := unit) in
  let '(s1, acked) := d_run [NClient (CPut ka [])] in let s2 := (d_run [NClient (CPut ka []); NFlush]).1 in
  acked = [WPut ka None] /\ (get ka s1).2 = Ok (Some None) /\
  Handlers.Scan (KVStore0 := sys_store demo_opts demo_coins demo_range demo_hnsw) (fun _ : unit => init_sys demo_opts demo_coins demo_hnsw) s1 = [] /\
  (get ka s2).2 = Ok None.
Proof. vm_compute. done. Qed.
