(* ===== verification/Transport.v ===== *)
(** * Messages of the membership protocol on the wire (src/cluster/grpc_transport.go, src/server/internal_handlers.go)

    The transport of a node converts a message to its protobuf form, the handler of
    the other node converts it back and calls the membership of Member.v, and the
    answer takes the same way.  States are Go ints and travel as int32.  Protobuf
    refuses strings that are not UTF-8; that is not modelled, identifiers and
    addresses are taken to be valid.  The theorem: between nodes whose states fit,
    the wire is transparent. *)

From Stdlib Require Import ZArith Lia List.
From stdpp Require Import base list option gmap.
From S2P Require Import Prelude GoBytes HLC Member.
Open Scope Z_scope.

(** ** Messages *)
Record MemberUpdateProto := mkMUP { pNodeId : bytes; pAddr : bytes; pLiveness : Z; pRingState : Z; pIncarnation : Z }.
Record RingMemberProto := mkRMP { pmNodeId : bytes; pmAddr : bytes; pmRingState : Z }.
Record RingDescriptorProto := mkRDP { pVersion : Z; pMembers : list RingMemberProto }.
(** [PingRequest] and [PingResponse]. *)
Record PingProto := mkPP { pSenderId : bytes; pSenderAddr : bytes; pUpdates : list MemberUpdateProto; pRingDescriptor : option RingDescriptorProto }.

Definition memberStatesToProto (states : list MemberState) : list MemberUpdateProto :=
  map (fun s => mkMUP (MNodeID s) (MAddr s) (i32 (Liveness s)) (i32 (MRing s)) (Incarnation s)) states.
Definition protoToMemberStates (protos : list MemberUpdateProto) : list MemberState :=
  map (fun p => mkMember (pNodeId p) (pAddr p) (pLiveness p) (pRingState p) (pIncarnation p)) protos.
Definition ringDescToProto (rd : option RingDescriptor) : option RingDescriptorProto :=
  (fun rd => mkRDP (Version rd) (map (fun rm => mkRMP (RMNodeID rm) (RMAddr rm) (i32 (RMState rm))) (RDMembers rd))) <$> rd.
Definition protoToRingDesc (p : option RingDescriptorProto) : option RingDescriptor :=
  (fun p => mkRD (pVersion p) (map (fun rm => mkRM (pmNodeId rm) (pmAddr rm) (pmRingState rm)) (pMembers p))) <$> p.
Definition pingToProto (msg : PingMessage) : PingProto :=
  mkPP (SenderID msg) (SenderAddr msg) (memberStatesToProto (Updates msg)) (ringDescToProto (RingDesc msg)).
Definition protoToPing (p : PingProto) : PingMessage :=
  mkPing (pSenderId p) (pSenderAddr p) (protoToMemberStates (pUpdates p)) (protoToRingDesc (pRingDescriptor p)).

(** ** What fits *)
Definition i32_ok (z : Z) : Prop := - 2^31 <= z < 2^31.
#[global] Instance i32_ok_dec z : Decision (i32_ok z).
Proof. unfold i32_ok. apply _. Defined.
Definition state_fits (s : MemberState) : Prop := i32_ok (Liveness s) /\ i32_ok (MRing s).
Definition desc_fits (rd : RingDescriptor) : Prop := Forall (fun rm => i32_ok (RMState rm)) (RDMembers rd).
Definition ping_fits (msg : PingMessage) : Prop :=
  Forall state_fits (Updates msg) /\ match RingDesc msg with Some rd => desc_fits rd | None => True end.

Lemma states_roundtrip states : Forall state_fits states -> protoToMemberStates (memberStatesToProto states) = states.
Proof.
  induction 1 as [|s states [H1 H2] _ IH]; [done|]. cbn. f_equal; [|exact IH]. rewrite !i32_small by done. by destruct s.
Qed.
Lemma desc_roundtrip rd : match rd with Some rd => desc_fits rd | None => True end -> protoToRingDesc (ringDescToProto rd) = rd.
Proof.
  destruct rd as [[v ms]|]; [|done]. unfold desc_fits. cbn. intros H. do 2 f_equal. induction H as [|rm ms H _ IH]; [done|]. cbn. f_equal; [|exact IH].
  rewrite i32_small by done. by destruct rm.
Qed.
Lemma ping_roundtrip msg : ping_fits msg -> protoToPing (pingToProto msg) = msg.
Proof. intros [H1 H2]. unfold protoToPing, pingToProto. cbn. rewrite states_roundtrip, desc_roundtrip by done. by destruct msg. Qed.

Section wire.
Context (range_members : gmap bytes MemberState -> list bytes) (sort_broadcasts : list broadcast -> list broadcast).

(** ** internal_handlers.go: the handlers *)
Definition srv_Ping (now : Z) (req : PingProto) (m : Membership) : Membership * PingProto * effects :=
  let '(m, resp, eff) := HandlePing range_members sort_broadcasts now (protoToPing req) m in (m, pingToProto resp, eff).
(** [answer] is what the target of the indirect ping said. *)
Definition srv_PingReq (now : Z) (answer : option PingMessage) (m : Membership) : Membership * bool * effects :=
  HandlePingReq sort_broadcasts now answer m.
Definition srv_GossipSync (now : Z) (req : list MemberUpdateProto * option RingDescriptorProto) (m : Membership)
  : Membership * (list MemberUpdateProto * option RingDescriptorProto) * effects :=
  let '(m, (local, localRD), eff) := HandleGossipSync range_members sort_broadcasts now (protoToMemberStates req.1) (protoToRingDesc req.2) m in
  (m, (memberStatesToProto local, ringDescToProto (Some localRD)), eff).

(** ** grpc_transport.go: calls that are delivered *)
Definition tr_Ping (now : Z) (msg : PingMessage) (m : Membership) : Membership * PingMessage * effects :=
  let '(m, resp, eff) := srv_Ping now (pingToProto msg) m in (m, protoToPing resp, eff).
Definition tr_GossipSync (now : Z) (members : list MemberState) (rd : option RingDescriptor) (m : Membership)
  : Membership * (list MemberState * option RingDescriptor) * effects :=
  let '(m, resp, eff) := srv_GossipSync now (memberStatesToProto members, ringDescToProto rd) m in
  (m, (protoToMemberStates resp.1, protoToRingDesc resp.2), eff).

(** ** The states of a node stay within the wire's *)
Context (sort_perm : forall l, sort_broadcasts l ≡ₚ l).
Record mem_fits (m : Membership) : Prop := {
  mf_members : map_Forall (fun _ s => state_fits s) (members m);
  mf_broadcasts : Forall (fun b => state_fits (bstate b)) (broadcasts m);
  mf_desc : desc_fits (ringDesc m)
}.

Lemma queue_fits s m : mem_fits m -> state_fits s -> mem_fits (queueBroadcastLocked sort_broadcasts s m).
Proof using sort_perm.
  intros [H1 H2 H3] Hs. split; [done| |done]. unfold queueBroadcastLocked. cbn.
  assert (Forall (fun b => state_fits (bstate b)) (broadcasts m ++ [mkBroadcast s (retransmitLimit m)])) as H by (apply Forall_app; split; [done|by constructor]).
  destruct (_ <? _); [|done]. apply Forall_take. by rewrite sort_perm.
Qed.
Lemma insert_fits id s m : mem_fits m -> state_fits s -> mem_fits (set_members (<[id := s]> (members m)) m).
Proof. intros [H1 H2 H3] Hs. split; [|done..]. cbn. by apply map_Forall_insert_2. Qed.
Lemma member_fits m id s : mem_fits m -> members m !! id = Some s -> state_fits s.
Proof. intros [H _ _] E. exact (H _ _ E). Qed.
Lemma liveness_small : i32_ok Alive /\ i32_ok Suspect /\ i32_ok Dead /\ i32_ok RingNone.
Proof. unfold i32_ok, Alive, Suspect, Dead, RingNone. lia. Qed.

(** Updates of the other fields. *)
Lemma fits_ext m m' : members m' = members m -> broadcasts m' = broadcasts m -> ringDesc m' = ringDesc m -> mem_fits m -> mem_fits m'.
Proof. intros E1 E2 E3 [H1 H2 H3]. split; [by rewrite E1|by rewrite E2|by rewrite E3]. Qed.

Lemma setLiveness_fits now id to m : mem_fits m -> i32_ok to -> mem_fits (setLivenessLocked sort_broadcasts now id to m).1.
Proof using sort_perm.
  intros Hm Ht. unfold setLivenessLocked. destruct (members m !! id) as [s|] eqn:E; [|done]. destruct (_ =? to); [done|]. cbn [fst].
  destruct (member_fits _ _ _ Hm E) as [_ Hr]. apply queue_fits; [|by split].
  eapply fits_ext; [..|apply (insert_fits id (set_liveness to s) m Hm); by split]; destruct (_ =? Suspect); reflexivity.
Qed.

Lemma ring_state_fits rms id : Forall (fun rm => i32_ok (RMState rm)) rms -> i32_ok (ring_state_in rms id).
Proof. induction 1 as [|rm rms H _ IH]; cbn; [apply liveness_small|]. by destruct (bytes_Equal _ _). Qed.

Lemma merge_fits now u m : mem_fits m -> state_fits u -> mem_fits (mergeLocked sort_broadcasts now u m).1.
Proof using sort_perm.
  intros Hm [Hl Hr]. unfold mergeLocked. destruct (members m !! MNodeID u) as [s|] eqn:E.
  - destruct (member_fits _ _ _ Hm E) as [Hsl Hsr]. destruct (_ && _).
    + destruct (_ <=? _); [|done]. cbn. apply queue_fits; [apply insert_fits; [done|]|]; (split; [apply liveness_small|done]).
    + destruct (_ <? _).
      * assert (mem_fits (bump_gen (set_members (<[MNodeID u := set_liveness (Liveness s) (set_ring (MRing s) u)]> (members m)) m))) as H.
        { eapply fits_ext; [..|apply (insert_fits (MNodeID u)); [exact Hm|]]; [done..|by split]. }
        destruct (negb _); [by apply setLiveness_fits|]. cbn. apply queue_fits; [exact H|by split].
      * destruct (_ && _); [by apply setLiveness_fits|done].
  - cbn. assert (state_fits (set_ring (ringStateFromDescriptor m (MNodeID u)) u)) as Hs by (split; [done|apply ring_state_fits, (mf_desc m Hm)]).
    destruct (_ =? Dead); (eapply fits_ext; [..|apply (insert_fits (MNodeID u)); [exact Hm|exact Hs]]; done).
Qed.
Lemma mergeAll_fits now us m : mem_fits m -> Forall state_fits us -> mem_fits (mergeAll sort_broadcasts now us m).1.
Proof using sort_perm.
  intros Hm Hus. revert m Hm; induction Hus as [|u us Hu Hus IH]; intros m Hm; [done|]. cbn [mergeAll].
  pose proof (merge_fits now u m Hm Hu) as H. destruct (mergeLocked _ now u m) as [m1 ev]. cbn [fst] in H. specialize (IH m1 H). by destruct (mergeAll _ now us m1).
Qed.

Lemma ringMap_fits rms : Forall (fun rm => i32_ok (RMState rm)) rms -> map_Forall (fun _ st => i32_ok st) (ringMap rms).
Proof.
  intros H. unfold ringMap. assert (map_Forall (fun (_ : bytes) st => i32_ok st) (∅ : gmap bytes RingState)) as H0 by apply map_Forall_empty.
  revert H0. generalize (∅ : gmap bytes RingState) as r. induction H as [|rm rms Hr _ IH]; intros r H0; [done|]. cbn [fold_left]. by apply IH, map_Forall_insert_2.
Qed.
Lemma applyOne_fits rms m id : map_Forall (fun _ st => i32_ok st) rms -> mem_fits m -> mem_fits (applyRingOne sort_broadcasts rms m id).
Proof using sort_perm.
  intros Hr Hm. unfold applyRingOne. destruct (members m !! id) as [s|] eqn:E; [|done]. destruct (negb _); [|done].
  assert (state_fits (set_ring (default RingNone (rms !! id)) s)) as Hs.
  { split; [apply (member_fits _ _ _ Hm E)|]. cbn. destruct (rms !! id) as [st|] eqn:Es; [exact (Hr _ _ Es)|apply liveness_small]. }
  apply queue_fits; [by apply insert_fits|done].
Qed.
Lemma applyNewer_fits rd m : mem_fits m -> match rd with Some rd => desc_fits rd | None => True end -> mem_fits (applyNewer range_members sort_broadcasts rd m).1.
Proof using sort_perm.
  intros Hm Hd. unfold applyNewer. destruct rd as [rd|]; [|done]. destruct (_ <? _); [|done]. cbn [fst]. unfold applyRingDescLocked.
  assert (mem_fits (fold_left (applyRingOne sort_broadcasts (ringMap (RDMembers rd))) (range_members (members m)) m)) as [H1 H2 _]; [|by split].
  pose proof (ringMap_fits _ Hd) as Hr. generalize (range_members (members m)) as ids. intros ids. revert m Hm. induction ids as [|id ids IH]; intros m Hm; [done|]. cbn. by apply IH, applyOne_fits.
Qed.

Lemma piggyback_fits limit n bs : Forall (fun b => state_fits (bstate b)) bs ->
  Forall state_fits (piggyback limit n bs).1 /\ Forall (fun b => state_fits (bstate b)) (piggyback limit n bs).2.
Proof.
  intros H. revert n; induction H as [|b bs Hb _ IH]; intros n; [by split|]. cbn [piggyback]. specialize (IH (if n <? limit then n + 1 else n)).
  destruct (piggyback limit _ bs) as [res alive]. cbn [fst snd] in IH |- *. destruct IH as [I1 I2].
  destruct (n <? limit); (split; [by try constructor|destruct (_ <? _); by try constructor]).
Qed.
Lemma getBroadcasts_fits limit m : mem_fits m ->
  mem_fits (getBroadcastsLocked sort_broadcasts limit m).1 /\ Forall state_fits (getBroadcastsLocked sort_broadcasts limit m).2.
Proof using sort_perm.
  intros Hm. unfold getBroadcastsLocked. destruct (broadcasts m) as [|b bs] eqn:E; [by split; [|constructor]|]. rewrite <-E.
  destruct (piggyback_fits limit 0 (sort_broadcasts (broadcasts m))) as [H1 H2]; [rewrite sort_perm; apply (mf_broadcasts m Hm)|].
  destruct (piggyback _ _ _) as [res alive]. cbn in *. split; [|done]. destruct Hm as [M1 _ M3]. by split.
Qed.

Lemma HandlePing_fits now msg m : mem_fits m -> ping_fits msg ->
  mem_fits (HandlePing range_members sort_broadcasts now msg m).1.1 /\ ping_fits (HandlePing range_members sort_broadcasts now msg m).1.2.
Proof using sort_perm.
  intros Hm [Hu Hd]. unfold HandlePing. pose proof (mergeAll_fits now _ m Hm Hu) as H1. destruct (mergeAll _ now (Updates msg) m) as [m1 evs]. cbn [fst] in H1.
  pose proof (applyNewer_fits (RingDesc msg) m1 H1 Hd) as H2. destruct (applyNewer _ _ (RingDesc msg) m1) as [m2 cb]. cbn [fst] in H2.
  destruct (getBroadcasts_fits (maxPiggyback m2) m2 H2) as [H3 H4]. destruct (getBroadcastsLocked _ (maxPiggyback m2) m2) as [m3 us]. cbn in *.
  split; [done|]. split; [done|apply (mf_desc m3 H3)].
Qed.
Lemma HandleGossip_fits now remote rd m : mem_fits m -> Forall state_fits remote -> match rd with Some rd => desc_fits rd | None => True end ->
  let r := HandleGossipSync range_members sort_broadcasts now remote rd m in mem_fits r.1.1 /\ Forall state_fits r.1.2.1 /\ desc_fits r.1.2.2.
Proof using sort_perm.
  intros Hm Hu Hd r. subst r. unfold HandleGossipSync. pose proof (mergeAll_fits now _ m Hm Hu) as H1. destruct (mergeAll _ now remote m) as [m1 evs]. cbn [fst] in H1.
  pose proof (applyNewer_fits rd m1 H1 Hd) as H2. destruct (applyNewer _ _ rd m1) as [m2 cb]. cbn in *. split; [done|]. split; [|apply (mf_desc m2 H2)].
  apply Forall_forall. intros s (id & _ & E)%list_elem_of_omap. by apply (member_fits m2 id).
Qed.

(** C38: The wire is transparent.  When the states of a node and of the message it
    receives fit in 32 bits, a ping or a full exchange through the transport and the
    handler changes the node, fires the callbacks and answers as a direct call of
    the membership does; and the states of the node and of the answer fit again, so
    that this holds of all messages that follow. *)
Theorem swim_over_wire now msg m :
  mem_fits m -> ping_fits msg ->
  (tr_Ping now msg m = HandlePing range_members sort_broadcasts now msg m /\ mem_fits (tr_Ping now msg m).1.1 /\ ping_fits (tr_Ping now msg m).1.2) /\
  forall members, Forall state_fits members ->
    tr_GossipSync now members (RingDesc msg) m =
      (let '(m', (local, rd), eff) := HandleGossipSync range_members sort_broadcasts now members (RingDesc msg) m in (m', (local, Some rd), eff)) /\
    mem_fits (tr_GossipSync now members (RingDesc msg) m).1.1.
Proof using sort_perm.
  intros Hm Hp. split.
  - unfold tr_Ping, srv_Ping. rewrite ping_roundtrip by done. destruct (HandlePing_fits now msg m Hm Hp) as [H1 H2].
    destruct (HandlePing _ _ now msg m) as [[m' resp] eff]. cbn [fst snd] in *. by rewrite ping_roundtrip.
  - intros ms Hms. unfold tr_GossipSync, srv_GossipSync. cbn [fst snd]. rewrite states_roundtrip, desc_roundtrip by (done || apply Hp).
    destruct (HandleGossip_fits now ms (RingDesc msg) m Hm Hms (proj2 Hp)) as (H1 & H2 & H3).
    destruct (HandleGossipSync _ _ now ms (RingDesc msg) m) as [[m' [local rd]] eff]. cbn [fst snd] in *. by rewrite states_roundtrip, desc_roundtrip.
Qed.
End wire.

(** A node that hears of another one. *)
Definition t_node : Membership := NewMembership (DefaultClusterConfig [Byte.x61] [Byte.x31]).
Definition t_ping : PingMessage :=
  mkPing [Byte.x62] [Byte.x32] [mkMember [Byte.x62] [Byte.x32] Alive RingNone 1; mkMember [Byte.x61] [Byte.x31] Suspect RingNone 1] (Some (mkRD 1 [mkRM [Byte.x62] [Byte.x32] RingActive])).
Definition t_keys (m : gmap bytes MemberState) : list bytes := map fst (map_to_list m).
Lemma swim_over_wire_witness :
  tr_Ping t_keys (fun l => l) 5 t_ping t_node = HandlePing t_keys (fun l => l) 5 t_ping t_node /\
  (fun s => Incarnation s) <$> members (tr_Ping t_keys (fun l => l) 5 t_ping t_node).1.1 !! [Byte.x61] = Some 2.
Proof.
  split; [|vm_compute; reflexivity].
  apply (swim_over_wire t_keys (fun l => l) (fun l => Permutation_refl l) 5 t_ping t_node).
  - split; [intros id s; cbn; intros [_ <-]%lookup_singleton_Some; split; split; vm_compute; (discriminate || reflexivity)|constructor|constructor].
  - apply (bool_decide_unpack (Forall _ _ /\ _)). vm_compute. exact I.
Defined.
