(* ===== verification/PeerPool.v ===== *)
(** * The pool of connections to other nodes (src/cluster/peerconn.go)

    One cached connection per address, closed when it was not used for
    [IdleTimeout], and all of them when the pool is closed.  Connections are
    numbers in the order they are dialled, and [live] are those that are open;
    each critical section is one step, and whether [grpc.NewClient] succeeds is
    data.  The theorem: the pool leaks no connection, under any interleaving of
    requests, evictions and [Close]. *)

From Stdlib Require Import ZArith Lia List.
From stdpp Require Import base list option gmap relations.
From S2P Require Import Prelude GoBytes.
Open Scope Z_scope.

Inductive PoolErr := ErrPoolClosed | ErrDial.

Record PeerPoolConfig := mkPPC { IdleTimeout : Z }.
Definition DefaultPeerPoolConfig : PeerPoolConfig := mkPPC (300 * 1000000000).

Record peerEntry := mkEntry { conn : nat; lastUsed : Z }.
(** [dialled] is the number of connections made so far. *)
Record PeerPool := mkPool { peers : gmap bytes peerEntry; closed : bool; live : gset nat; dialled : nat }.
Definition NewPeerPool : PeerPool := mkPool ∅ false ∅ 0.

Definition GetClient (now : Z) (dials : bool) (addr : bytes) (p : PeerPool) : PeerPool * outcome PoolErr nat :=
  if closed p then (p, Err ErrPoolClosed) else
  match peers p !! addr with
  | Some e => (mkPool (<[addr := mkEntry (conn e) now]> (peers p)) (closed p) (live p) (dialled p), Ok (conn e))
  | None =>
      if dials then
        (mkPool (<[addr := mkEntry (dialled p) now]> (peers p)) (closed p) (live p ∪ {[dialled p]}) (S (dialled p)), Ok (dialled p))
      else (p, Err ErrDial)
  end.

(** The connections of a set of entries. *)
Definition conns (m : gmap bytes peerEntry) : gset nat := list_to_set (map (fun ae => conn ae.2) (map_to_list m)).
Definition evictIdle (cfg : PeerPoolConfig) (now : Z) (p : PeerPool) : PeerPool :=
  let cutoff := now - IdleTimeout cfg in
  let idle := filter (fun ae : bytes * peerEntry => lastUsed ae.2 < cutoff) (peers p) in
  mkPool (filter (fun ae : bytes * peerEntry => ~ lastUsed ae.2 < cutoff) (peers p)) (closed p) (live p ∖ conns idle) (dialled p).
(** The two critical sections of [Close]; the first one of a closed pool returns at once. *)
Definition closeBegin (p : PeerPool) : PeerPool := mkPool (peers p) true (live p) (dialled p).
Definition closeEnd (p : PeerPool) : PeerPool := mkPool ∅ (closed p) (live p ∖ conns (peers p)) (dialled p).

(** ** The calls in any order *)
(** Where [Close] is: not called, waiting for the cleanup goroutine, done. *)
Inductive closing := Open | Waiting | Done.
Inductive pstep (cfg : PeerPoolConfig) : PeerPool * closing -> PeerPool * closing -> Prop :=
| p_get p c now dials addr : pstep cfg (p, c) ((GetClient now dials addr p).1, c)
| p_evict p c now : c <> Done -> 0 < IdleTimeout cfg -> pstep cfg (p, c) (evictIdle cfg now p, c)
| p_close p : pstep cfg (p, Open) (closeBegin p, Waiting)
| p_end p : pstep cfg (p, Waiting) (closeEnd p, Done).

Record pool_inv (s : PeerPool * closing) : Prop := {
  pi_live : live s.1 = conns (peers s.1);
  pi_inj a b ea eb : peers s.1 !! a = Some ea -> peers s.1 !! b = Some eb -> conn ea = conn eb -> a = b;
  pi_fresh a e : peers s.1 !! a = Some e -> (conn e < dialled s.1)%nat;
  pi_closed : closed s.1 = true <-> s.2 <> Open;
  pi_done : s.2 = Done -> peers s.1 = ∅
}.

Lemma elem_of_conns m n : n ∈ conns m <-> exists a e, m !! a = Some e /\ conn e = n.
Proof.
  unfold conns. rewrite elem_of_list_to_set, list_elem_of_fmap. split.
  - intros ([a e] & -> & H%elem_of_map_to_list). eauto.
  - intros (a & e & H & <-). exists (a, e). split; [done|]. by apply elem_of_map_to_list.
Qed.

Lemma get_inv now dials addr p c : pool_inv (p, c) -> pool_inv ((GetClient now dials addr p).1, c).
Proof.
  intros H. pose proof H as [H1 H2 H3 H4 H5]. unfold GetClient. destruct (closed p) eqn:Ec; [done|]. cbn in H1, H2, H3, H4, H5. assert (c <> Done) as Hc by (intros ->; assert (closed p = true) by (by apply H4); congruence).
  destruct (peers p !! addr) as [e|] eqn:E; [|destruct dials; [|done]]; (split; cbn; [| | |by rewrite <-Ec|done]).
  - rewrite H1. apply set_eq. intros n. rewrite !elem_of_conns. split.
    + intros (a & x & Ha & <-). destruct (decide (a = addr)) as [->|Hne]; [exists addr, (mkEntry (conn x) now); rewrite lookup_insert_eq; by replace e with x by congruence|exists a, x; by rewrite lookup_insert_ne].
    + intros (a & x & [[-> <-]|[Hne Ha]]%lookup_insert_Some & <-); [by exists a, e|by exists a, x].
  - intros a b ea eb [[<- <-]|[Ha Ea]]%lookup_insert_Some [[<- <-]|[Hb Eb]]%lookup_insert_Some; cbn; intros Hn; [done|..]; eapply H2; eauto.
  - intros a x [[<- <-]|[Ha Ea]]%lookup_insert_Some; [cbn; by apply (H3 addr)|by eapply H3].
  - rewrite H1. apply set_eq. intros n. rewrite elem_of_union, elem_of_singleton, !elem_of_conns. split.
    + intros [(a & x & Ha & <-)| ->]; [exists a, x; rewrite lookup_insert_ne; [done|by intros <-; congruence]|exists addr, (mkEntry (dialled p) now); by rewrite lookup_insert_eq].
    + intros (a & x & [[-> <-]|[Hne Ha]]%lookup_insert_Some & <-); [by right|left; eauto].
  - intros a b ea eb [[<- <-]|[Ha Ea]]%lookup_insert_Some [[<- <-]|[Hb Eb]]%lookup_insert_Some; cbn; intros Hn; [done|..|by eapply H2].
    + apply H3 in Eb. cbn in Eb. lia.
    + apply H3 in Ea. cbn in Ea. lia.
  - intros a x [[<- <-]|[Ha Ea]]%lookup_insert_Some; cbn; [lia|]. apply H3 in Ea. lia.
Qed.

Lemma evict_inv cfg now p c : pool_inv (p, c) -> pool_inv (evictIdle cfg now p, c).
Proof.
  intros [H1 H2 H3 H4 H5]. unfold evictIdle. split; cbn in *; [| | |done|].
  - rewrite H1. apply set_eq. intros n. rewrite elem_of_difference, !elem_of_conns. split.
    + intros [(a & e & Ha & <-) Hn]. exists a, e. split; [|done]. apply map_lookup_filter_Some. split; [done|]. intros Hl. apply Hn. exists a, e. split; [|done]. by apply map_lookup_filter_Some.
    + intros (a & e & [Ha Hl]%map_lookup_filter_Some & <-). split; [eauto|]. intros (b & x & [Hb Hx]%map_lookup_filter_Some & En). assert (b = a) as -> by by eapply H2. replace x with e in Hx by congruence. done.
  - intros a b ea eb [Ha _]%map_lookup_filter_Some [Hb _]%map_lookup_filter_Some. by apply H2.
  - intros a e [Ha _]%map_lookup_filter_Some. by eapply H3.
  - intros Hc. rewrite H5 by done. apply map_filter_empty.
Qed.

Lemma pstep_inv cfg s s' : pool_inv s -> pstep cfg s s' -> pool_inv s'.
Proof.
  intros H Hs. destruct Hs as [p c now dials addr|p c now _ _|p|p].
  - by apply get_inv.
  - by apply evict_inv.
  - destruct H as [H1 H2 H3 H4 H5]. split; cbn in *; [done..|by split|done].
  - destruct H as [H1 H2 H3 H4 H5]. split; cbn in *; [|by intros ????; rewrite lookup_empty|by intros ??; rewrite lookup_empty| |done].
    + rewrite H1. apply set_eq. set_solver.
    + rewrite H4. done.
Qed.
Lemma pool_inv_start : pool_inv (NewPeerPool, Open).
Proof. split; cbn; [done|by intros ????; rewrite lookup_empty|by intros ??; rewrite lookup_empty|done|done]. Qed.

(** C30: The pool leaks no connection.  Over any interleaving of requests, evictions and
    a [Close]: the open connections are exactly those of the pool, one for each of
    its addresses; a request either fails, on a closed pool or a failed dial, or is
    given an open connection, the one of its address; an eviction closes exactly
    the connections idle for longer than the timeout; and after [Close] no
    connection is open or is ever opened again. *)
Theorem pool_no_leak cfg s :
  rtc (pstep cfg) (NewPeerPool, Open) s ->
  live s.1 = conns (peers s.1) /\
  (forall a b ea eb, peers s.1 !! a = Some ea -> peers s.1 !! b = Some eb -> conn ea = conn eb -> a = b) /\
  (forall now dials addr, match GetClient now dials addr s.1 with
    | (p, Ok n) => n ∈ live p /\ exists e, peers p !! addr = Some e /\ conn e = n /\ lastUsed e = now
    | (p, Err _) => p = s.1 /\ (closed s.1 = true \/ dials = false)
    | _ => False
    end) /\
  (forall now a e, peers s.1 !! a = Some e -> conn e ∈ live (evictIdle cfg now s.1) <-> now - IdleTimeout cfg <= lastUsed e) /\
  (s.2 = Done -> live s.1 = ∅ /\ forall s', rtc (pstep cfg) s s' -> live s'.1 = ∅).
Proof.
  intros Hr. assert (pool_inv s) as Hi.
  { revert Hr. generalize pool_inv_start. generalize (NewPeerPool, Open) as s0. intros s0 H0 Hr. induction Hr as [|a b c Hab _ IH]; [done|]. by eapply IH, pstep_inv. }
  assert (forall s, pool_inv s -> s.2 = Done -> live s.1 = ∅) as Hd.
  { intros s1 [L1 _ _ _ L5] E. rewrite L1, (L5 E). apply set_eq. intros n. rewrite elem_of_conns. split; [intros (? & ? & Hx & _); by rewrite lookup_empty in Hx|set_solver]. }
  pose proof Hi as [H1 H2 H3 H4 H5]. destruct s as [p c]. cbn [fst snd] in *. split; [done|]. split; [done|]. split; [|split].
  - intros now dials addr. pose proof (get_inv now dials addr p c Hi) as [G1 _ _ _ _]. unfold GetClient in *. destruct (closed p); [auto|]. destruct (peers p !! addr) as [e|] eqn:E; [|destruct dials; [|auto]].
    + cbn in *. split; [|exists (mkEntry (conn e) now); by rewrite lookup_insert_eq]. rewrite H1. apply elem_of_conns. eauto.
    + cbn in *. split; [set_solver|]. exists (mkEntry (dialled p) now). by rewrite lookup_insert_eq.
  - intros now a e Ha. pose proof (evict_inv cfg now p c Hi) as [G1 _ _ _ _]. cbn [fst] in G1. rewrite G1, elem_of_conns. cbn. split.
    + intros (b & x & [Hb Hx]%map_lookup_filter_Some & En). assert (b = a) as -> by by eapply H2. replace x with e in Hx by congruence. cbn in Hx. lia.
    + intros Hl. exists a, e. split; [|done]. apply map_lookup_filter_Some. split; [done|]. cbn. lia.
  - intros ->. split; [by apply (Hd (p, Done))|]. intros s' Hs'. assert (pool_inv s' /\ s'.2 = Done) as [Hi' E']; [|by apply Hd].
    assert ((p, Done).2 = Done) as E by done. revert Hi E. clear -Hs'. induction Hs' as [|a b c' Hab _ IH]; [done|]. intros Hi E. apply IH; [by eapply pstep_inv|]. destruct Hab; cbn in *; congruence.
Qed.

Lemma pool_no_leak_witness :
  exists s, rtc (pstep DefaultPeerPoolConfig) (NewPeerPool, Open) s /\ elements (live s.1) = [1%nat] /\ live s.1 = conns (peers s.1).
Proof.
  pose (a := [Byte.x61] : bytes). pose (b := [Byte.x62] : bytes).
  assert (exists s, rtc (pstep DefaultPeerPoolConfig) (NewPeerPool, Open) s /\ elements (live s.1) = [1%nat]) as (s & Hr & E).
  { eexists. split.
    - eapply rtc_l; [apply (p_get _ _ _ 0 true a)|]. eapply rtc_l; [apply (p_get _ _ _ 200000000000 true b)|].
      eapply rtc_l; [apply (p_evict _ _ _ 400000000000); [done|reflexivity]|]. apply rtc_refl.
    - vm_compute. reflexivity. }
  exists s. split; [exact Hr|]. split; [exact E|]. apply (pool_no_leak DefaultPeerPoolConfig s Hr).
Defined.
