(* ===== verification/Node.v ===== *)
(** * A node: defaults and wiring (src/node/node.go)

    What the node adds to its components: the defaults of its configuration, the
    adapters by which one component uses another, and the callbacks that connect
    them.  [OnRingChange] rebuilds the hash ring from the descriptor of the
    membership; it runs after the membership has released its mutex, so that the
    callbacks of several messages can be pending at once.  The theorems: the
    defaults fill what is missing and nothing else; the ring follows the descriptor
    when callbacks run in order; and two flaws. *)

From Stdlib Require Import ZArith Lia List.
From stdpp Require Import base list option gmap relations.
From S2P Require Import Prelude GoBytes KV Entries HLC Envelope KVStore HashRing Member MemberProof Replica HintStore Coordinator Drain VecCodec VectorStore VectorServer Manager.
Open Scope Z_scope.

(** ** Defaults *)
(** The numbers of [cluster.ClusterConfig]; durations in nanoseconds. *)
Record swimConfig := mkSwim {
  GossipInterval : Z; PingTimeout : Z; SuspectTimeout : Z; sIndirectPeers : Z; sRetransmitMult : Z; sMaxPiggyback : Z; sMaxBroadcasts : Z; sReapTimeout : Z }.
Definition DefaultSwim : swimConfig :=
  let d := DefaultClusterConfig [] [] in
  mkSwim 1000000000 500000000 5000000000 (IndirectPeers d) (RetransmitMult d) (MaxPiggyback d) (MaxBroadcasts d) (DeadNodeReapTimeout d).
Record Config := mkConfig {
  DataDir : bytes; HintDir : bytes; c_Cluster : swimConfig; c_Coord : CoordinatorConfig; PerReplicaTimeout : Z; c_AntiEntropy : ManagerConfig }.
Definition DefaultPerReplicaTimeout : Z := 5 * 1000000000.

(** [if v == 0 { v = d }] *)
Definition fill (v d : Z) : Z := if v =? 0 then d else v.
(** [join] is [filepath.Join]. *)
Definition defaults (join : bytes -> bytes -> bytes) (hints : bytes) (c : Config) : Config :=
  let s := c_Cluster c in let q := c_Coord c in let a := c_AntiEntropy c in
  let ds := DefaultSwim in let dq := DefaultCoordinatorConfig in let da := DefaultAntiEntropyConfig in
  mkConfig (DataDir c) (if bytes_Equal (HintDir c) [] then join (DataDir c) hints else HintDir c)
    (mkSwim (fill (GossipInterval s) (GossipInterval ds)) (fill (PingTimeout s) (PingTimeout ds)) (fill (SuspectTimeout s) (SuspectTimeout ds))
       (fill (sIndirectPeers s) (sIndirectPeers ds)) (fill (sRetransmitMult s) (sRetransmitMult ds)) (fill (sMaxPiggyback s) (sMaxPiggyback ds))
       (fill (sMaxBroadcasts s) (sMaxBroadcasts ds)) (fill (sReapTimeout s) (sReapTimeout ds)))
    (mkCoord (fill (ReplicationFactor q) (ReplicationFactor dq)) (fill (WriteQuorum q) (WriteQuorum dq)) (fill (ReadQuorum q) (ReadQuorum dq)))
    (fill (PerReplicaTimeout c) DefaultPerReplicaTimeout)
    (mkMC (ae_Enabled a) (fill (ae_Interval a) (ae_Interval da)) (fill (ae_Depth a) (ae_Depth da)) (fill (ae_Fanout a) (ae_Fanout da))
       (fill (ae_GracePeriod a) (ae_GracePeriod da)) (fill (ae_MaxConcurrent a) (ae_MaxConcurrent da)) (fill (ae_MaxRepairPerRound a) (ae_MaxRepairPerRound da))
       (fill (ae_ScanKeysPerTick a) (ae_ScanKeysPerTick da))).

(** The numbers of a configuration. *)
Definition numbers (c : Config) : list Z :=
  let s := c_Cluster c in let q := c_Coord c in let a := c_AntiEntropy c in
  [GossipInterval s; PingTimeout s; SuspectTimeout s; sIndirectPeers s; sRetransmitMult s; sMaxPiggyback s; sMaxBroadcasts s; sReapTimeout s;
   ReplicationFactor q; WriteQuorum q; ReadQuorum q; PerReplicaTimeout c;
   ae_Interval a; ae_Depth a; ae_Fanout a; ae_GracePeriod a; ae_MaxConcurrent a; ae_MaxRepairPerRound a; ae_ScanKeysPerTick a].
Definition no_config : Config := mkConfig [] [] (mkSwim 0 0 0 0 0 0 0 0) (mkCoord 0 0 0) 0 (mkMC false 0 0 0 0 0 0 0).

Lemma fill_nonzero v d : d <> 0 -> fill v d <> 0.
Proof. unfold fill. destruct (Z.eqb_spec v 0); lia. Qed.
Lemma fill_keep v d : v <> 0 -> fill v d = v.
Proof. unfold fill. destruct (Z.eqb_spec v 0); lia. Qed.
Lemma fill_twice v d : fill (fill v d) d = fill v d.
Proof. unfold fill. destruct (Z.eqb_spec v 0); [by destruct (d =? 0)|]. by rewrite (proj2 (Z.eqb_neq _ _)). Qed.

(** The defaults fill what is missing.  No number is zero afterwards; a number that
    was given is kept; the rest is that of the default configuration; and filling
    again changes nothing. *)
Lemma defaults_fill join hints c :
  Forall (fun z => z <> 0) (numbers (defaults join hints c)) /\
  Forall2 (fun z z' => z <> 0 -> z' = z) (numbers c) (numbers (defaults join hints c)) /\
  numbers (defaults join hints no_config) = [1000000000; 500000000; 5000000000; 3; 4; 10; 128; 86400000000000; 3; 2; 2; 5000000000; 600000000000; 4; 16; 30000000000; 2; 10000; 1000] /\
  numbers (defaults join hints (defaults join hints c)) = numbers (defaults join hints c).
Proof.
  split; [|split; [|split]].
  - unfold numbers, defaults. cbn -[fill]. repeat apply Forall_cons_2; try (apply fill_nonzero; done). apply Forall_nil_2.
  - unfold numbers, defaults. cbn -[fill]. repeat apply Forall2_cons_2; try apply fill_keep. apply Forall2_nil_2.
  - reflexivity.
  - unfold numbers, defaults. cbn -[fill]. by rewrite !fill_twice.
Qed.

(** A flaw: fields are filled one by one.  A configuration that gives only a
    replication factor gets the quorums of the default one: with five replicas a
    read quorum need not meet a write quorum, and with one replica no write can ever
    reach its quorum. *)
Lemma defaults_quorums_misfit join hints :
  let q n := c_Coord (defaults join hints (mkConfig [] [] (mkSwim 0 0 0 0 0 0 0 0) (mkCoord n 0 0) 0 (mkMC false 0 0 0 0 0 0 0))) in
  ReadQuorum (q 5) + WriteQuorum (q 5) <= ReplicationFactor (q 5) /\ ReplicationFactor (q 1) < WriteQuorum (q 1).
Proof. cbn. lia. Qed.

(** ** Adapters *)
Section adapters.
Context (range_members : gmap bytes MemberState -> list bytes).
(** [GetMemberInfos] and [Members] of the two membership adapters. *)
Definition memberInfos (m : Membership) : list (bytes * bytes) := map (fun ms => (MNodeID ms, MAddr ms)) (GetMembers range_members m).
Definition RingVersion (m : Membership) : Z := Version (GetRingDescriptor m).
Definition envelopeDecoder (b : bytes) : outcome EnvErr (Timestamp * bool * option bytes) :=
  match DecodeEnvelope b with Ok env => Ok (ETs env, EDeleted env, EVal env) | Err e => Err e | Panic => Panic end.
End adapters.

(** The callbacks the drainer replays vector hints with: the state is the node the
    target is; [call] is the fate of the RPC. *)
Section replay.
Context {S : Type} `{!KVStore S} {D : Type}.
Context (dlt : D -> D -> bool) (dist : Z -> list Z -> list Z -> D) (sort : list (HNSW.heapItem D) -> list (HNSW.heapItem D)) (level_of : Z -> nat).
Context (unmarshalWrite : bytes -> option ReplicateVectorWriteRequest) (unmarshalDelete : bytes -> option ReplicateVectorDeleteRequest).
Definition vectorWriteReplay (call : fate) (payload : bytes) (s : vserver S) : vserver S * bool :=
  match unmarshalWrite payload, call with
  | None, _ | _, Lost => (s, false)
  | Some req, ReplyLost pt => ((ReplicateVectorWrite dlt dist sort level_of pt req s).1, false)
  | Some req, Delivered pt => let '(s, r) := ReplicateVectorWrite dlt dist sort level_of pt req s in (s, match r with Ok _ => true | _ => false end)
  end.
Definition vectorDeleteReplay (call : fate) (payload : bytes) (s : vserver S) : vserver S * bool :=
  match unmarshalDelete payload, call with
  | None, _ | _, Lost => (s, false)
  | Some req, ReplyLost pt => ((ReplicateVectorDelete pt req s).1, false)
  | Some req, Delivered pt => let '(s, r) := ReplicateVectorDelete pt req s in (s, match r with Ok _ => true | _ => false end)
  end.
End replay.

(** ** Callbacks *)
Section wiring.
Context (Sum64 : bytes -> Z).
Context (range_members : gmap bytes MemberState -> list bytes) (sort_broadcasts : list broadcast -> list broadcast).

Definition ringNodes (rd : RingDescriptor) : list Node :=
  omap (fun rm => if (RMState rm =? RingJoining) || (RMState rm =? RingActive) then Some (mkNode (RMNodeID rm) (RMAddr rm)) else None) (RDMembers rd).
Definition onRingChange (rd : RingDescriptor) (r : Ring) : Ring := ReplaceMembers Sum64 r (ringNodes rd).
(** A node that comes back: its hints are drained and it is reconciled with. *)
Definition onLivenessChange (cfg : ManagerConfig) (selfID : bytes) (ev : livenessEvent) (draining : gset bytes) (m : Manager) : gset bytes * Manager * bool * bool :=
  if negb (evFrom ev =? Alive) && (evTo ev =? Alive) then
    let '(draining, drain) := TriggerDrain (evNode ev) draining in
    let '(m, round) := triggerInternal cfg selfID (evNode ev) m in (draining, m, drain, round)
  else (draining, m, false, false).

(** A membership with the ring it drives; [pending] are the callbacks that have not
    run yet, in the order in which the mutex was released. *)
Record ringSys := mkRS { rs_mem : Membership; rs_ring : Ring; pending : list RingDescriptor }.
Inductive ringEvent :=
| EvPing (now : Z) (msg : PingMessage)
| EvSync (now : Z) (remote : list MemberState) (rd : option RingDescriptor)
| EvReply (now : Z) (resp : option (list MemberState * option RingDescriptor))
| EvAck (now : Z) (target : bytes) (resp : PingMessage)
| EvAdmin (rd : RingDescriptor)
| EvPingReq (now : Z) (resp : option PingMessage)
| EvSend
| EvIndirect (now : Z) (target : bytes)
| EvFail (now : Z) (target : bytes)
| EvTimer (now : Z) (id : bytes)
| EvReap (now : Z) (ids : list bytes)
| EvCallback (i : nat).
Definition enqueue (cb : option RingDescriptor) (m : Membership) (s : ringSys) : ringSys := mkRS m (rs_ring s) (pending s ++ match cb with Some rd => [rd] | None => [] end).
Definition ring_step (e : ringEvent) (s : ringSys) : ringSys :=
  match e with
  | EvPing now msg => let '(m, _, eff) := HandlePing range_members sort_broadcasts now msg (rs_mem s) in enqueue (eRing eff) m s
  | EvSync now remote rd => let '(m, _, eff) := HandleGossipSync range_members sort_broadcasts now remote rd (rs_mem s) in enqueue (eRing eff) m s
  | EvReply now resp => let '(m, eff) := syncWithPeer range_members sort_broadcasts now resp (rs_mem s) in enqueue (eRing eff) m s
  | EvAck now target resp => let '(m, eff) := probe_ack range_members sort_broadcasts now target resp (rs_mem s) in enqueue (eRing eff) m s
  | EvAdmin rd => let '(m, cb) := ApplyRingDescriptor range_members sort_broadcasts rd (rs_mem s) in enqueue cb m s
  | EvPingReq now resp => let '(m, _, eff) := HandlePingReq sort_broadcasts now resp (rs_mem s) in enqueue (eRing eff) m s
  | EvSend => enqueue None (probe_send sort_broadcasts (rs_mem s)).1 s
  | EvIndirect now target => enqueue None (probe_refute sort_broadcasts now target (rs_mem s)).1 s
  | EvFail now target => enqueue None (probe_fail sort_broadcasts now target (rs_mem s)).1 s
  | EvTimer now id => enqueue None (suspectTimeout sort_broadcasts now id (rs_mem s)).1 s
  | EvReap now ids => enqueue None (reapDeadNodes now ids (rs_mem s)) s
  | EvCallback i =>
      match pending s !! i with
      | Some rd => mkRS (rs_mem s) (onRingChange rd (rs_ring s)) (delete i (pending s))
      | None => s
      end
  end.
Definition ring_run (es : list ringEvent) (s : ringSys) : ringSys := fold_left (fun s e => ring_step e s) es s.
(** The node at its start: 150 virtual nodes for each member. *)
Definition ringStart (c : ClusterConfig) : ringSys := mkRS (NewMembership c) (HashRing.New 150) [].

(** What a descriptor says of the ring: its nodes are the members that are joining
    or active, under the address the descriptor gives (the last one, if a member is
    listed twice), and its points the 150 virtual nodes of each. *)
Definition routable (rm : RingMember) : Prop := RMState rm = RingJoining \/ RMState rm = RingActive.
Definition listed (rms : list RingMember) (id addr : bytes) : Prop :=
  exists l rm l', rms = l ++ rm :: l' /\ RMNodeID rm = id /\ RMAddr rm = addr /\ routable rm /\
    (forall rm', rm' ∈ l' -> RMNodeID rm' = id -> ~ routable rm').
Record describes (rd : RingDescriptor) (r : Ring) : Prop := {
  ds_ok : ring_ok Sum64 r;
  ds_vnodes : vnodesPerNode r = 150;
  ds_nodes : forall id nd, nodes r !! id = Some nd <-> NodeID nd = id /\ listed (RDMembers rd) id (Addr nd)
}.

#[global] Instance routable_dec rm : Decision (routable rm) := _.
(** The ring [onRingChange] makes of a descriptor. *)
Definition ring_of (rd : RingDescriptor) : Ring := onRingChange rd (HashRing.New 150).

Lemma onRingChange_of rd r : vnodesPerNode r = 150 -> onRingChange rd r = ring_of rd.
Proof. intros E. unfold ring_of, onRingChange, ReplaceMembers. by rewrite E. Qed.

Lemma listed_cons rm rms id addr :
  listed (rm :: rms) id addr <->
  listed rms id addr \/ (RMNodeID rm = id /\ RMAddr rm = addr /\ routable rm /\ forall rm', rm' ∈ rms -> RMNodeID rm' = id -> ~ routable rm').
Proof.
  split.
  - intros (l & x & l' & E & H). destruct l as [|y l]; simplify_eq/=; [by right|left]. by exists l, x, l'.
  - intros [(l & x & l' & -> & H)|H]; [by exists (rm :: l), x, l'|by exists [], rm, rms].
Qed.
Lemma ringNodes_fold (rms : list RingMember) (v : Z) (id : bytes) (nd : Node) (m : gmap bytes Node) :
  fold_left (fun m n => <[NodeID n := n]> m) (ringNodes (mkRD v rms)) m !! id = Some nd <->
  (NodeID nd = id /\ listed rms id (Addr nd)) \/ (m !! id = Some nd /\ forall rm, rm ∈ rms -> RMNodeID rm = id -> ~ routable rm).
Proof.
  revert m; induction rms as [|rm rms IH]; intros m.
  { cbn. split; [intros H; right; split; [done|set_solver]|]. intros [(_ & l & x & l' & E & _)|[H _]]; [by destruct l|done]. }
  assert (ringNodes (mkRD v (rm :: rms)) = (if decide (routable rm) then [mkNode (RMNodeID rm) (RMAddr rm)] else []) ++ ringNodes (mkRD v rms)) as ->.
  { unfold ringNodes. cbn [RDMembers omap list_omap]. unfold routable. destruct (Z.eqb_spec (RMState rm) RingJoining), (Z.eqb_spec (RMState rm) RingActive); case_decide; tauto. }
  rewrite fold_left_app, IH, listed_cons. setoid_rewrite elem_of_cons. case_decide as Hr; cbn [fold_left NodeID].
  - destruct (decide (RMNodeID rm = id)) as [Ei|Ei]; [rewrite <-Ei, lookup_insert_eq|rewrite lookup_insert_ne by done].
    + split; [intros [?|[[= <-] H]]; [tauto|left; cbn; tauto]|]. intros [[En [?|(_ & Ea & _ & H)]]|[_ H]]; [tauto| |by destruct (H rm (or_introl eq_refl))].
      right. split; [|done]. destruct nd; cbn in *; congruence.
    + split; [intros [?|[E H]]; [tauto|right; split; [done|]; intros x [->|Hx]; [done|by apply H]]|]. intros [[En [?|(? & _)]]|[E H]]; [tauto|done|]. right. split; [done|]. intros x Hx. apply H. by right.
  - split; [intros [?|[E H]]; [tauto|right; split; [done|]; intros x [->|Hx]; [done|by apply H]]|].
    intros [[En [?|(_ & _ & ? & _)]]|[E H]]; [tauto|done|]. right. split; [done|]. intros x Hx. apply H. by right.
Qed.
Lemma ring_of_describes rd : describes rd (ring_of rd).
Proof.
  split; [apply ReplaceMembers_ok, New_ok|done|]. intros id nd. destruct rd as [v rms]. unfold ring_of, onRingChange, ReplaceMembers. cbn [nodes RDMembers].
  rewrite ringNodes_fold. rewrite lookup_empty. split; [intros [?|[? _]]; done|by left].
Qed.

(** The descriptor after an event is the one its callback gets, if it gets one. *)
Definition follows (cb : option RingDescriptor) (m m' : Membership) : Prop := ringDesc m' = default (ringDesc m) cb.
Lemma applyNewer_follows rd m : follows (applyNewer range_members sort_broadcasts rd m).2 m (applyNewer range_members sort_broadcasts rd m).1.
Proof. unfold applyNewer, follows. destruct rd as [rd|]; [|done]. by destruct (_ <? _). Qed.
Lemma probe_refute_desc now t m : ringDesc (probe_refute sort_broadcasts now t m).1 = ringDesc m.
Proof. unfold probe_refute. destruct (members m !! t); [|done]. destruct (_ =? _); [apply setLive_desc|done]. Qed.
Lemma probe_fail_desc now t m : ringDesc (probe_fail sort_broadcasts now t m).1 = ringDesc m.
Proof.
  unfold probe_fail. destruct (members m !! t); [|done]. destruct (_ =? _); [|done].
  pose proof (setLive_desc sort_broadcasts now t Suspect m). by destruct (setLivenessLocked _ now t Suspect m).
Qed.
Lemma timer_desc now id m : ringDesc (suspectTimeout sort_broadcasts now id m).1 = ringDesc m.
Proof. unfold suspectTimeout. destruct (members m !! id); [|done]. destruct (negb _); [done|]. apply setLive_desc. Qed.
Lemma reapDead_desc now ids m : ringDesc (reapDeadNodes now ids m) = ringDesc m.
Proof. unfold reapDeadNodes. destruct (_ <=? _); [done|apply reap_desc]. Qed.
Lemma probe_send_desc m : ringDesc (probe_send sort_broadcasts m).1 = ringDesc m.
Proof. unfold probe_send. pose proof (getBroadcasts_desc sort_broadcasts (maxPiggyback m) m) as H. by destruct (getBroadcastsLocked _ _ m). Qed.
Lemma ring_step_follows e s :
  (exists i, e = EvCallback i) \/
  exists cb m, ring_step e s = enqueue cb m s /\ follows cb (rs_mem s) m.
Proof.
  destruct e as [now msg|now remote rd|now resp|now t resp|rd|now resp| |now t|now t|now id|now ids|i]; [..|by left; exists i]; right; cbn [ring_step];
    [| | | | | |eexists None, _; split; [done|]; unfold follows; cbn [default]..].
  - unfold HandlePing. pose proof (mergeAll_desc sort_broadcasts now (Updates msg) (rs_mem s)) as H1. destruct (mergeAll _ now (Updates msg) (rs_mem s)) as [m1 evs]. cbn in H1.
    pose proof (applyNewer_follows (RingDesc msg) m1) as H2. destruct (applyNewer _ _ (RingDesc msg) m1) as [m2 cb].
    pose proof (getBroadcasts_desc sort_broadcasts (maxPiggyback m2) m2) as H3. destruct (getBroadcastsLocked _ _ m2) as [m3 us].
    exists cb, m3. split; [done|]. unfold follows in *. cbn in *. by rewrite H3, H2, H1.
  - unfold HandleGossipSync. pose proof (mergeAll_desc sort_broadcasts now remote (rs_mem s)) as H1. destruct (mergeAll _ now remote (rs_mem s)) as [m1 evs]. cbn in H1.
    pose proof (applyNewer_follows rd m1) as H2. destruct (applyNewer _ _ rd m1) as [m2 cb]. exists cb, m2. split; [done|]. unfold follows in *. cbn in *. by rewrite H2, H1.
  - unfold syncWithPeer. destruct resp as [[remote rd]|]; [|by exists None, (rs_mem s)].
    pose proof (mergeAll_desc sort_broadcasts now remote (rs_mem s)) as H1. destruct (mergeAll _ now remote (rs_mem s)) as [m1 evs]. cbn in H1.
    pose proof (applyNewer_follows rd m1) as H2. destruct (applyNewer _ _ rd m1) as [m2 cb]. exists cb, m2. split; [done|]. unfold follows in *. cbn in *. by rewrite H2, H1.
  - unfold probe_ack. pose proof (mergeAll_desc sort_broadcasts now (Updates resp) (rs_mem s)) as H1. destruct (mergeAll _ now (Updates resp) (rs_mem s)) as [m1 evs]. cbn in H1.
    pose proof (applyNewer_follows (RingDesc resp) m1) as H2. destruct (applyNewer _ _ (RingDesc resp) m1) as [m2 cb].
    pose proof (probe_refute_desc now t m2) as H3. destruct (probe_refute _ now t m2) as [m3 ev]. exists cb, m3. split; [done|]. unfold follows in *. cbn in *. by rewrite H3, H2, H1.
  - unfold ApplyRingDescriptor. destruct (_ <=? _); [by exists None, (rs_mem s)|]. by exists (Some rd), (applyRingDescLocked range_members sort_broadcasts rd (rs_mem s)).
  - unfold HandlePingReq. destruct resp as [r|]; [|by exists None, (rs_mem s)]. pose proof (mergeAll_desc sort_broadcasts now (Updates r) (rs_mem s)) as H1.
    destruct (mergeAll _ now (Updates r) (rs_mem s)) as [m1 evs]. exists None, m1. split; [done|]. exact H1.
  - apply probe_send_desc.
  - apply probe_refute_desc.
  - apply probe_fail_desc.
  - apply timer_desc.
  - apply reapDead_desc.
Qed.

(** The last callback still to run, or else the ring, is that of the descriptor. *)
Record ring_inv (s : ringSys) : Prop := {
  ri_vnodes : vnodesPerNode (rs_ring s) = 150;
  ri_last : match list_basics.list.last (pending s) with Some rd => rd = ringDesc (rs_mem s) | None => rs_ring s = ring_of (ringDesc (rs_mem s)) end
}.
Definition in_order (e : ringEvent) : Prop := match e with EvCallback i => i = 0%nat | _ => True end.
Lemma ring_step_inv e s : in_order e -> ring_inv s -> ring_inv (ring_step e s).
Proof.
  intros Ho [H1 H2]. destruct (ring_step_follows e s) as [[i ->]|(cb & m & -> & Hf)].
  - cbn in Ho. subst i. cbn [ring_step]. destruct (pending s) as [|rd rds] eqn:E; [change (ring_inv s); split; [done|by rewrite E]|]. cbn [lookup list_lookup delete list_delete].
    split; [done|]. cbn [pending rs_ring rs_mem]. rewrite last_cons in H2. destruct (list_basics.list.last rds) as [rd'|]; [done|]. subst rd. by apply onRingChange_of.
  - unfold follows in Hf. split; [done|]. unfold enqueue. cbn [pending rs_ring rs_mem]. destruct cb as [rd|]; cbn in Hf.
    + by rewrite last_snoc.
    + by rewrite app_nil_r, Hf.
Qed.

Lemma ring_run_last c es :
  Forall in_order es ->
  let s := ring_run es (ringStart c) in
  (pending s = [] -> rs_ring s = ring_of (ringDesc (rs_mem s))) /\
  rs_ring (ring_run (replicate (length (pending s)) (EvCallback 0)) s) = ring_of (ringDesc (rs_mem s)).
Proof.
  intros Hes s. assert (ring_inv s) as Hi.
  { assert (ring_inv (ringStart c)) as H0 by (split; [done|]; reflexivity). subst s. revert H0. generalize (ringStart c) as s0. induction Hes as [|e es He Hes IH]; intros s0 H0; [done|].
    cbn [ring_run fold_left]. apply IH. by apply ring_step_inv. }
  clearbody s. split; [intros E; by destruct Hi as [_ Hl]; rewrite E in Hl|]. remember (pending s) as rds eqn:E. symmetry in E. revert s Hi E.
  induction rds as [|rd rds IH]; intros s Hi E; [by destruct Hi as [_ Hl]; rewrite E in Hl|]. cbn [length replicate ring_run fold_left].
  specialize (IH (ring_step (EvCallback 0) s) ltac:(by apply ring_step_inv)). cbn [ring_step] in *. rewrite E in *. cbn [lookup list_lookup] in *. by apply IH.
Qed.

(** C26: The ring follows the descriptor.  From the start of a node, over any sequence of
    pings, exchanges, probes and their answers, timers and admin changes in which the
    callbacks run in the order of the changes they report: once none is pending, the
    nodes of the hash ring are exactly the joining and active members the
    membership's descriptor lists, each under the address it gives, and its points
    are the 150 virtual nodes of each of them; and running the pending callbacks gets
    there from any state.  The order is a hypothesis the code does not enforce:
    [ring_lags_descriptor]. *)
Theorem ring_follows_descriptor c es :
  Forall in_order es ->
  let s := ring_run es (ringStart c) in
  (pending s = [] -> describes (ringDesc (rs_mem s)) (rs_ring s)) /\
  describes (ringDesc (rs_mem s)) (rs_ring (ring_run (replicate (length (pending s)) (EvCallback 0)) s)).
Proof.
  intros Hes s. destruct (ring_run_last c es Hes) as [H1 H2]. fold s in H1, H2. split; [intros E; rewrite (H1 E)|rewrite H2]; apply ring_of_describes.
Qed.
End wiring.

(** ** A flaw: callbacks that overtake each other *)
Definition n_Sum64 (b : bytes) : Z := fold_left (fun h x => u64 (h * 31 + bZ x)) b 7.
Definition n_keys (m : gmap bytes MemberState) : list bytes := map fst (map_to_list m).
Definition nA : bytes := [Byte.x61].
Definition nB : bytes := [Byte.x62].
Definition n_rd1 : RingDescriptor := mkRD 1 [mkRM nA nA RingActive].
Definition n_rd2 : RingDescriptor := mkRD 2 [mkRM nA nA RingActive; mkRM nB nB RingJoining].
Definition n_ping (rd : RingDescriptor) : ringEvent := EvPing 0 (mkPing nB nB [] (Some rd)).
Definition n_run (es : list ringEvent) : ringSys := ring_run n_Sum64 n_keys (fun l => l) es (ringStart (DefaultClusterConfig nA nA)).

Definition n_members : Ring -> list Node := Members (fun m => map snd (map_to_list m)).

(** A flaw: the ring can stay behind its descriptor.  Two messages bring versions 1
    and 2; the callback of the second runs first.  The membership is at version 2,
    nothing is pending, and the ring is that of version 1: the node routes without
    B, and no message of version 2 will repair it. *)
Theorem ring_lags_descriptor :
  let s := n_run [n_ping n_rd1; n_ping n_rd2; EvCallback 1; EvCallback 0; n_ping n_rd2] in
  ringDesc (rs_mem s) = n_rd2 /\ pending s = [] /\ n_members (rs_ring s) = [mkNode nA nA] /\ n_members (ring_of n_Sum64 n_rd2) = [mkNode nB nB; mkNode nA nA].
Proof. vm_compute. done. Qed.

Lemma ring_follows_descriptor_witness :
  let s := n_run [n_ping n_rd1; EvAck 0 nB (mkPing nB nB [] (Some n_rd2)); EvCallback 0; EvCallback 0] in
  pending s = [] /\ Version (ringDesc (rs_mem s)) = 2 /\ describes n_Sum64 (ringDesc (rs_mem s)) (rs_ring s).
Proof.
  intros s. split; [vm_compute; reflexivity|]. split; [vm_compute; reflexivity|].
  destruct (ring_follows_descriptor n_Sum64 n_keys (fun l => l) (DefaultClusterConfig nA nA) [n_ping n_rd1; EvAck 0 nB (mkPing nB nB [] (Some n_rd2)); EvCallback 0; EvCallback 0]) as [H _]; [repeat constructor|].
  apply H. vm_compute. reflexivity.
Defined.
